(* ===== verification/_CoqProject ===== *)
-Q . S2P
Prelude.v
BaseTypes.v
Proto.v
GuidBytes.v
KeyPair.v
EndorsementCodec.v
FieldResolver.v
Requirement.v
ErdText.v
MessageHash.v
HashInjective.v
Signing.v
AuthZ.v
IdentityQueue.v
AuthN.v
MessageQueue.v
Transport.v
Handshake.v
IdentityCache.v
DateTimes.v
Logging.v
AesNegotiation.v
Node.v
ResourceQuery.v
ResourceManager.v
ServiceMessage.v
Connections.v
EndorsementService.v
NameService.v
MessageRules.v
FullClient.v
Reconnect.v
BsdSockets.v
StreamClient.v
NameClient.v
Transports.v
ThinConnection.v
ThinClient.v
ForwardServices.v
