(* ===== verification/Prelude.v ===== *)
(** * A verification of the Remote Socket Protocol (RSP)

    RSP connects nodes through resource managers.  Every node has a P-256 key pair
    and is named by a hash of its public key; nodes send each other signed messages;
    a resource manager keeps connections to nodes, checks and authorizes what they
    send and forwards it; services offer names, endorsements or sockets through it.
    This development models the C++ implementation (src/common,
    src/resource_manager, src/resource_service, src/client) as executable
    definitions and proves what makes its parts correct.

    ** How the program works, and where it is modelled

    - Data.  [BaseTypes] (common/base_types.cpp: [Buffer], [GUID], [NodeID]) and
      [DateTimes] (the same file: [DateTime], an IEEE double); [Proto] (the messages
      of messages.proto, one record each); [GuidBytes] (the two byte orders of node
      ids on the wire).
    - Keys and endorsements.  [KeyPair] (common/keypair.cpp), over the class
      [KeyPair.Crypto] for the cryptographic library; [EndorsementCodec]
      (common/endorsement/endorsement.cpp, class [Endorsement]): signed statements
      about nodes, their binary form, signing and verification.
    - Authorization rules.  [FieldResolver] (field_resolver.cpp and
      schema_registry.hpp) walks field paths over protobuf's reflection, the class
      [FieldResolver.Reflection]; [Requirement] (endorsement.cpp) evaluates and
      reduces requirement trees; [ErdText] (endorsement_text.cpp) prints and parses
      them; [MessageRules] (config/message_rules.cpp) builds the tree from the lines
      of a configuration file.
    - The path of a message.  [MessageHash] and [HashInjective]: the canonical hash
      of mq_signing.cpp; [Signing]: the queues that sign and check;
      [IdentityQueue]: the queue for messages whose signer is unknown; [AuthZ]
      (mq_authz.cpp): the authorization queue.  All of them derive from the queue
      with worker threads of [MessageQueue] (mq.hpp).
    - The life of a connection.  [Transports] (transport_tcp.cpp,
      transport_memory.cpp): connections over descriptors (Module [Descriptors]), the
      registry of memory transports ([MemoryTransports]), endpoints and the reconnect
      loop of TCP transports ([TcpTransports]); [Transport] (transport.cpp and the
      framing of the two encodings), [Handshake] (mq_ascii_handshake.cpp: which encoding),
      [AuthN] (mq_authn.cpp and encoding.cpp: who is the peer).
    - The node.  [IdentityCache], [AesNegotiation] and [Node] (common/node.cpp),
      [Logging] (common/logging/logging.cpp).  What a concrete node adds is the
      class [Node.NodeSpecific].
    - The resource manager (resource_manager.cpp).  [ResourceQuery]: the query
      language; [ResourceManager]: the directory, routing and the pipeline that
      composes [Signing], [AuthZ], [IdentityQueue] and [Node]; [Connections]: the
      registry of connections.
    - Services.  [ServiceMessage] (common/service_message.hpp),
      [EndorsementService], [NameService] and [BsdSockets], remote TCP sockets
      (src/resource_service); [ForwardServices]: the SSH and HTTP services, which
      derive from the last one.
    - The client node (client/cpp_full/rsp_client.cpp).  [FullClient]: sending, ping
      and dispatch, an instance of [Node.NodeSpecific]; [Reconnect]: the threads that
      connect, re-establish and remove a connection.
    - The thin client (client/cpp/rsp_client.cpp and rsp_client_message.cpp).
      [ThinConnection]: setting up a connection, and its threads as in [Reconnect] with
      another reconnect thread.  [ThinClient]: pings, endorsement requests, resource
      and schema queries and the dispatch of received messages; its theorems compose
      it with [EndorsementService], [IdentityCache] and [ResourceManager].
      [StreamClient]: streams to
      services and the native bridges that join them to local sockets; its theorems
      compose it with [BsdSockets].  [NameClient]: the wrappers of the name service,
      the thread that keeps names registered and the events about nodes; its theorems
      compose it with [NameService].

    ** Conventions

    Code that can throw, that can run into undefined behaviour or that is iterated
    with a bound returns [Res] (below); the bind of [Res] is the sequencing of
    statements.  A state that the code mutates is a record that is passed on; what an
    operation sends is a list in its result.  Threads are step relations whose steps
    are critical sections.  Integers are [Z] with the width written out ([wrap],
    [swrap]); byte strings are lists of characters.  Random values, clock readings
    and generated keys are arguments.  Libraries that are not part of the
    repository are classes of operations ([Crypto], [KeyAgreement], [Reflection],
    [HashCodec], [MathLib], [Wire], [StdSort], [ServiceMessageType]); what is
    assumed of them is in separate classes of laws, each with an instance.  The laws
    of the generated messages ([parses] and its like) are about values the wire format
    holds: texts in UTF-8 and numbers in the range of their field.

    ** What is proved

    - Authenticity and authorization.  What the resource manager delivers or
      forwards was signed by the sender it is attributed to, and a rule without
      EQUALS above its predicates holds for it ([delivered_messages_are_authentic],
      from [accepted_message_is_authentic], [authorization_is_sound] and
      [authorization_decides]; for EQUALS see [equals_rule_is_void]); the signature covers
      what the theorem [computeMessageHash_binding] lists, and
      the findings about what it does not cover are theorems too.
      [reduceRequirementTree_exact] gives the reduction its meaning.
    - Connections.  A successful identity exchange binds the peer's id to a key
      ([identity_exchange_is_sound]); honest nodes succeed
      ([honest_nodes_authenticate]), and then hear each other
      ([connected_peer_is_heard]); the registry of connections and the signing
      queues stay together ([connection_registry]); client and server agree on the
      encoding ([handshake_agrees]) and frames are read back ([frame_round_trip]).
    - Transports.  An open descriptor belongs to one connection
      ([descriptors_have_one_owner]), and a call works on its own socket when
      connections are closed only while nobody uses them ([io_reaches_own_socket],
      with [closed_descriptor_is_reused] for the case that somebody does).  The
      registry of memory transports is exact ([memory_registry_exact],
      [memory_connect_exact]) except for empty names and for transports used from
      several threads ([empty_name_dangles], [listener_can_vanish],
      [concurrent_listen_leaves_name]).  The reconnect loop ends as it should
      ([reconnect_exact]), but not after a stop
      ([stopped_transport_never_reconnects]); endpoints are read back and read alike
      in both places ([endpoint_round_trip], [endpoints_agree]).
    - The node.  Its handler is safe for every message on which the concrete node's
      is ([node_handler_safe]), which is every message at the resource manager and at
      the client ([rm_handler_safe], [client_handler_safe]); the
      identity cache refines a least-recently-refreshed list
      ([identity_cache_is_lru], [identity_cache_safe]); key negotiation keeps its
      tables consistent and ends with a common key ([aes_negotiation_invariant],
      [aes_negotiation_agrees]); publication reaches exactly the matching
      subscribers ([publish_exact]).
    - Queues.  Order, limit, handling of every message that was taken and the end of
      [stop], for every interleaving ([queue_is_fifo], [queue_limit_holds],
      [taken_messages_are_handled], [stop_terminates]), and the accounting of the
      identity queue ([identity_queue_invariant]).
    - Languages.  Printing and parsing are inverse for requirements, queries and
      endorsements ([fromString_toString], [parseQuery_print],
      [endorsement_binary_round_trip]); every parser ends; the configuration
      language is characterised completely, with the entry every error message names
      ([rules_accept_iff], [rules_errors],
      [let_is_spliced]).
    - Services and directory.  Queries and routing are exact ([query_reply_exact],
      [routing_exact]); the name service refines a map, with its answers as functions
      of the map up to the order of equal expiry times ([name_service_refines_map],
      [name_lookup_exact]); endorsements go exactly to those entitled to them
      ([endorsement_service_sound], [endorsement_service_serves]).
    - Remote sockets.  A socket is used and closed only for its owner or when it is
      shared ([sockets_are_private]), except when a connection request reuses an id and
      its reply cannot be sent ([failed_reply_closes_other]); until the process is
      terminated every open connection has exactly one owner
      ([socket_service_invariant]) and is closed at shutdown
      ([shutdown_closes_everything]); requests are answered once
      ([requests_answered_once]) and bytes arrive in order ([stream_carries_bytes],
      [async_stream_forwarded]).  A used id breaks this for connection requests
      ([used_id_is_accepted], [used_id_terminates]).  From client to service and back,
      a remote socket opens ([remote_socket_opens]), sends and receives like a socket
      while its stream is idle ([remote_socket_requests]), and its stream arrives at the
      local socket that was joined to it in time ([remote_stream_arrives]); what breaks this on the client's side is proved
      too ([send_takes_data_as_reply], [late_reply_answers_next_call],
      [route_can_be_redirected], [bridge_can_reorder],
      [dequeued_data_is_returned_again]).  The SSH and HTTP services expose no raw
      sockets ([forwarding_services_confined], [forwarded_streams_are_private]), and
      their streams open like sockets ([remote_shell_opens], [remote_http_opens]).
    - Names from the client.  A wrapper returns what the specification of the service
      says ([remote_names]); a round of the refresh thread restores what is registered
      ([registered_names_survive]), and a restarted service gets its names back
      ([restarted_service_recovers]); nodes are announced once per boot
      ([connections_announced]).  Calls are not kept apart from each other
      ([name_calls_share_a_slot], [name_replies_not_matched]), subscriptions add up
      ([renewed_subscriptions_add_up]), and a name service that reconnects is not
      announced ([reconnected_service_not_announced]).
    - Requests of the thin client.  A client gets the endorsement it is entitled to,
      also when the service has to learn its identity first ([endorsement_obtained]),
      and a call leaves nothing pending ([endorsement_call_leaves_nothing]); a ping is
      answered by its destination only ([thin_ping_exact]); a resource list is what
      the directory holds ([resource_list_exact]).  What goes wrong:
      [invalid_endorsement_throws], [unparsable_answer_succeeds],
      [late_endorsement_answers_next], [empty_resource_list_fails].  Its connections
      own their resources ([thin_connection_resources]), are set up completely or
      stopped ([setup_exact]) and their removal returns ([thin_removal_returns]), but a
      failed handshake ends reconnection ([failed_handshake_ends_reconnection]).
    - The client.  Messages go to the shortest queue ([send_picks_shortest]); a ping
      answers exactly when its reply was handled ([ping_exact]) and succeeds between
      two clients ([ping_is_answered]); whatever the threads of a connection do,
      queues and encodings are owned, and none runs on when the connection has been
      removed and no reconnect thread is at work ([reconnect_resources]).  What can go wrong there is proved as well
      ([removal_can_hang], [removal_can_leave_thread], [lost_connection_stays]).

    ** Bounds

    Recursion that is not structural carries a fuel, and running out of it is the
    outcome [NoFuel], which the theorems exclude: one more than the length of the
    text for the requirement parser ([fromString_total]), six per character and six
    for the query parser, whose levels are six functions deep ([parseQuery_total]),
    the length of the text for macro expansion ([rules_errors]), the number of
    entries for the trim loop of the identity cache, the number of bytes for the
    transfer loops of [Transport] and one more for the reading threads of [BsdSockets],
    three rounds for the identity exchange, one more than the number of the deciding
    attempt for the reconnect loop of [Transports], whose counter must not overflow (an unlimited loop that never
    succeeds and is never stopped does not end, and nothing is claimed of it).

    ** What is not modelled

    The sockets, files and processes of the operating system (src/os, key files; the
    system calls of the transports are arguments), the wiring of objects in
    constructors and destructors, trace output, the calendar form of [DateTime], the
    child processes, configuration files, built-in test server and main programs of
    the SSH and HTTP services, the bridges of listening sockets in the thin client,
    the C interface, the tools, the clients in other languages and the patches to
    third-party programs.  The interleavings are those of [MessageQueue], [IdentityQueue], [NameService], [Reconnect],
    [ThinConnection], [Transports.Descriptors] and, for the reading threads,
    [BsdSockets]; elsewhere a mutex makes an operation one step.

    ** This file

    The outcomes [Res], byte strings, machine integers, and the lemmas and hints
    that the other files share. *)

From Stdlib Require Export ZArith Ascii String Lia.
From stdpp Require Export base tactics list option gmap strings.
#[global] Open Scope Z_scope.

(** The development's hints: facts that close the routine goals of the proofs. *)
Create HintDb rsp.

(** ** Byte strings

    [std::string], [std::vector<uint8_t>] and [rsp::Buffer] contents are lists
    of 8-bit characters. *)
Abbreviation bytes := (list ascii).

(** A C++ string literal as a byte string. *)
Definition bs (s : string) : bytes := list_ascii_of_string s.
Arguments bs : simpl never.

(** [std::string::size()], as an unbounded integer. *)
Definition size_of {A} (l : list A) : Z := Z.of_nat (List.length l).

(** The value of a character as [uint8_t]. *)
Definition byte_val (c : ascii) : Z := Z.of_N (N_of_ascii c).

(** [static_cast<char>(z)], the low eight bits of [z]. *)
Definition byte_of (z : Z) : ascii := ascii_of_N (Z.to_N (z `mod` 256)).

(** [static_cast<uintN_t>(z)]. *)
Definition wrap (width : Z) (z : Z) : Z := z `mod` 2 ^ width.

(** [static_cast<intN_t>(z)]. *)
Definition swrap (width : Z) (z : Z) : Z :=
  (z + 2 ^ (width - 1)) `mod` 2 ^ width - 2 ^ (width - 1).

Definition is_u32 (z : Z) : Prop := 0 <= z < 2 ^ 32.
Definition is_u64 (z : Z) : Prop := 0 <= z < 2 ^ 64.
Definition is_i64 (z : Z) : Prop := - 2 ^ 63 <= z < 2 ^ 63.
Definition is_i32 (z : Z) : Prop := - 2 ^ 31 <= z < 2 ^ 31.

(** ** Outcomes of fallible code

    [Throw] carries the exception that leaves the function, [Undefined] marks a
    state from which the program has no defined continuation (a signed overflow,
    the use of a destroyed object, a failed internal check of protobuf, which
    aborts the process), and [NoFuel] is the artefact of a bounded iteration:
    the theorems show that it is never the result. *)
Inductive exn :=
| RuntimeError (what : bytes)
| InvalidArgument (what : bytes)
| LogicError (what : bytes).

Inductive Res (A : Type) :=
| Ok (a : A)
| Throw (e : exn)
| Undefined
| NoFuel.
Arguments Ok {A} a.
Arguments Throw {A} e.
Arguments Undefined {A}.
Arguments NoFuel {A}.

#[export] Instance res_ret : MRet Res := fun A a => Ok a.
#[export] Instance res_bind : MBind Res := fun A B f m =>
  match m with
  | Ok a => f a
  | Throw e => Throw e
  | Undefined => Undefined
  | NoFuel => NoFuel
  end.

Definition throw_runtime {A} (msg : string) : Res A := Throw (RuntimeError (bs msg)).

(** [catch (const std::runtime_error&)]: [std::invalid_argument] and
    [std::logic_error] are not runtime errors. *)
Definition catch_runtime {A} (m : Res A) (h : A) : Res A :=
  match m with
  | Throw (RuntimeError _) => Ok h
  | _ => m
  end.

(** [catch (const std::exception&)]. *)
Definition catch_any {A} (m : Res A) (h : exn -> Res A) : Res A :=
  match m with
  | Throw e => h e
  | _ => m
  end.

(** A computation that returns or throws. *)
Definition defined {A} (r : Res A) : Prop := match r with Ok _ | Throw _ => True | _ => False end.

(** [exn::what()]. *)
Definition exn_what (e : exn) : bytes :=
  match e with RuntimeError w | InvalidArgument w | LogicError w => w end.

Lemma defined_bind {A B} (m : Res A) (f : A -> Res B) :
  defined m -> (forall a, defined (f a)) -> defined (m ≫= f).
Proof. destruct m; intros Hm Hf; try done. apply Hf. Qed.

Lemma defined_catch {A} (m : Res A) h : defined m -> (forall e, defined (h e)) -> defined (catch_any m h).
Proof. destruct m; intros Hm Hh; try done. apply Hh. Qed.

(** ** Fixed-width integers as bytes *)

(** The [n] low bytes of [v], most significant first. *)
Fixpoint be_bytes (n : nat) (v : Z) : bytes :=
  match n with
  | O => []
  | S n' => byte_of (Z.land (Z.shiftr v (8 * Z.of_nat n')) 255) :: be_bytes n' v
  end.

(** The [n] low bytes of [v], least significant first. *)
Fixpoint le_bytes (n : nat) (v : Z) : bytes :=
  match n with
  | O => []
  | S n' => byte_of v :: le_bytes n' (Z.shiftr v 8)
  end.

(** [value = (value << 8) | byte], on a [w]-bit accumulator. *)
Definition shift_in (w : Z) (acc : Z) (c : ascii) : Z :=
  Z.lor (wrap w (Z.shiftl acc 8)) (byte_val c).

Definition be_value (w : Z) (l : bytes) : Z := foldl (shift_in w) 0 l.

Fixpoint le_value (l : bytes) : Z :=
  match l with
  | [] => 0
  | c :: l' => Z.lor (byte_val c) (Z.shiftl (le_value l') 8)
  end.

(** ** Generic lemmas: bytes *)

Lemma byte_val_range c : 0 <= byte_val c < 256.
Proof.
  unfold byte_val. pose proof (N_ascii_bounded c). lia.
Qed.

Lemma byte_val_of z : byte_val (byte_of z) = z `mod` 256.
Proof.
  unfold byte_val, byte_of.
  pose proof (Z.mod_pos_bound z 256 ltac:(lia)).
  rewrite N_ascii_embedding by lia. lia.
Qed.

Lemma byte_of_val c : byte_of (byte_val c) = c.
Proof.
  unfold byte_of, byte_val.
  pose proof (N_ascii_bounded c).
  rewrite Z.mod_small by lia.
  rewrite N2Z.id. apply ascii_N_embedding.
Qed.

Lemma byte_val_inj c d : byte_val c = byte_val d -> c = d.
Proof. intros H. by rewrite <- (byte_of_val c), H, byte_of_val. Qed.

Lemma byte_val_of_small z : 0 <= z < 256 -> byte_val (byte_of z) = z.
Proof. intros. rewrite byte_val_of. apply Z.mod_small. lia. Qed.

Lemma byte_of_low a c : byte_of (a * 256 + byte_val c) = c.
Proof.
  rewrite <- (byte_of_val c) at 2. unfold byte_of.
  by rewrite Z.add_comm, Z.mod_add by lia.
Qed.

Lemma byte_of_land z : byte_of (Z.land z 255) = byte_of z.
Proof.
  unfold byte_of. do 2 f_equal.
  change 255 with (Z.ones 8). rewrite Z.land_ones by lia.
  change (2 ^ 8) with 256. by rewrite Z.mod_mod by lia.
Qed.

Lemma byte_of_mod z m : byte_of (z `mod` (256 * 2 ^ Z.of_nat m)) = byte_of z.
Proof.
  unfold byte_of. do 2 f_equal.
  pose proof (Z.pow_pos_nonneg 2 (Z.of_nat m) ltac:(lia) ltac:(lia)).
  rewrite (Z.rem_mul_r z 256) by lia.
  rewrite Z.mul_comm, Z.mod_add by lia. by rewrite Z.mod_mod by lia.
Qed.

Lemma testbit_high b w n : 0 <= w -> 0 <= b < 2 ^ w -> w <= n -> Z.testbit b n = false.
Proof.
  intros Hw Hb Hn. rewrite Z.testbit_eqb by lia.
  rewrite Z.div_small; [done|].
  pose proof (Z.pow_le_mono_r 2 w n ltac:(lia) Hn). lia.
Qed.

Lemma lor_low_add a b w :
  0 <= w -> 0 <= b < 2 ^ w -> Z.lor (Z.shiftl a w) b = a * 2 ^ w + b.
Proof.
  intros Hw Hb.
  assert (Hl : Z.land (Z.shiftl a w) b = 0).
  { apply Z.bits_inj'. intros n Hn. rewrite Z.land_spec, Z.bits_0.
    destruct (decide (n < w)).
    - by rewrite Z.shiftl_spec_low by lia.
    - rewrite (testbit_high b w n) by lia. apply andb_false_r. }
  rewrite <- Z.lxor_lor, <- Z.add_nocarry_lxor by done.
  by rewrite Z.shiftl_mul_pow2 by lia.
Qed.

Lemma shift_in_wide w acc c :
  8 <= w -> 0 <= acc -> shift_in w acc c = (acc * 256) `mod` 2 ^ w + byte_val c.
Proof.
  intros Hw Ha. unfold shift_in, wrap. pose proof (byte_val_range c).
  rewrite Z.shiftl_mul_pow2 by lia. change (2 ^ 8) with 256.
  replace w with (8 + (w - 8)) by lia.
  rewrite Z.pow_add_r by lia. change (2 ^ 8) with 256.
  rewrite (Z.mul_comm acc), Zmult_mod_distr_l.
  rewrite <- (Z.mul_comm (acc `mod` _)).
  change 256 with (2 ^ 8) at 1. rewrite <- Z.shiftl_mul_pow2 by lia.
  by rewrite lor_low_add by (simpl; lia).
Qed.

(** ** Generic lemmas: big-endian integers *)

Lemma length_be_bytes n v : List.length (be_bytes n v) = n.
Proof. revert v. induction n; simpl; intros; [done|by f_equal]. Qed.

Lemma length_le_bytes n v : List.length (le_bytes n v) = n.
Proof. revert v. induction n; simpl; intros; [done|by f_equal]. Qed.

Lemma be_bytes_snoc n v : be_bytes (S n) v = be_bytes n (Z.shiftr v 8) ++ [byte_of v].
Proof.
  induction n as [|n IH].
  - simpl. by rewrite byte_of_land, Z.shiftr_0_r.
  - cbn [be_bytes] in *. rewrite IH.
    cbn [app]. f_equal. rewrite !byte_of_land, Z.shiftr_shiftr by lia.
    do 2 f_equal. lia.
Qed.

Lemma be_bytes_value w n v :
  8 <= w -> 8 * Z.of_nat n <= w -> 0 <= v < 2 ^ (8 * Z.of_nat n) ->
  be_value w (be_bytes n v) = v.
Proof.
  intros Hw. revert v. induction n as [|n IH]; intros v Hn Hv.
  - simpl in *. unfold be_value. simpl. lia.
  - rewrite be_bytes_snoc. unfold be_value. rewrite foldl_app. cbn [foldl].
    fold (be_value w (be_bytes n (Z.shiftr v 8))).
    assert (Hs : 0 <= Z.shiftr v 8 < 2 ^ (8 * Z.of_nat n)).
    { rewrite Z.shiftr_div_pow2 by lia. change (2 ^ 8) with 256.
      replace (8 * Z.of_nat (S n)) with (8 + 8 * Z.of_nat n) in Hv by lia.
      rewrite Z.pow_add_r in Hv by lia. change (2 ^ 8) with 256 in Hv.
      split; [apply Z.div_pos; lia | apply Z.div_lt_upper_bound; lia]. }
    rewrite IH by lia. rewrite shift_in_wide by lia.
    rewrite byte_val_of, Z.shiftr_div_pow2 by lia. change (2 ^ 8) with 256.
    rewrite Z.mod_small.
    + rewrite (Z.div_mod v 256) at 3 by lia. lia.
    + pose proof (Z.div_mod v 256 ltac:(lia)). pose proof (Z.mod_pos_bound v 256 ltac:(lia)).
      pose proof (Z.pow_le_mono_r 2 _ w ltac:(lia) Hn). lia.
Qed.

Lemma be_value_unfold w l : be_value w l = foldl (shift_in w) 0 l.
Proof. reflexivity. Qed.

Lemma be_value_snoc w l c : be_value w (l ++ [c]) = shift_in w (be_value w l) c.
Proof. unfold be_value. by rewrite foldl_app. Qed.

Lemma be_value_range w l :
  8 <= w -> 8 * size_of l <= w -> 0 <= be_value w l < 2 ^ (8 * size_of l).
Proof.
  unfold size_of. intros Hw. induction l as [|c l IH] using rev_ind; intros Hl; [unfold be_value; simpl; lia|].
  rewrite length_app in *. cbn [List.length] in *.
  specialize (IH ltac:(lia)). pose proof (byte_val_range c).
  rewrite be_value_snoc, shift_in_wide by lia.
  replace (8 * Z.of_nat (List.length l + 1)) with (8 + 8 * Z.of_nat (List.length l)) by lia.
  rewrite Z.pow_add_r by lia. change (2 ^ 8) with 256.
  rewrite Z.mod_small; [lia|].
  pose proof (Z.pow_le_mono_r 2 (8 + 8 * Z.of_nat (List.length l)) w ltac:(lia) ltac:(lia)) as Hp.
  rewrite Z.pow_add_r in Hp by lia. change (2 ^ 8) with 256 in Hp. lia.
Qed.

Lemma be_value_bytes w l :
  8 <= w -> 8 * size_of l <= w -> be_bytes (List.length l) (be_value w l) = l.
Proof.
  unfold size_of. intros Hw. induction l as [|c l IH] using rev_ind; intros Hl; [done|].
  rewrite length_app in *. cbn [List.length] in *. rewrite Nat.add_1_r, be_bytes_snoc.
  pose proof (be_value_range w l Hw ltac:(unfold size_of; lia)) as Hr. unfold size_of in Hr.
  pose proof (byte_val_range c).
  pose proof (Z.pow_le_mono_r 2 (8 + 8 * Z.of_nat (List.length l)) w ltac:(lia) ltac:(lia)) as Hp.
  rewrite Z.pow_add_r in Hp by lia. change (2 ^ 8) with 256 in Hp.
  rewrite be_value_snoc, shift_in_wide, Z.mod_small by lia.
  rewrite Z.shiftr_div_pow2, byte_of_low by lia. change (2 ^ 8) with 256.
  rewrite Z.div_add_l, (Z.div_small (byte_val c)), Z.add_0_r, IH by lia. done.
Qed.

(** ** Generic lemmas: little-endian integers *)

Lemma le_value_range l : 0 <= le_value l < 2 ^ (8 * size_of l).
Proof.
  unfold size_of. induction l as [|c l IH]; [simpl; lia|].
  cbn [le_value List.length]. pose proof (byte_val_range c).
  rewrite Z.lor_comm, lor_low_add by (simpl; lia).
  replace (8 * Z.of_nat (S (List.length l))) with (8 + 8 * Z.of_nat (List.length l)) by lia.
  rewrite Z.pow_add_r by lia. change (2 ^ 8) with 256. lia.
Qed.

Lemma le_bytes_value n v : 0 <= v < 2 ^ (8 * Z.of_nat n) -> le_value (le_bytes n v) = v.
Proof.
  revert v. induction n as [|n IH]; intros v Hv; [simpl in *; lia|].
  cbn [le_bytes le_value].
  assert (Hs : 0 <= Z.shiftr v 8 < 2 ^ (8 * Z.of_nat n)).
  { rewrite Z.shiftr_div_pow2 by lia. change (2 ^ 8) with 256.
    replace (8 * Z.of_nat (S n)) with (8 + 8 * Z.of_nat n) in Hv by lia.
    rewrite Z.pow_add_r in Hv by lia. change (2 ^ 8) with 256 in Hv.
    split; [apply Z.div_pos; lia | apply Z.div_lt_upper_bound; lia]. }
  rewrite IH by lia. pose proof (byte_val_range (byte_of v)).
  rewrite Z.lor_comm, lor_low_add by (simpl; lia).
  rewrite byte_val_of, Z.shiftr_div_pow2 by lia. change (2 ^ 8) with 256.
  rewrite (Z.div_mod v 256) at 3 by lia. lia.
Qed.

Lemma le_value_bytes l : le_bytes (List.length l) (le_value l) = l.
Proof.
  induction l as [|c l IH]; [done|]. cbn [List.length le_bytes le_value].
  pose proof (byte_val_range c).
  rewrite Z.lor_comm, lor_low_add by (simpl; lia). change (2 ^ 8) with 256.
  f_equal.
  - apply byte_of_low.
  - rewrite Z.shiftr_div_pow2 by lia. change (2 ^ 8) with 256.
    rewrite Z.add_comm, Z.div_add by lia. rewrite Z.div_small by lia.
    by rewrite Z.add_0_l.
Qed.

(** ** Order of byte strings: [std::string::compare], as unsigned characters *)
Fixpoint bytes_leb (a b : bytes) : bool :=
  match a, b with
  | [], _ => true
  | _ :: _, [] => false
  | x :: a', y :: b' =>
      if byte_val x <? byte_val y then true
      else if byte_val y <? byte_val x then false
      else bytes_leb a' b'
  end.

Lemma bytes_leb_antisym a b : bytes_leb a b = true -> bytes_leb b a = true -> a = b.
Proof.
  revert b. induction a as [|x a IH]; intros [|y b]; cbn; try done.
  destruct (Z.ltb_spec (byte_val x) (byte_val y)), (Z.ltb_spec (byte_val y) (byte_val x)); try lia; try done.
  intros H1 H2. f_equal; [apply byte_val_inj; lia|by apply IH].
Qed.

Lemma bytes_leb_total a b : bytes_leb a b = true \/ bytes_leb b a = true.
Proof.
  revert b. induction a as [|x a IH]; intros [|y b]; cbn; auto.
  destruct (Z.ltb_spec (byte_val x) (byte_val y)), (Z.ltb_spec (byte_val y) (byte_val x)); auto; lia.
Qed.

(** ** Characters *)

(** [c >= lo && c <= hi]. *)
Definition in_range (lo hi c : ascii) : bool :=
  (byte_val lo <=? byte_val c) && (byte_val c <=? byte_val hi).

Definition is_digit (c : ascii) : bool := in_range "0" "9" c.

(** The three-way test every hex reader of the sources spells out. *)
Definition is_hex (c : ascii) : bool :=
  is_digit c || in_range "a" "f" c || in_range "A" "F" c.

(** The value the hex readers give a digit, [None] where they throw. *)
Definition hex_val (c : ascii) : option Z :=
  if in_range "0" "9" c then Some (byte_val c - byte_val "0")
  else if in_range "a" "f" c then Some (byte_val c - byte_val "a" + 10)
  else if in_range "A" "F" c then Some (byte_val c - byte_val "A" + 10)
  else None.

(** ["0123456789abcdef"[d]]. *)
Definition hex_char (d : Z) : ascii :=
  default "0"%char (bs "0123456789abcdef" !! Z.to_nat d).

(** The [n] low hexadecimal digits of [v], most significant first. *)
Fixpoint hex_fixed (n : nat) (v : Z) : bytes :=
  match n with
  | O => []
  | S n' => hex_char (Z.land (Z.shiftr v (4 * Z.of_nat n')) 15) :: hex_fixed n' v
  end.

(** [std::isspace] in the "C" locale. *)
Definition is_space (c : ascii) : bool :=
  (byte_val c =? 32) || ((9 <=? byte_val c) && (byte_val c <=? 13)).

(** [std::toupper] in the "C" locale. *)
Definition to_upper (c : ascii) : ascii :=
  if in_range "a" "z" c then byte_of (byte_val c - 32) else c.

(** [std::isalnum] in the "C" locale. *)
Definition is_alnum (c : ascii) : bool :=
  is_digit c || in_range "a" "z" c || in_range "A" "Z" c.

Lemma ascii_forall (P : ascii -> bool) :
  forallb P (ascii_of_N <$> (N.of_nat <$> seq 0 256)) = true -> forall c, P c = true.
Proof.
  intros H c. rewrite forallb_forall in H. apply H.
  rewrite <- (ascii_N_embedding c). apply in_map. rewrite in_map_iff.
  exists (N.to_nat (N_of_ascii c)). rewrite N2Nat.id. split; [done|].
  rewrite in_seq. pose proof (N_ascii_bounded c). lia.
Qed.

(** Settles a decidable statement about one character by checking all 256. *)
Ltac by_all_chars c :=
  revert c; refine (ascii_forall _ _); vm_compute; reflexivity.

Lemma hex_val_is_hex c : is_hex c = match hex_val c with Some _ => true | None => false end.
Proof.
  apply eqb_prop. by_all_chars c.
Qed.

Lemma hex_val_range c d : hex_val c = Some d -> 0 <= d < 16.
Proof.
  intros H.
  assert (Hb : match hex_val c with Some d => (0 <=? d) && (d <? 16) | None => true end = true).
  { clear H. by_all_chars c. }
  rewrite H in Hb. lia.
Qed.

Lemma hex_val_char d : 0 <= d < 16 -> hex_val (hex_char d) = Some d.
Proof.
  intros. assert (d = 0 \/ d = 1 \/ d = 2 \/ d = 3 \/ d = 4 \/ d = 5 \/ d = 6 \/ d = 7 \/
    d = 8 \/ d = 9 \/ d = 10 \/ d = 11 \/ d = 12 \/ d = 13 \/ d = 14 \/ d = 15) as Hd by lia.
  repeat (destruct Hd as [->|Hd]; [reflexivity|]). by subst.
Qed.

Lemma is_hex_char d : 0 <= d < 16 -> is_hex (hex_char d) = true.
Proof. intros. by rewrite hex_val_is_hex, hex_val_char. Qed.

Lemma length_hex_fixed n v : List.length (hex_fixed n v) = n.
Proof. induction n; simpl; [done|by f_equal]. Qed.

Lemma nibble_range v k : 0 <= Z.land (Z.shiftr v k) 15 < 16.
Proof.
  change 15 with (Z.ones 4). rewrite Z.land_ones by lia.
  apply Z.mod_pos_bound. lia.
Qed.

Lemma hex_fixed_all_hex n v : Forall (fun c => is_hex c = true) (hex_fixed n v).
Proof. induction n; simpl; constructor; [apply is_hex_char, nibble_range | done]. Qed.

Lemma hex_fixed_snoc n v :
  hex_fixed (S n) v = hex_fixed n (Z.shiftr v 4) ++ [hex_char (Z.land v 15)].
Proof.
  induction n as [|n IH]; [simpl; by rewrite Z.shiftr_0_r|].
  cbn [hex_fixed] in *. rewrite IH. cbn [app]. f_equal.
  rewrite Z.shiftr_shiftr by lia. do 3 f_equal. lia.
Qed.

Lemma hex_fixed_app n m v :
  hex_fixed (n + m) v = hex_fixed n (Z.shiftr v (4 * Z.of_nat m)) ++ hex_fixed m v.
Proof.
  induction n as [|n IH]; [done|]. cbn [hex_fixed Nat.add]. rewrite IH. cbn [app]. f_equal.
  rewrite Z.shiftr_shiftr by lia. do 3 f_equal. lia.
Qed.

Lemma hex_fixed_land n v w :
  4 * Z.of_nat n <= w -> hex_fixed n (Z.land v (Z.ones w)) = hex_fixed n v.
Proof.
  intros Hw. induction n as [|n IH]; [done|]. cbn [hex_fixed]. rewrite IH by lia. f_equal.
  f_equal.
  apply Z.bits_inj'. intros k Hk. rewrite !Z.land_spec, !Z.shiftr_spec, Z.land_spec by lia.
  destruct (decide (k < 4)).
  - rewrite (Z.ones_spec_low w) by lia. by rewrite andb_true_r.
  - change 15 with (Z.ones 4). rewrite (Z.ones_spec_high 4) by lia. by rewrite !andb_false_r.
Qed.

(** ** Decimal numbers *)

Definition dash : ascii := "-".

(** [std::to_string]: the decimal digits, with a sign. *)
Definition digit_char (d : Z) : ascii := byte_of (byte_val "0" + d).

Fixpoint digits (fuel : nat) (n : Z) (acc : bytes) : bytes :=
  match fuel with
  | O => acc
  | S fuel' =>
      let acc' := digit_char (n `mod` 10) :: acc in
      if n <? 10 then acc' else digits fuel' (n / 10) acc'
  end.

Definition to_string (z : Z) : bytes :=
  let magnitude := digits (S (Z.to_nat (Z.log2 (Z.abs z)))) (Z.abs z) [] in
  if z <? 0 then dash :: magnitude else magnitude.

Definition digit_val (c : ascii) : Z := byte_val c - byte_val "0".

(** The number a string of digits denotes after the digits read so far. *)
Definition dec_value (acc : Z) (l : bytes) : Z := foldl (fun a c => a * 10 + digit_val c) acc l.

Lemma digit_char_val d : 0 <= d < 10 -> is_digit (digit_char d) = true /\ digit_val (digit_char d) = d.
Proof.
  intros Hd. unfold is_digit, in_range, digit_val, digit_char.
  rewrite byte_val_of_small by (change (byte_val "0") with 48; lia).
  change (byte_val "0") with 48. change (byte_val "9") with 57. lia.
Qed.

Lemma digit_val_range c : is_digit c = true -> 0 <= digit_val c < 10.
Proof.
  unfold is_digit, in_range, digit_val. change (byte_val "0") with 48. change (byte_val "9") with 57. lia.
Qed.

Lemma dec_value_le acc l :
  0 <= acc -> Forall (fun c => is_digit c = true) l -> acc <= dec_value acc l.
Proof.
  intros Ha Hl. revert acc Ha. induction Hl as [|c l Hc Hl IH]; intros acc Ha; [done|].
  unfold dec_value in *. cbn [foldl]. pose proof (digit_val_range c Hc).
  specialize (IH (acc * 10 + digit_val c)). lia.
Qed.

(** What [digits] prepends denotes [n] and consists of digits. *)
Lemma digits_spec fuel n acc :
  0 <= n < 10 ^ Z.of_nat fuel -> (0 < fuel)%nat ->
  exists c l, digits fuel n acc = c :: l ++ acc
    /\ Forall (fun c => is_digit c = true) (c :: l) /\ dec_value 0 (c :: l) = n.
Proof.
  revert n acc. induction fuel as [|fuel IH]; intros n acc Hn Hf; [lia|]. cbn [digits].
  pose proof (Z.mod_pos_bound n 10 ltac:(lia)) as Hm. destruct (digit_char_val _ Hm) as [Hd Hv].
  destruct (Z.ltb_spec n 10).
  - exists (digit_char (n `mod` 10)), []. split; [done|]. split; [by repeat constructor|].
    unfold dec_value. cbn [foldl]. rewrite Hv, Z.mod_small; lia.
  - destruct fuel as [|fuel]; [simpl in Hn; lia|].
    destruct (IH (n / 10) (digit_char (n `mod` 10) :: acc)) as (c & l & -> & Hdig & Hval); [|lia|].
    { replace (Z.of_nat (S (S fuel))) with (1 + Z.of_nat (S fuel)) in Hn by lia.
      rewrite Z.pow_add_r in Hn by lia. change (10 ^ 1) with 10 in Hn.
      split; [apply Z.div_pos|apply Z.div_lt_upper_bound]; lia. }
    exists c, (l ++ [digit_char (n `mod` 10)]). split; [by rewrite <- app_assoc|]. split.
    + inversion Hdig; subst. constructor; [done|]. apply Forall_app. by repeat constructor.
    + unfold dec_value in *. rewrite app_comm_cons, foldl_app, Hval. cbn [foldl]. rewrite Hv.
      pose proof (Z.div_mod n 10 ltac:(lia)). lia.
Qed.

Lemma to_string_spec z :
  exists c l, to_string z = (if z <? 0 then [dash] else []) ++ c :: l
    /\ Forall (fun c => is_digit c = true) (c :: l) /\ dec_value 0 (c :: l) = Z.abs z.
Proof.
  unfold to_string. destruct (digits_spec (S (Z.to_nat (Z.log2 (Z.abs z)))) (Z.abs z) [])
    as (c & l & -> & Hd & Hv); [|lia|].
  - rewrite Nat2Z.inj_succ, Z2Nat.id by apply Z.log2_nonneg.
    destruct (Z.eq_dec z 0) as [->|Hz]; [done|]. pose proof (Z.log2_spec (Z.abs z) ltac:(lia)).
    pose proof (Z.pow_le_mono_l 2 10 (Z.succ (Z.log2 (Z.abs z))) ltac:(lia)). lia.
  - exists c, l. rewrite app_nil_r. by destruct (z <? 0).
Qed.

#[export] Hint Resolve byte_val_range length_be_bytes length_le_bytes length_hex_fixed : rsp.
