(* ===== verification/BaseTypes.v ===== *)
(** * common/base_types: [Buffer], [GUID] and [NodeID]

    [GUID] is a pair of 64-bit words.  [toString] prints the 8-4-4-4-12 form
    through an [std::ostringstream]; [parse] strips braces and dashes, insists
    on 32 hexadecimal digits and folds them into the two words. *)

From S2P Require Import Prelude.

(** ** Buffer

    [bytes_] is the owning pointer: [None] is [nullptr]. *)
Module Buffer.

Record t := mk { bytes_ : option bytes; size_ : nat }.

Definition empty_buffer : t := mk None 0.

(** [Buffer(uint32_t size)]: zero-initialised storage, none for size 0. *)
Definition of_size (size : nat) : t :=
  mk (match size with O => None | _ => Some (replicate size (byte_of 0)) end) size.

(** [Buffer(const uint8_t* data, uint32_t size)]; [data] is [None] for a null
    pointer and otherwise the bytes readable behind it. *)
Definition of_data (data : option bytes) (size : nat) : t :=
  match data, bytes_ (of_size size) with
  | Some src, Some _ => mk (Some (take size src)) size
  | _, _ => of_size size
  end.

Definition data (b : t) : option bytes := bytes_ b.
Definition size (b : t) : nat := size_ b.
Definition empty (b : t) : bool := Nat.eqb (size_ b) 0.

(** The copy constructor delegates to [of_data]. *)
Definition copy (other : t) : t := of_data (data other) (size other).

(** The defaulted move constructor and move assignment: the pointer moves, the
    source keeps its [size_]. Result and moved-from source. *)
Definition move (other : t) : t * t := (mk (bytes_ other) (size_ other), mk None (size_ other)).

(** [operator=(const Buffer&)] between distinct objects: copy, then move. *)
Definition assign (other : t) : t := fst (move (copy other)).

Definition resize (b : t) (new_size : nat) : t :=
  if Nat.eqb new_size (size_ b) then b
  else
    let resized := bytes_ (of_size new_size) in
    let bytesToCopy := Nat.min new_size (size_ b) in
    let filled :=
      match bytes_ b, resized with
      | Some src, Some dst =>
          if Nat.eqb bytesToCopy 0 then Some dst
          else Some (take bytesToCopy src ++ drop bytesToCopy dst)
      | _, _ => resized
      end in
    mk filled new_size.

(** Storage and size agree: there is storage exactly for a positive size. *)
Definition wf (b : t) : Prop :=
  match bytes_ b with
  | None => size_ b = 0%nat
  | Some l => List.length l = size_ b /\ (0 < size_ b)%nat
  end.

(** The bytes the buffer stands for. *)
Definition contents (b : t) : bytes := default [] (bytes_ b).

End Buffer.

(** ** GUID *)
Record GUID := mkGUID { high : Z; low : Z }.
Abbreviation NodeID := GUID (only parsing).

#[export] Instance GUID_eq_dec : EqDecision GUID.
Proof. solve_decision. Defined.

#[export] Instance GUID_countable : Countable GUID.
Proof.
  refine (inj_countable' (fun g => (high g, low g)) (fun p => mkGUID p.1 p.2) _).
  by intros [].
Defined.

(** Both words are 64-bit values, as the member types say. *)
Definition GUID_wf (g : GUID) : Prop := is_u64 (high g) /\ is_u64 (low g).

(** [stream << std::hex << std::setfill('0') << std::setw(w) << v] for an
    unsigned [v] of at most 64 bits: the digits without leading zeros, padded
    on the left to the field width. *)
Fixpoint drop_zeros (l : bytes) : bytes :=
  match l with
  | c :: l' => if Ascii.eqb c "0" then drop_zeros l' else l
  | [] => []
  end.

Definition hex_min (v : Z) : bytes :=
  match drop_zeros (hex_fixed 16 v) with
  | [] => ["0"%char]
  | l => l
  end.

Definition put_hex (w : nat) (v : Z) : bytes :=
  let digits := hex_min v in
  replicate (w - List.length digits) "0"%char ++ digits.

Definition GUID_toString (g : GUID) : bytes :=
  put_hex 8 (wrap 32 (Z.shiftr (high g) 32)) ++ bs "-"
  ++ put_hex 4 (wrap 16 (Z.land (Z.shiftr (high g) 16) 65535)) ++ bs "-"
  ++ put_hex 4 (wrap 16 (Z.land (high g) 65535)) ++ bs "-"
  ++ put_hex 4 (wrap 16 (Z.shiftr (low g) 48)) ++ bs "-"
  ++ put_hex 12 (Z.land (low g) (Z.ones 48)).

(** The character loop of [GUID::normalize]. *)
Fixpoint normalize_loop (guidString compact : bytes) : Res bytes :=
  match guidString with
  | [] => Ok compact
  | current :: rest =>
      if Ascii.eqb current "{" || Ascii.eqb current "}" || Ascii.eqb current "-"
      then normalize_loop rest compact
      else if negb (is_hex current)
      then Throw (InvalidArgument (bs "GUID contains an invalid character"))
      else normalize_loop rest (compact ++ [current])
  end.

Definition normalize (guidString : bytes) : Res bytes :=
  compact ← normalize_loop guidString [];
  if Nat.eqb (List.length compact) 32 then Ok compact
  else Throw (InvalidArgument (bs "GUID must contain exactly 32 hex digits")).

(** [GUID::parseHex64]: shift the 64-bit accumulator by a nibble per digit. *)
Fixpoint parseHex64_loop (text : bytes) (value : Z) : Res Z :=
  match text with
  | [] => Ok value
  | current :: rest =>
      match hex_val current with
      | Some d => parseHex64_loop rest (Z.lor (wrap 64 (Z.shiftl value 4)) d)
      | None => Throw (InvalidArgument (bs "GUID contains a non-hex character"))
      end
  end.

Definition parseHex64 (text : bytes) : Res Z := parseHex64_loop text 0.

Definition GUID_parse (guidString : bytes) : Res GUID :=
  normalized ← normalize guidString;
  h ← parseHex64 (take 16 normalized);
  l ← parseHex64 (take 16 (drop 16 normalized));
  Ok (mkGUID h l).

Definition GUID_ltb (a b : GUID) : bool :=
  if negb (high a =? high b) then high a <? high b else low a <? low b.

Definition GUID_eqb (a b : GUID) : bool := (high a =? high b) && (low a =? low b).

(** ** Lemmas: printing hexadecimal fields *)

Lemma drop_zeros_spec l :
  l = replicate (List.length l - List.length (drop_zeros l)) "0"%char ++ drop_zeros l
  /\ (List.length (drop_zeros l) <= List.length l)%nat.
Proof.
  induction l as [|c l [IH Hle]]; [done|]. simpl.
  destruct (Ascii.eqb_spec c "0") as [->|Hc].
  - split; [|lia]. rewrite Nat.sub_succ_l by lia. simpl. by f_equal.
  - simpl. by rewrite Nat.sub_diag.
Qed.

Lemma drop_zeros_replicate k l : drop_zeros (replicate k "0"%char ++ l) = drop_zeros l.
Proof. induction k; simpl; done. Qed.

Lemma pad_drop_zeros l :
  l <> [] ->
  (let digits := match drop_zeros l with [] => ["0"%char] | d => d end in
   replicate (List.length l - List.length digits) "0"%char ++ digits) = l.
Proof.
  intros Hl. destruct (drop_zeros_spec l) as [Heq Hle].
  destruct (drop_zeros l) as [|c d]; [|exact (eq_sym Heq)].
  rewrite app_nil_r in Heq. cbn [List.length] in *. rewrite Nat.sub_0_r in Heq.
  destruct l as [|c0 l]; [done|]. rewrite Heq at 2. cbn [List.length].
  replace (S (List.length l) - 1)%nat with (List.length l) by lia.
  by rewrite <- replicate_S_end.
Qed.

Lemma hex_fixed_0 k : hex_fixed k 0 = replicate k "0"%char.
Proof. induction k; [done|]. cbn [hex_fixed replicate]. by rewrite Z.shiftr_0_l, IHk. Qed.

Lemma put_hex_fixed w v :
  (0 < w <= 16)%nat -> 0 <= v < 2 ^ (4 * Z.of_nat w) -> put_hex w v = hex_fixed w v.
Proof.
  intros Hw Hv. unfold put_hex, hex_min.
  replace 16%nat with ((16 - w) + w)%nat by lia. rewrite hex_fixed_app.
  rewrite Z.shiftr_div_pow2, Z.div_small, hex_fixed_0, drop_zeros_replicate by lia.
  pose proof (pad_drop_zeros (hex_fixed w v)) as Hp. rewrite length_hex_fixed in Hp.
  apply Hp. destruct w; [lia|done].
Qed.

(** ** Lemmas: reading hexadecimal fields *)

Lemma normalize_loop_hex l k compact :
  Forall (fun c => is_hex c = true) l ->
  normalize_loop (l ++ k) compact = normalize_loop k (compact ++ l).
Proof.
  intros Hl. revert compact. induction Hl as [|c l Hc Hl IH]; intros compact.
  - by rewrite app_nil_r.
  - cbn [app normalize_loop].
    assert (Hn : (Ascii.eqb c "{" || Ascii.eqb c "}" || Ascii.eqb c "-") = false).
    { destruct (Ascii.eqb_spec c "{") as [->|]; [discriminate Hc|].
      destruct (Ascii.eqb_spec c "}") as [->|]; [discriminate Hc|].
      destruct (Ascii.eqb_spec c "-") as [->|]; [discriminate Hc|done]. }
    rewrite Hn, Hc. simpl. by rewrite IH, <- app_assoc.
Qed.

Lemma normalize_loop_dash k compact :
  normalize_loop (bs "-" ++ k) compact = normalize_loop k compact.
Proof. done. Qed.

(** What the loop collects: exactly the characters that are neither braces nor
    dashes, all of them hexadecimal. *)
Lemma normalize_loop_sound s compact r :
  normalize_loop s compact = Ok r ->
  exists l, r = compact ++ l /\ Forall (fun c => is_hex c = true) l.
Proof.
  revert compact. induction s as [|c s IH]; intros compact; cbn [normalize_loop].
  - intros [= <-]. exists []. by rewrite app_nil_r.
  - destruct (_ || _); [apply IH|].
    destruct (is_hex c) eqn:Hc; [|discriminate]. simpl. intros H.
    apply IH in H as (l & -> & Hl). exists (c :: l). rewrite <- app_assoc. by auto.
Qed.

Lemma parseHex64_loop_app a b acc :
  parseHex64_loop (a ++ b) acc = (x ← parseHex64_loop a acc; parseHex64_loop b x).
Proof.
  revert acc. induction a as [|c a IH]; intros acc; [done|]. cbn [app parseHex64_loop].
  destruct (hex_val c); [apply IH|done].
Qed.

Lemma shiftl_nibble v d :
  0 <= v -> 0 <= d < 16 -> v * 16 + d < 2 ^ 64 ->
  Z.lor (wrap 64 (Z.shiftl v 4)) d = v * 16 + d.
Proof.
  intros Hv Hd Hb. unfold wrap. rewrite Z.mod_small.
  - by rewrite lor_low_add by (simpl; lia).
  - rewrite Z.shiftl_mul_pow2 by lia. change (2 ^ 4) with 16. lia.
Qed.

Lemma parseHex64_fixed n v :
  (n <= 16)%nat -> 0 <= v < 2 ^ (4 * Z.of_nat n) -> parseHex64 (hex_fixed n v) = Ok v.
Proof.
  unfold parseHex64. revert v. induction n as [|n IH]; intros v Hn Hv.
  - simpl in *. f_equal. lia.
  - rewrite hex_fixed_snoc, parseHex64_loop_app.
    replace (4 * Z.of_nat (S n)) with (4 + 4 * Z.of_nat n) in Hv by lia.
    rewrite Z.pow_add_r in Hv by lia. change (2 ^ 4) with 16 in Hv.
    pose proof (Z.div_mod v 16 ltac:(lia)). pose proof (Z.mod_pos_bound v 16 ltac:(lia)).
    pose proof (Z.pow_le_mono_r 2 (4 * Z.of_nat n) 60 ltac:(lia) ltac:(lia)).
    rewrite IH; [|lia|].
    + cbn [mbind res_bind parseHex64_loop].
      rewrite hex_val_char by (rewrite <- (Z.shiftr_0_r v); apply nibble_range).
      change 15 with (Z.ones 4). rewrite Z.land_ones, Z.shiftr_div_pow2 by lia.
      change (2 ^ 4) with 16. rewrite shiftl_nibble by lia. f_equal. lia.
    + rewrite Z.shiftr_div_pow2 by lia. change (2 ^ 4) with 16.
      split; [apply Z.div_pos; lia|apply Z.div_lt_upper_bound; lia].
Qed.

Lemma parseHex64_total l acc :
  Forall (fun c => is_hex c = true) l -> exists v, parseHex64_loop l acc = Ok v.
Proof.
  intros Hl. revert acc. induction Hl as [|c l Hc Hl IH]; intros acc; [eexists; done|].
  cbn [parseHex64_loop]. rewrite hex_val_is_hex in Hc. destruct (hex_val c); [apply IH|done].
Qed.

Lemma parseHex64_range l acc v :
  (List.length l <= 16)%nat -> 0 <= acc < 2 ^ (64 - 4 * size_of l) ->
  parseHex64_loop l acc = Ok v -> is_u64 v.
Proof.
  unfold size_of, is_u64.
  revert acc. induction l as [|c l IH]; intros acc Hl Ha; cbn [parseHex64_loop].
  - intros [= <-]. simpl in Ha. lia.
  - destruct (hex_val c) as [d|] eqn:Hd; [|discriminate].
    apply hex_val_range in Hd. intros H. cbn [List.length] in *.
    replace (64 - 4 * Z.of_nat (S (List.length l))) with (60 - 4 * Z.of_nat (List.length l)) in Ha
      by lia.
    pose proof (Z.pow_le_mono_r 2 (60 - 4 * Z.of_nat (List.length l)) 60 ltac:(lia) ltac:(lia)).
    rewrite shiftl_nibble in H by lia.
    eapply IH; [| |exact H]; [lia|].
    replace (64 - 4 * Z.of_nat (List.length l)) with (4 + (60 - 4 * Z.of_nat (List.length l))) by lia.
    rewrite Z.pow_add_r by lia. change (2 ^ 4) with 16. lia.
Qed.

(** ** Properties *)

(** The 36-character canonical form of a GUID. *)
Lemma GUID_toString_canonical g :
  GUID_wf g ->
  GUID_toString g =
    hex_fixed 8 (Z.shiftr (high g) 32) ++ bs "-" ++ hex_fixed 4 (Z.shiftr (high g) 16) ++ bs "-"
    ++ hex_fixed 4 (high g) ++ bs "-" ++ hex_fixed 4 (Z.shiftr (low g) 48) ++ bs "-"
    ++ hex_fixed 12 (low g).
Proof.
  intros [Hh Hl]. unfold is_u64 in *. unfold GUID_toString, wrap.
  change 65535 with (Z.ones 16). rewrite !Z.land_ones by lia.
  rewrite !put_hex_fixed; try lia;
    try (rewrite ?Z.mod_mod by lia; apply Z.mod_pos_bound; lia).
  rewrite !Z.mod_mod by lia.
  rewrite <- !Z.land_ones by lia. rewrite !hex_fixed_land by lia. done.
Qed.

(** Printing a GUID and parsing the text gives the GUID back: for every
    pair of 64-bit words, [GUID(g.toString())] succeeds and equals [g]. *)
Theorem GUID_parse_toString g : GUID_wf g -> GUID_parse (GUID_toString g) = Ok g.
Proof.
  intros Hg. rewrite GUID_toString_canonical by done. destruct Hg as [Hh Hl], g as [h l].
  unfold is_u64 in *. cbn [high low] in *. unfold GUID_parse, normalize.
  repeat (rewrite normalize_loop_hex by apply hex_fixed_all_hex; rewrite normalize_loop_dash).
  rewrite <- (app_nil_r (hex_fixed 12 l)), normalize_loop_hex by apply hex_fixed_all_hex.
  cbn [app normalize_loop mbind res_bind].
  set (w := _ ++ _).
  assert (Hw : w = hex_fixed 16 h ++ hex_fixed 16 l).
  { pose proof (hex_fixed_app 12 4 h) as H1. pose proof (hex_fixed_app 8 4 (Z.shiftr h 16)) as H2.
    pose proof (hex_fixed_app 4 12 l) as H3. rewrite Z.shiftr_shiftr in H2 by lia.
    change (4 * Z.of_nat 4) with 16 in *. change (4 * Z.of_nat 12) with 48 in H3.
    unfold w. etrans; [|by rewrite (H1 : hex_fixed 16 h = _), (H3 : hex_fixed 16 l = _)].
    rewrite (H2 : hex_fixed 12 _ = _), <- !app_assoc. done. }
  rewrite Hw, length_app, !length_hex_fixed. cbn [Nat.eqb Nat.add mbind res_bind].
  rewrite take_app_length', drop_app_length', take_ge by (rewrite ?length_hex_fixed; done || lia).
  by rewrite !parseHex64_fixed by (simpl; lia).
Qed.

Lemma GUID_parse_toString_witness :
  GUID_wf (mkGUID 81985529216486895 81985529216486895)
  /\ GUID_parse (GUID_toString (mkGUID 81985529216486895 81985529216486895))
     = Ok (mkGUID 81985529216486895 81985529216486895).
Proof.
  split; [split; split; vm_compute; congruence|].
  apply (GUID_parse_toString (mkGUID 81985529216486895 81985529216486895)).
  split; split; vm_compute; congruence.
Defined.

(** The characters [normalize] keeps. *)
Definition significant (s : bytes) : bytes :=
  List.filter (fun c => negb (Ascii.eqb c "{" || Ascii.eqb c "}" || Ascii.eqb c "-")) s.

Lemma normalize_loop_filter s compact :
  normalize_loop s compact =
    if forallb is_hex (significant s) then Ok (compact ++ significant s)
    else Throw (InvalidArgument (bs "GUID contains an invalid character")).
Proof.
  revert compact. induction s as [|c s IH]; intros compact; cbn [normalize_loop significant List.filter].
  - cbn. by rewrite app_nil_r.
  - destruct (_ || _); cbn [negb]; [apply IH|]. cbn [forallb].
    destruct (is_hex c); cbn [andb negb]; [|done].
    rewrite IH. unfold significant. by rewrite <- app_assoc.
Qed.

(** [GUID(const std::string&)] accepts exactly the strings that, braces
    and dashes removed, are 32 hexadecimal digits; the result is a pair of
    64-bit words, and every other string raises [std::invalid_argument]. *)
Theorem GUID_parse_spec s :
  if forallb is_hex (significant s) && Nat.eqb (List.length (significant s)) 32
  then exists g, GUID_parse s = Ok g /\ GUID_wf g
  else exists msg, GUID_parse s = Throw (InvalidArgument msg).
Proof.
  unfold GUID_parse, normalize. rewrite normalize_loop_filter. cbn [app].
  destruct (forallb is_hex (significant s)) eqn:Hx; cbn [andb mbind res_bind]; [|eauto].
  destruct (Nat.eqb_spec (List.length (significant s)) 32) as [Hl|]; cbn [mbind res_bind]; [|eauto].
  rewrite forallb_forall, <- List.Forall_forall in Hx.
  destruct (parseHex64_total (take 16 (significant s)) 0) as [h Hh]; [by apply Forall_take|].
  destruct (parseHex64_total (take 16 (drop 16 (significant s))) 0) as [l Hl'];
    [by apply Forall_take, Forall_drop|].
  unfold parseHex64. rewrite Hh, Hl'. cbn [mbind res_bind].
  eexists; split; [done|]. unfold GUID_wf; cbn [high low].
  split; (eapply parseHex64_range; [| |eassumption]; unfold size_of;
    rewrite ?length_take, ?length_drop, Hl; simpl; lia).
Qed.

(** [GUID::operator<], the order of every [std::map] keyed by node id, is
    a strict total order compatible with [operator==]. *)
Theorem GUID_ltb_strict_total :
  (forall a, GUID_ltb a a = false)
  /\ (forall a b c, GUID_ltb a b = true -> GUID_ltb b c = true -> GUID_ltb a c = true)
  /\ (forall a b, GUID_eqb a b = true \/ GUID_ltb a b = true \/ GUID_ltb b a = true)
  /\ (forall a b, GUID_eqb a b = true <-> a = b).
Proof.
  assert (Hlt : forall a b, GUID_ltb a b = true <->
    high a < high b \/ (high a = high b /\ low a < low b)).
  { intros a b. unfold GUID_ltb. destruct (Z.eqb_spec (high a) (high b)); simpl; lia. }
  assert (Heq : forall a b, GUID_eqb a b = true <-> high a = high b /\ low a = low b).
  { intros a b. unfold GUID_eqb. lia. }
  repeat split.
  - intros a. apply not_true_is_false. rewrite Hlt. lia.
  - intros a b c. rewrite !Hlt. lia.
  - intros a b. rewrite Heq, !Hlt. lia.
  - rewrite Heq. destruct a, b; simpl. by intros [-> ->].
  - intros ->. by apply Heq.
Qed.

(** *** Buffers *)

Lemma Buffer_of_size_wf n : Buffer.wf (Buffer.of_size n).
Proof. unfold Buffer.wf, Buffer.of_size. destruct n; simpl; [done|]. rewrite length_replicate. lia. Qed.

Lemma Buffer_copy_id b : Buffer.wf b -> Buffer.copy b = b.
Proof.
  destruct b as [[l|] n]; unfold Buffer.wf, Buffer.copy, Buffer.of_data; simpl.
  - intros [Hl Hn]. destruct n; [lia|]. simpl. by rewrite <- Hl, firstn_all.
  - intros ->. done.
Qed.

Lemma Buffer_resize_spec b n :
  Buffer.wf b ->
  Buffer.resize b n =
    Buffer.mk (match n with
               | O => None
               | _ => Some (take n (Buffer.contents b)
                            ++ replicate (n - List.length (Buffer.contents b)) (byte_of 0))
               end) n.
Proof.
  unfold Buffer.resize, Buffer.contents. destruct b as [[l|] m]; unfold Buffer.wf;
    cbn [Buffer.bytes_ Buffer.size_ from_option id].
  - intros [Hl Hm]. destruct m as [|m]; [lia|]. destruct (Nat.eqb_spec n (S m)) as [->|Hne]; [|destruct n as [|n]].
    + rewrite <- Hl, firstn_all, Nat.sub_diag. cbn [replicate]. by rewrite app_nil_r.
    + done.
    + cbn [Buffer.of_size Buffer.bytes_].
      destruct (Nat.eqb_spec (Nat.min (S n) (S m)) 0); [lia|].
      rewrite drop_replicate, Hl.
      replace (S n - Nat.min (S n) (S m))%nat with (S n - S m)%nat by lia. do 3 f_equal.
      destruct (decide (S n <= S m)%nat); [by rewrite Nat.min_l|].
      by rewrite Nat.min_r, !take_ge by lia.
  - intros ->. destruct n as [|n]; [done|]. cbn [Nat.eqb Buffer.of_size Buffer.bytes_ take].
    by rewrite Nat.sub_0_r.
Qed.

Lemma Buffer_resize_wf b n : Buffer.wf b -> Buffer.wf (Buffer.resize b n).
Proof.
  intros Hb. rewrite Buffer_resize_spec by done. unfold Buffer.wf. destruct n as [|n]; [done|].
  cbn [Buffer.bytes_ Buffer.size_]. rewrite length_app, length_take, length_replicate. lia.
Qed.

(** The class invariant of [Buffer] (storage exists exactly for a positive
    size and has that size) holds after every constructor and is preserved by
    copy, assignment and [resize]; copying keeps the contents, and [resize]
    keeps the common prefix and fills the rest with zero bytes. *)
Theorem Buffer_operations_correct b n :
  Buffer.wf b ->
  Buffer.wf (Buffer.of_size n) /\ Buffer.assign b = b /\ Buffer.copy b = b
  /\ Buffer.wf (Buffer.resize b n)
  /\ Buffer.contents (Buffer.resize b n) =
       take n (Buffer.contents b) ++ replicate (n - List.length (Buffer.contents b)) (byte_of 0).
Proof.
  intros Hb. split; [apply Buffer_of_size_wf|].
  split; [unfold Buffer.assign; rewrite Buffer_copy_id by done; by destruct b|].
  split; [by apply Buffer_copy_id|]. split; [by apply Buffer_resize_wf|].
  rewrite Buffer_resize_spec by done. destruct n as [|n]; [done|reflexivity].
Qed.

Lemma Buffer_operations_correct_witness :
  Buffer.contents (Buffer.resize (Buffer.of_data (Some (bs "abc")) 3) 5) =
    bs "abc" ++ [byte_of 0; byte_of 0].
Proof.
  destruct (Buffer_operations_correct (Buffer.of_data (Some (bs "abc")) 3) 5) as (_ & _ & _ & _ & H).
  - vm_compute. split; [reflexivity|lia].
  - rewrite H. reflexivity.
Defined.
