(* ===== verification/Proto.v ===== *)
(** * messages.proto: the data the nodes exchange

    One record per protobuf message, in a module of the message's name, with
    the message's field names.  A field with presence ([optional] scalars,
    sub-messages) is an [option]; a plain proto3 scalar always has a value
    (its default when it was not set); [repeated] is [list]; a [oneof] is an
    inductive type with its not-set case.  The messages that only wrap one
    [bytes value] field ([NodeId], [Uuid], [EndorsementType]), [DateTime]
    (milliseconds) and [OptionalBool] stand for their field. *)

From S2P Require Import Prelude.

Abbreviation NodeId := bytes (only parsing).
Abbreviation Uuid := bytes (only parsing).
Abbreviation EndorsementType := bytes (only parsing).
Abbreviation DateTime := Z (only parsing).
Abbreviation Enum := Z (only parsing).

(** [x.value()] of an absent sub-message reads the default instance. *)
Abbreviation value_or_empty := (from_option (id (A := bytes)) []).

(** ** The expression trees

    [ERDASTEndTree], [ERDASTMessageTree], [ERDAbstractSyntaxTree] and
    [LogASTMessageTree] declare the same [oneof node_type] with the same field
    numbers 1, 2, 3, 9, 10, 11, 12 and differ in their leaves only, so they are
    one type over the type of leaves. *)
#[local] Set Warnings "-register-all".
Inductive Ast (L : Type) : Type :=
| NotSet
| Equals (lhs rhs : option (Ast L))
| And (lhs rhs : option (Ast L))
| Or (lhs rhs : option (Ast L))
| TrueValue
| FalseValue
| AllOf (terms : list (Ast L))
| AnyOf (terms : list (Ast L))
| Leaf (leaf : L).
Arguments NotSet {L}.
Arguments Equals {L} lhs rhs.
Arguments And {L} lhs rhs.
Arguments Or {L} lhs rhs.
Arguments TrueValue {L}.
Arguments FalseValue {L}.
Arguments AllOf {L} terms.
Arguments AnyOf {L} terms.
Arguments Leaf {L} leaf.

(** What a property of trees says of an optional child. *)
Definition on_child {A} (P : A -> Prop) (o : option A) : Prop :=
  match o with Some a => P a | None => True end.

(** Structural induction through the optional and repeated children. *)
Section AstInduction.
Context {L : Type} (P : Ast L -> Prop).
Hypothesis HNotSet : P NotSet.
Hypothesis HEquals : forall l r, on_child P l -> on_child P r -> P (Equals l r).
Hypothesis HAnd : forall l r, on_child P l -> on_child P r -> P (And l r).
Hypothesis HOr : forall l r, on_child P l -> on_child P r -> P (Or l r).
Hypothesis HTrue : P TrueValue.
Hypothesis HFalse : P FalseValue.
Hypothesis HAllOf : forall ts, Forall P ts -> P (AllOf ts).
Hypothesis HAnyOf : forall ts, Forall P ts -> P (AnyOf ts).
Hypothesis HLeaf : forall l, P (Leaf l).

Fixpoint Ast_nested_ind (t : Ast L) : P t :=
  let child (o : option (Ast L)) : on_child P o :=
    match o with Some t' => Ast_nested_ind t' | None => I end in
  let fix all (ts : list (Ast L)) : Forall P ts :=
    match ts with
    | [] => Forall_nil_2 P
    | t' :: ts' => Forall_cons_2 P t' ts' (Ast_nested_ind t') (all ts')
    end in
  match t with
  | NotSet => HNotSet
  | Equals l r => HEquals l r (child l) (child r)
  | And l r => HAnd l r (child l) (child r)
  | Or l r => HOr l r (child l) (child r)
  | TrueValue => HTrue
  | FalseValue => HFalse
  | AllOf ts => HAllOf ts (all ts)
  | AnyOf ts => HAnyOf ts (all ts)
  | Leaf l => HLeaf l
  end.
End AstInduction.

(** Trees with all their operands, whose leaves satisfy [P]. *)
Fixpoint complete {L} (P : L -> Prop) (tree : Ast L) : Prop :=
  match tree with
  | Equals (Some l) (Some r) | And (Some l) (Some r) | Or (Some l) (Some r) => complete P l /\ complete P r
  | Equals _ _ | And _ _ | Or _ _ | NotSet => False
  | AllOf ts | AnyOf ts =>
      (fix all ts := match ts with [] => True | t :: ts' => complete P t /\ all ts' end) ts
  | TrueValue | FalseValue => True
  | Leaf l => P l
  end.

(** Leaves 100-102 of [ERDASTEndTree]. *)
Inductive EndLeaf :=
| TypeEquals (type : option EndorsementType)
| ValueEquals (value : bytes)
| SignerEquals (signer : option NodeId).

Abbreviation ERDASTEndTree := (Ast EndLeaf).

Inductive ERDASTFieldValue :=
| BytesValue (v : bytes)
| StringValue (v : bytes)
| IntValue (v : Z)
| UintValue (v : Z)
| BoolValue (v : bool)
| EnumValue (v : Z)
| ValueNotSet.

Abbreviation ERDASTFieldPath := (list bytes).

(** Leaves 200-202 of [ERDASTMessageTree] and of [LogASTMessageTree]. *)
Inductive MesLeaf :=
| FieldEquals (path : option ERDASTFieldPath) (value : option ERDASTFieldValue)
| FieldExists (path : option ERDASTFieldPath)
| FieldContains (path sub_path : option ERDASTFieldPath) (value : option ERDASTFieldValue).

Abbreviation ERDASTMessageTree := (Ast MesLeaf).
Abbreviation LogASTMessageTree := (Ast MesLeaf) (only parsing).

(** Leaves 100 and 101 of [ERDAbstractSyntaxTree]. *)
Inductive ErdLeaf :=
| EndorsementNode (tree : option ERDASTEndTree)
| MessageNode (tree : option ERDASTMessageTree).

Abbreviation ERDAbstractSyntaxTree := (Ast ErdLeaf).

(** ** Identity and endorsement messages *)
Definition P256 : Enum := 100.

Module SignatureBlock.
Record t := mk { signer : option NodeId; algorithm : Enum; signature : bytes }.
End SignatureBlock.

Module PublicKey.
Record t := mk { algorithm : Enum; public_key : bytes }.
End PublicKey.

Module Endorsement.
Record t := mk {
  subject : option NodeId;
  endorsement_service : option NodeId;
  endorsement_type : option Uuid;
  endorsement_value : bytes;
  valid_until : option DateTime;
  signature : bytes }.
End Endorsement.

Module Identity.
Record t := mk { nonce : option Uuid; public_key : option PublicKey.t; boot_id : option Uuid }.
End Identity.

Module EndorsementNeeded.
Record t := mk { message_nonce : option Uuid; tree : option ERDAbstractSyntaxTree }.
End EndorsementNeeded.

(** ** Routing, liveness, errors *)
Module RouteEntry.
Record t := mk { node_id : option NodeId; hops_away : Z; last_seen : option DateTime }.
End RouteEntry.

Module Error.
Record t := mk { error_code : Enum; message : bytes }.
End Error.

Module PingRequest.
Record t := mk { nonce : option Uuid; sequence : Z; time_sent : option DateTime }.
End PingRequest.

Module PingReply.
Record t := mk {
  nonce : option Uuid; sequence : Z; time_sent : option DateTime; time_replied : option DateTime }.
End PingReply.

(** ** Resources and schemas *)
Module Address.
Record t := mk { ipv4 : Z; ipv6 : bytes }.
End Address.

Module PortRange.
Record t := mk { start_port : Z; end_port : Z }.
End PortRange.

Module ResourceTCPConnect.
Record t := mk { node_id : option NodeId; source_addresses : list Address.t }.
End ResourceTCPConnect.

Module ResourceTCPListen.
Record t := mk {
  node_id : option NodeId; listen_address : list Address.t; allowed_range : option PortRange.t }.
End ResourceTCPListen.

Module ResourceSSHD.
Record t := mk { node_id : option NodeId; server_name : option bytes }.
End ResourceSSHD.

Inductive ResourceRecord :=
| ResourceTypeNotSet
| TcpConnect (r : ResourceTCPConnect.t)
| TcpListen (r : ResourceTCPListen.t)
| Sshd (r : ResourceSSHD.t).

Module ServiceSchema.
Record t := mk {
  proto_file_name : bytes;
  proto_file_descriptor_set : bytes;
  accepted_type_urls : list bytes;
  schema_hash : bytes;
  schema_version : Z }.
End ServiceSchema.

Module SchemaRequest.
Record t := mk { proto_file_name : option bytes; schema_hash : option bytes }.
End SchemaRequest.

Module ResourceAdvertisement.
Record t := mk { records : list ResourceRecord; schemas : list ServiceSchema.t }.
End ResourceAdvertisement.

Module ResourceQuery.
Record t := mk { query : bytes; max_records : Z }.
End ResourceQuery.

Module DiscoveredService.
Record t := mk { node_id : option NodeId; schema : option ServiceSchema.t }.
End DiscoveredService.

(** ** Key negotiation *)
Module AesKeyNegotiationRequest.
Record t := mk {
  key_id : option Uuid; ephemeral_public_key : option PublicKey.t;
  requested_lifetime_ms : Z; algorithm : Enum }.
End AesKeyNegotiationRequest.

Module AesKeyNegotiationReply.
Record t := mk {
  key_id : option Uuid; ephemeral_public_key : option PublicKey.t;
  accepted_lifetime_ms : Z; algorithm : Enum }.
End AesKeyNegotiationReply.

Module AesKeyDropNotification.
Record t := mk { key_id : option Uuid; reason : bytes }.
End AesKeyDropNotification.

Module AesKeyNegotiationError.
Record t := mk { error_code : Enum; key_id : option Uuid; message : bytes }.
End AesKeyNegotiationError.

(** ** Log subscriptions *)
Module AnyMsg.
Record t := mk { type_url : bytes; value : bytes }.
End AnyMsg.

Module LogSubscribeRequest.
Record t := mk { payload_type_url : bytes; filter : option LogASTMessageTree; duration_ms : Z }.
End LogSubscribeRequest.

Module LogSubscribeReply.
Record t := mk {
  status : Enum; subscription_id : option Uuid; expires_at : option DateTime; message : bytes }.
End LogSubscribeReply.

Module LogUnsubscribeReply.
Record t := mk { status : Enum; subscription_id : option Uuid; message : bytes }.
End LogUnsubscribeReply.

Module LogRecord.
Record t := mk {
  subscription_id : option Uuid; producer_node_id : option NodeId;
  time_created : option DateTime; payload : option AnyMsg.t }.
End LogRecord.

Module EncryptedField.
Record t := mk {
  path : option ERDASTFieldPath; iv : bytes; ciphertext : bytes; tag : bytes; algorithm : Z }.
End EncryptedField.

(** ** RSPMessage *)
Inductive CoreMessage :=
| ChallengeRequest (nonce : option Uuid)
| IdentityMessage (m : Identity.t)
| RouteUpdate (entries : list RouteEntry.t)
| ErrorMessage (m : Error.t)
| PingRequestMessage (m : PingRequest.t)
| PingReplyMessage (m : PingReply.t)
| ResourceAdvertisementMessage (m : ResourceAdvertisement.t)
| ResourceQueryMessage (m : ResourceQuery.t)
| EndorsementNeededMessage (m : EndorsementNeeded.t)
| SchemaRequestMessage (m : SchemaRequest.t)
| SchemaReply (schemas : list ServiceSchema.t)
| ResourceQueryReply (services : list DiscoveredService.t)
| LogSubscribeRequestMessage (m : LogSubscribeRequest.t)
| LogSubscribeReplyMessage (m : LogSubscribeReply.t)
| LogUnsubscribeRequest (subscription_id : option Uuid)
| LogUnsubscribeReplyMessage (m : LogUnsubscribeReply.t)
| LogRecordMessage (m : LogRecord.t)
| AesKeyNegotiationRequestMessage (m : AesKeyNegotiationRequest.t)
| AesKeyNegotiationReplyMessage (m : AesKeyNegotiationReply.t)
| AesKeyDropNotificationMessage (m : AesKeyDropNotification.t)
| AesKeyNegotiationErrorMessage (m : AesKeyNegotiationError.t).

Module RSPMessage.
Record t := mk {
  destination : option NodeId;
  source : option NodeId;
  trace : option bool;
  core_message : option CoreMessage;
  service_message : option AnyMsg.t;
  nonce : option Uuid;
  signature : option SignatureBlock.t;
  endorsements : list Endorsement.t;
  identities : list Identity.t;
  encrypted_fields : list EncryptedField.t }.

(** The default instance: nothing set. *)
Definition empty : t := mk None None None None None None None [] [] [].

Definition set_destination (m : t) (d : option NodeId) : t :=
  mk d (source m) (trace m) (core_message m) (service_message m) (nonce m) (signature m)
    (endorsements m) (identities m) (encrypted_fields m).

Definition set_source (m : t) (s : option NodeId) : t :=
  mk (destination m) s (trace m) (core_message m) (service_message m) (nonce m) (signature m)
    (endorsements m) (identities m) (encrypted_fields m).

Definition set_trace (m : t) (x : option bool) : t :=
  mk (destination m) (source m) x (core_message m) (service_message m) (nonce m) (signature m)
    (endorsements m) (identities m) (encrypted_fields m).

Definition set_core (m : t) (c : option CoreMessage) : t :=
  mk (destination m) (source m) (trace m) c (service_message m) (nonce m) (signature m)
    (endorsements m) (identities m) (encrypted_fields m).

Definition set_nonce (m : t) (x : option Uuid) : t :=
  mk (destination m) (source m) (trace m) (core_message m) (service_message m) x (signature m)
    (endorsements m) (identities m) (encrypted_fields m).

Definition set_signature (m : t) (s : option SignatureBlock.t) : t :=
  mk (destination m) (source m) (trace m) (core_message m) (service_message m) (nonce m) s
    (endorsements m) (identities m) (encrypted_fields m).
End RSPMessage.
