(* ===== verification/GuidBytes.v ===== *)
(** * Node ids and GUIDs on the wire

    Two byte orders are in use.  [SignatureBlock.signer], the endorsement
    fields and the identifiers of the rule language are big-endian
    ([serializeGuidBytes], [serializeNodeIdBytes]); the [source] and
    [destination] fields are a [memcpy] of the two words
    ([toProtoNodeId], [nodeIdFromSourceField]), that is little-endian on the
    x86-64 and ARM64 machines the project is built for. *)

From S2P Require Import Prelude BaseTypes Proto.

(** ** Big-endian: endorsement.cpp, keypair.cpp, mq_signing.cpp *)

Definition appendUint32 (b : bytes) (value : Z) : bytes :=
  b ++ [byte_of (Z.land (Z.shiftr value 24) 255); byte_of (Z.land (Z.shiftr value 16) 255);
        byte_of (Z.land (Z.shiftr value 8) 255); byte_of (Z.land value 255)].

(** [for (int shift = 56; shift >= 0; shift -= 8)]. *)
Definition shifts64 : list Z := [56; 48; 40; 32; 24; 16; 8; 0].

Definition appendUint64 (b : bytes) (value : Z) : bytes :=
  b ++ ((fun shift => byte_of (Z.land (Z.shiftr value shift) 255)) <$> shifts64).

Definition serializeGuidBytes (guid : GUID) : bytes :=
  appendUint64 (appendUint64 [] (high guid)) (low guid).

(** Both words are accumulated in one loop over the eight byte positions. *)
Definition deserializeGuidBytes (b : bytes) (fieldName : string) : Res GUID :=
  if negb (Nat.eqb (List.length b) 16) then throw_runtime fieldName
  else
    Ok (mkGUID (foldl (shift_in 64) 0 (take 8 b)) (foldl (shift_in 64) 0 (take 8 (drop 8 b)))).

Definition serializeNodeIdBytes (nodeId : NodeID) : bytes :=
  ((fun shift => byte_of (Z.land (Z.shiftr (high nodeId) shift) 255)) <$> shifts64)
  ++ ((fun shift => byte_of (Z.land (Z.shiftr (low nodeId) shift) 255)) <$> shifts64).

Definition deserializeNodeIdBytes (value : bytes) : Res NodeID :=
  if negb (Nat.eqb (List.length value) 16)
  then throw_runtime "signature block signer has an invalid NodeID length"
  else Ok (mkGUID (foldl (shift_in 64) 0 (take 8 value)) (foldl (shift_in 64) 0 (take 8 (drop 8 value)))).

Definition nodeIdFromSignerField (protoId : NodeId) : option NodeID :=
  if negb (Nat.eqb (List.length protoId) 16) then None
  else
    Some (mkGUID (foldl (shift_in 64) 0 (take 8 protoId))
                 (foldl (shift_in 64) 0 (take 8 (drop 8 protoId)))).

(** ** Native byte order: node.cpp, encoding.cpp, mq_signing.cpp *)

(** [memcpy] of a [uint64_t] into the string, and back. *)
Definition memcpy_from_u64 (v : Z) : bytes := le_bytes 8 v.
Definition memcpy_to_u64 (b : bytes) : Z := le_value (take 8 b).

Definition toProtoNodeId (nodeId : NodeID) : NodeId :=
  memcpy_from_u64 (high nodeId) ++ memcpy_from_u64 (low nodeId).

Definition nodeIdFromSourceField (protoId : NodeId) : option NodeID :=
  if negb (Nat.eqb (List.length protoId) 16) then None
  else Some (mkGUID (memcpy_to_u64 protoId) (memcpy_to_u64 (drop 8 protoId))).

(** ** Lemmas *)

Lemma appendUint32_be b v : appendUint32 b v = b ++ be_bytes 4 v.
Proof. done. Qed.

Lemma appendUint64_be b v : appendUint64 b v = b ++ be_bytes 8 v.
Proof. done. Qed.

Lemma serializeGuidBytes_be g : serializeGuidBytes g = be_bytes 8 (high g) ++ be_bytes 8 (low g).
Proof. done. Qed.

Lemma serializeNodeIdBytes_be g : serializeNodeIdBytes g = serializeGuidBytes g.
Proof. done. Qed.

Lemma length_serializeGuidBytes g : List.length (serializeGuidBytes g) = 16%nat.
Proof. by rewrite serializeGuidBytes_be, length_app, !length_be_bytes. Qed.

Lemma length_toProtoNodeId g : List.length (toProtoNodeId g) = 16%nat.
Proof. unfold toProtoNodeId, memcpy_from_u64. by rewrite length_app, !length_le_bytes. Qed.

Lemma split_16 (b : bytes) :
  List.length b = 16%nat -> take 8 b ++ take 8 (drop 8 b) = b
  /\ List.length (take 8 b) = 8%nat /\ List.length (take 8 (drop 8 b)) = 8%nat.
Proof.
  intros Hb. rewrite !length_take, length_drop, Hb. repeat split; [|lia..].
  rewrite (take_ge (drop 8 b)) by (rewrite length_drop; lia). apply take_drop.
Qed.

Lemma be_word_bytes b : List.length b = 8%nat -> be_bytes 8 (foldl (shift_in 64) 0 b) = b.
Proof.
  intros Hb. rewrite <- be_value_unfold, <- Hb.
  apply be_value_bytes; unfold size_of; rewrite ?Hb; lia.
Qed.

Lemma be_word_value v : is_u64 v -> foldl (shift_in 64) 0 (be_bytes 8 v) = v.
Proof.
  unfold is_u64. intros Hv. rewrite <- be_value_unfold.
  apply be_bytes_value; [lia| |]; change (8 * Z.of_nat 8) with 64; lia.
Qed.

Lemma be_word_range b : List.length b = 8%nat -> is_u64 (foldl (shift_in 64) 0 b).
Proof.
  intros Hb. rewrite <- be_value_unfold. pose proof (be_value_range 64 b) as Hr.
  unfold size_of in Hr. rewrite Hb in Hr. change (8 * Z.of_nat 8) with 64 in Hr.
  unfold is_u64. apply Hr; lia.
Qed.

Lemma words_of_be h l :
  is_u64 h -> is_u64 l ->
  foldl (shift_in 64) 0 (take 8 (be_bytes 8 h ++ be_bytes 8 l)) = h
  /\ foldl (shift_in 64) 0 (take 8 (drop 8 (be_bytes 8 h ++ be_bytes 8 l))) = l.
Proof.
  intros Hh Hl. rewrite take_app_length', drop_app_length', take_ge by (rewrite ?length_be_bytes; lia).
  by rewrite !be_word_value by done.
Qed.

Lemma deserialize_serialize g f :
  GUID_wf g -> deserializeGuidBytes (serializeGuidBytes g) f = Ok g.
Proof.
  intros [Hh Hl]. unfold deserializeGuidBytes. rewrite length_serializeGuidBytes. cbn [Nat.eqb negb].
  rewrite serializeGuidBytes_be. destruct (words_of_be (high g) (low g) Hh Hl) as [-> ->]. by destruct g.
Qed.

Lemma deserializeGuidBytes_inv b f g :
  deserializeGuidBytes b f = Ok g -> List.length b = 16%nat /\ serializeGuidBytes g = b /\ GUID_wf g.
Proof.
  unfold deserializeGuidBytes. destruct (Nat.eqb_spec (List.length b) 16) as [Hb|]; [|discriminate].
  cbn [negb]. intros [= <-]. destruct (split_16 b Hb) as (Hs & H1 & H2).
  rewrite serializeGuidBytes_be. cbn [high low]. rewrite !be_word_bytes by done.
  repeat split; try done; by apply be_word_range.
Qed.

Lemma nodeIdFromSignerField_spec b :
  nodeIdFromSignerField b =
    match deserializeGuidBytes b "" with Ok g => Some g | _ => None end.
Proof. unfold nodeIdFromSignerField, deserializeGuidBytes. by destruct (negb _). Qed.

Lemma nodeIdFromSignerField_serialize g :
  GUID_wf g -> nodeIdFromSignerField (serializeNodeIdBytes g) = Some g.
Proof. intros. rewrite nodeIdFromSignerField_spec, serializeNodeIdBytes_be. by rewrite deserialize_serialize. Qed.

Lemma nodeIdFromSourceField_inv b g :
  nodeIdFromSourceField b = Some g -> List.length b = 16%nat /\ toProtoNodeId g = b /\ GUID_wf g.
Proof.
  unfold nodeIdFromSourceField. destruct (Nat.eqb_spec (List.length b) 16) as [Hb|]; [|discriminate].
  cbn [negb]. intros [= <-]. destruct (split_16 b Hb) as (Hs & H1 & H2).
  unfold toProtoNodeId, memcpy_to_u64, memcpy_from_u64, GUID_wf, is_u64. cbn [high low].
  pose proof (le_value_bytes (take 8 b)) as E1. rewrite H1 in E1. rewrite E1.
  pose proof (le_value_bytes (take 8 (drop 8 b))) as E2. rewrite H2 in E2. rewrite E2.
  pose proof (le_value_range (take 8 b)) as R1. pose proof (le_value_range (take 8 (drop 8 b))) as R2.
  unfold size_of in R1, R2. rewrite H1 in R1. rewrite H2 in R2.
  split; [done|]. split; [done|]. simpl in R1, R2. lia.
Qed.

Lemma nodeIdFromSourceField_toProto g :
  GUID_wf g -> nodeIdFromSourceField (toProtoNodeId g) = Some g.
Proof.
  intros [Hh Hl]. unfold nodeIdFromSourceField. rewrite length_toProtoNodeId. cbn [Nat.eqb negb].
  unfold memcpy_to_u64, toProtoNodeId, memcpy_from_u64.
  rewrite take_app_length', drop_app_length', (take_ge (le_bytes 8 (low g)))
    by (rewrite ?length_le_bytes; lia).
  unfold is_u64 in *. rewrite !le_bytes_value by (simpl; lia). by destruct g.
Qed.

(** ** Properties *)

(** The node-id encodings are bijections between pairs of 64-bit words and
    16-byte strings: each writer's output is read back by its reader, and a
    reader accepts exactly the 16-byte strings and inverts its writer. *)
Theorem node_id_wire_round_trip :
  (forall g, GUID_wf g ->
     nodeIdFromSignerField (serializeNodeIdBytes g) = Some g
     /\ nodeIdFromSourceField (toProtoNodeId g) = Some g
     /\ deserializeNodeIdBytes (serializeNodeIdBytes g) = Ok g)
  /\ (forall b, (exists g, nodeIdFromSignerField b = Some g /\ serializeNodeIdBytes g = b)
                <-> List.length b = 16%nat)
  /\ (forall b, (exists g, nodeIdFromSourceField b = Some g /\ toProtoNodeId g = b)
                <-> List.length b = 16%nat).
Proof.
  split; [|split].
  - intros g Hg. split; [by apply nodeIdFromSignerField_serialize|].
    split; [by apply nodeIdFromSourceField_toProto|].
    apply (deserialize_serialize g "signature block signer has an invalid NodeID length"); done.
  - intros b. split; [intros (g & _ & <-); apply length_serializeGuidBytes|].
    intros Hb. unfold nodeIdFromSignerField. rewrite Hb. cbn [Nat.eqb negb].
    eexists; split; [done|]. rewrite serializeNodeIdBytes_be.
    eapply (deserializeGuidBytes_inv b ""). unfold deserializeGuidBytes. by rewrite Hb.
  - intros b. split; [intros (g & _ & <-); apply length_toProtoNodeId|].
    intros Hb. destruct (nodeIdFromSourceField b) as [g|] eqn:Hg.
    + apply nodeIdFromSourceField_inv in Hg as (_ & Hg & _). by exists g.
    + unfold nodeIdFromSourceField in Hg. rewrite Hb in Hg. discriminate.
Qed.

Lemma le_bytes_be_bytes n v : 0 <= v < 2 ^ (8 * Z.of_nat n) -> le_bytes n v = rev (be_bytes n v).
Proof.
  revert v. induction n as [|n IH]; intros v Hv; [done|].
  rewrite be_bytes_snoc, rev_app_distr. cbn [le_bytes rev app]. f_equal. apply IH.
  replace (8 * Z.of_nat (S n)) with (8 + 8 * Z.of_nat n) in Hv by lia.
  rewrite Z.pow_add_r in Hv by lia. rewrite Z.shiftr_div_pow2 by lia.
  change (2 ^ 8) with 256 in *. split; [apply Z.div_pos; lia|apply Z.div_lt_upper_bound; lia].
Qed.

(** The two encodings of one node id agree only when both words are byte
    palindromes. *)
Lemma encodings_agree_iff g :
  GUID_wf g ->
  (toProtoNodeId g = serializeNodeIdBytes g <->
   rev (be_bytes 8 (high g)) = be_bytes 8 (high g) /\ rev (be_bytes 8 (low g)) = be_bytes 8 (low g)).
Proof.
  intros [Hh Hl]. rewrite serializeNodeIdBytes_be, serializeGuidBytes_be.
  unfold toProtoNodeId, memcpy_from_u64. unfold is_u64 in *. rewrite !le_bytes_be_bytes by (change (8 * Z.of_nat 8) with 64; lia).
  split.
  - intros H. apply app_inj_1 in H; [done|]. by rewrite length_rev.
  - by intros [-> ->].
Qed.
