(* ===== verification/KeyPair.v ===== *)
(** * common/keypair: signing identities

    The cryptographic library behind [EVP_PKEY] is not part of the repository:
    it is the class [Crypto] of operations, with what the code relies on in
    [CryptoLaws].  [KeyPair] is the owning pointer ([None] is an empty
    keypair) and its methods are the code of keypair.cpp over these
    operations. *)

From S2P Require Import Prelude BaseTypes Proto GuidBytes.

(** ** The cryptographic library *)
Class Crypto := {
  (** an allocated [EVP_PKEY] *)
  Key : Type;
  (** [EVP_PKEY_id(key) == EVP_PKEY_EC] and [EVP_PKEY_get1_EC_KEY(key) != nullptr] *)
  key_is_ec : Key -> bool;
  (** [EC_GROUP_get_curve_name(group) == NID_X9_62_prime256v1] *)
  key_is_p256 : Key -> bool;
  (** [EC_KEY_get0_private_key(ecKey) != nullptr] *)
  key_has_private : Key -> bool;
  (** [PEM_read_bio_PUBKEY] *)
  pem_read : bytes -> option Key;
  (** [PEM_write_bio_PUBKEY] *)
  pem_write : Key -> option bytes;
  (** [i2d_PUBKEY] *)
  der_public : Key -> option bytes;
  (** [SHA256] *)
  sha256 : bytes -> bytes;
  (** [EVP_DigestSignInit/Update/Final] with [EVP_sha256]; [None] on failure *)
  digest_sign : Key -> bytes -> option bytes;
  (** [EVP_DigestVerify*]: 1, 0, or another result *)
  digest_verify : Key -> bytes -> bytes -> option bool;
}.

(** What the code relies on: digest length, a signature verifies under its key,
    and a public key survives its PEM form. *)
Class CryptoLaws (C : Crypto) := {
  sha256_length : forall m, List.length (sha256 m) = 32%nat;
  sign_verifies : forall k m s, digest_sign k m = Some s -> digest_verify k m s = Some true;
  sign_nonempty : forall k m s, digest_sign k m = Some s -> s <> [];
  pem_nonempty : forall k p, pem_write k = Some p -> p <> [];
  pem_round_trip : forall k p, pem_write k = Some p ->
    exists k', pem_read p = Some k' /\ der_public k' = der_public k
      /\ key_is_ec k' = key_is_ec k /\ key_is_p256 k' = key_is_p256 k
      /\ (forall m s, digest_verify k' m s = digest_verify k m s);
}.

(** ** KeyPair *)
Section KeyPair.
Context `{C : Crypto}.

Definition KeyPair : Type := option Key.

Definition isValid (k : KeyPair) : bool := match k with Some _ => true | None => false end.

Definition verifyP256 (key : option Key) : Res unit :=
  match key with
  | None => throw_runtime "key is null"
  | Some k =>
      if negb (key_is_ec k) then throw_runtime "key is not an EC key"
      else if negb (key_is_p256 k) then throw_runtime "key is not on the P-256 curve"
      else Ok tt
  end.

Definition algorithmForKey (key : option Key) : Res Enum := verifyP256 key;; Ok P256.

(** The constructor from an [EVP_PKEY] pointer. *)
Definition KeyPair_of_key (key : Key) : Res KeyPair := verifyP256 (Some key);; Ok (Some key).

Definition hasPrivateKey (k : KeyPair) : bool :=
  match k with
  | None => false
  | Some key => key_is_ec key && key_has_private key
  end.

Definition fromPublicKey (publicKey : PublicKey.t) : Res KeyPair :=
  if negb (PublicKey.algorithm publicKey =? P256) then throw_runtime "unsupported public key algorithm"
  else match PublicKey.public_key publicKey with
       | [] => throw_runtime "public key bytes are empty"
       | b =>
           match pem_read b with
           | None => throw_runtime "failed to parse public key bytes"
           | Some key => verifyP256 (Some key);; KeyPair_of_key key
           end
       end.

Definition nodeID (k : KeyPair) : Res NodeID :=
  match k with
  | None => throw_runtime "cannot derive a NodeID from an empty keypair"
  | Some key =>
      match der_public key with
      | None | Some [] => throw_runtime "failed to serialize public key for NodeID hashing"
      | Some der =>
          let digest := sha256 der in
          Ok (mkGUID (foldl (shift_in 64) 0 (take 8 digest))
                     (foldl (shift_in 64) 0 (take 8 (drop 8 digest))))
      end
  end.

Definition publicKey (k : KeyPair) : Res PublicKey.t :=
  match k with
  | None => throw_runtime "cannot export a public key from an empty keypair"
  | Some key =>
      alg ← algorithmForKey k;
      match pem_write key with
      | None => throw_runtime "failed to serialize public key"
      | Some p => Ok (PublicKey.mk alg p)
      end
  end.

Definition sign (k : KeyPair) (message : bytes) : Res bytes :=
  match k with
  | None => throw_runtime "cannot sign with an empty keypair"
  | Some key =>
      if negb (hasPrivateKey k) then throw_runtime "cannot sign with a public-only keypair"
      else match digest_sign key message with
           | None => throw_runtime "failed to finalize signature generation"
           | Some s => Ok s
           end
  end.

Definition signBlock (k : KeyPair) (message : bytes) : Res SignatureBlock.t :=
  signature ← sign k message;
  signer ← nodeID k;
  alg ← algorithmForKey k;
  Ok (SignatureBlock.mk (Some (serializeNodeIdBytes signer)) alg signature).

Definition verify (k : KeyPair) (message signature : bytes) : Res bool :=
  match k with
  | None => throw_runtime "cannot verify with an empty keypair"
  | Some key =>
      match digest_verify key message signature with
      | Some r => Ok r
      | None => throw_runtime "failed to finalize signature verification"
      end
  end.

Definition verifyBlock (k : KeyPair) (message : bytes) (block : SignatureBlock.t) : Res bool :=
  if negb (isValid k) then throw_runtime "cannot verify with an empty keypair"
  else
    alg ← algorithmForKey k;
    if negb (SignatureBlock.algorithm block =? alg) then Ok false
    else
      signer ← deserializeNodeIdBytes (value_or_empty (SignatureBlock.signer block));
      id ← nodeID k;
      if bool_decide (signer = id) then verify k message (SignatureBlock.signature block)
      else Ok false.

(** ** Lemmas *)

Lemma nodeID_wf `{!CryptoLaws C} k id : nodeID k = Ok id -> GUID_wf id.
Proof.
  destruct k as [key|]; [|discriminate]. cbn [nodeID].
  destruct (der_public key) as [[|c der]|]; try discriminate. intros [= <-].
  assert (Hd : List.length (take 16 (sha256 (c :: der))) = 16%nat).
  { rewrite length_take, sha256_length. lia. }
  split; cbn [high low]; apply be_word_range;
    rewrite length_take, ?length_drop, sha256_length; lia.
Qed.

Lemma deserializeNodeIdBytes_serialize id :
  GUID_wf id -> deserializeNodeIdBytes (serializeNodeIdBytes id) = Ok id.
Proof.
  intros. apply (deserialize_serialize id "signature block signer has an invalid NodeID length"). done.
Qed.

Lemma verifyBlock_signBlock `{!CryptoLaws C} k m block k' :
  signBlock k m = Ok block ->
  nodeID k' = nodeID k -> algorithmForKey k' = algorithmForKey k ->
  (forall s, verify k m s = Ok true -> verify k' m s = Ok true) ->
  verifyBlock k' m block = Ok true.
Proof.
  unfold signBlock. intros Hs Hid Halg Hv.
  destruct (sign k m) as [s| | |] eqn:Hsign; try discriminate. cbn [mbind res_bind] in Hs.
  destruct (nodeID k) as [nid| | |] eqn:Hn; try discriminate. cbn [mbind res_bind] in Hs.
  destruct (algorithmForKey k) as [alg| | |] eqn:Ha; try discriminate. cbn [mbind res_bind] in Hs.
  injection Hs as <-. unfold verifyBlock.
  destruct k' as [key'|]; [|discriminate Hid]. cbn [isValid negb].
  rewrite Halg. cbn [mbind res_bind SignatureBlock.algorithm SignatureBlock.signer
    SignatureBlock.signature from_option Datatypes.id]. rewrite Z.eqb_refl. cbn [negb].
  rewrite deserializeNodeIdBytes_serialize by (by eapply nodeID_wf).
  cbn [mbind res_bind]. rewrite Hid. cbn [mbind res_bind]. rewrite bool_decide_eq_true_2 by done.
  apply Hv. destruct k as [key|]; [|discriminate]. unfold sign in Hsign.
  destruct (negb _); [discriminate|]. destruct (digest_sign key m) as [s'|] eqn:Hd; [|discriminate].
  injection Hsign as <-. cbn [verify]. by rewrite (sign_verifies _ _ _ Hd).
Qed.

(** The key a peer rebuilds from the exported public key stands for the same node and
    verifies the same signatures. *)
Lemma imported_key `{!CryptoLaws C} k pk :
  publicKey k = Ok pk ->
  exists k', fromPublicKey pk = Ok k' /\ nodeID k' = nodeID k /\ algorithmForKey k' = algorithmForKey k
    /\ forall m s, verify k' m s = verify k m s.
Proof.
  intros Hpk. destruct k as [key|]; [|discriminate]. unfold publicKey in Hpk.
  destruct (algorithmForKey (Some key)) as [alg| | |] eqn:Ha; try discriminate. cbn [mbind res_bind] in Hpk.
  destruct (pem_write key) as [p|] eqn:Hp; [|discriminate]. injection Hpk as <-.
  destruct (pem_round_trip _ _ Hp) as (key' & Hr & Hder & Hec & Hcv & Hver).
  assert (Ha' : algorithmForKey (Some key') = algorithmForKey (Some key)).
  { unfold algorithmForKey, verifyP256. by rewrite Hec, Hcv. }
  unfold algorithmForKey in Ha. destruct (verifyP256 (Some key)) as [[]| | |] eqn:Hk; try discriminate.
  cbn [mbind res_bind] in Ha. injection Ha as <-.
  assert (Hk' : verifyP256 (Some key') = Ok tt).
  { unfold verifyP256 in *. by rewrite Hec, Hcv. }
  exists (Some key'). split_and!; [|unfold nodeID; by rewrite Hder|unfold algorithmForKey; by rewrite Hk'|].
  - unfold fromPublicKey, KeyPair_of_key. cbn [PublicKey.algorithm PublicKey.public_key].
    rewrite Z.eqb_refl. cbn [negb]. pose proof (pem_nonempty _ _ Hp).
    destruct p as [|c p]; [done|]. by rewrite Hr, !Hk'.
  - intros m s. unfold verify. by rewrite Hver.
Qed.

Lemma public_key_verifies `{!CryptoLaws C} k m block pk :
  signBlock k m = Ok block -> publicKey k = Ok pk ->
  exists k', fromPublicKey pk = Ok k' /\ nodeID k' = nodeID k /\ verifyBlock k' m block = Ok true.
Proof.
  intros Hs Hpk. destruct (imported_key k pk Hpk) as (k' & Hk & Hid & Halg & Hv). exists k'. split_and!; [done..|].
  eapply verifyBlock_signBlock; eauto. intros s. by rewrite Hv.
Qed.

(** The operations return or throw. *)
Lemma verifyP256_defined k : defined (verifyP256 k).
Proof. destruct k as [key|]; [|done]. cbn. by repeat case_match. Qed.

Lemma nodeID_defined k : defined (nodeID k).
Proof. destruct k as [key|]; [|done]. cbn. by repeat case_match. Qed.

Lemma publicKey_defined k : defined (publicKey k).
Proof.
  destruct k as [key|]; [|done]. unfold publicKey, algorithmForKey.
  apply defined_bind; [apply defined_bind; [apply verifyP256_defined|done]|]. intros alg. by case_match.
Qed.

Lemma fromPublicKey_defined pk : defined (fromPublicKey pk).
Proof.
  unfold fromPublicKey, KeyPair_of_key. destruct (negb _); [done|]. destruct (PublicKey.public_key pk); [done|].
  destruct (pem_read _); [|done]. apply defined_bind; [apply verifyP256_defined|]. intros _.
  by apply defined_bind; [apply verifyP256_defined|].
Qed.

Lemma signBlock_defined k m : defined (signBlock k m).
Proof.
  unfold signBlock, algorithmForKey. apply defined_bind.
  { destruct k as [key|]; [|done]. unfold sign. destruct (negb _); [done|]. by case_match. }
  intros s. apply defined_bind; [apply nodeID_defined|]. intros id.
  by apply defined_bind; [apply defined_bind; [apply verifyP256_defined|]|].
Qed.

Lemma verifyBlock_defined k m block : defined (verifyBlock k m block).
Proof.
  unfold verifyBlock, algorithmForKey. destruct (negb (isValid k)); [done|].
  apply defined_bind; [apply defined_bind; [apply verifyP256_defined|done]|]. intros alg. destruct (negb _); [done|].
  apply defined_bind; [unfold deserializeNodeIdBytes; by case_match|]. intros id.
  apply defined_bind; [apply nodeID_defined|]. intros id'. case_bool_decide; [|done].
  destruct k as [key|]; [|done]. unfold verify. by case_match.
Qed.

(** ** Properties *)

(** A signature block verifies: what [signBlock] returns is accepted by
    [verifyBlock] of the same keypair, and by the keypair any peer rebuilds
    from the signer's exported [publicKey]. *)
Theorem signBlock_verifies `{!CryptoLaws C} k m block :
  signBlock k m = Ok block ->
  verifyBlock k m block = Ok true
  /\ (forall pk, publicKey k = Ok pk ->
      exists k', fromPublicKey pk = Ok k' /\ nodeID k' = nodeID k /\ verifyBlock k' m block = Ok true).
Proof.
  intros Hs. split; [by eapply verifyBlock_signBlock|]. intros pk Hpk. by eapply public_key_verifies.
Qed.

(** A block that [verifyBlock] accepts names the verifying key as its
    signer: acceptance implies the P-256 algorithm, a signer field that is the
    big-endian encoding of the key's node id, and a positive answer of the
    signature primitive on exactly this message and signature. *)
Theorem verifyBlock_sound k m block :
  verifyBlock k m block = Ok true ->
  exists key id, k = Some key /\ nodeID k = Ok id
    /\ SignatureBlock.algorithm block = P256
    /\ value_or_empty (SignatureBlock.signer block) = serializeNodeIdBytes id
    /\ digest_verify key m (SignatureBlock.signature block) = Some true.
Proof.
  unfold verifyBlock. destruct k as [key|]; [|discriminate]. cbn [isValid negb].
  unfold algorithmForKey. destruct (verifyP256 (Some key)) as [[]| | |]; try discriminate.
  cbn [mbind res_bind]. destruct (Z.eqb_spec (SignatureBlock.algorithm block) P256) as [Halg|]; [|discriminate].
  cbn [negb]. destruct (deserializeNodeIdBytes _) as [signer| | |] eqn:Hd; try discriminate.
  cbn [mbind res_bind]. destruct (nodeID (Some key)) as [id| | |] eqn:Hid; try discriminate.
  cbn [mbind res_bind]. case_bool_decide as Heq; [|discriminate]. subst signer.
  cbn [verify]. destruct (digest_verify _ _ _) as [[]|] eqn:Hv; try discriminate. intros _.
  exists key, id. repeat split; try done.
  destruct (deserializeGuidBytes_inv _ "signature block signer has an invalid NodeID length" id Hd)
    as (_ & <- & _). done.
Qed.
End KeyPair.

(** ** A toy instance, to evaluate witnesses

    A key is its name and whether it holds the private half; a signature is the
    signer's name followed by the message. *)
Module ToyCrypto.
Definition pad32 (m : bytes) : bytes := take 32 (m ++ replicate 32 (byte_of 0)).

#[export] Instance toy : Crypto := {|
  Key := bytes * bool;
  key_is_ec := fun _ => true;
  key_is_p256 := fun _ => true;
  key_has_private := snd;
  pem_read := fun p => match p with c :: name => Some (name, false) | [] => None end;
  pem_write := fun k => Some ("P"%char :: k.1);
  der_public := fun k => Some ("D"%char :: k.1);
  sha256 := pad32;
  digest_sign := fun k m => Some (bs "S" ++ k.1 ++ m);
  digest_verify := fun k m s => Some (bool_decide (s = bs "S" ++ k.1 ++ m));
|}.

#[export] Instance toy_laws : CryptoLaws toy.
Proof.
  split.
  - intros m. cbn. unfold pad32. rewrite length_take, length_app, length_replicate. lia.
  - intros k m s [= <-]. cbn. by rewrite bool_decide_eq_true_2.
  - intros k m s [= <-]. done.
  - intros k p [= <-]. done.
  - intros k p [= <-]. cbn. eexists. repeat split.
Qed.

Definition alice : KeyPair := Some (bs "alice", true).
Definition bob : KeyPair := Some (bs "bob", true).
End ToyCrypto.

Lemma signBlock_verifies_witness :
  exists block, @signBlock ToyCrypto.toy ToyCrypto.alice (bs "hello") = Ok block
    /\ @verifyBlock ToyCrypto.toy ToyCrypto.alice (bs "hello") block = Ok true.
Proof.
  eexists. split; [vm_compute; reflexivity|].
  eapply (@signBlock_verifies ToyCrypto.toy ToyCrypto.toy_laws ToyCrypto.alice (bs "hello")).
  vm_compute. reflexivity.
Defined.

Lemma verifyBlock_sound_witness :
  exists block key id, @signBlock ToyCrypto.toy ToyCrypto.bob (bs "hi") = Ok block
    /\ ToyCrypto.bob = Some key /\ @nodeID ToyCrypto.toy ToyCrypto.bob = Ok id.
Proof.
  eexists. destruct (@verifyBlock_sound ToyCrypto.toy ToyCrypto.bob (bs "hi")
    (SignatureBlock.mk
       (Some (serializeNodeIdBytes (mkGUID (be_value 64 (bs "Dbob" ++ replicate 4 (byte_of 0))) 0)))
       P256 (bs "Sbobhi"))) as (key & id & Hk & Hid & _).
  - vm_compute. reflexivity.
  - exists key, id. split; [vm_compute; reflexivity|]. by split.
Defined.
