(* ===== verification/EndorsementCodec.v ===== *)
(** * common/endorsement/endorsement.cpp: the [Endorsement] class

    The binary form ("RSE1"), message validation, signing and signature
    verification.  The deterministic protobuf serializer used for the signed
    bytes is protobuf's and stays a parameter. *)

From S2P Require Import Prelude BaseTypes Proto GuidBytes KeyPair.

Definition kSerializedEndorsementMagic : bytes := bs "RSE1".

(** [Buffer(bytes.data(), static_cast<uint32_t>(bytes.size()))]. *)
Definition stringToBuffer (b : bytes) : bytes := take (Z.to_nat (wrap 32 (size_of b))) b.

Definition bufferToString (b : bytes) : bytes := match b with [] => [] | _ => b end.

(** ** BufferReader: the unread bytes are the state *)
Definition Reader (A : Type) : Type := bytes -> Res (A * bytes).
#[export] Instance reader_ret : MRet Reader := fun A a s => Ok (a, s).
#[export] Instance reader_bind : MBind Reader := fun A B f m s =>
  match m s with
  | Ok (a, s') => f a s'
  | Throw e => Throw e
  | Undefined => Undefined
  | NoFuel => NoFuel
  end.

Definition readBytes (count : Z) (fieldName : string) : Reader bytes := fun s =>
  if size_of s <? count then throw_runtime fieldName
  else Ok (take (Z.to_nat count) s, drop (Z.to_nat count) s).

Definition expectMagic (magic : bytes) : Reader unit :=
  b ← readBytes (size_of magic) "serialized endorsement missing magic";
  if bool_decide (b = magic) then mret tt
  else fun _ => throw_runtime "serialized endorsement has invalid magic".

Definition readUint32 (fieldName : string) : Reader Z :=
  b ← readBytes 4 fieldName;
  let at_ i := byte_val (default (byte_of 0) (b !! i)) in
  mret (Z.lor (Z.lor (Z.lor (wrap 32 (Z.shiftl (at_ 0%nat) 24)) (wrap 32 (Z.shiftl (at_ 1%nat) 16)))
                     (wrap 32 (Z.shiftl (at_ 2%nat) 8))) (at_ 3%nat)).

Definition readUint64 (fieldName : string) : Reader Z :=
  b ← readBytes 8 fieldName; mret (foldl (shift_in 64) 0 b).

Definition expectDone : Reader unit := fun s =>
  match s with
  | [] => Ok (tt, s)
  | _ => throw_runtime "serialized endorsement has trailing bytes"
  end.

(** ** The binary form *)
Definition serializeBinary (message : Endorsement.t) : bytes :=
  let serialized := [] ++ kSerializedEndorsementMagic in
  let serialized := serialized ++ value_or_empty (Endorsement.subject message) in
  let serialized := serialized ++ value_or_empty (Endorsement.endorsement_service message) in
  let serialized := serialized ++ value_or_empty (Endorsement.endorsement_type message) in
  let serialized := appendUint64 serialized (default 0 (Endorsement.valid_until message)) in
  let serialized := appendUint32 serialized (wrap 32 (size_of (Endorsement.endorsement_value message))) in
  let serialized := appendUint32 serialized (wrap 32 (size_of (Endorsement.signature message))) in
  let serialized := serialized ++ Endorsement.endorsement_value message in
  let serialized := serialized ++ Endorsement.signature message in
  stringToBuffer serialized.

Definition deserializeBinary_reader : Reader Endorsement.t :=
  expectMagic kSerializedEndorsementMagic;;
  subject ← readBytes 16 "serialized endorsement missing subject";
  service ← readBytes 16 "serialized endorsement missing endorsement service";
  type ← readBytes 16 "serialized endorsement missing endorsement type";
  until ← readUint64 "serialized endorsement missing valid-until time";
  endorsementValueSize ← readUint32 "serialized endorsement missing value size";
  signatureSize ← readUint32 "serialized endorsement missing signature size";
  value ← readBytes endorsementValueSize "serialized endorsement value truncated";
  signature ← readBytes signatureSize "serialized endorsement signature truncated";
  expectDone;;
  mret (Endorsement.mk (Some subject) (Some service) (Some type) value (Some until) signature).

Definition deserializeBinary (serialized : bytes) : Res Endorsement.t :=
  r ← deserializeBinary_reader serialized; Ok r.1.

(** ** Validation *)
Definition validateUuidLike (b : bytes) (fieldName : string) : Res unit :=
  if Nat.eqb (List.length b) 16 then Ok tt else throw_runtime fieldName.

Definition validateMessage (message : Endorsement.t) (requireSignature : bool) : Res unit :=
  match Endorsement.subject message with
  | None => throw_runtime "endorsement missing subject"
  | Some subject =>
  match Endorsement.endorsement_service message with
  | None => throw_runtime "endorsement missing endorsement service"
  | Some service =>
  match Endorsement.endorsement_type message with
  | None => throw_runtime "endorsement missing endorsement type"
  | Some type =>
  match Endorsement.valid_until message with
  | None => throw_runtime "endorsement missing valid-until time"
  | Some _ =>
      validateUuidLike subject "invalid endorsement subject length";;
      validateUuidLike service "invalid endorsement service length";;
      validateUuidLike type "invalid endorsement type length";;
      if requireSignature && bool_decide (Endorsement.signature message = [])
      then throw_runtime "endorsement missing signature"
      else Ok tt
  end end end end.

(** ** The class: [message_] is the protobuf message it wraps *)
Definition setMessageFields (subject service : NodeID) (type : GUID) (value : bytes)
    (validUntil : DateTime) (signature : bytes) : Endorsement.t :=
  Endorsement.mk (Some (serializeGuidBytes subject)) (Some (serializeGuidBytes service))
    (Some (serializeGuidBytes type)) (bufferToString value) (Some validUntil)
    (bufferToString signature).

Definition Endorsement_fromProto (message : Endorsement.t) : Res Endorsement.t :=
  validateMessage message true;; Ok message.

Definition Endorsement_deserialize (serialized : bytes) : Res Endorsement.t :=
  message ← deserializeBinary serialized;
  validateMessage message true;;
  Ok message.

Definition Endorsement_serialize (e : Endorsement.t) : Res bytes :=
  validateMessage e true;; Ok (serializeBinary e).

Definition Endorsement_toProto (e : Endorsement.t) : Res Endorsement.t :=
  validateMessage e true;; Ok e.

Definition endorsement_subject (e : Endorsement.t) : Res NodeID :=
  validateMessage e true;;
  deserializeGuidBytes (value_or_empty (Endorsement.subject e)) "invalid endorsement subject length".

Definition endorsementService (e : Endorsement.t) : Res NodeID :=
  validateMessage e true;;
  deserializeGuidBytes (value_or_empty (Endorsement.endorsement_service e))
    "invalid endorsement service length".

Definition endorsementType (e : Endorsement.t) : Res GUID :=
  validateMessage e true;;
  deserializeGuidBytes (value_or_empty (Endorsement.endorsement_type e))
    "invalid endorsement type length".

Definition endorsementValue (e : Endorsement.t) : Res bytes :=
  validateMessage e true;; Ok (stringToBuffer (Endorsement.endorsement_value e)).

Definition endorsement_signature (e : Endorsement.t) : Res bytes :=
  validateMessage e true;; Ok (stringToBuffer (Endorsement.signature e)).

Section Signing.
Context `{C : Crypto}.
(** protobuf's deterministic serializer on [rsp.proto.Endorsement]. *)
Context (serializeDeterministic : Endorsement.t -> bytes).

Definition serializeUnsigned (e : Endorsement.t) : Res bytes :=
  let unsignedMessage :=
    Endorsement.mk (Endorsement.subject e) (Endorsement.endorsement_service e)
      (Endorsement.endorsement_type e) (Endorsement.endorsement_value e)
      (Endorsement.valid_until e) [] in
  validateMessage unsignedMessage false;;
  Ok (serializeDeterministic unsignedMessage).

Definition createSigned (k : KeyPair) (subject : NodeID) (type : GUID) (value : bytes)
    (validUntil : DateTime) : Res Endorsement.t :=
  service ← nodeID k;
  let e := setMessageFields subject service type value validUntil [] in
  unsignedBytes ← serializeUnsigned e;
  signature ← sign k unsignedBytes;
  Ok (Endorsement.mk (Endorsement.subject e) (Endorsement.endorsement_service e)
        (Endorsement.endorsement_type e) (Endorsement.endorsement_value e)
        (Endorsement.valid_until e) (bufferToString signature)).

Definition verifySignature (e : Endorsement.t) (k : KeyPair) : Res bool :=
  validateMessage e true;;
  id ← nodeID k;
  service ← endorsementService e;
  if bool_decide (id = service) then
    unsignedBytes ← serializeUnsigned e;
    signature ← endorsement_signature e;
    verify k unsignedBytes signature
  else Ok false.
End Signing.

(** ** Lemmas: the reader *)

Lemma reader_bind_ok {A B} (m : Reader A) (f : A -> Reader B) s a s' :
  m s = Ok (a, s') -> (m ≫= f) s = f a s'.
Proof. intros H. unfold mbind, reader_bind. by rewrite H. Qed.

Lemma reader_bind_inv {A B} (m : Reader A) (f : A -> Reader B) s r :
  (m ≫= f) s = Ok r -> exists a s', m s = Ok (a, s') /\ f a s' = Ok r.
Proof. unfold mbind, reader_bind. destruct (m s) as [[a s']| | |]; try discriminate. eauto. Qed.

Lemma readBytes_app n f l k : size_of l = n -> readBytes n f (l ++ k) = Ok (l, k).
Proof.
  unfold size_of. intros <-. unfold readBytes, size_of. rewrite length_app.
  destruct (Z.ltb_spec (Z.of_nat (List.length l + List.length k)) (Z.of_nat (List.length l))); [lia|].
  by rewrite Nat2Z.id, take_app_length, drop_app_length.
Qed.

Lemma readBytes_inv n f s l k :
  0 <= n -> readBytes n f s = Ok (l, k) -> s = l ++ k /\ size_of l = n.
Proof.
  unfold readBytes, size_of. intros Hn.
  destruct (Z.ltb_spec (Z.of_nat (List.length s)) n); [discriminate|].
  intros [= <- <-]. rewrite take_drop, length_take. split; [done|lia].
Qed.

Lemma u32_of_bytes a b c d :
  Z.lor (Z.lor (Z.lor (wrap 32 (Z.shiftl (byte_val a) 24)) (wrap 32 (Z.shiftl (byte_val b) 16)))
               (wrap 32 (Z.shiftl (byte_val c) 8))) (byte_val d)
  = be_value 32 [a; b; c; d].
Proof.
  pose proof (byte_val_range a). pose proof (byte_val_range b).
  pose proof (byte_val_range c). pose proof (byte_val_range d).
  unfold be_value. cbn [foldl]. unfold wrap.
  rewrite (Z.mod_small (Z.shiftl (byte_val a) 24)), (Z.mod_small (Z.shiftl (byte_val b) 16)),
    (Z.mod_small (Z.shiftl (byte_val c) 8)) by (rewrite Z.shiftl_mul_pow2 by lia; simpl; lia).
  replace (Z.shiftl (byte_val a) 24) with (Z.shiftl (Z.shiftl (byte_val a) 8) 16)
    by (rewrite Z.shiftl_shiftl by lia; f_equal; lia).
  rewrite <- Z.shiftl_lor, (lor_low_add _ (byte_val b) 8) by (simpl; lia).
  replace (Z.shiftl (byte_val a * 2 ^ 8 + byte_val b) 16)
    with (Z.shiftl (Z.shiftl (byte_val a * 2 ^ 8 + byte_val b) 8) 8)
    by (rewrite Z.shiftl_shiftl by lia; f_equal; lia).
  rewrite <- Z.shiftl_lor, (lor_low_add _ (byte_val c) 8) by (simpl; lia).
  rewrite (lor_low_add _ (byte_val d) 8) by (simpl; lia).
  rewrite (shift_in_wide 32 0 a), Z.mod_small by lia.
  rewrite (shift_in_wide 32 _ b), Z.mod_small by lia.
  rewrite (shift_in_wide 32 _ c), Z.mod_small by lia.
  rewrite (shift_in_wide 32 _ d), Z.mod_small by lia. lia.
Qed.

Lemma readUint32_app f v k : is_u32 v -> readUint32 f (be_bytes 4 v ++ k) = Ok (v, k).
Proof.
  unfold is_u32. intros Hv. unfold readUint32.
  erewrite reader_bind_ok by (apply readBytes_app; unfold size_of; by rewrite length_be_bytes).
  unfold mret, reader_ret. repeat f_equal. rewrite <- (be_bytes_value 32 4 v) at 5 by (simpl; lia).
  pose proof (length_be_bytes 4 v) as Hl.
  destruct (be_bytes 4 v) as [|a [|b [|c [|d [|]]]]]; try discriminate.
  apply u32_of_bytes.
Qed.

Lemma readUint32_inv f s v k :
  readUint32 f s = Ok (v, k) -> s = be_bytes 4 v ++ k /\ is_u32 v.
Proof.
  unfold readUint32. intros H. apply reader_bind_inv in H as (b & s' & H1 & H2).
  apply readBytes_inv in H1 as [-> Hl]; [|lia]. unfold mret, reader_ret in H2. injection H2 as <- <-.
  unfold size_of in Hl.
  destruct b as [|b0 [|b1 [|b2 [|b3 [|]]]]]; cbn [List.length] in Hl; try lia.
  cbn [lookup list_lookup from_option Datatypes.id]. rewrite u32_of_bytes. split.
  - f_equal. symmetry. apply (be_value_bytes 32 [b0; b1; b2; b3]); unfold size_of; simpl; lia.
  - pose proof (be_value_range 32 [b0; b1; b2; b3]) as Hr. unfold size_of in Hr. simpl in Hr.
    unfold is_u32. simpl. lia.
Qed.

Lemma readUint64_app f v k : is_u64 v -> readUint64 f (be_bytes 8 v ++ k) = Ok (v, k).
Proof.
  intros Hv. unfold readUint64.
  erewrite reader_bind_ok by (apply readBytes_app; unfold size_of; by rewrite length_be_bytes).
  unfold mret, reader_ret. by rewrite be_word_value.
Qed.

Lemma readUint64_inv f s v k :
  readUint64 f s = Ok (v, k) -> s = be_bytes 8 v ++ k /\ is_u64 v.
Proof.
  unfold readUint64. intros H. apply reader_bind_inv in H as (b & s' & H1 & H2).
  apply readBytes_inv in H1 as [-> Hl]; [|lia]. unfold mret, reader_ret in H2. injection H2 as <- <-.
  unfold size_of in Hl. split; [|apply be_word_range; lia]. by rewrite be_word_bytes by lia.
Qed.

(** ** Lemmas: validation *)

(** What [validateMessage] accepts. *)
Definition valid_endorsement (e : Endorsement.t) (s v t : bytes) (u : Z) : Prop :=
  Endorsement.subject e = Some s /\ Endorsement.endorsement_service e = Some v
  /\ Endorsement.endorsement_type e = Some t /\ Endorsement.valid_until e = Some u
  /\ List.length s = 16%nat /\ List.length v = 16%nat /\ List.length t = 16%nat.

Lemma validateMessage_ok e r :
  validateMessage e r = Ok tt <->
  (exists s v t u, valid_endorsement e s v t u) /\ (r = true -> Endorsement.signature e <> []).
Proof.
  unfold validateMessage, valid_endorsement, validateUuidLike. split.
  - destruct (Endorsement.subject e) as [s|]; [|discriminate].
    destruct (Endorsement.endorsement_service e) as [v|]; [|discriminate].
    destruct (Endorsement.endorsement_type e) as [t|]; [|discriminate].
    destruct (Endorsement.valid_until e) as [u|]; [|discriminate].
    destruct (Nat.eqb_spec (List.length s) 16); [|discriminate].
    destruct (Nat.eqb_spec (List.length v) 16); [|discriminate].
    destruct (Nat.eqb_spec (List.length t) 16); [|discriminate]. cbn [mbind res_bind].
    destruct r; cbn [andb]; [case_bool_decide; [discriminate|]|]; intros _;
      (split; [by exists s, v, t, u|done]).
  - intros [(s & v & t & u & -> & -> & -> & -> & -> & -> & ->) Hsig]. cbn [Nat.eqb mbind res_bind].
    destruct r; [|done]. cbn [andb]. by rewrite bool_decide_eq_false_2 by auto.
Qed.

(** [validateMessage] throws runtime errors only. *)
Lemma validateMessage_cases e r :
  validateMessage e r = Ok tt \/ exists msg, validateMessage e r = Throw (RuntimeError msg).
Proof.
  unfold validateMessage, validateUuidLike, throw_runtime.
  repeat (case_match; cbn [mbind res_bind]; simplify_eq; eauto).
Qed.

(** The sizes the 32-bit length fields and [Buffer] can carry. *)
Definition binary_fits (e : Endorsement.t) : Prop :=
  size_of (Endorsement.endorsement_value e) + size_of (Endorsement.signature e) + 68 < 2 ^ 32
  /\ on_child is_u64 (Endorsement.valid_until e).

Lemma wrap_small w z : 0 <= z < 2 ^ w -> wrap w z = z.
Proof. apply Z.mod_small. Qed.

Lemma serializeBinary_layout e s v t u :
  valid_endorsement e s v t u -> binary_fits e ->
  serializeBinary e =
    kSerializedEndorsementMagic ++ s ++ v ++ t ++ be_bytes 8 u
    ++ be_bytes 4 (size_of (Endorsement.endorsement_value e))
    ++ be_bytes 4 (size_of (Endorsement.signature e))
    ++ Endorsement.endorsement_value e ++ Endorsement.signature e.
Proof.
  intros (Hs & Hv & Ht & Hu & Ls & Lv & Lt) [Hf _]. unfold serializeBinary. rewrite Hs, Hv, Ht, Hu.
  cbn [from_option Datatypes.id]. rewrite !appendUint32_be, appendUint64_be.
  unfold size_of in *.
  rewrite !wrap_small by lia. unfold stringToBuffer, size_of.
  rewrite take_ge; [by rewrite <- !app_assoc|].
  rewrite wrap_small; [by rewrite Nat2Z.id|].
  rewrite !length_app, !length_be_bytes, Ls, Lv, Lt.
  change (List.length kSerializedEndorsementMagic) with 4%nat. cbn [List.length]. lia.
Qed.

Lemma deserializeBinary_layout e s v t u :
  valid_endorsement e s v t u -> binary_fits e ->
  deserializeBinary_reader (serializeBinary e) = Ok (e, []).
Proof.
  intros Hval Hfit. rewrite (serializeBinary_layout e s v t u Hval Hfit).
  destruct Hval as (Hs & Hv & Ht & Hu & Ls & Lv & Lt), Hfit as [Hf Hu64]. rewrite Hu in Hu64.
  unfold size_of in Hf. unfold deserializeBinary_reader.
  erewrite reader_bind_ok.
  2:{ unfold expectMagic. erewrite reader_bind_ok by (by apply readBytes_app).
      rewrite bool_decide_eq_true_2 by done. reflexivity. }
  do 3 (erewrite reader_bind_ok by (apply readBytes_app; unfold size_of; lia)).
  erewrite reader_bind_ok by (by apply readUint64_app).
  do 2 (erewrite reader_bind_ok by (apply readUint32_app; unfold is_u32, size_of; lia)).
  erewrite reader_bind_ok by (by apply readBytes_app).
  erewrite reader_bind_ok.
  2:{ rewrite <- (app_nil_r (Endorsement.signature e)) at 2. by apply readBytes_app. }
  erewrite reader_bind_ok by reflexivity. unfold mret, reader_ret.
  destruct e; cbn in *. by subst.
Qed.

Lemma deserializeBinary_canonical b e rest :
  deserializeBinary_reader b = Ok (e, rest) ->
  exists s v t u, valid_endorsement e s v t u /\ is_u64 u
  /\ b = kSerializedEndorsementMagic ++ s ++ v ++ t ++ be_bytes 8 u
    ++ be_bytes 4 (size_of (Endorsement.endorsement_value e))
    ++ be_bytes 4 (size_of (Endorsement.signature e))
    ++ Endorsement.endorsement_value e ++ Endorsement.signature e.
Proof.
  unfold deserializeBinary_reader. intros H.
  apply reader_bind_inv in H as ([] & s0 & Hm & H).
  unfold expectMagic in Hm. apply reader_bind_inv in Hm as (mg & s1 & Hm1 & Hm2).
  apply readBytes_inv in Hm1 as [-> _]; [|unfold size_of; lia].
  case_bool_decide; [|discriminate]. subst mg. unfold mret, reader_ret in Hm2. injection Hm2 as ->.
  apply reader_bind_inv in H as (s & k1 & H1 & H). apply readBytes_inv in H1 as [-> L1]; [|lia].
  apply reader_bind_inv in H as (v & k2 & H1 & H). apply readBytes_inv in H1 as [-> L2]; [|lia].
  apply reader_bind_inv in H as (t & k3 & H1 & H). apply readBytes_inv in H1 as [-> L3]; [|lia].
  apply reader_bind_inv in H as (u & k4 & H1 & H). apply readUint64_inv in H1 as [-> Hu].
  apply reader_bind_inv in H as (n1 & k5 & H1 & H). apply readUint32_inv in H1 as [-> Hn1].
  apply reader_bind_inv in H as (n2 & k6 & H1 & H). apply readUint32_inv in H1 as [-> Hn2].
  unfold is_u32 in *.
  apply reader_bind_inv in H as (val & k7 & H1 & H). apply readBytes_inv in H1 as [-> <-]; [|lia].
  apply reader_bind_inv in H as (sg & k8 & H1 & H). apply readBytes_inv in H1 as [-> <-]; [|lia].
  apply reader_bind_inv in H as ([] & k9 & H1 & H). unfold expectDone in H1.
  destruct k8; [|discriminate]. unfold mret, reader_ret in H. injection H as <- <-.
  exists s, v, t, u. unfold size_of in *. cbn.
  split; [repeat split; lia|]. split; [done|]. by rewrite app_nil_r.
Qed.

(** ** Properties *)

(** [Endorsement::deserialize] inverts [Endorsement::serialize]: for every
    endorsement that passes [validateMessage] and whose value and signature fit
    the 32-bit buffer, serialization succeeds and reading the bytes back gives
    the same endorsement. *)
Theorem endorsement_binary_round_trip e :
  validateMessage e true = Ok tt -> binary_fits e ->
  exists b, Endorsement_serialize e = Ok b /\ Endorsement_deserialize b = Ok e.
Proof.
  intros Hok Hfit. pose proof Hok as [(s & v & t & u & Hval) _]%validateMessage_ok.
  exists (serializeBinary e). unfold Endorsement_serialize, Endorsement_deserialize, deserializeBinary.
  rewrite Hok, (deserializeBinary_layout e s v t u Hval Hfit). cbn [mbind res_bind fst]. by rewrite Hok.
Qed.

(** The binary form is canonical: whatever byte string (of a [Buffer]'s
    32-bit size) [Endorsement::deserialize] accepts is exactly the string
    [serialize] produces for the result, so no two strings decode alike and
    none carries trailing or unread bytes. *)
Theorem endorsement_binary_canonical b e :
  size_of b < 2 ^ 32 ->
  Endorsement_deserialize b = Ok e -> Endorsement_serialize e = Ok b.
Proof.
  intros Hb. unfold Endorsement_serialize, Endorsement_deserialize, deserializeBinary.
  destruct (deserializeBinary_reader b) as [[e' rest]| | |] eqn:Hd; try discriminate.
  cbn [mbind res_bind fst].
  destruct (validateMessage e' true) as [[]| | |] eqn:Hok; try discriminate. intros [= <-].
  rewrite Hok. cbn [mbind res_bind]. f_equal.
  apply deserializeBinary_canonical in Hd as (s & v & t & u & Hval & Hu & ->).
  apply (serializeBinary_layout e' s v t u Hval). destruct Hval as (_ & _ & _ & Huu & Ls & Lv & Lt).
  split; [|by rewrite Huu]. unfold size_of in *.
  rewrite !length_app, !length_be_bytes, Ls, Lv, Lt in Hb.
  change (List.length kSerializedEndorsementMagic) with 4%nat in Hb. lia.
Qed.

Section SigningProperties.
Context `{C : Crypto} `{!CryptoLaws C} (serializeDeterministic : Endorsement.t -> bytes).

Lemma setMessageFields_valid s v t value u sig :
  valid_endorsement (setMessageFields s v t value u sig)
    (serializeGuidBytes s) (serializeGuidBytes v) (serializeGuidBytes t) u.
Proof. repeat split; apply length_serializeGuidBytes. Qed.

(** An endorsement made by [createSigned] is accepted by [verifySignature]
    under the issuing key, names that key's node as its endorsement service,
    and carries the subject, type and value it was created for. *)
Theorem createSigned_verifies k subject type value validUntil e :
  GUID_wf subject -> GUID_wf type -> size_of (Endorsement.signature e) < 2 ^ 32 ->
  createSigned serializeDeterministic k subject type value validUntil = Ok e ->
  verifySignature serializeDeterministic e k = Ok true
  /\ endorsementService e = nodeID k /\ endorsement_subject e = Ok subject
  /\ endorsementType e = Ok type /\ Endorsement.endorsement_value e = value.
Proof.
  intros Hsub Hty Hsz Hc. unfold createSigned in Hc.
  destruct (nodeID k) as [service| | |] eqn:Hid; try discriminate. cbn [mbind res_bind] in Hc.
  unfold serializeUnsigned at 1 in Hc.
  set (e0 := Endorsement.mk _ _ _ _ _ _) in Hc.
  assert (Hv0 : validateMessage e0 false = Ok tt).
  { apply validateMessage_ok. split; [|done]. do 4 eexists.
    repeat split; apply length_serializeGuidBytes. }
  rewrite Hv0 in Hc. cbn [mbind res_bind] in Hc.
  destruct (sign k (serializeDeterministic e0)) as [sg| | |] eqn:Hsig; try discriminate.
  cbn [mbind res_bind] in Hc.
  assert (Hne : sg <> [] /\ verify k (serializeDeterministic e0) sg = Ok true).
  { destruct k as [key|]; [|discriminate]. unfold sign in Hsig. destruct (negb _); [discriminate|].
    destruct (digest_sign _ _) as [s'|] eqn:Hd; [|discriminate]. injection Hsig as <-.
    split; [by eapply sign_nonempty|]. cbn [verify]. by rewrite (sign_verifies _ _ _ Hd). }
  destruct Hne as [Hne Hver]. destruct sg as [|c sg]; [done|]. cbn [bufferToString] in Hc.
  injection Hc as <-. cbn [Endorsement.signature] in Hsz.
  assert (Hbuf : stringToBuffer (c :: sg) = c :: sg).
  { unfold stringToBuffer. rewrite wrap_small by (split; [unfold size_of; lia|done]).
    unfold size_of. by rewrite Nat2Z.id, firstn_all. }
  unfold verifySignature, endorsementService, endorsement_subject, endorsementType,
    endorsement_signature.
  set (e1 := Endorsement.mk _ _ _ _ _ (c :: sg)).
  assert (Hv1 : validateMessage e1 true = Ok tt).
  { apply validateMessage_ok. split; [|done]. do 4 eexists.
    repeat split; apply length_serializeGuidBytes. }
  assert (Hu : serializeUnsigned serializeDeterministic e1 = Ok (serializeDeterministic e0)).
  { unfold serializeUnsigned. change (Endorsement.mk _ _ _ _ _ []) with e0. by rewrite Hv0. }
  rewrite Hv1, Hid, Hu. cbn [mbind res_bind e1 Endorsement.subject Endorsement.endorsement_service
    Endorsement.endorsement_type Endorsement.signature setMessageFields from_option Datatypes.id].
  rewrite !deserialize_serialize by (try done; by eapply nodeID_wf). cbn [mbind res_bind].
  rewrite bool_decide_eq_true_2, Hbuf by done.
  split; [done|]. do 3 (split; [done|]). by destruct value.
Qed.

End SigningProperties.

(** ** Witnesses *)

Definition sample_endorsement : Endorsement.t :=
  Endorsement.mk (Some (bs "0123456789abcdef")) (Some (bs "fedcba9876543210"))
    (Some (bs "types and values")) (bs "value") (Some 1700000000000) (bs "sig").

Lemma endorsement_binary_round_trip_witness :
  exists b, Endorsement_serialize sample_endorsement = Ok b
    /\ Endorsement_deserialize b = Ok sample_endorsement.
Proof.
  apply (endorsement_binary_round_trip sample_endorsement).
  - vm_compute. reflexivity.
  - split; [vm_compute; reflexivity|split; vm_compute; congruence].
Defined.

Lemma endorsement_binary_canonical_witness :
  Endorsement_serialize sample_endorsement = Ok (serializeBinary sample_endorsement).
Proof.
  apply (endorsement_binary_canonical (serializeBinary sample_endorsement) sample_endorsement).
  - vm_compute. reflexivity.
  - vm_compute. reflexivity.
Defined.

Lemma createSigned_verifies_witness :
  exists e, @createSigned ToyCrypto.toy Endorsement.endorsement_value ToyCrypto.alice
              (mkGUID 1 2) (mkGUID 3 4) (bs "v") 5 = Ok e
    /\ @verifySignature ToyCrypto.toy Endorsement.endorsement_value e ToyCrypto.alice = Ok true.
Proof.
  eexists. split; [vm_compute; reflexivity|].
  eapply (@createSigned_verifies ToyCrypto.toy ToyCrypto.toy_laws Endorsement.endorsement_value
    ToyCrypto.alice (mkGUID 1 2) (mkGUID 3 4) (bs "v") 5);
    [split; split; vm_compute; congruence|split; split; vm_compute; congruence|
     |vm_compute; reflexivity].
  vm_compute. reflexivity.
Defined.
