(* ===== verification/FieldResolver.v ===== *)
(** * common/endorsement/field_resolver and resource_manager/schema_registry

    Field paths are walked with protobuf's reflection API, which is not part of
    the repository: the class [Reflection] lists the operations the code calls.
    [SchemaSnapshot] and [SchemaRegistry] are the schema store of the resource
    manager; the descriptor pool a snapshot builds is protobuf's. *)

From stdpp Require Import sorting.
From S2P Require Import Prelude Proto.

(** [FieldDescriptor::CppType]. *)
Inductive CppType :=
| CPPTYPE_INT32 | CPPTYPE_INT64 | CPPTYPE_UINT32 | CPPTYPE_UINT64
| CPPTYPE_DOUBLE | CPPTYPE_FLOAT | CPPTYPE_BOOL | CPPTYPE_ENUM
| CPPTYPE_STRING | CPPTYPE_MESSAGE.

#[export] Instance CppType_eq_dec : EqDecision CppType.
Proof. solve_decision. Defined.

(** ** Protobuf reflection

    The getters return the value the C++ getter returns on a singular field
    (the default when the field is unset); floating-point values are the
    integer [static_cast<int64_t>] makes of them. *)
Class Reflection := {
  Message : Type;
  FieldDescriptor : Type;
  Descriptor : Type;
  FindFieldByName : Message -> bytes -> option FieldDescriptor;
  cpp_type : FieldDescriptor -> CppType;
  is_repeated : FieldDescriptor -> bool;
  (** [field->message_type()->full_name()] *)
  message_type_name : FieldDescriptor -> bytes;
  GetMessage : Message -> FieldDescriptor -> Message;
  HasField : Message -> FieldDescriptor -> bool;
  GetString : Message -> FieldDescriptor -> bytes;
  GetInt : Message -> FieldDescriptor -> Z;
  GetUInt : Message -> FieldDescriptor -> Z;
  GetBool : Message -> FieldDescriptor -> bool;
  GetEnumNumber : Message -> FieldDescriptor -> Z;
  GetFloatAsInt64 : Message -> FieldDescriptor -> Z;
  GetRepeatedMessages : Message -> FieldDescriptor -> list Message;
  (** the pool a snapshot's schemas build, and parsing with its factory *)
  pool_FindMessageTypeByName : list ServiceSchema.t -> bytes -> option Descriptor;
  dynamic_ParseFromString : list ServiceSchema.t -> Descriptor -> bytes -> option Message;
}.

(** ** SchemaSnapshot *)
Module SchemaSnapshot.
Abbreviation t := (list ServiceSchema.t) (only parsing).

Definition findByTypeUrl (snap : t) (typeUrl : bytes) : option ServiceSchema.t :=
  List.find (fun schema => existsb (fun url => bool_decide (url = typeUrl))
                             (ServiceSchema.accepted_type_urls schema)) snap.

(** [ensurePool] leaves the pool null for an empty snapshot. *)
Definition findMessageDescriptor `{Reflection} (snap : t) (fullTypeName : bytes) : option Descriptor :=
  match snap with
  | [] => None
  | _ => pool_FindMessageTypeByName snap fullTypeName
  end.
End SchemaSnapshot.

(** ** SchemaRegistry *)
Module SchemaRegistry.
Record t := mk {
  byHash_ : gmap bytes ServiceSchema.t;
  byProtoFile_ : gmap bytes bytes }.

Definition empty : t := mk ∅ ∅.

(** One iteration of the loop of [ingest]. *)
Definition ingest_one (r : t) (schema : ServiceSchema.t) : t :=
  let hash := ServiceSchema.schema_hash schema in
  if bool_decide (hash = []) || bool_decide (is_Some (byHash_ r !! hash)) then r
  else mk (<[hash := schema]> (byHash_ r))
          (<[ServiceSchema.proto_file_name schema := hash]> (byProtoFile_ r)).

Definition ingest (r : t) (advertisement : ResourceAdvertisement.t) : t :=
  foldl ingest_one r (ResourceAdvertisement.schemas advertisement).

(** Iteration over a [std::map<std::string, _>]: ascending keys. *)
Definition key_le (p q : bytes * ServiceSchema.t) : Prop := Is_true (bytes_leb p.1 q.1).

Definition in_key_order (m : gmap bytes ServiceSchema.t) : list ServiceSchema.t :=
  (merge_sort key_le (map_to_list m)).*2.

Definition allSchemas (r : t) : list ServiceSchema.t := in_key_order (byHash_ r).

Definition findByHash (r : t) (hash : bytes) : option ServiceSchema.t := byHash_ r !! hash.

Definition findByProtoFile (r : t) (protoFile : bytes) : option ServiceSchema.t :=
  hash ← byProtoFile_ r !! protoFile; byHash_ r !! hash.

Definition size (r : t) : nat := base.size (byHash_ r).

Definition snapshot (r : t) : list ServiceSchema.t := in_key_order (byHash_ r).

(** The class invariant: schemas are filed under their own non-empty hash, and
    the index by file name points to stored schemas of that name. *)
Definition wf (r : t) : Prop :=
  (forall h s, byHash_ r !! h = Some s -> ServiceSchema.schema_hash s = h /\ h <> [])
  /\ (forall f h, byProtoFile_ r !! f = Some h ->
        exists s, byHash_ r !! h = Some s /\ ServiceSchema.proto_file_name s = f).
End SchemaRegistry.

(** ** Field resolution *)

(** [std::variant<monostate, string, int64_t, uint64_t, bool, int32_t>]. *)
Inductive ResolvedValue :=
| RMonostate
| RString (s : bytes)
| RInt64 (v : Z)
| RUInt64 (v : Z)
| RBool (b : bool)
| RInt32 (v : Z).

(** The part of a type url after the last slash. *)
Definition typeNameFromUrl (typeUrl : bytes) : bytes :=
  match list_find (fun c => c = "/"%char) (rev typeUrl) with
  | None => typeUrl
  | Some (i, _) => drop (List.length typeUrl - i) typeUrl
  end.

Section Resolver.
Context `{R : Reflection}.

Definition readScalar (msg : Message) (field : FieldDescriptor) : ResolvedValue :=
  match cpp_type field with
  | CPPTYPE_STRING => RString (GetString msg field)
  | CPPTYPE_INT32 | CPPTYPE_INT64 => RInt64 (GetInt msg field)
  | CPPTYPE_UINT32 | CPPTYPE_UINT64 => RUInt64 (GetUInt msg field)
  | CPPTYPE_BOOL => RBool (GetBool msg field)
  | CPPTYPE_ENUM => RInt32 (GetEnumNumber msg field)
  | CPPTYPE_FLOAT | CPPTYPE_DOUBLE => RInt64 (GetFloatAsInt64 msg field)
  | CPPTYPE_MESSAGE => RMonostate
  end.

(** A successful walk: the message that holds the terminal field, the field,
    and whether the message is (a part of) the local [dynamicHolder]. *)
Record WalkResult := mkWalk { w_message : Message; w_field : FieldDescriptor; w_dynamic : bool }.

(** [walkPath]; [snap] is [None] for a null snapshot pointer and [dynamic] says
    whether [current] already lives in [dynamicHolder].  Reading a singular
    sub-message through a repeated field fails protobuf's usage check, which
    aborts the process. *)
Fixpoint walkPath (current : Message) (segments : list bytes)
    (snap : option SchemaSnapshot.t) (dynamic : bool) : Res (option WalkResult) :=
  match segments with
  | [] => Ok None
  | seg :: rest =>
      match FindFieldByName current seg with
      | None => Ok None
      | Some field =>
          match rest with
          | [] => Ok (Some (mkWalk current field dynamic))
          | _ :: _ =>
              if negb (bool_decide (cpp_type field = CPPTYPE_MESSAGE)) then Ok None
              else if is_repeated field then Undefined
              else
                let child := GetMessage current field in
                match snap with
                | Some schemas =>
                    if bool_decide (message_type_name field = bs "google.protobuf.Any") then
                      match FindFieldByName child (bs "type_url"), FindFieldByName child (bs "value") with
                      | Some typeUrlField, Some valueField =>
                          let typeName := typeNameFromUrl (GetString child typeUrlField) in
                          match SchemaSnapshot.findMessageDescriptor schemas typeName with
                          | None => Ok None
                          | Some dynDesc =>
                              match dynamic_ParseFromString schemas dynDesc (GetString child valueField) with
                              | None => Ok None
                              | Some parsed => walkPath parsed rest snap true
                              end
                          end
                      | _, _ => Ok None
                      end
                    else walkPath child rest snap dynamic
                | None => walkPath child rest snap dynamic
                end
          end
      end
  end.

Definition resolveFieldPath (path : ERDASTFieldPath) (message : Message)
    (snap : option SchemaSnapshot.t) : Res ResolvedValue :=
  match path with
  | [] => Ok RMonostate
  | _ =>
      result ← walkPath message path snap false;
      match result with
      | None => Ok RMonostate
      | Some w =>
          if is_repeated (w_field w) then Ok RMonostate
          else if bool_decide (cpp_type (w_field w) = CPPTYPE_MESSAGE) then
            if HasField (w_message w) (w_field w) then Ok (RBool true) else Ok RMonostate
          else Ok (readScalar (w_message w) (w_field w))
      end
  end.

Definition resolvedValueEquals (resolved : ResolvedValue) (expected : ERDASTFieldValue) : bool :=
  match expected, resolved with
  | BytesValue v, RString s => bool_decide (s = v)
  | StringValue v, RString s => bool_decide (s = v)
  | IntValue v, RInt64 x => x =? v
  | UintValue v, RUInt64 x => x =? v
  | BoolValue v, RBool b => Bool.eqb b v
  | EnumValue v, RInt32 x => x =? v
  | _, _ => false
  end.

Definition resolvedValuePresent (resolved : ResolvedValue) : bool :=
  match resolved with RMonostate => false | _ => true end.

(** The returned pointers, each with whether its target dies when the function
    returns (the local [dynamicHolder] owns it). *)
Definition resolveRepeatedMessages (path : ERDASTFieldPath) (message : Message)
    (snap : option SchemaSnapshot.t) : Res (list (Message * bool)) :=
  match path with
  | [] => Ok []
  | _ =>
      result ← walkPath message path snap false;
      match result with
      | None => Ok []
      | Some w =>
          if negb (is_repeated (w_field w)) then Ok []
          else if negb (bool_decide (cpp_type (w_field w) = CPPTYPE_MESSAGE)) then Ok []
          else Ok ((fun m => (m, w_dynamic w)) <$> GetRepeatedMessages (w_message w) (w_field w))
      end
  end.
End Resolver.

(** ** Properties of the registry *)

Lemma ingest_one_wf r s : SchemaRegistry.wf r -> SchemaRegistry.wf (SchemaRegistry.ingest_one r s).
Proof.
  intros [Hh Hf]. unfold SchemaRegistry.ingest_one.
  destruct (bool_decide_reflect (ServiceSchema.schema_hash s = [])) as [|Hne]; [done|].
  destruct (bool_decide_reflect (is_Some (SchemaRegistry.byHash_ r !! ServiceSchema.schema_hash s)))
    as [|Hnew]; [done|].
  split; cbn [orb SchemaRegistry.byHash_ SchemaRegistry.byProtoFile_].
  - intros h s'. rewrite lookup_insert. case_decide; [|apply Hh]. intros [= <-]. by subst.
  - intros f h. rewrite lookup_insert. case_decide.
    + intros [= <-]. exists s. by rewrite lookup_insert_eq.
    + intros H'. apply Hf in H' as (s' & Hs' & <-). exists s'. split; [|done].
      rewrite lookup_insert_ne; [done|]. intros <-. apply Hnew. by eexists.
Qed.

Lemma ingest_one_keeps r s h s' :
  SchemaRegistry.findByHash r h = Some s' ->
  SchemaRegistry.findByHash (SchemaRegistry.ingest_one r s) h = Some s'.
Proof.
  unfold SchemaRegistry.findByHash, SchemaRegistry.ingest_one. intros Hs.
  destruct (bool_decide_reflect (ServiceSchema.schema_hash s = [])) as [|]; [done|].
  destruct (bool_decide_reflect (is_Some (SchemaRegistry.byHash_ r !! ServiceSchema.schema_hash s)))
    as [|Hnew]; [done|]. cbn [orb SchemaRegistry.byHash_].
  rewrite lookup_insert_ne; [done|]. intros <-. apply Hnew. by eexists.
Qed.

Lemma ingest_keeps r l h s' :
  SchemaRegistry.findByHash r h = Some s' ->
  SchemaRegistry.findByHash (foldl SchemaRegistry.ingest_one r l) h = Some s'.
Proof.
  revert r. induction l as [|s l IH]; intros r Hs; [done|]. cbn [foldl].
  by apply IH, ingest_one_keeps.
Qed.

Lemma ingest_one_stores r s :
  ServiceSchema.schema_hash s <> [] ->
  is_Some (SchemaRegistry.findByHash (SchemaRegistry.ingest_one r s) (ServiceSchema.schema_hash s)).
Proof.
  intros Hne. unfold SchemaRegistry.findByHash, SchemaRegistry.ingest_one.
  rewrite bool_decide_eq_false_2 by done. cbn [orb].
  case_bool_decide as Hs; [done|]. cbn. rewrite lookup_insert_eq. by eexists.
Qed.

(** The schema store keeps its invariant under every [ingest]: schemas
    stay filed under their own non-empty hash, the file-name index only points
    to stored schemas of that name, a stored hash is never overwritten, and
    every advertised schema with a hash can be found afterwards. *)
Theorem SchemaRegistry_ingest_correct r a :
  SchemaRegistry.wf r ->
  SchemaRegistry.wf (SchemaRegistry.ingest r a)
  /\ (forall h s, SchemaRegistry.findByHash r h = Some s ->
        SchemaRegistry.findByHash (SchemaRegistry.ingest r a) h = Some s)
  /\ (forall s, s ∈ ResourceAdvertisement.schemas a -> ServiceSchema.schema_hash s <> [] ->
        exists s', SchemaRegistry.findByHash (SchemaRegistry.ingest r a) (ServiceSchema.schema_hash s)
                   = Some s' /\ ServiceSchema.schema_hash s' = ServiceSchema.schema_hash s)
  /\ (forall f s, SchemaRegistry.findByProtoFile (SchemaRegistry.ingest r a) f = Some s ->
        ServiceSchema.proto_file_name s = f).
Proof.
  intros Hwf. unfold SchemaRegistry.ingest. set (l := ResourceAdvertisement.schemas a). clearbody l.
  assert (Hwf' : SchemaRegistry.wf (foldl SchemaRegistry.ingest_one r l)).
  { clear -Hwf. revert r Hwf. induction l as [|s l IH]; intros r Hwf; [done|]. by apply IH, ingest_one_wf. }
  split; [done|]. split; [intros; by apply ingest_keeps|]. split.
  - intros s Hs Hne. assert (Hin : is_Some (SchemaRegistry.findByHash
      (foldl SchemaRegistry.ingest_one r l) (ServiceSchema.schema_hash s))).
    { clear -Hs Hne. revert r. induction l as [|s0 l IH]; intros r; [by apply elem_of_nil in Hs|].
      cbn [foldl]. apply elem_of_cons in Hs as [<-|Hs]; [|by apply IH].
      destruct (ingest_one_stores r s Hne) as [s' Hs']. exists s'. by apply ingest_keeps. }
    destruct Hin as [s' Hs']. exists s'. split; [done|]. by apply Hwf' in Hs' as [-> _].
  - intros f s. unfold SchemaRegistry.findByProtoFile.
    destruct (SchemaRegistry.byProtoFile_ _ !! f) as [h|] eqn:Hf; [|discriminate]. cbn.
    intros Hs. apply Hwf' in Hf as (s' & Hs' & <-). by simplify_eq.
Qed.

Lemma SchemaRegistry_ingest_correct_witness :
  let s := ServiceSchema.mk (bs "a.proto") (bs "d") [bs "u/A"] (bs "h") 1 in
  SchemaRegistry.wf (SchemaRegistry.ingest SchemaRegistry.empty (ResourceAdvertisement.mk [] [s])).
Proof.
  intros s.
  apply (SchemaRegistry_ingest_correct SchemaRegistry.empty (ResourceAdvertisement.mk [] [s])).
  split; intros ? ?; cbn; rewrite lookup_empty; discriminate.
Defined.

(** ** A concrete reflection, for the witnesses

    Messages as lists of named fields; a dynamic parse yields one fixed message
    with a repeated field [peers]. *)
Module ToyReflection.
Inductive msg := Msg (fields : list (bytes * field))
with field :=
| FString (s : bytes)
| FInt (v : Z)
| FBool (b : bool)
| FMessage (type : bytes) (m : msg)
| FRepeated (type : bytes) (ms : list msg).

Definition fields_of (m : msg) : list (bytes * field) := let 'Msg fs := m in fs.

Definition get (m : msg) (name : bytes) : option field :=
  snd <$> List.find (fun f => bool_decide (f.1 = name)) (fields_of m).

(** A field descriptor: the name and the field it describes. *)
Definition descriptor : Type := bytes * field.

Definition field_type (f : field) : CppType :=
  match f with
  | FString _ => CPPTYPE_STRING | FInt _ => CPPTYPE_INT64 | FBool _ => CPPTYPE_BOOL
  | FMessage _ _ | FRepeated _ _ => CPPTYPE_MESSAGE
  end.

Definition repeated (f : field) : bool := match f with FRepeated _ _ => true | _ => false end.
Definition type_name (f : field) : bytes :=
  match f with FMessage t _ | FRepeated t _ => t | _ => [] end.
Definition sub (f : option field) : msg := match f with Some (FMessage _ m) => m | _ => Msg [] end.
Definition str (f : option field) : bytes := match f with Some (FString s) => s | _ => [] end.
Definition int (f : option field) : Z := match f with Some (FInt v) => v | _ => 0 end.
Definition bool_ (f : option field) : bool := match f with Some (FBool b) => b | _ => false end.
Definition elements (f : option field) : list msg :=
  match f with Some (FRepeated _ ms) => ms | _ => [] end.

Definition peers_message : msg :=
  Msg [(bs "peers", FRepeated (bs "t.Peer") [Msg [(bs "up", FBool true)]])].

#[export] Instance toy_reflection : Reflection := {|
  Message := msg;
  FieldDescriptor := descriptor;
  Descriptor := bytes;
  FindFieldByName m name := pair name <$> get m name;
  cpp_type f := field_type f.2;
  is_repeated f := repeated f.2;
  message_type_name f := type_name f.2;
  GetMessage m f := sub (get m f.1);
  HasField m f := bool_decide (is_Some (snd <$> List.find (fun g => bool_decide (g.1 = f.1)) (fields_of m)));
  GetString m f := str (get m f.1);
  GetInt m f := int (get m f.1);
  GetUInt m f := int (get m f.1);
  GetBool m f := bool_ (get m f.1);
  GetEnumNumber m f := int (get m f.1);
  GetFloatAsInt64 m f := int (get m f.1);
  GetRepeatedMessages m f := elements (get m f.1);
  pool_FindMessageTypeByName _ name := Some name;
  dynamic_ParseFromString _ _ _ := Some peers_message |}.

(** A message with a scalar, a sub-message, a repeated field and an [Any]. *)
Definition sample : msg :=
  Msg [(bs "port", FInt 80);
       (bs "sub", FMessage (bs "t.Sub") (Msg [(bs "name", FString (bs "x"))]));
       (bs "items", FRepeated (bs "t.Item") [Msg [(bs "id", FInt 1)]; Msg [(bs "id", FInt 2)]]);
       (bs "any", FMessage (bs "google.protobuf.Any")
          (Msg [(bs "type_url", FString (bs "type.rsp/t.Peers")); (bs "value", FString [])]))].

Definition schemas : list ServiceSchema.t :=
  [ServiceSchema.mk (bs "t.proto") (bs "d") [bs "type.rsp/t.Peers"] (bs "h") 1].
End ToyReflection.
