(* ===== verification/Requirement.v ===== *)
(** * common/endorsement/endorsement.cpp: requirement trees

    Evaluation of a tree on one endorsement or on a message, and the reduction
    that authorizes a message: [reduceRequirementTree] removes what the sender's
    endorsements and the message already satisfy and leaves the empty tree when
    nothing is missing. *)

From S2P Require Import Prelude BaseTypes Proto GuidBytes EndorsementCodec FieldResolver.

(** ** Evaluation

    The four evaluators of the source share one body over the connectives and
    differ in the leaf cases; [evalTree] is that body.  A missing operand, an
    empty ALLOF and an unset node evaluate to false.  The operands of an
    equality are both evaluated (the left one first: C++ leaves the order open
    and only the text of an exception could tell). *)
Section EvalTree.
Context {L : Type} (leaf : L -> Res bool).

(** The loops over the terms of ALLOF and ANYOF, with their early exits. *)
Definition evalAll (ev : Ast L -> Res bool) : list (Ast L) -> Res bool :=
  fix all ts :=
    match ts with
    | [] => Ok true
    | term :: ts' => b ← ev term; if (b : bool) then all ts' else Ok false
    end.

Definition evalAny (ev : Ast L -> Res bool) : list (Ast L) -> Res bool :=
  fix any ts :=
    match ts with
    | [] => Ok false
    | term :: ts' => b ← ev term; if (b : bool) then Ok true else any ts'
    end.

Fixpoint evalTree (tree : Ast L) : Res bool :=
  match tree with
  | Equals (Some lhs) (Some rhs) =>
      l ← evalTree lhs; r ← evalTree rhs; Ok (Bool.eqb l r)
  | And (Some lhs) (Some rhs) => l ← evalTree lhs; if (l : bool) then evalTree rhs else Ok false
  | Or (Some lhs) (Some rhs) => l ← evalTree lhs; if (l : bool) then Ok true else evalTree rhs
  | Equals _ _ | And _ _ | Or _ _ => Ok false
  | AllOf [] => Ok false
  | AllOf terms => evalAll evalTree terms
  | AnyOf terms => evalAny evalTree terms
  | TrueValue => Ok true
  | FalseValue => Ok false
  | NotSet => Ok false
  | Leaf l => leaf l
  end.
End EvalTree.

Lemma evalTree_ext {L} (f g : L -> Res bool) tree : (forall l, f l = g l) -> evalTree f tree = evalTree g tree.
Proof.
  intros Hfg. induction tree as [|l r Hl Hr|l r Hl Hr|l r Hl Hr| | |ts IH|ts IH|l] using Ast_nested_ind;
    cbn [evalTree]; try done.
  1-3: destruct l as [l|], r as [r|]; try done; cbn in Hl, Hr; by rewrite Hl, Hr.
  - destruct ts as [|t ts]; [done|]. induction IH as [|t' ts' Ht _ IHts]; [done|]. cbn. rewrite Ht.
    destruct (evalTree g t') as [[]| | |]; cbn; [|done..]. destruct ts' ; [done|]. apply IHts.
  - induction IH as [|t ts Ht _ IHts]; [done|]. cbn. rewrite Ht.
    destruct (evalTree g t) as [[]| | |]; cbn; [done|apply IHts|done..].
Qed.

Definition evaluateEndorsementLeaf (endorsement : Endorsement.t) (leaf : EndLeaf) : Res bool :=
  match leaf with
  | TypeEquals None => Ok false
  | TypeEquals (Some type) =>
      a ← endorsementType endorsement;
      b ← deserializeGuidBytes type "invalid requirement endorsement type length";
      Ok (bool_decide (a = b))
  | ValueEquals value =>
      v ← endorsementValue endorsement; Ok (bool_decide (bufferToString v = value))
  | SignerEquals None => Ok false
  | SignerEquals (Some signer) =>
      a ← endorsementService endorsement;
      b ← deserializeGuidBytes signer "invalid requirement signer length";
      Ok (bool_decide (a = b))
  end.

Definition evaluateEndorsementTree (tree : ERDASTEndTree) (endorsement : Endorsement.t) : Res bool :=
  evalTree (evaluateEndorsementLeaf endorsement) tree.

Definition evaluateRequirementLeaf (endorsement : Endorsement.t) (leaf : ErdLeaf) : Res bool :=
  match leaf with
  | EndorsementNode (Some tree) => evaluateEndorsementTree tree endorsement
  | EndorsementNode None => Ok false
  | MessageNode _ => Ok false
  end.

Definition evaluateRequirementTree (tree : ERDAbstractSyntaxTree) (endorsement : Endorsement.t) : Res bool :=
  evalTree (evaluateRequirementLeaf endorsement) tree.

Section MessageEvaluation.
Context `{R : Reflection}.

(** The loop over the elements of a repeated field; an element whose owner is
    gone cannot be read. *)
Fixpoint anyElementEquals (elements : list (Message * bool)) (sub_path : ERDASTFieldPath)
    (value : ERDASTFieldValue) (snap : option SchemaSnapshot.t) : Res bool :=
  match elements with
  | [] => Ok false
  | (_, true) :: _ => Undefined
  | (elem, false) :: rest =>
      resolved ← resolveFieldPath sub_path elem snap;
      if resolvedValueEquals resolved value then Ok true
      else anyElementEquals rest sub_path value snap
  end.

Definition evaluateMessageLeaf (message : Message) (snap : option SchemaSnapshot.t)
    (leaf : MesLeaf) : Res bool :=
  match leaf with
  | FieldEquals (Some path) (Some value) =>
      resolved ← resolveFieldPath path message snap; Ok (resolvedValueEquals resolved value)
  | FieldEquals _ _ => Ok false
  | FieldExists (Some path) =>
      resolved ← resolveFieldPath path message snap; Ok (resolvedValuePresent resolved)
  | FieldExists None => Ok false
  | FieldContains (Some path) (Some sub_path) (Some value) =>
      elements ← resolveRepeatedMessages path message snap;
      anyElementEquals elements sub_path value snap
  | FieldContains _ _ _ => Ok false
  end.

Definition evaluateMessageTree (tree : ERDASTMessageTree) (message : Message)
    (snap : option SchemaSnapshot.t) : Res bool :=
  evalTree (evaluateMessageLeaf message snap) tree.

Definition evaluateMessageRequirementLeaf (message : Message) (snap : option SchemaSnapshot.t)
    (leaf : ErdLeaf) : Res bool :=
  match leaf with
  | MessageNode (Some tree) => evaluateMessageTree tree message snap
  | MessageNode None => Ok false
  | EndorsementNode _ => Ok false
  end.

Definition evaluateMessageRequirementTree (tree : ERDAbstractSyntaxTree) (message : Message)
    (snap : option SchemaSnapshot.t) : Res bool :=
  evalTree (evaluateMessageRequirementLeaf message snap) tree.
End MessageEvaluation.

(** ** Tree helpers *)
Definition isEmptyTree (tree : ERDAbstractSyntaxTree) : bool :=
  match tree with NotSet => true | _ => false end.

Definition isFalseTree (tree : ERDAbstractSyntaxTree) : bool :=
  match tree with FalseValue => true | _ => false end.

Definition makeFalseTree : ERDAbstractSyntaxTree := FalseValue.

(** Building the [oneof] by [mutable_all_of()->add_terms()]: with no term the
    field is never touched. *)
Definition makeAllOfTree (terms : list ERDAbstractSyntaxTree) : ERDAbstractSyntaxTree :=
  match terms with [] => NotSet | _ => AllOf terms end.

Definition makeAnyOfTree (terms : list ERDAbstractSyntaxTree) : ERDAbstractSyntaxTree :=
  match terms with [] => NotSet | _ => AnyOf terms end.

Definition makeAndTree (lhs rhs : ERDAbstractSyntaxTree) : ERDAbstractSyntaxTree :=
  And (Some lhs) (Some rhs).
Definition makeOrTree (lhs rhs : ERDAbstractSyntaxTree) : ERDAbstractSyntaxTree :=
  Or (Some lhs) (Some rhs).
Definition makeEqualsTree (lhs rhs : ERDAbstractSyntaxTree) : ERDAbstractSyntaxTree :=
  Equals (Some lhs) (Some rhs).

Inductive ConstantTreeValue := kUnknown | kTrue | kFalse.

#[export] Instance ConstantTreeValue_eq_dec : EqDecision ConstantTreeValue.
Proof. solve_decision. Defined.

(** The loops over the terms, with the [allTrue] and [allFalse] flags. *)
Definition constantAll (value : ERDAbstractSyntaxTree -> ConstantTreeValue)
    : list ERDAbstractSyntaxTree -> bool -> ConstantTreeValue :=
  fix all ts allTrue :=
    match ts with
    | [] => if (allTrue : bool) then kTrue else kUnknown
    | term :: ts' =>
        match value term with
        | kFalse => kFalse
        | kTrue => all ts' allTrue
        | kUnknown => all ts' false
        end
    end.

Definition constantAny (value : ERDAbstractSyntaxTree -> ConstantTreeValue)
    : list ERDAbstractSyntaxTree -> bool -> ConstantTreeValue :=
  fix any ts allFalse :=
    match ts with
    | [] => if (allFalse : bool) then kFalse else kUnknown
    | term :: ts' =>
        match value term with
        | kTrue => kTrue
        | kFalse => any ts' allFalse
        | kUnknown => any ts' false
        end
    end.

Fixpoint getConstantTreeValue (tree : ERDAbstractSyntaxTree) : ConstantTreeValue :=
  match tree with
  | TrueValue => kTrue
  | FalseValue => kFalse
  | Equals (Some lhs) (Some rhs) =>
      match getConstantTreeValue lhs, getConstantTreeValue rhs with
      | kUnknown, _ | _, kUnknown => kUnknown
      | l, r => if bool_decide (l = r) then kTrue else kFalse
      end
  | And (Some lhs) (Some rhs) =>
      match getConstantTreeValue lhs, getConstantTreeValue rhs with
      | kFalse, _ | _, kFalse => kFalse
      | kTrue, kTrue => kTrue
      | _, _ => kUnknown
      end
  | Or (Some lhs) (Some rhs) =>
      match getConstantTreeValue lhs, getConstantTreeValue rhs with
      | kTrue, _ | _, kTrue => kTrue
      | kFalse, kFalse => kFalse
      | _, _ => kUnknown
      end
  | Equals _ _ | And _ _ | Or _ _ => kUnknown
  | AllOf [] => kUnknown
  | AllOf terms => constantAll getConstantTreeValue terms true
  | AnyOf [] => kUnknown
  | AnyOf terms => constantAny getConstantTreeValue terms true
  | Leaf _ | NotSet => kUnknown
  end.

Definition isMessagePredicateNode (tree : ERDAbstractSyntaxTree) : bool :=
  match tree with Leaf (MessageNode _) => true | _ => false end.

Fixpoint anyEndorsementMatchesTree (tree : ERDAbstractSyntaxTree) (endorsements : list Endorsement.t)
    : Res bool :=
  match endorsements with
  | [] => Ok false
  | e :: rest =>
      b ← evaluateRequirementTree tree e;
      if (b : bool) then Ok true else anyEndorsementMatchesTree tree rest
  end.

(** ** Reduction *)
Section Reduce.
Context `{R : Reflection} (endorsements : list Endorsement.t) (message : option Message)
  (snap : option SchemaSnapshot.t).

(** The cases before the [switch]: constants, a matching endorsement, a message
    predicate; [None] falls through to the [switch]. *)
Definition reduceEarly (tree : ERDAbstractSyntaxTree) : Res (option ERDAbstractSyntaxTree) :=
  match getConstantTreeValue tree with
  | kTrue => Ok (Some NotSet)
  | kFalse => Ok (Some makeFalseTree)
  | kUnknown =>
      matches ← anyEndorsementMatchesTree tree endorsements;
      if (matches : bool) then Ok (Some NotSet)
      else
        match message with
        | Some m =>
            if isMessagePredicateNode tree then
              b ← evaluateMessageRequirementTree tree m snap;
              Ok (Some (if (b : bool) then NotSet else makeFalseTree))
            else Ok None
        | None => Ok None
        end
  end.

(** The loops over the terms of ALLOF and ANYOF, collecting [remainingTerms]. *)
Definition reduceAllTerms (reduce : ERDAbstractSyntaxTree -> Res ERDAbstractSyntaxTree)
    : list ERDAbstractSyntaxTree -> list ERDAbstractSyntaxTree -> Res ERDAbstractSyntaxTree :=
  fix go ts remainingTerms :=
    match ts with
    | [] => Ok (match remainingTerms with
                | [] => NotSet
                | [t] => t
                | _ => makeAllOfTree remainingTerms
                end)
    | term :: ts' =>
        t ← reduce term;
        if isEmptyTree t then go ts' remainingTerms
        else if isFalseTree t then Ok makeFalseTree
        else go ts' (remainingTerms ++ [t])
    end.

Definition reduceAnyTerms (reduce : ERDAbstractSyntaxTree -> Res ERDAbstractSyntaxTree)
    : list ERDAbstractSyntaxTree -> list ERDAbstractSyntaxTree -> Res ERDAbstractSyntaxTree :=
  fix go ts remainingTerms :=
    match ts with
    | [] => Ok (match remainingTerms with
                | [] => makeFalseTree
                | [t] => t
                | _ => makeAnyOfTree remainingTerms
                end)
    | term :: ts' =>
        t ← reduce term;
        if isEmptyTree t then Ok NotSet
        else if isFalseTree t then go ts' remainingTerms
        else go ts' (remainingTerms ++ [t])
    end.

Fixpoint reduceRequirementTreeImpl (tree : ERDAbstractSyntaxTree) : Res ERDAbstractSyntaxTree :=
  early ← reduceEarly tree;
  match early with
  | Some t => Ok t
  | None =>
      match tree with
      | Equals (Some lhs) (Some rhs) =>
          l ← reduceRequirementTreeImpl lhs; r ← reduceRequirementTreeImpl rhs;
          Ok (if isEmptyTree l && isEmptyTree r then NotSet
              else if isEmptyTree l then r
              else if isEmptyTree r then l
              else if isFalseTree l && isFalseTree r then NotSet
              else makeEqualsTree l r)
      | And (Some lhs) (Some rhs) =>
          l ← reduceRequirementTreeImpl lhs; r ← reduceRequirementTreeImpl rhs;
          Ok (if isEmptyTree l then r
              else if isEmptyTree r then l
              else if isFalseTree l || isFalseTree r then makeFalseTree
              else makeAndTree l r)
      | Or (Some lhs) (Some rhs) =>
          l ← reduceRequirementTreeImpl lhs; r ← reduceRequirementTreeImpl rhs;
          Ok (if isEmptyTree l || isEmptyTree r then NotSet
              else if isFalseTree l then r
              else if isFalseTree r then l
              else makeOrTree l r)
      | AllOf [] => Ok tree
      | AllOf terms => reduceAllTerms reduceRequirementTreeImpl terms []
      | AnyOf [] => Ok tree
      | AnyOf terms => reduceAnyTerms reduceRequirementTreeImpl terms []
      | _ => Ok tree
      end
  end.

Definition reduceRequirementTree (tree : ERDAbstractSyntaxTree) : Res ERDAbstractSyntaxTree :=
  catch_runtime (reduceRequirementTreeImpl tree) tree.
End Reduce.

(** ** Entry points *)
Definition endorsementMatchesRequirement (requirement : EndorsementNeeded.t)
    (endorsement : Endorsement.t) : Res bool :=
  match EndorsementNeeded.tree requirement with
  | None => Ok false
  | Some tree => catch_runtime (evaluateRequirementTree tree endorsement) false
  end.

Definition messageMatchesRequirement `{R : Reflection} (tree : ERDAbstractSyntaxTree)
    (message : Message) (snap : option SchemaSnapshot.t) : Res bool :=
  catch_runtime (evaluateMessageRequirementTree tree message snap) false.

(** ** Specification

    What the rule language promises for trees built from AND, OR, ALLOF, ANYOF,
    constants and predicates (no EQ above the predicates): an endorsement
    predicate holds when some endorsement of the sender satisfies it, a message
    predicate when the message does, and the connectives are boolean.  The
    unset tree asks for nothing; an incomplete connective is never satisfied. *)

Definition ok_true (r : Res bool) : bool := match r with Ok b => b | _ => false end.

Section Spec.
Context `{R : Reflection} (message : option Message) (snap : option SchemaSnapshot.t).

Definition leaf_sat (endorsements : list Endorsement.t) (leaf : ErdLeaf) : bool :=
  match leaf with
  | EndorsementNode (Some t) => existsb (fun e => ok_true (evaluateEndorsementTree t e)) endorsements
  | MessageNode (Some t) =>
      match message with Some m => ok_true (evaluateMessageTree t m snap) | None => false end
  | _ => false
  end.

Fixpoint sat (endorsements : list Endorsement.t) (tree : ERDAbstractSyntaxTree) : bool :=
  match tree with
  | And (Some l) (Some r) => sat endorsements l && sat endorsements r
  | Or (Some l) (Some r) => sat endorsements l || sat endorsements r
  | AllOf [] => false
  | AllOf ts => forallb (sat endorsements) ts
  | AnyOf ts => existsb (sat endorsements) ts
  | TrueValue | NotSet => true
  | Leaf l => leaf_sat endorsements l
  | _ => false
  end.
End Spec.

(** No EQ node above the predicates. *)
Fixpoint monotone (tree : ERDAbstractSyntaxTree) : Prop :=
  match tree with
  | Equals _ _ => False
  | And l r | Or l r =>
      match l with Some t => monotone t | None => True end
      /\ match r with Some t => monotone t | None => True end
  | AllOf ts | AnyOf ts =>
      (fix all ts := match ts with [] => True | t :: ts' => monotone t /\ all ts' end) ts
  | _ => True
  end.

(** A property of every leaf of a tree. *)
Fixpoint all_leaves {L} (P : L -> Prop) (tree : Ast L) : Prop :=
  match tree with
  | Equals l r | And l r | Or l r =>
      match l with Some t => all_leaves P t | None => True end
      /\ match r with Some t => all_leaves P t | None => True end
  | AllOf ts | AnyOf ts =>
      (fix all ts := match ts with [] => True | t :: ts' => all_leaves P t /\ all ts' end) ts
  | Leaf l => P l
  | _ => True
  end.

(** Evaluating the leaf on these endorsements and this message raises nothing. *)
Definition leaf_defined `{R : Reflection} (endorsements : list Endorsement.t)
    (message : option Message) (snap : option SchemaSnapshot.t) (leaf : ErdLeaf) : Prop :=
  match leaf with
  | EndorsementNode (Some t) => forall e, e ∈ endorsements -> exists b, evaluateEndorsementTree t e = Ok b
  | MessageNode (Some t) => forall m, message = Some m -> exists b, evaluateMessageTree t m snap = Ok b
  | _ => True
  end.

(** ** Lemmas *)

Lemma monotone_terms ts :
  Forall monotone ts -> monotone (AllOf ts) /\ monotone (AnyOf ts).
Proof. induction 1 as [|t ts Ht Hts [IH1 IH2]]; by repeat split. Qed.

Lemma all_leaves_impl {L} (P Q : L -> Prop) tree :
  (forall l, P l -> Q l) -> all_leaves P tree -> all_leaves Q tree.
Proof.
  intros HPQ.
  induction tree as [|l r IHl IHr|l r IHl IHr|l r IHl IHr| | |ts IH|ts IH|l] using Ast_nested_ind;
    cbn [all_leaves] in *; try done; [..|apply HPQ].
  1-3: intros [Hl Hr]; destruct l, r; cbn [on_child] in *; split; auto.
  all: intros Hts; induction IH as [|t ts Ht Hts' IHts]; [done|]; destruct Hts as [H1 H2];
    split; [by apply Ht|by apply IHts].
Qed.

Lemma evalTree_defined {L} (leaf : L -> Res bool) tree :
  all_leaves (fun l => exists b, leaf l = Ok b) tree -> exists b, evalTree leaf tree = Ok b.
Proof.
  induction tree as [|l r IHl IHr|l r IHl IHr|l r IHl IHr| | |ts IH|ts IH|l] using Ast_nested_ind;
    cbn [all_leaves evalTree]; try (by eauto).
  1-3: destruct l as [l|], r as [r|]; cbn [on_child] in *; try (by eauto);
    intros [Hl Hr]; destruct (IHl Hl) as [bl ->]; cbn [mbind res_bind];
    destruct (IHr Hr) as [br ->]; cbn [mbind res_bind]; destruct bl; by eauto.
  - intros Hts. enough (Hall : exists b, evalAll (evalTree leaf) ts = Ok b) by (destruct ts; by eauto).
    induction IH as [|t' ts' Ht Hts' IHts]; [by eauto|]. destruct Hts as [H1 H2].
    cbn [evalAll]. destruct (Ht H1) as [b ->]. cbn [mbind res_bind]. destruct b; [by apply IHts|by eauto].
  - intros Hts. induction IH as [|t' ts' Ht Hts' IHts]; [by eauto|]. destruct Hts as [H1 H2].
    cbn [evalAny]. destruct (Ht H1) as [b ->]. cbn [mbind res_bind]. destruct b; [by eauto|by apply IHts].
Qed.

Section SpecLemmas.
Context `{R : Reflection} (message : option Message) (snap : option SchemaSnapshot.t).

Lemma leaf_sat_app es1 es2 l :
  leaf_sat message snap es1 l = true -> leaf_sat message snap (es1 ++ es2) l = true.
Proof.
  destruct l as [[t|]|[t|]]; cbn [leaf_sat]; try done.
  rewrite existsb_app. intros ->. done.
Qed.

(** One endorsement that satisfies a whole tree satisfies its specification. *)
Lemma eval_sat es e tree :
  monotone tree -> e ∈ es -> evaluateRequirementTree tree e = Ok true ->
  sat message snap es tree = true.
Proof.
  unfold evaluateRequirementTree. intros Hm He.
  induction tree as [|l r IHl IHr|l r IHl IHr|l r IHl IHr| | |ts IH|ts IH|l] using Ast_nested_ind;
    cbn [monotone evalTree sat] in *; try done.
  - destruct l as [l|], r as [r|]; try discriminate. cbn [on_child] in *. destruct Hm as [Hl Hr].
    destruct (evalTree _ l) as [[]| | |]; cbn [mbind res_bind]; try discriminate.
    intros Hr'. by rewrite IHl, IHr.
  - destruct l as [l|], r as [r|]; try discriminate. cbn [on_child] in *. destruct Hm as [Hl Hr].
    destruct (evalTree _ l) as [[]| | |]; cbn [mbind res_bind]; try discriminate; intros Hr'.
    + by rewrite IHl.
    + by rewrite IHr, orb_true_r.
  - intros Heval. enough (Hall : evalAll (evalTree (evaluateRequirementLeaf e)) ts = Ok true ->
      forallb (sat message snap es) ts = true) by (destruct ts; [discriminate|by apply Hall]).
    clear Heval. induction IH as [|t' ts' Ht Hts' IHts]; [done|]. destruct Hm as [H1 H2].
    cbn [evalAll forallb]. destruct (evalTree _ t') as [[]| | |]; cbn [mbind res_bind]; try discriminate.
    intros Hr. by rewrite Ht, IHts.
  - induction IH as [|t' ts' Ht Hts' IHts]; [done|]. destruct Hm as [H1 H2].
    cbn [evalAny existsb]. destruct (evalTree _ t') as [[]| | |]; cbn [mbind res_bind]; try discriminate.
    + intros _. by rewrite Ht.
    + intros Hr. by rewrite IHts, orb_true_r.
  - destruct l as [[t|]|t]; cbn [evaluateRequirementLeaf leaf_sat]; try discriminate.
    intros Ht. apply existsb_exists. exists e. split; [by apply list_elem_of_In|]. by rewrite Ht.
Qed.

Lemma constant_sat es tree :
  monotone tree ->
  (getConstantTreeValue tree = kTrue -> sat message snap es tree = true)
  /\ (getConstantTreeValue tree = kFalse -> sat message snap es tree = false).
Proof.
  induction tree as [|l r IHl IHr|l r IHl IHr|l r IHl IHr| | |ts IH|ts IH|l] using Ast_nested_ind;
    cbn [monotone getConstantTreeValue sat] in *; try done.
  - destruct l as [l|], r as [r|]; try done. cbn [on_child] in *. intros [Hl Hr].
    destruct (IHl Hl) as [Tl Fl], (IHr Hr) as [Tr Fr].
    destruct (getConstantTreeValue l), (getConstantTreeValue r); split; try discriminate; intros _;
      rewrite ?Tl, ?Tr, ?Fl, ?Fr by done; try done; apply andb_false_r.
  - destruct l as [l|], r as [r|]; try done. cbn [on_child] in *. intros [Hl Hr].
    destruct (IHl Hl) as [Tl Fl], (IHr Hr) as [Tr Fr].
    destruct (getConstantTreeValue l), (getConstantTreeValue r); split; try discriminate; intros _;
      rewrite ?Tl, ?Tr, ?Fl, ?Fr by done; try done; apply orb_true_r.
  - intros Hm. enough (Hgo : forall flag,
      (constantAll getConstantTreeValue ts flag = kTrue -> forallb (sat message snap es) ts = true)
      /\ (constantAll getConstantTreeValue ts flag = kFalse ->
         forallb (sat message snap es) ts = false)) by (destruct ts; [done|apply (Hgo true)]).
    revert Hm. induction IH as [|t ts Ht Hts IHts]; intros Hm flag; [by destruct flag|].
    destruct Hm as [H1 H2]. destruct (Ht H1) as [T F]. cbn [constantAll forallb].
    destruct (getConstantTreeValue t).
    + split; [|intros Hk; by rewrite (proj2 (IHts H2 false) Hk), andb_false_r].
      intros Hk. exfalso. clear -Hk. induction ts as [|t' ts IH]; [discriminate|].
      cbn [constantAll] in Hk. destruct (getConstantTreeValue t'); by auto.
    + rewrite T by done. apply (IHts H2 flag).
    + split; [discriminate|]. by rewrite F.
  - intros Hm. enough (Hgo : forall flag,
      (constantAny getConstantTreeValue ts flag = kTrue -> existsb (sat message snap es) ts = true)
      /\ (constantAny getConstantTreeValue ts flag = kFalse ->
         existsb (sat message snap es) ts = false)) by (destruct ts; [done|apply (Hgo true)]).
    revert Hm. induction IH as [|t ts Ht Hts IHts]; intros Hm flag; [by destruct flag|].
    destruct Hm as [H1 H2]. destruct (Ht H1) as [T F]. cbn [constantAny existsb].
    destruct (getConstantTreeValue t).
    + split; [intros Hk; by rewrite (proj1 (IHts H2 false) Hk), orb_true_r|].
      intros Hk. exfalso. clear -Hk. induction ts as [|t' ts IH]; [discriminate|].
      cbn [constantAny] in Hk. destruct (getConstantTreeValue t'); by auto.
    + split; [|discriminate]. by rewrite T.
    + rewrite F by done. apply (IHts H2 flag).
Qed.

Lemma requirement_leaves_defined es e tree :
  e ∈ es -> all_leaves (leaf_defined es message snap) tree ->
  exists b, evaluateRequirementTree tree e = Ok b.
Proof.
  intros He Hl. apply evalTree_defined. eapply all_leaves_impl; [|exact Hl].
  intros [[t|]|t]; cbn; eauto.
Qed.

Lemma anyEndorsementMatches_spec es tree :
  all_leaves (leaf_defined es message snap) tree ->
  exists b, anyEndorsementMatchesTree tree es = Ok b
    /\ (b = true -> exists e, e ∈ es /\ evaluateRequirementTree tree e = Ok true)
    /\ (b = false -> forall e, e ∈ es -> evaluateRequirementTree tree e = Ok false).
Proof.
  intros Hl. pose proof (fun e He => requirement_leaves_defined es e tree He Hl) as Hd. clear Hl.
  induction es as [|e es IH]; [exists false; repeat split; [done|intros _ e He; by apply elem_of_nil in He]|].
  cbn [anyEndorsementMatchesTree]. destruct (Hd e ltac:(by left)) as [b Hb]. rewrite Hb. cbn [mbind res_bind].
  destruct b.
  - exists true. repeat split; [|done]. intros _. exists e. split; [by left|done].
  - destruct IH as (b & Heq & Ht & Hf); [intros e' He'; apply Hd; by right|].
    exists b. split; [done|]. split.
    + intros Hb'. destruct (Ht Hb') as (e' & He' & Hm). exists e'. split; [by right|done].
    + intros Hb' e' He'. apply elem_of_cons in He' as [->|He']; [done|by apply Hf].
Qed.
End SpecLemmas.

(** ** The reduction against the specification *)
Section Reduction.
Context `{R : Reflection} (message : option Message) (snap : option SchemaSnapshot.t)
  (es : list Endorsement.t).

(** [t'] is what is left of a requirement [holds] (as a function of further
    endorsements): equivalent to it, and empty exactly when nothing is missing. *)
Definition residual (holds : list Endorsement.t -> bool) (t' : ERDAbstractSyntaxTree) : Prop :=
  monotone t' /\ (forall es2, holds es2 = sat message snap es2 t')
  /\ (t' = NotSet \/ sat message snap [] t' = false).

Definition reduces_to (tree : ERDAbstractSyntaxTree) (r : Res ERDAbstractSyntaxTree) : Prop :=
  exists t', r = Ok t' /\ residual (fun es2 => sat message snap (es ++ es2) tree) t'.

Lemma residual_false holds : (forall es2, holds es2 = false) -> residual holds FalseValue.
Proof. intros H. split; [done|]. split; [done|]. by right. Qed.

Lemma residual_empty holds : (forall es2, holds es2 = true) -> residual holds NotSet.
Proof. intros H. split; [done|]. split; [done|]. by left. Qed.

Lemma residual_not_empty holds t' :
  residual holds t' -> isEmptyTree t' = false -> sat message snap [] t' = false.
Proof. intros (_ & _ & [->|H]) He; [discriminate|done]. Qed.

Lemma residual_is_empty holds t' :
  residual holds t' -> isEmptyTree t' = true -> t' = NotSet /\ forall es2, holds es2 = true.
Proof. intros (_ & H & _) He. destruct t'; try discriminate. split; [done|]. intros. by rewrite H. Qed.

Lemma residual_is_false holds t' :
  residual holds t' -> isFalseTree t' = true -> t' = FalseValue /\ forall es2, holds es2 = false.
Proof. intros (_ & H & _) He. destruct t'; try discriminate. split; [done|]. intros. by rewrite H. Qed.

Lemma reduceAllTerms_correct reduce ts rem :
  Forall (fun t => reduces_to t (reduce t)) ts ->
  Forall (fun t => monotone t /\ sat message snap [] t = false) rem ->
  exists t', reduceAllTerms reduce ts rem = Ok t'
    /\ residual (fun es2 => forallb (sat message snap (es ++ es2)) ts && forallb (sat message snap es2) rem) t'.
Proof.
  intros Hts. revert rem. induction Hts as [|t ts (t' & Ht & Hres) Hts IH]; intros rem Hrem.
  - cbn [reduceAllTerms forallb andb]. eexists. split; [done|].
    destruct rem as [|r [|r' rem]]; inversion Hrem as [|? ? [Hm Hr] Hrem']; subst.
    + by apply residual_empty.
    + split; [done|]. split; [|by right]. intros. cbn. by rewrite andb_true_r.
    + split; [|split; [done|right; cbn; by rewrite Hr]].
      apply monotone_terms. eapply Forall_impl; [exact Hrem|]. by intros ? [].
  - cbn [reduceAllTerms]. rewrite Ht. cbn [mbind res_bind].
    destruct (isEmptyTree t') eqn:He.
    { destruct (residual_is_empty _ _ Hres He) as [-> Htrue].
      destruct (IH rem Hrem) as (t'' & Hgo & Hm & Hs & Hc). exists t''. split; [done|].
      split; [done|]. split; [|done]. intros. cbn [forallb]. by rewrite Htrue, <- Hs. }
    destruct (isFalseTree t') eqn:Hf.
    { destruct (residual_is_false _ _ Hres Hf) as [-> Hfalse]. eexists; split; [done|].
      apply residual_false. intros. cbn [forallb]. by rewrite Hfalse. }
    destruct (IH (rem ++ [t'])) as (t'' & Hgo & Hm & Hs & Hc).
    { apply Forall_app. split; [done|]. constructor; [|done].
      split; [apply Hres|exact (residual_not_empty _ _ Hres He)]. }
    exists t''. split; [done|]. split; [done|]. split; [|done]. intros es2. rewrite <- Hs, forallb_app.
    cbn [forallb]. destruct Hres as (_ & -> & _). rewrite andb_true_r.
    destruct (sat message snap es2 t'), (forallb _ ts), (forallb _ rem); done.
Qed.

Lemma reduceAnyTerms_correct reduce ts rem :
  Forall (fun t => reduces_to t (reduce t)) ts ->
  Forall (fun t => monotone t /\ sat message snap [] t = false) rem ->
  exists t', reduceAnyTerms reduce ts rem = Ok t'
    /\ residual (fun es2 => existsb (sat message snap (es ++ es2)) ts || existsb (sat message snap es2) rem) t'.
Proof.
  intros Hts. revert rem. induction Hts as [|t ts (t' & Ht & Hres) Hts IH]; intros rem Hrem.
  - cbn [reduceAnyTerms existsb orb]. eexists. split; [done|].
    destruct rem as [|r [|r' rem]]; inversion Hrem as [|? ? [Hm Hr] Hrem']; subst.
    + by apply residual_false.
    + split; [done|]. split; [|by right]. intros. cbn. by rewrite orb_false_r.
    + split; [|split; [done|right]].
      * apply monotone_terms. eapply Forall_impl; [exact Hrem|]. by intros ? [].
      * cbn [sat makeAnyOfTree]. apply not_true_is_false. rewrite existsb_exists.
        intros (x & Hin & Hx). apply list_elem_of_In in Hin.
        rewrite Forall_forall in Hrem. destruct (Hrem x Hin) as [_ Hf]. by rewrite Hf in Hx.
  - cbn [reduceAnyTerms]. rewrite Ht. cbn [mbind res_bind].
    destruct (isEmptyTree t') eqn:He.
    { destruct (residual_is_empty _ _ Hres He) as [-> Htrue]. eexists; split; [done|].
      apply residual_empty. intros. cbn [existsb]. by rewrite Htrue. }
    destruct (isFalseTree t') eqn:Hf.
    { destruct (residual_is_false _ _ Hres Hf) as [-> Hfalse].
      destruct (IH rem Hrem) as (t'' & Hgo & Hm & Hs & Hc). exists t''. split; [done|].
      split; [done|]. split; [|done]. intros. cbn [existsb]. by rewrite Hfalse, <- Hs. }
    destruct (IH (rem ++ [t'])) as (t'' & Hgo & Hm & Hs & Hc).
    { apply Forall_app. split; [done|]. constructor; [|done].
      split; [apply Hres|exact (residual_not_empty _ _ Hres He)]. }
    exists t''. split; [done|]. split; [done|]. split; [|done]. intros es2. rewrite <- Hs, existsb_app.
    cbn [existsb]. destruct Hres as (_ & -> & _). rewrite orb_false_r.
    destruct (sat message snap es2 t'), (existsb _ ts), (existsb _ rem); done.
Qed.

(** The part of [reduceRequirementTreeImpl] before its [switch]. *)
Lemma reduceEarly_correct tree :
  monotone tree -> all_leaves (leaf_defined es message snap) tree ->
  (exists t', reduceEarly es message snap tree = Ok (Some t')
     /\ residual (fun es2 => sat message snap (es ++ es2) tree) t')
  \/ (reduceEarly es message snap tree = Ok None
      /\ getConstantTreeValue tree = kUnknown
      /\ (forall e, e ∈ es -> evaluateRequirementTree tree e = Ok false)
      /\ (message <> None -> isMessagePredicateNode tree = false)).
Proof.
  intros Hm Hl. unfold reduceEarly.
  destruct (getConstantTreeValue tree) eqn:Hc.
  - destruct (anyEndorsementMatches_spec message snap es tree Hl) as (b & -> & Ht & Hf). cbn [mbind res_bind].
    destruct b.
    { left. eexists; split; [done|]. apply residual_empty. intros es2.
      destruct (Ht eq_refl) as (e & He & Hev). eapply eval_sat; [done| |done].
      apply elem_of_app. by left. }
    destruct message as [m|]; [|right; repeat split; auto; congruence].
    destruct (isMessagePredicateNode tree) eqn:Hp; [|right; by auto].
    destruct tree as [| | | | | | | |[|[mt|]]]; try discriminate; left.
    + cbn in Hl. destruct (Hl m eq_refl) as [b Hb].
      unfold evaluateMessageRequirementTree. cbn [evalTree evaluateMessageRequirementLeaf]. rewrite Hb.
      cbn [mbind res_bind]. eexists; split; [done|].
      destruct b; [apply residual_empty|apply residual_false]; intros; cbn; by rewrite Hb.
    + eexists; split; [done|]. by apply residual_false.
  - left. eexists; split; [done|]. apply residual_empty. intros. by apply constant_sat.
  - left. eexists; split; [done|]. apply residual_false. intros. by apply constant_sat.
Qed.

(** A subtree that stays as it is although the endorsements do not match it. *)
Lemma residual_leaf l :
  all_leaves (leaf_defined es message snap) (Leaf l) ->
  (forall e, e ∈ es -> evaluateRequirementTree (Leaf l) e = Ok false) ->
  (message <> None -> isMessagePredicateNode (Leaf l) = false) ->
  residual (fun es2 => sat message snap (es ++ es2) (Leaf l)) (Leaf l).
Proof.
  intros Hl He Hmsg. split; [done|]. destruct l as [[t|]|[t|]]; cbn [sat leaf_sat].
  - split; [|by right]. intros es2. rewrite existsb_app.
    assert (Hno : existsb (fun e => ok_true (evaluateEndorsementTree t e)) es = false); [|by rewrite Hno].
    apply not_true_is_false. rewrite existsb_exists. intros (e & Hin & Hev).
    apply list_elem_of_In in Hin. pose proof (He e Hin) as Hf.
    unfold evaluateRequirementTree in Hf. cbn in Hf. by rewrite Hf in Hev.
  - split; [done|by right].
  - destruct message; [by specialize (Hmsg ltac:(done))|]. split; [done|by right].
  - split; [done|by right].
Qed.

(** The combinations of the reduced operands of AND and OR. *)
Lemma residual_and hl hr l' r' :
  residual hl l' -> residual hr r' ->
  residual (fun es2 => hl es2 && hr es2)
    (if isEmptyTree l' then r' else if isEmptyTree r' then l'
     else if isFalseTree l' || isFalseTree r' then makeFalseTree else makeAndTree l' r').
Proof.
  intros Rl Rr. destruct (isEmptyTree l') eqn:El.
  { destruct (residual_is_empty _ _ Rl El) as [-> Ht]. destruct Rr as (Hr1 & Hr2 & Hr3).
    split; [done|]. split; [|done]. intros. by rewrite Ht, Hr2. }
  destruct (isEmptyTree r') eqn:Er.
  { destruct (residual_is_empty _ _ Rr Er) as [-> Ht]. destruct Rl as (Hr1 & Hr2 & Hr3).
    split; [done|]. split; [|done]. intros. by rewrite Ht, Hr2, andb_true_r. }
  destruct (isFalseTree l') eqn:Fl; cbn [orb].
  { destruct (residual_is_false _ _ Rl Fl) as [-> Hf]. apply residual_false. intros. by rewrite Hf. }
  destruct (isFalseTree r') eqn:Fr.
  { destruct (residual_is_false _ _ Rr Fr) as [-> Hf]. apply residual_false. intros.
    by rewrite Hf, andb_false_r. }
  pose proof (residual_not_empty _ _ Rl El) as Nl.
  destruct Rl as (Hl1 & Hl2 & _), Rr as (Hr1 & Hr2 & _).
  split; [by split|]. split; [intros; cbn; by rewrite Hl2, Hr2|right; cbn; by rewrite Nl].
Qed.

Lemma residual_or hl hr l' r' :
  residual hl l' -> residual hr r' ->
  residual (fun es2 => hl es2 || hr es2)
    (if isEmptyTree l' || isEmptyTree r' then NotSet else if isFalseTree l' then r'
     else if isFalseTree r' then l' else makeOrTree l' r').
Proof.
  intros Rl Rr. destruct (isEmptyTree l') eqn:El; cbn [orb].
  { destruct (residual_is_empty _ _ Rl El) as [-> Ht]. apply residual_empty. intros. by rewrite Ht. }
  destruct (isEmptyTree r') eqn:Er.
  { destruct (residual_is_empty _ _ Rr Er) as [-> Ht]. apply residual_empty. intros.
    by rewrite Ht, orb_true_r. }
  destruct (isFalseTree l') eqn:Fl.
  { destruct (residual_is_false _ _ Rl Fl) as [-> Hf]. destruct Rr as (Hr1 & Hr2 & Hr3).
    split; [done|]. split; [|done]. intros. by rewrite Hf, Hr2. }
  destruct (isFalseTree r') eqn:Fr.
  { destruct (residual_is_false _ _ Rr Fr) as [-> Hf]. destruct Rl as (Hr1 & Hr2 & Hr3).
    split; [done|]. split; [|done]. intros. by rewrite Hf, Hr2, orb_false_r. }
  pose proof (residual_not_empty _ _ Rl El) as Nl. pose proof (residual_not_empty _ _ Rr Er) as Nr.
  destruct Rl as (Hl1 & Hl2 & _), Rr as (Hr1 & Hr2 & _).
  split; [by split|]. split; [intros; cbn; by rewrite Hl2, Hr2|right; cbn; by rewrite Nl, Nr].
Qed.

Lemma reduce_terms ts :
  Forall (fun t => monotone t -> all_leaves (leaf_defined es message snap) t ->
            reduces_to t (reduceRequirementTreeImpl es message snap t)) ts ->
  monotone (AllOf ts) -> all_leaves (leaf_defined es message snap) (AllOf ts) ->
  Forall (fun t => reduces_to t (reduceRequirementTreeImpl es message snap t)) ts.
Proof.
  intros IH Hm Hl. induction IH as [|t ts Ht _ IHts]; [done|].
  destruct Hm, Hl. constructor; [by apply Ht|by apply IHts].
Qed.

Lemma reduce_correct tree :
  monotone tree -> all_leaves (leaf_defined es message snap) tree ->
  reduces_to tree (reduceRequirementTreeImpl es message snap tree).
Proof.
  induction tree as [|l r IHl IHr|l r IHl IHr|l r IHl IHr| | |ts IH|ts IH|l] using Ast_nested_ind;
    intros Hm Hl; (edestruct (reduceEarly_correct _ Hm Hl) as [(t' & He & Hres)|(He & Hc & Hno & Hmsg)];
      [exists t'; cbn [reduceRequirementTreeImpl]; rewrite He; by split|]);
    unfold reduces_to; cbn [reduceRequirementTreeImpl]; rewrite He; cbn [mbind res_bind];
    try discriminate Hc; try (by destruct Hm).
  - eexists; split; [done|]. by apply residual_empty.
  - cbn [monotone all_leaves] in Hm, Hl. destruct Hm as [Hml Hmr], Hl as [Hll Hlr].
    destruct l as [l|], r as [r|]; cbn [on_child] in *;
      try (eexists; split; [done|]; split; [done|]; split; [done|by right]).
    destruct (IHl Hml Hll) as (l' & -> & Rl), (IHr Hmr Hlr) as (r' & -> & Rr). cbn [mbind res_bind].
    eexists; split; [done|]. exact (residual_and _ _ _ _ Rl Rr).
  - cbn [monotone all_leaves] in Hm, Hl. destruct Hm as [Hml Hmr], Hl as [Hll Hlr].
    destruct l as [l|], r as [r|]; cbn [on_child] in *;
      try (eexists; split; [done|]; split; [done|]; split; [done|by right]).
    destruct (IHl Hml Hll) as (l' & -> & Rl), (IHr Hmr Hlr) as (r' & -> & Rr). cbn [mbind res_bind].
    eexists; split; [done|]. exact (residual_or _ _ _ _ Rl Rr).
  - pose proof (reduce_terms ts IH Hm Hl) as Hall.
    destruct ts as [|t ts]; [eexists; split; [done|]; split; [done|]; split; [done|by right]|].
    destruct (reduceAllTerms_correct _ _ [] Hall ltac:(done)) as (t' & -> & Hm' & Hs & Hc').
    exists t'. split; [done|]. split; [done|]. split; [|done]. intros es2. rewrite <- Hs.
    cbn [sat forallb]. by rewrite !andb_true_r.
  - pose proof (reduce_terms ts IH Hm Hl) as Hall.
    destruct ts as [|t ts]; [eexists; split; [done|]; split; [done|]; split; [done|by right]|].
    destruct (reduceAnyTerms_correct _ _ [] Hall ltac:(done)) as (t' & -> & Hm' & Hs & Hc').
    exists t'. split; [done|]. split; [done|]. split; [|done]. intros es2. rewrite <- Hs.
    cbn [sat existsb]. by rewrite !orb_false_r.
  - eexists; split; [done|]. by apply residual_leaf.
Qed.

(** *** Soundness without assumptions on the leaves *)

Lemma reduceAllTerms_empty reduce ts rem :
  Forall (fun t => isEmptyTree t = false) rem ->
  reduceAllTerms reduce ts rem = Ok NotSet -> Forall (fun t => reduce t = Ok NotSet) ts.
Proof.
  revert rem. induction ts as [|t ts IH]; intros rem Hrem; [done|]. cbn [reduceAllTerms].
  destruct (reduce t) as [t'| | |] eqn:Ht; cbn [mbind res_bind]; try discriminate.
  destruct (isEmptyTree t') eqn:He.
  - destruct t'; try discriminate. intros Hgo. constructor; [done|by eapply IH].
  - destruct (isFalseTree t'); [discriminate|]. intros Hgo. exfalso.
    assert (Hsnoc : Forall (fun t => isEmptyTree t = false) (rem ++ [t'])).
    { apply Forall_app. by repeat constructor. }
    assert (Hne : rem ++ [t'] <> []) by (by destruct rem).
    clear -Hgo Hsnoc Hne. revert Hgo Hsnoc Hne. generalize (rem ++ [t']). clear rem t'.
    induction ts as [|t ts IH]; intros rem; cbn [reduceAllTerms].
    + intros Hgo Hrem Hne. destruct rem as [|r [|]]; [done| |discriminate].
      injection Hgo as ->. by inversion Hrem.
    + destruct (reduce t) as [t'| | |]; cbn [mbind res_bind]; try discriminate.
      destruct (isEmptyTree t') eqn:He; [by apply IH|]. destruct (isFalseTree t'); [discriminate|].
      intros Hgo Hrem Hne. apply (IH _ Hgo); [|by destruct rem].
      apply Forall_app. by repeat constructor.
Qed.

Lemma reduceAnyTerms_empty reduce ts rem :
  Forall (fun t => isEmptyTree t = false) rem ->
  reduceAnyTerms reduce ts rem = Ok NotSet -> Exists (fun t => reduce t = Ok NotSet) ts.
Proof.
  revert rem. induction ts as [|t ts IH]; intros rem Hrem; cbn [reduceAnyTerms].
  - destruct rem as [|r [|]]; try discriminate. intros [= ->]. by inversion Hrem.
  - destruct (reduce t) as [t'| | |] eqn:Ht; cbn [mbind res_bind]; try discriminate.
    destruct (isEmptyTree t') eqn:He; [destruct t'; try discriminate; intros _; by left|].
    destruct (isFalseTree t'); intros Hgo; right; [by eapply IH|].
    eapply IH; [|done]. apply Forall_app. by repeat constructor.
Qed.

Lemma anyEndorsementMatches_true tree l :
  anyEndorsementMatchesTree tree l = Ok true -> exists e, e ∈ l /\ evaluateRequirementTree tree e = Ok true.
Proof.
  induction l as [|e l IH]; cbn [anyEndorsementMatchesTree]; [discriminate|].
  destruct (evaluateRequirementTree tree e) as [[]| | |] eqn:He; cbn [mbind res_bind]; try discriminate.
  - intros _. exists e. split; [by left|done].
  - intros H. destruct (IH H) as (e' & He' & Hev). exists e'. split; [by right|done].
Qed.

Lemma reduceEarly_empty tree :
  monotone tree -> reduceEarly es message snap tree = Ok (Some NotSet) ->
  sat message snap es tree = true.
Proof.
  intros Hm. unfold reduceEarly. destruct (getConstantTreeValue tree) eqn:Hc; [|by intros _; apply constant_sat|discriminate].
  destruct (anyEndorsementMatchesTree tree es) as [[]| | |] eqn:Ha; cbn [mbind res_bind]; try discriminate.
  - intros _. destruct (anyEndorsementMatches_true _ _ Ha) as (e & He & Hev). by eapply eval_sat.
  - destruct message as [m|]; [|discriminate].
    destruct tree as [| | | | | | | |[|[mt|]]]; try discriminate.
    cbn [isMessagePredicateNode]. unfold evaluateMessageRequirementTree.
    cbn [evalTree evaluateMessageRequirementLeaf sat leaf_sat].
    destruct (evaluateMessageTree mt m snap) as [[]| | |]; by try discriminate.
Qed.

Lemma reduce_empty_sat tree :
  monotone tree -> reduceRequirementTreeImpl es message snap tree = Ok NotSet ->
  sat message snap es tree = true.
Proof.
  induction tree as [|l r IHl IHr|l r IHl IHr|l r IHl IHr| | |ts IH|ts IH|l] using Ast_nested_ind;
    intros Hm; cbn [reduceRequirementTreeImpl];
    destruct (reduceEarly es message snap _) as [[t'|]| | |] eqn:He; cbn [mbind res_bind]; try discriminate;
    try (intros [= ->]; by apply reduceEarly_empty); try done.
  - destruct l as [l|], r as [r|]; try discriminate. cbn [on_child monotone sat] in *.
    destruct Hm as [Hml Hmr].
    destruct (reduceRequirementTreeImpl es message snap l) as [l'| | |]; cbn [mbind res_bind]; try discriminate.
    destruct (reduceRequirementTreeImpl es message snap r) as [r'| | |]; cbn [mbind res_bind]; try discriminate.
    destruct l'; cbn [isEmptyTree isFalseTree orb]; destruct r'; try discriminate; intros _.
    by rewrite IHl, IHr.
  - destruct l as [l|], r as [r|]; try discriminate. cbn [on_child monotone sat] in *.
    destruct Hm as [Hml Hmr].
    destruct (reduceRequirementTreeImpl es message snap l) as [l'| | |]; cbn [mbind res_bind]; try discriminate.
    destruct (reduceRequirementTreeImpl es message snap r) as [r'| | |]; cbn [mbind res_bind]; try discriminate.
    destruct l'; cbn [isEmptyTree isFalseTree orb]; [by rewrite IHl|..];
      destruct r'; try discriminate; intros _; by rewrite IHr, orb_true_r.
  - destruct ts as [|t ts]; [discriminate|]. intros Hgo.
    apply reduceAllTerms_empty in Hgo; [|done]. revert Hm IH Hgo. cbn [sat]. generalize (t :: ts). clear.
    intros ts Hm IH Hgo. induction IH as [|t ts Ht _ IHts]; [done|].
    inversion Hgo; subst. destruct Hm. cbn [forallb]. by rewrite Ht, IHts.
  - destruct ts as [|t ts]; [discriminate|]. intros Hgo.
    apply reduceAnyTerms_empty in Hgo; [|done]. revert Hm IH Hgo. cbn [sat]. generalize (t :: ts). clear.
    intros ts Hm IH Hgo. induction IH as [|t ts Ht _ IHts]; [by inversion Hgo|].
    destruct Hm as [H1 H2]. cbn [existsb].
    inversion Hgo; subst; [by rewrite Ht|by rewrite IHts, orb_true_r].
Qed.

End Reduction.

(** ** Claims *)

(** The two facts the clients of the reduction build on. *)
Lemma reduced_empty_sat `{R : Reflection} es message snap tree t' :
  monotone tree ->
  reduceRequirementTree es message snap tree = Ok t' -> isEmptyTree t' = true ->
  sat message snap es tree = true.
Proof.
  intros Hm Hr He. destruct t'; try discriminate. unfold reduceRequirementTree, catch_runtime in Hr.
  destruct (reduceRequirementTreeImpl es message snap tree) as [t|[]| |] eqn:Hi; try discriminate.
  - injection Hr as ->. by apply reduce_empty_sat.
  - by injection Hr as ->.
Qed.

Lemma reduced_exact `{R : Reflection} es message snap tree :
  monotone tree -> all_leaves (leaf_defined es message snap) tree ->
  exists t', reduceRequirementTree es message snap tree = Ok t'
    /\ isEmptyTree t' = sat message snap es tree
    /\ (forall es2, sat message snap (es ++ es2) tree = sat message snap es2 t').
Proof.
  intros Hm Hl. destruct (reduce_correct message snap es tree Hm Hl) as (t' & Hr & Hm' & Hs & Hc).
  exists t'. unfold reduceRequirementTree. rewrite Hr. split; [done|]. split; [|done].
  specialize (Hs []). rewrite app_nil_r in Hs. rewrite Hs.
  destruct Hc as [->|Hf]; [done|]. rewrite Hf. by destruct t'.
Qed.

(** Rules and messages for the witnesses. *)
Definition sample_rule : ERDAbstractSyntaxTree :=
  AllOf [Leaf (EndorsementNode (Some (Leaf (ValueEquals (bs "admin")))));
         Leaf (MessageNode (Some (Leaf (FieldEquals (Some [bs "port"]) (Some (IntValue 80))))));
         AnyOf [FalseValue; Leaf (MessageNode (Some (Leaf (FieldExists (Some [bs "sub"; bs "name"])))))]].

Definition admin_endorsement : Endorsement.t :=
  Endorsement.mk (Some (bs "0123456789abcdef")) (Some (bs "fedcba9876543210"))
    (Some (bs "types and values")) (bs "admin") (Some 0) (bs "sig").

(** C5.  The reduction decides its specification and says what is missing: on
    such a requirement whose predicates raise nothing, it returns a tree that
    is empty exactly when the requirement holds, and that asks of any further
    endorsements exactly what the requirement asks of the old and the new ones
    together. *)
Theorem reduceRequirementTree_exact `{R : Reflection} es message snap tree :
  monotone tree -> all_leaves (leaf_defined es message snap) tree ->
  exists t', reduceRequirementTree es message snap tree = Ok t'
    /\ isEmptyTree t' = sat message snap es tree
    /\ (forall es2, sat message snap (es ++ es2) tree = sat message snap es2 t').
Proof. apply reduced_exact. Qed.

Lemma reduceRequirementTree_exact_witness :
  exists t', reduceRequirementTree (R := ToyReflection.toy_reflection) [] (Some ToyReflection.sample) None
               sample_rule = Ok t'
    /\ isEmptyTree t' = false.
Proof.
  destruct (reduceRequirementTree_exact (R := ToyReflection.toy_reflection) []
    (Some ToyReflection.sample) None sample_rule) as (t' & Ht & He & _).
  - vm_compute. repeat split.
  - unfold sample_rule. cbn [all_leaves leaf_defined]. repeat split.
    + intros e He. by apply elem_of_nil in He.
    + intros m [= <-]. eexists. vm_compute. reflexivity.
    + intros m [= <-]. eexists. vm_compute. reflexivity.
  - exists t'. split; [exact Ht|]. rewrite He. vm_compute. reflexivity.
Defined.

(** Finding.  A FIELD_CONTAINS predicate whose path crosses an unpacked
    [google.protobuf.Any] reads freed memory: the elements that
    [resolveRepeatedMessages] returns belong to the dynamic message that dies
    when it returns, and [evaluateMessageTree] then dereferences the first. *)
Theorem field_contains_through_any_is_undefined `{R : Reflection} message snap path sub value w m ms :
  walkPath message path snap false = Ok (Some w) -> w_dynamic w = true ->
  is_repeated (w_field w) = true -> cpp_type (w_field w) = CPPTYPE_MESSAGE ->
  GetRepeatedMessages (w_message w) (w_field w) = m :: ms ->
  evaluateMessageTree (Leaf (FieldContains (Some path) (Some sub) (Some value))) message snap = Undefined.
Proof.
  intros Hw Hd Hr Ht Hm. unfold evaluateMessageTree. cbn [evalTree evaluateMessageLeaf].
  unfold resolveRepeatedMessages. destruct path as [|seg path]; [discriminate Hw|].
  rewrite Hw. cbn [mbind res_bind]. rewrite Hr, Ht, Hm, Hd. cbn [negb].
  rewrite bool_decide_eq_true_2 by done. done.
Qed.

Lemma field_contains_through_any_is_undefined_witness :
  evaluateMessageTree (R := ToyReflection.toy_reflection)
    (Leaf (FieldContains (Some [bs "any"; bs "peers"]) (Some [bs "up"]) (Some (BoolValue true))))
    ToyReflection.sample (Some ToyReflection.schemas) = Undefined.
Proof.
  apply (field_contains_through_any_is_undefined (R := ToyReflection.toy_reflection) ToyReflection.sample
    (Some ToyReflection.schemas) [bs "any"; bs "peers"] [bs "up"] (BoolValue true)
    (mkWalk (R := ToyReflection.toy_reflection) ToyReflection.peers_message
       (bs "peers", ToyReflection.FRepeated (bs "t.Peer") [ToyReflection.Msg [(bs "up", ToyReflection.FBool true)]])
       true)
    (ToyReflection.Msg [(bs "up", ToyReflection.FBool true)]) []); vm_compute; reflexivity.
Defined.

(** Finding.  A field path that names a repeated message field anywhere
    but in last position makes every path predicate call [GetMessage] on a
    repeated field, which protobuf answers by aborting the process; the
    exception handlers around rule evaluation do not see it. *)
Theorem repeated_field_mid_path_aborts `{R : Reflection} message snap seg seg' rest field value :
  FindFieldByName message seg = Some field -> cpp_type field = CPPTYPE_MESSAGE ->
  is_repeated field = true ->
  messageMatchesRequirement
    (Leaf (MessageNode (Some (Leaf (FieldEquals (Some (seg :: seg' :: rest)) (Some value))))))
    message snap = Undefined.
Proof.
  intros Hf Ht Hr. unfold messageMatchesRequirement, evaluateMessageRequirementTree.
  cbn [evalTree evaluateMessageRequirementLeaf]. unfold evaluateMessageTree.
  cbn [evalTree evaluateMessageLeaf]. unfold resolveFieldPath. cbn [walkPath].
  by rewrite Hf, Ht, bool_decide_eq_true_2, Hr by done.
Qed.

Lemma repeated_field_mid_path_aborts_witness :
  messageMatchesRequirement (R := ToyReflection.toy_reflection)
    (Leaf (MessageNode (Some (Leaf (FieldEquals (Some [bs "items"; bs "id"]) (Some (IntValue 1)))))))
    ToyReflection.sample None = Undefined.
Proof.
  apply (repeated_field_mid_path_aborts (R := ToyReflection.toy_reflection) ToyReflection.sample None
    (bs "items") (bs "id") []
    (bs "items", ToyReflection.FRepeated (bs "t.Item")
       [ToyReflection.Msg [(bs "id", ToyReflection.FInt 1)]; ToyReflection.Msg [(bs "id", ToyReflection.FInt 2)]])
    (IntValue 1)); vm_compute; reflexivity.
Defined.
