(* ===== verification/ErdText.v ===== *)
(** * common/endorsement/endorsement_text.cpp: the text form of requirement trees

    [toString] prints a tree and [fromString] parses one.  The three printers
    and the three parsers of the source (endorsement sub-trees, message
    sub-trees, whole trees) share the code for the connectives and differ in
    their predicates; the shared part is one definition over the type of
    leaves.

    The parser's [text] and [pos] are its remaining input: [pos] is the length
    of the text minus the length of what remains.  The recursion is bounded by
    a fuel of one more than the length of the text, which [fromString_total]
    shows to be enough for every text. *)

From S2P Require Import Prelude Proto.

(** ** Printing *)
Definition kHexChars : bytes := bs "0123456789abcdef".

Definition isHexChar (c : ascii) : bool := is_hex c.

(** [kHexChars[byte >> 4]] and [kHexChars[byte & 0x0F]]. *)
Definition hex_pair (c : ascii) : bytes :=
  [hex_char (Z.shiftr (byte_val c) 4); hex_char (Z.land (byte_val c) 15)].

Definition bytesToHex (l : bytes) : bytes := l ≫= hex_pair.

Definition bytesToUUID (l : bytes) : Res bytes :=
  if negb (size_of l =? 16) then throw_runtime "UUID field must be exactly 16 bytes"
  else
    let group from len := bytesToHex (take len (drop from l)) in
    Ok (group 0%nat 4%nat ++ dash :: group 4%nat 2%nat ++ dash :: group 6%nat 2%nat
          ++ dash :: group 8%nat 2%nat ++ dash :: group 10%nat 6%nat).

(** The pairs of hexadecimal digits of [uuidToBytes]; [hexVal] throws on any
    other character. *)
Definition hexVal (c : ascii) : Res Z :=
  match hex_val c with
  | Some v => Ok v
  | None => Throw (RuntimeError (bs "invalid hex char in UUID: " ++ [c]))
  end.

Definition joinNibbles (hi lo : Z) : ascii := byte_of (Z.lor (Z.shiftl hi 4) lo).

Fixpoint decodePairs (hex : bytes) : Res bytes :=
  match hex with
  | c :: d :: hex' =>
      hi ← hexVal c; lo ← hexVal d; rest ← decodePairs hex'; Ok (joinNibbles hi lo :: rest)
  | _ => Ok []
  end.

Definition uuidToBytes (uuid : bytes) : Res bytes :=
  let hex := filter (fun c => c <> dash) uuid in
  if negb (size_of hex =? 32) then throw_runtime "invalid UUID: expected 32 hex chars"
  else decodePairs hex.

Section Append.
Context {L : Type} (appendLeaf : L -> Res bytes).

(** The loop of [appendNary] after the first term. *)
Definition appendMore (append : Ast L -> Res bytes) : list (Ast L) -> Res bytes :=
  fix more ts :=
    match ts with
    | [] => Ok []
    | term :: ts' => s ← append term; rest ← more ts'; Ok (bs ", " ++ s ++ rest)
    end.

Definition appendNary (append : Ast L -> Res bytes) (op : string) (terms : list (Ast L)) : Res bytes :=
  match terms with
  | [] => Ok (bs op ++ bs "()")
  | term :: ts => s ← append term; rest ← appendMore append ts; Ok (bs op ++ bs "(" ++ s ++ rest ++ bs ")")
  end.

(** Reading an absent operand gives the default instance, which prints nothing. *)
Fixpoint appendAst (tree : Ast L) : Res bytes :=
  let child (o : option (Ast L)) := match o with Some t => appendAst t | None => Ok [] end in
  let binary op (lhs rhs : option (Ast L)) :=
    l ← child lhs; r ← child rhs; Ok (bs op ++ bs "(" ++ l ++ bs ", " ++ r ++ bs ")") in
  match tree with
  | And lhs rhs => binary "AND"%string lhs rhs
  | Or lhs rhs => binary "OR"%string lhs rhs
  | Equals lhs rhs => binary "EQ"%string lhs rhs
  | AllOf terms => appendNary appendAst "ALLOF" terms
  | AnyOf terms => appendNary appendAst "ANYOF" terms
  | TrueValue => Ok (bs "TRUE")
  | FalseValue => Ok (bs "FALSE")
  | NotSet => Ok []
  | Leaf l => appendLeaf l
  end.
End Append.

Definition appendEndLeaf (leaf : EndLeaf) : Res bytes :=
  match leaf with
  | TypeEquals type => u ← bytesToUUID (value_or_empty type); Ok (bs "ENDORSEMENT_TYPE(" ++ u ++ bs ")")
  | ValueEquals value => Ok (bs "ENDORSEMENT_VALUE(" ++ bytesToHex value ++ bs ")")
  | SignerEquals signer =>
      u ← bytesToUUID (value_or_empty signer); Ok (bs "ENDORSEMENT_SIGNER(" ++ u ++ bs ")")
  end.

Definition appendEndTree : ERDASTEndTree -> Res bytes := appendAst appendEndLeaf.

Fixpoint appendSegments (segments : list bytes) : bytes :=
  match segments with
  | [] => []
  | seg :: segs => "."%char :: seg ++ appendSegments segs
  end.

Definition appendFieldPath (path : option ERDASTFieldPath) : bytes :=
  match path with
  | None | Some [] => []
  | Some (seg :: segs) => seg ++ appendSegments segs
  end.

Definition quote : ascii := "034".

Definition appendFieldValue (value : option ERDASTFieldValue) : bytes :=
  match value with
  | Some (BytesValue v) => bs "0x" ++ bytesToHex v
  | Some (StringValue v) => quote :: v ++ [quote]
  | Some (IntValue v) => to_string v
  | Some (UintValue v) => to_string v ++ bs "u"
  | Some (BoolValue v) => if v then bs "true" else bs "false"
  | Some (EnumValue v) => bs "enum(" ++ to_string v ++ bs ")"
  | Some ValueNotSet | None => []
  end.

Definition appendMesLeaf (leaf : MesLeaf) : Res bytes :=
  Ok match leaf with
     | FieldEquals path value =>
         bs "FIELD_EQ(" ++ appendFieldPath path ++ bs ", " ++ appendFieldValue value ++ bs ")"
     | FieldExists path => bs "FIELD_EXISTS(" ++ appendFieldPath path ++ bs ")"
     | FieldContains path sub_path value =>
         bs "FIELD_CONTAINS(" ++ appendFieldPath path ++ bs ", " ++ appendFieldPath sub_path
           ++ bs ", " ++ appendFieldValue value ++ bs ")"
     end.

Definition appendMessageTree : ERDASTMessageTree -> Res bytes := appendAst appendMesLeaf.

Definition appendErdLeaf (leaf : ErdLeaf) : Res bytes :=
  match leaf with
  | EndorsementNode tree =>
      s ← match tree with Some t => appendEndTree t | None => Ok [] end;
      Ok (bs "ENDORSEMENT(" ++ s ++ bs ")")
  | MessageNode tree =>
      s ← match tree with Some t => appendMessageTree t | None => Ok [] end;
      Ok (bs "MESSAGE(" ++ s ++ bs ")")
  end.

Definition appendTree : ERDAbstractSyntaxTree -> Res bytes := appendAst appendErdLeaf.

Definition toString (tree : ERDAbstractSyntaxTree) : Res bytes :=
  match tree with
  | NotSet => Ok []
  | _ => appendTree tree
  end.

(** ** Parsing *)

(** A parser step reads the size of the text and transforms what remains. *)
Definition Parser (A : Type) : Type := Z -> bytes -> Res (A * bytes).

#[export] Instance parser_ret : MRet Parser := fun A a _ rest => Ok (a, rest).
#[export] Instance parser_bind : MBind Parser := fun A B f m size rest =>
  match m size rest with
  | Ok (a, rest') => f a size rest'
  | Throw e => Throw e
  | Undefined => Undefined
  | NoFuel => NoFuel
  end.

(** [throw std::runtime_error(what + std::to_string(pos))]. *)
Definition fail_at {A} (what : bytes) : Parser A := fun size rest =>
  Throw (RuntimeError (what ++ to_string (size - size_of rest))).

(** A step given as a function. *)
Definition step {A} (f : Z -> bytes -> Res (A * bytes)) : Parser A := f.

Fixpoint skip_spaces (rest : bytes) : bytes :=
  match rest with
  | c :: rest' => if is_space c then skip_spaces rest' else rest
  | [] => []
  end.

Definition skipWhitespace : Parser unit := fun _ rest => Ok (tt, skip_spaces rest).

(** [peek]: NUL at the end of the text. *)
Definition peek_of (rest : bytes) : ascii := match rest with c :: _ => c | [] => "000"%char end.
Definition peek : Parser ascii := fun _ rest => Ok (peek_of rest, rest).

(** [pos += n]. *)
Definition advance (n : nat) : Parser unit := fun _ rest => Ok (tt, drop n rest).

Definition expect (c : ascii) : Parser unit :=
  skipWhitespace;;
  p ← peek;
  if bool_decide (p = c) then advance 1
  else fail_at (bs "expected '" ++ [c] ++ bs "' in ERD text at position ").

Fixpoint starts_with (prefix rest : bytes) : bool :=
  match prefix, rest with
  | [], _ => true
  | p :: prefix', c :: rest' => bool_decide (c = p) && starts_with prefix' rest'
  | _ :: _, [] => false
  end.

Definition startsWith (prefix : string) : Parser bool := fun _ rest => Ok (starts_with (bs prefix) rest, rest).

Fixpoint starts_with_ci (prefix rest : bytes) : bool :=
  match prefix, rest with
  | [], _ => true
  | p :: prefix', c :: rest' => bool_decide (to_upper c = to_upper p) && starts_with_ci prefix' rest'
  | _ :: _, [] => false
  end.

Definition startsWithCI (prefix : string) : Parser bool :=
  fun _ rest => Ok (starts_with_ci (bs prefix) rest, rest).

Definition hexValue (c : ascii) : Parser Z :=
  match hex_val c with
  | Some v => mret v
  | None => fail_at (bs "invalid hex character '" ++ [c] ++ bs "' at position ")
  end.

(** The rest of the text after a group of [n] hexadecimal digits. *)
Fixpoint hex_group (n : nat) (rest : bytes) : option bytes :=
  match n with
  | O => Some rest
  | S n' => match rest with c :: rest' => if isHexChar c then hex_group n' rest' else None | [] => None end
  end.

Definition dash_group (n : nat) (rest : bytes) : option bytes :=
  match rest with c :: rest' => if bool_decide (c = dash) then hex_group n rest' else None | [] => None end.

Definition isUUID (rest : bytes) : bool :=
  match (r ← hex_group 8 rest; r ← dash_group 4 r; r ← dash_group 4 r; r ← dash_group 4 r; dash_group 12 r) with
  | Some _ => true
  | None => false
  end.

Definition parseUUIDBytes : Parser bytes := fun size rest =>
  if isUUID rest then
    match uuidToBytes (take 36 rest) with
    | Ok b => Ok (b, drop 36 rest)
    | Throw e => Throw e | Undefined => Undefined | NoFuel => NoFuel
    end
  else fail_at (bs "expected UUID at position ") size rest.

Fixpoint parseHexLoop (size : Z) (result rest : bytes) : Res (bytes * bytes) :=
  match rest with
  | c :: rest1 =>
      if isHexChar c then
        match rest1 with
        | d :: rest2 =>
            if isHexChar d then
              match hexValue c size rest1 with
              | Ok (hi, _) =>
                  match hexValue d size rest2 with
                  | Ok (lo, _) => parseHexLoop size (result ++ [joinNibbles hi lo]) rest2
                  | Throw e => Throw e | Undefined => Undefined | NoFuel => NoFuel
                  end
              | Throw e => Throw e | Undefined => Undefined | NoFuel => NoFuel
              end
            else fail_at (bs "odd number of hex characters at position ") size rest
        | [] => fail_at (bs "odd number of hex characters at position ") size rest
        end
      else Ok (result, rest)
  | [] => Ok (result, rest)
  end.

Definition parseHexBytes : Parser bytes := fun size rest => parseHexLoop size [] rest.

(** *** Field paths and literals *)

(** The characters that end a path. *)
Definition path_end (c : ascii) : bool :=
  bool_decide (c = ","%char) || bool_decide (c = ")"%char) || bool_decide (c = " "%char)
  || bool_decide (c = "009"%char) || bool_decide (c = "010"%char) || bool_decide (c = "013"%char).

(** The loop of [parseFieldPath]: the finished segments and the current one. *)
Fixpoint pathLoop (size : Z) (rest : bytes) (path : list bytes) (segment : bytes)
    : Res (list bytes * bytes * bytes) :=
  match rest with
  | [] => Ok (path, segment, rest)
  | c :: rest' =>
      if bool_decide (c = "."%char) then
        if bool_decide (segment = []) then fail_at (bs "empty path segment at position ") size rest
        else pathLoop size rest' (path ++ [segment]) []
      else if path_end c then Ok (path, segment, rest)
      else pathLoop size rest' path (segment ++ [c])
  end.

Definition parseFieldPath : Parser ERDASTFieldPath :=
  skipWhitespace;;
  step (fun size rest =>
    match pathLoop size rest [] [] with
    | Ok (path, segment, rest') =>
        let path' := if bool_decide (segment = []) then path else path ++ [segment] in
        match path' with
        | [] => fail_at (bs "empty field path at position ") size rest'
        | _ => Ok (path', rest')
        end
    | Throw e => Throw e | Undefined => Undefined | NoFuel => NoFuel
    end).

(** [n = n * 10 + digit] on [uint64_t], which wraps. *)
Fixpoint digitsU64 (n : Z) (rest : bytes) : Z * bytes :=
  match rest with
  | c :: rest' => if is_digit c then digitsU64 (wrap 64 (n * 10 + digit_val c)) rest' else (n, rest)
  | [] => (n, rest)
  end.

(** The same on [int64_t], where the product or the sum may overflow. *)
Fixpoint digitsI64 (n : Z) (rest : bytes) : Res (Z * bytes) :=
  match rest with
  | c :: rest' =>
      if is_digit c then
        if n * 10 + digit_val c <? 2 ^ 63 then digitsI64 (n * 10 + digit_val c) rest' else Undefined
      else Ok (n, rest)
  | [] => Ok (n, rest)
  end.

(** [std::isalnum(c)] of a plain (signed) [char]: the argument must be EOF (-1)
    or representable as an unsigned character. *)
Definition isalnum_char (c : ascii) : Res bool :=
  if (128 <=? byte_val c) && (byte_val c <? 255) then Undefined else Ok (is_alnum c).

(** [pos + n >= text.size() || !std::isalnum(text[pos + n])]. *)
Definition not_alnum_at (n : nat) (rest : bytes) : Res bool :=
  match rest !! n with
  | None => Ok true
  | Some c => b ← isalnum_char c; Ok (negb b)
  end.

Fixpoint stringLoop (s rest : bytes) : option (bytes * bytes) :=
  match rest with
  | [] => None
  | c :: rest' => if bool_decide (c = quote) then Some (s, rest') else stringLoop (s ++ [c]) rest'
  end.

Definition parseQuoted : Parser ERDASTFieldValue := fun _ rest =>
  match stringLoop [] rest with
  | None => throw_runtime "unterminated string literal"
  | Some (s, rest') => Ok (StringValue s, rest')
  end.

(** An optional minus sign. *)
Definition parseSign : Parser bool := fun _ rest =>
  match rest with
  | c :: rest' => if bool_decide (c = "-"%char) then Ok (true, rest') else Ok (false, rest)
  | [] => Ok (false, rest)
  end.

Definition parseEnumValue : Parser ERDASTFieldValue :=
  skipWhitespace;;
  negative ← parseSign;
  n ← step (fun _ rest => digitsI64 0 rest);
  (skipWhitespace;;
   expect ")";;
   mret (EnumValue (swrap 32 (if (negative : bool) then - n else n)))).

(** [signed_n = -signed_n] overflows on the smallest integer. *)
Definition negate_i64 (n : Z) : Res Z := if n =? - 2 ^ 63 then Undefined else Ok (- n).

(** The number literal; [startPos] is restored when there is no digit. *)
Definition parseNumber : Parser ERDASTFieldValue := fun size rest =>
  match parseSign size rest with
  | Ok (negative, rest1) =>
      if is_digit (peek_of rest1) then
        let '(n, rest2) := digitsU64 0 rest1 in
        if negb negative && (bool_decide (peek_of rest2 = "u"%char) || bool_decide (peek_of rest2 = "U"%char))
        then Ok (UintValue n, drop 1 rest2)
        else
          let signed_n := swrap 64 n in
          match (if (negative : bool) then negate_i64 signed_n else Ok signed_n) with
          | Ok v => Ok (IntValue v, rest2)
          | Throw e => Throw e | Undefined => Undefined | NoFuel => NoFuel
          end
      else fail_at (bs "unexpected field value at position ") size rest
  | Throw e => Throw e | Undefined => Undefined | NoFuel => NoFuel
  end.

Definition starts_hex (rest : bytes) : bool :=
  match rest with
  | a :: b :: _ => bool_decide (a = "0"%char) && (bool_decide (b = "x"%char) || bool_decide (b = "X"%char))
  | _ => false
  end.

(** [startsWithCI(word) && (... !isalnum ...)]: the second test runs only when
    the first succeeds. *)
Definition starts_word (word : string) (n : nat) : Parser bool := fun _ rest =>
  if starts_with_ci (bs word) rest
  then match not_alnum_at n rest with
       | Ok b => Ok (b, rest)
       | Throw e => Throw e | Undefined => Undefined | NoFuel => NoFuel
       end
  else Ok (false, rest).

(** The literals that start with neither a quote nor [0x]. *)
Definition parseWordOrNumber : Parser ERDASTFieldValue :=
  isTrue ← starts_word "true" 4;
  if (isTrue : bool) then advance 4;; mret (BoolValue true)
  else
    isFalse ← starts_word "false" 5;
    if (isFalse : bool) then advance 5;; mret (BoolValue false)
    else
      isEnum ← startsWith "enum(";
      if (isEnum : bool) then advance 5;; parseEnumValue else parseNumber.

Definition parseFieldValue : Parser ERDASTFieldValue :=
  skipWhitespace;;
  step (fun size rest =>
    match rest with
    | [] => throw_runtime "expected field value at end of input"
    | c :: rest1 =>
        if bool_decide (c = quote) then parseQuoted size rest1
        else if starts_hex rest then (advance 2;; b ← parseHexBytes; mret (BytesValue b)) size rest
        else parseWordOrNumber size rest
    end).

(** *** Trees *)
Section ParseAst.
Context {L : Type}.

Definition parseBinaryArgs (parse : Parser (Ast L)) : Parser (Ast L * Ast L) :=
  expect "(";;
  lhs ← parse;
  (skipWhitespace;;
   expect ",";;
   rhs ← parse;
   (skipWhitespace;;
    expect ")";;
    mret (lhs, rhs))).

(** The [while (true)] loop of [parseNaryArgs]. *)
Fixpoint naryLoop (parse : Parser (Ast L)) (fuel : nat) (terms : list (Ast L)) : Parser (list (Ast L)) :=
  match fuel with
  | O => fun _ _ => NoFuel
  | S fuel' =>
      term ← parse;
      (skipWhitespace;;
       c ← peek;
       if bool_decide (c = ","%char) then advance 1;; naryLoop parse fuel' (terms ++ [term])
       else expect ")";; mret (terms ++ [term]))
  end.

Definition parseNaryArgs (parse : Parser (Ast L)) (fuel : nat) : Parser (list (Ast L)) :=
  expect "(";;
  skipWhitespace;;
  c ← peek;
  if bool_decide (c = ")"%char) then advance 1;; mret [] else naryLoop parse fuel [].

(** Tries the alternatives in order: the first keyword the text starts with is
    skipped ([n] characters) and its parser runs. *)
Fixpoint firstKeyword {A} (alternatives : list (string * (nat * Parser A))) (otherwise : Parser A) : Parser A :=
  match alternatives with
  | [] => otherwise
  | (keyword, (n, parse)) :: alternatives' =>
      b ← startsWith keyword;
      if (b : bool) then advance n;; parse else firstKeyword alternatives' otherwise
  end.

(** The body shared by [parseEndTree], [parseMessageTree] and [parseTree]:
    [before] are the alternatives tried before the connectives, [leaves] those
    tried after them. *)
Fixpoint parseAst (before leaves : list (string * (nat * Parser (Ast L)))) (unexpected : string)
    (fuel : nat) : Parser (Ast L) :=
  match fuel with
  | O => fun _ _ => NoFuel
  | S fuel' =>
      let parse := parseAst before leaves unexpected fuel' in
      let binary (mk : option (Ast L) -> option (Ast L) -> Ast L) :=
        p ← parseBinaryArgs parse; mret (mk (Some p.1) (Some p.2)) in
      let nary (mk : list (Ast L) -> Ast L) := ts ← parseNaryArgs parse fuel'; mret (mk ts) in
      skipWhitespace;;
      firstKeyword (before ++
        [("AND("%string, (3%nat, binary And)); ("OR("%string, (2%nat, binary Or));
         ("EQ("%string, (2%nat, binary Equals)); ("ALLOF("%string, (5%nat, nary AllOf));
         ("ANYOF("%string, (5%nat, nary AnyOf))] ++ leaves)
        (isTrue ← startsWithCI "TRUE";
         if (isTrue : bool) then advance 4;; mret TrueValue
         else
           isFalse ← startsWithCI "FALSE";
           if (isFalse : bool) then advance 5;; mret FalseValue
           else fail_at (bs unexpected))
  end.
End ParseAst.

(** A predicate [KEYWORD(argument)] with the keyword and its parenthesis read. *)
Definition predicate {A B} (argument : Parser A) (mk : A -> B) : Parser B :=
  skipWhitespace;;
  a ← argument;
  (skipWhitespace;; expect ")";; mret (mk a)).

Definition endLeaves {B} (wrap_leaf : EndLeaf -> B) : list (string * (nat * Parser B)) :=
  [("ENDORSEMENT_TYPE("%string, (17%nat, predicate parseUUIDBytes (fun u => wrap_leaf (TypeEquals (Some u)))));
   ("ENDORSEMENT_VALUE("%string, (18%nat, predicate parseHexBytes (fun v => wrap_leaf (ValueEquals v))));
   ("ENDORSEMENT_SIGNER("%string, (19%nat, predicate parseUUIDBytes (fun u => wrap_leaf (SignerEquals (Some u)))))].

Definition parseEndTree (fuel : nat) : Parser ERDASTEndTree :=
  parseAst [] (endLeaves Leaf) "unexpected token in endorsement sub-tree at position " fuel.

(** The two legacy predicates, which are field comparisons. *)
Definition nodeLeaves {B} (wrap_leaf : MesLeaf -> B) : list (string * (nat * Parser B)) :=
  [("DESTINATION("%string, (12%nat, predicate parseUUIDBytes (fun u =>
      wrap_leaf (FieldEquals (Some [bs "destination"; bs "value"]) (Some (BytesValue u))))));
   ("SOURCE("%string, (7%nat, predicate parseUUIDBytes (fun u =>
      wrap_leaf (FieldEquals (Some [bs "signature"; bs "signer"; bs "value"]) (Some (BytesValue u))))))].

Definition parseFieldEq : Parser ERDASTMessageTree :=
  path ← parseFieldPath;
  (skipWhitespace;; expect ",";;
   value ← parseFieldValue;
   (skipWhitespace;; expect ")";; mret (Leaf (FieldEquals (Some path) (Some value))))).

Definition parseFieldExists : Parser ERDASTMessageTree :=
  path ← parseFieldPath;
  (skipWhitespace;; expect ")";; mret (Leaf (FieldExists (Some path)))).

Definition parseFieldContains : Parser ERDASTMessageTree :=
  path ← parseFieldPath;
  (skipWhitespace;; expect ",";;
   sub_path ← parseFieldPath;
   (skipWhitespace;; expect ",";;
    value ← parseFieldValue;
    (skipWhitespace;; expect ")";; mret (Leaf (FieldContains (Some path) (Some sub_path) (Some value)))))).

Definition mesLeaves : list (string * (nat * Parser ERDASTMessageTree)) :=
  nodeLeaves Leaf ++
  [("FIELD_EQ("%string, (9%nat, parseFieldEq)); ("FIELD_EXISTS("%string, (13%nat, parseFieldExists));
   ("FIELD_CONTAINS("%string, (15%nat, parseFieldContains))].

Definition parseMessageTree (fuel : nat) : Parser ERDASTMessageTree :=
  parseAst [] mesLeaves "unexpected token in message sub-tree at position " fuel.

(** [VariableResolver]; [None] is a null or empty function. *)
Abbreviation VariableResolver := (bytes -> Res (option ERDAbstractSyntaxTree)) (only parsing).

(** The name up to the closing brace, and what follows it. *)
Fixpoint until_brace (rest : bytes) : option (bytes * bytes) :=
  match rest with
  | [] => None
  | c :: rest' =>
      if bool_decide (c = "}"%char) then Some ([], rest')
      else '(name, after) ← until_brace rest'; Some (c :: name, after)
  end.

Definition isIdChar (c : ascii) (first : bool) : bool :=
  bool_decide (c = "_"%char) || in_range "A" "Z" c || in_range "a" "z" c
  || (negb first && in_range "0" "9" c).

Definition validName (name : bytes) : bool :=
  match name with
  | [] => true
  | c :: name' => isIdChar c true && forallb (fun d => isIdChar d false) name'
  end.

(** The [${name}] atom; the two characters that open it have been read. *)
Definition parseVariable (resolver : option VariableResolver) : Parser ERDAbstractSyntaxTree := fun size rest =>
  let startPos := to_string (size - size_of rest - 2) in
  match until_brace rest with
  | None => Throw (RuntimeError (bs "unterminated ${ at position " ++ startPos))
  | Some (name, after) =>
      if bool_decide (name = [])
      then Throw (RuntimeError (bs "empty variable name in ${} at position " ++ startPos))
      else if negb (validName name) then
        Throw (RuntimeError (bs "invalid variable name '" ++ name ++ bs "' in ${} at position " ++ startPos))
      else
        match resolver with
        | None => Throw (RuntimeError (bs "${" ++ name ++ bs "}: variable references are not allowed in this context"))
        | Some f =>
            match f name with
            | Ok (Some tree) => Ok (tree, after)
            | Ok None => Throw (RuntimeError (bs "${" ++ name ++ bs "}: undeclared variable"))
            | Throw e => Throw e | Undefined => Undefined | NoFuel => NoFuel
            end
        end
  end.

(** The alternatives of [parseTree]. *)
Definition erdBefore (resolver : option VariableResolver) : list (string * (nat * Parser ERDAbstractSyntaxTree)) :=
  [("${"%string, (2%nat, parseVariable resolver))].

Definition erdLeaves (fuel : nat) : list (string * (nat * Parser ERDAbstractSyntaxTree)) :=
  ("ENDORSEMENT("%string, (12%nat, predicate (parseEndTree fuel) (fun t => Leaf (EndorsementNode (Some t)))))
  :: endLeaves (fun l => Leaf (EndorsementNode (Some (Leaf l))))
  ++ ("MESSAGE("%string, (8%nat, predicate (parseMessageTree fuel) (fun t => Leaf (MessageNode (Some t)))))
  :: nodeLeaves (fun l => Leaf (MessageNode (Some (Leaf l)))).

Definition parseTree (resolver : option VariableResolver) (fuel : nat) : Parser ERDAbstractSyntaxTree :=
  parseAst (erdBefore resolver) (erdLeaves fuel) "unexpected token in ERD text at position " fuel.

(** Both overloads of [fromString]; the one without a resolver passes [None]. *)
Definition fromString (resolver : option VariableResolver) (text : bytes) : Res ERDAbstractSyntaxTree :=
  match skip_spaces text with
  | [] => Ok NotSet
  | rest =>
      match parseTree resolver (S (List.length text)) (size_of text) rest with
      | Ok (tree, rest') =>
          match skip_spaces rest' with
          | [] => Ok tree
          | rest'' => Throw (RuntimeError (bs "unexpected content after ERD expression at position "
                        ++ to_string (size_of text - size_of rest'')))
          end
      | Throw e => Throw e | Undefined => Undefined | NoFuel => NoFuel
      end
  end.

(** ** Lemmas: hexadecimal text *)

(** The first character of [l], if there is one, satisfies [P]. *)
Definition head_is (P : ascii -> bool) (l : bytes) : Prop :=
  match l with c :: _ => P c = true | [] => True end.

Lemma skip_spaces_solid l : head_is (fun c => negb (is_space c)) l -> skip_spaces l = l.
Proof. destruct l as [|c l]; [done|]. cbn. by destruct (is_space c). Qed.

Lemma capital_excludes c : in_range "A" "Z" c = true -> negb (is_space c) = true /\ c <> ")"%char.
Proof.
  intros H. assert (Hc : implb (in_range "A" "Z" c) (negb (is_space c) && negb (bool_decide (c = ")"%char)))
    = true) by (clear; by_all_chars c).
  rewrite H in Hc. cbn [implb] in Hc. apply andb_prop in Hc as [Hs Hn]. split; [done|].
  by apply negb_true_iff, bool_decide_eq_false_1 in Hn.
Qed.

Lemma hex_pair_spec c :
  is_hex (hex_char (Z.shiftr (byte_val c) 4)) = true
  /\ is_hex (hex_char (Z.land (byte_val c) 15)) = true
  /\ hex_val (hex_char (Z.shiftr (byte_val c) 4)) = Some (Z.shiftr (byte_val c) 4)
  /\ hex_val (hex_char (Z.land (byte_val c) 15)) = Some (Z.land (byte_val c) 15)
  /\ joinNibbles (Z.shiftr (byte_val c) 4) (Z.land (byte_val c) 15) = c.
Proof.
  assert (Hb : 0 <= Z.shiftr (byte_val c) 4 < 16).
  { pose proof (byte_val_range c). rewrite Z.shiftr_div_pow2 by lia. change (2 ^ 4) with 16.
    split; [apply Z.div_pos|apply Z.div_lt_upper_bound]; lia. }
  assert (Hl : 0 <= Z.land (byte_val c) 15 < 16) by apply (nibble_range (byte_val c) 0).
  rewrite !is_hex_char, !hex_val_char by done. repeat split.
  clear. apply (bool_decide_eq_true_1 (joinNibbles (Z.shiftr (byte_val c) 4) (Z.land (byte_val c) 15) = c)).
  by_all_chars c.
Qed.

Lemma hex_pair_no_dash c : Forall (fun d => d <> dash) (hex_pair c).
Proof.
  destruct (hex_pair_spec c) as (Hh & Hl & _). unfold hex_pair.
  repeat constructor; intros Hd; [rewrite Hd in Hh|rewrite Hd in Hl]; discriminate.
Qed.

Lemma bytesToHex_cons c l :
  bytesToHex (c :: l) = hex_char (Z.shiftr (byte_val c) 4) :: hex_char (Z.land (byte_val c) 15) :: bytesToHex l.
Proof. reflexivity. Qed.

Lemma length_bytesToHex l : List.length (bytesToHex l) = (2 * List.length l)%nat.
Proof. induction l as [|c l IH]; [done|]. rewrite bytesToHex_cons. cbn [List.length]. rewrite IH. lia. Qed.

Lemma hex_group_bytes l X n :
  n = (2 * List.length l)%nat -> hex_group n (bytesToHex l ++ X) = Some X.
Proof.
  intros ->. induction l as [|c l IH]; [done|].
  destruct (hex_pair_spec c) as (Hh & Hl & _).
  replace (2 * List.length (c :: l))%nat with (S (S (2 * List.length l))) by (cbn; lia).
  rewrite bytesToHex_cons. cbn [app hex_group]. unfold isHexChar. by rewrite Hh, Hl.
Qed.

Lemma decodePairs_bytes l : decodePairs (bytesToHex l) = Ok l.
Proof.
  induction l as [|c l IH]; [done|]. destruct (hex_pair_spec c) as (_ & _ & Hh & Hl & Hj).
  rewrite bytesToHex_cons. cbn [decodePairs]. unfold hexVal. rewrite Hh, Hl.
  cbn [mbind res_bind]. rewrite IH. cbn [mbind res_bind]. by rewrite Hj.
Qed.

Lemma filter_bytesToHex l : filter (fun c => c <> dash) (bytesToHex l) = bytesToHex l.
Proof.
  induction l as [|c l IH]; [done|]. rewrite bytesToHex_cons.
  pose proof (hex_pair_no_dash c) as Hd. inversion Hd as [|? ? H1 H']; subst. inversion H'; subst.
  by rewrite !filter_cons_True, IH by done.
Qed.

(** The five groups of a printed UUID are read back. *)
Lemma parse_printed_uuid l :
  size_of l = 16 -> exists u, bytesToUUID l = Ok u
    /\ head_is (fun c => negb (is_space c)) u
    /\ forall size X, parseUUIDBytes size (u ++ X) = Ok (l, X).
Proof.
  intros Hl. unfold bytesToUUID. rewrite Hl. cbn [Z.eqb Pos.eqb negb]. eexists; split; [done|].
  unfold size_of in Hl. assert (Hlen : List.length l = 16%nat) by lia. clear Hl.
  set (g1 := take 4 (drop 0 l)). set (g2 := take 2 (drop 4 l)). set (g3 := take 2 (drop 6 l)).
  set (g4 := take 2 (drop 8 l)). set (g5 := take 6 (drop 10 l)).
  assert (Hg : l = g1 ++ g2 ++ g3 ++ g4 ++ g5
    /\ List.length g1 = 4%nat /\ List.length g2 = 2%nat /\ List.length g3 = 2%nat
    /\ List.length g4 = 2%nat /\ List.length g5 = 6%nat).
  { subst g1 g2 g3 g4 g5. clear -Hlen. do 17 (destruct l as [|? l]; [try discriminate Hlen; done|]).
    discriminate Hlen. }
  clearbody g1 g2 g3 g4 g5. destruct Hg as (-> & L1 & L2 & L3 & L4 & L5). split.
  { destruct g1 as [|c g1]; [discriminate|]. rewrite bytesToHex_cons. cbn.
    destruct (hex_pair_spec c) as (Hh & _). revert Hh. generalize (hex_char (Z.shiftr (byte_val c) 4)).
    clear. intros c H. assert (Hc : implb (is_hex c) (negb (is_space c)) = true) by (clear; by_all_chars c).
    by rewrite H in Hc. }
  intros size X. unfold parseUUIDBytes.
  set (u := bytesToHex g1 ++ dash :: _).
  assert (Hu : List.length u = 36%nat).
  { subst u. rewrite !length_app. cbn [List.length]. rewrite !length_app. cbn [List.length].
    rewrite !length_app. cbn [List.length]. rewrite !length_app. cbn [List.length].
    rewrite !length_bytesToHex. lia. }
  assert (His : isUUID (u ++ X) = true).
  { subst u. unfold isUUID. rewrite <- !app_assoc. cbn [app]. rewrite <- !app_assoc. cbn [app].
    rewrite <- !app_assoc. cbn [app]. rewrite <- !app_assoc. cbn [app].
    rewrite hex_group_bytes by lia. cbn [mbind option_bind dash_group].
    rewrite bool_decide_eq_true_2, hex_group_bytes by (done || lia). cbn [mbind option_bind dash_group].
    rewrite bool_decide_eq_true_2, hex_group_bytes by (done || lia). cbn [mbind option_bind dash_group].
    rewrite bool_decide_eq_true_2, hex_group_bytes by (done || lia). cbn [mbind option_bind dash_group].
    by rewrite bool_decide_eq_true_2, hex_group_bytes by (done || lia). }
  rewrite His, take_app_length', drop_app_length' by done. unfold uuidToBytes.
  assert (Hf : filter (fun c => c <> dash) u = bytesToHex (g1 ++ g2 ++ g3 ++ g4 ++ g5)).
  { subst u. unfold bytesToHex at 6. rewrite !bind_app.
    repeat (rewrite ?filter_app, ?filter_cons_False by (intros H; by apply H)).
    by rewrite !filter_bytesToHex. }
  rewrite Hf. unfold size_of. rewrite length_bytesToHex, !length_app, L1, L2, L3, L4, L5.
  cbn [Z.eqb negb Nat.add Nat.mul Z.of_nat Pos.of_succ_nat Pos.succ Pos.eqb]. by rewrite decodePairs_bytes.
Qed.

Lemma parseHexLoop_bytes size acc l X :
  head_is (fun c => negb (is_hex c)) X ->
  parseHexLoop size acc (bytesToHex l ++ X) = Ok (acc ++ l, X).
Proof.
  intros HX. revert acc. induction l as [|c l IH]; intros acc.
  - rewrite app_nil_r. destruct X as [|x X]; [done|]. cbn in *. unfold isHexChar.
    by destruct (is_hex x).
  - destruct (hex_pair_spec c) as (Hh & Hl & Vh & Vl & Hj). rewrite bytesToHex_cons.
    cbn [app parseHexLoop]. unfold isHexChar, hexValue. rewrite Hh, Hl, Vh, Vl.
    cbn [mret parser_ret]. by rewrite IH, Hj, <- app_assoc.
Qed.

(** ** Lemmas: sequencing *)

Lemma bind_skip {A} (k : unit -> Parser A) size rest :
  (skipWhitespace ≫= k) size rest = k tt size (skip_spaces rest).
Proof. reflexivity. Qed.

Lemma bind_reads {A B} (m : Parser A) (k : A -> Parser B) size rest a rest' :
  m size rest = Ok (a, rest') -> (m ≫= k) size rest = k a size rest'.
Proof. unfold mbind, parser_bind. by intros ->. Qed.

Lemma skip_space_char rest : skip_spaces (" "%char :: rest) = skip_spaces rest.
Proof. reflexivity. Qed.

(** [skipWhitespace(); expect(c);] on a text that continues with [c]. *)
Lemma bind_expect {A} (k : unit -> Parser A) c size rest :
  is_space c = false -> (expect c ≫= k) size (c :: rest) = k tt size rest.
Proof.
  intros Hc. apply (bind_reads (expect c) k size _ tt). unfold expect. rewrite bind_skip.
  cbn [skip_spaces]. rewrite Hc. unfold mbind, parser_bind, peek. cbn [peek_of].
  by rewrite bool_decide_eq_true_2 by done.
Qed.

(** ** Lemmas: paths and literals *)

(** The characters a printable path segment consists of. *)
Definition seg_char (c : ascii) : bool :=
  negb (bool_decide (c = "."%char)) && negb (path_end c) && negb (is_space c).

Definition segment_ok (seg : bytes) : Prop := seg <> [] /\ Forall (fun c => seg_char c = true) seg.

Definition path_ok (path : option ERDASTFieldPath) : Prop :=
  match path with Some (seg :: segs) => Forall segment_ok (seg :: segs) | _ => False end.

Lemma pathLoop_segment size seg X path acc :
  Forall (fun c => seg_char c = true) seg ->
  pathLoop size (seg ++ X) path acc = pathLoop size X path (acc ++ seg).
Proof.
  intros Hs. revert acc. induction Hs as [|c seg Hc Hs IH]; intros acc; [by rewrite app_nil_r|].
  unfold seg_char in Hc. apply andb_prop in Hc as [Hc _]. apply andb_prop in Hc as [Hd He].
  cbn [app pathLoop]. apply negb_true_iff in Hd, He. by rewrite Hd, He, IH, <- app_assoc.
Qed.

Lemma pathLoop_segments size segs X path acc :
  Forall segment_ok segs -> acc <> [] ->
  match X with c :: _ => c <> "."%char /\ path_end c = true | [] => True end ->
  exists path' seg', pathLoop size (appendSegments segs ++ X) path acc = Ok (path', seg', X)
    /\ seg' <> [] /\ path' ++ [seg'] = path ++ acc :: segs.
Proof.
  intros Hs. revert path acc. induction Hs as [|seg segs [Hne Hc] Hs IH]; intros path acc Ha HX.
  - exists path, acc. split; [|done]. destruct X as [|x X]; [done|]. destruct HX as [Hx He].
    cbn [appendSegments app pathLoop]. by rewrite bool_decide_eq_false_2, He by done.
  - cbn [appendSegments app pathLoop]. rewrite bool_decide_eq_true_2, bool_decide_eq_false_2 by done.
    rewrite <- app_assoc, pathLoop_segment by done. cbn [app].
    destruct (IH (path ++ [acc]) seg Hne HX) as (p' & s' & Hgo & Hs' & Heq).
    exists p', s'. rewrite Hgo. split; [done|]. split; [done|]. by rewrite Heq, <- app_assoc.
Qed.

Lemma parse_printed_path size path X :
  path_ok (Some path) -> head_is path_end X -> head_is (fun c => negb (bool_decide (c = "."%char))) X ->
  parseFieldPath size (appendFieldPath (Some path) ++ X) = Ok (path, X)
  /\ head_is (fun c => negb (is_space c)) (appendFieldPath (Some path) ++ X).
Proof.
  destruct path as [|seg segs]; [done|]. cbn [path_ok]. intros Hs HX HX'.
  inversion Hs as [|? ? [Hne Hc] Hs']; subst. cbn [appendFieldPath].
  assert (Hh : head_is (fun c => negb (is_space c)) ((seg ++ appendSegments segs) ++ X)).
  { destruct seg as [|c seg]; [done|]. inversion Hc as [|? ? Hc' _]; subst. cbn.
    unfold seg_char in Hc'. by apply andb_prop in Hc' as [_ ->]. }
  split; [|done]. unfold parseFieldPath. rewrite bind_skip. unfold step.
  rewrite (skip_spaces_solid _ Hh), <- app_assoc, pathLoop_segment by done. cbn [app].
  destruct (pathLoop_segments size segs X [] seg Hs' Hne) as (p' & s' & -> & Hs'' & Heq).
  { destruct X as [|x X]; [done|]. cbn in *. split; [|done]. by case_bool_decide. }
  rewrite bool_decide_eq_false_2 by done. rewrite Heq. done.
Qed.

Definition value_ok (value : option ERDASTFieldValue) : Prop :=
  match value with
  | Some (BytesValue _) | Some (BoolValue _) => True
  | Some (StringValue v) => Forall (fun c => c <> quote) v
  | Some (IntValue v) => - 2 ^ 63 < v < 2 ^ 63
  | Some (UintValue v) => is_u64 v
  | Some (EnumValue v) => is_i32 v
  | Some ValueNotSet | None => False
  end.

Lemma swrap_small w z : 0 < w -> - 2 ^ (w - 1) <= z < 2 ^ (w - 1) -> swrap w z = z.
Proof.
  intros Hw Hz. unfold swrap. replace w with (1 + (w - 1)) at 2 by lia.
  rewrite Z.pow_add_r by lia. rewrite Z.mod_small; lia.
Qed.

Lemma digitsU64_read acc l X :
  0 <= acc -> Forall (fun c => is_digit c = true) l -> dec_value acc l < 2 ^ 64 ->
  head_is (fun c => negb (is_digit c)) X -> digitsU64 acc (l ++ X) = (dec_value acc l, X).
Proof.
  intros Ha Hl Hv HX. revert acc Ha Hv. induction Hl as [|c l Hc Hl IH]; intros acc Ha Hv.
  - destruct X as [|x X]; [done|]. cbn in *. by destruct (is_digit x).
  - pose proof (digit_val_range c Hc) as Hd. cbn [app digitsU64]. rewrite Hc.
    unfold dec_value in Hv. cbn [foldl] in Hv. fold (dec_value (acc * 10 + digit_val c) l) in Hv.
    pose proof (dec_value_le (acc * 10 + digit_val c) l ltac:(lia) Hl).
    unfold wrap. rewrite Z.mod_small by lia. by rewrite IH by lia.
Qed.

Lemma digitsI64_read acc l X :
  0 <= acc -> Forall (fun c => is_digit c = true) l -> dec_value acc l < 2 ^ 63 ->
  head_is (fun c => negb (is_digit c)) X -> digitsI64 acc (l ++ X) = Ok (dec_value acc l, X).
Proof.
  intros Ha Hl Hv HX. revert acc Ha Hv. induction Hl as [|c l Hc Hl IH]; intros acc Ha Hv.
  - destruct X as [|x X]; [done|]. cbn in *. by destruct (is_digit x).
  - pose proof (digit_val_range c Hc) as Hd. cbn [app digitsI64]. rewrite Hc.
    unfold dec_value in Hv. cbn [foldl] in Hv. fold (dec_value (acc * 10 + digit_val c) l) in Hv.
    pose proof (dec_value_le (acc * 10 + digit_val c) l ltac:(lia) Hl).
    destruct (Z.ltb_spec (acc * 10 + digit_val c) (2 ^ 63)); [|lia]. by rewrite IH by lia.
Qed.

Lemma stringLoop_read acc v X :
  Forall (fun c => c <> quote) v -> stringLoop acc (v ++ quote :: X) = Some (acc ++ v, X).
Proof.
  intros Hv. revert acc. induction Hv as [|c v Hc Hv IH]; intros acc; cbn [app stringLoop].
  - by rewrite bool_decide_eq_true_2, app_nil_r by done.
  - by rewrite bool_decide_eq_false_2, IH, <- app_assoc by done.
Qed.

(** A number literal starts with a sign or a digit, which opens no other literal. *)
Definition number_start (c : ascii) : bool := is_digit c || bool_decide (c = dash).

Lemma number_start_excludes c :
  number_start c = true ->
  is_space c = false /\ c <> quote /\ to_upper c <> "T"%char /\ to_upper c <> "F"%char /\ c <> "e"%char.
Proof.
  intros H. assert (Hc : implb (number_start c) (negb (is_space c) && negb (bool_decide (c = quote))
    && negb (bool_decide (to_upper c = "T"%char)) && negb (bool_decide (to_upper c = "F"%char))
    && negb (bool_decide (c = "e"%char))) = true) by (clear; by_all_chars c).
  rewrite H in Hc. cbn [implb] in Hc. repeat (apply andb_prop in Hc as [Hc ?]).
  repeat match goal with
  | Hn : negb (bool_decide _) = true |- _ => apply negb_true_iff, bool_decide_eq_false_1 in Hn
  | Hn : negb _ = true |- _ => apply negb_true_iff in Hn
  end. by repeat split.
Qed.

(** On such a start, [parseFieldValue] is [parseNumber]. *)
Lemma parseFieldValue_number size c rest :
  number_start c = true -> starts_hex (c :: rest) = false ->
  parseFieldValue size (c :: rest) = parseNumber size (c :: rest).
Proof.
  intros Hc Hh. destruct (number_start_excludes c Hc) as (Hs & Hq & Ht & Hf & He).
  unfold parseFieldValue. rewrite bind_skip. unfold step. cbn [skip_spaces]. rewrite Hs.
  rewrite bool_decide_eq_false_2, Hh by done.
  unfold parseWordOrNumber, mbind, parser_bind, starts_word, startsWith. change (bs "true") with ["t"; "r"; "u"; "e"]%char.
  change (bs "false") with ["f"; "a"; "l"; "s"; "e"]%char. change (bs "enum(") with ["e"; "n"; "u"; "m"; "("]%char.
  cbn [starts_with_ci starts_with]. rewrite (bool_decide_eq_false_2 (to_upper c = to_upper "t")) by done.
  cbn [andb starts_with_ci]. rewrite (bool_decide_eq_false_2 (to_upper c = to_upper "f")) by done.
  cbn [andb starts_with]. by rewrite (bool_decide_eq_false_2 (c = "e"%char)) by done.
Qed.

Lemma parse_printed_number size v suffix X (mk : Z -> ERDASTFieldValue) :
  (suffix = [] /\ mk = IntValue /\ - 2 ^ 63 < v < 2 ^ 63)
  \/ (suffix = bs "u" /\ mk = UintValue /\ is_u64 v) ->
  parseFieldValue size (to_string v ++ suffix ++ ")"%char :: X) = Ok (mk v, ")"%char :: X).
Proof.
  intros Hcase. destruct (to_string_spec v) as (c & l & Heq & Hd & Hv). rewrite Heq.
  inversion Hd as [|? ? Hc Hl]; subst.
  assert (Hnd : head_is (fun c => negb (is_digit c)) (suffix ++ ")"%char :: X)).
  { by destruct Hcase as [(-> & _)|(-> & _)]. }
  assert (Hhex : starts_hex ((c :: l) ++ suffix ++ ")"%char :: X) = false).
  { cbn [app starts_hex]. destruct l as [|d l].
    - destruct Hcase as [(-> & _)|(-> & _)]; apply andb_false_iff; by right.
    - inversion Hl; subst. cbn [app]. apply andb_false_iff. right.
      by rewrite !bool_decide_eq_false_2 by (intros ->; discriminate). }
  assert (Hread : v < 2 ^ 64 -> - 2 ^ 63 < v -> digitsU64 0 ((c :: l) ++ suffix ++ ")"%char :: X)
    = (Z.abs v, suffix ++ ")"%char :: X)).
  { intros. rewrite <- Hv. apply digitsU64_read; try done. lia. }
  destruct (Z.ltb_spec v 0) as [Hneg|Hpos].
  - destruct Hcase as [(-> & -> & Hr)|(-> & -> & Hr)]; [|unfold is_u64 in Hr; lia].
    cbn [app] in Hread |- *. rewrite parseFieldValue_number by (done || by destruct c as [[] [] [] [] [] [] [] []]).
    unfold parseNumber, parseSign. rewrite bool_decide_eq_true_2 by done. cbn [peek_of]. rewrite Hc.
    rewrite Hread by lia. cbn [negb andb app].
    rewrite Z.abs_neq, swrap_small by lia. unfold negate_i64.
    destruct (Z.eqb_spec (- v) (- 2 ^ 63)); [lia|]. by rewrite Z.opp_involutive.
  - cbn [app] in Hhex |- *. rewrite parseFieldValue_number; [|unfold number_start; by rewrite Hc|done].
    unfold parseNumber, parseSign.
    rewrite bool_decide_eq_false_2 by (by intros ->). cbn [peek_of]. rewrite Hc.
    cbn [app] in Hread. destruct Hcase as [(-> & -> & Hr)|(-> & -> & Hr)].
    + cbn [app] in Hread |- *. rewrite Hread by lia. cbn [app peek_of]. rewrite !bool_decide_eq_false_2 by done. cbn [negb andb orb].
      by rewrite Z.abs_eq, swrap_small by lia.
    + unfold is_u64 in Hr. rewrite Hread by lia. change (bs "u") with ["u"%char]. cbn [app peek_of].
      rewrite bool_decide_eq_true_2 by done. cbn [negb andb orb drop]. by rewrite Z.abs_eq by lia.
Qed.

Lemma parse_printed_enum size v X :
  is_i32 v -> parseFieldValue size (bs "enum(" ++ to_string v ++ bs ")" ++ ")"%char :: X)
              = Ok (EnumValue v, ")"%char :: X).
Proof.
  intros Hv. change (bs ")") with [")"%char]. cbn [app].
  transitivity (parseEnumValue size (to_string v ++ ")"%char :: ")"%char :: X)); [reflexivity|].
  destruct (to_string_spec v) as (c & l & -> & Hd & Habs). inversion Hd as [|? ? Hc Hl]; subst.
  unfold is_i32 in Hv.
  assert (Hns : number_start c = true) by (unfold number_start; by rewrite Hc).
  destruct (number_start_excludes c Hns) as (Hs & _).
  assert (Hread : digitsI64 0 ((c :: l) ++ ")"%char :: ")"%char :: X) = Ok (Z.abs v, ")"%char :: ")"%char :: X)).
  { rewrite <- Habs. apply digitsI64_read; try done. lia. }
  unfold parseEnumValue. rewrite bind_skip. destruct (Z.ltb_spec v 0) as [Hneg|Hpos].
  - rewrite skip_spaces_solid by done.
    rewrite (bind_reads parseSign _ size _ true ((c :: l) ++ ")"%char :: ")"%char :: X)) by done.
    rewrite (bind_reads (step (fun _ rest => digitsI64 0 rest)) _ size _ _ _ Hread). rewrite bind_skip, skip_spaces_solid by done.
    rewrite bind_expect by done. rewrite Z.abs_neq, Z.opp_involutive, swrap_small by lia. done.
  - rewrite skip_spaces_solid by (cbn; by rewrite Hs).
    rewrite (bind_reads parseSign _ size _ false ((c :: l) ++ ")"%char :: ")"%char :: X)).
    2: { cbn. rewrite bool_decide_eq_false_2; [done|]. by intros ->. }
    rewrite (bind_reads (step (fun _ rest => digitsI64 0 rest)) _ size _ _ _ Hread). rewrite bind_skip, skip_spaces_solid by done.
    rewrite bind_expect by done. rewrite Z.abs_eq, swrap_small by lia. done.
Qed.

Lemma parse_printed_value size v X :
  value_ok (Some v) ->
  parseFieldValue size (appendFieldValue (Some v) ++ ")"%char :: X) = Ok (v, ")"%char :: X).
Proof.
  destruct v as [b|s|v|v|[]|v|]; cbn [value_ok appendFieldValue]; intros Hv; [| | | | | | |done].
  - rewrite <- app_assoc. transitivity ((b ← parseHexBytes; mret (BytesValue b)) size
      (bytesToHex b ++ ")"%char :: X)); [reflexivity|].
    rewrite (bind_reads parseHexBytes _ size _ b (")"%char :: X)); [done|].
    unfold parseHexBytes. by rewrite parseHexLoop_bytes.
  - rewrite <- app_comm_cons, <- app_assoc. cbn [app].
    transitivity (parseQuoted size (s ++ quote :: ")"%char :: X)); [reflexivity|].
    unfold parseQuoted. by rewrite stringLoop_read.
  - rewrite <- (parse_printed_number size v [] X IntValue); [done|by left].
  - rewrite <- app_assoc. apply parse_printed_number. by right.
  - reflexivity.
  - reflexivity.
  - rewrite <- !app_assoc. by apply parse_printed_enum.
Qed.

(** ** Lemmas: trees *)

(** No alternative of the list matches the text. *)
Definition none_match {A} (alternatives : list (string * (nat * Parser A))) (text : bytes) : Prop :=
  Forall (fun alt => starts_with (bs alt.1) text = false) alternatives.

Lemma firstKeyword_skip {A} (alts more : list (string * (nat * Parser A))) otherwise size rest :
  none_match alts rest ->
  firstKeyword (alts ++ more) otherwise size rest = firstKeyword more otherwise size rest.
Proof.
  induction 1 as [|[kw [n p]] alts Ha _ IH]; [done|]. cbn [app firstKeyword].
  unfold mbind, parser_bind, startsWith. cbn [fst] in Ha. by rewrite Ha.
Qed.

Definition connective_words : list string :=
  ["AND("; "OR("; "EQ("; "ALLOF("; "ANYOF("]%string.
Definition constant_words : list string := ["TRUE"; "FALSE"]%string.

(** Membership in one of these lists of words. *)
Ltac in_words := apply list_elem_of_In; cbn; tauto.

Section PrintParse.
Context {L : Type} (appendLeaf : L -> Res bytes) (leaf_ok : L -> Prop)
  (before leaves : list (string * (nat * Parser (Ast L)))) (unexpected : string) (bound : nat).

Abbreviation parse := (parseAst before leaves unexpected).

Hypothesis before_apart : forall kw X,
  kw ∈ connective_words ++ constant_words -> none_match before (bs kw ++ X).
Hypothesis leaves_apart : forall kw X, kw ∈ constant_words -> none_match leaves (bs kw ++ X).

(** [s] is the text of [t]: it starts with a capital letter, and parsing it in
    front of any other text reads [t] and stops there. *)
Definition text_of (t : Ast L) (s : bytes) : Prop :=
  s <> [] /\ head_is (in_range "A" "Z") s
  /\ forall fuel size X, (List.length s < fuel)%nat -> (List.length s <= bound)%nat ->
       parse fuel size (s ++ X) = Ok (t, X).

Hypothesis leaf_text : forall l, leaf_ok l -> exists s, appendLeaf l = Ok s /\ text_of (Leaf l) s.

Lemma parse_space fuel size rest : parse fuel size (" "%char :: rest) = parse fuel size rest.
Proof. destruct fuel; [done|]. cbn [parseAst]. by rewrite !bind_skip, skip_space_char. Qed.

Lemma parseBinaryArgs_text fuel size l r sl sr X :
  text_of l sl -> text_of r sr ->
  (List.length sl < fuel)%nat -> (List.length sr < fuel)%nat ->
  (List.length sl <= bound)%nat -> (List.length sr <= bound)%nat ->
  parseBinaryArgs (parse fuel) size ("("%char :: sl ++ bs ", " ++ sr ++ bs ")" ++ X) = Ok ((l, r), X).
Proof.
  intros (_ & _ & Hl) (_ & _ & Hr) ? ? ? ?. unfold parseBinaryArgs. rewrite bind_expect by done.
  erewrite bind_reads by (by apply Hl). rewrite bind_skip, skip_spaces_solid by done.
  change (bs ", ") with [","; " "]%char. cbn [app]. rewrite bind_expect by done.
  erewrite bind_reads by (rewrite parse_space; by apply Hr). rewrite bind_skip, skip_spaces_solid by done.
  change (bs ")") with [")"%char]. cbn [app]. by rewrite bind_expect by done.
Qed.

(** The texts of the terms after the first, each with its separator. *)
Definition more_text (ss : list bytes) : bytes := ss ≫= (fun s => bs ", " ++ s).

Definition list_text (ss : list bytes) : bytes :=
  match ss with [] => [] | s :: ss' => s ++ more_text ss' end.

Lemma naryLoop_text fuel size ts ss X :
  Forall2 text_of ts ss -> forall t s n acc, text_of t s ->
  (List.length (s ++ more_text ss) < n)%nat -> (List.length (s ++ more_text ss) < fuel)%nat ->
  (List.length (s ++ more_text ss) <= bound)%nat ->
  naryLoop (parse fuel) n acc size (s ++ more_text ss ++ bs ")" ++ X) = Ok (acc ++ t :: ts, X).
Proof.
  induction 1 as [|t2 s2 ts ss H2 Hts IH]; intros t s n acc (Hne & Hh & Hp) Hn Hf Hb;
    rewrite length_app in Hn, Hf, Hb; (destruct n as [|n]; [lia|]); cbn [naryLoop].
  - cbn [more_text mbind list_bind app]. erewrite bind_reads by (by apply Hp; cbn in *; lia).
    rewrite bind_skip, skip_spaces_solid by done. change (bs ")") with [")"%char]. cbn [app].
    erewrite bind_reads by done. cbn [peek_of].
    rewrite bool_decide_eq_false_2, bind_expect by done. done.
  - assert (Hlen : List.length (more_text (s2 :: ss)) = (2 + List.length (s2 ++ more_text ss))%nat).
    { cbn [more_text mbind list_bind]. rewrite !length_app. reflexivity. }
    rewrite Hlen in Hn, Hf, Hb.
    erewrite bind_reads by (by apply Hp; lia).
    change (more_text (s2 :: ss)) with ((bs ", " ++ s2) ++ more_text ss). rewrite <- !app_assoc.
    rewrite bind_skip, skip_spaces_solid by done. change (bs ", ") with [","; " "]%char. cbn [app].
    erewrite bind_reads by done. cbn [peek_of]. rewrite bool_decide_eq_true_2 by done.
    erewrite bind_reads by done. cbn [drop].
    transitivity (naryLoop (parse fuel) n (acc ++ [t]) size (s2 ++ more_text ss ++ bs ")" ++ X)).
    { destruct n; [done|]. cbn [naryLoop]. unfold mbind at 1 3, parser_bind at 1 2. by rewrite parse_space. }
    rewrite (IH t2 s2 n (acc ++ [t])) by (done || lia). by rewrite <- app_assoc.
Qed.

Lemma appendMore_text ts ss :
  Forall2 (fun t s => appendAst appendLeaf t = Ok s) ts ss ->
  appendMore (appendAst appendLeaf) ts = Ok (more_text ss).
Proof.
  induction 1 as [|t s ts ss Ht _ IH]; [done|]. cbn [appendMore]. rewrite Ht. cbn [mbind res_bind].
  rewrite IH. cbn [mbind res_bind]. cbn [more_text mbind list_bind]. by rewrite <- app_assoc.
Qed.

(** A connective in front of its arguments is recognised. *)
Lemma parse_binary fuel size kw mk X :
  (kw, mk) ∈ [("AND("%string, And); ("OR("%string, Or); ("EQ("%string, Equals)] ->
  parse (S fuel) size (bs kw ++ X)
  = (q ← parseBinaryArgs (parse fuel); mret (mk (Some q.1) (Some q.2))) size ("("%char :: X).
Proof.
  rewrite !elem_of_cons, elem_of_nil. intros Hk. cbn [parseAst]. rewrite bind_skip.
  destruct Hk as [[= -> ->]|[[= -> ->]|[[= -> ->]|[]]]];
    (rewrite skip_spaces_solid by reflexivity);
    (rewrite firstKeyword_skip by (apply before_apart; in_words)); reflexivity.
Qed.

Lemma parse_nary fuel size kw mk X :
  (kw, mk) ∈ [("ALLOF("%string, AllOf); ("ANYOF("%string, AnyOf)] ->
  parse (S fuel) size (bs kw ++ X)
  = (ts ← parseNaryArgs (parse fuel) fuel; mret (mk ts)) size ("("%char :: X).
Proof.
  rewrite !elem_of_cons, elem_of_nil. intros Hk. cbn [parseAst]. rewrite bind_skip.
  destruct Hk as [[= -> ->]|[[= -> ->]|[]]];
    (rewrite skip_spaces_solid by reflexivity);
    (rewrite firstKeyword_skip by (apply before_apart; in_words)); reflexivity.
Qed.

Lemma parse_constant fuel size kw t X :
  (kw, t) ∈ [("TRUE"%string, TrueValue); ("FALSE"%string, FalseValue)] ->
  parse (S fuel) size (bs kw ++ X) = Ok (t, X).
Proof.
  rewrite !elem_of_cons, elem_of_nil. intros Hk. cbn [parseAst]. rewrite bind_skip.
  destruct Hk as [[= -> ->]|[[= -> ->]|[]]];
    (rewrite skip_spaces_solid by reflexivity);
    (rewrite firstKeyword_skip by (apply before_apart; in_words));
    (rewrite (firstKeyword_skip [_; _; _; _; _] leaves) by (repeat constructor));
    (rewrite <- (app_nil_r leaves), firstKeyword_skip by (apply leaves_apart; in_words)); reflexivity.
Qed.

Lemma parseNaryArgs_text fuel size ts ss X :
  Forall2 text_of ts ss ->
  (List.length (list_text ss) < fuel)%nat -> (List.length (list_text ss) <= bound)%nat ->
  parseNaryArgs (parse fuel) fuel size ("("%char :: list_text ss ++ bs ")" ++ X) = Ok (ts, X).
Proof.
  intros Hts Hf Hb. unfold parseNaryArgs.
  destruct Hts as [|t s ts ss Ht Hts]; cbn [list_text] in *.
  - rewrite bind_expect by done. reflexivity.
  - rewrite bind_expect by done. pose proof Ht as (Hne & Hh & _). destruct s as [|c s]; [done|].
    destruct (capital_excludes c Hh) as [Hs Hc].
    rewrite bind_skip, skip_spaces_solid by done. erewrite bind_reads by done.
    rewrite bool_decide_eq_false_2 by exact Hc. rewrite <- app_assoc.
    by rewrite (naryLoop_text fuel size ts ss X Hts t (c :: s) fuel []) by (done || lia).
Qed.

Lemma text_binary kw mk l r sl sr :
  (kw, mk) ∈ [("AND("%string, And); ("OR("%string, Or); ("EQ("%string, Equals)] ->
  text_of l sl -> text_of r sr ->
  text_of (mk (Some l) (Some r)) (bs kw ++ sl ++ bs ", " ++ sr ++ bs ")").
Proof.
  intros Hk Hl Hr. split; [|split].
  1,2: rewrite !elem_of_cons, elem_of_nil in Hk; by destruct Hk as [[= -> ->]|[[= -> ->]|[[= -> ->]|[]]]].
  intros [|fuel] size X Hf Hb; [lia|]. rewrite <- !app_assoc, (parse_binary _ _ _ mk) by done.
  rewrite !length_app in Hf, Hb. change (List.length (bs ", ")) with 2%nat in *.
  rewrite (bind_reads _ _ size _ (l, r) X); [reflexivity|].
  apply parseBinaryArgs_text; try done; lia.
Qed.

Lemma text_nary kw mk ts ss :
  (kw, mk) ∈ [("ALLOF("%string, AllOf); ("ANYOF("%string, AnyOf)] ->
  Forall2 text_of ts ss ->
  text_of (mk ts) (bs kw ++ list_text ss ++ bs ")").
Proof.
  intros Hk Hts. split; [|split].
  1,2: rewrite !elem_of_cons, elem_of_nil in Hk; by destruct Hk as [[= -> ->]|[[= -> ->]|[]]].
  intros [|fuel] size X Hf Hb; [lia|]. rewrite <- !app_assoc, (parse_nary _ _ _ mk) by done.
  rewrite !length_app in Hf, Hb. change (List.length (bs ")")) with 1%nat in *.
  rewrite (bind_reads _ _ size _ ts X); [reflexivity|].
  apply parseNaryArgs_text; try done; lia.
Qed.

Lemma tree_text tree :
  complete leaf_ok tree -> exists s, appendAst appendLeaf tree = Ok s /\ text_of tree s.
Proof.
  induction tree as [|l r IHl IHr|l r IHl IHr|l r IHl IHr| | |ts IH|ts IH|l] using Ast_nested_ind;
    cbn [complete appendAst]; [done|..|apply leaf_text].
  1-3: destruct l as [l|], r as [r|]; try done; cbn [on_child] in *; intros [Hl Hr];
    destruct (IHl Hl) as (sl & -> & Tl), (IHr Hr) as (sr & -> & Tr); cbn [mbind res_bind];
    eexists; split; [done|];
    first [exact (text_binary "EQ(" Equals l r sl sr ltac:(in_words) Tl Tr)
          |exact (text_binary "AND(" And l r sl sr ltac:(in_words) Tl Tr)
          |exact (text_binary "OR(" Or l r sl sr ltac:(in_words) Tl Tr)].
  1,2: intros _; eexists; split; [done|]; split; [done|]; split; [done|];
    intros [|fuel] size X Hf _; [cbn in Hf; lia|]; apply parse_constant; in_words.
  1,2: intros Hts; (assert (Hss : exists ss, Forall2 (fun t s => appendAst appendLeaf t = Ok s) ts ss
      /\ Forall2 text_of ts ss) by
    (clear -IH Hts; induction IH as [|t ts Ht _ IHts]; [by exists []|];
     destruct Hts as [H1 H2]; destruct (Ht H1) as (s & Hs & Ts), (IHts H2) as (ss & Hss & Tss);
     exists (s :: ss); split; by constructor));
    destruct Hss as (ss & Hss & Tss).
  1: exists (bs "ALLOF(" ++ list_text ss ++ bs ")"); (split; [|apply (text_nary "ALLOF(" AllOf ts ss); [in_words|done]]).
  2: exists (bs "ANYOF(" ++ list_text ss ++ bs ")"); (split; [|apply (text_nary "ANYOF(" AnyOf ts ss); [in_words|done]]).
  1,2: destruct Hss as [|t s ts ss Ht Hss]; [done|]; cbn [appendNary]; rewrite Ht; cbn [mbind res_bind];
    rewrite (appendMore_text _ _ Hss); cbn [mbind res_bind list_text]; by rewrite <- !app_assoc.
Qed.
End PrintParse.

(** ** The three tree languages *)

Definition uuid_ok (u : option bytes) : Prop := match u with Some b => size_of b = 16 | None => False end.

Definition end_leaf_ok (leaf : EndLeaf) : Prop :=
  match leaf with
  | TypeEquals u | SignerEquals u => uuid_ok u
  | ValueEquals _ => True
  end.

Definition mes_leaf_ok (leaf : MesLeaf) : Prop :=
  match leaf with
  | FieldEquals path value => path_ok path /\ value_ok value
  | FieldExists path => path_ok path
  | FieldContains path sub_path value => path_ok path /\ path_ok sub_path /\ value_ok value
  end.

Definition erd_leaf_ok (leaf : ErdLeaf) : Prop :=
  match leaf with
  | EndorsementNode (Some t) => complete end_leaf_ok t
  | MessageNode (Some t) => complete mes_leaf_ok t
  | _ => False
  end.

Lemma predicate_reads {A B} (arg : Parser A) (mk : A -> B) size s a X :
  head_is (fun c => negb (is_space c)) s ->
  arg size (s ++ ")"%char :: X) = Ok (a, ")"%char :: X) ->
  predicate arg mk size (s ++ bs ")" ++ X) = Ok (mk a, X).
Proof.
  intros Hs Ha. unfold predicate. change (bs ")") with [")"%char]. cbn [app].
  rewrite bind_skip, skip_spaces_solid by (by destruct s).
  rewrite (bind_reads arg _ size _ _ _ Ha), bind_skip, skip_spaces_solid by done.
  by rewrite bind_expect by done.
Qed.

(** The printed value of an endorsement predicate is read by [parseHexBytes]. *)
Lemma hex_reads size v X :
  head_is (fun c => negb (is_space c)) (bytesToHex v)
  /\ parseHexBytes size (bytesToHex v ++ ")"%char :: X) = Ok (v, ")"%char :: X).
Proof.
  split; [|unfold parseHexBytes; by rewrite parseHexLoop_bytes].
  destruct v as [|c v]; [done|]. rewrite bytesToHex_cons. cbn.
  assert (Hc : negb (is_space (hex_char (Z.shiftr (byte_val c) 4))) = true) by (by_all_chars c). done.
Qed.

Lemma end_leaf_text bound l :
  end_leaf_ok l ->
  exists s, appendEndLeaf l = Ok s
    /\ text_of [] (endLeaves Leaf) "unexpected token in endorsement sub-tree at position " bound (Leaf l) s.
Proof.
  destruct l as [[u|]|v|[u|]]; cbn [end_leaf_ok uuid_ok appendEndLeaf from_option id]; intros Hu; try done.
  1,3: destruct (parse_printed_uuid u Hu) as (t & -> & Hh & Hp); cbn [mbind res_bind]; eexists;
    split; [done|]; split; [done|]; split; [done|]; intros [|fuel] size X Hf _; [cbn in Hf; lia|];
    rewrite <- !app_assoc;
    first [exact (predicate_reads parseUUIDBytes (fun u => Leaf (TypeEquals (Some u))) size t u X Hh (Hp _ _))
          |exact (predicate_reads parseUUIDBytes (fun u => Leaf (SignerEquals (Some u))) size t u X Hh (Hp _ _))].
  eexists; split; [done|]; split; [done|]; split; [done|]. intros [|fuel] size X Hf _; [cbn in Hf; lia|].
  rewrite <- !app_assoc. destruct (hex_reads size v X) as [Hh Hp].
  exact (predicate_reads parseHexBytes (fun v => Leaf (ValueEquals v)) size _ v X Hh Hp).
Qed.

Lemma end_tree_text bound tree :
  complete end_leaf_ok tree ->
  exists s, appendEndTree tree = Ok s
    /\ text_of [] (endLeaves Leaf) "unexpected token in endorsement sub-tree at position " bound tree s.
Proof.
  apply (tree_text appendEndLeaf end_leaf_ok).
  - intros; constructor.
  - unfold constant_words. intros kw X. rewrite !elem_of_cons, elem_of_nil.
    intros [->|[->|[]]]; repeat constructor.
  - intros l. apply end_leaf_text.
Qed.

(** The text after a path that is not the last argument. *)
Lemma path_then_comma size path X :
  path_ok (Some path) -> parseFieldPath size (appendFieldPath (Some path) ++ bs ", " ++ X)
                         = Ok (path, ","%char :: " "%char :: X).
Proof. intros Hp. by destruct (parse_printed_path size path (bs ", " ++ X) Hp). Qed.

Lemma parseFieldPath_space size rest :
  parseFieldPath size (" "%char :: rest) = parseFieldPath size rest.
Proof. unfold parseFieldPath. by rewrite !bind_skip, skip_space_char. Qed.

Lemma parseFieldValue_space size rest :
  parseFieldValue size (" "%char :: rest) = parseFieldValue size rest.
Proof. unfold parseFieldValue. by rewrite !bind_skip, skip_space_char. Qed.

Lemma fieldEq_reads size path value X :
  path_ok (Some path) -> value_ok (Some value) ->
  parseFieldEq size (appendFieldPath (Some path) ++ bs ", " ++ appendFieldValue (Some value) ++ bs ")" ++ X)
  = Ok (Leaf (FieldEquals (Some path) (Some value)), X).
Proof.
  intros Hp Hv. unfold parseFieldEq. rewrite (bind_reads _ _ size _ _ _ (path_then_comma _ _ _ Hp)).
  rewrite bind_skip, skip_spaces_solid, bind_expect by done.
  erewrite bind_reads by (rewrite parseFieldValue_space; by apply parse_printed_value).
  rewrite bind_skip, skip_spaces_solid, bind_expect by done. done.
Qed.

Lemma fieldExists_reads size path X :
  path_ok (Some path) ->
  parseFieldExists size (appendFieldPath (Some path) ++ bs ")" ++ X) = Ok (Leaf (FieldExists (Some path)), X).
Proof.
  intros Hp. unfold parseFieldExists. destruct (parse_printed_path size path (bs ")" ++ X) Hp) as [Hr _]; try done.
  rewrite (bind_reads _ _ size _ _ _ Hr), bind_skip, skip_spaces_solid by done.
  by rewrite (bind_expect _ ")"%char size X) by done.
Qed.

Lemma fieldContains_reads size path sub value X :
  path_ok (Some path) -> path_ok (Some sub) -> value_ok (Some value) ->
  parseFieldContains size (appendFieldPath (Some path) ++ bs ", " ++ appendFieldPath (Some sub)
    ++ bs ", " ++ appendFieldValue (Some value) ++ bs ")" ++ X)
  = Ok (Leaf (FieldContains (Some path) (Some sub) (Some value)), X).
Proof.
  intros Hp Hs Hv. unfold parseFieldContains. rewrite (bind_reads _ _ size _ _ _ (path_then_comma _ _ _ Hp)).
  rewrite bind_skip, skip_spaces_solid, bind_expect by done.
  erewrite bind_reads by (rewrite parseFieldPath_space; by apply path_then_comma).
  rewrite bind_skip, skip_spaces_solid, bind_expect by done.
  erewrite bind_reads by (rewrite parseFieldValue_space; by apply parse_printed_value).
  rewrite bind_skip, skip_spaces_solid, bind_expect by done. done.
Qed.

Lemma mes_leaf_text bound l :
  mes_leaf_ok l ->
  exists s, appendMesLeaf l = Ok s
    /\ text_of [] mesLeaves "unexpected token in message sub-tree at position " bound (Leaf l) s.
Proof.
  destruct l as [[path|] [value|]|[path|]|[path|] [sub|] [value|]]; cbn [mes_leaf_ok]; intros Hok;
    try (by destruct Hok); try (by destruct Hok as (? & ? & ?));
    eexists; (split; [done|]); (split; [done|]); (split; [done|]);
    intros [|fuel] size X Hf _; try (cbn in Hf; lia); rewrite <- !app_assoc.
  - destruct Hok as [Hp Hv]. exact (fieldEq_reads size path value X Hp Hv).
  - exact (fieldExists_reads size path X Hok).
  - destruct Hok as (Hp & Hs & Hv). exact (fieldContains_reads size path sub value X Hp Hs Hv).
Qed.

Lemma mes_tree_text bound tree :
  complete mes_leaf_ok tree ->
  exists s, appendMessageTree tree = Ok s
    /\ text_of [] mesLeaves "unexpected token in message sub-tree at position " bound tree s.
Proof.
  apply (tree_text appendMesLeaf mes_leaf_ok).
  - intros; constructor.
  - unfold constant_words. intros kw X. rewrite !elem_of_cons, elem_of_nil.
    intros [->|[->|[]]]; repeat constructor.
  - intros l. apply mes_leaf_text.
Qed.

Lemma capital_head_solid s : head_is (in_range "A" "Z") s -> head_is (fun c => negb (is_space c)) s.
Proof. destruct s as [|c s]; [done|]. cbn. intros Hc. by apply capital_excludes. Qed.

Lemma erd_leaf_text resolver n l :
  erd_leaf_ok l ->
  exists s, appendErdLeaf l = Ok s
    /\ text_of (erdBefore resolver) (erdLeaves n) "unexpected token in ERD text at position " n (Leaf l) s.
Proof.
  destruct l as [[t|]|[t|]]; cbn [erd_leaf_ok appendErdLeaf]; intros Hok; try done.
  - destruct (end_tree_text n t Hok) as (s & -> & Hne & Hh & Hp). cbn [mbind res_bind]. eexists; split; [done|].
    split; [done|]. split; [done|]. intros [|fuel] size X Hf Hb; [cbn in Hf; lia|]. rewrite <- !app_assoc.
    rewrite !length_app in Hb. change (List.length (bs "ENDORSEMENT(")) with 12%nat in Hb.
    exact (predicate_reads (parseEndTree n) (fun t => Leaf (EndorsementNode (Some t))) size s t X
             (capital_head_solid _ Hh) (Hp n size (")"%char :: X) ltac:(lia) ltac:(lia))).
  - destruct (mes_tree_text n t Hok) as (s & -> & Hne & Hh & Hp). cbn [mbind res_bind]. eexists; split; [done|].
    split; [done|]. split; [done|]. intros [|fuel] size X Hf Hb; [cbn in Hf; lia|]. rewrite <- !app_assoc.
    rewrite !length_app in Hb. change (List.length (bs "MESSAGE(")) with 8%nat in Hb.
    exact (predicate_reads (parseMessageTree n) (fun t => Leaf (MessageNode (Some t))) size s t X
             (capital_head_solid _ Hh) (Hp n size (")"%char :: X) ltac:(lia) ltac:(lia))).
Qed.

Lemma erd_tree_text resolver n tree :
  complete erd_leaf_ok tree ->
  exists s, appendTree tree = Ok s
    /\ text_of (erdBefore resolver) (erdLeaves n) "unexpected token in ERD text at position " n tree s.
Proof.
  apply (tree_text appendErdLeaf erd_leaf_ok).
  - unfold connective_words, constant_words. intros kw X. cbn [app]. rewrite !elem_of_cons, elem_of_nil.
    intros [->|[->|[->|[->|[->|[->|[->|[]]]]]]]]; repeat constructor.
  - unfold constant_words. intros kw X. rewrite !elem_of_cons, elem_of_nil.
    intros [->|[->|[]]]; repeat constructor.
  - intros l. apply erd_leaf_text.
Qed.

Lemma parse_printed resolver tree :
  complete erd_leaf_ok tree ->
  exists s, toString tree = Ok s /\ fromString resolver s = Ok tree.
Proof.
  intros Hp. destruct (erd_tree_text resolver 0 tree Hp) as (s & Hs & _).
  destruct (erd_tree_text resolver (S (List.length s)) tree Hp) as (s' & Hs' & Hne & Hh & Hparse).
  rewrite Hs in Hs'. injection Hs' as <-. exists s. split.
  { unfold toString. by destruct tree. }
  unfold fromString. rewrite skip_spaces_solid by (by apply capital_head_solid).
  specialize (Hparse (S (List.length s)) (size_of s) [] ltac:(lia) ltac:(lia)).
  rewrite app_nil_r in Hparse. destruct s as [|c s]; [done|].
  unfold parseTree. by rewrite Hparse.
Qed.

(** C32.  Printing and parsing are inverse: every requirement whose operands are
    all present, whose UUIDs have 16 bytes, whose paths and string literals
    avoid the delimiters and whose integers avoid the smallest [int64_t] is
    printed, and the text parses back to the same tree, with any resolver. *)
Theorem fromString_toString resolver tree :
  complete erd_leaf_ok tree ->
  exists s, toString tree = Ok s /\ fromString resolver s = Ok tree.
Proof. apply parse_printed. Qed.

(** ** Termination and errors *)

(** The outcomes a parser step may have when [len] characters remain: it leaves
    at most [len - k] of them, throws a [std::runtime_error], or meets an
    undefined operation on a literal. *)
Definition ends {A} (k len : nat) (r : Res (A * bytes)) : Prop :=
  match r with
  | Ok (_, rest) => (k + List.length rest <= len)%nat
  | Throw (RuntimeError _) | Undefined => True
  | _ => False
  end.

(** The step ends so on every text of fewer than [n] characters. *)
Definition safe {A} (k n : nat) (m : Parser A) : Prop :=
  forall size rest, (List.length rest < n)%nat -> ends k (List.length rest) (m size rest).

Lemma safe_weaken {A} k n n' (m : Parser A) : (n' <= n)%nat -> safe k n m -> safe k n' m.
Proof. intros Hn Hm size rest Hr. apply Hm. lia. Qed.

Lemma safe_strict {A} n (m : Parser A) : safe 1 n m -> safe 0 n m.
Proof.
  intros Hm size rest Hr. specialize (Hm size rest Hr). unfold ends in *.
  destruct (m size rest) as [[a r]|[]| |]; try done. lia.
Qed.

Lemma safe_bind {A B} k n (m : Parser A) (f : A -> Parser B) :
  safe 0 n m -> (forall a, safe k n (f a)) -> safe k n (m ≫= f).
Proof.
  intros Hm Hf size rest Hr. specialize (Hm size rest Hr). unfold mbind, parser_bind, ends in *.
  destruct (m size rest) as [[a r]|[]| |]; try done.
  specialize (Hf a size r ltac:(lia)). unfold ends in Hf.
  destruct (f a size r) as [[b r']|[]| |]; try done. lia.
Qed.

Lemma safe_bind_strict {A B} n (m : Parser A) (f : A -> Parser B) :
  safe 1 (S n) m -> (forall a, safe 0 n (f a)) -> safe 1 (S n) (m ≫= f).
Proof.
  intros Hm Hf size rest Hr. specialize (Hm size rest Hr). unfold mbind, parser_bind, ends in *.
  destruct (m size rest) as [[a r]|[]| |]; try done.
  specialize (Hf a size r ltac:(lia)). unfold ends in Hf.
  destruct (f a size r) as [[b r']|[]| |]; try done. lia.
Qed.

Lemma safe_ret {A} n (a : A) : safe 0 n (mret a).
Proof. intros size rest Hr. cbn. lia. Qed.

Lemma safe_fail {A} k n w : safe (A := A) k n (fail_at w).
Proof. intros size rest Hr. done. Qed.

Lemma skip_spaces_length rest : (List.length (skip_spaces rest) <= List.length rest)%nat.
Proof. induction rest as [|c rest IH]; [done|]. cbn. destruct (is_space c); cbn; lia. Qed.

Lemma safe_skip n : safe 0 n skipWhitespace.
Proof. intros size rest Hr. cbn. apply skip_spaces_length. Qed.

Lemma safe_peek n : safe 0 n peek.
Proof. intros size rest Hr. cbn. lia. Qed.

Lemma safe_startsWith n w : safe 0 n (startsWith w).
Proof. intros size rest Hr. cbn. lia. Qed.

Lemma safe_advance n m : safe 0 n (advance m).
Proof. intros size rest Hr. cbn. rewrite length_drop. lia. Qed.

(** [expect] reads a character, since it is never asked for NUL. *)
Lemma safe_expect n c : c <> "000"%char -> safe 1 n (expect c).
Proof.
  intros Hc size rest Hr. unfold expect. rewrite bind_skip. pose proof (skip_spaces_length rest).
  unfold mbind, parser_bind, peek. case_bool_decide as Hp; [|done]. unfold advance, ends.
  destruct (skip_spaces rest) as [|d rest']; [by subst|]. rewrite length_drop. cbn [List.length] in *. lia.
Qed.

#[export] Hint Resolve safe_ret safe_fail safe_skip safe_peek safe_startsWith safe_advance : rsp.

(** A result that is a value or a [std::runtime_error]. *)
Definition plain {A} (r : Res A) : Prop :=
  match r with Ok _ | Throw (RuntimeError _) => True | _ => False end.

Lemma decodePairs_plain n l : (List.length l <= n)%nat -> plain (decodePairs l).
Proof.
  revert l. induction n as [|n IH]; intros [|c [|d l]] Hl; cbn in Hl; try done; [lia|].
  cbn [decodePairs]. unfold hexVal. destruct (hex_val c), (hex_val d); try done. cbn [mbind res_bind].
  specialize (IH l ltac:(lia)). by destruct (decodePairs l) as [|[]| |].
Qed.

Lemma safe_uuid n : safe 0 n parseUUIDBytes.
Proof.
  intros size rest Hr. unfold parseUUIDBytes. destruct (isUUID rest); [|done].
  unfold uuidToBytes. destruct (negb _); [done|]. set (l := filter _ _).
  pose proof (decodePairs_plain _ l (le_n _)) as Hp.
  destruct (decodePairs l) as [|[]| |]; try done. cbn. rewrite length_drop. lia.
Qed.

Lemma parseHexLoop_ends n size acc rest :
  (List.length rest <= n)%nat -> ends 0 (List.length rest) (parseHexLoop size acc rest).
Proof.
  revert acc rest. induction n as [|n IH]; intros acc [|c [|d rest]] Hr; cbn [List.length] in Hr; try lia;
    try (cbn; lia); cbn [parseHexLoop].
  - destruct (isHexChar c); [done|]. cbn. lia.
  - destruct (isHexChar c); [|cbn; lia]. destruct (isHexChar d); [|done].
    unfold hexValue. destruct (hex_val c), (hex_val d); cbn [mret parser_ret]; try done.
    specialize (IH (acc ++ [joinNibbles z z0]) rest ltac:(lia)).
    unfold ends in *. destruct (parseHexLoop _ _ rest) as [[a r]|[]| |]; try done. cbn [List.length]. lia.
Qed.

Lemma safe_hex n : safe 0 n parseHexBytes.
Proof. intros size rest Hr. by apply (parseHexLoop_ends (List.length rest)). Qed.

Lemma pathLoop_ends size rest path seg :
  match pathLoop size rest path seg with
  | Ok (_, _, rest') => (List.length rest' <= List.length rest)%nat
  | r => plain r
  end.
Proof.
  revert path seg. induction rest as [|c rest IH]; intros path seg; cbn [pathLoop]; [lia|].
  case_bool_decide; [case_bool_decide; [done|]|destruct (path_end c); [lia|]].
  - specialize (IH (path ++ [seg]) []). destruct (pathLoop _ _ _ _) as [[[] ?]|[]| |]; cbn in *; try done. lia.
  - specialize (IH path (seg ++ [c])). destruct (pathLoop _ _ _ _) as [[[] ?]|[]| |]; cbn in *; try done. lia.
Qed.

Lemma safe_path n : safe 0 n parseFieldPath.
Proof.
  apply safe_bind; [auto with rsp|]. intros _ size rest Hr. unfold step.
  pose proof (pathLoop_ends size rest [] []) as Hp.
  destruct (pathLoop size rest [] []) as [[[path seg] r]|[]| |]; try done.
  by destruct (if bool_decide _ then _ else _).
Qed.

Lemma digitsU64_length n rest : (List.length (digitsU64 n rest).2 <= List.length rest)%nat.
Proof.
  revert n. induction rest as [|c rest IH]; intros n; cbn [digitsU64]; [cbn; lia|].
  destruct (is_digit c); [|cbn; lia]. specialize (IH (wrap 64 (n * 10 + digit_val c))). cbn [List.length]. lia.
Qed.

Lemma digitsI64_ends n rest : ends 0 (List.length rest) (digitsI64 n rest).
Proof.
  revert n. induction rest as [|c rest IH]; intros n; cbn [digitsI64]; [cbn; lia|].
  destruct (is_digit c); [|cbn; lia]. destruct (_ <? _); [|done].
  specialize (IH (n * 10 + digit_val c)). unfold ends in *.
  destruct (digitsI64 _ rest) as [[]|[]| |]; try done. cbn [List.length]. lia.
Qed.

Lemma safe_sign n : safe 0 n parseSign.
Proof. intros size [|c rest] Hr; [cbn; lia|]. cbn. case_bool_decide; cbn; lia. Qed.

Lemma safe_enum n : safe 0 n parseEnumValue.
Proof.
  apply safe_bind; [auto with rsp|]. intros _. apply safe_bind; [apply safe_sign|]. intros neg.
  apply safe_bind; [intros size rest Hr; apply digitsI64_ends|]. intros v.
  apply safe_bind; [auto with rsp|]. intros _. apply safe_bind; [by apply safe_strict, safe_expect|].
  auto with rsp.
Qed.

Lemma safe_number n : safe 0 n parseNumber.
Proof.
  intros size rest Hr. unfold parseNumber. pose proof (safe_sign n size rest Hr) as Hs.
  destruct (parseSign size rest) as [[neg r]|[]| |]; try done. cbn in Hs. destruct (is_digit _); [|done].
  pose proof (digitsU64_length 0 r) as Hl. destruct (digitsU64 0 r) as [v r2]. cbn in Hl.
  destruct (negb neg && _); [cbn; rewrite length_drop; lia|].
  destruct neg; [|cbn; lia]. unfold negate_i64. destruct (_ =? _); [done|]. cbn. lia.
Qed.

Lemma safe_word n w k : safe 0 n (starts_word w k).
Proof.
  intros size rest Hr. unfold starts_word, not_alnum_at, isalnum_char.
  destruct (starts_with_ci _ rest); [|cbn; lia]. destruct (rest !! k) as [c|]; [|cbn; lia].
  destruct (_ && _); [done|]. cbn. lia.
Qed.

Lemma stringLoop_length acc rest s r :
  stringLoop acc rest = Some (s, r) -> (List.length r <= List.length rest)%nat.
Proof.
  revert acc. induction rest as [|c rest IH]; intros acc; cbn [stringLoop]; [done|].
  case_bool_decide; [intros [= <- <-]; cbn; lia|]. intros Hs. apply IH in Hs. cbn. lia.
Qed.

#[export] Hint Resolve safe_uuid safe_hex safe_path safe_sign safe_enum safe_number safe_word : rsp.

Lemma safe_word_or_number n : safe 0 n parseWordOrNumber.
Proof.
  apply safe_bind; [auto with rsp|]. intros []; [apply safe_bind; auto with rsp|].
  apply safe_bind; [auto with rsp|]. intros []; [apply safe_bind; auto with rsp|].
  apply safe_bind; [auto with rsp|]. intros []; [apply safe_bind; auto with rsp|auto with rsp].
Qed.

Lemma safe_value n : safe 0 n parseFieldValue.
Proof.
  apply safe_bind; [auto with rsp|]. intros _ size rest Hr. unfold step. destruct rest as [|c rest]; [done|].
  case_bool_decide.
  { unfold parseQuoted. destruct (stringLoop [] rest) as [[s r]|] eqn:Hs; [|done].
    apply stringLoop_length in Hs. cbn. lia. }
  destruct (starts_hex (c :: rest)); [|by apply (safe_word_or_number n)].
  assert (Hsafe : safe 0 n (advance 2;; b ← parseHexBytes; mret (BytesValue b))) by
    (apply safe_bind; [auto with rsp|]; intros; apply safe_bind; auto with rsp).
  by apply Hsafe.
Qed.

#[export] Hint Resolve safe_value safe_bind safe_strict : rsp.
#[export] Hint Extern 1 (_ <> _) => discriminate : rsp.

Lemma safe_close {A} n c (a : A) :
  c <> "000"%char -> safe 1 n (skipWhitespace;; expect c;; mret a).
Proof.
  intros Hc. apply safe_bind; [auto with rsp|]. intros _. destruct n as [|n]; [intros ? ? Hr; lia|].
  apply safe_bind_strict; [by apply safe_expect|auto with rsp].
Qed.

Lemma safe_predicate {A B} n (arg : Parser A) (mk : A -> B) : safe 0 n arg -> safe 1 n (predicate arg mk).
Proof.
  intros Ha. apply safe_bind; [auto with rsp|]. intros _. apply safe_bind; [done|]. intros a.
  by apply safe_close.
Qed.

(** [skipWhitespace(); expect(c);] followed by more. *)
Lemma safe_sep {A} k n c (m : Parser A) :
  c <> "000"%char -> safe k n m -> safe k n (skipWhitespace;; expect c;; m).
Proof.
  intros Hc Hm. apply safe_bind; [auto with rsp|]. intros _.
  apply safe_bind; [by apply safe_strict, safe_expect|done].
Qed.

Lemma safe_fields n : safe 0 n parseFieldEq /\ safe 0 n parseFieldExists /\ safe 0 n parseFieldContains.
Proof.
  repeat split.
  - apply safe_bind; [auto with rsp|]. intros path. apply safe_sep; [done|].
    apply safe_bind; [auto with rsp|]. intros v. by apply safe_strict, safe_close.
  - apply safe_bind; [auto with rsp|]. intros path. by apply safe_strict, safe_close.
  - apply safe_bind; [auto with rsp|]. intros path. apply safe_sep; [done|].
    apply safe_bind; [auto with rsp|]. intros sub. apply safe_sep; [done|].
    apply safe_bind; [auto with rsp|]. intros v. by apply safe_strict, safe_close.
Qed.

(** An alternative reads at least one character before its parser runs. *)
Definition safe_alternative {A} (n : nat) (alt : string * (nat * Parser A)) : Prop :=
  bs alt.1 <> [] /\ (0 < alt.2.1)%nat /\ safe 0 n alt.2.2.

Lemma firstKeyword_safe {A} n (alts : list (string * (nat * Parser A))) otherwise :
  Forall (safe_alternative n) alts -> safe 1 (S n) otherwise -> safe 1 (S n) (firstKeyword alts otherwise).
Proof.
  intros Ha Ho. induction Ha as [|[kw [k p]] alts (Hkw & Hk & Hp) _ IH]; [done|].
  cbn [firstKeyword fst snd] in *. intros size rest Hr. unfold mbind, parser_bind, startsWith.
  destruct (starts_with (bs kw) rest) eqn:Hs; [|by apply IH].
  assert (Hne : (0 < List.length rest)%nat).
  { destruct rest; [|cbn; lia]. by destruct (bs kw). }
  unfold advance. assert (Hd : (List.length (drop k rest) + 1 <= List.length rest)%nat) by (rewrite length_drop; lia).
  specialize (Hp size (drop k rest) ltac:(lia)). unfold ends in *.
  destruct (p size (drop k rest)) as [[a r]|[]| |]; try done. lia.
Qed.

Lemma safe_constants {L} n (w : bytes) :
  safe 1 n (isTrue ← startsWithCI "TRUE";
    if (isTrue : bool) then advance 4;; mret (TrueValue (L := L))
    else isFalse ← startsWithCI "FALSE";
      if (isFalse : bool) then advance 5;; mret FalseValue else fail_at w).
Proof.
  intros size rest Hr. unfold mbind, parser_bind, startsWithCI, advance.
  destruct (starts_with_ci (bs "TRUE") rest) eqn:Ht;
    [|destruct (starts_with_ci (bs "FALSE") rest) eqn:Hf; [|done]].
  all: cbn; rewrite length_drop; destruct rest; [discriminate|cbn; lia].
Qed.

Section SafeAst.
Context {L : Type} (before leaves : list (string * (nat * Parser (Ast L)))) (unexpected : string) (bound : nat).
Hypothesis safe_before : Forall (safe_alternative bound) before.
Hypothesis safe_leaves : Forall (safe_alternative bound) leaves.

Lemma safe_binary_args n (p : Parser (Ast L)) : safe 1 n p -> safe 0 n (parseBinaryArgs p).
Proof.
  intros Hp. apply safe_bind; [by apply safe_strict, safe_expect|]. intros _.
  apply safe_bind; [by apply safe_strict|]. intros l. apply safe_sep; [done|].
  apply safe_bind; [by apply safe_strict|]. intros r. by apply safe_strict, safe_close.
Qed.

Lemma safe_nary_loop (p : Parser (Ast L)) n m terms : safe 1 m p -> (n <= m)%nat -> safe 0 n (naryLoop p n terms).
Proof.
  intros Hp. revert terms. induction n as [|n IH]; intros terms Hn; [intros ? ? Hr; lia|].
  cbn [naryLoop]. apply safe_strict, safe_bind_strict; [eapply safe_weaken; [|done]; lia|]. intros t.
  apply safe_bind; [auto with rsp|]. intros _. apply safe_bind; [auto with rsp|]. intros c.
  case_bool_decide.
  - apply safe_bind; [auto with rsp|]. intros _. apply IH. lia.
  - apply safe_bind; [by apply safe_strict, safe_expect|]. auto with rsp.
Qed.

Lemma safe_nary_args (p : Parser (Ast L)) n : safe 1 n p -> safe 0 n (parseNaryArgs p n).
Proof.
  intros Hp. apply safe_bind; [by apply safe_strict, safe_expect|]. intros _.
  apply safe_bind; [auto with rsp|]. intros _. apply safe_bind; [auto with rsp|]. intros c.
  case_bool_decide; [apply safe_bind; auto with rsp|]. by apply (safe_nary_loop p n n).
Qed.

Lemma safe_alternatives_weaken {A} n (alts : list (string * (nat * Parser A))) :
  (n <= bound)%nat -> Forall (safe_alternative bound) alts -> Forall (safe_alternative n) alts.
Proof.
  intros Hn Ha. eapply Forall_impl; [exact Ha|]. intros alt (H1 & H2 & H3). repeat split; [done..|].
  by eapply safe_weaken.
Qed.

Lemma safe_parseAst fuel :
  (fuel <= bound)%nat -> safe 1 fuel (parseAst before leaves unexpected fuel).
Proof.
  induction fuel as [|fuel IH]; intros Hb; [intros ? ? Hr; lia|]. cbn [parseAst].
  assert (Hp : safe 1 fuel (parseAst before leaves unexpected fuel)) by (apply IH; lia).
  apply safe_bind; [auto with rsp|]. intros _. apply firstKeyword_safe; [|apply safe_constants].
  repeat apply Forall_app_2; [apply safe_alternatives_weaken; [lia|done]| |apply safe_alternatives_weaken; [lia|done]].
  repeat constructor; cbn [fst snd]; try discriminate; try lia;
    (apply safe_bind; [by apply safe_binary_args || by apply safe_nary_args|auto with rsp]).
Qed.
End SafeAst.

Lemma safe_endLeaves {B} n (w : EndLeaf -> B) : Forall (safe_alternative n) (endLeaves w).
Proof.
  repeat constructor; cbn [fst snd]; try discriminate; try lia;
    apply safe_strict, safe_predicate; auto with rsp.
Qed.

Lemma safe_nodeLeaves {B} n (w : MesLeaf -> B) : Forall (safe_alternative n) (nodeLeaves w).
Proof.
  repeat constructor; cbn [fst snd]; try discriminate; try lia;
    apply safe_strict, safe_predicate; auto with rsp.
Qed.

Lemma safe_mesLeaves n : Forall (safe_alternative n) mesLeaves.
Proof.
  destruct (safe_fields n) as (H1 & H2 & H3). apply Forall_app_2; [apply safe_nodeLeaves|].
  repeat constructor; cbn [fst snd]; try discriminate; try lia; done.
Qed.

Lemma safe_erdLeaves n : Forall (safe_alternative n) (erdLeaves n).
Proof.
  constructor; [|apply Forall_app_2; [apply safe_endLeaves|constructor; [|apply safe_nodeLeaves]]].
  all: split; [discriminate|]; split; [cbn; lia|]; cbn [fst snd]; apply safe_strict, safe_predicate, safe_strict.
  - apply (safe_parseAst _ _ _ n); [constructor|apply safe_endLeaves|lia].
  - apply (safe_parseAst _ _ _ n); [constructor|apply safe_mesLeaves|lia].
Qed.

(** A resolver that itself returns or throws a [std::runtime_error]. *)
Definition resolver_plain (resolver : option VariableResolver) : Prop :=
  match resolver with Some f => forall name, plain (f name) | None => True end.

Lemma until_brace_length rest name after :
  until_brace rest = Some (name, after) -> (List.length after <= List.length rest)%nat.
Proof.
  revert name. induction rest as [|c rest IH]; intros name; cbn [until_brace]; [done|].
  case_bool_decide; [intros [= <- <-]; cbn; lia|].
  destruct (until_brace rest) as [[nm aft]|]; [|done]. cbn. intros [= <- <-].
  specialize (IH _ eq_refl). lia.
Qed.

Lemma safe_variable resolver n : resolver_plain resolver -> safe 0 n (parseVariable resolver).
Proof.
  intros Hres size rest Hr. unfold parseVariable. destruct (until_brace rest) as [[name after]|] eqn:Hu; [|done].
  apply until_brace_length in Hu. case_bool_decide; [done|]. destruct (negb _); [done|].
  destruct resolver as [f|]; [|done]. specialize (Hres name). cbn in Hres.
  destruct (f name) as [[t|]|[]| |]; try done.
Qed.

Lemma fromString_ends resolver text :
  resolver_plain resolver ->
  (exists tree, fromString resolver text = Ok tree)
  \/ (exists what, fromString resolver text = Throw (RuntimeError what))
  \/ fromString resolver text = Undefined.
Proof.
  intros Hres. unfold fromString. pose proof (skip_spaces_length text) as Hl.
  destruct (skip_spaces text) as [|c rest]; [by eauto|].
  assert (Hsafe : safe 1 (S (List.length text)) (parseTree resolver (S (List.length text)))).
  { apply (safe_parseAst _ _ _ (S (List.length text))); [|apply safe_erdLeaves|lia].
    apply Forall_singleton. split; [discriminate|]. split; [cbn; lia|by apply safe_variable]. }
  specialize (Hsafe (size_of text) (c :: rest) ltac:(lia)). unfold ends in Hsafe.
  destruct (parseTree _ _ _ _) as [[t r]|[]| |]; try done; [|by eauto..].
  destruct (skip_spaces r); by eauto.
Qed.

(** [fromString] ends on every text, within the fuel it is given: it
    returns a tree, throws [std::runtime_error] as its interface says, or meets
    an undefined operation in a literal; the parser itself cannot run forever
    and lets no other exception out. *)
Theorem fromString_total resolver text :
  resolver_plain resolver ->
  (exists tree, fromString resolver text = Ok tree)
  \/ (exists what, fromString resolver text = Throw (RuntimeError what))
  \/ fromString resolver text = Undefined.
Proof. apply fromString_ends. Qed.

(** ** Witnesses and a finding *)

Definition sample_tree : ERDAbstractSyntaxTree :=
  AllOf [Leaf (EndorsementNode (Some (Leaf (TypeEquals (Some (bs "0123456789abcdef"))))));
         And (Some TrueValue) (Some (AnyOf []));
         Leaf (MessageNode (Some (Or
           (Some (Leaf (FieldEquals (Some [bs "a"; bs "b"]) (Some (IntValue (-42))))))
           (Some (Leaf (FieldContains (Some [bs "c"]) (Some [bs "d"]) (Some (StringValue (bs "x, y"))))))))) ].

Lemma fromString_toString_witness :
  exists s, toString sample_tree = Ok s /\ fromString None s = Ok sample_tree.
Proof.
  apply (fromString_toString None sample_tree).
  repeat (split || constructor); cbn; try done; try discriminate; try lia.
Defined.

Lemma fromString_total_witness :
  exists what, fromString None (bs "AND(TRUE FALSE)") = Throw (RuntimeError what).
Proof.
  destruct (fromString_total None (bs "AND(TRUE FALSE)") I) as [[t H]|[[w H]|H]].
  - exfalso. vm_compute in H. discriminate H.
  - exists w. exact H.
  - exfalso. vm_compute in H. discriminate H.
Defined.

(** A rule that compares the field [a] with a literal. *)
Definition literal_rule (v : ERDASTFieldValue) : ERDAbstractSyntaxTree :=
  Leaf (MessageNode (Some (Leaf (FieldEquals (Some [bs "a"]) (Some v))))).

(** Finding.  Two literals that [toString] prints do not survive
    [fromString]: parsing the text of the smallest [int64_t] negates it, which
    overflows, and a string that contains a double quote is printed without an
    escape and rejected by the parser. *)
Theorem literals_that_do_not_round_trip :
  (exists s, toString (literal_rule (IntValue (- 2 ^ 63))) = Ok s /\ fromString None s = Undefined)
  /\ (exists s, toString (literal_rule (StringValue [quote])) = Ok s
        /\ fromString None s = Throw (RuntimeError (bs "expected ')' in ERD text at position 22"))).
Proof. split; eexists; split; [vm_compute; reflexivity..]. Qed.
