(* ===== verification/MessageHash.v ===== *)
(** * common/message_queue/mq_signing.cpp: the canonical message hash

    [MessageHasher] feeds SHA-256 with a stream of bytes; every hash function of
    the source is modelled by the bytes it feeds, in order, and
    [computeMessageHash] digests the stream of a whole message.  The messages
    hashed by reflection are given as lists of fields with their numbers in
    messages.proto. *)

From S2P Require Import Prelude Proto KeyPair.

(** ** The feeding primitives *)
Definition feedUint8 (value : Z) : bytes := [byte_of value].
Definition feedUint32 (value : Z) : bytes := be_bytes 4 value.
Definition feedInt32 (value : Z) : bytes := feedUint32 (wrap 32 value).
Definition feedUint64 (value : Z) : bytes := be_bytes 8 value.
Definition feedBool (value : bool) : bytes := feedUint8 (if value then 1 else 0).
Definition feedBytes (value : bytes) : bytes := feedUint32 (wrap 32 (size_of value)) ++ value.
Definition tag (fieldNumber : Z) : bytes := feedUint32 fieldNumber.

(** [if (message.has_x()) { hasher.tag(t); hashX(hasher, message.x()); }]. *)
Definition if_present {A} (t : Z) (hash : A -> bytes) (x : option A) : bytes :=
  match x with Some a => tag t ++ hash a | None => [] end.

(** A count followed by the elements. *)
Definition counted {A} (hash : A -> bytes) (l : list A) : bytes :=
  feedUint32 (wrap 32 (size_of l)) ++ (l ≫= hash).

(** ** Hashing by reflection *)

(** A protobuf value as reflection shows it.  A message is the list of its
    fields in declaration order: the field number, whether the field is
    repeated, and its values (one for a singular field that is set or has no
    presence, none for an absent one). *)
#[local] Set Warnings "-register-all".
Inductive DynValue :=
| DMessage (fields : list (Z * (bool * list DynValue)))
| DString (s : bytes)
| DUInt32 (v : Z)
| DInt32 (v : Z)
| DUInt64 (v : Z)
| DInt64 (v : Z)
| DBool (b : bool)
| DEnum (v : Z)
| DFloating.

(** The fields sorted by number. *)
Fixpoint insert_field (f : Z * bytes) (fields : list (Z * bytes)) : list (Z * bytes) :=
  match fields with
  | [] => [f]
  | g :: fields' => if f.1 <=? g.1 then f :: fields else g :: insert_field f fields'
  end.

Definition in_number_order (fields : list (Z * bytes)) : bytes := foldr insert_field [] fields ≫= snd.

Fixpoint hashValueReflective (value : DynValue) : bytes :=
  match value with
  | DMessage fields =>
      in_number_order
        ((fix each fs :=
            match fs with
            | [] => []
            | (number, (is_repeated, values)) :: fs' =>
                (number,
                 let contents :=
                   (fix all vs := match vs with [] => [] | v :: vs' => hashValueReflective v ++ all vs' end) values in
                 if (is_repeated : bool) then tag number ++ feedUint32 (wrap 32 (size_of values)) ++ contents
                 else match values with [] => [] | _ => tag number ++ contents end)
                :: each fs'
            end) fields)
  | DString s => feedBytes s
  | DUInt32 v => feedUint32 v
  | DInt32 v => feedInt32 v
  | DUInt64 v => feedUint64 v
  | DInt64 v => feedUint64 (wrap 64 v)
  | DBool b => feedBool b
  | DEnum v => feedUint32 (wrap 32 v)
  | DFloating => []
  end.

Abbreviation hashMessageReflective := hashValueReflective.

(** The fields of the messages of messages.proto that are hashed so. *)
Definition singular (n : Z) (v : DynValue) : Z * (bool * list DynValue) := (n, (false, [v])).
Definition optional {A} (n : Z) (f : A -> DynValue) (o : option A) : Z * (bool * list DynValue) :=
  (n, (false, match o with Some a => [f a] | None => [] end)).
Definition repeated {A} (n : Z) (f : A -> DynValue) (l : list A) : Z * (bool * list DynValue) :=
  (n, (true, f <$> l)).

(** [Uuid], [NodeId] and [DateTime]. *)
Definition dynUuid (u : bytes) : DynValue := DMessage [singular 1 (DString u)].
Definition dynNodeId (n : bytes) : DynValue := DMessage [singular 1 (DString n)].
Definition dynDateTime (t : Z) : DynValue := DMessage [singular 1 (DUInt64 t)].

Definition dynPublicKey (k : PublicKey.t) : DynValue :=
  DMessage [singular 1 (DEnum (PublicKey.algorithm k)); singular 2 (DString (PublicKey.public_key k))].

Definition dynServiceSchema (s : ServiceSchema.t) : DynValue :=
  DMessage [singular 1 (DString (ServiceSchema.proto_file_name s));
            singular 2 (DString (ServiceSchema.proto_file_descriptor_set s));
            repeated 3 DString (ServiceSchema.accepted_type_urls s);
            singular 4 (DString (ServiceSchema.schema_hash s));
            singular 5 (DUInt32 (ServiceSchema.schema_version s))].

Definition dynSchemaRequest (r : SchemaRequest.t) : DynValue :=
  DMessage [optional 1 DString (SchemaRequest.proto_file_name r);
            optional 2 DString (SchemaRequest.schema_hash r)].

Definition dynSchemaReply (schemas : list ServiceSchema.t) : DynValue :=
  DMessage [repeated 1 dynServiceSchema schemas].

Definition dynDiscoveredService (s : DiscoveredService.t) : DynValue :=
  DMessage [optional 1 dynNodeId (DiscoveredService.node_id s);
            optional 2 dynServiceSchema (DiscoveredService.schema s)].

Definition dynFieldPath (p : ERDASTFieldPath) : DynValue := DMessage [repeated 1 DString p].

(** A [oneof]: the member that is set; the others feed nothing. *)
Definition dynFieldValue (v : ERDASTFieldValue) : DynValue :=
  DMessage match v with
           | BytesValue b => [singular 1 (DString b)]
           | StringValue s => [singular 2 (DString s)]
           | IntValue z => [singular 3 (DInt64 z)]
           | UintValue z => [singular 4 (DUInt64 z)]
           | BoolValue b => [singular 5 (DBool b)]
           | EnumValue z => [singular 6 (DInt32 z)]
           | ValueNotSet => []
           end.

Definition dynMesLeaf (leaf : MesLeaf) : Z * (bool * list DynValue) :=
  match leaf with
  | FieldEquals path value =>
      singular 200 (DMessage [optional 1 dynFieldPath path; optional 2 dynFieldValue value])
  | FieldExists path => singular 201 (DMessage [optional 1 dynFieldPath path])
  | FieldContains path sub_path value =>
      singular 202 (DMessage [optional 1 dynFieldPath path; optional 2 dynFieldPath sub_path;
                              optional 3 dynFieldValue value])
  end.

Fixpoint dynLogTree (tree : LogASTMessageTree) : DynValue :=
  let operand n (o : option LogASTMessageTree) :=
    (n, (false, match o with Some t => [dynLogTree t] | None => [] end)) in
  let binary n l r := [singular n (DMessage [operand 1 l; operand 2 r])] in
  let terms ts := (fix all ts := match ts with [] => [] | t :: ts' => dynLogTree t :: all ts' end) ts in
  DMessage match tree with
           | NotSet => []
           | Equals l r => binary 1 l r
           | And l r => binary 2 l r
           | Or l r => binary 3 l r
           | TrueValue => [singular 9 (DMessage [])]
           | FalseValue => [singular 10 (DMessage [])]
           | AllOf ts => [singular 11 (DMessage [(1, (true, terms ts))])]
           | AnyOf ts => [singular 12 (DMessage [(1, (true, terms ts))])]
           | Leaf l => [dynMesLeaf l]
           end.

Definition dynLogSubscribeRequest (r : LogSubscribeRequest.t) : DynValue :=
  DMessage [singular 1 (DString (LogSubscribeRequest.payload_type_url r));
            optional 2 dynLogTree (LogSubscribeRequest.filter r);
            singular 3 (DUInt64 (LogSubscribeRequest.duration_ms r))].

Definition dynLogSubscribeReply (r : LogSubscribeReply.t) : DynValue :=
  DMessage [singular 1 (DEnum (LogSubscribeReply.status r));
            optional 2 dynUuid (LogSubscribeReply.subscription_id r);
            optional 3 dynDateTime (LogSubscribeReply.expires_at r);
            singular 4 (DString (LogSubscribeReply.message r))].

Definition dynLogUnsubscribeRequest (subscription_id : option Uuid) : DynValue :=
  DMessage [optional 1 dynUuid subscription_id].

Definition dynLogUnsubscribeReply (r : LogUnsubscribeReply.t) : DynValue :=
  DMessage [singular 1 (DEnum (LogUnsubscribeReply.status r));
            optional 2 dynUuid (LogUnsubscribeReply.subscription_id r);
            singular 3 (DString (LogUnsubscribeReply.message r))].

Definition dynAny (a : AnyMsg.t) : DynValue :=
  DMessage [singular 1 (DString (AnyMsg.type_url a)); singular 2 (DString (AnyMsg.value a))].

Definition dynLogRecord (r : LogRecord.t) : DynValue :=
  DMessage [optional 1 dynUuid (LogRecord.subscription_id r);
            optional 2 dynNodeId (LogRecord.producer_node_id r);
            optional 3 dynDateTime (LogRecord.time_created r);
            optional 4 dynAny (LogRecord.payload r)].

Definition dynAesRequest (r : AesKeyNegotiationRequest.t) : DynValue :=
  DMessage [optional 1 dynUuid (AesKeyNegotiationRequest.key_id r);
            optional 2 dynPublicKey (AesKeyNegotiationRequest.ephemeral_public_key r);
            singular 3 (DUInt64 (AesKeyNegotiationRequest.requested_lifetime_ms r));
            singular 4 (DEnum (AesKeyNegotiationRequest.algorithm r))].

Definition dynAesReply (r : AesKeyNegotiationReply.t) : DynValue :=
  DMessage [optional 1 dynUuid (AesKeyNegotiationReply.key_id r);
            optional 2 dynPublicKey (AesKeyNegotiationReply.ephemeral_public_key r);
            singular 3 (DUInt64 (AesKeyNegotiationReply.accepted_lifetime_ms r));
            singular 4 (DEnum (AesKeyNegotiationReply.algorithm r))].

Definition dynAesDrop (r : AesKeyDropNotification.t) : DynValue :=
  DMessage [optional 1 dynUuid (AesKeyDropNotification.key_id r);
            singular 2 (DString (AesKeyDropNotification.reason r))].

Definition dynAesError (r : AesKeyNegotiationError.t) : DynValue :=
  DMessage [singular 1 (DEnum (AesKeyNegotiationError.error_code r));
            optional 2 dynUuid (AesKeyNegotiationError.key_id r);
            singular 3 (DString (AesKeyNegotiationError.message r))].

Definition dynEncryptedField (f : EncryptedField.t) : DynValue :=
  DMessage [optional 1 dynFieldPath (EncryptedField.path f);
            singular 2 (DString (EncryptedField.iv f));
            singular 3 (DString (EncryptedField.ciphertext f));
            singular 4 (DString (EncryptedField.tag f));
            singular 5 (DUInt32 (EncryptedField.algorithm f))].

(** ** The hand-written hash functions *)
Definition hashNodeId (value : NodeId) : bytes := tag 1 ++ feedBytes value.
Definition hashUuid (value : Uuid) : bytes := tag 1 ++ feedBytes value.
Definition hashDateTime (milliseconds : DateTime) : bytes := tag 1 ++ feedUint64 milliseconds.

Definition hashPublicKey (k : PublicKey.t) : bytes :=
  tag 1 ++ feedUint32 (wrap 32 (PublicKey.algorithm k)) ++ tag 2 ++ feedBytes (PublicKey.public_key k).

Definition hashEndorsement (e : Endorsement.t) : bytes :=
  if_present 1 hashNodeId (Endorsement.subject e)
  ++ if_present 2 hashNodeId (Endorsement.endorsement_service e)
  ++ if_present 3 hashUuid (Endorsement.endorsement_type e)
  ++ tag 4 ++ feedBytes (Endorsement.endorsement_value e)
  ++ if_present 5 hashDateTime (Endorsement.valid_until e)
  ++ tag 99 ++ feedBytes (Endorsement.signature e).

Definition hashChallengeRequest (nonce : option Uuid) : bytes := if_present 1 hashUuid nonce.

Definition hashIdentity (i : Identity.t) : bytes :=
  if_present 1 hashUuid (Identity.nonce i)
  ++ if_present 2 hashPublicKey (Identity.public_key i)
  ++ if_present 3 hashUuid (Identity.boot_id i).

Definition hashRouteEntry (r : RouteEntry.t) : bytes :=
  if_present 1 hashNodeId (RouteEntry.node_id r)
  ++ tag 2 ++ feedUint32 (RouteEntry.hops_away r)
  ++ if_present 3 hashDateTime (RouteEntry.last_seen r).

Definition hashRouteUpdate (entries : list RouteEntry.t) : bytes := tag 2 ++ counted hashRouteEntry entries.

Definition hashError (e : Error.t) : bytes :=
  tag 1 ++ feedUint32 (wrap 32 (Error.error_code e)) ++ tag 2 ++ feedBytes (Error.message e).

Definition hashPingRequest (p : PingRequest.t) : bytes :=
  if_present 1 hashUuid (PingRequest.nonce p)
  ++ tag 2 ++ feedUint32 (PingRequest.sequence p)
  ++ if_present 3 hashDateTime (PingRequest.time_sent p).

Definition hashPingReply (p : PingReply.t) : bytes :=
  if_present 1 hashUuid (PingReply.nonce p)
  ++ tag 2 ++ feedUint32 (PingReply.sequence p)
  ++ if_present 3 hashDateTime (PingReply.time_sent p)
  ++ if_present 4 hashDateTime (PingReply.time_replied p).

Definition hashAddress (a : Address.t) : bytes :=
  tag 1 ++ feedUint32 (Address.ipv4 a) ++ tag 2 ++ feedBytes (Address.ipv6 a).

Definition hashPortRange (r : PortRange.t) : bytes :=
  tag 1 ++ feedUint32 (PortRange.start_port r) ++ tag 2 ++ feedUint32 (PortRange.end_port r).

Definition hashResourceTcpConnect (r : ResourceTCPConnect.t) : bytes :=
  if_present 1 hashNodeId (ResourceTCPConnect.node_id r)
  ++ tag 2 ++ counted hashAddress (ResourceTCPConnect.source_addresses r).

Definition hashResourceTcpListen (r : ResourceTCPListen.t) : bytes :=
  if_present 1 hashNodeId (ResourceTCPListen.node_id r)
  ++ tag 2 ++ counted hashAddress (ResourceTCPListen.listen_address r)
  ++ if_present 3 hashPortRange (ResourceTCPListen.allowed_range r).

(** The [switch] has no case for [sshd]. *)
Definition hashResourceRecord (r : ResourceRecord) : bytes :=
  match r with
  | TcpConnect c => tag 1 ++ hashResourceTcpConnect c
  | TcpListen l => tag 2 ++ hashResourceTcpListen l
  | Sshd _ => []
  | ResourceTypeNotSet => []
  end.

(** The body of the loop over the schemas. *)
Definition hashAdvertisedSchema (s : ServiceSchema.t) : bytes :=
  feedBytes (ServiceSchema.proto_file_name s) ++ feedBytes (ServiceSchema.proto_file_descriptor_set s)
  ++ counted feedBytes (ServiceSchema.accepted_type_urls s).

Definition hashResourceAdvertisement (a : ResourceAdvertisement.t) : bytes :=
  tag 1 ++ counted hashResourceRecord (ResourceAdvertisement.records a)
  ++ match ResourceAdvertisement.schemas a with
     | [] => []
     | schemas => tag 2 ++ counted hashAdvertisedSchema schemas
     end.

Definition hashResourceQuery (q : ResourceQuery.t) : bytes :=
  tag 1 ++ feedBytes (ResourceQuery.query q) ++ tag 2 ++ feedUint32 (ResourceQuery.max_records q).

Definition hashDiscoveredService (s : DiscoveredService.t) : bytes := hashMessageReflective (dynDiscoveredService s).

Definition hashResourceQueryReply (services : list DiscoveredService.t) : bytes :=
  tag 1 ++ counted hashDiscoveredService services.

Definition hashLogSubscribeRequest (r : LogSubscribeRequest.t) : bytes := hashMessageReflective (dynLogSubscribeRequest r).
Definition hashLogSubscribeReply (r : LogSubscribeReply.t) : bytes := hashMessageReflective (dynLogSubscribeReply r).
Definition hashLogUnsubscribeRequest (r : option Uuid) : bytes := hashMessageReflective (dynLogUnsubscribeRequest r).
Definition hashLogUnsubscribeReply (r : LogUnsubscribeReply.t) : bytes := hashMessageReflective (dynLogUnsubscribeReply r).
Definition hashLogRecord (r : LogRecord.t) : bytes := hashMessageReflective (dynLogRecord r).
Definition hashAesKeyNegotiationRequest (r : AesKeyNegotiationRequest.t) : bytes := hashMessageReflective (dynAesRequest r).
Definition hashAesKeyNegotiationReply (r : AesKeyNegotiationReply.t) : bytes := hashMessageReflective (dynAesReply r).
Definition hashAesKeyDropNotification (r : AesKeyDropNotification.t) : bytes := hashMessageReflective (dynAesDrop r).
Definition hashAesKeyNegotiationError (r : AesKeyNegotiationError.t) : bytes := hashMessageReflective (dynAesError r).

(** ** The parts of protobuf the hash calls

    [SerializeTree] is [SerializeToString] of a requirement tree ([None] when it
    fails); [UnpackGenerated] is the message an [Any] unpacks to when its type
    is linked into the program and the payload parses. *)
Class HashCodec := {
  SerializeTree : ERDAbstractSyntaxTree -> option bytes;
  UnpackGenerated : AnyMsg.t -> option DynValue;
}.

Section Hash.
Context `{H : HashCodec}.

Definition hashEndorsementNeeded (m : EndorsementNeeded.t) : Res bytes :=
  tree ← match EndorsementNeeded.tree m with
         | None => Ok []
         | Some t =>
             match SerializeTree t with
             | None => throw_runtime "failed to serialize endorsement requirement tree"
             | Some serializedTree => Ok (tag 2 ++ feedBytes serializedTree)
             end
         end;
  Ok (if_present 1 hashUuid (EndorsementNeeded.message_nonce m) ++ tree).

Definition hashServiceMessage (any : AnyMsg.t) : bytes :=
  feedBytes (AnyMsg.type_url any)
  ++ match UnpackGenerated any with Some inner => hashMessageReflective inner | None => [] end.

(** The members of [core_message] are tested one by one in three groups, with
    the nonce and the trace flag between them. *)
Definition hashCoreLow (core : option CoreMessage) : bytes :=
  match core with
  | Some (ChallengeRequest n) => tag 3 ++ hashChallengeRequest n
  | Some (IdentityMessage i) => tag 4 ++ hashIdentity i
  | Some (RouteUpdate es) => tag 5 ++ hashRouteUpdate es
  | Some (ErrorMessage e) => tag 6 ++ hashError e
  | Some (PingRequestMessage p) => tag 7 ++ hashPingRequest p
  | Some (PingReplyMessage p) => tag 8 ++ hashPingReply p
  | Some (ResourceAdvertisementMessage a) => tag 16 ++ hashResourceAdvertisement a
  | Some (ResourceQueryMessage q) => tag 17 ++ hashResourceQuery q
  | _ => []
  end.

Definition hashCoreMiddle (core : option CoreMessage) : Res bytes :=
  match core with
  | Some (EndorsementNeededMessage m) => b ← hashEndorsementNeeded m; Ok (tag 23 ++ b)
  | _ => Ok []
  end.

Definition hashCoreHigh (core : option CoreMessage) : bytes :=
  match core with
  | Some (SchemaRequestMessage r) => tag 25 ++ hashMessageReflective (dynSchemaRequest r)
  | Some (SchemaReply ss) => tag 26 ++ hashMessageReflective (dynSchemaReply ss)
  | Some (ResourceQueryReply ss) => tag 27 ++ hashResourceQueryReply ss
  | Some (LogSubscribeRequestMessage r) => tag 28 ++ hashLogSubscribeRequest r
  | Some (LogSubscribeReplyMessage r) => tag 29 ++ hashLogSubscribeReply r
  | Some (LogUnsubscribeRequest r) => tag 30 ++ hashLogUnsubscribeRequest r
  | Some (LogUnsubscribeReplyMessage r) => tag 31 ++ hashLogUnsubscribeReply r
  | Some (LogRecordMessage r) => tag 32 ++ hashLogRecord r
  | Some (AesKeyNegotiationRequestMessage r) => tag 33 ++ hashAesKeyNegotiationRequest r
  | Some (AesKeyNegotiationReplyMessage r) => tag 34 ++ hashAesKeyNegotiationReply r
  | Some (AesKeyDropNotificationMessage r) => tag 35 ++ hashAesKeyDropNotification r
  | Some (AesKeyNegotiationErrorMessage r) => tag 36 ++ hashAesKeyNegotiationError r
  | _ => []
  end.

Definition hashEncryptedField (f : EncryptedField.t) : bytes := hashMessageReflective (dynEncryptedField f).

Definition hashRSPMessage (m : RSPMessage.t) : Res bytes :=
  let core := RSPMessage.core_message m in
  middle ← hashCoreMiddle core;
  Ok (if_present 1 hashNodeId (RSPMessage.destination m)
      ++ if_present 2 hashNodeId (RSPMessage.source m)
      ++ hashCoreLow core
      ++ if_present 22 hashUuid (RSPMessage.nonce m)
      ++ middle
      ++ if_present 24 feedBool (RSPMessage.trace m)
      ++ hashCoreHigh core
      ++ tag 100 ++ counted hashEndorsement (RSPMessage.endorsements m)
      ++ tag 101 ++ counted hashIdentity (RSPMessage.identities m)
      ++ tag 102 ++ counted hashEncryptedField (RSPMessage.encrypted_fields m)
      ++ if_present 200 hashServiceMessage (RSPMessage.service_message m)).

Context `{C : Crypto}.

Definition computeMessageHash (m : RSPMessage.t) : Res bytes := b ← hashRSPMessage m; Ok (sha256 b).

Definition messageSignatureInput (m : RSPMessage.t) : Res bytes := computeMessageHash m.

Definition signMessage (keyPair : KeyPair) (m : RSPMessage.t) : Res SignatureBlock.t :=
  input ← messageSignatureInput m; signBlock keyPair input.

Definition verifyMessageSignature (keyPair : KeyPair) (m : RSPMessage.t)
    (signatureBlock : SignatureBlock.t) : Res bool :=
  input ← messageSignatureInput m; verifyBlock keyPair input signatureBlock.
End Hash.

(** ** Lemmas: reflective streams *)

Definition hashField (f : Z * (bool * list DynValue)) : bytes :=
  let '(number, (is_repeated, values)) := f in
  if (is_repeated : bool) then tag number ++ counted hashValueReflective values
  else match values with [] => [] | _ => tag number ++ (values ≫= hashValueReflective) end.

Fixpoint ascending (numbers : list Z) : bool :=
  match numbers with
  | a :: (b :: _) as rest => (a <? b) && ascending rest
  | _ => true
  end.

Lemma insert_ascending f fields :
  ascending (f.1 :: (fst <$> fields)) = true -> insert_field f fields = f :: fields.
Proof.
  destruct fields as [|g fields]; [done|]. cbn. intros H. apply andb_prop in H as [H _].
  destruct (Z.leb_spec f.1 g.1); [done|lia].
Qed.

Lemma sort_ascending fields :
  ascending (fst <$> fields) = true -> foldr insert_field [] fields = fields.
Proof.
  induction fields as [|f fields IH]; [done|]. intros H. cbn [foldr].
  rewrite IH; [by apply insert_ascending|]. destruct fields; [done|]. cbn in H |- *. by apply andb_prop in H as [_ H].
Qed.

Lemma hash_message_fields fields :
  hashMessageReflective (DMessage fields) = in_number_order ((fun f => (f.1, hashField f)) <$> fields).
Proof.
  cbn [hashValueReflective]. f_equal.
  induction fields as [|[n [r vs]] fs IH]; [done|]. rewrite IH. cbn [fmap list_fmap fst hashField].
  by destruct r, vs.
Qed.

(** A message whose fields are declared in number order feeds them one by one. *)
Lemma hash_declared fields :
  ascending (fst <$> fields) = true -> hashMessageReflective (DMessage fields) = fields ≫= hashField.
Proof.
  intros Ha. rewrite hash_message_fields. unfold in_number_order.
  rewrite sort_ascending.
  - clear. induction fields as [|f fs IH]; [done|]. cbn. by f_equal.
  - rewrite <- list_fmap_compose. done.
Qed.

Lemma hashField_singular n v : hashField (singular n v) = tag n ++ hashValueReflective v.
Proof. unfold singular, hashField. cbn [mbind list_bind]. by rewrite app_nil_r. Qed.

Lemma hashField_optional {A} n (f : A -> DynValue) o :
  hashField (optional n f o) = if_present n (fun a => hashValueReflective (f a)) o.
Proof.
  unfold optional, hashField. destruct o; [|done]. cbn [mbind list_bind if_present]. by rewrite app_nil_r.
Qed.

Lemma hashField_repeated {A} n (f : A -> DynValue) l :
  hashField (repeated n f l) = tag n ++ counted (fun a => hashValueReflective (f a)) l.
Proof.
  unfold repeated, hashField, counted, size_of. rewrite length_fmap. do 2 f_equal.
  induction l as [|a l IH]; [done|]. cbn. by rewrite IH.
Qed.

(** Spells out the stream of a message given by its fields. *)
Ltac stream :=
  rewrite hash_declared by reflexivity; cbn [mbind list_bind];
  rewrite ?hashField_singular, ?hashField_optional, ?hashField_repeated, ?app_nil_r.

(** ** A concrete codec, for the witnesses *)
Module ToyCodec.
Definition serialize (t : ERDAbstractSyntaxTree) : option bytes :=
  match t with TrueValue => Some (bs "T") | FalseValue => Some (bs "F") | NotSet => Some [] | _ => None end.

Definition parse (b : bytes) : option ERDAbstractSyntaxTree :=
  if bool_decide (b = bs "T") then Some TrueValue
  else if bool_decide (b = bs "F") then Some FalseValue
  else if bool_decide (b = []) then Some NotSet else None.

#[export] Instance toy_codec : HashCodec := {|
  SerializeTree := serialize;
  UnpackGenerated a :=
    if bool_decide (AnyMsg.type_url a = bs "t/known") then Some (DMessage [singular 1 (DString (AnyMsg.value a))])
    else None |}.

(** A ping with all the optional parts of a message. *)
Definition ping (sequence : Z) : RSPMessage.t :=
  RSPMessage.mk (Some (bs "destination node")) (Some (bs "the source node.")) (Some true)
    (Some (PingRequestMessage (PingRequest.mk (Some (bs "nonce")) sequence (Some 5))))
    (Some (AnyMsg.mk (bs "t/known") (bs "payload"))) (Some (bs "nonce")) None
    [] [Identity.mk None (Some (PublicKey.mk P256 (bs "pem"))) None] [].
End ToyCodec.

