(* ===== verification/HashInjective.v ===== *)
(** * The message hash covers the message

    The stream that [hashRSPMessage] feeds is unambiguous: two well-formed
    messages with the same stream agree on everything the stream carries.  The
    proof is a prefix-code argument.  [unambiguous ok K h] says that the stream
    of a value of [ok] can be split off the front of a longer stream, provided
    what follows satisfies [K]; it is composed along the hash functions, where
    [K] says which field tags may not follow. *)

From S2P Require Import Prelude Proto KeyPair MessageHash.

#[local] Arguments be_bytes : simpl never.
#[local] Arguments tag : simpl never.
#[local] Arguments feedUint32 : simpl never.
#[local] Arguments feedUint64 : simpl never.
#[local] Arguments feedBool : simpl never.
#[local] Arguments feedBytes : simpl never.
#[local] Arguments wrap : simpl never.
#[local] Arguments counted : simpl never.

(** ** Unambiguous streams *)

Definition unambiguous {A} (ok : A -> Prop) (K : bytes -> Prop) (h : A -> bytes) : Prop :=
  forall a b X Y, ok a -> ok b -> K X -> K Y -> h a ++ X = h b ++ Y -> a = b /\ X = Y.

Definition anything (X : bytes) : Prop := True.

(** What follows does not start with this field tag. *)
Definition not_tag (t : Z) (X : bytes) : Prop := forall Z, X <> tag t ++ Z.

(** Data whose size fits the 32-bit length in front of it. *)
Definition short (b : bytes) : Prop := size_of b < 2 ^ 32.

Lemma be_bytes_split n a b X Y :
  8 * Z.of_nat n <= 64 -> 0 <= a < 2 ^ (8 * Z.of_nat n) -> 0 <= b < 2 ^ (8 * Z.of_nat n) ->
  be_bytes n a ++ X = be_bytes n b ++ Y -> a = b /\ X = Y.
Proof.
  intros Hn Ha Hb H. apply app_inj_1 in H as [H ->]; [|by rewrite !length_be_bytes]. split; [|done].
  rewrite <- (be_bytes_value 64 n a), <- (be_bytes_value 64 n b) by lia. by rewrite H.
Qed.

Lemma u32_split a b X Y : is_u32 a -> is_u32 b -> feedUint32 a ++ X = feedUint32 b ++ Y -> a = b /\ X = Y.
Proof. intros Ha Hb. apply (be_bytes_split 4); [done|exact Ha|exact Hb]. Qed.

Lemma unambiguous_u32 : unambiguous is_u32 anything feedUint32.
Proof. intros a b X Y Ha Hb _ _. by apply u32_split. Qed.

Lemma unambiguous_u64 : unambiguous is_u64 anything feedUint64.
Proof. intros a b X Y Ha Hb _ _. apply (be_bytes_split 8); [done|exact Ha|exact Hb]. Qed.

Lemma wrap_u32 z : is_u32 (wrap 32 z).
Proof. unfold is_u32, wrap. apply Z.mod_pos_bound. lia. Qed.

Lemma wrap_small_u32 z : is_u32 z -> wrap 32 z = z.
Proof. intros H. apply Z.mod_small. exact H. Qed.

Lemma wrap_i32_inj a b : is_i32 a -> is_i32 b -> wrap 32 a = wrap 32 b -> a = b.
Proof.
  unfold is_i32, wrap. intros Ha Hb H.
  assert (Hd : (a - b) `mod` 2 ^ 32 = 0).
  { rewrite Zminus_mod, H, Z.sub_diag. done. }
  apply Z.mod_divide in Hd as [k Hk]; [|lia]. lia.
Qed.

Lemma wrap_i64_inj a b : is_i64 a -> is_i64 b -> wrap 64 a = wrap 64 b -> a = b.
Proof.
  unfold is_i64, wrap. intros Ha Hb H.
  assert (Hd : (a - b) `mod` 2 ^ 64 = 0).
  { rewrite Zminus_mod, H, Z.sub_diag. done. }
  apply Z.mod_divide in Hd as [k Hk]; [|lia]. lia.
Qed.

Lemma unambiguous_enum : unambiguous is_i32 anything (fun v => feedUint32 (wrap 32 v)).
Proof.
  intros a b X Y Ha Hb _ _ H. apply u32_split in H as [H ->]; [|apply wrap_u32..].
  split; [by apply wrap_i32_inj|done].
Qed.

Lemma unambiguous_i64 : unambiguous is_i64 anything (fun v => feedUint64 (wrap 64 v)).
Proof.
  intros a b X Y Ha Hb _ _ H. apply (be_bytes_split 8) in H as [H ->]; [|done|..].
  - split; [by apply wrap_i64_inj|done].
  - apply Z.mod_pos_bound. lia.
  - apply Z.mod_pos_bound. lia.
Qed.

Lemma unambiguous_bool : unambiguous (fun _ => True) anything feedBool.
Proof. intros [] [] X Y _ _ _ _; intros [=]; by subst. Qed.

Lemma unambiguous_bytes : unambiguous short anything feedBytes.
Proof.
  intros a b X Y Ha Hb _ _ H. unfold feedBytes in H. rewrite <- !app_assoc in H.
  apply u32_split in H as [Hs H]; [|apply wrap_u32..].
  unfold short, size_of in *. rewrite !wrap_small_u32 in Hs by (unfold is_u32; lia).
  apply app_inj_1 in H; [done|lia].
Qed.

Lemma tag_split t t' X Y : is_u32 t -> is_u32 t' -> tag t ++ X = tag t' ++ Y -> t = t' /\ X = Y.
Proof. apply u32_split. Qed.

Lemma not_tag_tag t t' X : is_u32 t -> is_u32 t' -> t <> t' -> not_tag t (tag t' ++ X).
Proof. intros Ht Ht' Hne Z H. by apply tag_split in H as [H _]. Qed.

Lemma not_tag_if_present {A} t t' (h : A -> bytes) o X :
  is_u32 t -> is_u32 t' -> t <> t' -> not_tag t X -> not_tag t (if_present t' h o ++ X).
Proof.
  intros Ht Ht' Hne HX. destruct o as [a|]; [|done]. cbn [if_present]. rewrite <- app_assoc.
  by apply not_tag_tag.
Qed.

Lemma not_tag_nil t : not_tag t [].
Proof. intros Z. by destruct Z. Qed.

Lemma unambiguous_if_present {A} t (ok : A -> Prop) K h :
  unambiguous ok K h -> unambiguous (on_child ok) (fun X => K X /\ not_tag t X) (if_present t h).
Proof.
  intros Hh [a|] [b|] X Y Ha Hb [HX HtX] [HY HtY]; cbn [if_present on_child] in *.
  - rewrite <- !app_assoc. intros H. apply app_inv_head in H. apply Hh in H as [-> ->]; done.
  - rewrite <- !app_assoc. intros H. by destruct (HtY (h a ++ X)).
  - rewrite <- !app_assoc. intros H. by destruct (HtX (h b ++ Y)).
  - done.
Qed.

(** Lists with a 32-bit count; an element may be followed by another one. *)
Definition all_ok {A} (ok : A -> Prop) (l : list A) : Prop := size_of l < 2 ^ 32 /\ Forall ok l.

Lemma unambiguous_counted {A} (ok : A -> Prop) K h :
  unambiguous ok K h -> (forall a X, ok a -> K X -> K (h a ++ X)) ->
  unambiguous (all_ok ok) K (counted h).
Proof.
  intros Hh Hnext l l' X Y [Hl Hok] [Hl' Hok'] HX HY H. unfold counted in H. rewrite <- !app_assoc in H.
  apply u32_split in H as [Hs H]; [|apply wrap_u32..].
  unfold size_of in *. rewrite !wrap_small_u32 in Hs by (unfold is_u32; lia). apply Nat2Z.inj in Hs.
  clear Hl Hl'. revert l' Hok' Hs H. induction Hok as [|a l Ha Hok IH]; intros l' Hok' Hs H.
  - destruct l'; [|discriminate]. done.
  - destruct l' as [|b l']; [discriminate|]. inversion Hok' as [|? ? Hb Hok'']; subst.
    cbn [mbind list_bind] in H. rewrite <- !app_assoc in H.
    assert (Hkeep : forall l0 Z, Forall ok l0 -> K Z -> K ((l0 ≫= h) ++ Z)).
    { clear -Hnext. intros l0 Z Hl0 HZ. induction Hl0 as [|c l0 Hc Hl0 IH0]; [done|].
      cbn [mbind list_bind]. rewrite <- app_assoc. by apply Hnext. }
    apply Hh in H as [-> H]; [|done|done|by apply Hkeep|by apply Hkeep].
    apply IH in H as [-> ->]; [done|done|by injection Hs].
Qed.

Lemma anything_intro X : anything X.
Proof. exact I. Qed.

(** The side conditions of the composition: constants below 2^32, and what may
    follow. *)
#[export] Hint Resolve anything_intro not_tag_nil unambiguous_u32 unambiguous_u64 unambiguous_enum
  unambiguous_i64 unambiguous_bool unambiguous_bytes unambiguous_if_present : rsp.
#[export] Hint Extern 2 (is_u32 _) => (unfold is_u32; lia) : rsp.
#[export] Hint Extern 1 (not_tag _ (tag _ ++ _)) => (apply not_tag_tag; [unfold is_u32; lia..|lia]) : rsp.
#[export] Hint Extern 1 (not_tag _ (if_present _ _ _ ++ _)) =>
  (apply not_tag_if_present; [unfold is_u32; lia..|lia|]) : rsp.

(** Splits the first component off an equation between two streams. *)
Ltac drop_tag H := apply app_inv_head in H.
Ltac peel H L :=
  let E := fresh "E" in
  apply L in H as [E H]; [|auto with rsp..].
(** Two streams that start with different tags. *)
Ltac other_tag H :=
  exfalso; apply tag_split in H as [H _]; [discriminate H|unfold is_u32; lia..].
(** A hypothesis that is [False]. *)
Ltac impossible H := lazymatch type of H with False => destruct H end.
Ltac flatten H := rewrite <- ?app_assoc in H.

(** ** The leaves *)
Lemma unambiguous_tagged {A} t (ok : A -> Prop) K h :
  unambiguous ok K h -> unambiguous ok K (fun a => tag t ++ h a).
Proof.
  intros Hh a b X Y Ha Hb HX HY H. rewrite <- !app_assoc in H. apply app_inv_head in H. by apply Hh.
Qed.

Lemma unambiguous_hashUuid : unambiguous short anything hashUuid.
Proof. exact (unambiguous_tagged 1 _ _ _ unambiguous_bytes). Qed.

Lemma unambiguous_hashNodeId : unambiguous short anything hashNodeId.
Proof. exact (unambiguous_tagged 1 _ _ _ unambiguous_bytes). Qed.

Lemma unambiguous_hashDateTime : unambiguous is_u64 anything hashDateTime.
Proof. exact (unambiguous_tagged 1 _ _ _ unambiguous_u64). Qed.

#[export] Hint Resolve unambiguous_hashUuid unambiguous_hashNodeId unambiguous_hashDateTime : rsp.

(** ** The records *)
Ltac peel_opt t H U := peel H (unambiguous_if_present t _ _ _ U).

(** Destructs a well-formedness hypothesis into its parts. *)
Ltac split_ok := repeat match goal with H : _ /\ _ |- _ => destruct H end.

Definition PublicKey_ok (k : PublicKey.t) : Prop :=
  is_i32 (PublicKey.algorithm k) /\ short (PublicKey.public_key k).

Lemma unambiguous_hashPublicKey : unambiguous PublicKey_ok anything hashPublicKey.
Proof.
  intros [a1 k1] [a2 k2] X Y Ha Hb _ _ H. unfold PublicKey_ok, hashPublicKey in *. cbn in *. split_ok.
  flatten H. drop_tag H. peel H unambiguous_enum. drop_tag H. peel H unambiguous_bytes. by subst.
Qed.
#[export] Hint Resolve unambiguous_hashPublicKey : rsp.

Definition Endorsement_ok (e : Endorsement.t) : Prop :=
  on_child short (Endorsement.subject e) /\ on_child short (Endorsement.endorsement_service e)
  /\ on_child short (Endorsement.endorsement_type e) /\ short (Endorsement.endorsement_value e)
  /\ on_child is_u64 (Endorsement.valid_until e) /\ short (Endorsement.signature e).

Lemma unambiguous_hashEndorsement : unambiguous Endorsement_ok anything hashEndorsement.
Proof.
  intros [s1 v1 t1 b1 u1 g1] [s2 v2 t2 b2 u2 g2] X Y Ha Hb _ _ H.
  unfold Endorsement_ok, hashEndorsement in *. cbn in *. split_ok. flatten H.
  peel_opt 1 H unambiguous_hashNodeId. peel_opt 2 H unambiguous_hashNodeId. peel_opt 3 H unambiguous_hashUuid.
  drop_tag H. peel H unambiguous_bytes. peel_opt 5 H unambiguous_hashDateTime.
  drop_tag H. peel H unambiguous_bytes. by subst.
Qed.

(** An identity with a public key; without one, a list of identities is ambiguous. *)
Definition Identity_ok (i : Identity.t) : Prop :=
  on_child short (Identity.nonce i) /\ on_child PublicKey_ok (Identity.public_key i)
  /\ on_child short (Identity.boot_id i).

Definition keyed (i : Identity.t) : Prop := is_Some (Identity.public_key i).

Definition after_identity (X : bytes) : Prop := not_tag 1 X /\ not_tag 2 X /\ not_tag 3 X.

Lemma unambiguous_hashIdentity : unambiguous Identity_ok after_identity hashIdentity.
Proof.
  intros [n1 k1 b1] [n2 k2 b2] X Y Ha Hb HX HY H.
  unfold Identity_ok, hashIdentity, after_identity in *. cbn in *. split_ok. flatten H.
  peel_opt 1 H unambiguous_hashUuid. peel_opt 2 H unambiguous_hashPublicKey. peel_opt 3 H unambiguous_hashUuid.
  by subst.
Qed.

Lemma unambiguous_keyed_identity :
  unambiguous (fun i => Identity_ok i /\ keyed i) (not_tag 3) hashIdentity.
Proof.
  intros [n1 [k1|] b1] [n2 [k2|] b2] X Y [Ha Hka] [Hb Hkb] HX HY H; try (by destruct Hka); try (by destruct Hkb).
  unfold Identity_ok, hashIdentity in *. cbn [Identity.nonce Identity.public_key Identity.boot_id if_present on_child] in *.
  split_ok. flatten H. peel_opt 1 H unambiguous_hashUuid. drop_tag H. peel H unambiguous_hashPublicKey.
  peel_opt 3 H unambiguous_hashUuid. by subst.
Qed.

Lemma keyed_identity_follows i X :
  Identity_ok i /\ keyed i -> not_tag 3 X -> not_tag 3 (hashIdentity i ++ X).
Proof.
  destruct i as [n [k|] b]; intros [_ Hk] HX; [|by destruct Hk]. unfold hashIdentity. cbn. rewrite <- !app_assoc.
  auto with rsp.
Qed.

Definition RouteEntry_ok (r : RouteEntry.t) : Prop :=
  on_child short (RouteEntry.node_id r) /\ is_u32 (RouteEntry.hops_away r)
  /\ on_child is_u64 (RouteEntry.last_seen r).

Lemma unambiguous_hashRouteEntry : unambiguous RouteEntry_ok (not_tag 3) hashRouteEntry.
Proof.
  intros [n1 h1 l1] [n2 h2 l2] X Y Ha Hb HX HY H. unfold RouteEntry_ok, hashRouteEntry in *. cbn in *. split_ok.
  flatten H. peel_opt 1 H unambiguous_hashNodeId. drop_tag H. peel H unambiguous_u32.
  peel_opt 3 H unambiguous_hashDateTime. by subst.
Qed.

Lemma unambiguous_hashRouteUpdate : unambiguous (all_ok RouteEntry_ok) (not_tag 3) hashRouteUpdate.
Proof.
  apply unambiguous_tagged, unambiguous_counted; [apply unambiguous_hashRouteEntry|].
  intros r X _ HX. unfold hashRouteEntry. rewrite <- !app_assoc. auto with rsp.
Qed.

Definition Error_ok (e : Error.t) : Prop := is_i32 (Error.error_code e) /\ short (Error.message e).

Lemma unambiguous_hashError : unambiguous Error_ok anything hashError.
Proof.
  intros [c1 m1] [c2 m2] X Y Ha Hb _ _ H. unfold Error_ok, hashError in *. cbn in *. split_ok.
  flatten H. drop_tag H. peel H unambiguous_enum. drop_tag H. peel H unambiguous_bytes. by subst.
Qed.

Definition PingRequest_ok (p : PingRequest.t) : Prop :=
  on_child short (PingRequest.nonce p) /\ is_u32 (PingRequest.sequence p) /\ on_child is_u64 (PingRequest.time_sent p).

Lemma unambiguous_hashPingRequest : unambiguous PingRequest_ok (not_tag 3) hashPingRequest.
Proof.
  intros [n1 s1 t1] [n2 s2 t2] X Y Ha Hb HX HY H. unfold PingRequest_ok, hashPingRequest in *. cbn in *. split_ok.
  flatten H. peel_opt 1 H unambiguous_hashUuid. drop_tag H. peel H unambiguous_u32.
  peel_opt 3 H unambiguous_hashDateTime. by subst.
Qed.

Definition PingReply_ok (p : PingReply.t) : Prop :=
  on_child short (PingReply.nonce p) /\ is_u32 (PingReply.sequence p)
  /\ on_child is_u64 (PingReply.time_sent p) /\ on_child is_u64 (PingReply.time_replied p).

Lemma unambiguous_hashPingReply : unambiguous PingReply_ok (fun X => not_tag 3 X /\ not_tag 4 X) hashPingReply.
Proof.
  intros [n1 s1 t1 r1] [n2 s2 t2 r2] X Y Ha Hb HX HY H. unfold PingReply_ok, hashPingReply in *. cbn in *. split_ok.
  flatten H. peel_opt 1 H unambiguous_hashUuid. drop_tag H. peel H unambiguous_u32.
  peel_opt 3 H unambiguous_hashDateTime. peel_opt 4 H unambiguous_hashDateTime. by subst.
Qed.

(** *** Resource advertisements *)
Definition Address_ok (a : Address.t) : Prop := is_u32 (Address.ipv4 a) /\ short (Address.ipv6 a).

Lemma unambiguous_hashAddress : unambiguous Address_ok anything hashAddress.
Proof.
  intros [a1 b1] [a2 b2] X Y Ha Hb _ _ H. unfold Address_ok, hashAddress in *. cbn in *. split_ok.
  flatten H. drop_tag H. peel H unambiguous_u32. drop_tag H. peel H unambiguous_bytes. by subst.
Qed.

Definition PortRange_ok (r : PortRange.t) : Prop := is_u32 (PortRange.start_port r) /\ is_u32 (PortRange.end_port r).

Lemma unambiguous_hashPortRange : unambiguous PortRange_ok anything hashPortRange.
Proof.
  intros [a1 b1] [a2 b2] X Y Ha Hb _ _ H. unfold PortRange_ok, hashPortRange in *. cbn in *. split_ok.
  flatten H. drop_tag H. peel H unambiguous_u32. drop_tag H. peel H unambiguous_u32. by subst.
Qed.

Lemma unambiguous_addresses : unambiguous (all_ok Address_ok) anything (counted hashAddress).
Proof. apply unambiguous_counted; [apply unambiguous_hashAddress|auto with rsp]. Qed.

(** A record whose type the hash knows. *)
Definition ResourceRecord_ok (r : ResourceRecord) : Prop :=
  match r with
  | TcpConnect c => on_child short (ResourceTCPConnect.node_id c) /\ all_ok Address_ok (ResourceTCPConnect.source_addresses c)
  | TcpListen l => on_child short (ResourceTCPListen.node_id l) /\ all_ok Address_ok (ResourceTCPListen.listen_address l)
      /\ on_child PortRange_ok (ResourceTCPListen.allowed_range l)
  | Sshd _ | ResourceTypeNotSet => False
  end.

Lemma unambiguous_hashResourceRecord : unambiguous ResourceRecord_ok (not_tag 3) hashResourceRecord.
Proof.
  intros [|[n1 a1]|[n1 a1 p1]|?] [|[n2 a2]|[n2 a2 p2]|?] X Y Ha Hb HX HY H; try done; cbn in Ha, Hb; split_ok;
    cbn [hashResourceRecord] in H; flatten H; unfold hashResourceTcpConnect, hashResourceTcpListen in H;
    cbn [ResourceTCPConnect.node_id ResourceTCPConnect.source_addresses ResourceTCPListen.node_id
         ResourceTCPListen.listen_address ResourceTCPListen.allowed_range] in H;
    try other_tag H; drop_tag H; flatten H;
    peel_opt 1 H unambiguous_hashNodeId; drop_tag H; peel H unambiguous_addresses; [by subst|].
  peel_opt 3 H unambiguous_hashPortRange. by subst.
Qed.

Definition ServiceSchema_ok (s : ServiceSchema.t) : Prop :=
  short (ServiceSchema.proto_file_name s) /\ short (ServiceSchema.proto_file_descriptor_set s)
  /\ all_ok short (ServiceSchema.accepted_type_urls s) /\ short (ServiceSchema.schema_hash s)
  /\ is_u32 (ServiceSchema.schema_version s).

(** A schema with the two fields erased that the advertisement hash leaves out. *)
Definition erase_schema (s : ServiceSchema.t) : ServiceSchema.t :=
  ServiceSchema.mk (ServiceSchema.proto_file_name s) (ServiceSchema.proto_file_descriptor_set s)
    (ServiceSchema.accepted_type_urls s) [] 0.

Definition erased (s : ServiceSchema.t) : Prop := s = erase_schema s.

Lemma unambiguous_urls : unambiguous (all_ok short) anything (counted feedBytes).
Proof. apply unambiguous_counted; auto with rsp. Qed.

Lemma unambiguous_advertised :
  unambiguous (fun s => ServiceSchema_ok s /\ erased s) anything hashAdvertisedSchema.
Proof.
  intros [f1 d1 u1 h1 v1] [f2 d2 u2 h2 v2] X Y [Ha Ea] [Hb Eb] _ _ H.
  unfold ServiceSchema_ok, hashAdvertisedSchema, erased, erase_schema in *. cbn in *. split_ok.
  injection Ea as -> ->. injection Eb as -> ->.
  flatten H. peel H unambiguous_bytes. peel H unambiguous_bytes. peel H unambiguous_urls. by subst.
Qed.

Definition ResourceAdvertisement_ok (a : ResourceAdvertisement.t) : Prop :=
  all_ok ResourceRecord_ok (ResourceAdvertisement.records a)
  /\ all_ok (fun s => ServiceSchema_ok s /\ erased s) (ResourceAdvertisement.schemas a).

Definition after_advertisement (X : bytes) : Prop := not_tag 2 X /\ not_tag 3 X.

Lemma record_follows r X : ResourceRecord_ok r -> not_tag 3 X -> not_tag 3 (hashResourceRecord r ++ X).
Proof. destruct r; intros Hr HX; try done; cbn [hashResourceRecord]; rewrite <- app_assoc; auto with rsp. Qed.

Lemma unambiguous_hashResourceAdvertisement :
  unambiguous ResourceAdvertisement_ok after_advertisement hashResourceAdvertisement.
Proof.
  assert (Hrec : unambiguous (all_ok ResourceRecord_ok) (not_tag 3) (counted hashResourceRecord)).
  { apply unambiguous_counted; [apply unambiguous_hashResourceRecord|intros; by apply record_follows]. }
  assert (Hsch : unambiguous (all_ok (fun s => ServiceSchema_ok s /\ erased s)) anything (counted hashAdvertisedSchema)).
  { apply unambiguous_counted; [apply unambiguous_advertised|auto with rsp]. }
  intros [r1 s1] [r2 s2] X Y [Hr1 Hs1] [Hr2 Hs2] [HX2 HX3] [HY2 HY3] H.
  unfold hashResourceAdvertisement in H. cbn in Hr1, Hs1, Hr2, Hs2, H. flatten H. drop_tag H.
  peel H Hrec; [|by destruct s1; rewrite <- ?app_assoc; auto with rsp..|by destruct s2; rewrite <- ?app_assoc; auto with rsp].
  subst r2. destruct s1 as [|t1 s1], s2 as [|t2 s2].
  - done.
  - rewrite <- app_assoc in H. by destruct (HX2 _ H).
  - rewrite <- app_assoc in H. by destruct (HY2 _ (eq_sym H)).
  - rewrite <- !app_assoc in H. drop_tag H. apply Hsch in H as [-> ->]; done.
Qed.

Definition ResourceQuery_ok (q : ResourceQuery.t) : Prop := short (ResourceQuery.query q) /\ is_u32 (ResourceQuery.max_records q).

Lemma unambiguous_hashResourceQuery : unambiguous ResourceQuery_ok anything hashResourceQuery.
Proof.
  intros [q1 n1] [q2 n2] X Y Ha Hb _ _ H. unfold ResourceQuery_ok, hashResourceQuery in *. cbn in *. split_ok.
  flatten H. drop_tag H. peel H unambiguous_bytes. drop_tag H. peel H unambiguous_u32. by subst.
Qed.

(** ** The messages hashed by reflection *)
Lemma unambiguous_ext {A} (ok : A -> Prop) K h h' :
  (forall a, h' a = h a) -> unambiguous ok K h -> unambiguous ok K h'.
Proof. intros He Hh a b X Y ? ? ? ?. rewrite !He. by apply Hh. Qed.

Lemma unambiguous_dynUuid : unambiguous short anything (fun u => hashMessageReflective (dynUuid u)).
Proof. eapply unambiguous_ext; [|exact unambiguous_hashUuid]. intros u. unfold dynUuid. by stream. Qed.

Lemma unambiguous_dynNodeId : unambiguous short anything (fun u => hashMessageReflective (dynNodeId u)).
Proof. exact unambiguous_dynUuid. Qed.

Lemma unambiguous_dynDateTime : unambiguous is_u64 anything (fun t => hashMessageReflective (dynDateTime t)).
Proof. eapply unambiguous_ext; [|exact unambiguous_hashDateTime]. intros u. unfold dynDateTime. by stream. Qed.

Lemma unambiguous_dynPublicKey : unambiguous PublicKey_ok anything (fun k => hashMessageReflective (dynPublicKey k)).
Proof.
  eapply unambiguous_ext; [|exact unambiguous_hashPublicKey]. intros k. unfold dynPublicKey. stream.
  by rewrite <- app_assoc.
Qed.

#[export] Hint Resolve unambiguous_dynUuid unambiguous_dynNodeId unambiguous_dynDateTime unambiguous_dynPublicKey : rsp.

(** The streams of single scalar fields. *)
Lemma dyn_string : unambiguous short anything (fun s => hashMessageReflective (DString s)).
Proof. exact unambiguous_bytes. Qed.
Lemma dyn_u32 : unambiguous is_u32 anything (fun v => hashMessageReflective (DUInt32 v)).
Proof. exact unambiguous_u32. Qed.
Lemma dyn_u64 : unambiguous is_u64 anything (fun v => hashMessageReflective (DUInt64 v)).
Proof. exact unambiguous_u64. Qed.
Lemma dyn_i64 : unambiguous is_i64 anything (fun v => hashMessageReflective (DInt64 v)).
Proof. exact unambiguous_i64. Qed.
Lemma dyn_i32 : unambiguous is_i32 anything (fun v => hashMessageReflective (DInt32 v)).
Proof. exact unambiguous_enum. Qed.
Lemma dyn_bool : unambiguous (fun _ => True) anything (fun b => hashMessageReflective (DBool b)).
Proof. exact unambiguous_bool. Qed.
Lemma dyn_enum : unambiguous is_i32 anything (fun v => hashMessageReflective (DEnum v)).
Proof. exact unambiguous_enum. Qed.

(** Brings an equation between two reflective streams into the form of the
    hand-written ones. *)
Ltac open_stream H :=
  rewrite !hash_declared in H by reflexivity; cbn [mbind list_bind] in H;
  rewrite ?hashField_singular, ?hashField_optional, ?hashField_repeated, ?app_nil_r in H; flatten H.

Lemma unambiguous_dynServiceSchema :
  unambiguous ServiceSchema_ok anything (fun s => hashMessageReflective (dynServiceSchema s)).
Proof.
  intros [f1 d1 u1 h1 v1] [f2 d2 u2 h2 v2] X Y Ha Hb _ _ H. unfold ServiceSchema_ok, dynServiceSchema in *.
  cbn in Ha, Hb. cbn [ServiceSchema.proto_file_name ServiceSchema.proto_file_descriptor_set
    ServiceSchema.accepted_type_urls ServiceSchema.schema_hash ServiceSchema.schema_version] in H. split_ok.
  open_stream H. drop_tag H. peel H dyn_string. drop_tag H. peel H dyn_string. drop_tag H.
  peel H unambiguous_urls. drop_tag H. peel H dyn_string. drop_tag H. peel H dyn_u32. by subst.
Qed.

Definition SchemaRequest_ok (r : SchemaRequest.t) : Prop :=
  on_child short (SchemaRequest.proto_file_name r) /\ on_child short (SchemaRequest.schema_hash r).

Lemma unambiguous_dynSchemaRequest :
  unambiguous SchemaRequest_ok (fun X => not_tag 1 X /\ not_tag 2 X) (fun r => hashMessageReflective (dynSchemaRequest r)).
Proof.
  intros [f1 h1] [f2 h2] X Y Ha Hb HX HY H. unfold SchemaRequest_ok, dynSchemaRequest in *. cbn in Ha, Hb.
  cbn [SchemaRequest.proto_file_name SchemaRequest.schema_hash] in H. split_ok. open_stream H.
  peel_opt 1 H dyn_string. peel_opt 2 H dyn_string. by subst.
Qed.

Lemma unambiguous_dynSchemaReply :
  unambiguous (all_ok ServiceSchema_ok) anything (fun ss => hashMessageReflective (dynSchemaReply ss)).
Proof.
  intros s1 s2 X Y Ha Hb _ _ H. unfold dynSchemaReply in H. open_stream H. drop_tag H.
  refine (unambiguous_counted _ anything _ unambiguous_dynServiceSchema _ _ _ _ _ Ha Hb I I H); auto with rsp.
Qed.

(** A discovered service as the resource manager sends it: with its node and schema. *)
Definition DiscoveredService_ok (s : DiscoveredService.t) : Prop :=
  match DiscoveredService.node_id s, DiscoveredService.schema s with
  | Some n, Some sc => short n /\ ServiceSchema_ok sc
  | _, _ => False
  end.

Lemma unambiguous_hashDiscoveredService : unambiguous DiscoveredService_ok anything hashDiscoveredService.
Proof.
  intros [[n1|] [s1|]] [[n2|] [s2|]] X Y Ha Hb _ _ H; try done.
  unfold hashDiscoveredService, dynDiscoveredService, DiscoveredService_ok in *. cbn in Ha, Hb. split_ok.
  cbn [DiscoveredService.node_id DiscoveredService.schema] in H. open_stream H. cbn [if_present] in H. flatten H.
  drop_tag H. peel H unambiguous_dynNodeId. drop_tag H. peel H unambiguous_dynServiceSchema. by subst.
Qed.

Lemma unambiguous_hashResourceQueryReply :
  unambiguous (all_ok DiscoveredService_ok) anything hashResourceQueryReply.
Proof. apply unambiguous_tagged, unambiguous_counted; [apply unambiguous_hashDiscoveredService|auto with rsp]. Qed.

(** *** Log subscriptions *)
Definition FieldValue_ok (v : ERDASTFieldValue) : Prop :=
  match v with
  | BytesValue b | StringValue b => short b
  | IntValue z => is_i64 z
  | UintValue z => is_u64 z
  | BoolValue _ => True
  | EnumValue z => is_i32 z
  | ValueNotSet => False
  end.

Lemma unambiguous_dynFieldPath :
  unambiguous (all_ok short) anything (fun p => hashMessageReflective (dynFieldPath p)).
Proof.
  intros p1 p2 X Y Ha Hb _ _ H. unfold dynFieldPath in H. open_stream H. drop_tag H.
  exact (unambiguous_urls p1 p2 X Y Ha Hb I I H).
Qed.

Lemma unambiguous_dynFieldValue :
  unambiguous FieldValue_ok anything (fun v => hashMessageReflective (dynFieldValue v)).
Proof.
  intros v1 v2 X Y Ha Hb _ _ H. destruct v1, v2; cbn [FieldValue_ok] in Ha, Hb; try impossible Ha; try impossible Hb;
    unfold dynFieldValue in H; open_stream H; try other_tag H; drop_tag H.
  - peel H dyn_string. by subst.
  - peel H dyn_string. by subst.
  - peel H dyn_i64. by subst.
  - peel H dyn_u64. by subst.
  - peel H dyn_bool. by subst.
  - peel H dyn_i32. by subst.
Qed.

(** A leaf with its path and value. *)
Definition MesLeaf_ok (l : MesLeaf) : Prop :=
  match l with
  | FieldEquals (Some p) (Some v) => all_ok short p /\ FieldValue_ok v
  | FieldExists (Some p) => all_ok short p
  | FieldContains (Some p) (Some q) (Some v) => all_ok short p /\ all_ok short q /\ FieldValue_ok v
  | _ => False
  end.

Lemma unambiguous_dynMesLeaf : unambiguous MesLeaf_ok anything (fun l => hashField (dynMesLeaf l)).
Proof.
  intros [[p1|] [v1|]|[p1|]|[p1|] [q1|] [v1|]] [[p2|] [v2|]|[p2|]|[p2|] [q2|] [v2|]] X Y Ha Hb _ _ H;
    cbn [MesLeaf_ok] in Ha, Hb; try impossible Ha; try impossible Hb;
    unfold dynMesLeaf in H; rewrite !hashField_singular in H; open_stream H; try other_tag H;
    drop_tag H; cbn [if_present] in H; flatten H; drop_tag H;
    split_ok; peel H unambiguous_dynFieldPath.
  - drop_tag H. peel H unambiguous_dynFieldValue. by subst.
  - by subst.
  - drop_tag H. peel H unambiguous_dynFieldPath. drop_tag H. peel H unambiguous_dynFieldValue. by subst.
Qed.

(** A filter with all its operands and leaves, and no overlong list of terms. *)
Fixpoint LogTree_ok (tree : LogASTMessageTree) : Prop :=
  match tree with
  | Equals (Some l) (Some r) | And (Some l) (Some r) | Or (Some l) (Some r) => LogTree_ok l /\ LogTree_ok r
  | Equals _ _ | And _ _ | Or _ _ | NotSet => False
  | AllOf ts | AnyOf ts =>
      size_of ts < 2 ^ 32
      /\ (fix all ts := match ts with [] => True | t :: ts' => LogTree_ok t /\ all ts' end) ts
  | TrueValue | FalseValue => True
  | Leaf l => MesLeaf_ok l
  end.

Definition tree_hash (t : LogASTMessageTree) : bytes := hashMessageReflective (dynLogTree t).

Definition binary_tag (n : Z) (l r : LogASTMessageTree) : bytes :=
  tag n ++ tag 1 ++ tree_hash l ++ tag 2 ++ tree_hash r.

Lemma tree_hash_binary n l r :
  hashMessageReflective (DMessage [singular n (DMessage [singular 1 (dynLogTree l); singular 2 (dynLogTree r)])])
  = binary_tag n l r.
Proof. stream. f_equal. stream. by rewrite <- !app_assoc. Qed.

Lemma tree_hash_nary n ts :
  hashMessageReflective (DMessage [singular n (DMessage [repeated 1 dynLogTree ts])])
  = tag n ++ tag 1 ++ counted tree_hash ts.
Proof. stream. f_equal. by stream. Qed.

Lemma tree_hash_constant n : hashMessageReflective (DMessage [singular n (DMessage [])]) = tag n.
Proof. by stream. Qed.

(** The stream of a tree, by its root. *)
Definition tree_stream (t : LogASTMessageTree) : bytes :=
  match t with
  | Equals (Some l) (Some r) => binary_tag 1 l r
  | And (Some l) (Some r) => binary_tag 2 l r
  | Or (Some l) (Some r) => binary_tag 3 l r
  | TrueValue => tag 9
  | FalseValue => tag 10
  | AllOf ts => tag 11 ++ tag 1 ++ counted tree_hash ts
  | AnyOf ts => tag 12 ++ tag 1 ++ counted tree_hash ts
  | Leaf l => hashField (dynMesLeaf l)
  | _ => []
  end.

Lemma tree_hash_stream t : LogTree_ok t -> tree_hash t = tree_stream t.
Proof.
  destruct t as [|[l|] [r|]|[l|] [r|]|[l|] [r|]| | |ts|ts|l]; intros Hok;
    cbn [LogTree_ok] in Hok; try impossible Hok.
  - exact (tree_hash_binary 1 l r).
  - exact (tree_hash_binary 2 l r).
  - exact (tree_hash_binary 3 l r).
  - exact (tree_hash_constant 9).
  - exact (tree_hash_constant 10).
  - exact (tree_hash_nary 11 ts).
  - exact (tree_hash_nary 12 ts).
  - unfold tree_hash. cbn [dynLogTree tree_stream]. rewrite hash_declared by (by destruct l).
    cbn [mbind list_bind]. by rewrite app_nil_r.
Qed.

(** The leaf tags are apart from the tags of the connectives. *)
Lemma leaf_stream_tag l : exists t Z, hashField (dynMesLeaf l) = tag t ++ Z /\ 200 <= t <= 202.
Proof. destruct l; unfold dynMesLeaf; rewrite hashField_singular; eexists _, _; (split; [done|lia]). Qed.

(** Lists whose elements are unambiguous one by one, as in an induction. *)
Lemma counted_pointwise {A} (ok : A -> Prop) h l l' X Y :
  Forall (fun a => forall b X Y, ok a -> ok b -> anything X -> anything Y ->
            h a ++ X = h b ++ Y -> a = b /\ X = Y) l ->
  all_ok ok l -> all_ok ok l' -> counted h l ++ X = counted h l' ++ Y -> l = l' /\ X = Y.
Proof.
  intros IH [Hl Hok] [Hl' Hok'] H. unfold counted in H. rewrite <- !app_assoc in H.
  apply u32_split in H as [Hs H]; [|apply wrap_u32..].
  unfold size_of in *. rewrite !wrap_small_u32 in Hs by (unfold is_u32; lia). apply Nat2Z.inj in Hs.
  clear Hl Hl'. revert l' Hok' Hs H. induction IH as [|a l Ha _ IH]; intros l' Hok' Hs H.
  - destruct l'; [|discriminate]. done.
  - destruct l' as [|b l']; [discriminate|]. inversion Hok; subst. inversion Hok'; subst.
    cbn [mbind list_bind] in H. rewrite <- !app_assoc in H.
    apply Ha in H as [-> H]; [|done..]. apply IH in H as [-> ->]; [done..|by injection Hs].
Qed.

Lemma terms_ok ts :
  size_of ts < 2 ^ 32
  /\ (fix all ts := match ts with [] => True | t :: ts' => LogTree_ok t /\ all ts' end) ts ->
  all_ok LogTree_ok ts.
Proof.
  intros [Hs Ht]. split; [done|]. clear Hs. induction ts as [|t ts IH]; [done|].
  destruct Ht as [H1 H2]. constructor; [done|by apply IH].
Qed.

Lemma unambiguous_tree_hash : unambiguous LogTree_ok anything tree_hash.
Proof.
  intros t. induction t as [|l r IHl IHr|l r IHl IHr|l r IHl IHr| | |ts IH|ts IH|l] using Ast_nested_ind;
    intros t' X Y Hok Hok' _ _ H; rewrite !tree_hash_stream in H by done;
    destruct t' as [|[l'|] [r'|]|[l'|] [r'|]|[l'|] [r'|]| | |ts'|ts'|l']; cbn [LogTree_ok] in Hok';
    try impossible Hok'; try (destruct l as [l|]; [|by destruct Hok]; destruct r as [r|]; [|by destruct Hok]);
    cbn [LogTree_ok] in Hok; try impossible Hok; cbn [tree_stream on_child] in *; unfold binary_tag in H; flatten H.
  all: try other_tag H.
  all: try (destruct (leaf_stream_tag l) as (n & Z & Hl & Hn); rewrite Hl in H; flatten H; exfalso;
            apply tag_split in H as [H _]; [lia|unfold is_u32; lia..]).
  all: try (destruct (leaf_stream_tag l') as (n & Z & Hl & Hn); rewrite Hl in H; flatten H; exfalso;
            apply tag_split in H as [H _]; [lia|unfold is_u32; lia..]).
  1-3: destruct Hok, Hok'; drop_tag H; drop_tag H; apply IHl in H as [-> H]; [|done..];
    drop_tag H; apply IHr in H as [-> ->]; done.
  - drop_tag H. done.
  - drop_tag H. done.
  - drop_tag H. drop_tag H. apply (counted_pointwise LogTree_ok) in H as [-> ->];
      [done|done|by apply terms_ok..].
  - drop_tag H. drop_tag H. apply (counted_pointwise LogTree_ok) in H as [-> ->];
      [done|done|by apply terms_ok..].
  - apply unambiguous_dynMesLeaf in H as [-> ->]; done.
Qed.

Definition LogSubscribeRequest_ok (r : LogSubscribeRequest.t) : Prop :=
  short (LogSubscribeRequest.payload_type_url r) /\ on_child LogTree_ok (LogSubscribeRequest.filter r)
  /\ is_u64 (LogSubscribeRequest.duration_ms r).

Lemma unambiguous_hashLogSubscribeRequest :
  unambiguous LogSubscribeRequest_ok anything hashLogSubscribeRequest.
Proof.
  intros [u1 f1 d1] [u2 f2 d2] X Y Ha Hb _ _ H. unfold LogSubscribeRequest_ok, hashLogSubscribeRequest,
    dynLogSubscribeRequest in *. cbn in Ha, Hb. cbn [LogSubscribeRequest.payload_type_url
    LogSubscribeRequest.filter LogSubscribeRequest.duration_ms] in H. split_ok. open_stream H.
  drop_tag H. peel H dyn_string. peel_opt 2 H unambiguous_tree_hash. drop_tag H. peel H dyn_u64. by subst.
Qed.

Definition LogSubscribeReply_ok (r : LogSubscribeReply.t) : Prop :=
  is_i32 (LogSubscribeReply.status r) /\ on_child short (LogSubscribeReply.subscription_id r)
  /\ on_child is_u64 (LogSubscribeReply.expires_at r) /\ short (LogSubscribeReply.message r).

Lemma unambiguous_hashLogSubscribeReply : unambiguous LogSubscribeReply_ok anything hashLogSubscribeReply.
Proof.
  intros [s1 i1 e1 m1] [s2 i2 e2 m2] X Y Ha Hb _ _ H. unfold LogSubscribeReply_ok, hashLogSubscribeReply,
    dynLogSubscribeReply in *. cbn in Ha, Hb. cbn [LogSubscribeReply.status LogSubscribeReply.subscription_id
    LogSubscribeReply.expires_at LogSubscribeReply.message] in H. split_ok. open_stream H.
  drop_tag H. peel H dyn_enum. peel_opt 2 H unambiguous_dynUuid. peel_opt 3 H unambiguous_dynDateTime.
  drop_tag H. peel H dyn_string. by subst.
Qed.

Lemma unambiguous_hashLogUnsubscribeRequest :
  unambiguous (on_child short) (not_tag 1) hashLogUnsubscribeRequest.
Proof.
  intros i1 i2 X Y Ha Hb HX HY H. unfold hashLogUnsubscribeRequest, dynLogUnsubscribeRequest in H.
  open_stream H. peel_opt 1 H unambiguous_dynUuid. by subst.
Qed.

Definition LogUnsubscribeReply_ok (r : LogUnsubscribeReply.t) : Prop :=
  is_i32 (LogUnsubscribeReply.status r) /\ on_child short (LogUnsubscribeReply.subscription_id r)
  /\ short (LogUnsubscribeReply.message r).

Lemma unambiguous_hashLogUnsubscribeReply :
  unambiguous LogUnsubscribeReply_ok anything hashLogUnsubscribeReply.
Proof.
  intros [s1 i1 m1] [s2 i2 m2] X Y Ha Hb _ _ H. unfold LogUnsubscribeReply_ok, hashLogUnsubscribeReply,
    dynLogUnsubscribeReply in *. cbn in Ha, Hb. cbn [LogUnsubscribeReply.status
    LogUnsubscribeReply.subscription_id LogUnsubscribeReply.message] in H. split_ok. open_stream H.
  drop_tag H. peel H dyn_enum. peel_opt 2 H unambiguous_dynUuid. drop_tag H. peel H dyn_string. by subst.
Qed.

Definition AnyMsg_ok (a : AnyMsg.t) : Prop := short (AnyMsg.type_url a) /\ short (AnyMsg.value a).

Lemma unambiguous_dynAny : unambiguous AnyMsg_ok anything (fun a => hashMessageReflective (dynAny a)).
Proof.
  intros [u1 v1] [u2 v2] X Y Ha Hb _ _ H. unfold AnyMsg_ok, dynAny in *. cbn in Ha, Hb.
  cbn [AnyMsg.type_url AnyMsg.value] in H. split_ok. open_stream H.
  drop_tag H. peel H dyn_string. drop_tag H. peel H dyn_string. by subst.
Qed.
#[export] Hint Resolve unambiguous_dynAny unambiguous_tree_hash : rsp.

Definition LogRecord_ok (r : LogRecord.t) : Prop :=
  on_child short (LogRecord.subscription_id r) /\ on_child short (LogRecord.producer_node_id r)
  /\ on_child is_u64 (LogRecord.time_created r) /\ on_child AnyMsg_ok (LogRecord.payload r).

Definition after_optionals (X : bytes) : Prop := not_tag 1 X /\ not_tag 2 X /\ not_tag 3 X /\ not_tag 4 X.

Lemma unambiguous_hashLogRecord : unambiguous LogRecord_ok after_optionals hashLogRecord.
Proof.
  intros [s1 n1 t1 p1] [s2 n2 t2 p2] X Y Ha Hb HX HY H. unfold LogRecord_ok, hashLogRecord, dynLogRecord,
    after_optionals in *. cbn in Ha, Hb. cbn [LogRecord.subscription_id LogRecord.producer_node_id
    LogRecord.time_created LogRecord.payload] in H. split_ok. open_stream H.
  peel_opt 1 H unambiguous_dynUuid. peel_opt 2 H unambiguous_dynNodeId. peel_opt 3 H unambiguous_dynDateTime.
  peel_opt 4 H unambiguous_dynAny. by subst.
Qed.

(** *** Key negotiation *)
Definition AesRequest_ok (r : AesKeyNegotiationRequest.t) : Prop :=
  on_child short (AesKeyNegotiationRequest.key_id r)
  /\ on_child PublicKey_ok (AesKeyNegotiationRequest.ephemeral_public_key r)
  /\ is_u64 (AesKeyNegotiationRequest.requested_lifetime_ms r) /\ is_i32 (AesKeyNegotiationRequest.algorithm r).

Lemma unambiguous_hashAesRequest : unambiguous AesRequest_ok anything hashAesKeyNegotiationRequest.
Proof.
  intros [k1 p1 l1 a1] [k2 p2 l2 a2] X Y Ha Hb _ _ H. unfold AesRequest_ok, hashAesKeyNegotiationRequest,
    dynAesRequest in *. cbn in Ha, Hb. cbn [AesKeyNegotiationRequest.key_id
    AesKeyNegotiationRequest.ephemeral_public_key AesKeyNegotiationRequest.requested_lifetime_ms
    AesKeyNegotiationRequest.algorithm] in H. split_ok. open_stream H.
  peel_opt 1 H unambiguous_dynUuid. peel_opt 2 H unambiguous_dynPublicKey. drop_tag H. peel H dyn_u64.
  drop_tag H. peel H dyn_enum. by subst.
Qed.

Definition AesReply_ok (r : AesKeyNegotiationReply.t) : Prop :=
  on_child short (AesKeyNegotiationReply.key_id r)
  /\ on_child PublicKey_ok (AesKeyNegotiationReply.ephemeral_public_key r)
  /\ is_u64 (AesKeyNegotiationReply.accepted_lifetime_ms r) /\ is_i32 (AesKeyNegotiationReply.algorithm r).

Lemma unambiguous_hashAesReply : unambiguous AesReply_ok anything hashAesKeyNegotiationReply.
Proof.
  intros [k1 p1 l1 a1] [k2 p2 l2 a2] X Y Ha Hb _ _ H. unfold AesReply_ok, hashAesKeyNegotiationReply,
    dynAesReply in *. cbn in Ha, Hb. cbn [AesKeyNegotiationReply.key_id
    AesKeyNegotiationReply.ephemeral_public_key AesKeyNegotiationReply.accepted_lifetime_ms
    AesKeyNegotiationReply.algorithm] in H. split_ok. open_stream H.
  peel_opt 1 H unambiguous_dynUuid. peel_opt 2 H unambiguous_dynPublicKey. drop_tag H. peel H dyn_u64.
  drop_tag H. peel H dyn_enum. by subst.
Qed.

Definition AesDrop_ok (r : AesKeyDropNotification.t) : Prop :=
  on_child short (AesKeyDropNotification.key_id r) /\ short (AesKeyDropNotification.reason r).

Lemma unambiguous_hashAesDrop : unambiguous AesDrop_ok anything hashAesKeyDropNotification.
Proof.
  intros [k1 r1] [k2 r2] X Y Ha Hb _ _ H. unfold AesDrop_ok, hashAesKeyDropNotification, dynAesDrop in *.
  cbn in Ha, Hb. cbn [AesKeyDropNotification.key_id AesKeyDropNotification.reason] in H. split_ok. open_stream H.
  peel_opt 1 H unambiguous_dynUuid. drop_tag H. peel H dyn_string. by subst.
Qed.

Definition AesError_ok (r : AesKeyNegotiationError.t) : Prop :=
  is_i32 (AesKeyNegotiationError.error_code r) /\ on_child short (AesKeyNegotiationError.key_id r)
  /\ short (AesKeyNegotiationError.message r).

Lemma unambiguous_hashAesError : unambiguous AesError_ok anything hashAesKeyNegotiationError.
Proof.
  intros [c1 k1 m1] [c2 k2 m2] X Y Ha Hb _ _ H. unfold AesError_ok, hashAesKeyNegotiationError, dynAesError in *.
  cbn in Ha, Hb. cbn [AesKeyNegotiationError.error_code AesKeyNegotiationError.key_id
    AesKeyNegotiationError.message] in H. split_ok. open_stream H.
  drop_tag H. peel H dyn_enum. peel_opt 2 H unambiguous_dynUuid. drop_tag H. peel H dyn_string. by subst.
Qed.

Definition EncryptedField_ok (f : EncryptedField.t) : Prop :=
  on_child (all_ok short) (EncryptedField.path f) /\ short (EncryptedField.iv f)
  /\ short (EncryptedField.ciphertext f) /\ short (EncryptedField.tag f) /\ is_u32 (EncryptedField.algorithm f).

Lemma unambiguous_hashEncryptedField : unambiguous EncryptedField_ok anything hashEncryptedField.
Proof.
  intros [p1 i1 c1 t1 a1] [p2 i2 c2 t2 a2] X Y Ha Hb _ _ H. unfold EncryptedField_ok, hashEncryptedField,
    dynEncryptedField in *. cbn in Ha, Hb. cbn [EncryptedField.path EncryptedField.iv EncryptedField.ciphertext
    EncryptedField.tag EncryptedField.algorithm] in H. split_ok. open_stream H.
  peel_opt 1 H unambiguous_dynFieldPath. drop_tag H. peel H dyn_string. drop_tag H. peel H dyn_string.
  drop_tag H. peel H dyn_string. drop_tag H. peel H dyn_u32. by subst.
Qed.

(** ** Whole messages *)

(** Parsing gives back a serialized requirement tree. *)
Class HashCodecLaws (H : HashCodec) := {
  ParseTree : bytes -> option ERDAbstractSyntaxTree;
  parse_serialize : forall t b, SerializeTree t = Some b -> ParseTree b = Some t;
}.

(** What follows starts with a field tag of at least [lo]. *)
Definition next_tag (lo : Z) (X : bytes) : Prop := exists t Z, X = tag t ++ Z /\ lo <= t < 2 ^ 32.

Lemma next_not_tag lo X n : next_tag lo X -> 0 <= n < lo -> not_tag n X.
Proof. intros (t & Z & -> & Ht) Hn. apply not_tag_tag; unfold is_u32; lia. Qed.

Lemma next_tag_if_present {A} lo t (h : A -> bytes) o X :
  lo <= t < 2 ^ 32 -> next_tag lo X -> next_tag lo (if_present t h o ++ X).
Proof. intros Ht HX. destruct o; [|done]. cbn [if_present]. rewrite <- app_assoc. by eexists _, _. Qed.

Lemma next_tag_weaken lo lo' X : lo' <= lo -> next_tag lo X -> next_tag lo' X.
Proof. intros Hl (t & Z & -> & Ht). exists t, Z. split; [done|lia]. Qed.

Section Messages.
Context {HC : HashCodec} {L : HashCodecLaws HC}.

Definition EndorsementNeeded_ok (m : EndorsementNeeded.t) : Prop :=
  on_child short (EndorsementNeeded.message_nonce m)
  /\ on_child (fun t => forall b, SerializeTree t = Some b -> short b) (EndorsementNeeded.tree m).

Definition core_ok (c : CoreMessage) : Prop :=
  match c with
  | ChallengeRequest n => on_child short n
  | IdentityMessage i => Identity_ok i
  | RouteUpdate es => all_ok RouteEntry_ok es
  | ErrorMessage e => Error_ok e
  | PingRequestMessage p => PingRequest_ok p
  | PingReplyMessage p => PingReply_ok p
  | ResourceAdvertisementMessage a => ResourceAdvertisement_ok a
  | ResourceQueryMessage q => ResourceQuery_ok q
  | EndorsementNeededMessage m => EndorsementNeeded_ok m
  | SchemaRequestMessage r => SchemaRequest_ok r
  | SchemaReply ss => all_ok ServiceSchema_ok ss
  | ResourceQueryReply ss => all_ok DiscoveredService_ok ss
  | LogSubscribeRequestMessage r => LogSubscribeRequest_ok r
  | LogSubscribeReplyMessage r => LogSubscribeReply_ok r
  | LogUnsubscribeRequest i => on_child short i
  | LogUnsubscribeReplyMessage r => LogUnsubscribeReply_ok r
  | LogRecordMessage r => LogRecord_ok r
  | AesKeyNegotiationRequestMessage r => AesRequest_ok r
  | AesKeyNegotiationReplyMessage r => AesReply_ok r
  | AesKeyDropNotificationMessage r => AesDrop_ok r
  | AesKeyNegotiationErrorMessage r => AesError_ok r
  end.

(** The core message if it belongs to the first, second or third group. *)
Definition low_part (core : option CoreMessage) : option CoreMessage :=
  match core with
  | Some (ChallengeRequest _ | IdentityMessage _ | RouteUpdate _ | ErrorMessage _ | PingRequestMessage _
         | PingReplyMessage _ | ResourceAdvertisementMessage _ | ResourceQueryMessage _) => core
  | _ => None
  end.

Definition middle_part (core : option CoreMessage) : option CoreMessage :=
  match core with Some (EndorsementNeededMessage _) => core | _ => None end.

Definition high_part (core : option CoreMessage) : option CoreMessage :=
  match low_part core, middle_part core with None, None => core | _, _ => None end.

Lemma parts_determine a b :
  low_part a = low_part b -> middle_part a = middle_part b -> high_part a = high_part b -> a = b.
Proof.
  unfold high_part. intros Hl Hm. rewrite <- Hl, <- Hm.
  destruct (low_part a) as [c|] eqn:La.
  - intros _. assert (Ha : a = Some c) by (destruct a as [[]|]; by inversion La).
    assert (Hb : b = Some c) by (symmetry in Hl; destruct b as [[]|]; by inversion Hl). congruence.
  - destruct (middle_part a) as [c|] eqn:Ma; [|done].
    intros _. assert (Ha : a = Some c) by (destruct a as [[]|]; by inversion Ma).
    assert (Hb : b = Some c) by (symmetry in Hm; destruct b as [[]|]; by inversion Hm). congruence.
Qed.

(** A stream that starts with a tag is not the rest of a message. *)
Ltac past_end HX H :=
  exfalso; first [eapply (next_not_tag _ _ _ HX); [|exact H]; lia
                 |eapply (next_not_tag _ _ _ HX); [|symmetry; exact H]; lia].

(** What may follow the body of a core message. *)
Ltac follows HX := repeat split; try exact I; try (apply (next_not_tag _ _ _ HX); lia).

Lemma low_split a b X Y :
  on_child core_ok a -> on_child core_ok b -> next_tag 22 X -> next_tag 22 Y ->
  hashCoreLow a ++ X = hashCoreLow b ++ Y -> low_part a = low_part b /\ X = Y.
Proof.
  intros Ha Hb HX HY H.
  destruct a as [[]|], b as [[]|]; cbn [hashCoreLow low_part app on_child core_ok] in *; flatten H;
    first [by split|past_end HX H|past_end HY H|other_tag H|drop_tag H].
  - apply (unambiguous_if_present 1 _ _ _ unambiguous_hashUuid) in H as [-> ->]; [done|done|done|follows HX|follows HY].
  - apply unambiguous_hashIdentity in H as [-> ->]; [done|done|done|follows HX|follows HY].
  - apply unambiguous_hashRouteUpdate in H as [-> ->]; [done|done|done|follows HX|follows HY].
  - apply unambiguous_hashError in H as [-> ->]; [done|done|done|follows HX|follows HY].
  - apply unambiguous_hashPingRequest in H as [-> ->]; [done|done|done|follows HX|follows HY].
  - apply unambiguous_hashPingReply in H as [-> ->]; [done|done|done|follows HX|follows HY].
  - apply unambiguous_hashResourceAdvertisement in H as [-> ->]; [done|done|done|follows HX|follows HY].
  - apply unambiguous_hashResourceQuery in H as [-> ->]; [done|done|done|follows HX|follows HY].
Qed.

Lemma high_split a b X Y :
  on_child core_ok a -> on_child core_ok b -> next_tag 100 X -> next_tag 100 Y ->
  hashCoreHigh a ++ X = hashCoreHigh b ++ Y -> high_part a = high_part b /\ X = Y.
Proof.
  intros Ha Hb HX HY H.
  destruct a as [[]|], b as [[]|]; cbn [hashCoreHigh high_part low_part middle_part app on_child core_ok] in *; flatten H;
    first [by split|past_end HX H|past_end HY H|other_tag H|drop_tag H].
  - apply unambiguous_dynSchemaRequest in H as [-> ->]; [done|done|done|follows HX|follows HY].
  - apply unambiguous_dynSchemaReply in H as [-> ->]; [done|done|done|follows HX|follows HY].
  - apply unambiguous_hashResourceQueryReply in H as [-> ->]; [done|done|done|follows HX|follows HY].
  - apply unambiguous_hashLogSubscribeRequest in H as [-> ->]; [done|done|done|follows HX|follows HY].
  - apply unambiguous_hashLogSubscribeReply in H as [-> ->]; [done|done|done|follows HX|follows HY].
  - apply unambiguous_hashLogUnsubscribeRequest in H as [-> ->]; [done|done|done|follows HX|follows HY].
  - apply unambiguous_hashLogUnsubscribeReply in H as [-> ->]; [done|done|done|follows HX|follows HY].
  - apply unambiguous_hashLogRecord in H as [-> ->]; [done|done|done|follows HX|follows HY].
  - apply unambiguous_hashAesRequest in H as [-> ->]; [done|done|done|follows HX|follows HY].
  - apply unambiguous_hashAesReply in H as [-> ->]; [done|done|done|follows HX|follows HY].
  - apply unambiguous_hashAesDrop in H as [-> ->]; [done|done|done|follows HX|follows HY].
  - apply unambiguous_hashAesError in H as [-> ->]; [done|done|done|follows HX|follows HY].
Qed.

(** The tree of an [EndorsementNeeded] as the bytes the hash reads. *)
Definition tree_bytes (t : ERDAbstractSyntaxTree) : bytes := default [] (SerializeTree t).

Lemma endorsement_needed_stream m b :
  hashEndorsementNeeded m = Ok b ->
  b = if_present 1 hashUuid (EndorsementNeeded.message_nonce m)
      ++ if_present 2 feedBytes (tree_bytes <$> EndorsementNeeded.tree m)
  /\ on_child (fun t => is_Some (SerializeTree t)) (EndorsementNeeded.tree m).
Proof.
  unfold hashEndorsementNeeded, tree_bytes. destruct (EndorsementNeeded.tree m) as [t|]; cbn [mbind res_bind on_child].
  - destruct (SerializeTree t) as [s|] eqn:Hs; cbn [mbind res_bind]; [|discriminate]. intros [= <-].
    cbn. rewrite Hs. split; [done|by eexists].
  - intros [= <-]. done.
Qed.

Lemma endorsement_needed_split m m' b b' X Y :
  EndorsementNeeded_ok m -> EndorsementNeeded_ok m' ->
  hashEndorsementNeeded m = Ok b -> hashEndorsementNeeded m' = Ok b' ->
  not_tag 1 X -> not_tag 1 Y -> not_tag 2 X -> not_tag 2 Y -> b ++ X = b' ++ Y -> m = m' /\ X = Y.
Proof.
  intros [Hn Ht] [Hn' Ht'] Hb Hb' HX1 HY1 HX2 HY2 H.
  apply endorsement_needed_stream in Hb as [-> Hs]. apply endorsement_needed_stream in Hb' as [-> Hs'].
  destruct m as [n t], m' as [n' t'].
  cbn [EndorsementNeeded.message_nonce EndorsementNeeded.tree] in *. flatten H.
  peel_opt 1 H unambiguous_hashUuid. subst n'.
  apply (unambiguous_if_present 2 _ _ _ unambiguous_bytes) in H as [H ->]; [|..|by split|by split].
  - split; [|done]. f_equal. unfold tree_bytes in H.
    destruct t as [t|], t' as [t'|]; try discriminate; [|done]. cbn [on_child] in *. f_equal.
    destruct Hs as [s Hs], Hs' as [s' Hs']. cbn in H. rewrite Hs, Hs' in H. cbn in H. injection H as ->.
    apply parse_serialize in Hs, Hs'. congruence.
  - destruct t as [t|]; [|done]. cbn in *. destruct Hs as [s Hs]. unfold tree_bytes. rewrite Hs. by apply Ht.
  - destruct t' as [t'|]; [|done]. cbn in *. destruct Hs' as [s Hs']. unfold tree_bytes. rewrite Hs'. by apply Ht'.
Qed.

Lemma middle_split a b ba bb X Y :
  on_child core_ok a -> on_child core_ok b -> hashCoreMiddle a = Ok ba -> hashCoreMiddle b = Ok bb ->
  next_tag 24 X -> next_tag 24 Y -> ba ++ X = bb ++ Y -> middle_part a = middle_part b /\ X = Y.
Proof.
  intros Ha Hb Ea Eb HX HY H.
  assert (Hcase : forall c bc, hashCoreMiddle c = Ok bc ->
    (middle_part c = None /\ bc = []) \/ exists m s, c = Some (EndorsementNeededMessage m)
       /\ hashEndorsementNeeded m = Ok s /\ bc = tag 23 ++ s).
  { clear. intros c bc Hc. destruct c as [[]|]; try (injection Hc as <-; by left). right. cbn in Hc.
    destruct (hashEndorsementNeeded m) as [s| | |] eqn:Hm; try discriminate. injection Hc as <-. by exists m, s. }
  destruct (Hcase _ _ Ea) as [[-> ->]|(m & s & -> & Hs & ->)], (Hcase _ _ Eb) as [[-> ->]|(m' & s' & -> & Hs' & ->)];
    flatten H; cbn [app] in H.
  - done.
  - past_end HX H.
  - past_end HY H.
  - drop_tag H. apply (endorsement_needed_split m m' s s') in H as [-> ->]; try done; follows HX; follows HY.
Qed.

Lemma next_low core X : next_tag 22 X -> next_tag 3 (hashCoreLow core ++ X).
Proof.
  intros HX. destruct core as [[]|]; cbn [hashCoreLow app]; rewrite <- ?app_assoc;
    first [eapply next_tag_weaken; [|exact HX]; lia|eexists _, _; split; [done|lia]].
Qed.

Lemma next_middle core b X : hashCoreMiddle core = Ok b -> next_tag 24 X -> next_tag 23 (b ++ X).
Proof.
  intros Hc HX. destruct core as [[]|]; try (injection Hc as <-; eapply next_tag_weaken; [|exact HX]; lia).
  cbn in Hc. destruct (hashEndorsementNeeded m) as [s| | |]; try discriminate. injection Hc as <-.
  exists 23, (s ++ X). split; [reflexivity|lia].
Qed.

Lemma next_high core X : next_tag 100 X -> next_tag 25 (hashCoreHigh core ++ X).
Proof.
  intros HX. destruct core as [[]|]; cbn [hashCoreHigh app]; rewrite <- ?app_assoc;
    first [eapply next_tag_weaken; [|exact HX]; lia|eexists _, _; split; [done|lia]].
Qed.
End Messages.

(** ** Claims *)

(** The core message without what its hash leaves out. *)
Definition erase_core (c : CoreMessage) : CoreMessage :=
  match c with
  | ResourceAdvertisementMessage a =>
      ResourceAdvertisementMessage (ResourceAdvertisement.mk (ResourceAdvertisement.records a)
                                      (erase_schema <$> ResourceAdvertisement.schemas a))
  | _ => c
  end.

(** Everything of a message that its hash stream determines: all but the
    signature, two fields of the advertised schemas and the payload of the
    service message. *)
Definition covered (m : RSPMessage.t) : RSPMessage.t :=
  RSPMessage.mk (RSPMessage.destination m) (RSPMessage.source m) (RSPMessage.trace m)
    (erase_core <$> RSPMessage.core_message m)
    ((fun a => AnyMsg.mk (AnyMsg.type_url a) []) <$> RSPMessage.service_message m)
    (RSPMessage.nonce m) None (RSPMessage.endorsements m) (RSPMessage.identities m)
    (RSPMessage.encrypted_fields m).

(** The bytes that stand for the payload of the service message. *)
Definition payload_stream `{HashCodec} (a : AnyMsg.t) : bytes :=
  match UnpackGenerated a with Some inner => hashMessageReflective inner | None => [] end.

(** A message within the sizes of protobuf, whose identities carry their keys. *)
Definition message_ok `{HashCodec} (m : RSPMessage.t) : Prop :=
  on_child short (RSPMessage.destination m) /\ on_child short (RSPMessage.source m)
  /\ on_child core_ok (erase_core <$> RSPMessage.core_message m) /\ on_child short (RSPMessage.nonce m)
  /\ all_ok Endorsement_ok (RSPMessage.endorsements m)
  /\ all_ok (fun i => Identity_ok i /\ keyed i) (RSPMessage.identities m)
  /\ all_ok EncryptedField_ok (RSPMessage.encrypted_fields m)
  /\ on_child (fun a => short (AnyMsg.type_url a)) (RSPMessage.service_message m).

Lemma hash_erase_core `{HashCodec} core :
  hashCoreLow (erase_core <$> core) = hashCoreLow core
  /\ hashCoreMiddle (erase_core <$> core) = hashCoreMiddle core
  /\ hashCoreHigh (erase_core <$> core) = hashCoreHigh core.
Proof.
  destruct core as [[]|]; repeat split; cbn [fmap option_fmap option_map erase_core hashCoreLow]; try done.
  unfold hashResourceAdvertisement. cbn [ResourceAdvertisement.records ResourceAdvertisement.schemas].
  do 3 f_equal. destruct (ResourceAdvertisement.schemas m) as [|s ss]; [done|].
  cbn [fmap list_fmap]. unfold counted, size_of. cbn [List.length]. rewrite length_fmap. do 2 f_equal.
  cbn [mbind list_bind]. f_equal. clear. induction ss as [|s ss IH]; [done|]. cbn. by rewrite IH.
Qed.

Section Injective.
Context {HC : HashCodec} {L : HashCodecLaws HC}.

Lemma service_split s s' :
  on_child (fun a => short (AnyMsg.type_url a)) s -> on_child (fun a => short (AnyMsg.type_url a)) s' ->
  if_present 200 hashServiceMessage s = if_present 200 hashServiceMessage s' ->
  (fun a => AnyMsg.mk (AnyMsg.type_url a) []) <$> s = (fun a => AnyMsg.mk (AnyMsg.type_url a) []) <$> s'
  /\ payload_stream <$> s = payload_stream <$> s'.
Proof.
  intros Hs Hs' H. destruct s as [a|], s' as [a'|]; cbn [if_present on_child] in *; try done.
  drop_tag H. unfold hashServiceMessage in H. apply unambiguous_bytes in H as [Hu H]; [|done..].
  cbn. unfold payload_stream. by rewrite Hu, H.
Qed.

Lemma tail_split e1 i1 f1 s1 e2 i2 f2 s2 :
  all_ok Endorsement_ok e1 -> all_ok Endorsement_ok e2 ->
  all_ok (fun i => Identity_ok i /\ keyed i) i1 -> all_ok (fun i => Identity_ok i /\ keyed i) i2 ->
  all_ok EncryptedField_ok f1 -> all_ok EncryptedField_ok f2 ->
  tag 100 ++ counted hashEndorsement e1 ++ tag 101 ++ counted hashIdentity i1
    ++ tag 102 ++ counted hashEncryptedField f1 ++ if_present 200 hashServiceMessage s1
  = tag 100 ++ counted hashEndorsement e2 ++ tag 101 ++ counted hashIdentity i2
    ++ tag 102 ++ counted hashEncryptedField f2 ++ if_present 200 hashServiceMessage s2 ->
  e1 = e2 /\ i1 = i2 /\ f1 = f2
  /\ if_present 200 hashServiceMessage s1 = if_present 200 hashServiceMessage s2.
Proof.
  intros He1 He2 Hi1 Hi2 Hf1 Hf2 H. drop_tag H.
  apply (unambiguous_counted _ _ _ unambiguous_hashEndorsement) in H as [-> H]; [|auto with rsp..].
  drop_tag H.
  apply (unambiguous_counted _ _ _ unambiguous_keyed_identity keyed_identity_follows) in H as [-> H];
    [|auto with rsp..].
  drop_tag H.
  apply (unambiguous_counted _ _ _ unambiguous_hashEncryptedField) in H as [-> H]; [done|auto with rsp..].
Qed.

(** The stream between the source and the endorsements. *)
Definition body_stream (core : option CoreMessage) (nonce : option Uuid) (mid : bytes) (trace : option bool)
    (tl : bytes) : bytes :=
  hashCoreLow core ++ if_present 22 hashUuid nonce ++ mid ++ if_present 24 feedBool trace ++ hashCoreHigh core ++ tl.

Lemma next_after_low core n mid t tl :
  hashCoreMiddle core = Ok mid -> next_tag 100 tl ->
  next_tag 24 (if_present 24 feedBool t ++ hashCoreHigh core ++ tl)
  /\ next_tag 22 (if_present 22 hashUuid n ++ mid ++ if_present 24 feedBool t ++ hashCoreHigh core ++ tl)
  /\ next_tag 3 (body_stream core n mid t tl).
Proof.
  intros Em Ht.
  assert (Hr : next_tag 24 (if_present 24 feedBool t ++ hashCoreHigh core ++ tl)).
  { apply next_tag_if_present; [lia|]. eapply next_tag_weaken; [|by apply next_high]. lia. }
  assert (Hn : next_tag 22 (if_present 22 hashUuid n ++ mid ++ if_present 24 feedBool t ++ hashCoreHigh core ++ tl)).
  { apply next_tag_if_present; [lia|]. eapply next_tag_weaken; [|by eapply next_middle]. lia. }
  split; [done|]. split; [done|]. by apply next_low.
Qed.

Lemma body_split c n mid t tl c' n' mid' t' tl' :
  on_child core_ok c -> on_child core_ok c' -> on_child short n -> on_child short n' ->
  hashCoreMiddle c = Ok mid -> hashCoreMiddle c' = Ok mid' -> next_tag 100 tl -> next_tag 100 tl' ->
  body_stream c n mid t tl = body_stream c' n' mid' t' tl' -> c = c' /\ n = n' /\ t = t' /\ tl = tl'.
Proof.
  intros Hc Hc' Hn Hn' Em Em' Ht Ht' H.
  destruct (next_after_low c n mid t tl Em Ht) as (Hr & Hnn & _).
  destruct (next_after_low c' n' mid' t' tl' Em' Ht') as (Hr' & Hnn' & _).
  pose proof (next_high c _ Ht) as Hh. pose proof (next_high c' _ Ht') as Hh'.
  pose proof (next_middle c mid _ Em Hr) as Hm. pose proof (next_middle c' mid' _ Em' Hr') as Hm'.
  unfold body_stream in H. apply low_split in H as [El H]; [|done..].
  apply (unambiguous_if_present 22 _ _ _ unambiguous_hashUuid) in H as [-> H]; [|done|done|..].
  2,3: split; [done|]; eapply next_not_tag; [eassumption|lia].
  apply (middle_split c c' mid mid') in H as [Emid H]; [|done..].
  apply (unambiguous_if_present 24 _ _ _ unambiguous_bool) in H as [-> H]; [|by destruct t|by destruct t'|..].
  2,3: split; [done|]; eapply next_not_tag; [eassumption|lia].
  apply high_split in H as [Eh ->]; [|done..]. split; [by apply parts_determine|done].
Qed.

Lemma stream_injective m m' b :
  message_ok m -> message_ok m' -> hashRSPMessage m = Ok b -> hashRSPMessage m' = Ok b ->
  covered m = covered m'
  /\ payload_stream <$> RSPMessage.service_message m = payload_stream <$> RSPMessage.service_message m'.
Proof.
  destruct m as [d s t c a n g es ids fs], m' as [d' s' t' c' a' n' g' es' ids' fs'].
  unfold message_ok, covered, hashRSPMessage.
  cbn [RSPMessage.destination RSPMessage.source RSPMessage.trace RSPMessage.core_message RSPMessage.service_message
       RSPMessage.nonce RSPMessage.endorsements RSPMessage.identities RSPMessage.encrypted_fields].
  destruct (hash_erase_core c) as (<- & <- & <-), (hash_erase_core c') as (<- & <- & <-).
  generalize (erase_core <$> c), (erase_core <$> c'). clear c c'. intros c c' Hok Hok'.
  destruct (hashCoreMiddle c) as [mid| | |] eqn:Em; try discriminate.
  destruct (hashCoreMiddle c') as [mid'| | |] eqn:Em'; try discriminate. cbn [mbind res_bind].
  set (tl := tag 100 ++ _). set (tl' := tag 100 ++ _).
  assert (Ht : next_tag 100 tl) by (eexists _, _; split; [done|lia]).
  assert (Ht' : next_tag 100 tl') by (eexists _, _; split; [done|lia]).
  fold (body_stream c n mid t tl) (body_stream c' n' mid' t' tl').
  intros H1 H2. assert (H : forall (x y : bytes), Ok x = Ok b -> Ok y = Ok b -> x = y) by congruence.
  specialize (H _ _ H1 H2). clear H1 H2.
  destruct (next_after_low c n mid t tl Em Ht) as (_ & _ & Hl).
  destruct (next_after_low c' n' mid' t' tl' Em' Ht') as (_ & _ & Hl').
  destruct Hok as (? & ? & ? & ? & ? & ? & ? & Hsv), Hok' as (? & ? & ? & ? & ? & ? & ? & Hsv').
  apply (unambiguous_if_present 1 _ _ _ unambiguous_hashNodeId) in H as [-> H]; [|done|done|..].
  2,3: split; [done|]; apply not_tag_if_present; [unfold is_u32; lia..|lia|]; eapply next_not_tag; [eassumption|lia].
  apply (unambiguous_if_present 2 _ _ _ unambiguous_hashNodeId) in H as [-> H]; [|done|done|..].
  2,3: split; [done|]; eapply next_not_tag; [eassumption|lia].
  apply body_split in H as (-> & -> & -> & H); [|done..].
  apply tail_split in H as (-> & -> & -> & H); [|done..].
  destruct (service_split a a' Hsv Hsv' H) as [-> ->]. done.
Qed.

Context {C : Crypto}.

(** C2.  The canonical hash covers the message: two well-formed messages with
    the same digest have the same destination, source, trace flag, core
    message, nonce, endorsements, identities and encrypted fields, the same type
    of service message, and service payloads that reflect to the same bytes;
    only the signature and the hash and version numbers of advertised schemas
    are left out.  Otherwise the two streams they feed are a collision of
    SHA-256. *)
Theorem computeMessageHash_binding m m' h :
  message_ok m -> message_ok m' -> computeMessageHash m = Ok h -> computeMessageHash m' = Ok h ->
  (covered m = covered m'
   /\ payload_stream <$> RSPMessage.service_message m = payload_stream <$> RSPMessage.service_message m')
  \/ (exists x y, hashRSPMessage m = Ok x /\ hashRSPMessage m' = Ok y /\ x <> y /\ sha256 x = sha256 y).
Proof.
  intros Hok Hok'. unfold computeMessageHash.
  destruct (hashRSPMessage m) as [x| | |] eqn:Hx; try discriminate.
  destruct (hashRSPMessage m') as [y| | |] eqn:Hy; try discriminate. cbn [mbind res_bind]. intros [= <-] [= Hh].
  destruct (decide (x = y)) as [->|Hne]; [left; by eapply stream_injective|].
  right. by exists x, y.
Qed.

(** The signature field is not part of the signed content, so a message can
    be hashed before and after it is signed with the same result. *)
Theorem computeMessageHash_ignores_signature m sig :
  computeMessageHash (RSPMessage.set_signature m sig) = computeMessageHash m.
Proof. reflexivity. Qed.
End Injective.

(** ** What the hash leaves out *)
Section Uncovered.
Context `{HC : HashCodec}.

(** Finding.  SSH resource records are not hashed: in a resource
    advertisement, the content of an [sshd] record can be replaced without
    changing the bytes that are signed. *)
Theorem sshd_records_not_covered m before r r' after schemas :
  hashRSPMessage (RSPMessage.set_core m (Some (ResourceAdvertisementMessage
    (ResourceAdvertisement.mk (before ++ Sshd r :: after) schemas))))
  = hashRSPMessage (RSPMessage.set_core m (Some (ResourceAdvertisementMessage
    (ResourceAdvertisement.mk (before ++ Sshd r' :: after) schemas)))).
Proof.
  unfold hashRSPMessage, RSPMessage.set_core.
  cbn [RSPMessage.core_message RSPMessage.destination RSPMessage.source RSPMessage.nonce RSPMessage.trace
       RSPMessage.endorsements RSPMessage.identities RSPMessage.encrypted_fields RSPMessage.service_message
       hashCoreMiddle hashCoreLow mbind res_bind].
  assert (Hr : forall x, counted hashResourceRecord (before ++ Sshd x :: after)
    = feedUint32 (wrap 32 (size_of before + 1 + size_of after)) ++ (before ≫= hashResourceRecord)
      ++ (after ≫= hashResourceRecord)).
  { intros x. unfold counted, size_of. rewrite length_app, bind_app. cbn [List.length mbind list_bind hashResourceRecord app].
    do 3 f_equal. lia. }
  unfold hashResourceAdvertisement. cbn [ResourceAdvertisement.records ResourceAdvertisement.schemas]. by rewrite !Hr.
Qed.

(** Finding.  The hash and the version number of an advertised schema are
    not hashed, although the resource manager files schemas by that hash. *)
Theorem schema_identity_not_covered m records schemas :
  hashRSPMessage (RSPMessage.set_core m (Some (ResourceAdvertisementMessage
    (ResourceAdvertisement.mk records schemas))))
  = hashRSPMessage (RSPMessage.set_core m (Some (ResourceAdvertisementMessage
    (ResourceAdvertisement.mk records (erase_schema <$> schemas))))).
Proof.
  unfold hashRSPMessage, RSPMessage.set_core.
  cbn [RSPMessage.core_message RSPMessage.destination RSPMessage.source RSPMessage.nonce RSPMessage.trace
       RSPMessage.endorsements RSPMessage.identities RSPMessage.encrypted_fields RSPMessage.service_message].
  destruct (hash_erase_core (Some (ResourceAdvertisementMessage (ResourceAdvertisement.mk records schemas))))
    as (Hl & _ & _). cbn [fmap option_fmap option_map erase_core ResourceAdvertisement.records
      ResourceAdvertisement.schemas] in Hl. rewrite Hl. reflexivity.
Qed.

(** Finding.  The payload of a service message whose type is not linked
    into the program (or does not parse) is not hashed: only its type url is. *)
Theorem unresolved_payload_not_covered m url v v' :
  UnpackGenerated (AnyMsg.mk url v) = None -> UnpackGenerated (AnyMsg.mk url v') = None ->
  hashServiceMessage (AnyMsg.mk url v) = hashServiceMessage (AnyMsg.mk url v')
  /\ (RSPMessage.service_message m = Some (AnyMsg.mk url v) ->
      exists m', RSPMessage.service_message m' = Some (AnyMsg.mk url v') /\ hashRSPMessage m' = hashRSPMessage m).
Proof.
  intros Hv Hv'. assert (He : hashServiceMessage (AnyMsg.mk url v) = hashServiceMessage (AnyMsg.mk url v')).
  { unfold hashServiceMessage. by rewrite Hv, Hv'. }
  split; [done|]. intros Hs. destruct m as [d s t c a n g es ids fs]. cbn in Hs. subst a.
  exists (RSPMessage.mk d s t c (Some (AnyMsg.mk url v')) n g es ids fs). split; [done|].
  unfold hashRSPMessage. cbn [RSPMessage.core_message RSPMessage.destination RSPMessage.source RSPMessage.nonce
    RSPMessage.trace RSPMessage.endorsements RSPMessage.identities RSPMessage.encrypted_fields
    RSPMessage.service_message if_present]. by rewrite He.
Qed.
End Uncovered.

(** Finding.  A list of identities is hashed without delimiters between
    its elements, so moving a public key from one identity to the next leaves
    the signed bytes unchanged. *)
Theorem identity_list_ambiguous nonce key :
  counted hashIdentity [Identity.mk (Some nonce) None None; Identity.mk None (Some key) None]
  = counted hashIdentity [Identity.mk (Some nonce) (Some key) None; Identity.mk None None None].
Proof.
  unfold counted, hashIdentity.
  cbn [size_of List.length mbind list_bind Identity.nonce Identity.public_key Identity.boot_id if_present].
  by rewrite !app_nil_r, <- !app_assoc.
Qed.

#[export] Instance toy_codec_laws : HashCodecLaws ToyCodec.toy_codec.
Proof.
  refine {| ParseTree := ToyCodec.parse |}. intros t b Hs. destruct t; cbn in Hs; try discriminate Hs; by injection Hs as <-.
Defined.

#[local] Existing Instances ToyCodec.toy_codec ToyCrypto.toy.

Lemma computeMessageHash_binding_witness :
  (covered (ToyCodec.ping 1) = covered (ToyCodec.ping 1)
   /\ payload_stream <$> RSPMessage.service_message (ToyCodec.ping 1)
      = payload_stream <$> RSPMessage.service_message (ToyCodec.ping 1))
  \/ (exists x y, hashRSPMessage (ToyCodec.ping 1) = Ok x
        /\ hashRSPMessage (ToyCodec.ping 1) = Ok y /\ x <> y /\ sha256 x = sha256 y).
Proof.
  assert (Hok : message_ok (ToyCodec.ping 1)).
  { unfold message_ok. split_and!.
    - vm_compute. reflexivity.
    - vm_compute. reflexivity.
    - cbn. unfold PingRequest_ok, is_u32, is_u64. cbn. split_and!; [vm_compute; reflexivity|lia..].
    - vm_compute. reflexivity.
    - split; [vm_compute; reflexivity|constructor].
    - split; [vm_compute; reflexivity|]. apply Forall_singleton. split; [|by eexists].
      split_and!; try exact I. cbn. unfold PublicKey_ok, is_i32, P256. cbn. split; [lia|vm_compute; reflexivity].
    - split; [vm_compute; reflexivity|constructor].
    - vm_compute. reflexivity. }
  eapply (computeMessageHash_binding (ToyCodec.ping 1) (ToyCodec.ping 1) _ Hok Hok);
    reflexivity.
Defined.

Lemma unresolved_payload_not_covered_witness :
  hashServiceMessage (AnyMsg.mk (bs "t/other") (bs "pay 1")) = hashServiceMessage (AnyMsg.mk (bs "t/other") (bs "pay 9")).
Proof.
  apply (unresolved_payload_not_covered RSPMessage.empty (bs "t/other") (bs "pay 1") (bs "pay 9")); reflexivity.
Defined.
