(* ===== verification/Signing.v ===== *)
(** * common/message_queue/mq_signing.cpp: sender, signing and signature checking

    The two queues that sign outgoing and check incoming messages.  A handler is
    a function from the message to the sequence of callback invocations it
    makes; the callbacks it is configured with are parameters.  The trace output
    on the error stream is not modelled. *)

From S2P Require Import Prelude BaseTypes Proto GuidBytes KeyPair MessageHash.

(** ** Sender and trace flag *)
Definition senderNodeIdFromMessage (m : RSPMessage.t) : option NodeID :=
  let from_source :=
    match RSPMessage.source m with Some s => nodeIdFromSourceField s | None => None end in
  match RSPMessage.signature m with
  | Some sig =>
      match SignatureBlock.signer sig with
      | Some signer =>
          match nodeIdFromSignerField signer with
          | Some id => Some id
          | None => from_source
          end
      | None => from_source
      end
  | None => from_source
  end.

Definition messageTraceEnabled (m : RSPMessage.t) : bool :=
  match RSPMessage.trace m with Some b => b | None => false end.

Definition copyMessageTrace (source destination : RSPMessage.t) : RSPMessage.t :=
  match RSPMessage.trace source with
  | Some b => RSPMessage.set_trace destination (Some b)
  | None => destination
  end.

(** ** Callbacks

    [None] in place of a message is the moved-from object a handler passes on
    when the success callback throws after it took the message. *)
Inductive CallbackEvent (F : Type) :=
| Succeeded (m : RSPMessage.t)
| Failed (m : option RSPMessage.t) (failure : F).
Arguments Succeeded {F} m.
Arguments Failed {F} m failure.

Section Queues.
Context `{H : HashCodec} `{C : Crypto}.

(** [GetKeyFunction]: a null pointer is [None]; the function may throw, and it is
    called outside the handlers' [try] blocks. *)
Abbreviation GetKeyFunction := (NodeID -> Res (option KeyPair)).

(** A success callback; it may throw. *)
Abbreviation OnSuccess := (RSPMessage.t -> Res unit).

(** [onSuccess_(std::move(message));] inside the [try] of a handler. *)
Definition callSuccess {F} (onSuccess : OnSuccess) (m : RSPMessage.t) (failure : exn -> F)
    : Res (list (CallbackEvent F)) :=
  match onSuccess m with
  | Ok _ => Ok [Succeeded m]
  | Throw e => Ok [Succeeded m; Failed None (failure e)]
  | Undefined => Undefined
  | NoFuel => NoFuel
  end.

(** *** MessageQueueSign *)
Definition signFailure (e : exn) : bytes := bs "signing failed: " ++ exn_what e.

(** [fresh] is the random id that [value_or(NodeID())] builds. *)
Definition MessageQueueSign_handleMessage (getKey : GetKeyFunction) (onSuccess : OnSuccess) (fresh : NodeID)
    (message : RSPMessage.t) : Res (list (CallbackEvent bytes)) :=
  let requestedNodeId := default fresh (senderNodeIdFromMessage message) in
  key ← getKey requestedNodeId;
  match key with
  | None => Ok [Failed (Some message) (bs "no signing key found for message sender")]
  | Some keyPair =>
      if negb (hasPrivateKey keyPair)
      then Ok [Failed (Some message) (bs "key for message sender has no private key")]
      else
        match signMessage keyPair message with
        | Ok block => callSuccess onSuccess (RSPMessage.set_signature message (Some block)) signFailure
        | Throw e => Ok [Failed (Some message) (signFailure e)]
        | Undefined => Undefined
        | NoFuel => NoFuel
        end
  end.

(** The constructor from a single key pair: the same key for every sender. *)
Definition MessageQueueSign_ofKeyPair (keyPair : KeyPair) : GetKeyFunction := fun _ => Ok (Some keyPair).

(** *** MessageQueueCheckSignature *)
Inductive FailureKind :=
| MissingSignature
| InvalidSignerNodeId
| MissingVerificationKey
| SignatureVerificationFailed
| InternalError.

Record Failure := mkFailure { kind : FailureKind; reason : bytes; signerNodeId : option NodeID }.

Definition checkFailure (nodeId : NodeID) (e : exn) : Failure :=
  mkFailure InternalError (bs "signature check failed: " ++ exn_what e) (Some nodeId).

Definition MessageQueueCheckSignature_handleMessage (getKey : GetKeyFunction) (onSuccess : OnSuccess)
    (message : RSPMessage.t) : Res (list (CallbackEvent Failure)) :=
  match RSPMessage.signature message with
  | None => Ok [Failed (Some message) (mkFailure MissingSignature (bs "message has no signature") None)]
  | Some signature =>
      match nodeIdFromSignerField (value_or_empty (SignatureBlock.signer signature)) with
      | None => Ok [Failed (Some message) (mkFailure InvalidSignerNodeId
                      (bs "signature signer has invalid node ID encoding") None)]
      | Some nodeId =>
          key ← getKey nodeId;
          match key with
          | None => Ok [Failed (Some message) (mkFailure MissingVerificationKey
                          (bs "no verification key found for signer node ID") (Some nodeId))]
          | Some keyPair =>
              match verifyMessageSignature keyPair message signature with
              | Ok true => callSuccess onSuccess message (checkFailure nodeId)
              | Ok false => Ok [Failed (Some message) (mkFailure SignatureVerificationFailed
                                  (bs "signature verification failed") (Some nodeId))]
              | Throw e => Ok [Failed (Some message) (checkFailure nodeId e)]
              | Undefined => Undefined
              | NoFuel => NoFuel
              end
          end
      end
  end.

(** The constructor from a single key pair compares the signer with its id. *)
Definition MessageQueueCheckSignature_ofKeyPair (keyPair : KeyPair) : GetKeyFunction := fun nodeId =>
  id ← nodeID keyPair; Ok (if bool_decide (nodeId = id) then Some keyPair else None).

(** [handleQueueFull] of the two queues; [onFailure_] is set. *)
Definition MessageQueueSign_handleQueueFull (limit : Z) (rejected : RSPMessage.t)
    : list (CallbackEvent bytes) :=
  [Failed (Some rejected) (bs "signing queue full (limit=" ++ to_string limit ++ bs ")")].

Definition MessageQueueCheckSignature_handleQueueFull (limit : Z) (rejected : RSPMessage.t)
    : list (CallbackEvent Failure) :=
  [Failed (Some rejected) (mkFailure InternalError
     (bs "check-signature queue full (limit=" ++ to_string limit ++ bs ")") None)].
End Queues.

(** ** Lemmas *)

Lemma decoders_agree b id id' :
  nodeIdFromSignerField b = Some id -> deserializeNodeIdBytes b = Ok id' -> id = id'.
Proof.
  unfold nodeIdFromSignerField, deserializeNodeIdBytes. destruct (negb _); [done|].
  intros [= <-] [= <-]. done.
Qed.

Lemma signBlock_signer `{C : Crypto} k m block :
  signBlock k m = Ok block ->
  exists id, nodeID k = Ok id /\ SignatureBlock.signer block = Some (serializeNodeIdBytes id).
Proof.
  unfold signBlock. destruct (sign k m); try discriminate. cbn [mbind res_bind].
  destruct (nodeID k) as [id| | |]; try discriminate. cbn [mbind res_bind].
  destruct (algorithmForKey k); try discriminate. cbn [mbind res_bind]. intros [= <-]. by exists id.
Qed.

Lemma callSuccess_events {F} onSuccess m (failure : exn -> F) evs m' :
  callSuccess onSuccess m failure = Ok evs -> Succeeded m' ∈ evs -> m' = m.
Proof.
  unfold callSuccess. destruct (onSuccess m); try discriminate; intros [= <-] Hin.
  - apply list_elem_of_singleton in Hin. by injection Hin.
  - rewrite !elem_of_cons, elem_of_nil in Hin. destruct Hin as [Hin|[Hin|[]]]; [by injection Hin|discriminate].
Qed.

Section Claims.
Context `{HC : HashCodec} `{C : Crypto}.

(** What the signing queue hands to its success callback. *)
Lemma sign_success getKey onSuccess fresh m evs m' :
  MessageQueueSign_handleMessage getKey onSuccess fresh m = Ok evs -> Succeeded m' ∈ evs ->
  exists k block, getKey (default fresh (senderNodeIdFromMessage m)) = Ok (Some k)
    /\ signMessage k m = Ok block /\ m' = RSPMessage.set_signature m (Some block).
Proof.
  unfold MessageQueueSign_handleMessage. destruct (getKey _) as [[k|]| | |]; try discriminate; cbn [mbind res_bind].
  - destruct (negb (hasPrivateKey k)).
    { intros [= <-] Hin. by apply list_elem_of_singleton in Hin. }
    destruct (signMessage k m) as [block| | |] eqn:Hs; try discriminate.
    + intros Hc Hin. exists k, block. split; [done|]. split; [done|]. by eapply callSuccess_events.
    + intros [= <-] Hin. by apply list_elem_of_singleton in Hin.
  - intros [= <-] Hin. by apply list_elem_of_singleton in Hin.
Qed.

Lemma signed_passes_check `{!CryptoLaws C} getKey onSuccess fresh m evs m' k id pk k' getKey' :
  MessageQueueSign_handleMessage getKey onSuccess fresh m = Ok evs -> Succeeded m' ∈ evs ->
  getKey (default fresh (senderNodeIdFromMessage m)) = Ok (Some k) ->
  nodeID k = Ok id -> publicKey k = Ok pk -> fromPublicKey pk = Ok k' -> getKey' id = Ok (Some k') ->
  MessageQueueCheckSignature_handleMessage getKey' (fun _ => Ok tt) m' = Ok [Succeeded m']
  /\ senderNodeIdFromMessage m' = Some id.
Proof.
  intros He Hin Hk Hid Hpk Hk' Hget.
  destruct (sign_success _ _ _ _ _ _ He Hin) as (k0 & block & Hk0 & Hs & ->).
  rewrite Hk in Hk0. injection Hk0 as <-. unfold signMessage in Hs.
  destruct (messageSignatureInput m) as [input| | |] eqn:Hi; try discriminate. cbn [mbind res_bind] in Hs.
  destruct (signBlock_signer _ _ _ Hs) as (id' & Hid' & Hsigner). rewrite Hid in Hid'. injection Hid' as <-.
  destruct (public_key_verifies _ _ _ _ Hs Hpk) as (k1 & Hk1 & _ & Hv). rewrite Hk' in Hk1. injection Hk1 as <-.
  assert (Hn : nodeIdFromSignerField (serializeNodeIdBytes id) = Some id).
  { apply nodeIdFromSignerField_serialize. by eapply nodeID_wf. }
  split.
  - unfold MessageQueueCheckSignature_handleMessage. cbn [RSPMessage.signature RSPMessage.set_signature].
    rewrite Hsigner. cbn [from_option Datatypes.id]. rewrite Hn, Hget. cbn [mbind res_bind].
    unfold verifyMessageSignature. assert (Hi' : messageSignatureInput (RSPMessage.set_signature m (Some block))
      = Ok input) by exact Hi.
    rewrite Hi'. cbn [mbind res_bind]. rewrite Hv. done.
  - unfold senderNodeIdFromMessage. cbn [RSPMessage.signature RSPMessage.set_signature]. by rewrite Hsigner, Hn.
Qed.

(** What one node signs, another accepts: if the signing queue succeeds on a
    message with some key, the checking queue of any peer that associates the
    signer's node id with the key rebuilt from the signer's public key passes
    the signed message on, unchanged, with a single call of its success
    callback. *)
Theorem signed_message_is_accepted `{!CryptoLaws C} getKey onSuccess fresh m evs m' k id pk k' getKey' :
  MessageQueueSign_handleMessage getKey onSuccess fresh m = Ok evs -> Succeeded m' ∈ evs ->
  getKey (default fresh (senderNodeIdFromMessage m)) = Ok (Some k) ->
  nodeID k = Ok id -> publicKey k = Ok pk -> fromPublicKey pk = Ok k' -> getKey' id = Ok (Some k') ->
  MessageQueueCheckSignature_handleMessage getKey' (fun _ => Ok tt) m' = Ok [Succeeded m']
  /\ senderNodeIdFromMessage m' = Some id.
Proof. apply signed_passes_check. Qed.

(** What an accepted message carries. *)
Lemma checkSignature_accepts getKey onSuccess m evs m' :
  MessageQueueCheckSignature_handleMessage getKey onSuccess m = Ok evs -> Succeeded m' ∈ evs ->
  m' = m /\ exists sig id key stream,
    RSPMessage.signature m = Some sig
    /\ getKey id = Ok (Some (Some key)) /\ nodeID (Some key) = Ok id
    /\ hashRSPMessage m = Ok stream
    /\ digest_verify key (sha256 stream) (SignatureBlock.signature sig) = Some true
    /\ senderNodeIdFromMessage m = Some id.
Proof.
  unfold MessageQueueCheckSignature_handleMessage. intros He Hin.
  destruct (RSPMessage.signature m) as [sig|] eqn:Hsig; [|injection He as <-; by apply list_elem_of_singleton in Hin].
  destruct (nodeIdFromSignerField _) as [id|] eqn:Hn; [|injection He as <-; by apply list_elem_of_singleton in Hin].
  destruct (getKey id) as [[k|]| | |] eqn:Hk; try discriminate; cbn [mbind res_bind] in He;
    [|injection He as <-; by apply list_elem_of_singleton in Hin].
  destruct (verifyMessageSignature k m sig) as [[]| | |] eqn:Hv; try discriminate;
    try (injection He as <-; by apply list_elem_of_singleton in Hin).
  split; [by eapply callSuccess_events|]. unfold verifyMessageSignature, messageSignatureInput, computeMessageHash in Hv.
  destruct (hashRSPMessage m) as [stream| | |] eqn:Hh; try discriminate. cbn [mbind res_bind] in Hv.
  unfold verifyBlock in Hv. destruct k as [key|]; [|discriminate]. cbn [isValid negb] in Hv.
  destruct (algorithmForKey (Some key)); try discriminate. cbn [mbind res_bind] in Hv.
  destruct (negb _); [discriminate|]. destruct (deserializeNodeIdBytes _) as [signer| | |] eqn:Hd; try discriminate.
  cbn [mbind res_bind] in Hv. destruct (nodeID (Some key)) as [nid| | |] eqn:Hid; try discriminate.
  cbn [mbind res_bind] in Hv. case_bool_decide as Heq; [|discriminate]. subst signer.
  pose proof (decoders_agree _ _ _ Hn Hd) as <-. cbn [verify] in Hv.
  exists sig, id, key, stream. split_and!; try done.
  - destruct (digest_verify key (sha256 stream) _) as [[]|]; by try discriminate.
  - unfold senderNodeIdFromMessage. rewrite Hsig. destruct (SignatureBlock.signer sig) as [b|]; cbn in Hn.
    + by rewrite Hn.
    + discriminate.
Qed.

(** C3.  What the checking queue lets through is authentic: the message is passed
    on unchanged, it carries a signature whose signer is the node id of the key
    the queue looked up, that key verifies the signature over the digest of the
    message, and the same node id is the sender that authorization uses. *)
Theorem accepted_message_is_authentic getKey onSuccess m evs m' :
  MessageQueueCheckSignature_handleMessage getKey onSuccess m = Ok evs -> Succeeded m' ∈ evs ->
  m' = m /\ exists sig id key stream,
    RSPMessage.signature m = Some sig
    /\ getKey id = Ok (Some (Some key)) /\ nodeID (Some key) = Ok id
    /\ hashRSPMessage m = Ok stream
    /\ digest_verify key (sha256 stream) (SignatureBlock.signature sig) = Some true
    /\ senderNodeIdFromMessage m = Some id.
Proof. apply checkSignature_accepts. Qed.

Lemma messageSignatureInput_defined m : defined (messageSignatureInput m).
Proof.
  unfold messageSignatureInput, computeMessageHash, hashRSPMessage. apply defined_bind; [|done].
  apply defined_bind; [|done]. destruct (RSPMessage.core_message m) as [[]|]; try done. cbn. unfold hashEndorsementNeeded.
  destruct (EndorsementNeeded.tree _) as [t|]; [|done]. by destruct (SerializeTree t).
Qed.

Lemma verifyMessageSignature_defined k m sig : defined (verifyMessageSignature k m sig).
Proof. apply defined_bind; [apply messageSignatureInput_defined|]. intros. apply verifyBlock_defined. Qed.

Lemma signMessage_defined k m : defined (signMessage k m).
Proof. apply defined_bind; [apply messageSignatureInput_defined|]. intros. apply signBlock_defined. Qed.

(** Every message the checking queue handles has exactly one outcome: with a
    key lookup and a success callback that do not throw, the handler makes a
    single callback, which is the success callback with the message, or the
    failure callback with the untouched message and a reason. *)
Theorem check_signature_single_outcome getKey onSuccess m :
  (forall id, exists r, getKey id = Ok r) -> (forall x, onSuccess x = Ok tt) ->
  MessageQueueCheckSignature_handleMessage getKey onSuccess m = Ok [Succeeded m]
  \/ exists f, MessageQueueCheckSignature_handleMessage getKey onSuccess m = Ok [Failed (Some m) f].
Proof.
  intros Hg Ho. unfold MessageQueueCheckSignature_handleMessage.
  destruct (RSPMessage.signature m) as [sig|]; [|by eauto].
  destruct (nodeIdFromSignerField _) as [id|]; [|by eauto].
  destruct (Hg id) as [[k|] ->]; cbn [mbind res_bind]; [|by eauto].
  pose proof (verifyMessageSignature_defined k m sig) as Hp.
  destruct (verifyMessageSignature k m sig) as [[]| | |]; try done; [|by eauto..].
  left. unfold callSuccess. by rewrite Ho.
Qed.

(** Finding.  The convenience constructor of the signing queue promises to
    use its key only when the message's source is the key's own node; it signs a
    message that names another node as its source just as well. *)
Theorem single_key_signs_for_any_source `{!CryptoLaws C} k id other fresh m block :
  hasPrivateKey k = true -> nodeID k = Ok id -> GUID_wf other -> other <> id ->
  RSPMessage.signature m = None -> RSPMessage.source m = Some (toProtoNodeId other) ->
  signMessage k m = Ok block ->
  senderNodeIdFromMessage m = Some other
  /\ exists m', MessageQueueSign_handleMessage (MessageQueueSign_ofKeyPair k) (fun _ => Ok tt) fresh m
                = Ok [Succeeded m']
      /\ senderNodeIdFromMessage m' = Some id.
Proof.
  intros Hp Hid Hwf Hne Hsig Hsrc Hs. split.
  { unfold senderNodeIdFromMessage. rewrite Hsig, Hsrc. by apply nodeIdFromSourceField_toProto. }
  unfold MessageQueueSign_handleMessage, MessageQueueSign_ofKeyPair. cbn [mbind res_bind].
  rewrite Hp, Hs. cbn [negb callSuccess]. eexists; split; [done|].
  unfold signMessage in Hs. destruct (messageSignatureInput m); try discriminate.
  destruct (signBlock_signer _ _ _ Hs) as (id' & Hid' & Hb). rewrite Hid in Hid'. injection Hid' as <-.
  unfold senderNodeIdFromMessage. cbn [RSPMessage.signature RSPMessage.set_signature]. rewrite Hb.
  rewrite nodeIdFromSignerField_serialize; [done|]. by eapply nodeID_wf.
Qed.
End Claims.

(** ** Witnesses *)
#[local] Existing Instances ToyCodec.toy_codec ToyCrypto.toy ToyCrypto.toy_laws.

Definition alice_id : NodeID := mkGUID (be_value 64 (bs "Dalice" ++ replicate 2 (byte_of 0))) 0.
Definition alice_public : KeyPair := Some (bs "alice", false).

(** The ping of [ToyCodec], signed by alice. *)
Definition signed_ping : RSPMessage.t :=
  match signMessage ToyCrypto.alice (ToyCodec.ping 1) with
  | Ok block => RSPMessage.set_signature (ToyCodec.ping 1) (Some block)
  | _ => RSPMessage.empty
  end.

Lemma signed_message_is_accepted_witness :
  MessageQueueCheckSignature_handleMessage (fun _ => Ok (Some alice_public)) (fun _ => Ok tt) signed_ping
  = Ok [Succeeded signed_ping].
Proof.
  eapply (signed_message_is_accepted (fun _ => Ok (Some ToyCrypto.alice)) (fun _ => Ok tt) alice_id (ToyCodec.ping 1)
    [Succeeded signed_ping] signed_ping ToyCrypto.alice alice_id (PublicKey.mk P256 (bs "Palice")) alice_public).
  - vm_compute. reflexivity.
  - left.
  - reflexivity.
  - vm_compute. reflexivity.
  - vm_compute. reflexivity.
  - vm_compute. reflexivity.
  - reflexivity.
Defined.

Lemma accepted_message_is_authentic_witness : exists id, senderNodeIdFromMessage signed_ping = Some id.
Proof.
  destruct (accepted_message_is_authentic (fun _ => Ok (Some alice_public)) (fun _ => Ok tt) signed_ping
    [Succeeded signed_ping] signed_ping) as (_ & sig & id & key & stream & _ & _ & Hid & _ & _ & Hs).
  - vm_compute. reflexivity.
  - left.
  - exists id. exact Hs.
Defined.

Lemma check_signature_single_outcome_witness :
  exists f, MessageQueueCheckSignature_handleMessage (fun _ => Ok None) (fun _ => Ok tt) signed_ping
            = Ok [Failed (Some signed_ping) f].
Proof.
  destruct (check_signature_single_outcome (fun _ => Ok None) (fun _ => Ok tt) signed_ping) as [H|H].
  - intros id. by exists None.
  - done.
  - exfalso. vm_compute in H. discriminate H.
  - exact H.
Defined.

(** An unsigned message that names another node as its source. *)
Definition foreign_message : RSPMessage.t :=
  RSPMessage.set_source RSPMessage.empty (Some (toProtoNodeId (mkGUID 7 9))).

Lemma single_key_signs_for_any_source_witness :
  senderNodeIdFromMessage foreign_message = Some (mkGUID 7 9).
Proof.
  eapply (single_key_signs_for_any_source ToyCrypto.alice alice_id (mkGUID 7 9) (mkGUID 0 0) foreign_message).
  - reflexivity.
  - vm_compute. reflexivity.
  - split; unfold is_u64; cbn; lia.
  - discriminate.
  - reflexivity.
  - reflexivity.
  - vm_compute. reflexivity.
Defined.
