(* ===== verification/AuthZ.v ===== *)
(** * common/message_queue/mq_authz.cpp: the authorization queue

    The handler reduces the queue's requirement tree with the sender's
    endorsements and the message and lets the message pass when nothing of the
    tree is left. *)

From S2P Require Import Prelude BaseTypes Proto EndorsementCodec FieldResolver Requirement Signing.

(** The callbacks of the queue; [None] is the moved-from message the failure
    callback gets when the success callback throws. *)
Inductive AuthZEvent :=
| Authorized (m : RSPMessage.t)
| Rejected (m : option RSPMessage.t).

Section AuthZ.
(** [as_message] is the message as protobuf's reflection sees it. *)
Context `{R : Reflection} (as_message : RSPMessage.t -> Message).

Record MessageQueueAuthZ := mkAuthZ {
  success_ : RSPMessage.t -> Res unit;
  getEndorsements_ : NodeID -> Res (list Endorsement.t);
  authorizationTree_ : ERDAbstractSyntaxTree;
  schemaRegistry_ : option SchemaRegistry.t }.

Definition snapshot_of (q : MessageQueueAuthZ) : option SchemaSnapshot.t :=
  SchemaRegistry.snapshot <$> schemaRegistry_ q.

Definition MessageQueueAuthZ_handleMessage (q : MessageQueueAuthZ) (message : RSPMessage.t)
    : Res (list AuthZEvent) :=
  match senderNodeIdFromMessage message with
  | None => Ok [Rejected (Some message)]
  | Some sourceNodeId =>
      match getEndorsements_ q sourceNodeId with
      | Throw _ => Ok [Rejected (Some message)]
      | Undefined => Undefined
      | NoFuel => NoFuel
      | Ok endorsements =>
          match reduceRequirementTree endorsements (Some (as_message message)) (snapshot_of q)
                  (authorizationTree_ q) with
          | Ok reducedRequirement =>
              if isEmptyTree reducedRequirement then
                match success_ q message with
                | Ok _ => Ok [Authorized message]
                | Throw _ => Ok [Authorized message; Rejected None]
                | Undefined => Undefined
                | NoFuel => NoFuel
                end
              else Ok [Rejected (Some message)]
          | Throw _ => Ok [Rejected (Some message)]
          | Undefined => Undefined
          | NoFuel => NoFuel
          end
      end
  end.

Definition MessageQueueAuthZ_handleQueueFull (message : RSPMessage.t) : list AuthZEvent := [Rejected (Some message)].

(** What an authorized message satisfies. *)
Lemma authz_accepts q message evs m' :
  MessageQueueAuthZ_handleMessage q message = Ok evs -> Authorized m' ∈ evs ->
  m' = message /\ exists id es,
    senderNodeIdFromMessage message = Some id /\ getEndorsements_ q id = Ok es
    /\ (monotone (authorizationTree_ q) ->
        sat (Some (as_message message)) (snapshot_of q) es (authorizationTree_ q) = true).
Proof.
  unfold MessageQueueAuthZ_handleMessage. intros He Hin.
  destruct (senderNodeIdFromMessage message) as [id|]; [|injection He as <-; by apply list_elem_of_singleton in Hin].
  destruct (getEndorsements_ q id) as [es| | |] eqn:Hes; try discriminate;
    [|injection He as <-; by apply list_elem_of_singleton in Hin].
  destruct (reduceRequirementTree es _ _ _) as [t| | |] eqn:Hr; try discriminate;
    [|injection He as <-; by apply list_elem_of_singleton in Hin].
  destruct (isEmptyTree t) eqn:Ht; [|injection He as <-; by apply list_elem_of_singleton in Hin].
  split; [|exists id, es; split; [done|]; split; [done|]].
  - destruct (success_ q message); try discriminate; injection He as <-.
    + apply list_elem_of_singleton in Hin. by injection Hin.
    + rewrite !elem_of_cons, elem_of_nil in Hin. destruct Hin as [Hin|[Hin|[]]]; [by injection Hin|discriminate].
  - intros Hm. by eapply reduced_empty_sat.
Qed.

(** C4.  Access control for rules without EQUALS: a message that leaves the
    authorization queue on its success side is the received message, unchanged, and has
    an identified sender whose endorsements could be looked up; if the rule of the queue
    is built from AND, OR, ALLOF, ANYOF, constants and predicates (EQUALS inside a
    predicate included, but not above the predicates), the sender's endorsements
    together with the message satisfy it.  Neither a failing endorsement lookup nor an
    exception in a predicate lets the message through.  For a rule with EQUALS above
    its predicates this is false: [equals_rule_is_void]. *)
Theorem authorization_is_sound q message evs m' :
  MessageQueueAuthZ_handleMessage q message = Ok evs -> Authorized m' ∈ evs ->
  m' = message /\ exists id es,
    senderNodeIdFromMessage message = Some id /\ getEndorsements_ q id = Ok es
    /\ (monotone (authorizationTree_ q) ->
        sat (Some (as_message message)) (snapshot_of q) es (authorizationTree_ q) = true).
Proof. apply authz_accepts. Qed.

(** Finding.  A rule that compares a message predicate with EQUALS protects nothing.
    The rule EQUALS(predicate, FALSE), for "the message must not be such", lets every
    message of a sender with an endorsement through, also the ones the predicate holds
    for: the reduction first asks whether some endorsement satisfies the whole tree,
    and for an endorsement every message predicate is false. *)
Theorem equals_rule_is_void q message id e es predicate :
  authorizationTree_ q = Equals (Some (Leaf (MessageNode predicate))) (Some FalseValue) ->
  senderNodeIdFromMessage message = Some id -> getEndorsements_ q id = Ok (e :: es) -> success_ q message = Ok tt ->
  MessageQueueAuthZ_handleMessage q message = Ok [Authorized message].
Proof. intros Ht Hs He Hok. unfold MessageQueueAuthZ_handleMessage. by rewrite Hs, He, Ht, Hok. Qed.

(** Authorization is complete and answers once: for a sender whose
    endorsement lookup succeeds and a rule whose predicates raise nothing on
    this message, the queue makes exactly one callback, and it is the success
    callback precisely when the rule holds. *)
Theorem authorization_decides q message id es :
  monotone (authorizationTree_ q) ->
  senderNodeIdFromMessage message = Some id -> getEndorsements_ q id = Ok es ->
  all_leaves (leaf_defined es (Some (as_message message)) (snapshot_of q)) (authorizationTree_ q) ->
  success_ q message = Ok tt ->
  MessageQueueAuthZ_handleMessage q message
  = Ok [if sat (Some (as_message message)) (snapshot_of q) es (authorizationTree_ q)
        then Authorized message else Rejected (Some message)].
Proof.
  intros Hm Hid Hes Hl Hs. unfold MessageQueueAuthZ_handleMessage. rewrite Hid, Hes.
  destruct (reduced_exact es (Some (as_message message)) (snapshot_of q) (authorizationTree_ q) Hm Hl)
    as (t & -> & Ht & _). rewrite Ht. destruct (sat _ _ _ _); [by rewrite Hs|done].
Qed.
End AuthZ.

(** ** Witnesses *)
Definition sample_message : RSPMessage.t :=
  RSPMessage.set_source RSPMessage.empty (Some (bs "0123456789abcdef")).

Definition sample_queue : MessageQueueAuthZ :=
  mkAuthZ (fun _ => Ok tt) (fun _ => Ok [admin_endorsement]) sample_rule None.

Lemma authorization_is_sound_witness :
  exists es, sat (R := ToyReflection.toy_reflection) (Some ToyReflection.sample) None es sample_rule = true.
Proof.
  destruct (authorization_is_sound (R := ToyReflection.toy_reflection) (fun _ => ToyReflection.sample)
    sample_queue sample_message [Authorized sample_message] sample_message) as (_ & id & es & _ & Hes & Hsat).
  - vm_compute. reflexivity.
  - left.
  - exists es. apply Hsat. vm_compute. repeat split.
Defined.

(** The predicate holds for every message. *)
Definition never_queue : MessageQueueAuthZ :=
  mkAuthZ (fun _ => Ok tt) (fun _ => Ok [admin_endorsement]) (Equals (Some (Leaf (MessageNode (Some TrueValue)))) (Some FalseValue)) None.

Lemma equals_rule_is_void_witness :
  MessageQueueAuthZ_handleMessage (R := ToyReflection.toy_reflection) (fun _ => ToyReflection.sample) never_queue sample_message
  = Ok [Authorized sample_message].
Proof.
  eapply (equals_rule_is_void (R := ToyReflection.toy_reflection) (fun _ => ToyReflection.sample)); reflexivity.
Defined.

Lemma authorization_decides_witness :
  MessageQueueAuthZ_handleMessage (R := ToyReflection.toy_reflection) (fun _ => ToyReflection.sample)
    sample_queue sample_message = Ok [Authorized sample_message].
Proof.
  etransitivity.
  - eapply (authorization_decides (R := ToyReflection.toy_reflection) (fun _ => ToyReflection.sample) sample_queue
      sample_message _ [admin_endorsement]).
    + vm_compute. repeat split.
    + vm_compute. reflexivity.
    + reflexivity.
    + unfold sample_queue, sample_rule. cbn [authorizationTree_ all_leaves leaf_defined]. repeat split.
      * intros e He. apply list_elem_of_singleton in He as ->. eexists. vm_compute. reflexivity.
      * intros m [= <-]. eexists. vm_compute. reflexivity.
      * intros m [= <-]. eexists. vm_compute. reflexivity.
    + reflexivity.
  - vm_compute. reflexivity.
Defined.
