(* ===== verification/IdentityQueue.v ===== *)
(** * common/message_queue/mq_signing.cpp: MessageQueueRequestIdentity

    Messages whose signer is not known yet wait here, grouped by signer, while
    one resolver thread per signer asks for the identity.  The state is what
    [pendingMutex_] protects together with the running resolver threads; a step
    is a critical section of the handler or of a resolver with the callbacks it
    leads to, so that a run is an interleaving of the threads.  The callbacks
    [hasIdentity_] and [requestIdentity_] and the clock may answer anything at
    any time: the steps do not constrain them.  A resolver counts as returned
    once it has drained its signer, since all it does after that is to hand over
    the drained messages. *)

From S2P Require Import Prelude BaseTypes Proto.

Record Limits := mkLimits { maxPendingMessages : Z; maxPendingPerSigner : Z }.

Record PendingSignerState := mkPending { messages : list RSPMessage.t; resolverActive : bool }.

(** A resolver before and after [requestIdentity_] succeeded. *)
Inductive Phase := Starting | Waiting.

Record State := mkState {
  pendingBySigner_ : gmap NodeID PendingSignerState;
  totalPendingMessages_ : Z;
  stopping_ : bool;
  (** the resolver threads that have not returned, with their progress *)
  resolvers : list (NodeID * Phase) }.

Definition initial : State := mkState ∅ 0 false [].

(** The calls of [replay_] and of [onFailure_]. *)
Inductive Event :=
| Replayed (m : RSPMessage.t)
| FailedMessage (m : RSPMessage.t) (reason : bytes).

Definition event_message (e : Event) : RSPMessage.t :=
  match e with Replayed m | FailedMessage m _ => m end.

Section Operations.
Context (limits : Limits) (replay : RSPMessage.t -> bool).

(** [handleMessage]: the critical section and what follows it.  A started
    resolver is added to the running ones. *)
Definition handleMessage (s : State) (m : RSPMessage.t) (signer : NodeID) : State * list Event :=
  if stopping_ s then (s, [FailedMessage m (bs "identity resolution queue is stopping")])
  else if negb (maxPendingMessages limits =? 0) && (maxPendingMessages limits <=? totalPendingMessages_ s)
  then (s, [FailedMessage m (bs "identity resolution queue exceeded max pending messages ("
                             ++ to_string (maxPendingMessages limits) ++ bs ")")])
  else
    (** [pendingBySigner_[signer]] inserts an empty entry *)
    let state := default (mkPending [] false) (pendingBySigner_ s !! signer) in
    if negb (maxPendingPerSigner limits =? 0) && (maxPendingPerSigner limits <=? size_of (messages state))
    then (mkState (<[signer := state]> (pendingBySigner_ s)) (totalPendingMessages_ s) (stopping_ s) (resolvers s),
          [FailedMessage m (bs "identity resolution queue exceeded max pending messages for signer ("
                            ++ to_string (maxPendingPerSigner limits) ++ bs ")")])
    else
      let state' := mkPending (messages state ++ [m]) true in
      (mkState (<[signer := state']> (pendingBySigner_ s)) (totalPendingMessages_ s + 1) (stopping_ s)
         (if resolverActive state then resolvers s else (signer, Starting) :: resolvers s), []).

Definition drainSignerMessagesLocked (s : State) (signer : NodeID) : State * list RSPMessage.t :=
  match pendingBySigner_ s !! signer with
  | None => (s, [])
  | Some state =>
      (mkState (delete signer (pendingBySigner_ s)) (totalPendingMessages_ s - size_of (messages state))
         (stopping_ s) (resolvers s), messages state)
  end.

Definition replayMessages (ms : list RSPMessage.t) : list Event :=
  (fun m => if replay m then Replayed m
            else FailedMessage m (bs "failed to requeue message for signature verification")) <$> ms.

Definition failMessages (ms : list RSPMessage.t) (reason : bytes) : list Event :=
  (fun m => FailedMessage m reason) <$> ms.

(** The first resolver of this signer. *)
Fixpoint remove_resolver (signer : NodeID) (l : list (NodeID * Phase)) : list (NodeID * Phase) :=
  match l with
  | [] => []
  | (n, ph) :: l' => if bool_decide (n = signer) then l' else (n, ph) :: remove_resolver signer l'
  end.

Fixpoint set_waiting (signer : NodeID) (l : list (NodeID * Phase)) : list (NodeID * Phase) :=
  match l with
  | [] => []
  | (n, ph) :: l' => if bool_decide (n = signer) then (n, Waiting) :: l' else (n, ph) :: set_waiting signer l'
  end.

Definition with_resolvers (s : State) (l : list (NodeID * Phase)) : State :=
  mkState (pendingBySigner_ s) (totalPendingMessages_ s) (stopping_ s) l.

(** How [resolveSigner] can end: the identity is known, the request fails, or the
    wait is given up; each drains the signer's messages. *)
Inductive Ending := IdentityKnown | RequestFailed | Stopping | TimedOut.

Definition ending_events (e : Ending) (ms : list RSPMessage.t) : list Event :=
  match e with
  | IdentityKnown => replayMessages ms
  | RequestFailed => failMessages ms (bs "failed to request identity for signer")
  | Stopping => failMessages ms (bs "identity resolution queue is stopping")
  | TimedOut => failMessages ms (bs "timed out waiting for signer identity")
  end.

Definition resolveSigner_end (s : State) (signer : NodeID) (e : Ending) : State * list Event :=
  let '(s', drained) := drainSignerMessagesLocked s signer in
  (with_resolvers s' (remove_resolver signer (resolvers s')), ending_events e drained).

(** The destructor's [stopping_ = true]. *)
Definition set_stopping (s : State) : State :=
  mkState (pendingBySigner_ s) (totalPendingMessages_ s) true (resolvers s).

(** One step: the message submitted in it, if any, and the callbacks made. *)
Inductive step : State -> list RSPMessage.t -> list Event -> State -> Prop :=
| step_handle s m signer s' evs :
    handleMessage s m signer = (s', evs) -> step s [m] evs s'
| step_known s signer ph s' evs :
    (signer, ph) ∈ resolvers s -> resolveSigner_end s signer IdentityKnown = (s', evs) -> step s [] evs s'
| step_request_failed s signer s' evs :
    (signer, Starting) ∈ resolvers s -> resolveSigner_end s signer RequestFailed = (s', evs) -> step s [] evs s'
| step_requested s signer :
    (signer, Starting) ∈ resolvers s -> step s [] [] (with_resolvers s (set_waiting signer (resolvers s)))
| step_gone s signer :
    (signer, Waiting) ∈ resolvers s -> pendingBySigner_ s !! signer = None ->
    step s [] [] (with_resolvers s (remove_resolver signer (resolvers s)))
| step_stopping s signer s' evs :
    (signer, Waiting) ∈ resolvers s -> is_Some (pendingBySigner_ s !! signer) -> stopping_ s = true ->
    resolveSigner_end s signer Stopping = (s', evs) -> step s [] evs s'
| step_timeout s signer s' evs :
    (signer, Waiting) ∈ resolvers s -> is_Some (pendingBySigner_ s !! signer) -> stopping_ s = false ->
    resolveSigner_end s signer TimedOut = (s', evs) -> step s [] evs s'
| step_stop s : step s [] [] (set_stopping s).

(** A run: the messages submitted and the callbacks made along it. *)
Inductive run : list RSPMessage.t -> list Event -> State -> Prop :=
| run_start : run [] [] initial
| run_step ins outs s ins' outs' s' :
    run ins outs s -> step s ins' outs' s' -> run (ins ++ ins') (outs ++ outs') s'.

(** ** Invariant *)
Definition pending_of (m : gmap NodeID PendingSignerState) : list RSPMessage.t :=
  map_to_list m ≫= (fun p => messages p.2).

Definition pending_messages (s : State) : list RSPMessage.t := pending_of (pendingBySigner_ s).

Definition entry_ok (st : PendingSignerState) : Prop :=
  messages st <> [] /\ resolverActive st = true
  /\ (maxPendingPerSigner limits <> 0 -> size_of (messages st) <= maxPendingPerSigner limits).

Definition invariant (s : State) : Prop :=
  totalPendingMessages_ s = size_of (pending_messages s)
  /\ (maxPendingMessages limits <> 0 -> totalPendingMessages_ s <= maxPendingMessages limits)
  /\ map_Forall (fun _ => entry_ok) (pendingBySigner_ s)
  /\ NoDup (resolvers s).*1
  /\ (forall n, n ∈ (resolvers s).*1 <-> is_Some (pendingBySigner_ s !! n)).

Definition limits_ok : Prop := 0 <= maxPendingMessages limits /\ 0 <= maxPendingPerSigner limits.
End Operations.

(** ** Lemmas *)

Lemma pending_insert_fresh m n st :
  m !! n = None -> pending_of (<[n := st]> m) ≡ₚ messages st ++ pending_of m.
Proof. intros Hn. unfold pending_of. by rewrite map_to_list_insert. Qed.

Lemma pending_delete m n st :
  m !! n = Some st -> pending_of m ≡ₚ messages st ++ pending_of (delete n m).
Proof. intros Hn. unfold pending_of. by rewrite <- (map_to_list_delete m n st). Qed.

Lemma pending_insert m n st st' :
  m !! n = Some st -> pending_of (<[n := st']> m) ≡ₚ messages st' ++ pending_of (delete n m).
Proof.
  intros Hn. rewrite <- insert_delete_eq. apply pending_insert_fresh, lookup_delete_eq.
Qed.

Lemma ending_messages replay e ms : event_message <$> ending_events replay e ms = ms.
Proof.
  assert (Hf : forall reason, event_message <$> failMessages ms reason = ms).
  { intros reason. unfold failMessages. rewrite <- list_fmap_compose. apply list_fmap_id. }
  destruct e; cbn [ending_events]; try done. unfold replayMessages.
  induction ms as [|m ms IH]; [done|]. cbn. rewrite IH by (intros; unfold failMessages;
    rewrite <- list_fmap_compose; apply list_fmap_id). by destruct (replay m).
Qed.

Lemma remove_resolver_spec n l :
  NoDup l.*1 -> n ∈ l.*1 -> l.*1 ≡ₚ n :: (remove_resolver n l).*1.
Proof.
  induction l as [|[n' ph] l IH]; cbn; [intros _ Hn; by apply elem_of_nil in Hn|]. intros Hnd Hin.
  apply NoDup_cons in Hnd as [Hnot Hnd]. case_bool_decide as Heq; [by subst|].
  apply elem_of_cons in Hin as [->|Hin]; [done|]. cbn. rewrite IH by done. apply Permutation_swap.
Qed.

Lemma set_waiting_names n l : (set_waiting n l).*1 = l.*1.
Proof. induction l as [|[n' ph] l IH]; [done|]. cbn. case_bool_decide; cbn; by rewrite ?IH. Qed.

Section Invariant.
Context (limits : Limits) (replay : RSPMessage.t -> bool).
Hypothesis Hlimits : limits_ok limits.

(** What a step must establish. *)
Definition step_ok (s : State) (ins : list RSPMessage.t) (outs : list Event) (s' : State) : Prop :=
  invariant limits s' /\ pending_messages s ++ ins ≡ₚ (event_message <$> outs) ++ pending_messages s'.

Lemma rejected_ok s m reason : invariant limits s -> step_ok s [m] [FailedMessage m reason] s.
Proof. intros Hinv. split; [done|]. cbn. apply Permutation_app_comm. Qed.

Lemma accepted_ok s m signer :
  invariant limits s ->
  (maxPendingMessages limits <> 0 -> totalPendingMessages_ s < maxPendingMessages limits) ->
  let state := default (mkPending [] false) (pendingBySigner_ s !! signer) in
  (maxPendingPerSigner limits <> 0 -> size_of (messages state) < maxPendingPerSigner limits) ->
  step_ok s [m] []
    (mkState (<[signer := mkPending (messages state ++ [m]) true]> (pendingBySigner_ s)) (totalPendingMessages_ s + 1)
       (stopping_ s) (if resolverActive state then resolvers s else (signer, Starting) :: resolvers s)).
Proof.
  intros (Ht & Hmax & Hall & Hnd & Hres) Hroom state Hper. unfold step_ok, invariant, pending_messages in *. cbn.
  assert (Hperm : pending_of (<[signer := mkPending (messages state ++ [m]) true]> (pendingBySigner_ s))
    ≡ₚ pending_of (pendingBySigner_ s) ++ [m]).
  { subst state. destruct (pendingBySigner_ s !! signer) as [st|] eqn:Hs; cbn.
    - rewrite (pending_insert _ _ _ _ Hs), (pending_delete _ _ _ Hs). cbn. rewrite <- !app_assoc.
      apply Permutation_app_head, Permutation_app_comm.
    - rewrite pending_insert_fresh by done. cbn. apply Permutation_cons_append. }
  assert (Hentry : entry_ok limits (mkPending (messages state ++ [m]) true)).
  { split; [by destruct (messages state)|]. split; [done|]. intros Hne. specialize (Hper Hne).
    unfold size_of in *. cbn. rewrite length_app. cbn. lia. }
  split; [|done]. split_and!.
  - unfold size_of in *. rewrite Hperm, length_app, Ht. cbn. lia.
  - intros Hne. specialize (Hroom Hne). lia.
  - by apply map_Forall_insert_2.
  - subst state. destruct (pendingBySigner_ s !! signer) as [st|] eqn:Hs; cbn.
    + by destruct (Hall _ _ Hs) as (_ & -> & _).
    + apply NoDup_cons. split; [|done]. rewrite Hres, Hs. by intros [? ?].
  - intros n. subst state. rewrite lookup_insert. destruct (pendingBySigner_ s !! signer) as [st|] eqn:Hs; cbn.
    + destruct (Hall _ _ Hs) as (_ & -> & _). rewrite Hres. case_decide as Hn; [|done]. subst. rewrite Hs.
      split; by eexists.
    + rewrite elem_of_cons, Hres. case_decide as Hn; [subst; split; [by eexists|by left]|].
      split; [intros [->|?]; done|by right].
Qed.

Lemma handle_ok s m signer s' evs :
  invariant limits s -> handleMessage limits s m signer = (s', evs) -> step_ok s [m] evs s'.
Proof.
  intros Hinv. unfold handleMessage. destruct (stopping_ s) eqn:Hst; [intros [= <- <-]; by apply rejected_ok|].
  destruct (Z.eqb_spec (maxPendingMessages limits) 0) as [|Hne]; cbn [negb andb];
    [|destruct (Z.leb_spec (maxPendingMessages limits) (totalPendingMessages_ s));
      [intros [= <- <-]; by apply rejected_ok|]].
  all: set (state := default _ _);
    destruct (negb (maxPendingPerSigner limits =? 0) && (maxPendingPerSigner limits <=? size_of (messages state))) eqn:Hper;
    [|rewrite <- Hst; intros [= <- <-]; apply accepted_ok; [done|lia|fold state; lia]].
  all: intros [= <- <-]; subst state; destruct (pendingBySigner_ s !! signer) as [st|] eqn:Hs;
    [|exfalso; apply andb_prop in Hper as [Hp1 Hp2]; apply negb_true_iff, Z.eqb_neq in Hp1;
      apply Z.leb_le in Hp2; unfold size_of in Hp2; cbn in Hp2; destruct Hlimits; lia].
  all: cbn [from_option Datatypes.id]; rewrite insert_id by done; rewrite <- Hst; destruct s; by apply rejected_ok.
Qed.

Lemma end_ok s signer ph e s' evs :
  invariant limits s -> (signer, ph) ∈ resolvers s ->
  resolveSigner_end replay s signer e = (s', evs) -> step_ok s [] evs s'.
Proof.
  intros (Ht & Hmax & Hall & Hnd & Hres) Hin. unfold resolveSigner_end, drainSignerMessagesLocked.
  assert (Hn : signer ∈ (resolvers s).*1) by (apply list_elem_of_fmap; by exists (signer, ph)).
  destruct (proj1 (Hres signer) Hn) as [st Hs]. rewrite Hs. intros [= <- <-].
  pose proof (remove_resolver_spec signer (resolvers s) Hnd Hn) as Hperm.
  unfold step_ok, invariant, pending_messages in *. cbn. rewrite app_nil_r, ending_messages.
  pose proof (pending_delete _ _ _ Hs) as Hdel.
  assert (Hlen : size_of (pending_of (pendingBySigner_ s))
    = size_of (messages st) + size_of (pending_of (delete signer (pendingBySigner_ s)))).
  { unfold size_of. rewrite Hdel, length_app. lia. }
  rewrite Hperm in Hnd. apply NoDup_cons in Hnd as [Hnot Hnd'].
  split; [|done]. split_and!.
  - lia.
  - intros Hne. specialize (Hmax Hne). unfold size_of in *. lia.
  - by apply map_Forall_delete.
  - done.
  - intros n. rewrite lookup_delete. case_decide as Heq.
    + subst n. split; [done|by intros [? ?]].
    + rewrite <- Hres, Hperm, elem_of_cons. split; [by right|by intros [->|?]].
Qed.

Lemma step_preserves s ins outs s' :
  invariant limits s -> step limits replay s ins outs s' -> step_ok s ins outs s'.
Proof.
  intros Hinv Hstep. destruct Hstep as [s m n s' evs Hh|s n ph s' evs Hin He|s n s' evs Hin He|s n Hin
    |s n Hin Hnone|s n s' evs Hin _ _ He|s n s' evs Hin _ _ He|s].
  - by eapply handle_ok.
  - by eapply end_ok.
  - by eapply end_ok.
  - split; [|cbn; by rewrite app_nil_r]. destruct Hinv as (Ht & Hmax & Hall & Hnd & Hres).
    unfold invariant, pending_messages in *. cbn. rewrite set_waiting_names. done.
  - exfalso. destruct Hinv as (_ & _ & _ & _ & Hres).
    assert (Hn : n ∈ (resolvers s).*1) by (apply list_elem_of_fmap; by exists (n, Waiting)).
    apply Hres in Hn as [st Hst]. by rewrite Hnone in Hst.
  - by eapply end_ok.
  - by eapply end_ok.
  - split; [|cbn; by rewrite app_nil_r]. exact Hinv.
Qed.

Lemma initial_invariant : invariant limits initial.
Proof.
  unfold limits_ok in Hlimits. split_and!; cbn; try done.
  - lia.
  - constructor.
  - intros n. rewrite lookup_empty. split; [intros Hn; by apply elem_of_nil in Hn|by intros [? ?]].
Qed.

(** C31.  The identity-resolution queue keeps its bounds and its threads in every
    reachable state: the counter is the number of waiting messages, the overall
    and the per-signer limits hold, no signer's entry is empty, and exactly the
    signers with waiting messages have a resolver, one each. *)
Theorem identity_queue_invariant ins outs s :
  run limits replay ins outs s -> invariant limits s.
Proof.
  induction 1 as [|ins outs s ins' outs' s' _ IH Hstep]; [apply initial_invariant|].
  by destruct (step_preserves _ _ _ _ IH Hstep).
Qed.

(** No message is lost or answered twice: along every run the submitted
    messages are, up to order, those handed to the replay or the failure
    callback together with those still waiting; when the last resolver has
    returned, every submitted message has been answered exactly once. *)
Theorem identity_queue_conserves_messages ins outs s :
  run limits replay ins outs s ->
  ins ≡ₚ (event_message <$> outs) ++ pending_messages s
  /\ (resolvers s = [] -> ins ≡ₚ event_message <$> outs).
Proof.
  intros Hrun. assert (Hboth : invariant limits s /\ ins ≡ₚ (event_message <$> outs) ++ pending_messages s).
  { induction Hrun as [|ins outs s ins' outs' s' _ [Hinv IH] Hstep]; [by split; [apply initial_invariant|]|].
    destruct (step_preserves _ _ _ _ Hinv Hstep) as [Hinv' Hperm]. split; [done|].
    rewrite IH, fmap_app, <- !app_assoc. by apply Permutation_app_head. }
  destruct Hboth as [Hinv Hperm]. split; [done|]. intros Hnone. rewrite Hperm.
  destruct Hinv as (_ & _ & _ & _ & Hres). assert (He : pendingBySigner_ s = ∅).
  { apply map_empty. intros n. destruct (pendingBySigner_ s !! n) eqn:Hn; [|done].
    assert (Hin : n ∈ (resolvers s).*1) by (apply Hres; by eexists). rewrite Hnone in Hin.
    by apply elem_of_nil in Hin. }
  unfold pending_messages, pending_of. rewrite He, map_to_list_empty. cbn. by rewrite app_nil_r.
Qed.
End Invariant.

(** ** Witnesses *)

(** The defaults of the source. *)
Definition default_limits : Limits := mkLimits 512 32.

Lemma default_limits_ok : limits_ok default_limits.
Proof. split; cbn; lia. Qed.

(** One message is submitted and replayed once its signer is known. *)
Definition after_submit : State := (handleMessage default_limits initial RSPMessage.empty (mkGUID 1 2)).1.
Definition after_replay : State := (resolveSigner_end (fun _ => true) after_submit (mkGUID 1 2) IdentityKnown).1.

Lemma sample_run : run default_limits (fun _ => true) ([] ++ [RSPMessage.empty] ++ [])
                     ([] ++ [] ++ [Replayed RSPMessage.empty]) after_replay.
Proof.
  rewrite !(app_assoc []). eapply run_step.
  - eapply run_step; [apply run_start|]. apply (step_handle _ _ _ _ (mkGUID 1 2) after_submit). vm_compute. reflexivity.
  - apply (step_known _ _ _ (mkGUID 1 2) Starting); [left|vm_compute; reflexivity].
Qed.

Lemma identity_queue_invariant_witness : invariant default_limits after_replay.
Proof.
  exact (identity_queue_invariant default_limits (fun _ => true) default_limits_ok _ _ _ sample_run).
Defined.

Lemma identity_queue_conserves_messages_witness :
  [RSPMessage.empty] ≡ₚ event_message <$> [Replayed RSPMessage.empty].
Proof.
  apply (proj2 (identity_queue_conserves_messages default_limits (fun _ => true) default_limits_ok _ _ _ sample_run)).
  vm_compute. reflexivity.
Defined.
