(* ===== verification/AuthN.v ===== *)
(** * common/message_queue/mq_authn.cpp: the identity exchange of a new connection

    Both ends of a fresh connection challenge each other with a random nonce and
    answer with a signed identity.  The encoding object ([Encoding] of
    common/encoding/encoding.cpp) is modelled as far as the exchange uses it; its
    virtual [readMessage] and [writeMessage] are the class [Wire]. *)

From S2P Require Import Prelude BaseTypes Proto GuidBytes KeyPair MessageHash Signing.

(** ** The wire

    [Link] is the state of the connection and of whoever is at its other end:
    what is read may depend on what was written. *)
Class Wire := {
  Link : Type;
  writeMessage : Link -> RSPMessage.t -> option Link;
  readMessage : Link -> option (RSPMessage.t * Link);
}.

Section AuthN.
Context `{H : HashCodec} `{C : Crypto} `{W : Wire}.

(** ** Encoding

    [connection_] is the connection with the peer behind it.  [sent] and
    [received] record the traffic of the exchange. *)
Record Encoding := mkEncoding {
  connection_ : option Link;
  has_received_queue : bool;
  localKeyPair_ : KeyPair;
  peerNodeId_ : option NodeID;
  running_ : bool;
  sent : list RSPMessage.t;
  received : list RSPMessage.t }.

Definition normalizeOutgoingMessage (message : RSPMessage.t) : RSPMessage.t :=
  match RSPMessage.destination message, RSPMessage.core_message message with
  | None, Some (ChallengeRequest _) => RSPMessage.set_signature message None
  | _, _ => message
  end.

Definition setPeerNodeID (e : Encoding) (nodeId : NodeID) : Res Encoding :=
  let established := mkEncoding (connection_ e) (has_received_queue e) (localKeyPair_ e) (Some nodeId)
                       (running_ e) (sent e) (received e) in
  match peerNodeId_ e with
  | Some id =>
      if bool_decide (id = nodeId) then Ok established
      else Throw (LogicError (bs "peer NodeID is already established for this encoding"))
  | None => Ok established
  end.

(** [start] up to the creation of the read thread. *)
Definition Encoding_start (e : Encoding) : bool * Encoding :=
  if running_ e || negb (bool_decide (is_Some (connection_ e))) || negb (has_received_queue e)
     || negb (isValid (localKeyPair_ e)) || negb (bool_decide (is_Some (peerNodeId_ e)))
  then (false, e)
  else (true, mkEncoding (connection_ e) (has_received_queue e) (localKeyPair_ e) (peerNodeId_ e) true
                (sent e) (received e)).

(** [writeMessage] and [readMessage] of this encoding; [None] is [false]. *)
Definition write (e : Encoding) (m : RSPMessage.t) : option Encoding :=
  link ← connection_ e;
  link' ← writeMessage link m;
  Some (mkEncoding (Some link') (has_received_queue e) (localKeyPair_ e) (peerNodeId_ e) (running_ e)
          (sent e ++ [m]) (received e)).

Definition read (e : Encoding) : option (RSPMessage.t * Encoding) :=
  link ← connection_ e;
  '(m, link') ← readMessage link;
  Some (m, mkEncoding (Some link') (has_received_queue e) (localKeyPair_ e) (peerNodeId_ e) (running_ e)
             (sent e) (received e ++ [m])).

(** ** MessageQueueAuthN *)
Definition kNonceLength : Z := 16.

(** The queue: its key, its boot id and [storeIdentity_] ([None] for an empty
    function). *)
Record MessageQueueAuthN := mkAuthN {
  keyPair_ : KeyPair;
  bootId_ : Uuid;
  storeIdentity_ : option (NodeID -> Identity.t -> Res unit) }.

Definition no_public_key : PublicKey.t := PublicKey.mk 0 [].

(** [Some id] is [true] with [peerNodeId] set to [id]. *)
Definition validateReceivedIdentity (identityMessage : RSPMessage.t) (expectedNonce : bytes)
    : Res (option NodeID) :=
  match RSPMessage.core_message identityMessage, RSPMessage.signature identityMessage with
  | Some (IdentityMessage peerIdentity), Some signature =>
      if negb (bool_decide (value_or_empty (Identity.nonce peerIdentity) = expectedNonce)) then Ok None
      else
        catch_any
          (peerKey ← fromPublicKey (default no_public_key (Identity.public_key peerIdentity));
           ok ← verifyMessageSignature peerKey identityMessage signature;
           if (ok : bool) then peerNodeId ← nodeID peerKey; Ok (Some peerNodeId) else Ok None)
          (fun _ => Ok None)
  | _, _ => Ok None
  end.

(** The challenge and the answer to one. *)
Definition challenge (nonce : bytes) : RSPMessage.t :=
  RSPMessage.set_core RSPMessage.empty (Some (ChallengeRequest (Some nonce))).

Definition identityFor (q : MessageQueueAuthN) (nonce : bytes) : Res RSPMessage.t :=
  pk ← publicKey (keyPair_ q);
  let identityMessage := RSPMessage.set_core RSPMessage.empty
    (Some (IdentityMessage (Identity.mk (Some nonce) (Some pk) (Some (bootId_ q))))) in
  block ← signMessage (keyPair_ q) identityMessage;
  Ok (RSPMessage.set_signature identityMessage (Some block)).

(** What the loop keeps: the encoding, the identities handed to
    [storeIdentity_], and its three flags. *)
Record Exchange := mkExchange {
  encoding : Encoding;
  stored : list (NodeID * Identity.t);
  peerIdentityReceived : bool;
  localIdentitySent : bool;
  peerChallengeReceived : bool }.

Definition callStore (q : MessageQueueAuthN) (id : NodeID) (peerIdentity : Identity.t)
    (stored : list (NodeID * Identity.t)) : Res (list (NodeID * Identity.t)) :=
  match storeIdentity_ q with
  | Some f => f id peerIdentity;; Ok (stored ++ [(id, peerIdentity)])
  | None => Ok stored
  end.

(** One pass of the loop body: [inl] goes on, [inr] is [return false]. *)
Definition exchangeStep (q : MessageQueueAuthN) (localNonce : bytes) (x : Exchange) : Res (Exchange + Exchange) :=
  match read (encoding x) with
  | None => Ok (inr x)
  | Some (incomingMessage, e) =>
      let x := mkExchange e (stored x) (peerIdentityReceived x) (localIdentitySent x) (peerChallengeReceived x) in
      match RSPMessage.core_message incomingMessage with
      | Some (ChallengeRequest nonce) =>
          if bool_decide (is_Some (RSPMessage.destination incomingMessage))
             || bool_decide (is_Some (RSPMessage.signature incomingMessage))
             || peerChallengeReceived x || negb (size_of (value_or_empty nonce) =? kNonceLength)
          then Ok (inr x)
          else
            identityMessage ← identityFor q (value_or_empty nonce);
            match write e identityMessage with
            | None => Ok (inr x)
            | Some e' => Ok (inl (mkExchange e' (stored x) (peerIdentityReceived x) true true))
            end
      | Some (IdentityMessage peerIdentity) =>
          if peerIdentityReceived x then Ok (inr x)
          else
            valid ← validateReceivedIdentity incomingMessage localNonce;
            match valid with
            | None => Ok (inr x)
            | Some peerNodeId =>
                e' ← setPeerNodeID e peerNodeId;
                stored' ← callStore q peerNodeId peerIdentity (stored x);
                Ok (inl (mkExchange e' stored' true (localIdentitySent x) (peerChallengeReceived x)))
            end
      | _ => Ok (inr x)
      end
  end.

Fixpoint exchangeLoop (fuel : nat) (q : MessageQueueAuthN) (localNonce : bytes) (x : Exchange)
    : Res (bool * Exchange) :=
  match fuel with
  | O => NoFuel
  | S fuel =>
      if negb (peerIdentityReceived x) || negb (localIdentitySent x) then
        r ← exchangeStep q localNonce x;
        match r with
        | inl x' => exchangeLoop fuel q localNonce x'
        | inr x' => Ok (false, x')
        end
      else Ok (true, x)
  end.

(** [localNonce] is what [randomNonceBytes] returned.  Each pass sets one of two
    flags, so three tests of the loop condition suffice. *)
Definition performInitialIdentityExchange (q : MessageQueueAuthN) (localNonce : bytes) (e : Encoding)
    : Res (bool * Exchange) :=
  let x := mkExchange e [] false false false in
  if negb (bool_decide (is_Some (connection_ e))) || negb (isValid (keyPair_ q)) then Ok (false, x)
  else match write e (normalizeOutgoingMessage (challenge localNonce)) with
       | None => Ok (false, x)
       | Some e' => exchangeLoop 3 q localNonce (mkExchange e' [] false false false)
       end.

(** The handler: [inl] is a call of [success_], [inr] one of [failure_]; the
    queue holds an encoding or a null pointer. *)
Definition MessageQueueAuthN_handleMessage (q : MessageQueueAuthN) (localNonce : bytes) (e : option Encoding)
    : Res (Exchange + option Exchange) :=
  match e with
  | None => Ok (inr None)
  | Some e =>
      r ← performInitialIdentityExchange q localNonce e;
      Ok (if (r.1 : bool) then inl r.2 else inr (Some r.2))
  end.

(** ** What the exchange establishes *)

(** An accepted identity: it carries the expected nonce and its key verifies the
    message that brought it. *)
Definition proves_identity (nonce : bytes) (m : RSPMessage.t) (peerIdentity : Identity.t) (id : NodeID) : Prop :=
  RSPMessage.core_message m = Some (IdentityMessage peerIdentity)
  /\ value_or_empty (Identity.nonce peerIdentity) = nonce
  /\ exists sig key, RSPMessage.signature m = Some sig
      /\ fromPublicKey (default no_public_key (Identity.public_key peerIdentity)) = Ok key
      /\ verifyMessageSignature key m sig = Ok true /\ nodeID key = Ok id.

Lemma validateReceivedIdentity_sound m nonce id :
  validateReceivedIdentity m nonce = Ok (Some id) -> exists i, proves_identity nonce m i id.
Proof.
  unfold validateReceivedIdentity. destruct (RSPMessage.core_message m) as [[]|] eqn:Hc; try discriminate.
  destruct (RSPMessage.signature m) as [sig|] eqn:Hs; [|discriminate].
  case_bool_decide as Hn; cbn [negb]; [|discriminate].
  destruct (fromPublicKey _) as [key| | |] eqn:Hk; try discriminate. cbn [mbind res_bind].
  destruct (verifyMessageSignature key m sig) as [[]| | |] eqn:Hv; try discriminate. cbn [mbind res_bind].
  destruct (nodeID key) as [nid| | |] eqn:Hid; try discriminate. cbn. intros [= <-].
  eexists. split; [done|]. split; [done|]. by exists sig, key.
Qed.

(** What [storeIdentity_] was called with for an accepted identity. *)
Definition recorded (q : MessageQueueAuthN) (id : NodeID) (i : Identity.t) : list (NodeID * Identity.t) :=
  match storeIdentity_ q with Some _ => [(id, i)] | None => [] end.

Lemma identityFor_defined q n : defined (identityFor q n).
Proof.
  unfold identityFor. apply defined_bind; [apply publicKey_defined|]. intros pk.
  apply defined_bind; [apply signMessage_defined|done].
Qed.

Lemma validateReceivedIdentity_defined m n : defined (validateReceivedIdentity m n).
Proof.
  unfold validateReceivedIdentity. destruct (RSPMessage.core_message m) as [[]|]; try done.
  destruct (RSPMessage.signature m) as [sig|]; [|done]. destruct (negb _); [done|]. apply defined_catch; [|done].
  apply defined_bind; [apply fromPublicKey_defined|]. intros k.
  apply defined_bind; [apply verifyMessageSignature_defined|]. intros [|]; [|done].
  apply defined_bind; [apply nodeID_defined|done].
Qed.

(** The state of the loop: [e0] is the encoding after the challenge was sent. *)
Definition exchange_ok (q : MessageQueueAuthN) (nonce : bytes) (e0 : Encoding) (x : Exchange) : Prop :=
  peerChallengeReceived x = localIdentitySent x
  /\ (if peerIdentityReceived x
      then exists m i id, m ∈ received (encoding x) /\ proves_identity nonce m i id
             /\ peerNodeId_ (encoding x) = Some id
             /\ stored x = recorded q id i
      else stored x = [])
  /\ (if localIdentitySent x
      then exists n a, size_of n = kNonceLength /\ identityFor q n = Ok a /\ sent (encoding x) = sent e0 ++ [a]
      else sent (encoding x) = sent e0).

Lemma read_keeps e m e' :
  read e = Some (m, e') -> sent e' = sent e /\ peerNodeId_ e' = peerNodeId_ e /\ received e' = received e ++ [m].
Proof.
  unfold read. destruct (connection_ e); [|discriminate]. cbn. destruct (readMessage _) as [[m' link']|]; [|discriminate].
  cbn. by intros [= <- <-].
Qed.

Lemma write_keeps e m e' :
  write e m = Some e' -> sent e' = sent e ++ [m] /\ peerNodeId_ e' = peerNodeId_ e /\ received e' = received e.
Proof.
  unfold write. destruct (connection_ e); [|discriminate]. cbn. destruct (writeMessage _ _); [|discriminate].
  cbn. by intros [= <-].
Qed.

Lemma setPeerNodeID_keeps e id e' :
  setPeerNodeID e id = Ok e' -> sent e' = sent e /\ peerNodeId_ e' = Some id /\ received e' = received e.
Proof.
  unfold setPeerNodeID. destruct (peerNodeId_ e); [case_bool_decide; [|discriminate]|]; by intros [= <-].
Qed.

(** What remains to be done; each pass of the loop does one of the two. *)
Definition remaining (x : Exchange) : nat :=
  ((if peerIdentityReceived x then 0 else 1) + (if localIdentitySent x then 0 else 1))%nat.

Lemma exchangeStep_ok q nonce e0 x x' :
  exchange_ok q nonce e0 x -> exchangeStep q nonce x = Ok (inl x') ->
  exchange_ok q nonce e0 x' /\ S (remaining x') = remaining x
  /\ List.length (received (encoding x')) = S (List.length (received (encoding x))).
Proof.
  intros (Hpc & Hpi & Hls). unfold exchangeStep.
  destruct (read (encoding x)) as [[m e]|] eqn:Hr; [|discriminate].
  destruct (read_keeps _ _ _ Hr) as (Hse & Hpe & Hre).
  destruct (RSPMessage.core_message m) as [[]|] eqn:Hc; try discriminate; cbn [peerChallengeReceived stored
    peerIdentityReceived localIdentitySent].
  - destruct (peerChallengeReceived x) eqn:Hpc'; [rewrite !orb_true_r; discriminate|].
    destruct (_ || _ || _ || _) eqn:Hg; [discriminate|]. rewrite !orb_false_iff in Hg.
    destruct Hg as [_ Hg]. apply negb_false_iff, Z.eqb_eq in Hg.
    destruct (identityFor q _) as [a| | |] eqn:Ha; try discriminate. cbn [mbind res_bind].
    destruct (write e a) as [e'|] eqn:Hw; [|discriminate]. intros [= <-].
    destruct (write_keeps _ _ _ Hw) as (Hs' & Hp' & Hr'). rewrite <- Hpc in Hls.
    unfold exchange_ok, remaining; cbn. rewrite Hp', Hr', Hs', Hre, Hpe, Hse, <- Hpc. split_and!; try done.
    + destruct (peerIdentityReceived x); [|done]. destruct Hpi as (m0 & i & id & Hin & ?).
      exists m0, i, id. split; [|done]. apply elem_of_app. by left.
    + eexists _, a. split; [exact Hg|]. split; [done|]. by rewrite Hls.
    + rewrite length_app. cbn. lia.
  - destruct (peerIdentityReceived x) eqn:Hpi'; [discriminate|].
    destruct (validateReceivedIdentity m nonce) as [[id|]| | |] eqn:Hv; try discriminate. cbn [mbind res_bind].
    destruct (setPeerNodeID e id) as [e'| | |] eqn:Hw; try discriminate. cbn [mbind res_bind].
    destruct (callStore q id m0 (stored x)) as [st| | |] eqn:Hst; try discriminate. cbn [mbind res_bind].
    intros [= <-]. destruct (setPeerNodeID_keeps _ _ _ Hw) as (Hs' & Hp' & Hr').
    destruct (validateReceivedIdentity_sound _ _ _ Hv) as (i & Hprove).
    assert (i = m0) as -> by (destruct Hprove as [Hc' _]; rewrite Hc in Hc'; by injection Hc').
    unfold exchange_ok, remaining; cbn. rewrite Hp', Hr', Hs', Hre, Hse, Hpi'. split_and!; try done.
    + exists m, m0, id. split; [apply elem_of_app; right; left|]. split; [done|]. split; [done|].
      unfold callStore in Hst. unfold recorded. rewrite Hpi in Hst. destruct (storeIdentity_ q) as [f|]; [|by injection Hst].
      destruct (f id m0); try discriminate. cbn in Hst. by injection Hst.
    + rewrite length_app. cbn. lia.
Qed.

Lemma exchangeStep_stop q nonce x x' :
  exchangeStep q nonce x = Ok (inr x') ->
  List.length (received (encoding x')) = List.length (received (encoding x))
  \/ List.length (received (encoding x')) = S (List.length (received (encoding x))).
Proof.
  unfold exchangeStep. destruct (read (encoding x)) as [[m e]|] eqn:Hr; [|intros [= <-]; by left].
  destruct (read_keeps _ _ _ Hr) as (_ & _ & Hre).
  assert (He : List.length (received e) = S (List.length (received (encoding x)))).
  { rewrite Hre, length_app. cbn. lia. }
  intros Hs. right. rewrite <- He. revert Hs. cbn [peerIdentityReceived].
  destruct (RSPMessage.core_message m) as [[]|]; try (by intros [= <-]).
  - destruct (_ || _); [by intros [= <-]|]. destruct (identityFor q _); try discriminate. cbn [mbind res_bind].
    by destruct (write e _); intros [= <-].
  - destruct (peerIdentityReceived x); [by intros [= <-]|].
    destruct (validateReceivedIdentity m nonce) as [[id|]| | |]; try discriminate; cbn [mbind res_bind];
      [|by intros [= <-]].
    destruct (setPeerNodeID e id); try discriminate. cbn [mbind res_bind]. by destruct (callStore _ _ _ _).
Qed.

Lemma exchangeLoop_sound fuel q nonce e0 x x' :
  exchange_ok q nonce e0 x -> exchangeLoop fuel q nonce x = Ok (true, x') ->
  exchange_ok q nonce e0 x' /\ peerIdentityReceived x' = true /\ localIdentitySent x' = true.
Proof.
  revert x. induction fuel as [|fuel IH]; intros x Hx; [discriminate|]. cbn [exchangeLoop].
  destruct (negb (peerIdentityReceived x) || _) eqn:Hg.
  - destruct (exchangeStep q nonce x) as [[x1|x1]| | |] eqn:Hs; try discriminate. cbn [mbind res_bind].
    apply IH. by eapply exchangeStep_ok.
  - intros [= <-]. apply orb_false_iff in Hg as [H1 H2]. apply negb_false_iff in H1, H2. done.
Qed.

(** C6.  The identity exchange authenticates the peer: when it succeeds, the
    connection's peer id is the node id of a public key that was received with
    this side's own fresh nonce in an identity message whose signature that key
    verifies, exactly that identity was stored, and this side sent nothing but
    its challenge and one signed answer to a 16-byte nonce. *)
Theorem identity_exchange_is_sound q nonce e x :
  performInitialIdentityExchange q nonce e = Ok (true, x) ->
  exists m i id n a,
    m ∈ received (encoding x) /\ proves_identity nonce m i id
    /\ peerNodeId_ (encoding x) = Some id
    /\ stored x = recorded q id i
    /\ size_of n = kNonceLength /\ identityFor q n = Ok a
    /\ sent (encoding x) = sent e ++ [challenge nonce; a].
Proof.
  unfold performInitialIdentityExchange. destruct (_ || _); [discriminate|].
  destruct (write e _) as [e'|] eqn:Hw; [|discriminate]. intros Hl.
  assert (H0 : exchange_ok q nonce e' (mkExchange e' [] false false false)) by done.
  destruct (exchangeLoop_sound _ _ _ _ _ _ H0 Hl) as ((_ & Hpi & Hls) & Hp & Hs). rewrite Hp in Hpi. rewrite Hs in Hls.
  destruct Hpi as (m & i & id & ? & ? & ? & ?). destruct Hls as (n & a & ? & ? & Hsent).
  exists m, i, id, n, a. split_and!; try done. rewrite Hsent. destruct (write_keeps _ _ _ Hw) as (-> & _).
  by rewrite <- app_assoc.
Qed.

(** ** Termination *)

(** A store callback that returns. *)
Definition store_returns (q : MessageQueueAuthN) : Prop :=
  forall f id i, storeIdentity_ q = Some f -> exists u, f id i = Ok u.

Lemma exchangeStep_defined q nonce x : store_returns q -> defined (exchangeStep q nonce x).
Proof.
  intros Hq. unfold exchangeStep. destruct (read (encoding x)) as [[m e]|]; [|done].
  destruct (RSPMessage.core_message m) as [[]|]; try done.
  - destruct (_ || _); [done|]. apply defined_bind; [apply identityFor_defined|]. intros a. by destruct (write e a).
  - cbn [peerIdentityReceived]. destruct (peerIdentityReceived x); [done|].
    apply defined_bind; [apply validateReceivedIdentity_defined|]. intros [id|]; [|done].
    apply defined_bind; [unfold setPeerNodeID; destruct (peerNodeId_ e); [by case_bool_decide|done]|].
    intros e'. apply defined_bind; [|done]. unfold callStore.
    destruct (storeIdentity_ q) as [f|] eqn:Hf; [|done]. by destruct (Hq f id m0 Hf) as [u ->].
Qed.

Lemma exchangeLoop_ends fuel q nonce e0 x :
  store_returns q -> exchange_ok q nonce e0 x -> (remaining x < fuel)%nat ->
  (exists b x', exchangeLoop fuel q nonce x = Ok (b, x')
     /\ (List.length (received (encoding x')) <= List.length (received (encoding x)) + remaining x)%nat)
  \/ exists ex, exchangeLoop fuel q nonce x = Throw ex.
Proof.
  intros Hq. revert x. induction fuel as [|fuel IH]; intros x Hx Hf; [lia|]. cbn [exchangeLoop].
  destruct (negb (peerIdentityReceived x) || _) eqn:Hg; [|left; exists true, x; split; [done|lia]].
  pose proof (exchangeStep_defined q nonce x Hq) as Hd.
  destruct (exchangeStep q nonce x) as [[x1|x1]|ex| |] eqn:Hs; try done; cbn [mbind res_bind].
  - destruct (exchangeStep_ok _ _ _ _ _ Hx Hs) as (Hx1 & Hrem & Hlen).
    destruct (IH x1 Hx1) as [(b & x' & -> & Hl)|Ht]; [lia| |by right]. left. exists b, x'. split; [done|lia].
  - left. exists false, x1. split; [done|]. apply exchangeStep_stop in Hs as [Hs|Hs]; [lia|].
    assert (1 <= remaining x)%nat; [|lia]. unfold remaining.
    destruct (peerIdentityReceived x), (localIdentitySent x); cbn in Hg |- *; lia || discriminate.
  - right. by exists ex.
Qed.

(** The identity exchange always ends: whatever the peer sends, it returns
    after at most two received messages, or an exception of the key operations
    or of an already established peer id leaves it; the bound of three tests of
    its loop condition is never reached. *)
Theorem identity_exchange_terminates q nonce e :
  store_returns q ->
  (exists b x, performInitialIdentityExchange q nonce e = Ok (b, x)
     /\ (List.length (received (encoding x)) <= List.length (received e) + 2)%nat)
  \/ exists ex, performInitialIdentityExchange q nonce e = Throw ex.
Proof.
  intros Hq. unfold performInitialIdentityExchange. destruct (_ || _); [left; eexists _, _; split; [done|cbn; lia]|].
  destruct (write e _) as [e'|] eqn:Hw; [|left; eexists _, _; split; [done|cbn; lia]].
  destruct (write_keeps _ _ _ Hw) as (_ & _ & Hr).
  destruct (exchangeLoop_ends 3 q nonce e' (mkExchange e' [] false false false) Hq) as [(b & x & -> & Hl)|Ht];
    [done|cbn; lia| |by right].
  left. exists b, x. split; [done|]. cbn in Hl. rewrite Hr in Hl. lia.
Qed.

(** ** Runs against a given peer *)

(** What a node signs for a nonce proves its identity to whoever chose it. *)
Lemma identityFor_validates `{!CryptoLaws C} q nonce m id :
  identityFor q nonce = Ok m -> nodeID (keyPair_ q) = Ok id ->
  validateReceivedIdentity m nonce = Ok (Some id)
  /\ exists pk, RSPMessage.core_message m
       = Some (IdentityMessage (Identity.mk (Some nonce) (Some pk) (Some (bootId_ q)))).
Proof.
  unfold identityFor. intros Hm Hid. destruct (publicKey (keyPair_ q)) as [pk| | |] eqn:Hpk; try discriminate.
  cbn [mbind res_bind] in Hm. destruct (signMessage _ _) as [block| | |] eqn:Hs; try discriminate.
  cbn [mbind res_bind] in Hm. injection Hm as <-. split; [|by exists pk].
  unfold signMessage in Hs. destruct (messageSignatureInput _) as [input| | |] eqn:Hi; try discriminate.
  cbn [mbind res_bind] in Hs. destruct (public_key_verifies _ _ _ _ Hs Hpk) as (k' & Hk' & Hid' & Hv).
  unfold validateReceivedIdentity. cbn [RSPMessage.core_message RSPMessage.signature RSPMessage.set_signature
    RSPMessage.set_core Identity.nonce Identity.public_key from_option Datatypes.id default].
  rewrite bool_decide_eq_true_2 by done. cbn [negb]. rewrite Hk'. cbn [mbind res_bind].
  unfold verifyMessageSignature.
  match goal with |- context [messageSignatureInput ?x] =>
    replace (messageSignatureInput x) with (Ok input) by (symmetry; exact Hi) end.
  cbn [mbind res_bind]. rewrite Hv. cbn [mbind res_bind]. by rewrite Hid', Hid.
Qed.

(** A fresh encoding over a link. *)
Definition fresh (link : Link) (k : KeyPair) : Encoding := mkEncoding (Some link) true k None false [] [].

(** A peer that challenges first and then answers. *)
Lemma exchange_challenge_identity q nonce nonce' a m i id l0 l1 l2 l3 l4 :
  isValid (keyPair_ q) = true -> store_returns q ->
  writeMessage l0 (challenge nonce) = Some l1 -> readMessage l1 = Some (challenge nonce', l2) ->
  size_of nonce' = kNonceLength -> identityFor q nonce' = Ok a -> writeMessage l2 a = Some l3 ->
  readMessage l3 = Some (m, l4) -> RSPMessage.core_message m = Some (IdentityMessage i) ->
  validateReceivedIdentity m nonce = Ok (Some id) ->
  performInitialIdentityExchange q nonce (fresh l0 (keyPair_ q))
  = Ok (true, mkExchange (mkEncoding (Some l4) true (keyPair_ q) (Some id) false [challenge nonce; a]
                            [challenge nonce'; m]) (recorded q id i) true true true).
Proof.
  intros Hk Hq Hw0 Hr1 Hn Ha Hw2 Hr3 Hm Hv. unfold performInitialIdentityExchange, fresh. cbn [connection_].
  rewrite bool_decide_eq_true_2 by done. rewrite Hk. cbn [negb orb].
  unfold write at 1. cbn [connection_ mbind option_bind]. unfold normalizeOutgoingMessage. cbn.
  change (RSPMessage.set_signature (challenge nonce) None) with (challenge nonce). rewrite Hw0. cbn [mbind option_bind sent received app has_received_queue localKeyPair_ peerNodeId_ running_].
  set (enc l p s r := mkEncoding (Some l) true (keyPair_ q) p false s r).
  assert (H1 : exchangeStep q nonce (mkExchange (enc l1 None [challenge nonce] []) [] false false false)
    = Ok (inl (mkExchange (enc l3 None [challenge nonce; a] [challenge nonce']) [] false true true))).
  { unfold exchangeStep, read, enc. cbn. rewrite Hr1. cbn. rewrite Hn. cbn. rewrite Ha. cbn.
    unfold write. cbn. by rewrite Hw2. }
  assert (H2 : exchangeStep q nonce (mkExchange (enc l3 None [challenge nonce; a] [challenge nonce']) [] false true true)
    = Ok (inl (mkExchange (enc l4 (Some id) [challenge nonce; a] [challenge nonce'; m]) (recorded q id i) true true true))).
  { unfold exchangeStep, read, enc. cbn. rewrite Hr3. cbn. rewrite Hm, Hv. cbn. unfold callStore, recorded.
    destruct (storeIdentity_ q) as [f|] eqn:Hf; [|done]. destruct (Hq f id i Hf) as [u Hu]. cbn. by rewrite Hu. }
  cbn [exchangeLoop peerIdentityReceived localIdentitySent negb orb]. unfold enc in *. rewrite H1.
  cbn [exchangeLoop mbind res_bind peerIdentityReceived localIdentitySent negb orb]. rewrite H2. done.
Qed.
End AuthN.

(** *** Two honest nodes

    Each side's link is the sequence of messages the other side sends. *)
#[local] Instance scripted : Wire := {|
  Link := list RSPMessage.t;
  writeMessage := fun l _ => Some l;
  readMessage := fun l => match l with m :: l' => Some (m, l') | [] => None end;
|}.

(** C7.  Two nodes that follow the protocol authenticate each other: with
    16-byte nonces and keys that can sign, both sides of the exchange succeed,
    each on exactly the messages the other one sends, and each ends with the
    node id of the other's key as its peer. *)
Theorem honest_nodes_authenticate `{HashCodec} `{C : Crypto} `{!CryptoLaws C} qa qb na nb ma mb ida idb :
  size_of na = kNonceLength -> size_of nb = kNonceLength -> store_returns qa -> store_returns qb ->
  nodeID (keyPair_ qa) = Ok ida -> nodeID (keyPair_ qb) = Ok idb ->
  identityFor qa nb = Ok ma -> identityFor qb na = Ok mb ->
  exists xa xb,
    performInitialIdentityExchange qa na (fresh (W := scripted) [challenge nb; mb] (keyPair_ qa)) = Ok (true, xa)
    /\ performInitialIdentityExchange qb nb (fresh (W := scripted) [challenge na; ma] (keyPair_ qb)) = Ok (true, xb)
    /\ sent (encoding xa) = [challenge na; ma] /\ sent (encoding xb) = [challenge nb; mb]
    /\ peerNodeId_ (encoding xa) = Some idb /\ peerNodeId_ (encoding xb) = Some ida.
Proof.
  intros Hna Hnb Hqa Hqb Hia Hib Hma Hmb.
  destruct (identityFor_validates _ _ _ _ Hma Hia) as (Hva & pka & Hca).
  destruct (identityFor_validates _ _ _ _ Hmb Hib) as (Hvb & pkb & Hcb).
  assert (Hka : isValid (keyPair_ qa) = true) by (by destruct (keyPair_ qa)).
  assert (Hkb : isValid (keyPair_ qb) = true) by (by destruct (keyPair_ qb)).
  eexists _, _. split_and!.
  - eapply exchange_challenge_identity; eauto; done.
  - eapply exchange_challenge_identity; eauto; done.
  - done.
  - done.
  - done.
  - done.
Qed.

(** *** A mirror

    A peer that only sends back what it receives. *)
#[local] Instance mirror : Wire := {|
  Link := list RSPMessage.t;
  writeMessage := fun l m => Some (l ++ [m]);
  readMessage := fun l => match l with m :: l' => Some (m, l') | [] => None end;
|}.

(** Finding.  The exchange accepts a peer that holds no key at all and only
    reflects every message: the node answers its own challenge and takes its
    own signed identity for the peer's, so the connection is authenticated as
    the node itself. *)
Theorem reflected_exchange_succeeds `{HashCodec} `{C : Crypto} `{!CryptoLaws C} q nonce m id :
  size_of nonce = kNonceLength -> store_returns q ->
  nodeID (keyPair_ q) = Ok id -> identityFor q nonce = Ok m ->
  exists x, performInitialIdentityExchange q nonce (fresh (W := mirror) [] (keyPair_ q)) = Ok (true, x)
    /\ peerNodeId_ (encoding x) = Some id.
Proof.
  intros Hn Hq Hid Hm. destruct (identityFor_validates _ _ _ _ Hm Hid) as (Hv & pk & Hc).
  assert (Hk : isValid (keyPair_ q) = true) by (by destruct (keyPair_ q)).
  eexists. split; [eapply exchange_challenge_identity; eauto; done|done].
Qed.

(** ** Witnesses *)
#[local] Existing Instances ToyCodec.toy_codec ToyCrypto.toy ToyCrypto.toy_laws.

Definition node_a : MessageQueueAuthN := mkAuthN ToyCrypto.alice (bs "boot-a") (Some (fun _ _ => Ok tt)).
Definition node_b : MessageQueueAuthN := mkAuthN ToyCrypto.bob (bs "boot-b") None.
Definition nonce_a : bytes := bs "nonce-of-alice-1".
Definition nonce_b : bytes := bs "nonce-of-bobby-2".

(** What a node sends for a nonce. *)
Definition answer (q : MessageQueueAuthN) (n : bytes) : RSPMessage.t :=
  match identityFor q n with Ok m => m | _ => RSPMessage.empty end.

Definition run_a : Res (bool * Exchange (W := scripted)) := performInitialIdentityExchange node_a nonce_a
  (fresh (W := scripted) [challenge nonce_b; answer node_b nonce_a] ToyCrypto.alice).

Lemma identity_exchange_is_sound_witness :
  exists x id, run_a = Ok (true, x) /\ peerNodeId_ (encoding x) = Some id.
Proof.
  eexists. destruct (identity_exchange_is_sound (W := scripted) node_a nonce_a
    (fresh (W := scripted) [challenge nonce_b; answer node_b nonce_a] ToyCrypto.alice)
    (match run_a with Ok (_, x) => x | _ => mkExchange (fresh (W := scripted) [] None) [] false false false end))
    as (m & i & id & n & a & _ & _ & Hp & _).
  - vm_compute. reflexivity.
  - exists id. split; [vm_compute; reflexivity|exact Hp].
Defined.

Lemma identity_exchange_terminates_witness :
  exists b x, run_a = Ok (b, x) /\ (List.length (received (encoding x)) <= 2)%nat.
Proof.
  destruct (identity_exchange_terminates (W := scripted) node_a nonce_a
    (fresh (W := scripted) [challenge nonce_b; answer node_b nonce_a] ToyCrypto.alice)) as [Hr|[ex Hr]].
  - intros f i1 i2 [= <-]. by exists tt.
  - exact Hr.
  - exfalso. vm_compute in Hr. discriminate Hr.
Defined.

Lemma honest_nodes_authenticate_witness :
  exists xa, run_a = Ok (true, xa) /\ sent (encoding xa) = [challenge nonce_a; answer node_a nonce_b].
Proof.
  destruct (honest_nodes_authenticate node_a node_b nonce_a nonce_b (answer node_a nonce_b) (answer node_b nonce_a)
    alice_id (mkGUID (be_value 64 (bs "Dbob" ++ replicate 4 (byte_of 0))) 0)) as (xa & xb & Ha & _ & Hs & _).
  - reflexivity.
  - reflexivity.
  - intros f i1 i2 [= <-]. by exists tt.
  - intros f i1 i2 Hf. discriminate Hf.
  - vm_compute. reflexivity.
  - vm_compute. reflexivity.
  - vm_compute. reflexivity.
  - vm_compute. reflexivity.
  - exists xa. split; [exact Ha|exact Hs].
Defined.

Lemma reflected_exchange_succeeds_witness :
  exists x, performInitialIdentityExchange node_a nonce_a (fresh (W := mirror) [] ToyCrypto.alice) = Ok (true, x)
    /\ peerNodeId_ (encoding x) = Some alice_id.
Proof.
  apply (reflected_exchange_succeeds node_a nonce_a (answer node_a nonce_a) alice_id).
  - reflexivity.
  - intros f i1 i2 [= <-]. by exists tt.
  - vm_compute. reflexivity.
  - vm_compute. reflexivity.
Defined.
