(* ===== verification/MessageQueue.v ===== *)
(** * common/message_queue/mq.hpp: the queue with its worker threads

    [MessageQueue<MessageT>] is the base class of every queue of the program.
    Its methods are critical sections under one mutex; a method with several
    sections is a client that is between two of them.  A step of the system is
    one critical section of a caller or of a worker, or the end of a call of
    [handleMessage]; the condition variable only delays steps that are not
    enabled and is not part of the state. *)

From stdpp Require Import gmap sorting.
From S2P Require Import Prelude.

Section Queue.
Context {M : Type}.

(** ** The queue object *)
Record MessageQueue := mkQueue {
  messages_ : list M;
  queueLimit_ : nat;
  workerCount_ : nat;
  running_ : bool;
  paused_ : bool;
  stopRequested_ : bool;
  workers_ : list nat }.

Definition constructed : MessageQueue := mkQueue [] 0 0 false false false [].

Definition with_messages (q : MessageQueue) (ms : list M) : MessageQueue :=
  mkQueue ms (queueLimit_ q) (workerCount_ q) (running_ q) (paused_ q) (stopRequested_ q) (workers_ q).

(** [true] when the message was queued; otherwise [handleQueueFull] is called. *)
Definition push (q : MessageQueue) (message : M) : bool * MessageQueue :=
  if negb (queueLimit_ q =? 0)%nat && (queueLimit_ q <=? List.length (messages_ q))%nat
  then (false, q)
  else (true, with_messages q (messages_ q ++ [message])).

(** [tryPop], and [blockingPop] when its wait succeeds. *)
Definition tryPop (q : MessageQueue) : option (M * MessageQueue) :=
  match messages_ q with
  | [] => None
  | m :: rest => Some (m, with_messages q rest)
  end.

Definition clear (q : MessageQueue) : MessageQueue := with_messages q [].

Definition setQueueLimit (q : MessageQueue) (limit : nat) : MessageQueue :=
  mkQueue (messages_ q) limit (workerCount_ q) (running_ q) (paused_ q) (stopRequested_ q) (workers_ q).

Definition set_paused (q : MessageQueue) (p : bool) : MessageQueue :=
  mkQueue (messages_ q) (queueLimit_ q) (workerCount_ q) (running_ q) p (stopRequested_ q) (workers_ q).

Definition pause (q : MessageQueue) : MessageQueue := set_paused q true.
Definition resume (q : MessageQueue) : MessageQueue := set_paused q false.

(** The first section of [start]; the flag is [shouldStartWorkers]. *)
Definition start_first (q : MessageQueue) : bool * MessageQueue :=
  if running_ q then (false, set_paused q false)
  else (true, mkQueue (messages_ q) (queueLimit_ q) (workerCount_ q) true false false (workers_ q)).

(** The new threads get the ids from [next] on. *)
Definition startWorkersLocked (next : nat) (q : MessageQueue) : list nat * MessageQueue :=
  match workers_ q with
  | _ :: _ => ([], q)
  | [] =>
      let new := seq next (workerCount_ q) in
      (new, mkQueue (messages_ q) (queueLimit_ q) (workerCount_ q) (running_ q) (paused_ q) (stopRequested_ q) new)
  end.

(** The first section of [stop]: the threads to join, or the early return. *)
Definition stop_first (q : MessageQueue) : option (list nat) * MessageQueue :=
  if negb (running_ q) && bool_decide (workers_ q = [])
  then (None, mkQueue (messages_ q) (queueLimit_ q) (workerCount_ q) (running_ q) false false (workers_ q))
  else (Some (workers_ q), mkQueue (messages_ q) (queueLimit_ q) (workerCount_ q) false false true []).

Definition set_stopRequested (q : MessageQueue) (b : bool) : MessageQueue :=
  mkQueue (messages_ q) (queueLimit_ q) (workerCount_ q) (running_ q) (paused_ q) b (workers_ q).

(** The last section of [stop]. *)
Definition stop_last (q : MessageQueue) : MessageQueue := set_stopRequested q false.

(** [setWorkerCount] up to [rebuildWorkers]: [Some wasPaused] when the workers
    have to be rebuilt. *)
Definition setWorkerCount (q : MessageQueue) (n : nat) : option bool * MessageQueue :=
  if (workerCount_ q =? n)%nat then (None, q)
  else (if running_ q then Some (paused_ q) else None,
        mkQueue (messages_ q) (queueLimit_ q) n (running_ q) (paused_ q) (stopRequested_ q) (workers_ q)).

(** The two sections of [rebuildWorkers]. *)
Definition rebuild_first (q : MessageQueue) : list nat * MessageQueue :=
  (workers_ q,
   mkQueue (messages_ q) (queueLimit_ q) (workerCount_ q) (running_ q) (paused_ q) true []).

Definition rebuild_last (next : nat) (q : MessageQueue) (n : nat) (wasPaused : bool) : list nat * MessageQueue :=
  startWorkersLocked next (mkQueue (messages_ q) (queueLimit_ q) n true wasPaused false (workers_ q)).

(** The critical section of [workerLoop] when it does not wait. *)
Inductive Choice := Return | Take (message : M) (q : MessageQueue) | Wait.

Definition worker_section (q : MessageQueue) : Choice :=
  if stopRequested_ q then Return
  else if negb (running_ q) || paused_ q then Wait
  else match messages_ q with
       | [] => Wait
       | m :: rest => Take m (with_messages q rest)
       end.

(** ** Threads and callers *)

(** A worker is at the top of its loop, inside [handleMessage], or has returned. *)
Inductive Worker := Looping | Handling (message : M) | Returned.

(** A caller between two critical sections of [start], [stop] or
    [setWorkerCount], with the threads it has to join. *)
Inductive Client :=
| InStart
| InStop (workers : list nat)
| InSetWorkerCount (n : nat) (wasPaused : bool)
| InRebuild (n : nat) (wasPaused : bool) (workers : list nat).

Record System := mkSystem {
  queue : MessageQueue;
  threads : gmap nat Worker;
  next : nat;
  clients : list Client }.

Inductive Event :=
| Accepted (m : M)
| Refused (m : M)
| Popped (m : M)
| Cleared (ms : list M)
| Took (m : M)
| Finished (m : M)
| LimitSet (limit : nat).

Definition initial : System := mkSystem constructed ∅ 0 [].

Definition with_queue (s : System) (q : MessageQueue) : System := mkSystem q (threads s) (next s) (clients s).

(** Threads started for the ids [new]. *)
Definition spawn (new : list nat) (m : gmap nat Worker) : gmap nat Worker :=
  foldr (fun w m => <[w := Looping]> m) m new.

(** Threads joined. *)
Definition join (ws : list nat) (m : gmap nat Worker) : gmap nat Worker := foldr delete m ws.

Definition all_returned (ws : list nat) (m : gmap nat Worker) : Prop := Forall (fun w => m !! w = Some Returned) ws.

(** *** Steps of the workers *)
Inductive worker_step (s : System) : list Event -> System -> Prop :=
| w_return w :
    threads s !! w = Some Looping -> worker_section (queue s) = Return ->
    worker_step s [] (mkSystem (queue s) (<[w := Returned]> (threads s)) (next s) (clients s))
| w_take w m q :
    threads s !! w = Some Looping -> worker_section (queue s) = Take m q ->
    worker_step s [Took m] (mkSystem q (<[w := Handling m]> (threads s)) (next s) (clients s))
| w_finish w m :
    threads s !! w = Some (Handling m) ->
    worker_step s [Finished m] (mkSystem (queue s) (<[w := Looping]> (threads s)) (next s) (clients s)).

(** *** Steps of the callers that only touch the queue *)
Inductive call_step (s : System) : list Event -> System -> Prop :=
| c_push m b q :
    push (queue s) m = (b, q) -> call_step s [if b : bool then Accepted m else Refused m] (with_queue s q)
| c_tryPop m q :
    tryPop (queue s) = Some (m, q) -> call_step s [Popped m] (with_queue s q)
| c_clear : call_step s [Cleared (messages_ (queue s))] (with_queue s (clear (queue s)))
| c_pause : call_step s [] (with_queue s (pause (queue s)))
| c_resume : call_step s [] (with_queue s (resume (queue s)))
| c_setQueueLimit limit : call_step s [LimitSet limit] (with_queue s (setQueueLimit (queue s) limit))
| c_stop_idle q : stop_first (queue s) = (None, q) -> call_step s [] (with_queue s q).

(** *** Steps of [start], [stop] and [setWorkerCount] *)
Inductive control_step (s : System) : System -> Prop :=
| k_start b q :
    start_first (queue s) = (b, q) ->
    control_step s (mkSystem q (threads s) (next s) (if b : bool then InStart :: clients s else clients s))
| k_start_workers l1 l2 new q :
    clients s = l1 ++ InStart :: l2 -> startWorkersLocked (next s) (queue s) = (new, q) ->
    control_step s (mkSystem q (spawn new (threads s)) (next s + List.length new) (l1 ++ l2))
| k_stop ws q :
    stop_first (queue s) = (Some ws, q) ->
    control_step s (mkSystem q (threads s) (next s) (InStop ws :: clients s))
| k_stop_joined l1 l2 ws :
    clients s = l1 ++ InStop ws :: l2 -> all_returned ws (threads s) ->
    control_step s (mkSystem (stop_last (queue s)) (join ws (threads s)) (next s) (l1 ++ l2))
| k_setWorkerCount n r q :
    setWorkerCount (queue s) n = (r, q) ->
    control_step s (mkSystem q (threads s) (next s)
      (match r with Some p => InSetWorkerCount n p :: clients s | None => clients s end))
| k_rebuild l1 l2 n p ws q :
    clients s = l1 ++ InSetWorkerCount n p :: l2 -> rebuild_first (queue s) = (ws, q) ->
    control_step s (mkSystem q (threads s) (next s) (InRebuild n p ws :: l1 ++ l2))
| k_rebuild_joined l1 l2 n p ws new q :
    clients s = l1 ++ InRebuild n p ws :: l2 -> all_returned ws (threads s) ->
    rebuild_last (next s) (queue s) n p = (new, q) ->
    control_step s (mkSystem q (spawn new (join ws (threads s))) (next s + List.length new) (l1 ++ l2)).

Inductive step (s : System) : list Event -> System -> Prop :=
| s_worker evs s' : worker_step s evs s' -> step s evs s'
| s_call evs s' : call_step s evs s' -> step s evs s'
| s_control s' : control_step s s' -> step s [] s'.

(** What happens from a state on. *)
Inductive run (s : System) : list Event -> System -> Prop :=
| run_nil : run s [] s
| run_step evs s' evs' s'' : run s evs s' -> step s' evs' s'' -> run s (evs ++ evs') s''.

(** ** Messages *)
Definition accepted (e : Event) : list M := match e with Accepted m => [m] | _ => [] end.
Definition removed (e : Event) : list M :=
  match e with Popped m | Took m => [m] | Cleared ms => ms | _ => [] end.
Definition took (e : Event) : list M := match e with Took m => [m] | _ => [] end.
Definition finished (e : Event) : list M := match e with Finished m => [m] | _ => [] end.

(** The messages inside [handleMessage]. *)
Definition busy (x : nat * Worker) : list M := match x.2 with Handling m => [m] | _ => [] end.
Definition handled (m : gmap nat Worker) : list M := map_to_list m ≫= busy.

Lemma worker_section_take q m q' :
  worker_section q = Take m q' -> messages_ q = m :: messages_ q' /\ q' = with_messages q (messages_ q').
Proof.
  unfold worker_section. repeat case_match; try discriminate. by intros [= <- <-].
Qed.

Lemma startWorkersLocked_messages n q new q' :
  startWorkersLocked n q = (new, q') -> messages_ q' = messages_ q /\ queueLimit_ q' = queueLimit_ q.
Proof. unfold startWorkersLocked. destruct (workers_ q); by intros [= <- <-]. Qed.

Lemma control_step_messages s s' :
  control_step s s' -> messages_ (queue s') = messages_ (queue s) /\ queueLimit_ (queue s') = queueLimit_ (queue s).
Proof.
  intros Hs. destruct Hs as [b q Hq|l1 l2 new q _ Hq|ws q Hq|l1 l2 ws _ _|n r q Hq|l1 l2 n p ws q _ Hq|l1 l2 n p ws new q _ _ Hq];
    cbn [queue]; try done.
  - unfold start_first in Hq. destruct (running_ (queue s)); by simplify_eq/=.
  - by eapply startWorkersLocked_messages.
  - unfold stop_first in Hq. destruct (_ && _); by simplify_eq/=.
  - unfold setWorkerCount in Hq. destruct (_ =? _)%nat; by simplify_eq/=.
  - injection Hq as <- <-; done.
  - unfold rebuild_last in Hq. by apply startWorkersLocked_messages in Hq.
Qed.

Lemma step_messages s evs s' :
  step s evs s' -> messages_ (queue s) ++ (evs ≫= accepted) = (evs ≫= removed) ++ messages_ (queue s').
Proof.
  intros [evs0 s0 Hs|evs0 s0 Hs|s0 Hs].
  - destruct Hs as [w _ _|w m q _ Hq|w m _]; cbn; rewrite ?app_nil_r; try done.
    by apply worker_section_take in Hq as [-> _].
  - destruct Hs as [m b q Hq|m q Hq| | | |limit|q Hq]; cbn; rewrite ?app_nil_r; try done.
    + unfold push in Hq. destruct (_ && _); injection Hq as <- <-; cbn; by rewrite ?app_nil_r.
    + unfold tryPop in Hq. destruct (messages_ (queue s)); [discriminate|]. by simplify_eq/=.
    + unfold stop_first in Hq. destruct (_ && _); by simplify_eq/=.
  - cbn. rewrite app_nil_r. by destruct (control_step_messages _ _ Hs) as [-> _].
Qed.

(** C28.  The queue is first in, first out and loses nothing: in every execution
    with any number of callers and workers, the accepted messages, in the order
    of their acceptance, are those taken by a worker, popped or cleared, in the
    order in which they left, followed by the queued ones. *)
Theorem queue_is_fifo s0 evs s :
  messages_ (queue s0) = [] -> run s0 evs s ->
  evs ≫= accepted = (evs ≫= removed) ++ messages_ (queue s).
Proof.
  intros H0. induction 1 as [|evs s' evs' s'' _ IH Hs]; [by rewrite H0|].
  rewrite !bind_app, IH, <- !app_assoc. f_equal. by apply step_messages.
Qed.

(** ** The queue limit *)
Lemma step_limit L s evs s' :
  (0 < L)%nat -> step s evs s' -> (forall n, LimitSet n ∈ evs -> n = L) ->
  queueLimit_ (queue s) = L -> (List.length (messages_ (queue s)) <= L)%nat ->
  queueLimit_ (queue s') = L /\ (List.length (messages_ (queue s')) <= L)%nat.
Proof.
  intros HL [evs0 s0 Hs|evs0 s0 Hs|s0 Hs] Hset Hl Hn.
  - destruct Hs as [w _ _|w m q _ Hq|w m _]; try done. cbn.
    apply worker_section_take in Hq as [Hm ->]. rewrite Hm in Hn. cbn in *. split; [done|lia].
  - destruct Hs as [m b q Hq|m q Hq| | | |limit|q Hq]; cbn; try done.
    + unfold push in Hq. destruct (_ && _) eqn:Hf; injection Hq as <- <-; [done|]. cbn. split; [done|].
      rewrite length_app. cbn. apply andb_false_iff in Hf as [Hf|Hf].
      * apply negb_false_iff, Nat.eqb_eq in Hf. lia.
      * apply Nat.leb_gt in Hf. lia.
    + unfold tryPop in Hq. destruct (messages_ (queue s)); [discriminate|]. injection Hq as <- <-. cbn in *. split; [done|lia].
    + split; [done|lia].
    + split; [|done]. apply Hset. left.
    + unfold stop_first in Hq. destruct (_ && _); by simplify_eq/=.
  - by destruct (control_step_messages _ _ Hs) as [-> ->].
Qed.

(** C29.  The queue limit holds in every execution: while the limit is a positive
    [L], no interleaving of callers and workers makes the queue longer than
    [L]. *)
Theorem queue_limit_holds L s0 evs s :
  (0 < L)%nat -> run s0 evs s -> (forall n, LimitSet n ∈ evs -> n = L) ->
  queueLimit_ (queue s0) = L -> (List.length (messages_ (queue s0)) <= L)%nat ->
  (List.length (messages_ (queue s)) <= L)%nat.
Proof.
  intros HL Hr Hset H1 H2. enough (queueLimit_ (queue s) = L /\ (List.length (messages_ (queue s)) <= L)%nat) by tauto.
  induction Hr as [|evs s' evs' s'' _ IH Hs]; [done|].
  destruct IH as [Hl Hn]; [intros n Hin; apply Hset, elem_of_app; by left|].
  eapply step_limit; eauto. intros n Hin. apply Hset, elem_of_app. by right.
Qed.

(** ** Ownership of the threads *)
Definition held (c : Client) : list nat :=
  match c with InStop ws | InRebuild _ _ ws => ws | _ => [] end.

(** The thread objects: in [workers_] or in a vector a caller joins. *)
Definition owned (s : System) : list nat := workers_ (queue s) ++ (clients s ≫= held).

Definition owned_ok (ids : list nat) (m : gmap nat Worker) (n : nat) : Prop :=
  NoDup ids /\ (forall w, w ∈ ids <-> is_Some (m !! w)) /\ (forall w, w ∈ ids -> (w < n)%nat).

Definition threads_owned (s : System) : Prop := owned_ok (owned s) (threads s) (next s).

Lemma owned_ok_perm ids ids' m n : ids ≡ₚ ids' -> owned_ok ids m n -> owned_ok ids' m n.
Proof.
  intros Hp (H1 & H2 & H3). split; [by rewrite <- Hp|]. split; intros w; [rewrite <- Hp; apply H2|rewrite <- Hp; apply H3].
Qed.

Lemma owned_ok_insert ids m n w a b : m !! w = Some a -> owned_ok ids m n -> owned_ok ids (<[w := b]> m) n.
Proof.
  intros Hw (H1 & H2 & H3). split; [done|]. split; [|done]. intros w'. rewrite H2.
  destruct (decide (w' = w)) as [->|Hne]; [rewrite Hw, lookup_insert_eq; split; by eauto|].
  by rewrite lookup_insert_ne.
Qed.

Lemma lookup_join ws m w : join ws m !! w = if bool_decide (w ∈ ws) then None else m !! w.
Proof.
  induction ws as [|w' ws IH]; [done|]. change (join (w' :: ws) m) with (delete w' (join ws m)).
  destruct (decide (w = w')) as [->|Hne].
  - rewrite lookup_delete_eq, bool_decide_eq_true_2; [done|left].
  - rewrite lookup_delete_ne, IH by done. rewrite (bool_decide_ext (w ∈ ws) (w ∈ w' :: ws)); [done|].
    rewrite elem_of_cons. tauto.
Qed.

Lemma lookup_spawn new m w : spawn new m !! w = if bool_decide (w ∈ new) then Some Looping else m !! w.
Proof.
  induction new as [|w' new IH]; [done|].
  change (spawn (w' :: new) m) with (<[w' := Looping]> (spawn new m)).
  destruct (decide (w = w')) as [->|Hne].
  - rewrite lookup_insert_eq, bool_decide_eq_true_2; [done|left].
  - rewrite lookup_insert_ne, IH by done. rewrite (bool_decide_ext (w ∈ new) (w ∈ w' :: new)); [done|].
    rewrite elem_of_cons. tauto.
Qed.

Lemma owned_ok_join ws ids m n : owned_ok (ws ++ ids) m n -> owned_ok ids (join ws m) n.
Proof.
  intros (H1 & H2 & H3). apply NoDup_app in H1 as (_ & Hd & H1). split; [done|].
  split; [|intros w Hw; apply H3, elem_of_app; by right]. intros w. rewrite lookup_join.
  case_bool_decide as Hw; [|rewrite <- H2, elem_of_app; tauto].
  split; [intros Hi; by destruct (Hd w)|by intros [? ?]].
Qed.

Lemma owned_ok_spawn ids m n k : owned_ok ids m n -> owned_ok (seq n k ++ ids) (spawn (seq n k) m) (n + k).
Proof.
  intros (H1 & H2 & H3). split; [|split].
  - apply NoDup_app. split; [apply NoDup_seq|]. split; [|done].
    intros w Hw Hi. apply elem_of_seq in Hw. specialize (H3 w Hi). lia.
  - intros w. rewrite lookup_spawn, elem_of_app, H2. case_bool_decide; split; intros; by eauto || tauto.
  - intros w. rewrite elem_of_app, elem_of_seq. intros [?|Hi]; [lia|]. specialize (H3 w Hi). lia.
Qed.

Lemma client_threads l1 c l2 : (l1 ++ c :: l2) ≫= held ≡ₚ held c ++ ((l1 ++ l2) ≫= held).
Proof. rewrite !bind_app. cbn. rewrite !app_assoc. apply Permutation_app_tail, Permutation_app_comm. Qed.

Lemma owned_client s l1 c l2 :
  clients s = l1 ++ c :: l2 -> owned s ≡ₚ held c ++ workers_ (queue s) ++ ((l1 ++ l2) ≫= held).
Proof.
  intros Hc. unfold owned. rewrite Hc, client_threads, !app_assoc. apply Permutation_app_tail, Permutation_app_comm.
Qed.

Lemma startWorkersLocked_owned n q new q' ids m :
  startWorkersLocked n q = (new, q') -> owned_ok (workers_ q ++ ids) m n ->
  owned_ok (workers_ q' ++ ids) (spawn new m) (n + List.length new).
Proof.
  unfold startWorkersLocked. destruct (workers_ q) as [|w ws] eqn:Hw; intros [= <- <-] Ho; cbn.
  - rewrite length_seq. by apply owned_ok_spawn.
  - by rewrite Nat.add_0_r, Hw.
Qed.

Lemma control_step_owned s s' : control_step s s' -> threads_owned s -> threads_owned s'.
Proof.
  unfold threads_owned. intros Hs Ho.
  destruct Hs as [b q Hq|l1 l2 new q Hc Hq|ws q Hq|l1 l2 ws Hc Hr|n r q Hq|l1 l2 n p ws q Hc Hq|l1 l2 n p ws new q Hc Hr Hq];
    try (pose proof (owned_ok_perm _ _ _ _ (owned_client _ _ _ _ Hc) Ho) as Hp; cbn [held app] in Hp);
    unfold owned in *; cbn [queue clients threads next] in *.
  - unfold start_first in Hq. destruct (running_ (queue s)); by simplify_eq/=.
  - by eapply startWorkersLocked_owned.
  - unfold stop_first in Hq. destruct (_ && _); by simplify_eq/=.
  - by apply owned_ok_join.
  - unfold setWorkerCount in Hq. destruct (_ =? _)%nat; [|destruct (running_ (queue s))]; by simplify_eq/=.
  - injection Hq as <- <-. exact Hp.
  - apply owned_ok_join in Hp. eapply startWorkersLocked_owned; [exact Hq|exact Hp].
Qed.

Lemma step_owned s evs s' : step s evs s' -> threads_owned s -> threads_owned s'.
Proof.
  intros [evs0 s0 Hs|evs0 s0 Hs|s0 Hs] Ho; [| |by eapply control_step_owned].
  - destruct Hs as [w Hw _|w m q Hw Hq|w m Hw]; unfold threads_owned, owned; cbn;
      try apply worker_section_take in Hq as [_ ->]; by eapply owned_ok_insert.
  - destruct Hs as [m b q Hq|m q Hq| | | |limit|q Hq]; try done.
    + unfold push in Hq. by destruct (_ && _); simplify_eq/=.
    + unfold tryPop in Hq. by destruct (messages_ (queue s)); simplify_eq/=.
    + unfold stop_first in Hq. by destruct (_ && _); simplify_eq/=.
Qed.

Lemma run_owned evs s : run initial evs s -> threads_owned s.
Proof.
  induction 1 as [|evs s' evs' s'' _ IH Hs]; [|by eapply step_owned].
  split; [apply NoDup_nil_2|]. split; intros w; [|by intros ?%not_elem_of_nil].
  cbn. rewrite lookup_empty. split; [by intros ?%not_elem_of_nil|by intros [? ?]].
Qed.

(** No worker thread is lost or joined twice: in every execution the
    existing threads are exactly those in the queue's vector or in the vector
    of one caller that is about to join them, each in one place, so that no
    joinable thread object is ever destroyed. *)
Theorem worker_threads_owned evs s : run initial evs s -> threads_owned s.
Proof. apply run_owned. Qed.

(** ** Messages inside the handlers *)
Lemma handled_insert m w a b :
  m !! w = Some a -> busy (w, b) ++ handled m ≡ₚ busy (w, a) ++ handled (<[w := b]> m).
Proof.
  intros Hw. unfold handled. rewrite <- (map_to_list_delete m w a Hw). rewrite <- insert_delete_eq.
  rewrite (map_to_list_insert (delete w m) w b) by apply lookup_delete_eq. cbn.
  rewrite !app_assoc. apply Permutation_app_tail, Permutation_app_comm.
Qed.

Lemma handled_spawn new m :
  NoDup new -> (forall w, w ∈ new -> m !! w = None) -> handled (spawn new m) ≡ₚ handled m.
Proof.
  induction new as [|w new IH]; intros Hn Hm; [done|]. apply NoDup_cons in Hn as [Hw Hn].
  change (spawn (w :: new) m) with (<[w := Looping]> (spawn new m)). unfold handled at 1.
  rewrite map_to_list_insert; [|rewrite lookup_spawn, bool_decide_eq_false_2 by done; apply Hm; left].
  cbn. apply IH; [done|]. intros w' Hin. apply Hm. by right.
Qed.

Lemma handled_join ws m : NoDup ws -> all_returned ws m -> handled (join ws m) ≡ₚ handled m.
Proof.
  induction ws as [|w ws IH]; intros Hn Hr; [done|]. apply NoDup_cons in Hn as [Hw Hn].
  apply Forall_cons in Hr as [Hr1 Hr]. change (join (w :: ws) m) with (delete w (join ws m)). rewrite <- IH by done.
  unfold handled at 2. rewrite <- (map_to_list_delete (join ws m) w Returned); [done|].
  by rewrite lookup_join, bool_decide_eq_false_2.
Qed.

Lemma startWorkersLocked_handled n q new q' m ids :
  startWorkersLocked n q = (new, q') -> owned_ok ids m n -> handled (spawn new m) ≡ₚ handled m.
Proof.
  unfold startWorkersLocked. destruct (workers_ q); intros [= <- _] (_ & H2 & H3); [|done].
  apply handled_spawn; [apply NoDup_seq|]. intros w Hw. apply elem_of_seq in Hw.
  apply eq_None_not_Some. intros Hs. apply H2, H3 in Hs. lia.
Qed.

Lemma step_handled s evs s' :
  threads_owned s -> step s evs s' ->
  (evs ≫= took) ++ handled (threads s) ≡ₚ (evs ≫= finished) ++ handled (threads s').
Proof.
  intros Ho [evs0 s0 Hs|evs0 s0 Hs|s0 Hs].
  - destruct Hs as [w Hw _|w m q Hw _|w m Hw]; cbn [threads].
    + exact (handled_insert _ _ _ Returned Hw).
    + exact (handled_insert _ _ _ (Handling m) Hw).
    + exact (handled_insert _ _ _ Looping Hw).
  - destruct Hs; try done. by destruct b.
  - destruct Hs as [b q Hq|l1 l2 new q Hc Hq|ws q Hq|l1 l2 ws Hc Hr|n r q Hq|l1 l2 n p ws q Hc Hq|l1 l2 n p ws new q Hc Hr Hq];
      cbn [threads]; try done;
      try (pose proof (owned_ok_perm _ _ _ _ (owned_client _ _ _ _ Hc) Ho) as Hp; cbn [held] in Hp).
    + symmetry. by eapply startWorkersLocked_handled.
    + symmetry. apply handled_join; [|done]. destruct Hp as [Hp _]. by apply NoDup_app in Hp as [? _].
    + symmetry. etransitivity; [eapply startWorkersLocked_handled; [exact Hq|by eapply owned_ok_join]|].
      apply handled_join; [|done]. destruct Hp as [Hp _]. by apply NoDup_app in Hp as [? _].
Qed.

(** Every message a worker takes is handled to its end, once: in every
    execution the messages taken from the queue are, up to order, those whose
    [handleMessage] has returned together with those inside it now; stopping,
    pausing or resizing the pool drops none. *)
Theorem taken_messages_are_handled evs s :
  run initial evs s -> evs ≫= took ≡ₚ (evs ≫= finished) ++ handled (threads s).
Proof.
  induction 1 as [|evs s' evs' s'' Hr IH Hs]; [done|].
  rewrite !bind_app, IH, <- app_assoc, (Permutation_app_comm (handled _)).
  by rewrite (step_handled _ _ _ (run_owned _ _ Hr) Hs), app_assoc.
Qed.

(** ** Stopping *)

(** A caller inside [stop], alone, with the threads [ws] to join. *)
Definition stopping (ws : list nat) (s : System) : Prop :=
  threads_owned s /\ clients s = [InStop ws] /\ workers_ (queue s) = []
  /\ running_ (queue s) = false /\ stopRequested_ (queue s) = true.

(** The steps a worker still has to make before it returns. *)
Definition left_to_do (m : gmap nat Worker) (w : nat) : nat :=
  match m !! w with Some Looping => 1 | Some (Handling _) => 2 | _ => 0 end.

Lemma sum_list_with_ext {A} (f g : A -> nat) (l : list A) :
  (forall x, x ∈ l -> f x = g x) -> sum_list_with f l = sum_list_with g l.
Proof.
  induction l as [|x l IH]; intros Hfg; cbn; [done|]. rewrite (Hfg x) by left. f_equal. apply IH. intros y Hy.
  apply Hfg. by right.
Qed.

Lemma left_to_do_insert ws m w b :
  NoDup ws -> w ∈ ws -> (left_to_do (<[w := b]> m) w < left_to_do m w)%nat ->
  (sum_list_with (left_to_do (<[w := b]> m)) ws < sum_list_with (left_to_do m) ws)%nat.
Proof.
  induction ws as [|w' ws IH]; intros Hn Hw Hlt; [by apply not_elem_of_nil in Hw|].
  apply NoDup_cons in Hn as [Hw' Hn]. cbn. apply elem_of_cons in Hw as [->|Hw].
  - rewrite (sum_list_with_ext (left_to_do (<[w' := b]> m)) (left_to_do m) ws); [lia|].
    intros x Hx. unfold left_to_do. rewrite lookup_insert_ne; [done|]. by intros ->.
  - assert (left_to_do (<[w := b]> m) w' = left_to_do m w') as ->.
    { unfold left_to_do. rewrite lookup_insert_ne; [done|]. by intros ->. }
    specialize (IH Hn Hw Hlt). lia.
Qed.

Lemma stopping_worker_step ws s evs s' :
  stopping ws s -> worker_step s evs s' ->
  stopping ws s' /\ messages_ (queue s') = messages_ (queue s)
  /\ (sum_list_with (left_to_do (threads s')) ws < sum_list_with (left_to_do (threads s)) ws)%nat.
Proof.
  intros (Ho & Hc & Hws & Hr & Hsr) Hs.
  assert (Hown : owned s = ws) by (unfold owned; rewrite Hws, Hc; cbn; by rewrite app_nil_r).
  assert (Hin : forall w x, threads s !! w = Some x -> w ∈ ws).
  { intros w x Hw. rewrite <- Hown. apply Ho. by eauto. }
  assert (Hnd : NoDup ws) by (rewrite <- Hown; apply Ho).
  pose proof (step_owned _ _ _ (s_worker _ _ _ Hs) Ho) as Ho'.
  destruct Hs as [w Hw _|w m q Hw Hq|w m Hw]; [| |]; cbn in *.
  - split; [by split_and!|]. split; [done|]. apply left_to_do_insert; [done|by eapply Hin|].
    unfold left_to_do. rewrite lookup_insert_eq, Hw. lia.
  - unfold worker_section in Hq. by rewrite Hsr in Hq.
  - split; [by split_and!|]. split; [done|]. apply left_to_do_insert; [done|by eapply Hin|].
    unfold left_to_do. rewrite lookup_insert_eq, Hw. lia.
Qed.

Lemma stopping_progress ws s :
  stopping ws s -> all_returned ws (threads s) \/ exists evs s', worker_step s evs s'.
Proof.
  intros (Ho & Hc & Hws & Hr & Hsr).
  assert (Hown : owned s = ws) by (unfold owned; rewrite Hws, Hc; cbn; by rewrite app_nil_r).
  assert (Hdec : forall w, {threads s !! w = Some Returned} + {threads s !! w <> Some Returned}).
  { intros w. destruct (threads s !! w) as [[]|]; (by left) || (right; discriminate). }
  destruct (Forall_Exists_dec _ _ Hdec ws) as [He|He]; [by left|right].
  apply Exists_exists in He as (w & Hw & Hne). rewrite <- Hown in Hw. apply Ho in Hw as [[|m|] Hx].
  - eexists _, _. apply (w_return _ w Hx). unfold worker_section. by rewrite Hsr.
  - eexists _, _. by apply (w_finish _ w m).
  - done.
Qed.

Lemma all_left_to_do m ws : (sum_list_with (left_to_do m) ws <= 2 * List.length ws)%nat.
Proof.
  induction ws as [|w ws IH]; cbn; [lia|]. unfold left_to_do at 1. repeat case_match; lia.
Qed.

Definition any_worker_step (a b : System) : Prop := exists e, worker_step a e b.

Lemma stopping_worker_steps ws n s s' :
  stopping ws s -> nsteps any_worker_step n s s' ->
  stopping ws s' /\ messages_ (queue s') = messages_ (queue s)
  /\ (n + sum_list_with (left_to_do (threads s')) ws <= sum_list_with (left_to_do (threads s)) ws)%nat.
Proof.
  intros Hst Hn. induction Hn as [s|n s1 s2 s3 [e Hs] Hn IH]; [done|].
  destruct (stopping_worker_step _ _ _ _ Hst Hs) as (Hst2 & Hm & Hlt). destruct (IH Hst2) as (? & Hm' & ?).
  split; [done|]. split; [congruence|lia].
Qed.

(** C30.  A [stop] that no other control call interferes with returns: its
    workers can make at most twice as many steps as there are workers, as long
    as one of them has not returned one can make a step, and when all have
    returned [stop] can join them and finish, leaving no thread behind, the
    queue not running and the queued messages as they were. *)
Theorem stop_terminates ws s n s' :
  stopping ws s -> nsteps any_worker_step n s s' ->
  (n <= 2 * List.length ws)%nat
  /\ ((exists evs s'', worker_step s' evs s'')
      \/ exists s'', control_step s' s'' /\ threads s'' = ∅ /\ clients s'' = []
           /\ running_ (queue s'') = false /\ stopRequested_ (queue s'') = false
           /\ messages_ (queue s'') = messages_ (queue s)).
Proof.
  intros Hst Hn. destruct (stopping_worker_steps _ _ _ _ Hst Hn) as (Hst' & Hm & Hle).
  pose proof (all_left_to_do (threads s) ws). split; [lia|].
  destruct (stopping_progress _ _ Hst') as [Hall|Hw]; [right|by left].
  destruct Hst' as (Ho & Hc & Hws & Hr & Hsr). eexists. split; [apply (k_stop_joined _ [] [] ws Hc Hall)|]. cbn.
  split_and!; try done. apply map_eq. intros w. rewrite lookup_join, lookup_empty. case_bool_decide as Hw; [done|].
  apply eq_None_not_Some. intros Hs. apply Ho in Hs. apply Hw.
  unfold owned in Hs. rewrite Hws, Hc in Hs. cbn in Hs. by rewrite app_nil_r in Hs.
Qed.

(** ** Two callers of [stop] *)

(** The first caller waits for the worker [w], the second has already returned. *)
Definition deadlocked (w : nat) (s : System) : Prop :=
  threads s !! w = Some Looping /\ clients s = [InStop [w]] /\ workers_ (queue s) = []
  /\ running_ (queue s) = false /\ stopRequested_ (queue s) = false.

Lemma deadlocked_step w s evs s' :
  deadlocked w s -> step s evs s' -> running_ (queue s') = false -> deadlocked w s'.
Proof.
  intros (Hw & Hc & Hws & Hr & Hsr) Hs Hr'.
  assert (Hwait : forall q, running_ q = false -> stopRequested_ q = false -> worker_section q = Wait).
  { intros q H1 H2. unfold worker_section. by rewrite H1, H2. }
  destruct Hs as [evs0 s0 Hs|evs0 s0 Hs|s0 Hs].
  - destruct Hs as [w' Hw' Hq|w' m q Hw' Hq|w' m Hw']; [by rewrite Hwait in Hq..|].
    split_and!; try done. cbn. rewrite lookup_insert_ne; [done|]. intros ->. by rewrite Hw in Hw'.
  - destruct Hs as [m b q Hq|m q Hq| | | |limit|q Hq]; try done.
    + unfold push in Hq. destruct (_ && _); injection Hq as <- <-; by split_and!.
    + unfold tryPop in Hq. destruct (messages_ (queue s)); [discriminate|]. injection Hq as <- <-. by split_and!.
    + unfold stop_first in Hq. rewrite Hr, Hws in Hq. cbn in Hq. injection Hq as <-. by split_and!.
  - destruct Hs as [b q Hq|l1 l2 new q Hc' Hq|ws q Hq|l1 l2 ws Hc' Hall|n r q Hq|l1 l2 n p ws q Hc' Hq|l1 l2 n p ws new q Hc' Hall Hq];
      try (rewrite Hc in Hc'; destruct l1 as [|c [|]]; try discriminate Hc').
    + unfold start_first in Hq. rewrite Hr in Hq. injection Hq as <- <-. discriminate Hr'.
    + unfold stop_first in Hq. rewrite Hr, Hws in Hq. discriminate Hq.
    + injection Hc' as <- <-. apply Forall_cons in Hall as [Hall _]. by rewrite Hw in Hall.
    + unfold setWorkerCount in Hq. destruct (_ =? _)%nat; [|rewrite Hr in Hq]; injection Hq as <- <-; by split_and!.
Qed.

Lemma deadlocked_forever w s s' :
  deadlocked w s -> rtc (fun a b => exists e, step a e b /\ running_ (queue b) = false) s s' -> deadlocked w s'.
Proof.
  intros Hd Hr. induction Hr as [s|s1 s2 s3 (e & Hs & Hr2) _ IH]; [done|]. apply IH. by eapply deadlocked_step.
Qed.

(** Finding.  Two concurrent calls of [stop] can deadlock: the second one
    finds the queue stopped and without workers, takes the early return and
    clears [stopRequested_] before the worker has seen it; from then on, until
    somebody calls [start] again, the worker stays in its loop and the first
    [stop] waits in [join] for ever. *)
Theorem concurrent_stop_deadlocks :
  exists evs s w, run initial evs s /\ deadlocked w s
    /\ forall s', rtc (fun a b => exists e, step a e b /\ running_ (queue b) = false) s s' ->
         clients s' = [InStop [w]] /\ threads s' !! w = Some Looping.
Proof.
  eexists _, _, 0%nat. split; [|split].
  - eapply run_step; [eapply run_step; [eapply run_step; [eapply run_step; [eapply run_step; [apply run_nil|]|]|]|]|].
    + apply s_control. by apply (k_setWorkerCount _ 1%nat).
    + apply s_control. by apply k_start.
    + apply s_control. by apply (k_start_workers _ [] []).
    + apply s_control. by apply k_stop.
    + apply s_call. by apply c_stop_idle.
  - by split_and!.
  - intros s' Hr. assert (Hd : deadlocked 0 s'); [|by destruct Hd as (? & ? & _)].
    eapply deadlocked_forever; [|exact Hr]. by split_and!.
Qed.
End Queue.

(** ** A sample execution

    One worker and a limit of two: the fourth message is refused. *)
Definition sample_events : list (Event (M := nat)) :=
  [LimitSet 2; Accepted 7%nat; Took 7%nat; Accepted 8%nat; Accepted 9%nat; Refused 10%nat; Finished 7%nat].

Definition limited : System (M := nat) := with_queue initial (setQueueLimit constructed 2).

Definition sample_state (stopRequested : bool) (w : Worker) (ws : list nat) (cs : list Client) : System :=
  mkSystem (mkQueue [8%nat; 9%nat] 2 1 (negb stopRequested) false stopRequested ws) {[ 0%nat := w ]} 1 cs.

Lemma run_cons {M} (s s' s'' : System (M := M)) e evs : step s e s' -> run s' evs s'' -> run s (e ++ evs) s''.
Proof.
  intros Hs Hr. induction Hr as [|evs s1 evs' s2 Hr IH Hs'].
  - rewrite app_nil_r. apply (run_step s [] s e s'); [apply run_nil|done].
  - rewrite app_assoc. by eapply run_step.
Qed.

Lemma limited_run : run limited (tail sample_events) (sample_state false Looping [0%nat] []).
Proof.
  change (tail sample_events) with ([] ++ [] ++ [] ++ [Accepted 7%nat] ++ [Took 7%nat] ++ [Accepted 8%nat]
    ++ [Accepted 9%nat] ++ [Refused 10%nat] ++ [Finished 7%nat] ++ []).
  eapply run_cons; [apply s_control, (k_setWorkerCount _ 1%nat); reflexivity|].
  eapply run_cons; [apply s_control, k_start; reflexivity|].
  eapply run_cons; [apply s_control, (k_start_workers _ [] []); reflexivity|].
  eapply run_cons; [apply s_call, (c_push _ 7%nat true); reflexivity|].
  eapply run_cons; [apply s_worker, (w_take _ 0%nat 7%nat); reflexivity|].
  eapply run_cons; [apply s_call, (c_push _ 8%nat true); reflexivity|].
  eapply run_cons; [apply s_call, (c_push _ 9%nat true); reflexivity|].
  eapply run_cons; [apply s_call, (c_push _ 10%nat false); reflexivity|].
  eapply run_cons; [apply s_worker, (w_finish _ 0%nat 7%nat); reflexivity|].
  apply run_nil.
Qed.

Lemma sample_execution : run initial sample_events (sample_state false Looping [0%nat] []).
Proof. exact (run_cons _ _ _ _ _ (s_call _ _ _ (c_setQueueLimit initial 2)) limited_run). Qed.

Lemma queue_is_fifo_witness : sample_events ≫= accepted = [7%nat] ++ [8%nat; 9%nat].
Proof. exact (queue_is_fifo initial sample_events _ eq_refl sample_execution). Defined.

Lemma queue_limit_holds_witness :
  (List.length (messages_ (queue (sample_state false Looping [0%nat] []))) <= 2)%nat.
Proof.
  apply (queue_limit_holds 2 limited (tail sample_events)).
  - lia.
  - exact limited_run.
  - intros n Hn. exfalso. cbn in Hn. rewrite !elem_of_cons, elem_of_nil in Hn.
    repeat (destruct Hn as [Hn|Hn]; [discriminate Hn|]). exact Hn.
  - reflexivity.
  - cbn. lia.
Defined.

Lemma worker_threads_owned_witness : threads_owned (sample_state false Looping [0%nat] []).
Proof. exact (worker_threads_owned sample_events _ sample_execution). Defined.

Lemma taken_messages_are_handled_witness : [7%nat] ≡ₚ [7%nat] ++ handled {[ 0%nat := Looping ]}.
Proof. exact (taken_messages_are_handled sample_events _ sample_execution). Defined.

Lemma stop_terminates_witness :
  (1 <= 2 * List.length [0%nat])%nat.
Proof.
  apply (stop_terminates [0%nat] (sample_state true Looping [] [InStop [0%nat]]) 1
    (sample_state true Returned [] [InStop [0%nat]])).
  - split_and!; try reflexivity. split; [apply NoDup_singleton|]. split; intros w; cbn.
    + rewrite elem_of_cons, elem_of_nil. destruct (decide (w = 0%nat)) as [->|Hw].
      * rewrite lookup_singleton_eq. split; by eauto.
      * rewrite lookup_singleton_ne by done. split; [by intros [?|[]]|by intros [? ?]].
    + rewrite elem_of_cons, elem_of_nil. intros [->|[]]. lia.
  - econstructor; [|constructor]. exists []. exact (w_return (sample_state true Looping [] [InStop [0%nat]]) 0%nat
      eq_refl eq_refl).
Defined.
