(* ===== verification/Transport.v ===== *)
(** * common/transport/transport.cpp and the frames of common/encoding

    A [Connection] moves bytes with the virtual calls [send] and [recv], which
    may transfer less than asked; [readExact] and [sendAll] loop over them.  The
    two encodings put each message into a frame of magic, length and payload. *)

From S2P Require Import Prelude Proto GuidBytes MessageHash KeyPair Signing AuthN.

(** ** Connections

    [None] is a result that is not positive.  [recv c n] is called with a buffer
    of [n] bytes and returns those it filled in. *)
Class Connection := {
  Conn : Type;
  send : Conn -> bytes -> option (nat * Conn);
  recv : Conn -> nat -> option (bytes * Conn);
}.

(** What a byte-stream socket guarantees: [pending] is what the peer has sent and
    this side has not read (up to the end of the stream), [delivered] what this
    side has sent. *)
Class ConnectionLaws (C : Connection) := {
  pending : Conn -> bytes;
  delivered : Conn -> bytes;
  recv_some : forall c n b c', recv c n = Some (b, c') -> (0 < n)%nat ->
    (0 < List.length b <= n)%nat /\ pending c = b ++ pending c' /\ delivered c' = delivered c;
  recv_none : forall c n, recv c n = None -> (0 < n)%nat -> pending c = [];
  send_some : forall c b k c', send c b = Some (k, c') -> b <> [] ->
    (0 < k <= List.length b)%nat /\ delivered c' = delivered c ++ take k b /\ pending c' = pending c;
}.

Section Transport.
Context `{C : Connection}.

(** [readExact]: the loop from [totalRead]; it makes at most [length] passes. *)
Fixpoint readExact_loop (fuel : nat) (c : Conn) (length : nat) (destination : bytes) : Res (option bytes * Conn) :=
  if (List.length destination <? length)%nat then
    match fuel with
    | O => NoFuel
    | S fuel =>
        match recv c (length - List.length destination) with
        | None => Ok (None, c)
        | Some (chunk, c') => readExact_loop fuel c' length (destination ++ chunk)
        end
    end
  else Ok (Some destination, c).

Definition readExact (c : Conn) (length : nat) : Res (option bytes * Conn) := readExact_loop length c length [].

(** [sendAll]: [data] is what remains from [totalSent] on. *)
Fixpoint sendAll_loop (fuel : nat) (c : Conn) (data : bytes) : Res (bool * Conn) :=
  match data with
  | [] => Ok (true, c)
  | _ =>
      match fuel with
      | O => NoFuel
      | S fuel =>
          match send c data with
          | None => Ok (false, c)
          | Some (bytesSent, c') => sendAll_loop fuel c' (drop bytesSent data)
          end
      end
  end.

Definition sendAll (c : Conn) (data : bytes) : Res (bool * Conn) := sendAll_loop (List.length data) c data.

(** ** Frames *)
Definition kFrameHeaderSize : nat := 8.
Definition kMaxFrameLength : Z := 16 * 1024 * 1024.

Definition readUint32 (data : bytes) : Z := be_value 32 (take 4 data).

Section Frame.
(** The magic of the encoding, and how it turns a message into a payload and
    back; [None] is a failure. *)
Context (kFrameMagic : Z) (encode : RSPMessage.t -> option bytes) (decode : bytes -> option RSPMessage.t).

Definition frame_write (c : Conn) (message : RSPMessage.t) : Res (bool * Conn) :=
  match encode message with
  | None => Ok (false, c)
  | Some payload =>
      if kMaxFrameLength <? size_of payload then Ok (false, c)
      else
        let header := appendUint32 (appendUint32 [] kFrameMagic) (wrap 32 (size_of payload)) in
        r ← sendAll c header;
        if (r.1 : bool) then sendAll r.2 payload else Ok (false, r.2)
  end.

Definition frame_read (c : Conn) : Res (option RSPMessage.t * Conn) :=
  r ← readExact c kFrameHeaderSize;
  match r.1 with
  | None => Ok (None, r.2)
  | Some header =>
      if negb (readUint32 header =? kFrameMagic) then Ok (None, r.2)
      else
        let payloadLength := readUint32 (drop 4 header) in
        if kMaxFrameLength <? payloadLength then Ok (None, r.2)
        else
          r' ← readExact r.2 (Z.to_nat payloadLength);
          match r'.1 with
          | None => Ok (None, r'.2)
          | Some payload => Ok (decode payload, r'.2)
          end
  end.

(** The bytes of a frame. *)
Definition frame (payload : bytes) : bytes := be_bytes 4 kFrameMagic ++ be_bytes 4 (size_of payload) ++ payload.
End Frame.

(** *** The two encodings

    The serializers of protobuf are parameters. *)
Section Encodings.
Context (SerializeToString : RSPMessage.t -> option bytes) (ParseFromArray : bytes -> option RSPMessage.t)
  (MessageToJsonString : RSPMessage.t -> option bytes) (JsonStringToMessage : bytes -> option RSPMessage.t).

Definition protobufFrameMagic : Z := 0x52535050.
Definition ProtobufEncoding_readMessage : Conn -> Res (option RSPMessage.t * Conn) :=
  frame_read protobufFrameMagic ParseFromArray.
Definition ProtobufEncoding_writeMessage : Conn -> RSPMessage.t -> Res (bool * Conn) :=
  frame_write protobufFrameMagic SerializeToString.

(** A message that cannot be printed is replaced by an empty object. *)
Definition encodeMessage (message : RSPMessage.t) : bytes := default (bs "{}") (MessageToJsonString message).

Definition jsonFrameMagic : Z := 0x5253504A.
Definition JsonEncoding_readMessage : Conn -> Res (option RSPMessage.t * Conn) :=
  frame_read jsonFrameMagic JsonStringToMessage.
Definition JsonEncoding_writeMessage : Conn -> RSPMessage.t -> Res (bool * Conn) :=
  frame_write jsonFrameMagic (fun message => Some (encodeMessage message)).
End Encodings.

(** ** Properties *)
Context `{L : !ConnectionLaws C}.

Lemma readExact_loop_spec fuel c length destination :
  (List.length destination <= length)%nat -> (length - List.length destination <= fuel)%nat ->
  let missing := (length - List.length destination)%nat in
  if (missing <=? List.length (pending c))%nat
  then exists c', readExact_loop fuel c length destination = Ok (Some (destination ++ take missing (pending c)), c')
         /\ pending c' = drop missing (pending c) /\ delivered c' = delivered c
  else exists c', readExact_loop fuel c length destination = Ok (None, c').
Proof.
  revert c destination. induction fuel as [|fuel IH]; intros c d Hd Hf missing; subst missing.
  - replace (length - List.length d)%nat with 0%nat by lia. cbn [readExact_loop Nat.leb take drop].
    destruct (Nat.ltb_spec (List.length d) length); [lia|]. exists c. by rewrite app_nil_r.
  - cbn [readExact_loop]. destruct (Nat.ltb_spec (List.length d) length) as [Hlt|Hge].
    2:{ replace (length - List.length d)%nat with 0%nat by lia. exists c. cbn. by rewrite app_nil_r. }
    destruct (recv c _) as [[b c1]|] eqn:Hr.
    2:{ apply recv_none in Hr; [|lia]. rewrite Hr. destruct (Nat.leb_spec (length - List.length d) (List.length ([] : bytes)));
        [cbn in *; lia|by exists c]. }
    apply recv_some in Hr as (Hb & Hp & Hdel); [|lia]. specialize (IH c1 (d ++ b)). rewrite length_app in IH.
    specialize (IH ltac:(lia) ltac:(lia)). rewrite Hp, length_app.
    replace (length - List.length d)%nat with (List.length b + (length - (List.length d + List.length b)))%nat by lia.
    set (k := (length - (List.length d + List.length b))%nat) in *. cbn zeta in IH.
    destruct (Nat.leb_spec k (List.length (pending c1))) as [Hk|Hk];
      destruct (Nat.leb_spec (List.length b + k) (List.length b + List.length (pending c1))); try lia; [|done].
    destruct IH as (c' & -> & Hp' & Hd'). exists c'. rewrite take_app_add, drop_app_add, app_assoc. split_and!; try done.
    congruence.
Qed.

Lemma readExact_spec c n :
  if (n <=? List.length (pending c))%nat
  then exists c', readExact c n = Ok (Some (take n (pending c)), c')
         /\ pending c' = drop n (pending c) /\ delivered c' = delivered c
  else exists c', readExact c n = Ok (None, c').
Proof.
  pose proof (readExact_loop_spec n c n []) as Hs. cbn [List.length] in Hs. rewrite Nat.sub_0_r in Hs.
  apply Hs; lia.
Qed.

Lemma sendAll_loop_spec fuel c data :
  (List.length data <= fuel)%nat ->
  exists ok c' k, sendAll_loop fuel c data = Ok (ok, c') /\ delivered c' = delivered c ++ take k data
    /\ pending c' = pending c /\ (ok = true -> take k data = data).
Proof.
  revert c data. induction fuel as [|fuel IH]; intros c data Hf.
  - destruct data; [|cbn in Hf; lia]. exists true, c, 0%nat. cbn. by rewrite app_nil_r.
  - destruct data as [|x data]; [exists true, c, 0%nat; cbn; by rewrite app_nil_r|]. cbn [sendAll_loop].
    destruct (send c (x :: data)) as [[k c1]|] eqn:Hs; [|exists false, c, 0%nat; cbn; by rewrite app_nil_r].
    apply send_some in Hs as (Hk & Hd & Hp); [|done].
    destruct (IH c1 (drop k (x :: data))) as (ok & c' & j & -> & Hd' & Hp' & Hok); [rewrite length_drop; cbn in *; lia|].
    exists ok, c', (k + j)%nat. assert (Ht : take (k + j) (x :: data) = take k (x :: data) ++ take j (drop k (x :: data))).
    { by rewrite take_take_drop. }
    split_and!; [done| |congruence|].
    + by rewrite Hd', Hd, Ht, app_assoc.
    + intros ->. rewrite Ht, Hok by done. apply take_drop.
Qed.

Lemma sendAll_spec c data :
  exists ok c' k, sendAll c data = Ok (ok, c') /\ delivered c' = delivered c ++ take k data
    /\ pending c' = pending c /\ (ok = true -> take k data = data).
Proof. by apply sendAll_loop_spec. Qed.

(** Reading and sending do not depend on how the socket cuts the stream:
    however many bytes each [recv] returns, [readExact] ends and gives exactly
    the next bytes of the stream, leaving the rest, or fails when the stream
    ends before; [sendAll] ends and delivers all its bytes in order, or a prefix
    of them when it reports failure. *)
Theorem exact_transfer c n data :
  (if (n <=? List.length (pending c))%nat
   then exists c', readExact c n = Ok (Some (take n (pending c)), c')
          /\ pending c' = drop n (pending c) /\ delivered c' = delivered c
   else exists c', readExact c n = Ok (None, c'))
  /\ exists ok c' k, sendAll c data = Ok (ok, c') /\ delivered c' = delivered c ++ take k data
       /\ pending c' = pending c /\ (ok = true -> take k data = data).
Proof. split; [apply readExact_spec|apply sendAll_spec]. Qed.

Lemma frame_header (magic : Z) (payload : bytes) :
  size_of payload <= kMaxFrameLength ->
  appendUint32 (appendUint32 [] magic) (wrap 32 (size_of payload)) = be_bytes 4 magic ++ be_bytes 4 (size_of payload).
Proof.
  intros Hs. rewrite !appendUint32_be. cbn [app]. f_equal. f_equal. unfold wrap. apply Z.mod_small.
  unfold size_of, kMaxFrameLength in *. lia.
Qed.

Lemma readUint32_be v X : is_u32 v -> readUint32 (be_bytes 4 v ++ X) = v.
Proof.
  intros Hv. unfold readUint32. rewrite take_app_length' by (by rewrite length_be_bytes). apply be_bytes_value; [lia..|exact Hv].
Qed.

(** What [frame_write] does to the stream. *)
Lemma frame_write_delivers magic encode c m c' :
  frame_write magic encode c m = Ok (true, c') ->
  exists payload, encode m = Some payload /\ size_of payload <= kMaxFrameLength
    /\ delivered c' = delivered c ++ frame magic payload.
Proof.
  unfold frame_write. destruct (encode m) as [p|]; [|discriminate]. destruct (Z.ltb_spec kMaxFrameLength (size_of p)); [discriminate|].
  rewrite frame_header by done.
  destruct (sendAll_spec c (be_bytes 4 magic ++ be_bytes 4 (size_of p))) as (ok & c1 & k & -> & Hd & _ & Hok).
  cbn [mbind res_bind fst snd]. destruct ok; [|discriminate].
  destruct (sendAll_spec c1 p) as (ok2 & c2 & k2 & -> & Hd2 & _ & Hok2). intros [= -> ->]. exists p. split_and!; try done.
  rewrite Hd2, Hd, Hok, Hok2 by done. unfold frame. by rewrite <- !app_assoc.
Qed.

(** What [frame_read] does with a frame at the front of the stream. *)
Lemma frame_read_frame magic decode c payload rest :
  is_u32 magic -> size_of payload <= kMaxFrameLength -> pending c = frame magic payload ++ rest ->
  exists c', frame_read magic decode c = Ok (decode payload, c') /\ pending c' = rest.
Proof.
  intros Hm Hs Hp. unfold frame_read. pose proof (readExact_spec c kFrameHeaderSize) as Hr.
  set (header := be_bytes 4 magic ++ be_bytes 4 (size_of payload)).
  assert (Hh : List.length header = 8%nat) by (unfold header; by rewrite length_app, !length_be_bytes).
  assert (Hp' : pending c = header ++ payload ++ rest) by (rewrite Hp; unfold frame, header; by rewrite <- !app_assoc).
  rewrite Hp', length_app, Hh in Hr. cbn [Nat.leb Nat.add kFrameHeaderSize] in Hr.
  change 8%nat with kFrameHeaderSize in Hh. rewrite <- Hh, take_app_length, drop_app_length in Hr.
  rewrite Hh in Hr. destruct Hr as (c1 & -> & Hp1 & _). cbn [mbind res_bind fst snd]. unfold header.
  rewrite readUint32_be by done. rewrite Z.eqb_refl. cbn [negb]. rewrite drop_app_length' by (by rewrite length_be_bytes).
  rewrite <- (app_nil_r (be_bytes 4 (size_of payload))), readUint32_be.
  2:{ unfold is_u32, size_of, kMaxFrameLength in *. lia. }
  destruct (Z.ltb_spec kMaxFrameLength (size_of payload)); [lia|].
  pose proof (readExact_spec c1 (List.length payload)) as Hr. rewrite Hp1, length_app in Hr.
  destruct (Nat.leb_spec (List.length payload) (List.length payload + List.length rest)); [|lia].
  rewrite take_app_length, drop_app_length in Hr. unfold size_of. rewrite Nat2Z.id.
  destruct Hr as (c2 & -> & Hp2 & _). by exists c2.
Qed.

(** C39.  Framing round trip: what an encoding writes, its peer reads back.  If a
    message was written successfully, the bytes added to the stream are one
    frame; and reading from any stream that continues with these bytes returns
    the message and leaves the rest of the stream for the next frame. *)
Theorem frame_round_trip magic encode decode c m c' payload c2 rest :
  is_u32 magic -> encode m = Some payload -> decode payload = Some m ->
  frame_write magic encode c m = Ok (true, c') ->
  exists f, delivered c' = delivered c ++ f
    /\ (pending c2 = f ++ rest ->
        exists c2', frame_read magic decode c2 = Ok (Some m, c2') /\ pending c2' = rest).
Proof.
  intros Hm He Hd Hw. destruct (frame_write_delivers _ _ _ _ _ Hw) as (p & He' & Hs & Hdel).
  rewrite He in He'. injection He' as <-. exists (frame magic payload). split; [done|]. intros Hp.
  rewrite <- Hd. by eapply frame_read_frame.
Qed.

(** A reader accepts frames only: when [frame_read] returns a message, the
    stream started with the right magic, a length of at most 16 MiB and exactly
    that many bytes, which decode to the message; and it ends on every stream. *)
Theorem frame_read_sound magic decode c :
  (exists m c', frame_read magic decode c = Ok (m, c')
     /\ (forall x, m = Some x -> exists payload, decode payload = Some x
          /\ size_of payload <= kMaxFrameLength /\ pending c = frame magic payload ++ pending c')).
Proof.
  unfold frame_read. pose proof (readExact_spec c kFrameHeaderSize) as Hr.
  destruct (Nat.leb_spec kFrameHeaderSize (List.length (pending c))) as [Hlen|]; [|destruct Hr as (c' & ->); cbn; by eexists _, _].
  destruct Hr as (c1 & -> & Hp1 & _). cbn [mbind res_bind fst snd]. set (header := take kFrameHeaderSize (pending c)) in *.
  assert (Hh : List.length header = 8%nat) by (unfold header; rewrite length_take; unfold kFrameHeaderSize in *; lia).
  destruct (Z.eqb_spec (readUint32 header) magic) as [Hmagic|]; cbn [negb]; [|by eexists _, _].
  destruct (Z.ltb_spec kMaxFrameLength (readUint32 (drop 4 header))) as [|Hmax]; [by eexists _, _|].
  set (n := readUint32 (drop 4 header)) in *. pose proof (readExact_spec c1 (Z.to_nat n)) as Hr.
  destruct (Nat.leb_spec (Z.to_nat n) (List.length (pending c1))) as [Hn|]; [|destruct Hr as (c' & ->); cbn; by eexists _, _].
  destruct Hr as (c2 & -> & Hp2 & _). cbn [mbind res_bind fst snd]. eexists _, _. split; [done|].
  intros x Hx. exists (take (Z.to_nat n) (pending c1)).
  assert (Hrange : 0 <= n < 2 ^ (8 * size_of (take 4 (drop 4 header)))).
  { apply be_value_range; [lia|]. unfold size_of. rewrite length_take, length_drop, Hh. cbn. lia. }
  assert (Hsize : size_of (take (Z.to_nat n) (pending c1)) = n).
  { unfold size_of. rewrite length_take, Nat.min_l by done. apply Z2Nat.id. lia. }
  split; [done|]. split; [by rewrite Hsize|]. unfold frame. rewrite Hsize, <- Hmagic. subst n.
  unfold readUint32.
  assert (Hb : forall b, List.length b = 4%nat -> be_bytes 4 (be_value 32 b) = b).
  { intros b Hb. rewrite <- Hb. apply be_value_bytes; [lia|]. unfold size_of. rewrite Hb. lia. }
  rewrite !Hb by (rewrite ?length_take, ?length_drop, ?Hh; done).
  rewrite (take_ge (drop 4 header)) by (rewrite length_drop, Hh; cbn; lia).
  transitivity (header ++ pending c1); [unfold header; by rewrite Hp1, take_drop|].
  rewrite <- (take_drop 4 header) at 1. rewrite <- !app_assoc. do 2 f_equal.
  rewrite Hp2. unfold readUint32. rewrite (take_ge (drop 4 header)) by (rewrite length_drop, Hh; cbn; lia).
  by rewrite take_drop.
Qed.
End Transport.

(** ** A connection that moves one byte at a time *)
Module Trickle.
#[export] Instance trickle : Connection := {|
  Conn := bytes * bytes;
  send := fun c b => match b with x :: _ => Some (1%nat, (c.1, c.2 ++ [x])) | [] => None end;
  recv := fun c n => match c.1 with x :: rest => Some ([x], (rest, c.2)) | [] => None end;
|}.

#[export] Instance trickle_laws : ConnectionLaws trickle.
Proof.
  refine {| pending := fst; delivered := snd |}.
  - intros [[|x i] o] n b c'; cbn; [discriminate|]. intros [= <- <-] Hn. cbn. split; [lia|done].
  - intros [[|x i] o] n; cbn; [done|discriminate].
  - intros [i o] [|x b] k c'; cbn; [discriminate|]. intros [= <- <-] _. cbn. split; [lia|done].
Defined.

(** A codec for one message. *)
Definition print (m : RSPMessage.t) : option bytes := Some (bs "ping").
Definition scan (b : bytes) : option RSPMessage.t := if bool_decide (b = bs "ping") then Some (ToyCodec.ping 1) else None.
End Trickle.

Lemma exact_transfer_witness :
  exists c', readExact (C := Trickle.trickle) (bs "hello", []) 3 = Ok (Some (bs "hel"), c').
Proof.
  destruct (exact_transfer (C := Trickle.trickle) (L := Trickle.trickle_laws) (bs "hello", []) 3 []) as [(c' & Hr & _) _].
  exists c'. exact Hr.
Defined.

Lemma frame_round_trip_witness :
  exists c2', frame_read (C := Trickle.trickle) protobufFrameMagic Trickle.scan
    (be_bytes 4 protobufFrameMagic ++ be_bytes 4 4 ++ bs "ping" ++ bs "next", []) = Ok (Some (ToyCodec.ping 1), c2').
Proof.
  destruct (frame_round_trip (C := Trickle.trickle) (L := Trickle.trickle_laws) protobufFrameMagic Trickle.print
    Trickle.scan ([], []) (ToyCodec.ping 1) ([], be_bytes 4 protobufFrameMagic ++ be_bytes 4 4 ++ bs "ping") (bs "ping")
    (be_bytes 4 protobufFrameMagic ++ be_bytes 4 4 ++ bs "ping" ++ bs "next", []) (bs "next")) as (f & Hf & Hr).
  - unfold is_u32, protobufFrameMagic. lia.
  - reflexivity.
  - reflexivity.
  - vm_compute. reflexivity.
  - cbn [delivered Trickle.trickle_laws snd app] in Hf. subst f. destruct Hr as (c2' & Hr & _).
    + vm_compute. reflexivity.
    + exists c2'. exact Hr.
Defined.

Lemma frame_read_sound_witness :
  exists m c', frame_read (C := Trickle.trickle) protobufFrameMagic Trickle.scan (bs "RSP", []) = Ok (m, c').
Proof.
  destruct (frame_read_sound (C := Trickle.trickle) (L := Trickle.trickle_laws) protobufFrameMagic Trickle.scan
    (bs "RSP", [])) as (m & c' & Hr & _).
  exists m, c'. exact Hr.
Defined.
