(* ===== verification/Handshake.v ===== *)
(** * common/message_queue/mq_ascii_handshake.cpp: choosing the encoding

    Before any message is exchanged, the server advertises its encodings in
    ASCII, the client names one, and the server confirms it.  What follows on
    the stream belongs to the chosen encoding, so the handshake must not read
    past its own messages. *)

From S2P Require Import Prelude Proto KeyPair MessageHash Signing AuthN Transport.

Definition CR : ascii := "013".
Definition LF : ascii := "010".
Definition crlf : bytes := [CR; LF].

Definition kMessageTerminator : bytes := crlf ++ crlf.
Definition kMaxHandshakeBytes : nat := 4096.
Definition kAsciiHandshakeEncoding : bytes := bs "protobuf".
Definition kJsonHandshakeEncoding : bytes := bs "json".
Definition RSP_VERSION : bytes := bs "0.1".

(** The test on the last four bytes. *)
Definition terminated (message : bytes) : bool :=
  (4 <=? List.length message)%nat && bool_decide (drop (List.length message - 4) message = kMessageTerminator).

(** ** Text *)
Definition blank (c : ascii) : bool := bool_decide (c = " "%char) || bool_decide (c = "009"%char).

Fixpoint skip_blanks (value : bytes) : bytes :=
  match value with
  | c :: rest => if blank c then skip_blanks rest else value
  | [] => []
  end.

Definition trim (value : bytes) : bytes := rev (skip_blanks (rev (skip_blanks value))).

(** [find] of CR LF: the text before it and the text after it. *)
Fixpoint split_crlf (message : bytes) : option (bytes * bytes) :=
  match message with
  | [] => None
  | c :: rest =>
      match rest with
      | d :: rest' =>
          if bool_decide (c = CR) && bool_decide (d = LF) then Some ([], rest')
          else '(line, after) ← split_crlf rest; Some (c :: line, after)
      | [] => None
      end
  end.

Definition has_prefix (prefix line : bytes) : bool := bool_decide (take (List.length prefix) line = prefix).

(** [message] is the text from [lineStart] on; every pass consumes a line. *)
Fixpoint headerValue_loop (fuel : nat) (message key : bytes) : bytes :=
  match fuel with
  | O => []
  | S fuel =>
      match split_crlf message with
      | None => []
      | Some ([], _) => []
      | Some (line, after) =>
          if has_prefix key line then trim (drop (List.length key) line)
          else headerValue_loop fuel after key
      end
  end.

Definition headerValue (message key : bytes) : bytes := headerValue_loop (List.length message) message key.

Definition serverAdvertisement : bytes :=
  bs "RSP version " ++ RSP_VERSION ++ crlf ++ bs "encodings:protobuf,json" ++ crlf ++ bs "asymmetric: P256" ++ crlf ++ crlf.
Definition clientSelection (encoding : bytes) : bytes := bs "encoding:" ++ encoding ++ crlf ++ crlf.
Definition successResponse (encoding : bytes) : bytes := bs "1success: encoding:" ++ encoding ++ crlf ++ crlf.
Definition errorResponse (message : bytes) : bytes := bs "0error: " ++ message ++ crlf ++ crlf.

Section Handshake.
Context `{C : Crypto} `{CN : Connection}.

(** ** Reading byte by byte; the budget is what the message may still grow. *)
Fixpoint receiveMessage_loop (budget : nat) (c : Conn) (message : bytes) : Res (option bytes * Conn) :=
  match budget with
  | O => Ok (None, c)
  | S budget =>
      r ← readExact c 1;
      match r.1 with
      | None => Ok (None, r.2)
      | Some byte =>
          let message := message ++ byte in
          if terminated message then Ok (Some message, r.2)
          else receiveMessage_loop budget r.2 message
      end
  end.

Definition receiveMessage (c : Conn) : Res (option bytes * Conn) := receiveMessage_loop kMaxHandshakeBytes c [].

(** ** The two sides; the flag says that the connection was closed. *)
Definition supported (encoding : bytes) : bool :=
  bool_decide (encoding = kAsciiHandshakeEncoding) || bool_decide (encoding = kJsonHandshakeEncoding).

Definition performServerHandshake (c : Conn) : Res (option bytes * Conn * bool) :=
  r ← sendAll c serverAdvertisement;
  if negb r.1 then Ok (None, r.2, false)
  else
    m ← receiveMessage r.2;
    match m.1 with
    | None => Ok (None, m.2, false)
    | Some clientMessage =>
        let selectedEncoding := headerValue clientMessage (bs "encoding:") in
        if negb (supported selectedEncoding) then
          e ← sendAll m.2 (errorResponse (bs "unsupported encoding"));
          Ok (None, e.2, true)
        else
          s ← sendAll m.2 (successResponse selectedEncoding);
          Ok (if (s.1 : bool) then Some selectedEncoding else None, s.2, false)
    end.

Definition successPrefix : bytes := bs "1success: encoding:".

Definition performClientHandshake (c : Conn) (requestedEncoding : bytes) : Res (option bytes * Conn) :=
  m ← receiveMessage c;
  match m.1 with
  | None => Ok (None, m.2)
  | Some _ =>
      s ← sendAll m.2 (clientSelection requestedEncoding);
      if negb s.1 then Ok (None, s.2)
      else
        r ← receiveMessage s.2;
        match r.1 with
        | None => Ok (None, r.2)
        | Some serverResult =>
            if negb (bool_decide (head serverResult = Some "1"%char)) then Ok (None, r.2)
            else if negb (has_prefix successPrefix serverResult) then Ok (None, r.2)
            else
              let line := match split_crlf serverResult with Some (line, _) => line | None => serverResult end in
              Ok (Some (drop (List.length successPrefix) line), r.2)
        end
  end.

(** ** The queues *)
Inductive EncodingKind := ProtobufKind | JsonKind.

Definition duplicate (k : KeyPair) : Res KeyPair :=
  if negb (isValid k) then throw_runtime "cannot duplicate an empty keypair" else Ok k.

Definition setNegotiatedEncoding (established : option bytes) (encodingName : bytes) : Res (option bytes) :=
  match established with
  | Some e =>
      if bool_decide (e = encodingName) then Ok (Some encodingName)
      else Throw (LogicError (bs "connection encoding is already established"))
  | None => Ok (Some encodingName)
  end.

Definition createEncodingForConnection (negotiated : option bytes) (localKeyPair : KeyPair)
    : Res (option EncodingKind) :=
  match negotiated with
  | None => Ok None
  | Some selectedEncoding =>
      if bool_decide (selectedEncoding = kAsciiHandshakeEncoding) then duplicate localKeyPair;; Ok (Some ProtobufKind)
      else if bool_decide (selectedEncoding = kJsonHandshakeEncoding) then duplicate localKeyPair;; Ok (Some JsonKind)
      else Ok None
  end.

Inductive HandshakeEvent :=
| HandshakeSucceeded (kind : EncodingKind)
| HandshakeFailed
| Closed.

(** [handleMessage] of the server queue for a connection on which [established]
    is already negotiated; an earlier [close] of the connection is not repeated
    in the events. *)
Definition HandshakeServer_handleMessage (localKeyPair : KeyPair) (established : option bytes) (c : Conn)
    : Res (list HandshakeEvent * Conn) :=
  r ← performServerHandshake c;
  match r.1.1 with
  | None => Ok ([HandshakeFailed; Closed], r.1.2)
  | Some selectedEncoding =>
      negotiated ← setNegotiatedEncoding established selectedEncoding;
      kind ← createEncodingForConnection negotiated localKeyPair;
      Ok (match kind with None => [HandshakeFailed; Closed] | Some k => [HandshakeSucceeded k] end, r.1.2)
  end.

(** The client queue; [None] is a transport without a connection. *)
Definition HandshakeClient_handleMessage (localKeyPair : KeyPair) (requestedEncoding : bytes) (established : option bytes)
    (c : option Conn) : Res (list HandshakeEvent * option Conn) :=
  match c with
  | None => Ok ([HandshakeFailed; Closed], None)
  | Some c =>
      r ← performClientHandshake c requestedEncoding;
      if negb (bool_decide (r.1 = Some requestedEncoding)) then Ok ([HandshakeFailed; Closed], Some r.2)
      else
        negotiated ← setNegotiatedEncoding established requestedEncoding;
        kind ← createEncodingForConnection negotiated localKeyPair;
        Ok (match kind with None => [HandshakeFailed; Closed] | Some k => [HandshakeSucceeded k] end, Some r.2)
  end.

(** ** Properties *)
Context `{L : !ConnectionLaws CN}.

(** A message that ends with its first terminator. *)
Definition complete_message (m : bytes) : Prop :=
  terminated m = true /\ forall n, (n < List.length m)%nat -> terminated (take n m) = false.

Lemma readExact_one c x rest :
  pending c = x :: rest -> exists c', readExact c 1 = Ok (Some [x], c') /\ pending c' = rest /\ delivered c' = delivered c.
Proof. intros Hp. pose proof (readExact_spec c 1) as Hr. rewrite Hp in Hr. exact Hr. Qed.

Lemma receiveMessage_loop_complete budget c message x msg rest :
  pending c = (x :: msg) ++ rest -> (List.length (x :: msg) <= budget)%nat ->
  (forall n, (n < List.length msg)%nat -> terminated (message ++ take (S n) (x :: msg)) = false) ->
  terminated (message ++ x :: msg) = true ->
  exists c', receiveMessage_loop budget c message = Ok (Some (message ++ x :: msg), c')
    /\ pending c' = rest /\ delivered c' = delivered c.
Proof.
  revert budget c message x. induction msg as [|y msg IH]; intros [|budget] c message x Hp Hl Hn Ht; try (cbn in Hl; lia);
    cbn [receiveMessage_loop]; destruct (readExact_one _ _ _ Hp) as (c1 & -> & Hp1 & Hd1); cbn [mbind res_bind fst snd].
  - rewrite Ht. by exists c1.
  - change [x] with (take 1 (x :: y :: msg)) at 1. rewrite (Hn 0%nat) by (cbn; lia).
    destruct (IH budget c1 (message ++ [x]) y Hp1) as (c' & Hr & Hp' & Hd'); [cbn in *; lia| | |].
    + intros n Hlt. rewrite <- app_assoc. apply (Hn (S n)). cbn. lia.
    + by rewrite <- app_assoc.
    + exists c'. rewrite Hr, <- app_assoc. split; [done|]. split; [done|congruence].
Qed.

Lemma receiveMessage_complete c m rest :
  complete_message m -> (List.length m <= kMaxHandshakeBytes)%nat -> pending c = m ++ rest ->
  exists c', receiveMessage c = Ok (Some m, c') /\ pending c' = rest /\ delivered c' = delivered c.
Proof.
  intros [Ht Hn] Hl Hp. destruct m as [|x m]; [discriminate Ht|].
  apply (receiveMessage_loop_complete kMaxHandshakeBytes c [] x m rest Hp Hl); [|done].
  intros n Hlt. apply Hn. cbn. lia.
Qed.

Lemma receiveMessage_loop_sound budget c message :
  (forall n, (n <= List.length message)%nat -> terminated (take n message) = false) ->
  exists r c', receiveMessage_loop budget c message = Ok (r, c')
    /\ forall m, r = Some m -> complete_message m
         /\ exists got, m = message ++ got /\ pending c = got ++ pending c' /\ (List.length got <= budget)%nat.
Proof.
  revert c message. induction budget as [|budget IH]; intros c message Hm; cbn [receiveMessage_loop]; [by eexists _, _|].
  pose proof (readExact_spec c 1) as Hr. destruct (Nat.leb_spec 1 (List.length (pending c))) as [Hlen|].
  2:{ destruct Hr as (c' & ->). cbn. by eexists _, _. }
  destruct Hr as (c1 & -> & Hp1 & _). cbn [mbind res_bind fst snd].
  destruct (pending c) as [|x rest] eqn:Hp; [cbn in Hlen; lia|]. assert (Hrest : pending c1 = rest) by (by rewrite Hp1).
  change (take 1 (x :: rest)) with [x].
  destruct (terminated (message ++ [x])) eqn:Ht.
  - eexists _, _. split; [done|]. intros m [= <-]. split; [split; [done|]|exists [x]; rewrite Hrest; cbn; split_and!; [done..|lia]].
    intros n Hn. rewrite length_app in Hn. cbn in Hn. rewrite take_app_le by lia. apply Hm. lia.
  - destruct (IH c1 (message ++ [x])) as (r & c' & Hr & Hs).
    + intros n Hn. rewrite length_app in Hn. cbn in Hn. destruct (decide (n <= List.length message)%nat).
      * rewrite take_app_le by lia. by apply Hm.
      * rewrite take_ge; [done|]. rewrite length_app. cbn. lia.
    + exists r, c'. split; [done|]. intros m Hrm. destruct (Hs m Hrm) as (Hc & got & -> & Hp' & Hl). split; [done|].
      exists (x :: got). rewrite <- app_assoc. split; [done|]. rewrite <- Hrest, Hp'. split; [done|]. cbn. lia.
Qed.

(** The handshake reads exactly its own bytes: [receiveMessage] ends on
    every stream; a message it returns is the text up to and including the first
    blank line, at most 4096 bytes, and nothing after it has been taken from the
    stream; and it does return every such message. *)
Theorem receiveMessage_exact c :
  (exists r c', receiveMessage c = Ok (r, c')
     /\ forall m, r = Some m -> complete_message m /\ (List.length m <= kMaxHandshakeBytes)%nat
          /\ pending c = m ++ pending c')
  /\ (forall m rest, complete_message m -> (List.length m <= kMaxHandshakeBytes)%nat -> pending c = m ++ rest ->
       exists c', receiveMessage c = Ok (Some m, c') /\ pending c' = rest).
Proof.
  split.
  - destruct (receiveMessage_loop_sound kMaxHandshakeBytes c []) as (r & c' & Hr & Hs).
    { intros n _. by rewrite take_nil. }
    exists r, c'. split; [done|]. intros m Hm. destruct (Hs m Hm) as (Hc & got & -> & Hp & Hl). done.
  - intros m rest Hc Hl Hp. destruct (receiveMessage_complete _ _ _ Hc Hl Hp) as (c' & ? & ? & _). by exists c'.
Qed.

(** A check of [complete_message] by evaluation. *)
Definition complete_check (m : bytes) : bool :=
  terminated m && forallb (fun n => negb (terminated (take n m))) (seq 0 (List.length m)).

Lemma complete_check_ok m : complete_check m = true -> complete_message m.
Proof.
  intros [Ht Hn]%andb_true_iff. split; [done|]. intros n Hlt. rewrite forallb_forall in Hn.
  apply negb_true_iff, Hn, in_seq. lia.
Qed.

(** Every send succeeds. *)
Definition writable : Prop := forall c data, exists c', sendAll c data = Ok (true, c').

Lemma send_writable c data :
  writable -> exists c', sendAll c data = Ok (true, c') /\ delivered c' = delivered c ++ data /\ pending c' = pending c.
Proof.
  intros Hw. destruct (Hw c data) as [c' Hs]. destruct (sendAll_spec c data) as (ok & c1 & k & Hs' & Hd & Hp & Hok).
  rewrite Hs in Hs'. injection Hs' as <- <-. exists c'. by rewrite Hd, Hok.
Qed.

(** The messages of a handshake for one of the two encodings. *)
Lemma handshake_texts e :
  supported e = true ->
  headerValue (clientSelection e) (bs "encoding:") = e
  /\ complete_message (clientSelection e) /\ complete_message (successResponse e)
  /\ (List.length (clientSelection e) <= kMaxHandshakeBytes)%nat
  /\ (List.length (successResponse e) <= kMaxHandshakeBytes)%nat
  /\ head (successResponse e) = Some "1"%char /\ has_prefix successPrefix (successResponse e) = true
  /\ split_crlf (successResponse e) = Some (successPrefix ++ e, crlf).
Proof.
  unfold supported. rewrite orb_true_iff, !bool_decide_eq_true.
  intros [-> | ->]; (split; [vm_compute; reflexivity|]); (split; [apply complete_check_ok; vm_compute; reflexivity|]);
    (split; [apply complete_check_ok; vm_compute; reflexivity|]); (split; [apply Nat.leb_le; vm_compute; reflexivity|]);
    (split; [apply Nat.leb_le; vm_compute; reflexivity|]); split_and!; vm_compute; reflexivity.
Qed.

(** C40.  Client and server agree: with one of the two encodings requested, the
    server that reads the client's selection and the client that reads the
    server's advertisement and answer both end with that encoding, each having
    sent exactly what the other one reads, and both leave the bytes that follow
    on their streams, which belong to the encoding, untouched. *)
Theorem handshake_agrees e cs cc more_s more_c :
  writable -> supported e = true ->
  pending cs = clientSelection e ++ more_s -> pending cc = serverAdvertisement ++ successResponse e ++ more_c ->
  exists cs' cc',
    performServerHandshake cs = Ok (Some e, cs', false) /\ performClientHandshake cc e = Ok (Some e, cc')
    /\ delivered cs' = delivered cs ++ serverAdvertisement ++ successResponse e
    /\ delivered cc' = delivered cc ++ clientSelection e
    /\ pending cs' = more_s /\ pending cc' = more_c.
Proof.
  intros Hw He Hs Hc. destruct (handshake_texts e He) as (Hv & Hcs & Hsr & Hl1 & Hl2 & Hhd & Hpre & Hsplit).
  destruct (send_writable cs serverAdvertisement Hw) as (s1 & Hs1 & Hds1 & Hps1).
  destruct (receiveMessage_complete s1 _ more_s Hcs Hl1 ltac:(by rewrite Hps1)) as (s2 & Hs2 & Hps2 & Hds2).
  destruct (send_writable s2 (successResponse e) Hw) as (s3 & Hs3 & Hds3 & Hps3).
  assert (Hadv : complete_message serverAdvertisement) by (apply complete_check_ok; vm_compute; reflexivity).
  destruct (receiveMessage_complete cc _ _ Hadv ltac:(apply Nat.leb_le; vm_compute; reflexivity) Hc) as (c1 & Hc1 & Hpc1 & Hdc1).
  destruct (send_writable c1 (clientSelection e) Hw) as (c2 & Hc2 & Hdc2 & Hpc2).
  destruct (receiveMessage_complete c2 _ more_c Hsr Hl2 ltac:(by rewrite Hpc2)) as (c3 & Hc3 & Hpc3 & Hdc3).
  exists s3, c3. split_and!.
  - unfold performServerHandshake. revert Hs2. generalize receiveMessage as recv. intros recv Hs2. rewrite Hs1. cbn [mbind res_bind fst snd negb]. rewrite Hs2.
    cbn [mbind res_bind fst snd]. rewrite Hv, He. cbn [negb]. by rewrite Hs3.
  - unfold performClientHandshake. revert Hc1 Hc3. generalize receiveMessage as recv. intros recv Hc1 Hc3. rewrite Hc1. cbn [mbind res_bind fst snd]. rewrite Hc2.
    cbn [mbind res_bind fst snd negb]. rewrite Hc3. cbn [mbind res_bind fst snd].
    rewrite Hhd, bool_decide_eq_true_2 by done. rewrite Hpre. cbn [negb]. rewrite Hsplit. by rewrite drop_app_length.
  - by rewrite Hds3, Hds2, Hds1, <- app_assoc.
  - by rewrite Hdc3, Hdc2, Hdc1.
  - congruence.
  - congruence.
Qed.

(** The encoding object for a name. *)
Definition kind_of (e : bytes) : EncodingKind :=
  if bool_decide (e = kAsciiHandshakeEncoding) then ProtobufKind else JsonKind.

Lemma create_supported e k :
  isValid k = true ->
  createEncodingForConnection (Some e) k = Ok (if supported e then Some (kind_of e) else None).
Proof.
  intros Hk. unfold createEncodingForConnection, supported, kind_of, duplicate. rewrite Hk. cbn [negb].
  by repeat case_bool_decide.
Qed.

Lemma receiveMessage_loop_ends budget c :
  exists r c', receiveMessage_loop budget c [] = Ok (r, c') /\ (r <> None -> delivered c' = delivered c).
Proof.
  destruct (receiveMessage_loop_sound budget c []) as ([m|] & c' & Hr & Hs).
  { intros n _. by rewrite take_nil. }
  - exists (Some m), c'. split; [done|]. intros _. destruct (Hs m eq_refl) as ([Ht Hn] & got & -> & Hp & Hl).
    destruct got as [|x got]; [discriminate Ht|].
    destruct (receiveMessage_loop_complete budget c [] x got (pending c') Hp Hl) as (c2 & Hr2 & _ & Hd); [|done|].
    { intros n Hlt. apply Hn. cbn. lia. }
    rewrite Hr in Hr2. injection Hr2 as <-. done.
  - exists None, c'. by split.
Qed.

Lemma receiveMessage_ends c :
  exists r c', receiveMessage c = Ok (r, c') /\ (r <> None -> delivered c' = delivered c).
Proof. apply receiveMessage_loop_ends. Qed.

(** Every handshake has one outcome: for a valid key and a connection on
    which nothing was negotiated, the server's handler either fails and closes
    the connection, or it succeeds with a supported encoding which it has
    confirmed to the client; the client's handler either fails and closes, or
    succeeds with exactly the encoding it asked for. *)
Theorem handshake_outcomes key requested c :
  isValid key = true ->
  (exists evs c', HandshakeServer_handleMessage key None c = Ok (evs, c')
     /\ (evs = [HandshakeFailed; Closed]
         \/ exists e, supported e = true /\ evs = [HandshakeSucceeded (kind_of e)]
              /\ delivered c' = delivered c ++ serverAdvertisement ++ successResponse e))
  /\ (exists evs c', HandshakeClient_handleMessage key requested None (Some c) = Ok (evs, c')
      /\ (evs = [HandshakeFailed; Closed]
          \/ supported requested = true /\ evs = [HandshakeSucceeded (kind_of requested)])).
Proof.
  intros Hk. unfold HandshakeServer_handleMessage, HandshakeClient_handleMessage.
  unfold performServerHandshake, performClientHandshake.
  pose proof receiveMessage_ends as receive_ends. revert receive_ends. generalize receiveMessage as recv. intros recv receive_ends.
  split.
  -    destruct (sendAll_spec c serverAdvertisement) as ([] & c1 & k1 & -> & Hd1 & _ & Ht1); cbn [mbind res_bind fst snd negb];
      [|eexists _, _; split; [done|by left]].
    destruct (receive_ends c1) as ([m|] & c2 & -> & Hd2); cbn [mbind res_bind fst snd];
      [|eexists _, _; split; [done|by left]].
    destruct (supported _) eqn:He; cbn [negb].
    + destruct (sendAll_spec c2 (successResponse (headerValue m (bs "encoding:")))) as ([] & c3 & k3 & -> & Hd3 & _ & Ht3);
        cbn [mbind res_bind fst snd]; [|eexists _, _; split; [done|by left]].
      cbn [setNegotiatedEncoding mbind res_bind]. rewrite create_supported, He by done. cbn [mbind res_bind].
      eexists _, _. split; [done|]. right. eexists. split; [exact He|]. split; [done|].
      by rewrite Hd3, Hd2, Hd1, Ht1, Ht3, <- app_assoc.
    + destruct (sendAll_spec c2 (errorResponse (bs "unsupported encoding"))) as (ok & c3 & k3 & -> & _).
      cbn [mbind res_bind fst snd]. eexists _, _. split; [done|by left].
  - match goal with |- exists _ _, ?m ≫= _ = _ /\ _ => assert (Hr : exists r c', m = Ok (r, c')) end.
    { destruct (receive_ends c) as ([m|] & c1 & -> & _); cbn [mbind res_bind fst snd];
        [|by eauto]. destruct (sendAll_spec c1 (clientSelection requested)) as ([] & c2 & k2 & -> & _);
        cbn [mbind res_bind fst snd negb]; [|by eauto].
      destruct (receive_ends c2) as ([r|] & c3 & -> & _); cbn [mbind res_bind fst snd]; [|by eauto].
      destruct (negb _); [by eauto|]. destruct (negb _); by eauto. }
    destruct Hr as (r & c1 & ->). cbn [mbind res_bind fst snd].
    destruct (negb _); [eexists _, _; split; [done|by left]|]. cbn [setNegotiatedEncoding mbind res_bind].
    rewrite create_supported by done. cbn [mbind res_bind]. eexists _, _. split; [done|].
    destruct (supported requested); [by right|by left].
Qed.
End Handshake.

(** ** Witnesses *)
#[local] Existing Instances ToyCrypto.toy Trickle.trickle Trickle.trickle_laws.

Lemma trickle_writable : writable (CN := Trickle.trickle).
Proof.
  intros c data. unfold sendAll. assert (Hg : forall fuel c, (List.length data <= fuel)%nat ->
    exists c', sendAll_loop (C := Trickle.trickle) fuel c data = Ok (true, c')).
  { clear. induction data as [|x data IH]; intros fuel c Hf; [destruct fuel; by exists c|].
    destruct fuel as [|fuel]; [cbn in Hf; lia|]. cbn. apply IH. cbn in Hf. lia. }
  by apply Hg.
Qed.

(** Streams of the trickling connection. *)
Definition selection_stream : Conn (Connection := Trickle.trickle) := (clientSelection (bs "json") ++ bs "RSPJ", []).
Definition answer_stream : Conn (Connection := Trickle.trickle) :=
  (serverAdvertisement ++ successResponse (bs "json") ++ [], []).
Definition bad_stream : Conn (Connection := Trickle.trickle) := (bs "encoding:x", []).

Lemma receiveMessage_exact_witness :
  exists c', receiveMessage selection_stream = Ok (Some (clientSelection (bs "json")), c').
Proof.
  destruct (receiveMessage_exact selection_stream) as [_ Hc].
  destruct (Hc (clientSelection (bs "json")) (bs "RSPJ")) as (c' & Hr & _).
  - apply complete_check_ok. vm_compute. reflexivity.
  - apply Nat.leb_le. vm_compute. reflexivity.
  - reflexivity.
  - exists c'. exact Hr.
Defined.

Lemma handshake_agrees_witness :
  exists cs', performServerHandshake selection_stream = Ok (Some (bs "json"), cs', false).
Proof.
  destruct (handshake_agrees (bs "json") selection_stream
    answer_stream (bs "RSPJ") []) as (cs' & cc' & Hs & _).
  - exact trickle_writable.
  - reflexivity.
  - reflexivity.
  - reflexivity.
  - exists cs'. exact Hs.
Defined.

Lemma handshake_outcomes_witness :
  exists evs c', HandshakeServer_handleMessage ToyCrypto.alice None bad_stream = Ok (evs, c').
Proof.
  destruct (handshake_outcomes ToyCrypto.alice (bs "json") bad_stream) as [(evs & c' & Hs & _) _].
  - reflexivity.
  - exists evs, c'. exact Hs.
Defined.
