(* ===== verification/IdentityCache.v ===== *)
(** * common/node.cpp: the identity cache

    [IdentityCache] keeps the public keys of the nodes whose identity was seen,
    at most [maximumEntries_] of them, and forgets the one that was refreshed
    longest ago.  The [std::list] of [usageOrder_] is a list of cells with an
    address each, and an entry's [usage] is such an address, as the iterators of
    the code are: erasing through an iterator that does not point into the list,
    and [back()] of an empty list, are [Undefined].  A callback is opaque: what a
    refresh does with the registered callbacks is the list of them it calls. *)

From S2P Require Import Prelude BaseTypes Proto GuidBytes KeyPair MessageHash Signing.

Section IdentityCache.
Context `{C : Crypto} {Callback : Type}.

(** ** Identities *)

(** [identity.public_key()] of an absent key is the default instance. *)
Definition default_public_key : PublicKey.t := PublicKey.mk 0 [].

Definition nodeIdFromIdentity (identity : Identity.t) : Res (option NodeID) :=
  catch_any (identityKey ← fromPublicKey (default default_public_key (Identity.public_key identity));
             id ← nodeID identityKey; Ok (Some id))
            (fun _ => Ok None).

Definition sanitizedIdentityForCache (identity : Identity.t) : Identity.t :=
  Identity.mk None (Some (default default_public_key (Identity.public_key identity))) None.

(** ** State *)
Record CacheEntry := mkEntry { cached_identity : Identity.t; usage : nat }.

Record IdentityCache := mkCache {
  maximumEntries_ : Z;
  nextIdentityObservedCallbackToken_ : Z;
  identityObservedCallbacks_ : list (Z * Callback);
  usageOrder_ : list (nat * NodeID);
  entries_ : gmap NodeID CacheEntry;
  (** the address the next list cell gets *)
  next_cell : nat }.

Definition IdentityCache_new (maximumEntries : Z) : IdentityCache := mkCache maximumEntries 1 [] [] ∅ 0.

Definition set_usage (c : IdentityCache) (order : list (nat * NodeID)) (entries : gmap NodeID CacheEntry)
    (cell : nat) : IdentityCache :=
  mkCache (maximumEntries_ c) (nextIdentityObservedCallbackToken_ c) (identityObservedCallbacks_ c)
    order entries cell.

(** [usageOrder_.erase(iterator)]. *)
Fixpoint erase_cell (cell : nat) (order : list (nat * NodeID)) : option (list (nat * NodeID)) :=
  match order with
  | [] => None
  | (a, id) :: order' =>
      if Nat.eqb a cell then Some order'
      else match erase_cell cell order' with Some r => Some ((a, id) :: r) | None => None end
  end.

(** ** Operations *)

(** The loop of [trimToLimitLocked]; each round removes an entry. *)
Fixpoint trim_loop (fuel : nat) (c : IdentityCache) : Res IdentityCache :=
  if maximumEntries_ c <? Z.of_nat (size (entries_ c)) then
    match fuel with
    | O => NoFuel
    | S fuel' =>
        match last (usageOrder_ c) with
        | None => Undefined
        | Some (_, leastRecent) =>
            trim_loop fuel' (set_usage c (removelast (usageOrder_ c)) (delete leastRecent (entries_ c)) (next_cell c))
        end
    end
  else Ok c.

Definition trimToLimitLocked (c : IdentityCache) : Res IdentityCache := trim_loop (size (entries_ c)) c.

Definition setMaximumEntries (c : IdentityCache) (maximumEntries : Z) : Res IdentityCache :=
  trimToLimitLocked (mkCache maximumEntries (nextIdentityObservedCallbackToken_ c)
    (identityObservedCallbacks_ c) (usageOrder_ c) (entries_ c) (next_cell c)).

(** The critical section of [cacheIdentity]. *)
Definition refresh (c : IdentityCache) (id : NodeID) (identity : Identity.t) : Res IdentityCache :=
  let cell := next_cell c in
  match entries_ c !! id with
  | Some existing =>
      match erase_cell (usage existing) (usageOrder_ c) with
      | None => Undefined
      | Some order => Ok (set_usage c ((cell, id) :: order) (<[id := mkEntry identity cell]> (entries_ c)) (S cell))
      end
  | None =>
      trimToLimitLocked
        (set_usage c ((cell, id) :: usageOrder_ c) (<[id := mkEntry identity cell]> (entries_ c)) (S cell))
  end.

(** Returns the result, the callbacks that are called, and the cache. *)
Definition cacheIdentity (c : IdentityCache) (identity : Identity.t) (sourceNodeId : option NodeID)
    : Res (bool * list (Callback * NodeID) * IdentityCache) :=
  derivedNodeId ← nodeIdFromIdentity identity;
  match derivedNodeId with
  | None => Ok (false, [], c)
  | Some id =>
      let cachedIdentity := sanitizedIdentityForCache identity in
      if match sourceNodeId with Some s => negb (bool_decide (s = id)) | None => false end
      then Ok (false, [], c)
      else
        c' ← refresh c id cachedIdentity;
        Ok (true, (fun e => (e.2, id)) <$> identityObservedCallbacks_ c', c')
  end.

Fixpoint cacheIdentities (c : IdentityCache) (identities : list Identity.t) (sourceNodeId : option NodeID)
    (cached : bool) (calls : list (Callback * NodeID)) : Res (bool * list (Callback * NodeID) * IdentityCache) :=
  match identities with
  | [] => Ok (cached, calls, c)
  | identity :: identities' =>
      r ← cacheIdentity c identity sourceNodeId;
      let '(stored, called, c') := r in
      cacheIdentities c' identities' sourceNodeId (stored || cached) (calls ++ called)
  end.

Definition observeMessage (c : IdentityCache) (message : RSPMessage.t)
    : Res (bool * list (Callback * NodeID) * IdentityCache) :=
  let sourceNodeId := senderNodeIdFromMessage message in
  r ← match RSPMessage.core_message message with
      | Some (IdentityMessage identity) => cacheIdentity c identity sourceNodeId
      | _ => Ok (false, [], c)
      end;
  let '(cached, calls, c') := r in
  cacheIdentities c' (RSPMessage.identities message) sourceNodeId cached calls.

(** [sendMessageCallback_] and [localNodeId_] are set by every constructor but
    the default one; the result is the request handed to the callback. *)
Definition sendChallengeRequest (localNodeId : option NodeID) (nonce : bytes) (nodeId : NodeID)
    : option RSPMessage.t :=
  match localNodeId with
  | None => None
  | Some local =>
      Some (RSPMessage.set_core (RSPMessage.set_destination (RSPMessage.set_source RSPMessage.empty
              (Some (toProtoNodeId local))) (Some (toProtoNodeId nodeId))) (Some (ChallengeRequest (Some nonce))))
  end.

Definition get (c : IdentityCache) (nodeId : NodeID) : option Identity.t :=
  match entries_ c !! nodeId with Some e => Some (cached_identity e) | None => None end.

Definition contains (c : IdentityCache) (nodeId : NodeID) : bool := bool_decide (is_Some (entries_ c !! nodeId)).

Definition cache_size (c : IdentityCache) : nat := size (entries_ c).

(** [identityObservedCallbacks_[token] = callback], in the order of the keys. *)
Fixpoint callback_insert (token : Z) (f : Callback) (l : list (Z * Callback)) : list (Z * Callback) :=
  match l with
  | [] => [(token, f)]
  | (t, g) :: l' =>
      if token <? t then (token, f) :: l
      else if token =? t then (token, f) :: l'
      else (t, g) :: callback_insert token f l'
  end.

(** [None] is an empty [std::function]; the token counter is 64 bits wide. *)
Definition addIdentityObservedCallback (c : IdentityCache) (callback : option Callback) : Z * IdentityCache :=
  match callback with
  | None => (0, c)
  | Some f =>
      let token := nextIdentityObservedCallbackToken_ c in
      (token, mkCache (maximumEntries_ c) (wrap 64 (token + 1)) (callback_insert token f (identityObservedCallbacks_ c))
                (usageOrder_ c) (entries_ c) (next_cell c))
  end.

Definition removeIdentityObservedCallback (c : IdentityCache) (token : Z) : bool * IdentityCache :=
  (existsb (fun e => Z.eqb e.1 token) (identityObservedCallbacks_ c),
   mkCache (maximumEntries_ c) (nextIdentityObservedCallbackToken_ c)
     (List.filter (fun e => negb (Z.eqb e.1 token)) (identityObservedCallbacks_ c))
     (usageOrder_ c) (entries_ c) (next_cell c)).

(** ** Linked states

    The list and the map name the same nodes, each entry points at its cell. *)
Record linked (c : IdentityCache) : Prop := {
  linked_cells : NoDup (usageOrder_ c).*1;
  linked_nodes : NoDup (usageOrder_ c).*2;
  linked_fresh : forall a id, (a, id) ∈ usageOrder_ c -> (a < next_cell c)%nat;
  linked_entries : forall a id, (a, id) ∈ usageOrder_ c <-> exists e, entries_ c !! id = Some e /\ usage e = a }.

Lemma linked_dom c : linked c -> dom (entries_ c) = list_to_set (usageOrder_ c).*2.
Proof.
  intros L. apply set_eq. intros id. rewrite elem_of_dom, elem_of_list_to_set, list_elem_of_fmap. split.
  - intros [e He]. exists (usage e, id). split; [done|]. apply (linked_entries c L). eauto.
  - intros ([a i] & -> & Hin). apply (linked_entries c L) in Hin as (e & He & _). eauto.
Qed.

Lemma linked_size c : linked c -> size (entries_ c) = List.length (usageOrder_ c).
Proof.
  intros L. rewrite <- size_dom, (linked_dom c L), size_list_to_set by apply (linked_nodes c L).
  apply length_fmap.
Qed.

Lemma linked_new n : linked (IdentityCache_new n).
Proof.
  split; cbn; try constructor; try (intros ? ? []%elem_of_nil).
  - intros []%elem_of_nil.
  - intros (e & He & _). by rewrite lookup_empty in He.
Qed.

Lemma erase_cell_spec cell order :
  NoDup order.*1 -> cell ∈ order.*1 ->
  exists l id r, order = l ++ (cell, id) :: r /\ erase_cell cell order = Some (l ++ r).
Proof.
  induction order as [|[a i] order IH]; [intros _ []%elem_of_nil|]. cbn. intros Hnd Hin.
  apply NoDup_cons in Hnd as [Ha Hnd]. destruct (Nat.eqb_spec a cell) as [->|Hne].
  - by exists [], i, order.
  - apply elem_of_cons in Hin as [->|Hin]; [done|]. destruct (IH Hnd Hin) as (l & id & r & -> & ->).
    by exists ((a, i) :: l), id, r.
Qed.

Lemma removelast_snoc {A} (l : list A) x : removelast (l ++ [x]) = l.
Proof. induction l as [|y l IH]; [done|]. cbn. rewrite IH. by destruct l. Qed.

Lemma NoDup_middle_remove {A} (l r : list A) x : NoDup (l ++ x :: r) -> NoDup (l ++ r).
Proof. rewrite <- Permutation_middle. by intros [_ ?]%NoDup_cons. Qed.

(** Removing a cell together with its entry. *)
Lemma linked_remove c l a id r :
  linked c -> usageOrder_ c = l ++ (a, id) :: r ->
  linked (set_usage c (l ++ r) (delete id (entries_ c)) (next_cell c)).
Proof.
  intros L Ho. destruct L as [Hc Hn Hf He]. rewrite Ho in *.
  split; cbn [set_usage usageOrder_ next_cell entries_].
  - rewrite fmap_app in *. by eapply NoDup_middle_remove.
  - rewrite fmap_app in *. by eapply NoDup_middle_remove.
  - intros b i Hi. apply (Hf b i). rewrite elem_of_app in *. rewrite elem_of_cons. tauto.
  - intros b i. rewrite fmap_app, fmap_cons in Hn. apply NoDup_app in Hn as (_ & Hd & Hr).
    apply NoDup_cons in Hr as [Hr _]. destruct (decide (i = id)) as [->|Hne].
    + split; [|intros (e & Hx & _); by rewrite lookup_delete_eq in Hx].
      rewrite elem_of_app. intros [Hi|Hi]; exfalso.
      * apply (Hd id); [|by left]. apply list_elem_of_fmap. by exists (b, id).
      * apply Hr. apply list_elem_of_fmap. by exists (b, id).
    + rewrite lookup_delete_ne by done. rewrite <- He, !elem_of_app, elem_of_cons.
      split; [tauto|]. intros [?|[?|?]]; [tauto|simplify_eq|tauto].
Qed.

(** Adding a node that has no entry, with a fresh cell. *)
Lemma linked_add c id x :
  linked c -> entries_ c !! id = None ->
  linked (set_usage c ((next_cell c, id) :: usageOrder_ c) (<[id := mkEntry x (next_cell c)]> (entries_ c))
            (S (next_cell c))).
Proof.
  intros [Hc Hn Hf He] Hnone. split; cbn [set_usage usageOrder_ next_cell entries_ fmap list_fmap fst snd].
  - constructor; [|done]. rewrite list_elem_of_fmap. intros ([a i] & Ha & Hi). apply Hf in Hi. cbn in Ha. lia.
  - constructor; [|done]. rewrite list_elem_of_fmap. intros ([a i] & Ha & Hi). cbn in Ha. subst i.
    apply He in Hi as (e & Hx & _). by rewrite Hnone in Hx.
  - intros a i [?|Hi]%elem_of_cons; [simplify_eq; lia|]. apply Hf in Hi. lia.
  - intros a i. rewrite elem_of_cons, He. destruct (decide (i = id)) as [->|Hne].
    + rewrite lookup_insert_eq. split.
      * intros [?|(e & Hx & _)]; [simplify_eq; eauto|by rewrite Hnone in Hx].
      * intros (e & [= <-] & <-). by left.
    + rewrite lookup_insert_ne by done. split; [|by right]. intros [?|?]; [simplify_eq|done].
Qed.

(** ** The abstract cache

    A list of nodes with their identities, most recently refreshed first. *)
Abbreviation Lru := (list (NodeID * Identity.t)).

Definition lru_put (maximum : Z) (id : NodeID) (x : Identity.t) (l : Lru) : Lru :=
  take (Z.to_nat maximum) ((id, x) :: List.filter (fun e => negb (bool_decide (e.1 = id))) l).

Fixpoint lru_get (id : NodeID) (l : Lru) : option Identity.t :=
  match l with
  | [] => None
  | (i, x) :: l' => if bool_decide (i = id) then Some x else lru_get id l'
  end.

(** What the cache stands for. *)
Definition view_of (entries : gmap NodeID CacheEntry) (order : list (nat * NodeID)) : Lru :=
  omap (fun p => match entries !! p.2 with Some e => Some (p.2, cached_identity e) | None => None end) order.

Definition view (c : IdentityCache) : Lru := view_of (entries_ c) (usageOrder_ c).

Lemma view_of_ext m m' order :
  (forall p, p ∈ order -> m !! p.2 = m' !! p.2) -> view_of m order = view_of m' order.
Proof.
  induction order as [|p order IH]; [done|]. intros Hm. unfold view_of in *. cbn.
  rewrite <- (Hm p) by (by left). rewrite IH; [done|]. intros q Hq. apply Hm. by right.
Qed.

Lemma view_of_app m l r : view_of m (l ++ r) = view_of m l ++ view_of m r.
Proof. unfold view_of. by rewrite omap_app. Qed.

Lemma view_of_full m order :
  (forall p, p ∈ order -> is_Some (m !! p.2)) -> (view_of m order).*1 = order.*2.
Proof.
  induction order as [|p order IH]; [done|]. intros Hm. unfold view_of in *. cbn.
  destruct (Hm p) as [e ->]; [by left|]. cbn. f_equal. apply IH. intros q Hq. apply Hm. by right.
Qed.

Lemma linked_full c : linked c -> forall p, p ∈ usageOrder_ c -> is_Some (entries_ c !! p.2).
Proof. intros L [a id] Hin. apply (linked_entries c L) in Hin as (e & He & _). eauto. Qed.

Lemma length_view c : linked c -> List.length (view c) = size (entries_ c).
Proof.
  intros L. rewrite linked_size, <- (length_fmap fst) by done. unfold view.
  rewrite view_of_full by (by apply linked_full). by rewrite length_fmap.
Qed.

Lemma get_view c id : linked c -> get c id = lru_get id (view c).
Proof.
  intros L. unfold get, view.
  assert (Hget : forall order, (forall p, p ∈ order -> is_Some (entries_ c !! p.2)) ->
    lru_get id (view_of (entries_ c) order) =
    if bool_decide (id ∈ order.*2) then cached_identity <$> entries_ c !! id else None).
  { induction order as [|[a i] order IH]; [done|]. intros Hf. unfold view_of in *. cbn.
    destruct (Hf (a, i)) as [e He]; [by left|]. cbn in He. rewrite He. cbn.
    rewrite IH by (intros p Hp; apply Hf; by right). destruct (decide (i = id)) as [->|Hi].
    - rewrite !bool_decide_eq_true_2 by (done || by left). by rewrite He.
    - rewrite (bool_decide_eq_false_2 (i = id)) by done.
      by rewrite (bool_decide_ext (id ∈ i :: order.*2) (id ∈ order.*2)) by (rewrite elem_of_cons; intuition congruence). }
  rewrite Hget by (by apply linked_full).
  case_bool_decide as Hin; [by destruct (entries_ c !! id)|].
  destruct (entries_ c !! id) as [e|] eqn:He; [|done]. exfalso. apply Hin, list_elem_of_fmap.
  exists (usage e, id). split; [done|]. apply (linked_entries c L). eauto.
Qed.

(** The rest of the state, which trimming and refreshing leave alone. *)
Definition same_config (c c' : IdentityCache) : Prop :=
  maximumEntries_ c' = maximumEntries_ c
  /\ identityObservedCallbacks_ c' = identityObservedCallbacks_ c
  /\ nextIdentityObservedCallbackToken_ c' = nextIdentityObservedCallbackToken_ c.

Lemma view_remove c l a id r :
  linked c -> usageOrder_ c = l ++ (a, id) :: r ->
  view_of (delete id (entries_ c)) (l ++ r) = view_of (entries_ c) (l ++ r).
Proof.
  intros L Ho. apply view_of_ext. intros p Hp. apply lookup_delete_ne. intros ->.
  pose proof (linked_nodes c L) as Hn. rewrite Ho, fmap_app, fmap_cons, <- Permutation_middle in Hn.
  apply NoDup_cons in Hn as [Hn _]. apply Hn. cbn. rewrite <- fmap_app. by apply list_elem_of_fmap_2.
Qed.

Lemma trim_loop_spec fuel c :
  linked c -> 0 <= maximumEntries_ c -> (size (entries_ c) <= fuel)%nat ->
  exists c', trim_loop fuel c = Ok c' /\ linked c' /\ same_config c c'
    /\ view c' = take (Z.to_nat (maximumEntries_ c)) (view c) /\ entries_ c' ⊆ entries_ c.
Proof.
  revert c. induction fuel as [|fuel IH]; intros c L Hm Hf; cbn [trim_loop];
    (destruct (Z.ltb_spec (maximumEntries_ c) (Z.of_nat (size (entries_ c)))) as [Hlt|Hge]; [|exists c;
      split_and!; [done..|by rewrite take_ge by (rewrite length_view by done; lia)|done]]); [lia|].
  pose proof (linked_size c L) as Hs.
  destruct (usageOrder_ c) as [|p o] eqn:Ho using rev_ind; [cbn in Hs; lia|]. clear IHo.
  destruct p as [a id]. rewrite last_snoc, removelast_snoc.
  pose proof (linked_remove c o a id [] L Ho) as L1. rewrite app_nil_r in L1.
  pose proof (view_remove c o a id [] L Ho) as V1. rewrite !app_nil_r in V1.
  assert (Hin : is_Some (entries_ c !! id)).
  { apply (linked_full c L (a, id)). rewrite Ho, elem_of_app. right. by left. }
  destruct (IH _ L1) as (c' & -> & L' & (M1 & M2 & M3) & V & S); cbn [set_usage maximumEntries_ entries_] in *.
  { done. }
  { rewrite map_size_delete_Some by done. lia. }
  exists c'. split_and!; try done.
  - rewrite V. unfold view. cbn [set_usage entries_ usageOrder_]. rewrite V1, Ho, view_of_app, take_app_le; [done|].
    rewrite <- V1. change (view_of (delete id (entries_ c)) o) with
      (view (set_usage c o (delete id (entries_ c)) (next_cell c))).
    rewrite length_view by done. cbn [set_usage entries_]. rewrite map_size_delete_Some by done. lia.
  - etrans; [exact S|]. apply delete_subseteq.
Qed.

Lemma view_add c id x a n :
  entries_ c !! id = None ->
  linked c ->
  view (set_usage c ((a, id) :: usageOrder_ c) (<[id := mkEntry x a]> (entries_ c)) n) = (id, x) :: view c.
Proof.
  intros Hnone L. unfold view, view_of. cbn [set_usage entries_ usageOrder_ omap list_omap snd].
  rewrite lookup_insert_eq. cbn. f_equal. apply view_of_ext. intros p Hp. apply lookup_insert_ne.
  intros ->. destruct (linked_full c L p Hp) as [e He]. by rewrite Hnone in He.
Qed.

Lemma filter_other (id : NodeID) (l : Lru) :
  id ∉ l.*1 -> List.filter (fun e => negb (bool_decide (e.1 = id))) l = l.
Proof.
  induction l as [|[i x] l IH]; [done|]. cbn. rewrite not_elem_of_cons. intros [Hi Hl].
  rewrite bool_decide_eq_false_2 by done. cbn. by rewrite IH.
Qed.

(** The view without one node. *)
Lemma view_without c l a id r :
  linked c -> usageOrder_ c = l ++ (a, id) :: r ->
  List.filter (fun e => negb (bool_decide (e.1 = id))) (view c) = view_of (entries_ c) (l ++ r).
Proof.
  intros L Ho. unfold view. rewrite Ho, !view_of_app, List.filter_app.
  change ((a, id) :: r) with ([(a, id)] ++ r). rewrite view_of_app, List.filter_app.
  pose proof (linked_nodes c L) as Hn. rewrite Ho, fmap_app in Hn. cbn in Hn.
  rewrite <- Permutation_middle in Hn. apply NoDup_cons in Hn as [Hn _]. rewrite not_elem_of_app in Hn.
  assert (Hsub : forall order, (forall p, p ∈ order -> p ∈ usageOrder_ c) ->
    (view_of (entries_ c) order).*1 = order.*2).
  { intros order Hs. apply view_of_full. intros p Hp. apply (linked_full c L), Hs, Hp. }
  rewrite (filter_other id (view_of (entries_ c) l)), (filter_other id (view_of (entries_ c) r)).
  2, 3: rewrite Hsub; [apply Hn|]; intros p Hp; rewrite Ho, elem_of_app, elem_of_cons; tauto.
  - unfold view_of at 2. cbn [omap list_omap snd].
    destruct (entries_ c !! id); cbn; [|done]. by rewrite bool_decide_eq_true_2.
Qed.

(** A refresh implements the abstract [lru_put]. *)
Lemma refresh_spec c id x :
  linked c -> 0 <= maximumEntries_ c -> Z.of_nat (size (entries_ c)) <= maximumEntries_ c ->
  exists c', refresh c id x = Ok c' /\ linked c' /\ same_config c c'
    /\ view c' = lru_put (maximumEntries_ c) id x (view c)
    /\ entries_ c' ⊆ <[id := mkEntry x (next_cell c)]> (entries_ c).
Proof.
  intros L Hm Hs. unfold refresh, lru_put. destruct (entries_ c !! id) as [existing|] eqn:He.
  - destruct (erase_cell_spec (usage existing) (usageOrder_ c)) as (l & i & r & Ho & ->).
    { apply (linked_cells c L). }
    { apply list_elem_of_fmap. exists (usage existing, id). split; [done|]. apply (linked_entries c L). eauto. }
    assert (i = id) as ->.
    { assert (Hin : (usage existing, i) ∈ usageOrder_ c) by (rewrite Ho, elem_of_app; right; by left).
      assert (Hin' : (usage existing, id) ∈ usageOrder_ c) by (apply (linked_entries c L); eauto).
      pose proof (linked_cells c L) as Hc. apply list_elem_of_lookup in Hin as [n1 H1].
      apply list_elem_of_lookup in Hin' as [n2 H2].
      assert (n1 = n2) as ->. { eapply NoDup_lookup; [exact Hc|..]; rewrite list_lookup_fmap, ?H1, ?H2; done. }
      congruence. }
    pose proof (linked_remove c l _ id r L Ho) as L1.
    pose proof (view_remove c l _ id r L Ho) as V1.
    rewrite (view_without c l _ id r L Ho), <- V1, <- insert_delete_eq.
    set (c1 := set_usage c (l ++ r) (delete id (entries_ c)) (next_cell c)) in *.
    assert (Hnone : entries_ c1 !! id = None) by apply lookup_delete_eq.
    pose proof (linked_add c1 id x L1 Hnone) as L2.
    pose proof (view_add c1 id x (next_cell c1) (S (next_cell c1)) Hnone L1) as V2.
    eexists. split_and!; [reflexivity|exact L2|done| |done].
    etransitivity; [exact V2|]. rewrite take_ge; [done|].
    change (view_of (delete id (entries_ c)) (l ++ r)) with (view c1).
    rewrite <- V2, length_view by exact L2. cbn [set_usage entries_ c1].
    rewrite insert_delete_eq, map_size_insert_Some by (by exists existing). lia.
  - unfold trimToLimitLocked.
    destruct (trim_loop_spec (size (<[id := mkEntry x (next_cell c)]> (entries_ c))) _ (linked_add c id x L He))
      as (c' & Hc' & L' & M & V & S); [done|done|].
    exists c'. split_and!; try done. rewrite V, view_add by done. cbn [set_usage maximumEntries_].
    f_equal. f_equal. rewrite filter_other; [done|]. unfold view. rewrite view_of_full by (by apply linked_full).
    rewrite list_elem_of_fmap. intros (p & -> & Hp). destruct (linked_full c L p Hp) as [e Hx]. by rewrite He in Hx.
Qed.

(** ** Executions *)

(** The identities of a message in the order in which they are examined. *)
Definition message_identities (m : RSPMessage.t) : list Identity.t :=
  match RSPMessage.core_message m with Some (IdentityMessage i) => [i] | _ => [] end ++ RSPMessage.identities m.

(** What the cache takes from a message of the given sender. *)
Definition accepted (sender : option NodeID) (identities : list Identity.t) : Lru :=
  omap (fun i => match nodeIdFromIdentity i with
                 | Ok (Some id) =>
                     if match sender with Some s => negb (bool_decide (s = id)) | None => false end then None
                     else Some (id, sanitizedIdentityForCache i)
                 | _ => None
                 end) identities.

Definition lru_puts (maximum : Z) (l : Lru) (news : Lru) : Lru :=
  foldl (fun l e => lru_put maximum e.1 e.2 l) l news.

Inductive CacheOp :=
| Observe (m : RSPMessage.t)
| SetMaximum (n : Z)
| AddCallback (f : option Callback)
| RemoveCallback (token : Z).

(** [setMaximumEntries] takes a [size_t]. *)
Definition op_ok (op : CacheOp) : Prop := match op with SetMaximum n => 0 <= n | _ => True end.

Definition apply_op (c : IdentityCache) (op : CacheOp) : Res IdentityCache :=
  match op with
  | Observe m => r ← observeMessage c m; Ok r.2
  | SetMaximum n => setMaximumEntries c n
  | AddCallback f => Ok (addIdentityObservedCallback c f).2
  | RemoveCallback t => Ok (removeIdentityObservedCallback c t).2
  end.

Fixpoint run_ops (c : IdentityCache) (ops : list CacheOp) : Res IdentityCache :=
  match ops with
  | [] => Ok c
  | op :: ops' => c' ← apply_op c op; run_ops c' ops'
  end.

(** The abstract execution: the maximum and the list. *)
Definition spec_op (s : Z * Lru) (op : CacheOp) : Z * Lru :=
  match op with
  | Observe m => (s.1, lru_puts s.1 s.2 (accepted (senderNodeIdFromMessage m) (message_identities m)))
  | SetMaximum n => (n, take (Z.to_nat n) s.2)
  | _ => s
  end.

Definition certified (id : NodeID) (i : Identity.t) : Prop :=
  exists pk key, i = Identity.mk None (Some pk) None /\ fromPublicKey pk = Ok key /\ nodeID key = Ok id.

Record cache_inv (c : IdentityCache) : Prop := {
  inv_linked : linked c;
  inv_maximum : 0 <= maximumEntries_ c;
  inv_size : Z.of_nat (size (entries_ c)) <= maximumEntries_ c;
  inv_certified : map_Forall (fun id e => certified id (cached_identity e)) (entries_ c) }.

(** *** Lemmas *)
Lemma nodeIdFromIdentity_total i : exists o, nodeIdFromIdentity i = Ok o.
Proof.
  unfold nodeIdFromIdentity.
  pose proof (fromPublicKey_defined (default default_public_key (Identity.public_key i))) as Hk.
  destruct (fromPublicKey _) as [k| | |]; cbn; try done; [|by eexists].
  pose proof (nodeID_defined k) as Hn. destruct (nodeID k); cbn; try done; by eexists.
Qed.

Lemma nodeIdFromIdentity_certified i id :
  nodeIdFromIdentity i = Ok (Some id) -> certified id (sanitizedIdentityForCache i).
Proof.
  unfold nodeIdFromIdentity, certified, sanitizedIdentityForCache. intros Hn.
  destruct (fromPublicKey _) as [k| | |] eqn:Hk; cbn in Hn; try done.
  destruct (nodeID k) as [d| | |] eqn:Hd; cbn in Hn; try done. simplify_eq. eauto.
Qed.

Lemma length_lru_put maximum id x l : 0 <= maximum -> Z.of_nat (List.length (lru_put maximum id x l)) <= maximum.
Proof. intros. unfold lru_put. rewrite length_take. lia. Qed.

Lemma cache_inv_put c c' id x :
  cache_inv c -> linked c' -> same_config c c' -> view c' = lru_put (maximumEntries_ c) id x (view c) ->
  entries_ c' ⊆ <[id := mkEntry x (next_cell c)]> (entries_ c) -> certified id x -> cache_inv c'.
Proof.
  intros [L Hm Hs Hc] L' (M & _) V S Hx. split; [done|by rewrite M|..].
  - rewrite M, <- length_view, V by done. by apply length_lru_put.
  - intros i e He. apply (lookup_weaken _ _ _ _ He) in S. apply lookup_insert_Some in S as [[<- <-]|[_ S]]; [done|].
    by apply Hc.
Qed.

Lemma accepted_cons sender i is_ : accepted sender (i :: is_) = accepted sender [i] ++ accepted sender is_.
Proof. unfold accepted. cbn. by repeat case_match. Qed.

(** One identity: the abstract puts, the callbacks and the result. *)
Lemma cacheIdentity_spec c i sender :
  cache_inv c ->
  exists c', cacheIdentity c i sender =
      Ok (negb (bool_decide (accepted sender [i] = [])),
          accepted sender [i] ≫= (fun e => (fun f => (f.2, e.1)) <$> identityObservedCallbacks_ c), c')
    /\ cache_inv c' /\ same_config c c' /\ view c' = lru_puts (maximumEntries_ c) (view c) (accepted sender [i]).
Proof.
  intros I. unfold cacheIdentity, accepted. destruct (nodeIdFromIdentity_total i) as [[id|] Hn].
  2:{ rewrite Hn. cbn. rewrite Hn. by exists c. }
  cbn [omap list_omap]. rewrite Hn. cbn [mbind res_bind]. destruct (match sender with Some _ => _ | None => _ end).
  { by exists c. }
  destruct (refresh_spec c id (sanitizedIdentityForCache i) (inv_linked c I) (inv_maximum c I) (inv_size c I))
    as (c' & -> & L' & M & V & S).
  exists c'. cbn [mbind res_bind list_bind lru_puts foldl fst snd]. split_and!; [|by eapply cache_inv_put;
    eauto using nodeIdFromIdentity_certified|done|done].
  destruct M as (_ & -> & _). by rewrite app_nil_r.
Qed.

Lemma cacheIdentities_spec c is_ sender cached calls :
  cache_inv c ->
  exists c', cacheIdentities c is_ sender cached calls =
      Ok (negb (bool_decide (accepted sender is_ = [])) || cached,
          calls ++ (accepted sender is_ ≫= (fun e => (fun f => (f.2, e.1)) <$> identityObservedCallbacks_ c)), c')
    /\ cache_inv c' /\ same_config c c' /\ view c' = lru_puts (maximumEntries_ c) (view c) (accepted sender is_).
Proof.
  revert c cached calls. induction is_ as [|i is_ IH]; intros c cached calls I.
  { exists c. cbn. by rewrite app_nil_r. }
  cbn [cacheIdentities]. destruct (cacheIdentity_spec c i sender I) as (c1 & -> & I1 & M1 & V1).
  cbn [mbind res_bind].
  destruct (IH c1 (negb (bool_decide (accepted sender [i] = [])) || cached)
    (calls ++ (accepted sender [i] ≫= (fun e => (fun f => (f.2, e.1)) <$> identityObservedCallbacks_ c))) I1)
    as (c2 & E & I2 & M2 & V2).
  rewrite (accepted_cons sender i is_). destruct M1 as (N1 & N2 & N3). exists c2. split_and!.
  - etransitivity; [exact E|]. rewrite N2, bind_app, app_assoc. do 3 f_equal.
    destruct (accepted sender [i]); cbn; [done|apply orb_true_r].
  - done.
  - destruct M2 as (P1 & P2 & P3). split_and!; congruence.
  - rewrite V2, V1, N1. unfold lru_puts. by rewrite foldl_app.
Qed.

Lemma observeMessage_spec c m :
  cache_inv c ->
  exists c', observeMessage c m =
      Ok (negb (bool_decide (accepted (senderNodeIdFromMessage m) (message_identities m) = [])),
          accepted (senderNodeIdFromMessage m) (message_identities m)
            ≫= (fun e => (fun f => (f.2, e.1)) <$> identityObservedCallbacks_ c), c')
    /\ cache_inv c' /\ same_config c c'
    /\ view c' = lru_puts (maximumEntries_ c) (view c) (accepted (senderNodeIdFromMessage m) (message_identities m)).
Proof.
  intros I. unfold observeMessage, message_identities. set (sender := senderNodeIdFromMessage m).
  assert (Hnone : exists c', cacheIdentities c (RSPMessage.identities m) sender false [] = _ /\ _) by
    exact (cacheIdentities_spec c (RSPMessage.identities m) sender false [] I).
  destruct (RSPMessage.core_message m) as [[]|]; cbn [mbind res_bind app];
    try (destruct Hnone as (c' & -> & ?); exists c'; by rewrite orb_false_r).
  clear Hnone. pose proof (cacheIdentities_spec c (m0 :: RSPMessage.identities m) sender false [] I) as Hs.
  cbn [cacheIdentities] in Hs. destruct (cacheIdentity c m0 sender) as [[[b cs] c1]| | |]; cbn [mbind res_bind] in *.
  - rewrite orb_false_r, app_nil_l in Hs. rewrite orb_false_r in Hs. exact Hs.
  - by destruct Hs as (? & ? & _).
  - by destruct Hs as (? & ? & _).
  - by destruct Hs as (? & ? & _).
Qed.

(** A message that brings one acceptable identity. *)
Lemma observeMessage_single c m id x :
  cache_inv c -> 0 < maximumEntries_ c ->
  accepted (senderNodeIdFromMessage m) (message_identities m) = [(id, x)] ->
  exists calls c', observeMessage c m = Ok (true, calls, c') /\ cache_inv c' /\ get c' id = Some x.
Proof.
  intros I Hmax Hacc. destruct (observeMessage_spec c m I) as (c' & Hobs & I' & _ & Hview).
  rewrite Hacc in Hobs, Hview. eexists _, c'. split; [exact Hobs|]. split; [done|].
  rewrite get_view, Hview by apply inv_linked, I'. cbn [lru_puts foldl fst snd]. unfold lru_put.
  destruct (Z.to_nat (maximumEntries_ c)) eqn:Hz; [lia|]. cbn. by rewrite bool_decide_eq_true_2.
Qed.

Lemma setMaximumEntries_spec c n :
  cache_inv c -> 0 <= n ->
  exists c', setMaximumEntries c n = Ok c' /\ cache_inv c' /\ maximumEntries_ c' = n
    /\ view c' = take (Z.to_nat n) (view c).
Proof.
  intros [L Hm Hs Hc] Hn. unfold setMaximumEntries, trimToLimitLocked.
  set (c0 := mkCache _ _ _ _ _ _).
  assert (L0 : linked c0) by (destruct L; by split).
  destruct (trim_loop_spec (size (entries_ c0)) c0 L0) as (c' & -> & L' & (M & _) & V & S); [done|done|].
  exists c'. cbn [c0 maximumEntries_] in *. split_and!; try done. split; [done|lia|..].
  - rewrite M, <- length_view, V, length_take by done. lia.
  - intros id e He. by eapply Hc, lookup_weaken.
Qed.

Lemma cache_inv_new n : 0 <= n -> cache_inv (IdentityCache_new n).
Proof. intros. split; [apply linked_new|done|done|apply map_Forall_empty]. Qed.

Lemma apply_op_spec c op :
  cache_inv c -> op_ok op ->
  exists c', apply_op c op = Ok c' /\ cache_inv c'
    /\ (maximumEntries_ c', view c') = spec_op (maximumEntries_ c, view c) op.
Proof.
  intros I Hok. destruct op as [m|n|f|t]; cbn [apply_op spec_op fst snd].
  - destruct (observeMessage_spec c m I) as (c' & -> & I' & (M & _) & V). exists c'. cbn. by rewrite M, V.
  - destruct (setMaximumEntries_spec c n I Hok) as (c' & -> & I' & M & V). exists c'. by rewrite M, V.
  - eexists. split_and!; [done| |by destruct f]. destruct I as [[] ? ? ?]. by destruct f; split.
  - eexists. split_and!; [done| |done]. destruct I as [[] ? ? ?]. by split.
Qed.

Lemma run_ops_spec c ops :
  cache_inv c -> Forall op_ok ops ->
  exists c', run_ops c ops = Ok c' /\ cache_inv c'
    /\ (maximumEntries_ c', view c') = foldl spec_op (maximumEntries_ c, view c) ops.
Proof.
  revert c. induction ops as [|op ops IH]; intros c I Hok; [by exists c|].
  apply Forall_cons in Hok as [Hop Hops]. destruct (apply_op_spec c op I Hop) as (c1 & E & I1 & S1).
  destruct (IH c1 I1 Hops) as (c2 & E2 & I2 & S2). exists c2. cbn [run_ops foldl]. rewrite E. cbn. by rewrite <- S1.
Qed.

Lemma lru_get_take id n (l : Lru) : lru_get id (take n l) = lru_get id l \/ lru_get id (take n l) = None.
Proof.
  revert n. induction l as [|[i x] l IH]; intros [|n]; cbn; auto. case_bool_decide; auto.
Qed.

Lemma lru_get_filter_other id s (l : Lru) :
  id <> s -> lru_get id (List.filter (fun e => negb (bool_decide (e.1 = s))) l) = lru_get id l.
Proof.
  intros Hne. induction l as [|[i x] l IH]; [done|]. cbn. case_bool_decide as Hi; cbn.
  - subst i. by rewrite bool_decide_eq_false_2.
  - by rewrite IH.
Qed.

Lemma length_filter_other (s : NodeID) (l : Lru) :
  s ∈ l.*1 -> (S (List.length (List.filter (fun e => negb (bool_decide (e.1 = s))) l)) <= List.length l)%nat.
Proof.
  induction l as [|[i x] l IH]; [by intros ?%elem_of_nil|]. cbn. intros [Hi|Hi]%elem_of_cons.
  - subst i. rewrite bool_decide_eq_true_2 by done. cbn. apply le_n_S. apply List.filter_length_le.
  - specialize (IH Hi). case_bool_decide; cbn; lia.
Qed.

Lemma lru_get_put_other id s x n (l : Lru) :
  id <> s ->
  (lru_get id (lru_put n s x l) = lru_get id l \/ lru_get id (lru_put n s x l) = None)
  /\ (s ∈ l.*1 -> Z.of_nat (List.length l) <= n ->
      lru_get id (lru_put n s x l) = lru_get id l /\ s ∈ (lru_put n s x l).*1
      /\ Z.of_nat (List.length (lru_put n s x l)) <= n).
Proof.
  intros Hne. unfold lru_put.
  assert (Hfull : lru_get id ((s, x) :: List.filter (fun e => negb (bool_decide (e.1 = s))) l) = lru_get id l).
  { cbn. rewrite bool_decide_eq_false_2 by done. by apply lru_get_filter_other. }
  split.
  - destruct (lru_get_take id (Z.to_nat n) ((s, x) :: List.filter (fun e => negb (bool_decide (e.1 = s))) l))
      as [H|H]; rewrite H; auto.
  - intros Hs Hl. pose proof (length_filter_other s l Hs). rewrite take_ge by (cbn; lia).
    split_and!; [done|by left|cbn; lia].
Qed.

Lemma lru_get_puts_other id s n (news l : Lru) :
  id <> s -> Forall (fun e => e.1 = s) news ->
  (lru_get id (lru_puts n l news) = lru_get id l \/ lru_get id (lru_puts n l news) = None)
  /\ (s ∈ l.*1 -> Z.of_nat (List.length l) <= n -> lru_get id (lru_puts n l news) = lru_get id l).
Proof.
  intros Hne Hall. revert l. induction Hall as [|[i x] news Hi Hall IH]; intros l; [auto|].
  cbn in Hi. subst i. unfold lru_puts in *. cbn [foldl fst snd].
  destruct (IH (lru_put n s x l)) as [IH1 IH2]. destruct (lru_get_put_other id s x n l Hne) as [P1 P2]. split.
  - destruct IH1 as [H|H]; rewrite H; auto.
  - intros Hs Hl. destruct (P2 Hs Hl) as (Q1 & Q2 & Q3). by rewrite IH2.
Qed.

Lemma accepted_sender s is_ : Forall (fun e => e.1 = s) (accepted (Some s) is_).
Proof.
  induction is_ as [|i is_ IH]; [constructor|]. unfold accepted in *. cbn.
  destruct (nodeIdFromIdentity i) as [[id|]| | |]; try done. case_bool_decide; cbn; by try constructor.
Qed.

Lemma contains_view c s : linked c -> contains c s = true -> s ∈ (view c).*1.
Proof.
  intros L Hc. apply bool_decide_eq_true_1 in Hc as [e He]. unfold view.
  rewrite view_of_full by (by apply linked_full). apply list_elem_of_fmap. exists (usage e, s). split; [done|].
  apply (linked_entries c L). eauto.
Qed.

(** ** Properties *)

(** C13.  The cache is a least-recently-refreshed cache.  Every sequence of
    observed messages, size changes and callback registrations on a new cache
    runs to its end (no dangling list iterator is followed, no empty list is
    popped, trimming ends), and the state it reaches stands for the abstract
    list computed by [spec_op]: each accepted identity moves to the front, what
    exceeds the maximum is dropped from the back.  [get], [contains] and the
    size are those of that list, which never exceeds the maximum. *)
Theorem identity_cache_is_lru n ops :
  0 <= n -> Forall op_ok ops ->
  exists c, run_ops (IdentityCache_new n) ops = Ok c
    /\ (maximumEntries_ c, view c) = foldl spec_op (n, []) ops
    /\ (forall id, get c id = lru_get id (view c))
    /\ (forall id, contains c id = bool_decide (is_Some (lru_get id (view c))))
    /\ cache_size c = List.length (view c) /\ Z.of_nat (cache_size c) <= maximumEntries_ c.
Proof.
  intros Hn Hok. destruct (run_ops_spec (IdentityCache_new n) ops (cache_inv_new n Hn) Hok) as (c & -> & I & S).
  pose proof (inv_linked c I) as L. exists c. split_and!; try done.
  - intros id. by apply get_view.
  - intros id. rewrite <- get_view by done. unfold contains, get. apply bool_decide_ext.
    by destruct (entries_ c !! id).
  - by rewrite length_view.
  - apply (inv_size c I).
Qed.

(** C14.  Cached identities are self-certified and cannot be planted by others.
    In every reachable state a cached identity consists of a public key alone,
    that key parses and hashes to the node id it is filed under; and observing a
    message with a known sender never changes what is cached for another node,
    except that the other node may be evicted, which does not happen when the
    sender was cached already. *)
Theorem identity_cache_safe n ops c :
  0 <= n -> Forall op_ok ops -> run_ops (IdentityCache_new n) ops = Ok c ->
  (forall id i, get c id = Some i -> certified id i)
  /\ (forall m s id, senderNodeIdFromMessage m = Some s -> id <> s ->
      exists cached calls c', observeMessage c m = Ok (cached, calls, c')
        /\ (get c' id = get c id \/ get c' id = None)
        /\ (contains c s = true -> get c' id = get c id)).
Proof.
  intros Hn Hok Hrun. destruct (run_ops_spec (IdentityCache_new n) ops (cache_inv_new n Hn) Hok) as (c0 & E & I & _).
  rewrite Hrun in E. injection E as <-. split.
  - intros id i Hg. unfold get in Hg. destruct (entries_ c !! id) as [e|] eqn:He; [|done]. injection Hg as <-.
    by apply (inv_certified c I).
  - intros m s id Hs Hne. destruct (observeMessage_spec c m I) as (c' & -> & I' & M & V). do 3 eexists. split; [done|].
    rewrite !get_view, V, Hs by apply inv_linked, I || apply inv_linked, I'.
    destruct (lru_get_puts_other id s (maximumEntries_ c) _ (view c) Hne (accepted_sender s (message_identities m)))
      as [P1 P2].
    split; [exact P1|]. intros Hc. apply P2; [by apply contains_view; [apply inv_linked|]|].
    rewrite length_view by apply inv_linked, I. apply (inv_size c I).
Qed.
End IdentityCache.

Arguments IdentityCache Callback : clear implicits.

(** ** Witnesses *)
Definition observed_alice : RSPMessage.t :=
  RSPMessage.mk None None None None None None None []
    [Identity.mk (Some (bs "nonce")) (Some (PublicKey.mk P256 (bs "Palice"))) None;
     Identity.mk None (Some (PublicKey.mk P256 (bs "Pbob"))) None] [].

Lemma identity_cache_is_lru_witness :
  exists c : IdentityCache unit,
    @run_ops ToyCrypto.toy unit (IdentityCache_new 1) [Observe observed_alice; AddCallback (Some tt)] = Ok c
    /\ cache_size c = List.length (view c).
Proof.
  destruct (@identity_cache_is_lru ToyCrypto.toy unit 1 [Observe observed_alice; AddCallback (Some tt)])
    as (c & Hc & _ & _ & _ & Hs & _).
  - lia.
  - by repeat constructor.
  - exists c. by split.
Defined.

Definition bob_node : NodeID := mkGUID (be_value 64 (bs "Dbob" ++ replicate 4 (byte_of 0))) 0.
Definition bob_identity : Identity.t := Identity.mk None (Some (PublicKey.mk P256 (bs "Pbob"))) None.

Definition bob_cache : IdentityCache unit :=
  match @run_ops ToyCrypto.toy unit (IdentityCache_new 1) [Observe observed_alice] with
  | Ok c => c
  | _ => IdentityCache_new 0
  end.

Lemma identity_cache_safe_witness :
  @run_ops ToyCrypto.toy unit (IdentityCache_new 1) [Observe observed_alice] = Ok bob_cache
  /\ @certified ToyCrypto.toy bob_node bob_identity.
Proof.
  split; [vm_compute; reflexivity|].
  refine (proj1 (@identity_cache_safe ToyCrypto.toy unit 1 [Observe observed_alice] bob_cache _ _ _)
    bob_node bob_identity _).
  - lia.
  - by repeat constructor.
  - vm_compute. reflexivity.
  - vm_compute. reflexivity.
Defined.
