(* ===== verification/DateTimes.v ===== *)
(** * common/base_types.cpp: DateTime

    [rsp::DateTime] holds seconds since the epoch as a [double].  A double is an
    IEEE 754 binary64 number of the Standard Library's [SpecFloat], so the
    arithmetic and the comparisons are the ones the code performs.  The value
    [llround] returns for an argument outside the range of [long long] is
    unspecified by C++: it is the operation of the class [MathLib].

    Also here: iteration over a [std::map] keyed by a GUID, in ascending order of
    the keys. *)

From Stdlib Require Import SpecFloat.
From stdpp Require Import sorting.
From S2P Require Import Prelude BaseTypes.

Abbreviation double := spec_float.

(** [static_cast<double>] of an unsigned 64-bit value. *)
Definition double_of_u64 (z : Z) : double := binary_normalize 53 1024 z 0 false.

Class MathLib := { llround_unspecified : double -> Z }.

(** [std::llround]: to the nearest integer, halves away from zero. *)
Definition llround `{MathLib} (d : double) : Z :=
  match d with
  | S754_zero _ => 0
  | S754_finite s m e =>
      let magnitude := if 0 <=? e then Z.pos m * 2 ^ e else (Z.pos m + 2 ^ (- e - 1)) / 2 ^ (- e) in
      let rounded := if s then - magnitude else magnitude in
      if (- 2 ^ 63 <=? rounded) && (rounded <? 2 ^ 63) then rounded else llround_unspecified d
  | _ => llround_unspecified d
  end.

Module DateTime.
Record t := mk { secondsSinceEpoch_ : double }.

Definition fromMillisecondsSinceEpoch (milliseconds : Z) : t :=
  mk (SFdiv 53 1024 (double_of_u64 milliseconds) (double_of_u64 1000)).

Definition millisecondsSinceEpoch `{MathLib} (d : t) : Z :=
  wrap 64 (llround (SFmul 53 1024 (secondsSinceEpoch_ d) (double_of_u64 1000))).

(** [operator+=(double)]. *)
Definition add (d : t) (seconds : double) : t := mk (SFadd 53 1024 (secondsSinceEpoch_ d) seconds).

Definition eqb (a b : t) : bool := SFeqb (secondsSinceEpoch_ a) (secondsSinceEpoch_ b).
Definition ltb (a b : t) : bool := SFltb (secondsSinceEpoch_ a) (secondsSinceEpoch_ b).
Definition leb (a b : t) : bool := SFleb (secondsSinceEpoch_ a) (secondsSinceEpoch_ b).
(** [operator>]. *)
Definition gtb (a b : t) : bool := ltb b a.
End DateTime.

(** [x += static_cast<double>(milliseconds) / 1000.0]. *)
Definition addMilliseconds (base : DateTime.t) (milliseconds : Z) : DateTime.t :=
  DateTime.add base (SFdiv 53 1024 (double_of_u64 milliseconds) (double_of_u64 1000)).

(** ** Iteration in key order *)
Section InOrder.
Context {V : Type}.

Definition guid_key_le (p q : GUID * V) : Prop := Is_true (negb (GUID_ltb q.1 p.1)).

Definition in_order (m : gmap GUID V) : list (GUID * V) := merge_sort guid_key_le (map_to_list m).

Lemma in_order_permutation m : in_order m ≡ₚ map_to_list m.
Proof. apply merge_sort_Permutation. Qed.

Lemma elem_of_in_order m k v : (k, v) ∈ in_order m <-> m !! k = Some v.
Proof. rewrite in_order_permutation. apply elem_of_map_to_list. Qed.

Lemma NoDup_in_order m : NoDup (in_order m).*1.
Proof. rewrite in_order_permutation. apply NoDup_fst_map_to_list. Qed.

Lemma length_in_order m : List.length (in_order m) = size m.
Proof. by rewrite in_order_permutation, length_map_to_list. Qed.
End InOrder.

(** A small instance for evaluation: out of range gives the smallest value, as
    the x86-64 conversion does. *)
Definition x86_math : MathLib := {| llround_unspecified := fun _ => - 2 ^ 63 |}.
