(* ===== verification/Logging.v ===== *)
(** * common/logging/logging.cpp: log subscriptions

    [SubscriptionManager] keeps the subscriptions of remote nodes and publishes a
    log record to every live subscription whose filter accepts the record's
    payload.  The identifier that [rsp::GUID()] draws is an argument of
    [subscribe]; the delivery callback is a function of the envelopes it was
    given before and the one it is given now. *)

From S2P Require Import Prelude BaseTypes Proto GuidBytes FieldResolver Requirement DateTimes.

Definition LOG_SUBSCRIPTION_STATUS_ACCEPTED : Enum := 1.
Definition LOG_SUBSCRIPTION_STATUS_REMOVED : Enum := 2.
Definition LOG_SUBSCRIPTION_STATUS_INVALID : Enum := 3.
Definition LOG_SUBSCRIPTION_STATUS_NOT_FOUND : Enum := 4.

(** ** Identifiers *)
Definition hasRequiredUuidBytes (value : bytes) : bool := Nat.eqb (List.length value) 16.

Definition parseGuidLike (value : bytes) : GUID := mkGUID (memcpy_to_u64 value) (memcpy_to_u64 (drop 8 value)).

Definition encodeGuidLike (guid : GUID) : bytes := memcpy_from_u64 (high guid) ++ memcpy_from_u64 (low guid).

Definition guidFromProto (uuid : Uuid) : option GUID :=
  if negb (hasRequiredUuidBytes uuid) then None else Some (parseGuidLike uuid).

Definition nodeIdFromProto (nodeId : NodeId) : option NodeID :=
  if negb (hasRequiredUuidBytes nodeId) then None else Some (parseGuidLike nodeId).

Definition guidToProto (guid : GUID) : Uuid := encodeGuidLike guid.
Definition nodeIdToProto (nodeId : NodeID) : NodeId := encodeGuidLike nodeId.

Definition dateTimeToProto `{MathLib} (d : DateTime.t) : DateTime := DateTime.millisecondsSinceEpoch d.

(** The part of a type url after the last slash. *)
Definition logTypeNameFromUrl (typeUrl : bytes) : bytes :=
  match list_find (fun c => c = "/"%char) (rev typeUrl) with
  | None => typeUrl
  | Some (i, _) => drop (List.length typeUrl - i) typeUrl
  end.

(** ** Filters *)

(** The messages of logging.proto and messages.proto have the same fields. *)
Fixpoint toFieldPath (path : ERDASTFieldPath) : ERDASTFieldPath :=
  match path with [] => [] | segment :: path' => segment :: toFieldPath path' end.

Definition toFieldValue (value : ERDASTFieldValue) : ERDASTFieldValue :=
  match value with
  | BytesValue v => BytesValue v
  | StringValue v => StringValue v
  | IntValue v => IntValue v
  | UintValue v => UintValue v
  | BoolValue v => BoolValue v
  | EnumValue v => EnumValue v
  | ValueNotSet => ValueNotSet
  end.

Section Logging.
Context `{R : Reflection} `{M : MathLib}.

Definition evaluateFilterLeaf (message : Message) (snap : option SchemaSnapshot.t) (leaf : MesLeaf) : Res bool :=
  match leaf with
  | FieldEquals (Some path) (Some value) =>
      resolved ← resolveFieldPath (toFieldPath path) message snap;
      Ok (resolvedValueEquals resolved (toFieldValue value))
  | FieldEquals _ _ => Ok false
  | FieldExists (Some path) =>
      resolved ← resolveFieldPath (toFieldPath path) message snap; Ok (resolvedValuePresent resolved)
  | FieldExists None => Ok false
  | FieldContains (Some path) (Some sub_path) (Some value) =>
      elements ← resolveRepeatedMessages (toFieldPath path) message snap;
      anyElementEquals elements (toFieldPath sub_path) (toFieldValue value) snap
  | FieldContains _ _ _ => Ok false
  end.

Definition evaluateFilterTree (tree : LogASTMessageTree) (message : Message) (snap : option SchemaSnapshot.t)
    : Res bool :=
  evalTree (evaluateFilterLeaf message snap) tree.

(** ** SubscriptionManager *)
Record Subscription := mkSubscription {
  subscriberNodeId : NodeID;
  payloadTypeUrl : bytes;
  sub_filter : LogASTMessageTree;
  sub_expiresAt : DateTime.t }.

Record SubscriptionManager := mkManager {
  sub_localNodeId_ : NodeID;
  subscriptions_ : gmap GUID Subscription }.

Definition SubscriptionManager_new (localNodeId : NodeID) : SubscriptionManager := mkManager localNodeId ∅.

Definition set_subscriptions (s : SubscriptionManager) (m : gmap GUID Subscription) : SubscriptionManager :=
  mkManager (sub_localNodeId_ s) m.

(** [std::map::emplace]: an existing key keeps its value. *)
Definition emplace {V} (m : gmap GUID V) (k : GUID) (v : V) : gmap GUID V :=
  match m !! k with Some _ => m | None => <[k := v]> m end.

Definition subscribe (s : SubscriptionManager) (fresh : GUID) (subscriber : NodeID)
    (request : LogSubscribeRequest.t) (now : DateTime.t) : LogSubscribeReply.t * SubscriptionManager :=
  match LogSubscribeRequest.payload_type_url request, LogSubscribeRequest.filter request with
  | (_ :: _) as url, Some filter =>
      if LogSubscribeRequest.duration_ms request =? 0 then
        (LogSubscribeReply.mk LOG_SUBSCRIPTION_STATUS_INVALID None None
           (bs "log subscriptions require payload_type_url, filter, and non-zero duration_ms"), s)
      else
        let expiresAt := addMilliseconds now (LogSubscribeRequest.duration_ms request) in
        (LogSubscribeReply.mk LOG_SUBSCRIPTION_STATUS_ACCEPTED (Some (guidToProto fresh))
           (Some (dateTimeToProto expiresAt)) [],
         set_subscriptions s (emplace (subscriptions_ s) fresh (mkSubscription subscriber url filter expiresAt)))
  | _, _ =>
      (LogSubscribeReply.mk LOG_SUBSCRIPTION_STATUS_INVALID None None
         (bs "log subscriptions require payload_type_url, filter, and non-zero duration_ms"), s)
  end.

Definition unsubscribe (s : SubscriptionManager) (subscriber : NodeID) (subscription_id : option Uuid)
    : LogUnsubscribeReply.t * SubscriptionManager :=
  match subscription_id with
  | None => (LogUnsubscribeReply.mk LOG_SUBSCRIPTION_STATUS_INVALID None (bs "subscription_id is required"), s)
  | Some uuid =>
      match guidFromProto uuid with
      | None =>
          (LogUnsubscribeReply.mk LOG_SUBSCRIPTION_STATUS_INVALID None (bs "subscription_id must be 16 bytes"), s)
      | Some id =>
          let removed := match subscriptions_ s !! id with
                         | Some sub => bool_decide (subscriberNodeId sub = subscriber)
                         | None => false
                         end in
          if removed then
            (LogUnsubscribeReply.mk LOG_SUBSCRIPTION_STATUS_REMOVED (Some uuid) [],
             set_subscriptions s (delete id (subscriptions_ s)))
          else
            (LogUnsubscribeReply.mk LOG_SUBSCRIPTION_STATUS_NOT_FOUND (Some uuid)
               (bs "subscription not found for subscriber"), s)
      end
  end.

(** The loops that erase while they iterate: what is kept and how many are not. *)
Definition erase_where (p : Subscription -> bool) (m : gmap GUID Subscription) : gmap GUID Subscription * nat :=
  let kept := filter (fun e => p e.2 = false) m in (kept, (size m - size kept)%nat).

Definition isExpired (now : DateTime.t) (sub : Subscription) : bool := DateTime.leb (sub_expiresAt sub) now.

Definition isOf (node : NodeID) (sub : Subscription) : bool := bool_decide (subscriberNodeId sub = node).

Definition removeExpired (s : SubscriptionManager) (now : DateTime.t) : nat * SubscriptionManager :=
  let '(kept, n) := erase_where (isExpired now) (subscriptions_ s) in (n, set_subscriptions s kept).

Definition removeAllForNode (s : SubscriptionManager) (node : NodeID) : nat * SubscriptionManager :=
  let '(kept, n) := erase_where (isOf node) (subscriptions_ s) in (n, set_subscriptions s kept).

Definition subscriptionCount (s : SubscriptionManager) : nat := size (subscriptions_ s).

Definition subscriptionCountForNode (s : SubscriptionManager) (node : NodeID) : nat :=
  size (filter (fun e => isOf node e.2 = true) (subscriptions_ s)).

Definition hasSubscription (s : SubscriptionManager) (id : GUID) : bool :=
  bool_decide (is_Some (subscriptions_ s !! id)).

(** *** publish *)
Record PublishStats := mkStats {
  matched_subscriptions : nat; delivered_messages : nat;
  expired_subscriptions : nat; removed_subscriptions_on_failure : nat }.

(** The copy of the record that goes to one subscription, and its envelope. *)
Definition deliverRecord (s : SubscriptionManager) (record : LogRecord.t) (id : GUID) (now : DateTime.t)
    : LogRecord.t :=
  LogRecord.mk
    (match LogRecord.subscription_id record with Some u => Some u | None => Some (guidToProto id) end)
    (match LogRecord.producer_node_id record with Some n => Some n | None => Some (nodeIdToProto (sub_localNodeId_ s)) end)
    (match LogRecord.time_created record with Some t => Some t | None => Some (dateTimeToProto now) end)
    (LogRecord.payload record).

Definition envelope (s : SubscriptionManager) (record : LogRecord.t) (id : GUID) (sub : Subscription)
    (now : DateTime.t) : RSPMessage.t :=
  RSPMessage.set_core (RSPMessage.set_destination (RSPMessage.set_source RSPMessage.empty
    (Some (nodeIdToProto (sub_localNodeId_ s)))) (Some (nodeIdToProto (subscriberNodeId sub))))
    (Some (LogRecordMessage (deliverRecord s record id now))).

Abbreviation DeliverCallback := (list RSPMessage.t -> RSPMessage.t -> bool).

(** The state of the delivery loop. *)
Record Publishing := mkPublishing {
  pub_manager : SubscriptionManager;
  pub_stats : PublishStats;
  failedSubscribers : list NodeID;
  pub_calls : list RSPMessage.t }.

Definition publish_one (deliver : DeliverCallback) (record : LogRecord.t) (type_url : bytes) (payload : Message)
    (snap : SchemaSnapshot.t) (now : DateTime.t) (p : Publishing) (candidate : GUID * Subscription)
    : Res Publishing :=
  let '(id, sub) := candidate in
  let stats := pub_stats p in
  if bool_decide (subscriberNodeId sub ∈ failedSubscribers p) then Ok p
  else if negb (bool_decide (payloadTypeUrl sub = type_url)) then Ok p
  else
    accepts ← evaluateFilterTree (sub_filter sub) payload (Some snap);
    if negb accepts then Ok p
    else
      let message := envelope (pub_manager p) record id sub now in
      if negb (deliver (pub_calls p) message) then
        let '(n, manager) := removeAllForNode (pub_manager p) (subscriberNodeId sub) in
        Ok (mkPublishing manager
              (mkStats (S (matched_subscriptions stats)) (delivered_messages stats) (expired_subscriptions stats)
                 (removed_subscriptions_on_failure stats + n))
              (subscriberNodeId sub :: failedSubscribers p) (pub_calls p ++ [message]))
      else
        Ok (mkPublishing (pub_manager p)
              (mkStats (S (matched_subscriptions stats)) (S (delivered_messages stats))
                 (expired_subscriptions stats) (removed_subscriptions_on_failure stats))
              (failedSubscribers p) (pub_calls p ++ [message])).

Fixpoint publish_loop (deliver : DeliverCallback) (record : LogRecord.t) (type_url : bytes) (payload : Message)
    (snap : SchemaSnapshot.t) (now : DateTime.t) (p : Publishing) (candidates : list (GUID * Subscription))
    : Res Publishing :=
  match candidates with
  | [] => Ok p
  | candidate :: candidates' =>
      p' ← publish_one deliver record type_url payload snap now p candidate;
      publish_loop deliver record type_url payload snap now p' candidates'
  end.

(** Result: the statistics, the envelopes handed to [deliver], the manager. *)
Definition publish (s : SubscriptionManager) (record : LogRecord.t) (deliver : DeliverCallback)
    (schemaSnapshot : option SchemaSnapshot.t) (now : DateTime.t)
    : Res (PublishStats * list RSPMessage.t * SubscriptionManager) :=
  match LogRecord.payload record with
  | None => Ok (mkStats 0 0 0 0, [], s)
  | Some any =>
      if bool_decide (AnyMsg.type_url any = []) then Ok (mkStats 0 0 0 0, [], s)
      else
        let '(kept, expired) := erase_where (isExpired now) (subscriptions_ s) in
        let s' := set_subscriptions s kept in
        let stats := mkStats 0 0 expired 0 in
        match schemaSnapshot with
        | None => Ok (stats, [], s')
        | Some snap =>
            match SchemaSnapshot.findMessageDescriptor snap (logTypeNameFromUrl (AnyMsg.type_url any)) with
            | None => Ok (stats, [], s')
            | Some descriptor =>
                match dynamic_ParseFromString snap descriptor (AnyMsg.value any) with
                | None => Ok (stats, [], s')
                | Some payload =>
                    p ← publish_loop deliver record (AnyMsg.type_url any) payload snap now
                          (mkPublishing s' stats [] []) (in_order kept);
                    Ok (pub_stats p, pub_calls p, pub_manager p)
                end
            end
        end
  end.

(** ** Lemmas *)

Lemma toFieldPath_id path : toFieldPath path = path.
Proof. induction path; cbn; congruence. Qed.

Lemma toFieldValue_id v : toFieldValue v = v.
Proof. by destruct v. Qed.

(** The log filters are evaluated as the message predicates of requirements. *)
Lemma evaluateFilterTree_message tree message snap :
  evaluateFilterTree tree message snap = evaluateMessageTree tree message snap.
Proof.
  assert (Hleaf : forall l, evaluateFilterLeaf message snap l = evaluateMessageLeaf message snap l).
  { intros [p v|p|p q v]; unfold evaluateFilterLeaf, evaluateMessageLeaf;
      repeat case_match; by rewrite ?toFieldPath_id, ?toFieldValue_id. }
  unfold evaluateFilterTree, evaluateMessageTree. by apply evalTree_ext.
Qed.

(** *** The delivery loop *)
Section Publish.
Variables (deliver : DeliverCallback) (record : LogRecord.t) (url : bytes) (payload : Message)
  (snap : SchemaSnapshot.t) (now : DateTime.t).

(** A subscription takes the record. *)
Definition wants (sub : Subscription) : Prop :=
  payloadTypeUrl sub = url /\ evaluateFilterTree (sub_filter sub) payload (Some snap) = Ok true.

(** One call of [deliver]: the subscription and the answer. *)
Abbreviation Outcome := (GUID * Subscription * bool)%type.
Definition node_of (o : Outcome) : NodeID := subscriberNodeId o.1.2.
Definition message_of (s : SubscriptionManager) (o : Outcome) : RSPMessage.t := envelope s record o.1.1 o.1.2 now.

(** The calls happen in this order after [history], with the answers [deliver]
    gives, and a node whose delivery failed is not served again. *)
Fixpoint delivery_log (s : SubscriptionManager) (history : list RSPMessage.t) (os : list Outcome) : Prop :=
  match os with
  | [] => True
  | o :: os' =>
      o.2 = deliver history (message_of s o)
      /\ (o.2 = false -> Forall (fun o' => node_of o' <> node_of o) os')
      /\ delivery_log s (history ++ [message_of s o]) os'
  end.

Definition failed_in (os : list Outcome) (n : NodeID) : Prop := Exists (fun o => o.2 = false /\ node_of o = n) os.

Record published (p p' : Publishing) (cs : list (GUID * Subscription)) (os : list Outcome) : Prop := {
  pub_sub : os.*1 `sublist_of` cs;
  pub_wants : Forall (fun o => wants o.1.2) os;
  pub_log : delivery_log (pub_manager p) (pub_calls p) os;
  pub_history : pub_calls p' = pub_calls p ++ (message_of (pub_manager p) <$> os);
  pub_healthy : Forall (fun o => node_of o ∉ failedSubscribers p) os;
  pub_complete : forall c, c ∈ cs -> wants c.2 ->
    subscriberNodeId c.2 ∈ failedSubscribers p \/ c ∈ os.*1 \/ failed_in os (subscriberNodeId c.2);
  pub_counts : matched_subscriptions (pub_stats p') = (matched_subscriptions (pub_stats p) + List.length os)%nat
    /\ delivered_messages (pub_stats p')
       = (delivered_messages (pub_stats p) + List.length (List.filter snd os))%nat
    /\ expired_subscriptions (pub_stats p') = expired_subscriptions (pub_stats p)
    /\ (removed_subscriptions_on_failure (pub_stats p') + size (subscriptions_ (pub_manager p'))
       = removed_subscriptions_on_failure (pub_stats p) + size (subscriptions_ (pub_manager p)))%nat;
  pub_remaining : sub_localNodeId_ (pub_manager p') = sub_localNodeId_ (pub_manager p)
    /\ forall id sub, subscriptions_ (pub_manager p') !! id = Some sub <->
         subscriptions_ (pub_manager p) !! id = Some sub /\ ~ failed_in os (subscriberNodeId sub) }.

Lemma size_filter_le {V} (P : GUID * V -> Prop) `{!forall x, Decision (P x)} (m : gmap GUID V) :
  (size (filter P m) <= size m)%nat.
Proof. apply map_subseteq_size, map_filter_subseteq. Qed.

Lemma message_of_local s s' o : sub_localNodeId_ s = sub_localNodeId_ s' -> message_of s o = message_of s' o.
Proof. intros H. unfold message_of, envelope, deliverRecord. by rewrite H. Qed.

Lemma delivery_log_local s s' history os :
  sub_localNodeId_ s = sub_localNodeId_ s' -> delivery_log s history os -> delivery_log s' history os.
Proof.
  intros H. revert history. induction os as [|o os IH]; [done|]. intros history. cbn.
  rewrite (message_of_local s s' o H). intros (? & ? & ?). eauto.
Qed.

Lemma published_skip p p' c cs os :
  published p p' cs os -> (wants c.2 -> subscriberNodeId c.2 ∈ failedSubscribers p) -> published p p' (c :: cs) os.
Proof.
  intros [] Hc. split; try done; [by constructor|]. intros c' [->|Hin]%elem_of_cons Hw; auto.
Qed.

(** One more call before the rest of the loop. *)
Lemma published_call p p1 p' id sub b cs os :
  let o := (id, sub, b) in
  wants sub -> subscriberNodeId sub ∉ failedSubscribers p -> b = deliver (pub_calls p) (message_of (pub_manager p) o) ->
  pub_calls p1 = pub_calls p ++ [message_of (pub_manager p) o] ->
  sub_localNodeId_ (pub_manager p1) = sub_localNodeId_ (pub_manager p) ->
  (forall n, n ∈ failedSubscribers p1 <-> n ∈ failedSubscribers p \/ b = false /\ n = subscriberNodeId sub) ->
  matched_subscriptions (pub_stats p1) = S (matched_subscriptions (pub_stats p)) ->
  delivered_messages (pub_stats p1) = (delivered_messages (pub_stats p) + if b then 1 else 0)%nat ->
  expired_subscriptions (pub_stats p1) = expired_subscriptions (pub_stats p) ->
  (removed_subscriptions_on_failure (pub_stats p1) + size (subscriptions_ (pub_manager p1))
     = removed_subscriptions_on_failure (pub_stats p) + size (subscriptions_ (pub_manager p)))%nat ->
  (forall i x, subscriptions_ (pub_manager p1) !! i = Some x <->
     subscriptions_ (pub_manager p) !! i = Some x /\ ~ (b = false /\ subscriberNodeId sub = subscriberNodeId x)) ->
  published p1 p' cs os -> published p p' ((id, sub) :: cs) (o :: os).
Proof.
  intros o Hw Hh Hb Hcalls Hlocal Hfail Hm Hd He Hr Hs [P1 P2 P3 P4 P5 P6 (P7 & P8 & P9 & P10) (P11 & P12)].
  split.
  - by apply sublist_skip.
  - by constructor.
  - cbn. split_and!; [done| |].
    + intros ->. eapply Forall_impl; [exact P5|]. intros o' Ho' Heq. apply Ho', Hfail. right. done.
    + rewrite <- Hcalls. by eapply delivery_log_local.
  - rewrite P4, Hcalls, <- app_assoc. cbn. do 2 f_equal. apply list_fmap_ext. intros i x _.
    by apply message_of_local.
  - constructor; [done|]. eapply Forall_impl; [exact P5|]. intros o' Ho' Hin. apply Ho', Hfail. by left.
  - intros c [->|Hin]%elem_of_cons Hwc; [right; left; by left|].
    destruct (P6 c Hin Hwc) as [Hf|[Hf|Hf]]; [|right; left; by right|right; right; by right].
    apply Hfail in Hf as [Hf|[-> ->]]; [by left|]. right. right. by left.
  - cbn. rewrite P7, P8, Hm, Hd. split_and!; [lia| |congruence|congruence].
    destruct b; cbn; lia.
  - split; [congruence|]. intros i x. rewrite P12, Hs. unfold failed_in. rewrite Exists_cons. cbn.
    unfold node_of at 2. cbn. tauto.
Qed.

Lemma publish_one_spec p c cs os p1 p' :
  publish_one deliver record url payload snap now p c = Ok p1 -> published p1 p' cs os ->
  exists os', published p p' (c :: cs) os'.
Proof.
  destruct c as [id sub]. unfold publish_one. case_bool_decide as Hf.
  { intros [= <-] P. exists os. by apply published_skip. }
  case_bool_decide as Hu; cbn [negb].
  2:{ intros [= <-] P. exists os. apply published_skip; [done|]. by intros [? _]. }
  destruct (evaluateFilterTree (sub_filter sub) payload (Some snap)) as [[]| | |] eqn:He; cbn [mbind res_bind negb]; try done.
  2:{ intros [= <-] P. exists os. apply published_skip; [done|]. intros [_ Hw]. cbn in Hw. by rewrite He in Hw. }
  set (msg := envelope _ _ _ _ _). destruct (deliver (pub_calls p) msg) eqn:Hd; cbn [negb].
  - intros [= <-] P. exists ((id, sub, true) :: os).
    eapply published_call; [done|done|done|..|exact P]; try done; cbn; try lia.
    + intros n. split; [by left|]. by intros [?|[? _]].
    + intros i x. split; [|tauto]. intros ?. split; [done|]. by intros [? _].
  - destruct (removeAllForNode (pub_manager p) (subscriberNodeId sub)) as [n s'] eqn:Hrm.
    unfold removeAllForNode, erase_where in Hrm. injection Hrm as <- <-.
    intros [= <-] P. exists ((id, sub, false) :: os).
    eapply published_call; [done|done|done|..|exact P]; try done; cbn; try lia.
    + intros n. rewrite elem_of_cons. intuition.
    + match goal with |- (_ + (_ - size ?f) + _ = _)%nat => assert (size f <= size (subscriptions_ (pub_manager p)))%nat
        by apply size_filter_le end. lia.
    + intros i x. rewrite map_lookup_filter_Some. unfold isOf. cbn. rewrite bool_decide_eq_false.
      intuition congruence.
Qed.

Lemma publish_loop_spec p cs p' :
  publish_loop deliver record url payload snap now p cs = Ok p' -> exists os, published p p' cs os.
Proof.
  revert p. induction cs as [|c cs IH]; intros p Hp; cbn in Hp.
  - injection Hp as <-. exists []. split; try (by constructor).
    + by rewrite app_nil_r.
    + by intros ? ?%elem_of_nil.
    + split; [done|]. intros id sub. split; [|tauto]. intros ?. split; [done|]. by intros ?%Exists_nil.
  - destruct (publish_one _ _ _ _ _ _ p c) as [p1| | |] eqn:H1; try done. cbn in Hp.
    destruct (IH p1 Hp) as [os Hos]. by eapply publish_one_spec.
Qed.

(** With total filters the loop ends normally. *)
Lemma publish_loop_total p cs :
  Forall (fun c => exists b, evaluateFilterTree (sub_filter c.2) payload (Some snap) = Ok b) cs ->
  exists p', publish_loop deliver record url payload snap now p cs = Ok p'.
Proof.
  intros Hcs. revert p. induction Hcs as [|[id sub] cs [b Hb] Hcs IH]; intros p; [by eexists|].
  cbn in Hb. cbn [publish_loop publish_one]. repeat case_bool_decide; cbn [mbind res_bind negb]; try apply IH.
  rewrite Hb. cbn. destruct b; cbn; [|apply IH]. destruct (deliver _ _); cbn; apply IH.
Qed.
End Publish.

(** The subscriptions that are still valid. *)
Definition live (s : SubscriptionManager) (now : DateTime.t) : gmap GUID Subscription :=
  filter (fun e => isExpired now e.2 = false) (subscriptions_ s).

(** ** Properties *)

(** C38.  A record reaches exactly the subscriptions that want it.  When the
    payload can be unpacked, [publish] calls [deliver] in the order of the
    subscription ids, once for each unexpired subscription of the payload's type
    whose filter accepts it, with an envelope addressed to the subscriber; only
    the further subscriptions of a node whose delivery failed are skipped.
    Afterwards the expired subscriptions and all those of failed nodes are gone
    and every other one is kept, and the four counters are the numbers of calls,
    of successful calls, of expired and of removed subscriptions. *)
Theorem publish_exact s record any deliver snap now descriptor payload :
  LogRecord.payload record = Some any -> AnyMsg.type_url any <> [] ->
  SchemaSnapshot.findMessageDescriptor snap (logTypeNameFromUrl (AnyMsg.type_url any)) = Some descriptor ->
  dynamic_ParseFromString snap descriptor (AnyMsg.value any) = Some payload ->
  (forall id sub, live s now !! id = Some sub ->
     exists b, evaluateFilterTree (sub_filter sub) payload (Some snap) = Ok b) ->
  exists os calls s',
    publish s record deliver (Some snap) now =
      Ok (mkStats (List.length os) (List.length (List.filter snd os))
            (size (subscriptions_ s) - size (live s now)) (size (live s now) - size (subscriptions_ s')), calls, s')
    /\ os.*1 `sublist_of` in_order (live s now)
    /\ calls = message_of record now s <$> os
    /\ delivery_log deliver record now s [] os
    /\ Forall (fun o => wants (AnyMsg.type_url any) payload snap o.1.2) os
    /\ (forall id sub, live s now !! id = Some sub -> wants (AnyMsg.type_url any) payload snap sub ->
        (id, sub) ∈ os.*1 \/ failed_in os (subscriberNodeId sub))
    /\ (forall id sub, subscriptions_ s' !! id = Some sub <->
        live s now !! id = Some sub /\ ~ failed_in os (subscriberNodeId sub)).
Proof.
  intros Hp Hu Hd Hm Hf. unfold publish. rewrite Hp, bool_decide_eq_false_2 by done.
  unfold erase_where. fold (live s now). rewrite Hd, Hm.
  set (s1 := set_subscriptions s (live s now)). set (p0 := mkPublishing s1 _ [] []).
  destruct (publish_loop_total deliver record (AnyMsg.type_url any) payload snap now p0 (in_order (live s now)))
    as [p' Hloop].
  { apply Forall_forall. intros [id sub] Hin%elem_of_in_order. by eapply Hf. }
  destruct (publish_loop_spec _ _ _ _ _ _ _ _ _ Hloop) as [os [P1 P2 P3 P4 P5 P6 (P7 & P8 & P9 & P10) (P11 & P12)]].
  rewrite Hloop. cbn [mbind res_bind].
  assert (Hsize : (size (subscriptions_ (pub_manager p')) <= size (live s now))%nat)
    by (cbn [p0 s1 pub_stats pub_manager set_subscriptions subscriptions_ removed_subscriptions_on_failure] in P10; lia).
  exists os, (pub_calls p'), (pub_manager p'). split_and!.
  - repeat f_equal. destruct (pub_stats p') as [m d e r] eqn:Hst. cbn in *. f_equal; lia.
  - done.
  - rewrite P4. cbn. apply list_fmap_ext. intros i o _. by apply message_of_local.
  - by eapply delivery_log_local; [|exact P3].
  - done.
  - intros id sub Hl Hw. destruct (P6 (id, sub)) as [Hx|Hx]; [by apply elem_of_in_order|done| |done].
    by apply elem_of_nil in Hx.
  - exact P12.
Qed.

Lemma guidFromProto_toProto g : GUID_wf g -> guidFromProto (guidToProto g) = Some g.
Proof. exact (nodeIdFromSourceField_toProto g). Qed.

(** Subscriptions belong to their subscriber.  An accepted subscription is
    stored under its fresh id for the requesting node and nothing else changes;
    its id, sent back by that node, removes exactly it and restores the manager;
    the same request from any other node is answered NOT_FOUND and changes
    nothing. *)
Theorem subscription_lifecycle s fresh node request now reply s' :
  subscribe s fresh node request now = (reply, s') ->
  GUID_wf fresh -> subscriptions_ s !! fresh = None ->
  LogSubscribeReply.status reply = LOG_SUBSCRIPTION_STATUS_ACCEPTED ->
  (exists sub, subscriptions_ s' = <[fresh := sub]> (subscriptions_ s) /\ subscriberNodeId sub = node
     /\ payloadTypeUrl sub = LogSubscribeRequest.payload_type_url request
     /\ Some (sub_filter sub) = LogSubscribeRequest.filter request
     /\ sub_expiresAt sub = addMilliseconds now (LogSubscribeRequest.duration_ms request)
     /\ LogSubscribeReply.expires_at reply = Some (dateTimeToProto (sub_expiresAt sub)))
  /\ (let '(answer, s'') := unsubscribe s' node (LogSubscribeReply.subscription_id reply) in
       LogUnsubscribeReply.status answer = LOG_SUBSCRIPTION_STATUS_REMOVED /\ s'' = s)
  /\ (forall other, other <> node ->
       let '(answer, s'') := unsubscribe s' other (LogSubscribeReply.subscription_id reply) in
       LogUnsubscribeReply.status answer = LOG_SUBSCRIPTION_STATUS_NOT_FOUND /\ s'' = s').
Proof.
  unfold subscribe. destruct (LogSubscribeRequest.payload_type_url request) as [|c url] eqn:Hu;
    [by intros [= <- <-] _ _ ?|]. destruct (LogSubscribeRequest.filter request) as [f|] eqn:Hf; [|by intros [= <- <-] _ _ ?].
  destruct (_ =? 0); [by intros [= <- <-] _ _ ?|]. intros [= <- <-] Hwf Hnew _. cbn [LogSubscribeReply.subscription_id
    LogSubscribeReply.expires_at].
  unfold emplace, unsubscribe. rewrite Hnew, guidFromProto_toProto by done.
  cbn [set_subscriptions subscriptions_]. rewrite lookup_insert_eq. split_and!.
  - eexists. by split_and!.
  - cbn. rewrite bool_decide_eq_true_2 by done. split; [done|].
    rewrite delete_insert_id by done. by destruct s.
  - intros other Hne. cbn. rewrite bool_decide_eq_false_2 by congruence. done.
Qed.
End Logging.

(** ** Witnesses *)
Definition sample_now : DateTime.t := DateTime.fromMillisecondsSinceEpoch 1700000000000.

Definition sample_request : LogSubscribeRequest.t :=
  LogSubscribeRequest.mk (bs "type/t.Event") (Some (Or (Some (Leaf (FieldExists (Some [bs "peers"])))) (Some TrueValue))) 5000.

Definition sample_manager : SubscriptionManager :=
  (@subscribe x86_math (@subscribe x86_math (SubscriptionManager_new (mkGUID 9 9)) (mkGUID 1 1) (mkGUID 7 7)
     sample_request sample_now).2 (mkGUID 1 2) (mkGUID 8 8) sample_request sample_now).2.

Definition sample_record : LogRecord.t :=
  LogRecord.mk None None None (Some (AnyMsg.mk (bs "type/t.Event") [])).

Definition sample_snapshot : SchemaSnapshot.t := [ServiceSchema.mk [] [] [] (bs "h") 1].

(** The first node cannot be reached, the second can. *)
Definition sample_deliver (history : list RSPMessage.t) (m : RSPMessage.t) : bool :=
  match history with [] => false | _ => true end.

Lemma publish_exact_witness :
  exists calls s', @publish ToyReflection.toy_reflection x86_math sample_manager sample_record sample_deliver
    (Some sample_snapshot) sample_now = Ok (mkStats 2 1 0 1, calls, s') /\ subscriptionCount s' = 1%nat.
Proof.
  destruct (@publish_exact ToyReflection.toy_reflection x86_math sample_manager sample_record
    (AnyMsg.mk (bs "type/t.Event") []) sample_deliver sample_snapshot sample_now (bs "t.Event")
    ToyReflection.peers_message) as (os & calls & s' & Hp & _).
  - reflexivity.
  - discriminate.
  - vm_compute. reflexivity.
  - vm_compute. reflexivity.
  - intros id sub Hl.
    assert (Hall : forallb (fun e => match @evaluateFilterTree ToyReflection.toy_reflection (sub_filter e.2)
      ToyReflection.peers_message (Some sample_snapshot) with Ok _ => true | _ => false end)
      (map_to_list (live sample_manager sample_now)) = true) by (vm_compute; reflexivity).
    rewrite forallb_forall in Hall. specialize (Hall (id, sub)). cbn [snd] in Hall.
    destruct (evaluateFilterTree _ _ _) as [b| | |]; [by exists b|..]; exfalso;
      discriminate Hall; by apply list_elem_of_In, elem_of_map_to_list.
  - exists calls, s'. rewrite Hp.
    assert (Hv : match @publish ToyReflection.toy_reflection x86_math sample_manager sample_record sample_deliver
      (Some sample_snapshot) sample_now with
      | Ok (st, _, s0) => st = mkStats 2 1 0 1 /\ subscriptionCount s0 = 1%nat | _ => False end)
      by (vm_compute; done).
    rewrite Hp in Hv. destruct Hv as [-> Hv]. done.
Defined.

Lemma subscription_lifecycle_witness :
  exists reply s', @subscribe x86_math (SubscriptionManager_new (mkGUID 9 9)) (mkGUID 1 1) (mkGUID 7 7)
      sample_request sample_now = (reply, s')
    /\ LogSubscribeReply.status reply = LOG_SUBSCRIPTION_STATUS_ACCEPTED
    /\ (unsubscribe s' (mkGUID 7 7) (LogSubscribeReply.subscription_id reply)).2
       = SubscriptionManager_new (mkGUID 9 9).
Proof.
  destruct (@subscribe x86_math (SubscriptionManager_new (mkGUID 9 9)) (mkGUID 1 1) (mkGUID 7 7)
      sample_request sample_now) as [reply s'] eqn:Hs.
  assert (Hok : LogSubscribeReply.status reply = LOG_SUBSCRIPTION_STATUS_ACCEPTED)
    by (injection Hs as <- <-; reflexivity).
  exists reply, s'. split; [done|]. split; [exact Hok|].
  destruct (@subscription_lifecycle x86_math _ _ _ _ _ _ _ Hs) as (_ & Hu & _).
  - split; split; cbn; lia.
  - reflexivity.
  - exact Hok.
  - destruct (unsubscribe s' _ _) as [answer s'']. exact (proj2 Hu).
Defined.
