(* ===== verification/AesNegotiation.v ===== *)
(** * common/node.cpp: negotiation of AES keys between nodes

    The part of [RSPNode] that agrees on symmetric keys with peers: the pending
    and the active negotiation per peer, the three protocol messages, the error
    message, expiry.  The node's own id is the parameter [local]; the clock, the
    random key id, the generated ephemeral key and the answer of the output
    queue are arguments of the operations that use them; the messages handed to
    [pushOutputMessage] are part of every result.  Elliptic-curve Diffie-Hellman
    belongs to the cryptographic library: it is the class [KeyAgreement]. *)

From S2P Require Import Prelude BaseTypes Proto GuidBytes KeyPair MessageHash Signing DateTimes.

Definition KEY_NEGOTIATION_ALGORITHM_P256_SHA256_AES256 : Enum := 1.
Definition KEY_NEGOTIATION_ERROR_INVALID_REQUEST : Enum := 1.
Definition KEY_NEGOTIATION_ERROR_UNSUPPORTED_ALGORITHM : Enum := 2.
Definition KEY_NEGOTIATION_ERROR_PAIR_NEGOTIATION_EXISTS : Enum := 3.
Definition KEY_NEGOTIATION_ERROR_PAIR_KEY_EXISTS : Enum := 4.
Definition KEY_NEGOTIATION_ERROR_KEY_LIMIT_REACHED : Enum := 5.
Definition KEY_NEGOTIATION_ERROR_UNKNOWN_KEY : Enum := 6.
Definition KEY_NEGOTIATION_ERROR_KEY_INCORRECT : Enum := 7.
Definition KEY_NEGOTIATION_ERROR_EXPIRED : Enum := 8.

(** ** Diffie-Hellman *)
Class KeyAgreement (C : Crypto) := {
  (** [EVP_PKEY_derive] of a private and a peer's public key; [None] on failure *)
  ecdh : Key -> Key -> option bytes }.

(** Two P-256 keys that hold their private halves derive the same secret, each from the
    other's exported public key. *)
Class KeyAgreementLaws (C : Crypto) (A : KeyAgreement C) := {
  ecdh_agrees : forall k1 k2 p1 p2 q1 q2,
    key_is_p256 k1 = true -> key_is_p256 k2 = true -> key_has_private k1 = true -> key_has_private k2 = true ->
    pem_write k1 = Some p1 -> pem_write k2 = Some p2 -> pem_read p1 = Some q1 -> pem_read p2 = Some q2 ->
    ecdh k1 q2 = ecdh k2 q1 }.

Section AesNegotiation.
Context `{C : Crypto} `{A : !KeyAgreement C} (local : NodeID).

(** ** State *)
Record AesNegotiationLimits := mkAesLimits {
  maxActiveKeys : Z;
  maxPendingNegotiations : Z;
  defaultLifetimeMs : Z;
  minLifetimeMs : Z;
  maxLifetimeMs : Z;
  pendingTimeoutMs : Z }.

Record PendingAesNegotiation := mkPendingAes {
  pending_keyId : bytes;
  ephemeralKeyPair : KeyPair;
  pending_algorithm : Z;
  requestedLifetimeMs : Z;
  pending_expiresAt : DateTime.t }.

Record ActiveAesKey := mkActiveAes {
  active_keyId : bytes;
  keyMaterial : bytes;
  active_algorithm : Z;
  active_expiresAt : DateTime.t }.

Record AesNegotiationState := mkAes {
  limits : AesNegotiationLimits;
  pendingByPeer : gmap NodeID PendingAesNegotiation;
  activeByPeer : gmap NodeID ActiveAesKey }.

(** The state the constructor of the node leaves. *)
Definition default_aes_limits : AesNegotiationLimits :=
  mkAesLimits 64 64 (5 * 60 * 1000) 1000 (60 * 60 * 1000) (15 * 1000).
Definition initial_aes : AesNegotiationState := mkAes default_aes_limits ∅ ∅.

Definition set_pending (s : AesNegotiationState) (m : gmap NodeID PendingAesNegotiation) : AesNegotiationState :=
  mkAes (limits s) m (activeByPeer s).
Definition set_active (s : AesNegotiationState) (m : gmap NodeID ActiveAesKey) : AesNegotiationState :=
  mkAes (limits s) (pendingByPeer s) m.

(** ** Helpers *)
Definition isValidKeyId (keyId : bytes) : bool := Nat.eqb (List.length keyId) 16.

(** [std::clamp] is undefined when the bounds are out of order. *)
Definition std_clamp (v lo hi : Z) : Res Z :=
  if hi <? lo then Undefined else Ok (if v <? lo then lo else if hi <? v then hi else v).

Definition clampLifetimeMs (requested : Z) (l : AesNegotiationLimits) : Res Z :=
  std_clamp (if requested =? 0 then defaultLifetimeMs l else requested) (minLifetimeMs l) (maxLifetimeMs l).

(** An empty secret counts as a failure. *)
Definition deriveSharedSecret (localPrivateKey peerPublicKey : KeyPair) : option bytes :=
  match localPrivateKey, peerPublicKey with
  | Some k, Some p => match ecdh k p with Some [] | None => None | Some secret => Some secret end
  | _, _ => None
  end.

Definition kContext : bytes := bs "rsp-aes-negotiation-v1".

Definition deriveAesKeyMaterial (sharedSecret keyId : bytes) (firstNode secondNode : NodeID) : bytes :=
  let first := toProtoNodeId firstNode in
  let second := toProtoNodeId secondNode in
  let lower := if bytes_leb first second then first else second in
  let upper := if bytes_leb first second then second else first in
  sha256 (sharedSecret ++ keyId ++ lower ++ upper ++ kContext).

Definition addressed (destination : NodeID) (core : CoreMessage) : RSPMessage.t :=
  RSPMessage.set_core (RSPMessage.set_destination (RSPMessage.set_source RSPMessage.empty
    (Some (toProtoNodeId local))) (Some (toProtoNodeId destination))) (Some core).

Definition makeAesKeyDropNotification (destination : NodeID) (keyId reason : bytes) : RSPMessage.t :=
  addressed destination (AesKeyDropNotificationMessage (AesKeyDropNotification.mk (Some keyId) reason)).

Definition makeAesKeyNegotiationError (destination : NodeID) (errorCode : Enum) (keyId : option bytes)
    (errorMessage : string) : RSPMessage.t :=
  addressed destination (AesKeyNegotiationErrorMessage
    (AesKeyNegotiationError.mk errorCode keyId (bs errorMessage))).

(** ** Limits *)
Definition setAesNegotiationLimits (s : AesNegotiationState) (l : AesNegotiationLimits)
    : Res AesNegotiationState :=
  let minimum := if minLifetimeMs l =? 0 then 1 else minLifetimeMs l in
  let maximum := if maxLifetimeMs l <? minimum then minimum else maxLifetimeMs l in
  default ← std_clamp (defaultLifetimeMs l) minimum maximum;
  let timeout := if pendingTimeoutMs l =? 0 then 1 else pendingTimeoutMs l in
  Ok (mkAes (mkAesLimits (maxActiveKeys l) (maxPendingNegotiations l) default minimum maximum timeout)
        (pendingByPeer s) (activeByPeer s)).

(** ** Expiry

    Returns the drop notifications, in the order of the peers. *)
Definition activeAlive (now : DateTime.t) (e : NodeID * ActiveAesKey) : Prop :=
  DateTime.gtb (active_expiresAt e.2) now = true.
Definition pendingAlive (now : DateTime.t) (e : NodeID * PendingAesNegotiation) : Prop :=
  DateTime.gtb (pending_expiresAt e.2) now = true.

#[local] Instance activeAlive_dec now e : Decision (activeAlive now e) := decide (_ = true).
#[local] Instance pendingAlive_dec now e : Decision (pendingAlive now e) := decide (_ = true).

Definition expire (s : AesNegotiationState) (now : DateTime.t) : AesNegotiationState :=
  mkAes (limits s) (filter (pendingAlive now) (pendingByPeer s)) (filter (activeAlive now) (activeByPeer s)).

Definition processExpiredAesKeys (s : AesNegotiationState) (now : DateTime.t)
    : list RSPMessage.t * AesNegotiationState :=
  ((fun e => makeAesKeyDropNotification e.1 (active_keyId e.2) (bs "expired"))
     <$> List.filter (fun e => negb (bool_decide (activeAlive now e))) (in_order (activeByPeer s)),
   expire s now).

(** ** Starting and dropping *)
Definition requestMessage (peer : NodeID) (keyId : bytes) (pk : PublicKey.t) (lifetimeMs : Z) : RSPMessage.t :=
  addressed peer (AesKeyNegotiationRequestMessage (AesKeyNegotiationRequest.mk (Some keyId) (Some pk)
    lifetimeMs KEY_NEGOTIATION_ALGORITHM_P256_SHA256_AES256)).

(** The critical section of [beginAesKeyNegotiation], with its [catch]. *)
Definition begin_locked (s : AesNegotiationState) (peer : NodeID) (requested : Z) (now : DateTime.t)
    (keyId : bytes) (generated : Res KeyPair) : Res (option (RSPMessage.t * AesNegotiationState)) :=
  if bool_decide (is_Some (pendingByPeer s !! peer)) || bool_decide (is_Some (activeByPeer s !! peer)) then Ok None
  else if (maxPendingNegotiations (limits s) =? 0)
          || (maxPendingNegotiations (limits s) <=? Z.of_nat (size (pendingByPeer s))) then Ok None
  else if (maxActiveKeys (limits s) =? 0)
          || (maxActiveKeys (limits s) <=? Z.of_nat (size (activeByPeer s))) then Ok None
  else
    catch_any
      (lifetimeMs ← clampLifetimeMs requested (limits s);
       ephemeral ← generated;
       pk ← publicKey ephemeral;
       Ok (Some (requestMessage peer keyId pk lifetimeMs,
                 set_pending s (<[peer := mkPendingAes keyId ephemeral
                   KEY_NEGOTIATION_ALGORITHM_P256_SHA256_AES256 lifetimeMs
                   (addMilliseconds now (pendingTimeoutMs (limits s)))]> (pendingByPeer s)))))
      (fun _ => Ok None).

Definition beginAesKeyNegotiation (s : AesNegotiationState) (peer : NodeID) (requested : Z)
    (now1 now2 : DateTime.t) (keyId : bytes) (generated : Res KeyPair) (pushed : bool)
    : Res (bool * list RSPMessage.t * AesNegotiationState) :=
  if bool_decide (peer = local) then Ok (false, [], s)
  else
    let '(drops, s1) := processExpiredAesKeys s now1 in
    r ← begin_locked s1 peer requested now2 keyId generated;
    match r with
    | None => Ok (false, drops, s1)
    | Some (request, s2) =>
        if pushed then Ok (true, drops ++ [request], s2)
        else Ok (false, drops ++ [request], set_pending s2 (delete peer (pendingByPeer s2)))
    end.

Definition dropAesKey (s : AesNegotiationState) (peer : NodeID) (reason : bytes) (now : DateTime.t) (pushed : bool)
    : bool * list RSPMessage.t * AesNegotiationState :=
  let '(drops, s1) := processExpiredAesKeys s now in
  let s2 := set_pending s1 (delete peer (pendingByPeer s1)) in
  match activeByPeer s2 !! peer with
  | None => (false, drops, s2)
  | Some key =>
      (pushed,
       drops ++ [makeAesKeyDropNotification peer (active_keyId key) (match reason with [] => bs "local_drop" | _ => reason end)],
       set_active s2 (delete peer (activeByPeer s2)))
  end.

(** ** Observers *)
Definition hasAesKey (s : AesNegotiationState) (peer : NodeID) (now : DateTime.t)
    : bool * list RSPMessage.t * AesNegotiationState :=
  let '(drops, s1) := processExpiredAesKeys s now in (bool_decide (is_Some (activeByPeer s1 !! peer)), drops, s1).

Definition aesKeyMaterialForPeer (s : AesNegotiationState) (peer : NodeID) (now : DateTime.t)
    : option bytes * list RSPMessage.t * AesNegotiationState :=
  let '(drops, s1) := processExpiredAesKeys s now in
  (match activeByPeer s1 !! peer with Some key => Some (keyMaterial key) | None => None end, drops, s1).

Record AesNegotiatedKeyInfo := mkKeyInfo {
  info_keyId : GUID; info_peerNodeId : NodeID; info_algorithm : Z; info_expiresAt : DateTime.t }.

Definition aesKeyInfo (s : AesNegotiationState) (peer : NodeID) (now : DateTime.t)
    : option AesNegotiatedKeyInfo * list RSPMessage.t * AesNegotiationState :=
  let '(drops, s1) := processExpiredAesKeys s now in
  (match activeByPeer s1 !! peer with
   | Some key =>
       if isValidKeyId (active_keyId key)
       then Some (mkKeyInfo (mkGUID (memcpy_to_u64 (active_keyId key)) (memcpy_to_u64 (drop 8 (active_keyId key))))
                    peer (active_algorithm key) (active_expiresAt key))
       else None
   | None => None
   end, drops, s1).

(** ** Received messages *)
Definition handleAesKeyNegotiationError (s : AesNegotiationState) (message : RSPMessage.t) : AesNegotiationState :=
  match RSPMessage.core_message message with
  | Some (AesKeyNegotiationErrorMessage error) =>
      match senderNodeIdFromMessage message, AesKeyNegotiationError.key_id error with
      | Some sender, Some keyId =>
          if negb (isValidKeyId keyId) then s
          else
            let s1 :=
              match pendingByPeer s !! sender with
              | Some pending =>
                  if bool_decide (pending_keyId pending = keyId)
                  then set_pending s (delete sender (pendingByPeer s)) else s
              | None => s
              end in
            let code := AesKeyNegotiationError.error_code error in
            if (code =? KEY_NEGOTIATION_ERROR_KEY_INCORRECT) || (code =? KEY_NEGOTIATION_ERROR_UNKNOWN_KEY)
               || (code =? KEY_NEGOTIATION_ERROR_EXPIRED)
            then match activeByPeer s1 !! sender with
                 | Some key =>
                     if bool_decide (active_keyId key = keyId)
                     then set_active s1 (delete sender (activeByPeer s1)) else s1
                 | None => s1
                 end
            else s1
      | _, _ => s
      end
  | _ => s
  end.

(** The [try] block of a request: the key is stored before the reply is built. *)
Definition acceptRequest (s : AesNegotiationState) (sender : NodeID) (request : AesKeyNegotiationRequest.t)
    (keyId : bytes) (pk : PublicKey.t) (now : DateTime.t) (generated : Res KeyPair)
    : Res (RSPMessage.t * AesNegotiationState) :=
  let invalid := makeAesKeyNegotiationError sender KEY_NEGOTIATION_ERROR_INVALID_REQUEST (Some keyId)
                   "invalid AES key negotiation public key" in
  catch_any
    (peerEphemeralKey ← fromPublicKey pk;
     responderEphemeralKey ← generated;
     match deriveSharedSecret responderEphemeralKey peerEphemeralKey with
     | None => Ok (makeAesKeyNegotiationError sender KEY_NEGOTIATION_ERROR_KEY_INCORRECT (Some keyId)
                     "failed to derive shared AES key material", s)
     | Some sharedSecret =>
         acceptedLifetimeMs ← clampLifetimeMs (AesKeyNegotiationRequest.requested_lifetime_ms request) (limits s);
         let active := mkActiveAes keyId (deriveAesKeyMaterial sharedSecret keyId local sender)
                         (wrap 32 (AesKeyNegotiationRequest.algorithm request)) (addMilliseconds now acceptedLifetimeMs) in
         let s' := set_active s (<[sender := active]> (activeByPeer s)) in
         catch_any
           (replyKey ← publicKey responderEphemeralKey;
            Ok (addressed sender (AesKeyNegotiationReplyMessage (AesKeyNegotiationReply.mk (Some keyId)
                  (Some replyKey) acceptedLifetimeMs (AesKeyNegotiationRequest.algorithm request))), s'))
           (fun _ => Ok (invalid, s'))
     end)
    (fun _ => Ok (invalid, s)).

Definition handleRequest (s : AesNegotiationState) (sender : NodeID) (request : AesKeyNegotiationRequest.t)
    (now : DateTime.t) (generated : Res KeyPair) : Res (RSPMessage.t * AesNegotiationState) :=
  match AesKeyNegotiationRequest.key_id request, AesKeyNegotiationRequest.ephemeral_public_key request with
  | Some keyId, Some pk =>
      if negb (isValidKeyId keyId) then
        Ok (makeAesKeyNegotiationError sender KEY_NEGOTIATION_ERROR_INVALID_REQUEST (Some keyId)
              "invalid AES key negotiation request", s)
      else if negb (AesKeyNegotiationRequest.algorithm request =? KEY_NEGOTIATION_ALGORITHM_P256_SHA256_AES256) then
        Ok (makeAesKeyNegotiationError sender KEY_NEGOTIATION_ERROR_UNSUPPORTED_ALGORITHM (Some keyId)
              "unsupported AES key negotiation algorithm", s)
      else if bool_decide (is_Some (pendingByPeer s !! sender)) then
        Ok (makeAesKeyNegotiationError sender KEY_NEGOTIATION_ERROR_PAIR_NEGOTIATION_EXISTS (Some keyId)
              "peer already has a pending AES negotiation", s)
      else if bool_decide (is_Some (activeByPeer s !! sender)) then
        Ok (makeAesKeyNegotiationError sender KEY_NEGOTIATION_ERROR_PAIR_KEY_EXISTS (Some keyId)
              "peer already has an active AES key", s)
      else if (maxActiveKeys (limits s) =? 0) || (maxActiveKeys (limits s) <=? Z.of_nat (size (activeByPeer s))) then
        Ok (makeAesKeyNegotiationError sender KEY_NEGOTIATION_ERROR_KEY_LIMIT_REACHED (Some keyId)
              "AES key capacity reached", s)
      else acceptRequest s sender request keyId pk now generated
  | keyId, _ =>
      Ok (makeAesKeyNegotiationError sender KEY_NEGOTIATION_ERROR_INVALID_REQUEST keyId
            "invalid AES key negotiation request", s)
  end.

(** The [try] block of a reply. *)
Definition acceptReply (s : AesNegotiationState) (sender : NodeID) (reply : AesKeyNegotiationReply.t)
    (pending : PendingAesNegotiation) (keyId : bytes) (pk : PublicKey.t) (now : DateTime.t)
    : Res (option RSPMessage.t * AesNegotiationState) :=
  catch_any
    (peerEphemeralKey ← fromPublicKey pk;
     match deriveSharedSecret (ephemeralKeyPair pending) peerEphemeralKey with
     | None => Ok (Some (makeAesKeyNegotiationError sender KEY_NEGOTIATION_ERROR_KEY_INCORRECT (Some keyId)
                     "failed to derive shared AES key material"), set_pending s (delete sender (pendingByPeer s)))
     | Some sharedSecret =>
         acceptedLifetimeMs ←
           clampLifetimeMs (if AesKeyNegotiationReply.accepted_lifetime_ms reply =? 0
                            then requestedLifetimeMs pending
                            else AesKeyNegotiationReply.accepted_lifetime_ms reply) (limits s);
         let active := mkActiveAes (pending_keyId pending) (deriveAesKeyMaterial sharedSecret keyId local sender)
                         (wrap 32 (AesKeyNegotiationReply.algorithm reply)) (addMilliseconds now acceptedLifetimeMs) in
         Ok (None, mkAes (limits s) (delete sender (pendingByPeer s)) (<[sender := active]> (activeByPeer s)))
     end)
    (fun _ => Ok (Some (makeAesKeyNegotiationError sender KEY_NEGOTIATION_ERROR_INVALID_REQUEST (Some keyId)
                    "invalid AES key negotiation public key"), s)).

Definition handleReply (s : AesNegotiationState) (sender : NodeID) (reply : AesKeyNegotiationReply.t)
    (now : DateTime.t) : Res (option RSPMessage.t * AesNegotiationState) :=
  match AesKeyNegotiationReply.key_id reply, AesKeyNegotiationReply.ephemeral_public_key reply with
  | Some keyId, Some pk =>
      if negb (isValidKeyId keyId) then
        Ok (Some (makeAesKeyNegotiationError sender KEY_NEGOTIATION_ERROR_INVALID_REQUEST (Some keyId)
              "invalid AES key negotiation reply"), s)
      else if negb (AesKeyNegotiationReply.algorithm reply =? KEY_NEGOTIATION_ALGORITHM_P256_SHA256_AES256) then
        Ok (Some (makeAesKeyNegotiationError sender KEY_NEGOTIATION_ERROR_UNSUPPORTED_ALGORITHM (Some keyId)
              "unsupported AES key negotiation algorithm"), s)
      else
        match pendingByPeer s !! sender with
        | None =>
            Ok (Some (makeAesKeyNegotiationError sender KEY_NEGOTIATION_ERROR_UNKNOWN_KEY (Some keyId)
                  "no pending AES negotiation for peer"), s)
        | Some pending =>
            if negb (bool_decide (pending_keyId pending = keyId)) then
              Ok (Some (makeAesKeyNegotiationError sender KEY_NEGOTIATION_ERROR_KEY_INCORRECT (Some keyId)
                    "reply key id does not match the pending negotiation"), s)
            else if (maxActiveKeys (limits s) =? 0)
                    || (negb (bool_decide (is_Some (activeByPeer s !! sender)))
                        && (maxActiveKeys (limits s) <=? Z.of_nat (size (activeByPeer s)))) then
              Ok (Some (makeAesKeyNegotiationError sender KEY_NEGOTIATION_ERROR_KEY_LIMIT_REACHED (Some keyId)
                    "AES key capacity reached"), set_pending s (delete sender (pendingByPeer s)))
            else acceptReply s sender reply pending keyId pk now
        end
  | keyId, _ =>
      Ok (Some (makeAesKeyNegotiationError sender KEY_NEGOTIATION_ERROR_INVALID_REQUEST keyId
            "invalid AES key negotiation reply"), s)
  end.

Definition handleDrop (s : AesNegotiationState) (sender : NodeID) (notification : AesKeyDropNotification.t)
    : option RSPMessage.t * AesNegotiationState :=
  let keyId := AesKeyDropNotification.key_id notification in
  match keyId with
  | Some id =>
      if negb (isValidKeyId id) then
        (Some (makeAesKeyNegotiationError sender KEY_NEGOTIATION_ERROR_INVALID_REQUEST keyId
           "invalid AES key drop notification"), s)
      else
        let '(reply, s1) :=
          match activeByPeer s !! sender with
          | None => (Some (makeAesKeyNegotiationError sender KEY_NEGOTIATION_ERROR_UNKNOWN_KEY (Some id)
                       "AES key not found for peer"), s)
          | Some key =>
              if negb (bool_decide (active_keyId key = id)) then
                (Some (makeAesKeyNegotiationError sender KEY_NEGOTIATION_ERROR_KEY_INCORRECT (Some id)
                   "AES key id mismatch for peer"), s)
              else (None, set_active s (delete sender (activeByPeer s)))
          end in
        let s2 :=
          match pendingByPeer s1 !! sender with
          | Some pending =>
              if bool_decide (pending_keyId pending = id) then set_pending s1 (delete sender (pendingByPeer s1)) else s1
          | None => s1
          end in
        (reply, s2)
  | None =>
      (Some (makeAesKeyNegotiationError sender KEY_NEGOTIATION_ERROR_INVALID_REQUEST None
         "invalid AES key drop notification"), s)
  end.

(** [false] for any other message. *)
Definition handleAesNegotiationMessage (s : AesNegotiationState) (message : RSPMessage.t)
    (now1 now2 : DateTime.t) (generated : Res KeyPair) : Res (bool * list RSPMessage.t * AesNegotiationState) :=
  let '(drops, s1) := processExpiredAesKeys s now1 in
  let sent reply := drops ++ match reply with Some r => [r] | None => [] end in
  match RSPMessage.core_message message with
  | Some (AesKeyNegotiationErrorMessage _) => Ok (true, drops, handleAesKeyNegotiationError s1 message)
  | Some (AesKeyNegotiationRequestMessage request) =>
      match senderNodeIdFromMessage message with
      | None => Ok (true, drops, s1)
      | Some sender => '(reply, s2) ← handleRequest s1 sender request now2 generated; Ok (true, drops ++ [reply], s2)
      end
  | Some (AesKeyNegotiationReplyMessage reply) =>
      match senderNodeIdFromMessage message with
      | None => Ok (true, drops, s1)
      | Some sender => '(answer, s2) ← handleReply s1 sender reply now2; Ok (true, sent answer, s2)
      end
  | Some (AesKeyDropNotificationMessage notification) =>
      match senderNodeIdFromMessage message with
      | None => Ok (true, drops, s1)
      | Some sender => let '(answer, s2) := handleDrop s1 sender notification in Ok (true, sent answer, s2)
      end
  | _ => Ok (false, [], s)
  end.

(** ** The invariant

    [cap] bounds every limit that is ever configured. *)
Definition limits_ok (cap : Z) (l : AesNegotiationLimits) : Prop :=
  1 <= minLifetimeMs l <= maxLifetimeMs l /\ minLifetimeMs l <= defaultLifetimeMs l <= maxLifetimeMs l
  /\ 1 <= pendingTimeoutMs l /\ maxActiveKeys l <= cap /\ maxPendingNegotiations l <= cap.

Definition pending_ok (p : PendingAesNegotiation) : Prop :=
  List.length (pending_keyId p) = 16%nat /\ isValid (ephemeralKeyPair p) = true.

Definition active_ok (k : ActiveAesKey) : Prop :=
  List.length (active_keyId k) = 16%nat /\ List.length (keyMaterial k) = 32%nat
  /\ active_algorithm k = KEY_NEGOTIATION_ALGORITHM_P256_SHA256_AES256.

Record aes_inv (cap : Z) (s : AesNegotiationState) : Prop := {
  aes_limits : limits_ok cap (limits s);
  aes_disjoint : forall peer, pendingByPeer s !! peer = None \/ activeByPeer s !! peer = None;
  aes_pending : map_Forall (fun _ => pending_ok) (pendingByPeer s);
  aes_active : map_Forall (fun _ => active_ok) (activeByPeer s);
  aes_capacity : Z.of_nat (size (activeByPeer s)) <= cap /\ Z.of_nat (size (pendingByPeer s)) <= cap }.

(** Two maps that only lose entries. *)
Lemma aes_inv_shrink cap s p a :
  aes_inv cap s -> p ⊆ pendingByPeer s -> a ⊆ activeByPeer s -> aes_inv cap (mkAes (limits s) p a).
Proof.
  intros [Hl Hd Hp Ha [Hc1 Hc2]] Sp Sa. split; cbn [limits pendingByPeer activeByPeer]; [done|..].
  - intros peer. destruct (Hd peer) as [H|H]; [left|right]; by eapply lookup_weaken_None.
  - intros k x Hx. eapply Hp, lookup_weaken; eauto.
  - intros k x Hx. eapply Ha, lookup_weaken; eauto.
  - pose proof (map_subseteq_size _ _ Sp). pose proof (map_subseteq_size _ _ Sa). lia.
Qed.

Lemma aes_inv_expire cap s now : aes_inv cap s -> aes_inv cap (expire s now).
Proof. intros. apply aes_inv_shrink; [done|apply map_filter_subseteq..]. Qed.

Lemma aes_inv_drop_pending cap s p : aes_inv cap s -> aes_inv cap (set_pending s (delete p (pendingByPeer s))).
Proof. intros. apply aes_inv_shrink; [done|apply delete_subseteq|done]. Qed.

Lemma aes_inv_drop_active cap s p : aes_inv cap s -> aes_inv cap (set_active s (delete p (activeByPeer s))).
Proof. intros. apply aes_inv_shrink; [done|done|apply delete_subseteq]. Qed.

Lemma size_insert_lt {V} (m : gmap NodeID V) k v n : Z.of_nat (size m) < n -> Z.of_nat (size (<[k := v]> m)) <= n.
Proof.
  intros. destruct (m !! k) as [x|] eqn:Hk.
  - rewrite map_size_insert_Some by (by exists x). lia.
  - rewrite map_size_insert_None by done. lia.
Qed.

Lemma aes_inv_add_pending cap s peer x :
  aes_inv cap s -> activeByPeer s !! peer = None ->
  Z.of_nat (size (pendingByPeer s)) < maxPendingNegotiations (limits s) -> pending_ok x ->
  aes_inv cap (set_pending s (<[peer := x]> (pendingByPeer s))).
Proof.
  intros [Hl Hd Hp Ha [Hc1 Hc2]] Hn Hs Hx. pose proof Hl as (_ & _ & _ & _ & Hcap).
  split; cbn [set_pending limits pendingByPeer activeByPeer]; try done.
  - intros q. destruct (decide (q = peer)) as [->|Hq]; [by right|]. rewrite lookup_insert_ne by done. apply Hd.
  - by apply map_Forall_insert_2.
  - split; [done|]. apply size_insert_lt. lia.
Qed.

Lemma aes_inv_add_active cap s peer x :
  aes_inv cap s -> pendingByPeer s !! peer = None ->
  Z.of_nat (size (activeByPeer s)) < maxActiveKeys (limits s) -> active_ok x ->
  aes_inv cap (set_active s (<[peer := x]> (activeByPeer s))).
Proof.
  intros [Hl Hd Hp Ha [Hc1 Hc2]] Hn Hs Hx. pose proof Hl as (_ & _ & _ & Hcap & _).
  split; cbn [set_active limits pendingByPeer activeByPeer]; try done.
  - intros q. destruct (decide (q = peer)) as [->|Hq]; [by left|]. rewrite lookup_insert_ne by done. apply Hd.
  - by apply map_Forall_insert_2.
  - split; [|done]. apply size_insert_lt. lia.
Qed.

Lemma std_clamp_ok v lo hi : lo <= hi -> exists r, std_clamp v lo hi = Ok r /\ lo <= r <= hi.
Proof.
  intros. unfold std_clamp. destruct (Z.ltb_spec hi lo); [lia|].
  destruct (Z.ltb_spec v lo); [eexists; split; [done|lia]|].
  destruct (Z.ltb_spec hi v); eexists; (split; [done|lia]).
Qed.

Lemma clampLifetimeMs_ok cap r l :
  limits_ok cap l -> exists t, clampLifetimeMs r l = Ok t /\ minLifetimeMs l <= t <= maxLifetimeMs l.
Proof. intros (? & _). apply std_clamp_ok. lia. Qed.

Lemma isValidKeyId_spec id : isValidKeyId id = true -> List.length id = 16%nat.
Proof. apply Nat.eqb_eq. Qed.

Lemma fromPublicKey_valid pk k : fromPublicKey pk = Ok k -> isValid k = true.
Proof.
  unfold fromPublicKey, KeyPair_of_key. destruct (negb _); [done|]. destruct (PublicKey.public_key pk); [done|].
  destruct (pem_read _) as [key|]; [|done]. destruct (verifyP256 (Some key)) as [[]| | |]; try done. cbn.
  by intros [= <-].
Qed.

(** What a handler does apart from the invariant: it changes nothing but the
    entries of one peer. *)
Definition touches (peer : NodeID) (s s' : AesNegotiationState) : Prop :=
  limits s' = limits s
  /\ forall q, q <> peer -> pendingByPeer s' !! q = pendingByPeer s !! q /\ activeByPeer s' !! q = activeByPeer s !! q.

Lemma touches_refl peer s : touches peer s s.
Proof. by split. Qed.

Lemma touches_drop_pending peer s : touches peer s (set_pending s (delete peer (pendingByPeer s))).
Proof. split; [done|]. intros q Hq. cbn. by rewrite lookup_delete_ne. Qed.

Lemma touches_drop_active peer s : touches peer s (set_active s (delete peer (activeByPeer s))).
Proof. split; [done|]. intros q Hq. cbn. by rewrite lookup_delete_ne. Qed.

Lemma touches_add_active peer s x : touches peer s (set_active s (<[peer := x]> (activeByPeer s))).
Proof. split; [done|]. intros q Hq. cbn. by rewrite lookup_insert_ne. Qed.

Lemma touches_add_pending peer s x : touches peer s (set_pending s (<[peer := x]> (pendingByPeer s))).
Proof. split; [done|]. intros q Hq. cbn. by rewrite lookup_insert_ne. Qed.

Lemma touches_trans peer s1 s2 s3 : touches peer s1 s2 -> touches peer s2 s3 -> touches peer s1 s3.
Proof.
  intros [L1 T1] [L2 T2]. split; [congruence|]. intros q Hq. destruct (T1 q Hq), (T2 q Hq). split; congruence.
Qed.
#[local] Hint Resolve touches_refl touches_drop_pending touches_drop_active touches_add_active
  touches_add_pending aes_inv_drop_pending aes_inv_drop_active : core.

(** A handler's outcome: it returns, keeps the invariant and touches one peer. *)
Definition handled {X} (cap : Z) (peer : NodeID) (s : AesNegotiationState) (r : Res (X * AesNegotiationState)) : Prop :=
  exists x s', r = Ok (x, s') /\ aes_inv cap s' /\ touches peer s s'.

Lemma handled_same {X} cap peer s (x : X) : aes_inv cap s -> handled cap peer s (Ok (x, s)).
Proof. intros. exists x, s. eauto. Qed.
#[local] Hint Resolve handled_same : core.

(** A [try] block whose body returns or throws. *)
Lemma handled_catch {X} cap peer s (m : Res (X * AesNegotiationState)) x0 :
  aes_inv cap s -> (handled cap peer s m \/ exists e, m = Throw e) ->
  handled cap peer s (catch_any m (fun _ => Ok (x0, s))).
Proof. intros I [(x & s' & -> & H)|[e ->]]; [by exists x, s'|by apply handled_same]. Qed.

Lemma defined_cases {X} (m : Res X) : defined m -> (exists x, m = Ok x) \/ (exists e, m = Throw e).
Proof. destruct m; cbn; eauto; done. Qed.

Lemma acceptRequest_handled `{!CryptoLaws C} cap s sender request keyId pk now generated :
  aes_inv cap s -> List.length keyId = 16%nat -> pendingByPeer s !! sender = None ->
  AesKeyNegotiationRequest.algorithm request = KEY_NEGOTIATION_ALGORITHM_P256_SHA256_AES256 ->
  Z.of_nat (size (activeByPeer s)) < maxActiveKeys (limits s) -> defined generated ->
  handled cap sender s (acceptRequest s sender request keyId pk now generated).
Proof.
  intros I Hid Hp Halg Hcap Hg. unfold acceptRequest. apply handled_catch; [done|].
  destruct (defined_cases _ (fromPublicKey_defined pk)) as [[k ->]|[e ->]]; cbn [mbind res_bind]; [|by right; eexists].
  destruct (defined_cases _ Hg) as [[eph ->]|[e ->]]; cbn [mbind res_bind]; [|by right; eexists]. left.
  destruct (deriveSharedSecret eph k) as [secret|]; [|by apply handled_same].
  destruct (clampLifetimeMs_ok cap (AesKeyNegotiationRequest.requested_lifetime_ms request) (limits s)
    (aes_limits cap s I)) as (t & -> & _). cbn [mbind res_bind].
  set (s' := set_active s _).
  assert (I' : aes_inv cap s').
  { apply aes_inv_add_active; try done. split; [done|]. split; [apply sha256_length|]. cbn. by rewrite Halg. }
  destruct (defined_cases _ (publicKey_defined eph)) as [[rk ->]|[e ->]]; cbn [mbind res_bind catch_any];
    do 2 eexists; (split; [reflexivity|]); split; try done; apply touches_add_active.
Qed.

Lemma handleRequest_handled `{!CryptoLaws C} cap s sender request now generated :
  aes_inv cap s -> defined generated -> handled cap sender s (handleRequest s sender request now generated).
Proof.
  intros I Hg. unfold handleRequest.
  destruct (AesKeyNegotiationRequest.key_id request) as [keyId|]; [|by apply handled_same].
  destruct (AesKeyNegotiationRequest.ephemeral_public_key request) as [pk|]; [|by apply handled_same].
  destruct (isValidKeyId keyId) eqn:Hid; cbn [negb]; [|by apply handled_same].
  destruct (Z.eqb_spec (AesKeyNegotiationRequest.algorithm request) KEY_NEGOTIATION_ALGORITHM_P256_SHA256_AES256)
    as [Ha|]; cbn [negb]; [|by apply handled_same].
  case_bool_decide as Hp; [by apply handled_same|]. case_bool_decide as Hac; [by apply handled_same|].
  destruct (_ || _) eqn:Hc; [by apply handled_same|]. apply orb_false_iff in Hc as [_ Hc].
  apply acceptRequest_handled; try done; [by apply isValidKeyId_spec|by apply eq_None_not_Some|lia].
Qed.

Lemma acceptReply_handled `{!CryptoLaws C} cap s sender reply pending keyId pk now :
  aes_inv cap s -> List.length keyId = 16%nat -> pendingByPeer s !! sender = Some pending ->
  AesKeyNegotiationReply.algorithm reply = KEY_NEGOTIATION_ALGORITHM_P256_SHA256_AES256 ->
  Z.of_nat (size (activeByPeer s)) < maxActiveKeys (limits s) ->
  handled cap sender s (acceptReply s sender reply pending keyId pk now).
Proof.
  intros I Hid Hp Halg Hcap. unfold acceptReply. apply handled_catch; [done|].
  destruct (defined_cases _ (fromPublicKey_defined pk)) as [[k ->]|[e ->]]; cbn [mbind res_bind]; [|by right; eexists].
  left. destruct (deriveSharedSecret (ephemeralKeyPair pending) k) as [secret|].
  2:{ do 2 eexists. split; [reflexivity|]. auto. }
  match goal with |- context [clampLifetimeMs ?r ?l] =>
    destruct (clampLifetimeMs_ok cap r l (aes_limits cap s I)) as (t & -> & _) end. cbn [mbind res_bind].
  do 2 eexists. split; [reflexivity|]. set (s1 := set_pending s (delete sender (pendingByPeer s))).
  assert (I1 : aes_inv cap s1) by (by apply aes_inv_drop_pending). split.
  - change (aes_inv cap (set_active s1 (<[sender := mkActiveAes (pending_keyId pending)
      (deriveAesKeyMaterial secret keyId local sender) (wrap 32 (AesKeyNegotiationReply.algorithm reply))
      (addMilliseconds now t)]> (activeByPeer s1)))).
    apply aes_inv_add_active; try done; [apply lookup_delete_eq|]. split_and!; cbn.
    + apply (aes_pending cap s I sender pending Hp).
    + apply sha256_length.
    + by rewrite Halg.
  - eapply touches_trans; [apply touches_drop_pending|]. apply (touches_add_active sender s1).
Qed.

Lemma handleReply_handled `{!CryptoLaws C} cap s sender reply now :
  aes_inv cap s -> handled cap sender s (handleReply s sender reply now).
Proof.
  intros I. unfold handleReply.
  destruct (AesKeyNegotiationReply.key_id reply) as [keyId|]; [|by apply handled_same].
  destruct (AesKeyNegotiationReply.ephemeral_public_key reply) as [pk|]; [|by apply handled_same].
  destruct (isValidKeyId keyId) eqn:Hid; cbn [negb]; [|by apply handled_same].
  destruct (Z.eqb_spec (AesKeyNegotiationReply.algorithm reply) KEY_NEGOTIATION_ALGORITHM_P256_SHA256_AES256)
    as [Ha|]; cbn [negb]; [|by apply handled_same].
  destruct (pendingByPeer s !! sender) as [pending|] eqn:Hp; [|by apply handled_same].
  case_bool_decide; cbn [negb]; [|by apply handled_same].
  destruct (aes_disjoint cap s I sender) as [Hx|Hx]; [by rewrite Hp in Hx|].
  rewrite (bool_decide_eq_false_2 (is_Some _)) by (by rewrite Hx; intros [? ?]). cbn [negb andb].
  destruct (_ || _) eqn:Hc.
  { do 2 eexists. split; [reflexivity|]. auto. }
  apply orb_false_iff in Hc as [_ Hc].
  apply acceptReply_handled; try done; [by apply isValidKeyId_spec|lia].
Qed.

Lemma handleDrop_handled cap s sender n : aes_inv cap s -> handled cap sender s (Ok (handleDrop s sender n)).
Proof.
  intros I. unfold handleDrop. destruct (AesKeyDropNotification.key_id n) as [id|]; [|by apply handled_same].
  destruct (isValidKeyId id); cbn [negb]; [|by apply handled_same].
  assert (Hd : forall t, aes_inv cap t -> touches sender s t ->
    aes_inv cap (match pendingByPeer t !! sender with
                 | Some pending => if bool_decide (pending_keyId pending = id)
                                   then set_pending t (delete sender (pendingByPeer t)) else t
                 | None => t end)
    /\ touches sender s (match pendingByPeer t !! sender with
                 | Some pending => if bool_decide (pending_keyId pending = id)
                                   then set_pending t (delete sender (pendingByPeer t)) else t
                 | None => t end)).
  { intros t It Tt. repeat case_match; auto. split; [by apply aes_inv_drop_pending|].
    eapply touches_trans; [exact Tt|apply touches_drop_pending]. }
  destruct (activeByPeer s !! sender) as [key|]; [case_bool_decide; cbn [negb]|];
    do 2 eexists; (split; [reflexivity|]); apply Hd; auto.
Qed.

Lemma handleError_handled cap s m :
  aes_inv cap s -> exists peer, aes_inv cap (handleAesKeyNegotiationError s m)
    /\ touches (default peer (senderNodeIdFromMessage m)) s (handleAesKeyNegotiationError s m).
Proof.
  intros I. exists local. unfold handleAesKeyNegotiationError.
  destruct (RSPMessage.core_message m) as [[]|]; auto. destruct (senderNodeIdFromMessage m) as [sender|]; auto.
  destruct (AesKeyNegotiationError.key_id _) as [keyId|]; auto. destruct (negb _); auto. cbn [default].
  assert (Hd : forall t code keyId, aes_inv cap t -> touches sender s t ->
    aes_inv cap (if code : bool then match activeByPeer t !! sender with
       | Some key => if bool_decide (active_keyId key = keyId) then set_active t (delete sender (activeByPeer t)) else t
       | None => t end else t)
    /\ touches sender s (if code : bool then match activeByPeer t !! sender with
       | Some key => if bool_decide (active_keyId key = keyId) then set_active t (delete sender (activeByPeer t)) else t
       | None => t end else t)).
  { intros t code k It Tt. repeat case_match; auto. split; [by apply aes_inv_drop_active|].
    eapply touches_trans; [exact Tt|apply touches_drop_active]. }
  destruct (pendingByPeer s !! sender) as [p|]; [case_bool_decide|]; apply Hd; auto.
Qed.

Lemma handleMessage_handled `{!CryptoLaws C} cap s m now1 now2 generated :
  aes_inv cap s -> defined generated ->
  exists b out s', handleAesNegotiationMessage s m now1 now2 generated = Ok (b, out, s') /\ aes_inv cap s'
    /\ (b = false -> out = [] /\ s' = s) /\ (b = true -> match senderNodeIdFromMessage m with
        | Some sender => touches sender (expire s now1) s' | None => s' = expire s now1 end).
Proof.
  intros I Hg. unfold handleAesNegotiationMessage, processExpiredAesKeys.
  set (drops := _ <$> _). pose proof (aes_inv_expire cap s now1 I) as I1. set (s1 := expire s now1) in *.
  destruct (RSPMessage.core_message m) as [core|] eqn:Hcore; [destruct core|];
    try (exists false, [], s; by split_and!).
  - destruct (senderNodeIdFromMessage m) as [sender|]; [|exists true, drops, s1; by split_and!].
    destruct (handleRequest_handled cap s1 sender m0 now2 generated I1 Hg) as (x & s' & -> & I' & T).
    cbn [mbind res_bind]. do 3 eexists. by split_and!.
  - destruct (senderNodeIdFromMessage m) as [sender|]; [|exists true, drops, s1; by split_and!].
    destruct (handleReply_handled cap s1 sender m0 now2 I1) as (x & s' & -> & I' & T).
    cbn [mbind res_bind]. do 3 eexists. by split_and!.
  - destruct (senderNodeIdFromMessage m) as [sender|]; [|exists true, drops, s1; by split_and!].
    destruct (handleDrop_handled cap s1 sender m0 I1) as (x & s' & E & I' & T). injection E as ->.
    do 3 eexists. by split_and!.
  - destruct (handleError_handled cap s1 m I1) as (p & I' & T). do 3 eexists. split_and!; [done|done|done|].
    intros _. destruct (senderNodeIdFromMessage m) as [sender|] eqn:Hs; [exact T|].
    unfold handleAesKeyNegotiationError. by rewrite Hcore, Hs.
Qed.

Lemma begin_locked_handled cap s peer requested now keyId generated :
  aes_inv cap s -> List.length keyId = 16%nat -> (forall k, generated = Ok k -> isValid k = true) -> defined generated ->
  exists r, begin_locked s peer requested now keyId generated = Ok r
    /\ match r with Some (_, s') => aes_inv cap s' /\ touches peer s s' | None => True end.
Proof.
  intros I Hid Hv Hg. unfold begin_locked.
  destruct (bool_decide (is_Some (pendingByPeer s !! peer)) || bool_decide (is_Some (activeByPeer s !! peer)))
    eqn:H1; [by exists None|]. apply orb_false_iff in H1 as [_ H1%bool_decide_eq_false_1%eq_None_not_Some].
  destruct (_ || (maxPendingNegotiations (limits s) <=? _)) eqn:H2; [by exists None|].
  apply orb_false_iff in H2 as [_ H2]. destruct (_ || _); [by exists None|].
  destruct (clampLifetimeMs_ok cap requested (limits s) (aes_limits cap s I)) as (t & -> & _). cbn [mbind res_bind].
  destruct (defined_cases _ Hg) as [[eph Heph]|[e ->]]; [rewrite Heph|by exists None]. cbn [mbind res_bind].
  destruct (defined_cases _ (publicKey_defined eph)) as [[pk ->]|[e ->]]; [|by exists None].
  eexists. split; [reflexivity|]. split; [|apply touches_add_pending].
  apply aes_inv_add_pending; try done; [lia|]. split; [done|]. by apply Hv.
Qed.

Lemma begin_handled cap s peer requested now1 now2 keyId generated pushed :
  aes_inv cap s -> List.length keyId = 16%nat -> (forall k, generated = Ok k -> isValid k = true) -> defined generated ->
  exists b out s', beginAesKeyNegotiation s peer requested now1 now2 keyId generated pushed = Ok (b, out, s')
    /\ aes_inv cap s' /\ (peer = local -> s' = s) /\ (peer <> local -> touches peer (expire s now1) s').
Proof.
  intros I Hid Hv Hg. unfold beginAesKeyNegotiation, processExpiredAesKeys. case_bool_decide as Hl.
  { exists false, [], s. by split_and!. }
  pose proof (aes_inv_expire cap s now1 I) as I1.
  destruct (begin_locked_handled cap (expire s now1) peer requested now2 keyId generated I1 Hid Hv Hg)
    as (r & -> & Hr). cbn [mbind res_bind]. destruct r as [[m s2]|].
  - destruct Hr as [I2 T2]. destruct pushed; do 3 eexists; (split; [reflexivity|]); split_and!; auto; try done.
    intros _. eapply touches_trans; [exact T2|apply touches_drop_pending].
  - do 3 eexists. split; [reflexivity|]. by split_and!.
Qed.

Lemma drop_handled cap s peer reason now pushed :
  aes_inv cap s -> exists b out s', dropAesKey s peer reason now pushed = (b, out, s') /\ aes_inv cap s'
    /\ touches peer (expire s now) s'.
Proof.
  intros I. unfold dropAesKey, processExpiredAesKeys. pose proof (aes_inv_expire cap s now I) as I1.
  set (s2 := set_pending _ _). assert (I2 : aes_inv cap s2) by (by apply aes_inv_drop_pending).
  assert (T2 : touches peer (expire s now) s2) by apply touches_drop_pending.
  destruct (activeByPeer s2 !! peer); do 3 eexists; (split; [reflexivity|]); split; auto.
  eapply touches_trans; [exact T2|apply touches_drop_active].
Qed.

Lemma setLimits_handled cap s l :
  aes_inv cap s -> 0 <= minLifetimeMs l -> 0 <= pendingTimeoutMs l ->
  maxActiveKeys l <= cap -> maxPendingNegotiations l <= cap ->
  exists s', setAesNegotiationLimits s l = Ok s' /\ aes_inv cap s'
    /\ pendingByPeer s' = pendingByPeer s /\ activeByPeer s' = activeByPeer s.
Proof.
  intros [Hl Hd Hp Ha Hc] H1 H2 H3 H4. unfold setAesNegotiationLimits.
  set (minimum := if minLifetimeMs l =? 0 then 1 else minLifetimeMs l).
  set (maximum := if maxLifetimeMs l <? minimum then minimum else maxLifetimeMs l).
  assert (Hmin : 1 <= minimum) by (unfold minimum; destruct (Z.eqb_spec (minLifetimeMs l) 0); lia).
  assert (Hmax : minimum <= maximum) by (unfold maximum; destruct (Z.ltb_spec (maxLifetimeMs l) minimum); lia).
  destruct (std_clamp_ok (defaultLifetimeMs l) minimum maximum Hmax) as (d & -> & Hd'). cbn [mbind res_bind].
  eexists. split; [reflexivity|]. split; [|done]. split; cbn; try done. unfold limits_ok. cbn.
  destruct (Z.eqb_spec (pendingTimeoutMs l) 0); lia.
Qed.

(** ** Executions *)
Inductive AesOp :=
| OpBegin (peer : NodeID) (requested : Z) (now1 now2 : DateTime.t) (keyId : bytes) (generated : Res KeyPair) (pushed : bool)
| OpDrop (peer : NodeID) (reason : bytes) (now : DateTime.t) (pushed : bool)
| OpMessage (m : RSPMessage.t) (now1 now2 : DateTime.t) (generated : Res KeyPair)
| OpExpire (now : DateTime.t)
| OpLimits (l : AesNegotiationLimits).

(** Random key ids have 16 bytes, a generated key is not null, the members of
    the limits are unsigned and at most [cap]. *)
Definition aes_op_ok (cap : Z) (op : AesOp) : Prop :=
  match op with
  | OpBegin _ _ _ _ keyId generated _ =>
      List.length keyId = 16%nat /\ (forall k, generated = Ok k -> isValid k = true) /\ defined generated
  | OpMessage _ _ _ generated => defined generated
  | OpLimits l => 0 <= minLifetimeMs l /\ 0 <= pendingTimeoutMs l /\ maxActiveKeys l <= cap
                  /\ maxPendingNegotiations l <= cap
  | _ => True
  end.

(** The state and the messages sent. *)
Definition aes_step (s : AesNegotiationState) (op : AesOp) : Res (list RSPMessage.t * AesNegotiationState) :=
  match op with
  | OpBegin peer requested now1 now2 keyId generated pushed =>
      '(_, out, s') ← beginAesKeyNegotiation s peer requested now1 now2 keyId generated pushed; Ok (out, s')
  | OpDrop peer reason now pushed => let '(_, out, s') := dropAesKey s peer reason now pushed in Ok (out, s')
  | OpMessage m now1 now2 generated =>
      '(_, out, s') ← handleAesNegotiationMessage s m now1 now2 generated; Ok (out, s')
  | OpExpire now => Ok (processExpiredAesKeys s now)
  | OpLimits l => s' ← setAesNegotiationLimits s l; Ok ([], s')
  end.

Fixpoint aes_run (s : AesNegotiationState) (ops : list AesOp) : Res AesNegotiationState :=
  match ops with
  | [] => Ok s
  | op :: ops' => '(_, s') ← aes_step s op; aes_run s' ops'
  end.

Lemma aes_step_inv `{!CryptoLaws C} cap s op :
  aes_inv cap s -> aes_op_ok cap op -> exists out s', aes_step s op = Ok (out, s') /\ aes_inv cap s'.
Proof.
  intros I Hok. destruct op as [peer r n1 n2 k g pu|peer r n pu|m n1 n2 g|n|l]; cbn [aes_step aes_op_ok] in *.
  - destruct Hok as (Hk & Hv & Hg). destruct (begin_handled cap s peer r n1 n2 k g pu I Hk Hv Hg) as (b & o & s' & -> & I' & _).
    cbn. eauto.
  - destruct (drop_handled cap s peer r n pu I) as (b & o & s' & -> & I' & _). eauto.
  - destruct (handleMessage_handled cap s m n1 n2 g I Hok) as (b & o & s' & -> & I' & _). cbn. eauto.
  - do 2 eexists. split; [reflexivity|]. by apply aes_inv_expire.
  - destruct Hok as (H1 & H2 & H3 & H4). destruct (setLimits_handled cap s l I H1 H2 H3 H4) as (s' & -> & I' & _). cbn. eauto.
Qed.

Lemma aes_inv_initial cap : 64 <= cap -> aes_inv cap initial_aes.
Proof.
  intros. split; cbn; try (unfold limits_ok; cbn; lia); try apply map_Forall_empty; [|rewrite !map_size_empty; lia].
  intros p. left. apply lookup_empty.
Qed.

(** ** Properties *)

(** C12.  The negotiation state is always consistent and bounded.  Every sequence
    of local calls, received messages and configuration changes runs to its end
    without undefined behaviour; afterwards no peer has both a pending and an
    active key, every key id has 16 bytes and every key 32, the lifetime limits
    are ordered, and the numbers of pending and of active keys do not exceed the
    largest limit that was ever configured. *)
Theorem aes_negotiation_invariant `{!CryptoLaws C} cap ops :
  64 <= cap -> Forall (aes_op_ok cap) ops ->
  exists s, aes_run initial_aes ops = Ok s /\ aes_inv cap s.
Proof.
  intros Hcap Hops. pose proof (aes_inv_initial cap Hcap) as I. revert I. generalize initial_aes as s.
  induction Hops as [|op ops Hop Hops IH]; intros s I; [by exists s|].
  destruct (aes_step_inv cap s op I Hop) as (out & s' & E & I'). cbn [aes_run]. rewrite E. cbn. by apply IH.
Qed.

(** A message concerns its sender only.  Handling any message in a
    consistent state changes, apart from the expiry that precedes it, no entry
    of a node other than the message's sender, so no node can install, replace
    or drop the keys of others; a message that is not part of the protocol
    changes nothing and answers nothing. *)
Theorem aes_messages_are_isolated `{!CryptoLaws C} cap s m now1 now2 generated :
  aes_inv cap s -> defined generated ->
  exists b out s', handleAesNegotiationMessage s m now1 now2 generated = Ok (b, out, s')
    /\ (b = false -> out = [] /\ s' = s)
    /\ (forall q, b = true -> senderNodeIdFromMessage m <> Some q ->
        pendingByPeer s' !! q = pendingByPeer (expire s now1) !! q
        /\ activeByPeer s' !! q = activeByPeer (expire s now1) !! q).
Proof.
  intros I Hg. destruct (handleMessage_handled cap s m now1 now2 generated I Hg) as (b & out & s' & -> & _ & Hf & Ht).
  do 3 eexists. split_and!; [reflexivity|exact Hf|]. intros q Hb Hq. specialize (Ht Hb).
  destruct (senderNodeIdFromMessage m) as [sender|]; [apply Ht; congruence|by subst].
Qed.
End AesNegotiation.

(** ** Agreement of two nodes *)

Section Agreement.
Context `{C : Crypto} `{L : !CryptoLaws C} `{A : !KeyAgreement C} `{AL : !KeyAgreementLaws C A}.

Lemma deriveAesKeyMaterial_comm secret keyId a b :
  deriveAesKeyMaterial secret keyId a b = deriveAesKeyMaterial secret keyId b a.
Proof.
  unfold deriveAesKeyMaterial.
  destruct (bytes_leb (toProtoNodeId a) (toProtoNodeId b)) eqn:H1, (bytes_leb (toProtoNodeId b) (toProtoNodeId a)) eqn:H2;
    try done.
  - by rewrite (bytes_leb_antisym _ _ H1 H2).
  - destruct (bytes_leb_total (toProtoNodeId a) (toProtoNodeId b)) as [E|E]; congruence.
Qed.

Lemma publicKey_fromPublicKey k pk :
  publicKey k = Ok pk -> exists key p q, k = Some key /\ pem_write key = Some p /\ pem_read p = Some q
    /\ fromPublicKey pk = Ok (Some q) /\ key_is_p256 key = true.
Proof.
  destruct k as [key|]; [|done]. unfold publicKey, algorithmForKey. intros Hpk.
  destruct (verifyP256 (Some key)) as [[]| | |] eqn:Hv; try done. cbn in Hpk.
  destruct (pem_write key) as [p|] eqn:Hp; [|done]. injection Hpk as <-.
  destruct (pem_round_trip _ _ Hp) as (q & Hq & _ & Hec & Hcv & _). exists key, p, q. split; [done|]. split; [done|]. split; [done|].
  unfold fromPublicKey, KeyPair_of_key. cbn. pose proof (pem_nonempty _ _ Hp). destruct p; [done|]. rewrite Hq.
  unfold verifyP256 in *. rewrite Hec, Hcv, Hv. split; [done|].
  destruct (key_is_ec key); [|done]. by destruct (key_is_p256 key).
Qed.

(** The two derivations of an exchange of ephemeral keys. *)
Lemma deriveSharedSecret_agrees ea eb pka pkb qa secret :
  hasPrivateKey ea = true -> hasPrivateKey eb = true ->
  publicKey ea = Ok pka -> publicKey eb = Ok pkb -> fromPublicKey pka = Ok qa ->
  deriveSharedSecret eb qa = Some secret ->
  exists qb, fromPublicKey pkb = Ok qb /\ deriveSharedSecret ea qb = Some secret.
Proof.
  intros Va Vb Ha Hb Hqa Hd. destruct (publicKey_fromPublicKey ea pka Ha) as (ka & p & q & -> & Hpa & Hra & Hfa & Ca).
  destruct (publicKey_fromPublicKey eb pkb Hb) as (kb & p' & q' & -> & Hpb & Hrb & Hfb & Cb).
  rewrite Hfa in Hqa. injection Hqa as <-. exists (Some q'). split; [done|]. cbn in Va, Vb, Hd |- *.
  apply andb_true_iff in Va as [_ Va], Vb as [_ Vb].
  by rewrite (ecdh_agrees ka kb p p' q q' Ca Cb Va Vb Hpa Hpb Hra Hrb).
Qed.

(** A node that can take a key for a peer. *)
Definition ready (s : AesNegotiationState) (peer : NodeID) : Prop :=
  pendingByPeer s !! peer = None /\ activeByPeer s !! peer = None
  /\ Z.of_nat (size (activeByPeer s)) < maxActiveKeys (limits s)
  /\ Z.of_nat (size (pendingByPeer s)) < maxPendingNegotiations (limits s).

Lemma begin_ready cap a s peer requested now1 now2 keyId ea pk :
  aes_inv cap s -> a <> peer -> ready (expire s now1) peer -> publicKey ea = Ok pk ->
  exists drops lifetime, beginAesKeyNegotiation a s peer requested now1 now2 keyId (Ok ea) true =
    Ok (true, drops ++ [requestMessage a peer keyId pk lifetime],
        set_pending (expire s now1) (<[peer := mkPendingAes keyId ea KEY_NEGOTIATION_ALGORITHM_P256_SHA256_AES256
          lifetime (addMilliseconds now2 (pendingTimeoutMs (limits s)))]> (pendingByPeer (expire s now1)))).
Proof.
  intros I Hne (Hp & Ha & Hac & Hpc) Hpk. unfold beginAesKeyNegotiation, processExpiredAesKeys.
  rewrite bool_decide_eq_false_2 by congruence.
  destruct (clampLifetimeMs_ok cap requested (limits s) (aes_limits cap s I)) as (t & Ht & _).
  unfold begin_locked. rewrite Hp, Ha, !bool_decide_eq_false_2 by (by intros [? ?]). cbn [orb].
  change (limits (expire s now1)) with (limits s) in *.
  assert (forall m n, 0 <= n < m -> (m =? 0) || (m <=? n) = false) as Hcap by lia.
  rewrite !Hcap by lia. rewrite Ht. cbn [mbind res_bind]. rewrite Hpk. cbn. eauto.
Qed.

Lemma request_ready cap b s a keyId ea eb pka pkb qa secret lifetime m now1 now2 :
  aes_inv cap s -> ready (expire s now1) a -> List.length keyId = 16%nat ->
  publicKey ea = Ok pka -> publicKey eb = Ok pkb -> fromPublicKey pka = Ok qa ->
  deriveSharedSecret eb qa = Some secret ->
  RSPMessage.core_message m = RSPMessage.core_message (requestMessage a b keyId pka lifetime) ->
  senderNodeIdFromMessage m = Some a ->
  exists drops accepted sb, handleAesNegotiationMessage b s m now1 now2 (Ok eb) =
      Ok (true, drops ++ [addressed b a (AesKeyNegotiationReplyMessage (AesKeyNegotiationReply.mk (Some keyId)
            (Some pkb) accepted KEY_NEGOTIATION_ALGORITHM_P256_SHA256_AES256))], sb)
    /\ activeByPeer sb !! a = Some (mkActiveAes keyId (deriveAesKeyMaterial secret keyId b a)
         KEY_NEGOTIATION_ALGORITHM_P256_SHA256_AES256 (addMilliseconds now2 accepted))
    /\ pendingByPeer sb !! a = None.
Proof.
  intros I (Hp & Ha & Hac & Hpc) Hid Hpa Hpb Hqa Hd Hcore Hs.
  destruct (clampLifetimeMs_ok cap lifetime (limits s) (aes_limits cap s I)) as (t & Ht & _).
  unfold handleAesNegotiationMessage, processExpiredAesKeys. rewrite Hcore, Hs. cbn [requestMessage addressed
    RSPMessage.set_core RSPMessage.core_message]. unfold handleRequest. cbn [AesKeyNegotiationRequest.key_id
    AesKeyNegotiationRequest.ephemeral_public_key AesKeyNegotiationRequest.algorithm].
  unfold isValidKeyId. rewrite Hid. cbn [Nat.eqb negb]. rewrite Z.eqb_refl. cbn [negb].
  rewrite Hp, Ha, !bool_decide_eq_false_2 by (by intros [? ?]).
  change (limits (expire s now1)) with (limits s) in *.
  assert (forall m n, 0 <= n < m -> (m =? 0) || (m <=? n) = false) as Hcap by lia.
  rewrite Hcap by lia. unfold acceptRequest. rewrite Hqa. cbn [mbind res_bind]. rewrite Hd.
  cbn [AesKeyNegotiationRequest.requested_lifetime_ms]. change (limits (expire s now1)) with (limits s). rewrite Ht.
  cbn [mbind res_bind]. rewrite Hpb. cbn. do 3 eexists. split; [reflexivity|]. split; [cbn; by rewrite lookup_insert_eq|exact Hp].
Qed.

Lemma reply_ready cap a s b keyId ea pka pkb qb secret lifetime expires accepted m now1 now2 g :
  aes_inv cap s ->
  pendingByPeer (expire s now1) !! b =
    Some (mkPendingAes keyId ea KEY_NEGOTIATION_ALGORITHM_P256_SHA256_AES256 lifetime expires) ->
  Z.of_nat (size (activeByPeer (expire s now1))) < maxActiveKeys (limits s) ->
  List.length keyId = 16%nat -> publicKey ea = Ok pka -> fromPublicKey pkb = Ok qb ->
  deriveSharedSecret ea qb = Some secret ->
  RSPMessage.core_message m = Some (AesKeyNegotiationReplyMessage (AesKeyNegotiationReply.mk (Some keyId)
            (Some pkb) accepted KEY_NEGOTIATION_ALGORITHM_P256_SHA256_AES256)) ->
  senderNodeIdFromMessage m = Some b ->
  exists out t sa, handleAesNegotiationMessage a s m now1 now2 g = Ok (true, out, sa)
    /\ pendingByPeer sa !! b = None
    /\ activeByPeer sa !! b = Some (mkActiveAes keyId (deriveAesKeyMaterial secret keyId a b)
         KEY_NEGOTIATION_ALGORITHM_P256_SHA256_AES256 (addMilliseconds now2 t)).
Proof.
  intros I Hp Hcap Hid Hpa Hqb Hd Hcore Hs.
  unfold handleAesNegotiationMessage, processExpiredAesKeys. rewrite Hcore, Hs. unfold handleReply.
  cbn [AesKeyNegotiationReply.key_id AesKeyNegotiationReply.ephemeral_public_key AesKeyNegotiationReply.algorithm].
  unfold isValidKeyId. rewrite Hid. cbn [Nat.eqb negb]. rewrite Z.eqb_refl. cbn [negb].
  rewrite Hp. cbn [pending_keyId]. rewrite bool_decide_eq_true_2 by done. cbn [negb].
  change (limits (expire s now1)) with (limits s).
  assert ((maxActiveKeys (limits s) =? 0) = false) as -> by lia.
  assert ((maxActiveKeys (limits s) <=? Z.of_nat (size (activeByPeer (expire s now1)))) = false) as -> by lia.
  rewrite andb_false_r. cbn [orb]. unfold acceptReply. rewrite Hqb. cbn [mbind res_bind ephemeralKeyPair]. rewrite Hd.
  change (limits (expire s now1)) with (limits s).
  match goal with |- context [clampLifetimeMs ?r ?l] =>
    destruct (clampLifetimeMs_ok cap r l (aes_limits cap s I)) as (t & -> & _) end.
  cbn. do 3 eexists. split; [reflexivity|]. cbn. by rewrite lookup_delete_eq, lookup_insert_eq.
Qed.

(** C11.  Two nodes end up with the same key.  Let both nodes, in consistent states (as
    [aes_negotiation_invariant] gives them), have room for a key, and
    neither a key nor a pending negotiation for the other, and let their ephemeral keys
    hold the private halves and be accepted by the other's derivation.  When node [a]
    starts a negotiation with [b], [b] handles the request and [a] handles the reply
    before its pending negotiation times out, whatever other keys expire meanwhile, then
    both hold an active key for the other, with the same id, the same algorithm
    and the same 32 bytes of key material, and neither has a negotiation with the other
    pending. *)
Theorem aes_negotiation_agrees cap a b sa sb keyId requested ea eb pka pkb qa secret t0 t1 t2 t3 t4 t5 g :
  a <> b -> aes_inv cap sa -> aes_inv cap sb -> List.length keyId = 16%nat ->
  ready (expire sa t0) b -> ready (expire sb t2) a ->
  hasPrivateKey ea = true -> hasPrivateKey eb = true ->
  publicKey ea = Ok pka -> publicKey eb = Ok pkb -> fromPublicKey pka = Ok qa ->
  deriveSharedSecret eb qa = Some secret ->
  DateTime.gtb (addMilliseconds t1 (pendingTimeoutMs (limits sa))) t4 = true ->
  exists out1 request sa1,
    beginAesKeyNegotiation a sa b requested t0 t1 keyId (Ok ea) true = Ok (true, out1 ++ [request], sa1)
    /\ forall m1, RSPMessage.core_message m1 = RSPMessage.core_message request -> senderNodeIdFromMessage m1 = Some a ->
    exists out2 reply sb1,
      handleAesNegotiationMessage b sb m1 t2 t3 (Ok eb) = Ok (true, out2 ++ [reply], sb1)
      /\ forall m2, RSPMessage.core_message m2 = RSPMessage.core_message reply -> senderNodeIdFromMessage m2 = Some b ->
      exists out3 sa2 ka kb,
        handleAesNegotiationMessage a sa1 m2 t4 t5 g = Ok (true, out3, sa2)
        /\ activeByPeer sa2 !! b = Some ka /\ activeByPeer sb1 !! a = Some kb
        /\ keyMaterial ka = keyMaterial kb /\ List.length (keyMaterial ka) = 32%nat
        /\ active_keyId ka = keyId /\ active_keyId kb = keyId /\ active_algorithm ka = active_algorithm kb
        /\ pendingByPeer sa2 !! b = None /\ pendingByPeer sb1 !! a = None.
Proof.
  intros Hne Ia Ib Hid Ra Rb Va Vb Hpa Hpb Hqa Hd Halive.
  destruct (begin_ready cap a sa b requested t0 t1 keyId ea pka Ia Hne Ra Hpa) as (out1 & lifetime & Hbegin).
  destruct (deriveSharedSecret_agrees ea eb pka pkb qa secret Va Vb Hpa Hpb Hqa Hd) as (qb & Hqb & Hd').
  do 3 eexists. split; [exact Hbegin|]. intros m1 Hc1 Hs1.
  destruct (request_ready cap b sb a keyId ea eb pka pkb qa secret lifetime m1 t2 t3 Ib Rb Hid Hpa Hpb Hqa Hd Hc1 Hs1)
    as (out2 & accepted & sb1 & Hreq & Hact & Hpb').
  do 3 eexists. split; [exact Hreq|]. intros m2 Hc2 Hs2.
  set (pend := mkPendingAes keyId ea KEY_NEGOTIATION_ALGORITHM_P256_SHA256_AES256 lifetime
    (addMilliseconds t1 (pendingTimeoutMs (limits sa)))) in *.
  set (sa1 := set_pending _ _) in *. destruct Ra as (R1 & R2 & R3 & R4).
  assert (Hpend : pendingByPeer (expire sa1 t4) !! b = Some pend).
  { cbn. apply map_lookup_filter_Some. split; [apply lookup_insert_eq|exact Halive]. }
  assert (Ia1 : aes_inv cap sa1).
  { apply aes_inv_add_pending; [by apply aes_inv_expire|done|done|]. split; [done|]. by destruct ea. }
  assert (Hroom : Z.of_nat (size (activeByPeer (expire sa1 t4))) < maxActiveKeys (limits sa1)).
  { assert (size (activeByPeer (expire sa1 t4)) <= size (activeByPeer (expire sa t0)))%nat
      by apply map_subseteq_size, map_filter_subseteq.
    change (limits sa1) with (limits (expire sa t0)). lia. }
  destruct (reply_ready cap a sa1 b keyId ea pka pkb qb secret lifetime _ accepted m2 t4 t5 g Ia1 Hpend Hroom Hid Hpa
    Hqb Hd' Hc2 Hs2) as (out3 & t & sa2 & Hrep & Hnone & Hact').
  do 4 eexists. split_and!; [exact Hrep|exact Hact'|exact Hact|..]; cbn; try done.
  - apply deriveAesKeyMaterial_comm.
  - apply sha256_length.
Qed.
End Agreement.

(** ** Witnesses *)

(** The secret of two toy keys: their names in order. *)
Definition toy_secret (a b : bytes) : bytes := if bytes_leb a b then a ++ b else b ++ a.

Lemma toy_secret_comm a b : toy_secret a b = toy_secret b a.
Proof.
  unfold toy_secret. destruct (bytes_leb a b) eqn:H1, (bytes_leb b a) eqn:H2; try done.
  - by rewrite (bytes_leb_antisym a b H1 H2).
  - destruct (bytes_leb_total a b) as [E|E]; congruence.
Qed.

#[export] Instance toy_agreement : KeyAgreement ToyCrypto.toy :=
  @Build_KeyAgreement ToyCrypto.toy (fun k p : bytes * bool => if k.2 then Some (toy_secret k.1 p.1) else None).

#[export] Instance toy_agreement_laws : KeyAgreementLaws ToyCrypto.toy toy_agreement.
Proof.
  split. intros [n1 b1] [n2 b2] p1 p2 q1 q2 _ _ V1 V2 [= <-] [= <-] [= <-] [= <-]. cbn in *. rewrite V1, V2.
  f_equal. apply toy_secret_comm.
Qed.

Definition aes_now : DateTime.t := DateTime.fromMillisecondsSinceEpoch 1700000000000.
Definition aes_key_id : bytes := bs "0123456789abcdef".
Definition aes_a : NodeID := mkGUID 1 2.
Definition aes_b : NodeID := mkGUID 3 4.
Definition aes_pk_alice : PublicKey.t := PublicKey.mk P256 (bs "Palice").

Definition toy_alice_public : @KeyPair ToyCrypto.toy := Some (bs "alice", false).

(** A request of [aes_a] as it arrives. *)
Definition aes_sample_request : RSPMessage.t := requestMessage aes_a aes_b aes_key_id aes_pk_alice 60000.

Lemma aes_negotiation_invariant_witness :
  exists s, @aes_run ToyCrypto.toy toy_agreement aes_b initial_aes
    [OpLimits default_aes_limits;
     OpMessage aes_sample_request aes_now aes_now (Ok ToyCrypto.bob);
     OpBegin aes_a 5000 aes_now aes_now aes_key_id (Ok ToyCrypto.bob) true] = Ok s /\ aes_inv 64 s.
Proof.
  apply (@aes_negotiation_invariant ToyCrypto.toy toy_agreement aes_b ToyCrypto.toy_laws 64); [lia|].
  repeat constructor; cbn; try lia. by intros k [= <-].
Defined.

Lemma aes_messages_are_isolated_witness :
  exists b out s', @handleAesNegotiationMessage ToyCrypto.toy toy_agreement aes_b initial_aes aes_sample_request
      aes_now aes_now (Ok ToyCrypto.bob) = Ok (b, out, s')
    /\ b = true /\ activeByPeer s' !! aes_b = None.
Proof.
  destruct (@aes_messages_are_isolated ToyCrypto.toy toy_agreement aes_b ToyCrypto.toy_laws 64 initial_aes
    aes_sample_request aes_now aes_now (Ok ToyCrypto.bob)) as (b & out & s' & E & _ & Hq).
  - apply aes_inv_initial. lia.
  - exact I.
  - exists b, out, s'. split; [exact E|].
    assert (Hb : b = true).
    { assert (Hv : match @handleAesNegotiationMessage ToyCrypto.toy toy_agreement aes_b initial_aes aes_sample_request
        aes_now aes_now (Ok ToyCrypto.bob) with Ok (x, _, _) => x = true | _ => False end) by (vm_compute; reflexivity).
      by rewrite E in Hv. }
    split; [exact Hb|]. destruct (Hq aes_b Hb) as [_ ->]; [vm_compute; discriminate|]. vm_compute. reflexivity.
Defined.

Lemma aes_negotiation_agrees_witness :
  exists out1 request sa1,
    @beginAesKeyNegotiation ToyCrypto.toy aes_a initial_aes aes_b 60000 aes_now aes_now aes_key_id
      (Ok ToyCrypto.alice) true = Ok (true, out1 ++ [request], sa1).
Proof.
  destruct (@aes_negotiation_agrees ToyCrypto.toy ToyCrypto.toy_laws toy_agreement toy_agreement_laws 64 aes_a aes_b
    initial_aes initial_aes aes_key_id 60000 ToyCrypto.alice ToyCrypto.bob aes_pk_alice
    (PublicKey.mk P256 (bs "Pbob")) toy_alice_public (bs "alicebob")
    aes_now aes_now aes_now aes_now aes_now aes_now (Ok ToyCrypto.alice)) as (out1 & request & sa1 & E & _).
  1: discriminate.
  1, 2: apply aes_inv_initial; lia.
  1: reflexivity.
  1, 2: split_and!; vm_compute; reflexivity.
  1-7: vm_compute; reflexivity.
  exists out1, request, sa1. exact E.
Defined.
