(* ===== verification/Node.v ===== *)
(** * common/node.cpp: the node

    [RSPNode] ties the parts together: its input queue hands every message to
    [handleMessage] below, replies go to the output queue.  What a concrete node
    adds ([handleNodeSpecificMessage], a virtual method) is the class
    [NodeSpecific].  The clock readings, the random bytes and the generated keys
    of one call are the record [Env].  The result of every handler is the
    list of messages pushed on the output queue and the new state; a push that
    fails is only reported on the error stream. *)

From S2P Require Import Prelude BaseTypes Proto GuidBytes KeyPair FieldResolver Requirement MessageHash Signing AuthN.
From S2P Require Import IdentityCache DateTimes Logging AesNegotiation.

Definition UNKNOWN_MESSAGE_TYPE : Enum := 1.

(** What one call draws from the environment. *)
Record Env `{C : Crypto} := mkEnv {
  env_now : DateTime.t;
  env_now_aes1 : DateTime.t;
  env_now_aes2 : DateTime.t;
  env_guid : GUID;
  env_key : Res KeyPair }.

(** The virtual method: its state, the messages it pushes, whether it consumed
    the message. *)
Class NodeSpecific := {
  Specific : Type;
  handleNodeSpecificMessage : Specific -> RSPMessage.t -> Res (bool * list RSPMessage.t * Specific) }.

Section Node.
Context `{H : HashCodec} `{C : Crypto} `{A : !KeyAgreement C} `{R : Reflection} `{M : MathLib} `{S : NodeSpecific}.
Context {Callback : Type}.

Record RSPNode := mkNode {
  keyPair_ : KeyPair;
  node_bootId : Uuid;
  identityCache_ : IdentityCache Callback;
  aesNegotiationState_ : AesNegotiationState;
  loggingSubscriptions_ : SubscriptionManager;
  specific_ : Specific }.

Definition set_cache (n : RSPNode) (c : IdentityCache Callback) : RSPNode :=
  mkNode (keyPair_ n) (node_bootId n) c (aesNegotiationState_ n) (loggingSubscriptions_ n) (specific_ n).
Definition set_aes (n : RSPNode) (s : AesNegotiationState) : RSPNode :=
  mkNode (keyPair_ n) (node_bootId n) (identityCache_ n) s (loggingSubscriptions_ n) (specific_ n).
Definition set_logging (n : RSPNode) (s : SubscriptionManager) : RSPNode :=
  mkNode (keyPair_ n) (node_bootId n) (identityCache_ n) (aesNegotiationState_ n) s (specific_ n).
Definition set_specific (n : RSPNode) (s : Specific) : RSPNode :=
  mkNode (keyPair_ n) (node_bootId n) (identityCache_ n) (aesNegotiationState_ n) (loggingSubscriptions_ n) s.

(** The constructor; [keyPair.nodeID()] throws for an empty key pair. *)
Definition RSPNode_new (keyPair : KeyPair) (bootId : Uuid) (s : Specific) : Res RSPNode :=
  id ← nodeID keyPair;
  Ok (mkNode keyPair bootId (IdentityCache_new 1024) initial_aes (SubscriptionManager_new id) s).

Definition toProtoDateTime (d : DateTime.t) : DateTime := DateTime.millisecondsSinceEpoch d.

Definition to_destination (destination : NodeId) : RSPMessage.t := RSPMessage.set_destination RSPMessage.empty (Some destination).

(** ** Handlers, in the order of [NodeInputQueue::handleMessage] *)
Definition handleLogSubscribe (n : RSPNode) (env : Env) (message : RSPMessage.t) (request : LogSubscribeRequest.t)
    : list RSPMessage.t * RSPNode :=
  match senderNodeIdFromMessage message with
  | None => ([], n)
  | Some requester =>
      let '(reply, subs) := subscribe (loggingSubscriptions_ n) (env_guid env) requester request (env_now env) in
      ([RSPMessage.set_core (copyMessageTrace message (to_destination (toProtoNodeId requester)))
          (Some (LogSubscribeReplyMessage reply))], set_logging n subs)
  end.

Definition handleLogUnsubscribe (n : RSPNode) (message : RSPMessage.t) (subscription_id : option Uuid)
    : list RSPMessage.t * RSPNode :=
  match senderNodeIdFromMessage message with
  | None => ([], n)
  | Some requester =>
      let '(reply, subs) := unsubscribe (loggingSubscriptions_ n) requester subscription_id in
      ([RSPMessage.set_core (copyMessageTrace message (to_destination (toProtoNodeId requester)))
          (Some (LogUnsubscribeReplyMessage reply))], set_logging n subs)
  end.

(** The identity a challenge is answered with. *)
Definition identityReply (n : RSPNode) (message : RSPMessage.t) (requester : NodeID) (nonce : option Uuid)
    (pk : PublicKey.t) : RSPMessage.t :=
  RSPMessage.set_core (copyMessageTrace message (to_destination (toProtoNodeId requester)))
    (Some (IdentityMessage (Identity.mk nonce (Some pk) (Some (node_bootId n))))).

(** The exceptions of the key operations leave the handler. *)
Definition handleChallenge (n : RSPNode) (message : RSPMessage.t) (nonce : option Uuid) : Res (list RSPMessage.t) :=
  match senderNodeIdFromMessage message with
  | None => Ok []
  | Some requester =>
      match nonce with
      | None => Ok []
      | Some value =>
          if negb (Nat.eqb (List.length value) 16) then Ok []
          else
            pk ← publicKey (keyPair_ n);
            let reply := identityReply n message requester nonce pk in
            block ← signMessage (keyPair_ n) reply;
            Ok [RSPMessage.set_signature reply (Some block)]
      end
  end.

(** The answer to everything else: a ping reply or an error. *)
Definition defaultReply (message : RSPMessage.t) (now : DateTime.t) : RSPMessage.t :=
  let reply :=
    match RSPMessage.source message with
    | Some source => to_destination source
    | None =>
        match senderNodeIdFromMessage message with
        | Some sender => to_destination (toProtoNodeId sender)
        | None => RSPMessage.empty
        end
    end in
  let reply := match RSPMessage.nonce message with Some nonce => RSPMessage.set_nonce reply (Some nonce) | None => reply end in
  RSPMessage.set_core reply
    (Some match RSPMessage.core_message message with
          | Some (PingRequestMessage ping) =>
              PingReplyMessage (PingReply.mk (Some (value_or_empty (PingRequest.nonce ping))) (PingRequest.sequence ping)
                (Some (default 0 (PingRequest.time_sent ping))) (Some (toProtoDateTime now)))
          | _ => ErrorMessage (Error.mk UNKNOWN_MESSAGE_TYPE (bs "unsupported message for base node handler"))
          end).

Definition handleMessage (local : NodeID) (n : RSPNode) (env : Env) (message : RSPMessage.t)
    : Res (list RSPMessage.t * RSPNode) :=
  match RSPMessage.core_message message with
  | Some (LogSubscribeRequestMessage request) => Ok (handleLogSubscribe n env message request)
  | Some (LogUnsubscribeRequest subscription_id) => Ok (handleLogUnsubscribe n message subscription_id)
  | _ =>
      '(consumed, pushed, sp) ← handleNodeSpecificMessage (specific_ n) message;
      let n1 := set_specific n sp in
      if (consumed : bool) then Ok (pushed, n1)
      else
        match RSPMessage.core_message message with
        | Some (ChallengeRequest nonce) => out ← handleChallenge n1 message nonce; Ok (pushed ++ out, n1)
        | _ =>
            '(aes, out, s) ← handleAesNegotiationMessage local (aesNegotiationState_ n1) message
                               (env_now_aes1 env) (env_now_aes2 env) (env_key env);
            if (aes : bool) then Ok (pushed ++ out, set_aes n1 s)
            else Ok (pushed ++ [defaultReply message (env_now env)], n1)
        end
  end.

(** [enqueueInput] up to the push: expiry, then observation. *)
Definition enqueueInput (local : NodeID) (n : RSPNode) (env : Env) (message : RSPMessage.t)
    : Res (list RSPMessage.t * RSPNode) :=
  let '(drops, s) := processExpiredAesKeys local (aesNegotiationState_ n) (env_now_aes1 env) in
  '(_, _, c) ← observeMessage (identityCache_ n) message;
  Ok (drops, set_cache (set_aes n s) c).

Definition publishLogRecord (n : RSPNode) (record : LogRecord.t) (snap : option SchemaSnapshot.t)
    (push : list RSPMessage.t -> RSPMessage.t -> bool) (now : DateTime.t) : Res (list RSPMessage.t * RSPNode) :=
  if Nat.eqb (subscriptionCount (loggingSubscriptions_ n)) 0 then Ok ([], n)
  else
    '(_, calls, subs) ← publish (loggingSubscriptions_ n) record push snap now;
    Ok (calls, set_logging n subs).

(** ** The invariant of a node *)
Definition node_inv (cap : Z) (n : RSPNode) : Prop :=
  cache_inv (identityCache_ n) /\ aes_inv cap (aesNegotiationState_ n).

(** The outcome of a handler: it returns or throws, and what it returns satisfies
    the invariant. *)
Definition node_safe (cap : Z) (r : Res (list RSPMessage.t * RSPNode)) : Prop :=
  defined r /\ forall out n', r = Ok (out, n') -> node_inv cap n'.

Lemma node_safe_ok cap out n : node_inv cap n -> node_safe cap (Ok (out, n)).
Proof. intros I. split; [done|]. intros o n' [= <- <-]. done. Qed.

Lemma node_safe_bind {X} cap (m : Res X) f :
  defined m -> (forall x, m = Ok x -> node_safe cap (f x)) -> node_safe cap (m ≫= f).
Proof. destruct m as [x| | |]; cbn; intros Hd Hf; try done. by apply Hf. Qed.

Lemma handleChallenge_defined n m nonce : defined (handleChallenge n m nonce).
Proof.
  unfold handleChallenge. destruct (senderNodeIdFromMessage m); [|done]. destruct nonce as [v|]; [|done].
  destruct (negb _); [done|]. apply defined_bind; [apply publicKey_defined|]. intros pk.
  by apply defined_bind; [apply signMessage_defined|].
Qed.

(** A challenge is answered with an identity that proves itself. *)
Lemma handleChallenge_reply `{!CryptoLaws C} n m nonce r id :
  handleChallenge n m nonce = Ok [r] -> nodeID (keyPair_ n) = Ok id ->
  exists requester value pk block, senderNodeIdFromMessage m = Some requester /\ nonce = Some value
    /\ List.length value = 16%nat /\ publicKey (keyPair_ n) = Ok pk
    /\ r = RSPMessage.set_signature (identityReply n m requester nonce pk) (Some block)
    /\ SignatureBlock.signer block = Some (serializeNodeIdBytes id)
    /\ exists k', fromPublicKey pk = Ok k' /\ nodeID k' = Ok id /\ verifyMessageSignature k' r block = Ok true.
Proof.
  unfold handleChallenge. intros Hr Hid. destruct (senderNodeIdFromMessage m) as [requester|]; [|done].
  destruct nonce as [value|]; [|done]. destruct (Nat.eqb_spec (List.length value) 16) as [Hl|]; [|done].
  cbn [negb] in Hr. destruct (publicKey (keyPair_ n)) as [pk| | |] eqn:Hpk; try done. cbn [mbind res_bind] in Hr.
  destruct (signMessage (keyPair_ n) _) as [block| | |] eqn:Hs; try done. cbn [mbind res_bind] in Hr.
  injection Hr as <-. unfold signMessage in Hs.
  destruct (messageSignatureInput _) as [input| | |] eqn:Hi; try done. cbn [mbind res_bind] in Hs.
  destruct (signBlock_signer _ _ _ Hs) as (id' & Hid' & Hsigner). rewrite Hid in Hid'. injection Hid' as <-.
  destruct (public_key_verifies _ _ _ _ Hs Hpk) as (k' & Hk' & Hidk & Hv).
  exists requester, value, pk, block. split_and!; try done. exists k'. split_and!; [done|by rewrite Hidk|].
  unfold verifyMessageSignature.
  match goal with |- context [messageSignatureInput ?x] =>
    replace (messageSignatureInput x) with (Ok input) by (symmetry; exact Hi) end. done.
Qed.

Lemma copyMessageTrace_identities m d : RSPMessage.identities (copyMessageTrace m d) = RSPMessage.identities d.
Proof. unfold copyMessageTrace. by destruct (RSPMessage.trace m). Qed.

(** The handlers, relative to the concrete node's. *)
Lemma handleMessage_safe `{!CryptoLaws C} cap local n env m :
  node_inv cap n -> defined (env_key env) -> defined (handleNodeSpecificMessage (specific_ n) m) ->
  node_safe cap (handleMessage local n env m).
Proof.
  intros [Ic Ia] Hk Hsp.
  assert (Hrest : node_safe cap
    ('(consumed, pushed, sp) ← handleNodeSpecificMessage (specific_ n) m;
     let n1 := set_specific n sp in
     if (consumed : bool) then Ok (pushed, n1)
     else match RSPMessage.core_message m with
          | Some (ChallengeRequest nonce) => out ← handleChallenge n1 m nonce; Ok (pushed ++ out, n1)
          | _ => '(aes, out, s) ← handleAesNegotiationMessage local (aesNegotiationState_ n1) m
                   (env_now_aes1 env) (env_now_aes2 env) (env_key env);
                 if (aes : bool) then Ok (pushed ++ out, set_aes n1 s)
                 else Ok (pushed ++ [defaultReply m (env_now env)], n1)
          end)).
  { apply node_safe_bind; [exact Hsp|]. intros [[consumed pushed] sp] _. cbv zeta.
    destruct consumed; [by apply node_safe_ok|].
    assert (Haes : node_safe cap ('(aes, out, s) ← handleAesNegotiationMessage local
      (aesNegotiationState_ (set_specific n sp)) m (env_now_aes1 env) (env_now_aes2 env) (env_key env);
      if (aes : bool) then Ok (pushed ++ out, set_aes (set_specific n sp) s)
      else Ok (pushed ++ [defaultReply m (env_now env)], set_specific n sp))).
    { destruct (handleMessage_handled local cap (aesNegotiationState_ n) m (env_now_aes1 env) (env_now_aes2 env)
        (env_key env) Ia Hk) as (b & out & s' & E & I' & _). cbn [set_specific aesNegotiationState_]. rewrite E.
      cbn [mbind res_bind]. destruct b; by apply node_safe_ok. }
    destruct (RSPMessage.core_message m) as [[]|]; try exact Haes.
    apply node_safe_bind; [apply handleChallenge_defined|]. intros out _. by apply node_safe_ok. }
  unfold handleMessage. destruct (RSPMessage.core_message m) as [core|] eqn:Hcore; [destruct core|]; try exact Hrest.
  + unfold handleLogSubscribe. destruct (senderNodeIdFromMessage m); [|by apply node_safe_ok].
    destruct (subscribe _ _ _ _ _). by apply node_safe_ok.
  + unfold handleLogUnsubscribe. destruct (senderNodeIdFromMessage m); [|by apply node_safe_ok].
    destruct (unsubscribe _ _ _). by apply node_safe_ok.
Qed.

Lemma enqueueInput_safe cap local n env m : node_inv cap n -> node_safe cap (enqueueInput local n env m).
Proof.
  intros [Ic Ia].
  unfold enqueueInput, processExpiredAesKeys. destruct (observeMessage_spec (identityCache_ n) m Ic) as (c' & -> & Ic' & _).
  cbn [mbind res_bind]. apply node_safe_ok. split; [done|]. by apply aes_inv_expire.
Qed.

(** ** Properties *)

(** C15.  The input handler of the base class is safe.  Let handling a message by the
    concrete node in its present state return or throw, which is so for every message at
    the resource manager ([rm_handler_safe]) and at the client ([client_handler_safe])
    but not at the socket service ([shared_accept_undefined]), and let key generation
    return or throw.  Then handling the message in a consistent
    state returns or throws, never runs into undefined behaviour, and leaves the
    identity cache and the key negotiation consistent.  Putting a message into the
    input queue ([enqueueInput]) is safe without these conditions. *)
Theorem node_handler_safe `{!CryptoLaws C} cap local n env m :
  node_inv cap n ->
  (defined (env_key env) -> defined (handleNodeSpecificMessage (specific_ n) m) ->
   node_safe cap (handleMessage local n env m))
  /\ node_safe cap (enqueueInput local n env m).
Proof. intros I. split; [intros Hk Hsp; by apply handleMessage_safe|by apply enqueueInput_safe]. Qed.

(** An answered challenge identifies the node to whoever asked.  The reply a
    node gives to a challenge goes to the requester, passes the requester's
    [validateReceivedIdentity] for its own nonce with the node's id, and when the
    requester observes it, its identity cache (of non-zero size) afterwards holds
    the node's public key under the node's id. *)
Theorem challenge_reply_identifies `{!CryptoLaws C} n m nonce r id (c : IdentityCache Callback) :
  handleChallenge n m nonce = Ok [r] -> nodeID (keyPair_ n) = Ok id ->
  cache_inv c -> 0 < maximumEntries_ c ->
  exists requester value pk calls c',
    senderNodeIdFromMessage m = Some requester /\ RSPMessage.destination r = Some (toProtoNodeId requester)
    /\ nonce = Some value /\ validateReceivedIdentity r value = Ok (Some id)
    /\ publicKey (keyPair_ n) = Ok pk
    /\ observeMessage c r = Ok (true, calls, c')
    /\ get c' id = Some (Identity.mk None (Some pk) None).
Proof.
  intros Hr Hid Ic Hmax. destruct (handleChallenge_reply n m nonce r id Hr Hid)
    as (requester & value & pk & block & Hs & -> & Hl & Hpk & Hreq & Hsig & k' & Hk' & Hidk & Hv).
  assert (Hcore : RSPMessage.core_message r = Some (IdentityMessage (Identity.mk (Some value) (Some pk) (Some (node_bootId n)))))
    by (by subst r).
  assert (Hsender : senderNodeIdFromMessage r = Some id).
  { unfold senderNodeIdFromMessage. subst r. cbn [RSPMessage.signature RSPMessage.set_signature]. rewrite Hsig.
    rewrite nodeIdFromSignerField_serialize; [done|]. by eapply nodeID_wf. }
  assert (Hids : message_identities r = [Identity.mk (Some value) (Some pk) (Some (node_bootId n))]).
  { unfold message_identities. rewrite Hcore. cbn [app]. f_equal. subst r. cbn. by rewrite copyMessageTrace_identities. }
  assert (Hnid : nodeIdFromIdentity (Identity.mk (Some value) (Some pk) (Some (node_bootId n))) = Ok (Some id)).
  { unfold nodeIdFromIdentity. cbn [Identity.public_key from_option Datatypes.id]. rewrite Hk'. cbn [mbind res_bind]. by rewrite Hidk. }
  assert (Hacc : accepted (senderNodeIdFromMessage r) (message_identities r)
    = [(id, Identity.mk None (Some pk) None)]).
  { rewrite Hsender, Hids. unfold accepted. cbn [omap list_omap]. rewrite Hnid.
    by rewrite bool_decide_eq_true_2. }
  destruct (observeMessage_single c r id _ Ic Hmax Hacc) as (calls & c' & Hobs & Ic' & Hget).
  do 5 eexists. split_and!; [exact Hs| |reflexivity| |exact Hpk|exact Hobs|exact Hget].
  - subst r. cbn. unfold copyMessageTrace. by destruct (RSPMessage.trace m).
  - unfold validateReceivedIdentity. rewrite Hcore. replace (RSPMessage.signature r) with (Some block) by (by subst r).
    cbn [Identity.nonce from_option Datatypes.id]. rewrite bool_decide_eq_true_2 by done. cbn [negb].
    cbn [Identity.public_key from_option Datatypes.id]. rewrite Hk'. cbn [mbind res_bind]. rewrite Hv. cbn [mbind res_bind]. by rewrite Hidk.
Qed.

(** What the concrete nodes of the repository do with a message kind they do not
    know. *)
Definition declines (m : RSPMessage.t) : Prop := forall sp, handleNodeSpecificMessage sp m = Ok (false, [], sp).

Lemma set_specific_same n : set_specific n (specific_ n) = n.
Proof. by destruct n. Qed.

(** A message of no protocol the node takes part in gets the default reply. *)
Lemma default_reply_sent local n env m :
  declines m ->
  match RSPMessage.core_message m with
  | Some (PingRequestMessage _) | Some (ErrorMessage _) | Some (PingReplyMessage _) | Some (IdentityMessage _) => True
  | _ => False
  end ->
  handleMessage local n env m = Ok ([defaultReply m (env_now env)], n).
Proof.
  intros Hd Hc. unfold handleMessage, handleAesNegotiationMessage. rewrite Hd. cbn [mbind res_bind].
  rewrite set_specific_same. destruct (processExpiredAesKeys _ _ _). by destruct (RSPMessage.core_message m) as [[]|].
Qed.

(** A ping is echoed.  A node that does not handle pings specially answers a
    ping request with exactly one message: a ping reply to the message's source
    (or its sender when it names no source) that repeats the envelope's nonce
    and the request's nonce, sequence number and sending time, and nothing of
    the node's state changes. *)
Theorem ping_is_echoed local n env m ping :
  declines m -> RSPMessage.core_message m = Some (PingRequestMessage ping) ->
  exists r, handleMessage local n env m = Ok ([r], n)
    /\ RSPMessage.destination r =
         match RSPMessage.source m with Some s => Some s | None => toProtoNodeId <$> senderNodeIdFromMessage m end
    /\ RSPMessage.nonce r = RSPMessage.nonce m
    /\ exists reply, RSPMessage.core_message r = Some (PingReplyMessage reply)
       /\ value_or_empty (PingReply.nonce reply) = value_or_empty (PingRequest.nonce ping)
       /\ PingReply.sequence reply = PingRequest.sequence ping
       /\ default 0 (PingReply.time_sent reply) = default 0 (PingRequest.time_sent ping).
Proof.
  intros Hd Hc. exists (defaultReply m (env_now env)). split; [apply default_reply_sent; [done|by rewrite Hc]|].
  unfold defaultReply. rewrite Hc. split_and!.
  - destruct (RSPMessage.source m), (RSPMessage.nonce m), (senderNodeIdFromMessage m); reflexivity.
  - destruct (RSPMessage.source m), (RSPMessage.nonce m), (senderNodeIdFromMessage m); reflexivity.
  - eexists. split; [by destruct (RSPMessage.nonce m)|done].
Qed.

(** The replies of two nodes to each other: each reply is signed by its node
    ([signed]) and delivered to the other. *)
Definition signed (id : NodeID) (signature : bytes) (m : RSPMessage.t) : RSPMessage.t :=
  RSPMessage.set_signature m (Some (SignatureBlock.mk (Some (serializeNodeIdBytes id)) P256 signature)).

Fixpoint bounce (k : nat) (env : Env) (sig : bytes) (here there : NodeID * RSPNode) (m : RSPMessage.t)
    : Res (RSPMessage.t * (NodeID * RSPNode) * (NodeID * RSPNode)) :=
  match k with
  | O => Ok (m, here, there)
  | Datatypes.S k' =>
      '(out, n') ← handleMessage here.1 here.2 env m;
      match out with
      | [reply] => bounce k' env sig there (here.1, n') (signed here.1 sig reply)
      | _ => throw_runtime "no single reply"
      end
  end.

(** Finding.  Errors answer errors for ever: an error message between two
    nodes whose concrete handlers do not consume errors (none of the repository
    does) is answered with an error message to its sender, which is answered
    with an error message, and so on: after any number of deliveries an error
    message addressed to the next node is still on its way. *)
Theorem error_exchange_never_ends k env sig a b (na nb : RSPNode) m e :
  (forall m' e', RSPMessage.core_message m' = Some (ErrorMessage e') -> declines m') ->
  RSPMessage.core_message m = Some (ErrorMessage e) ->
  GUID_wf a -> GUID_wf b ->
  RSPMessage.source m = None -> senderNodeIdFromMessage m = Some b ->
  exists m' e' here there,
    bounce k env sig (a, na) (b, nb) m = Ok (m', here, there)
    /\ RSPMessage.core_message m' = Some (ErrorMessage e')
    /\ senderNodeIdFromMessage m' = Some there.1
    /\ (k <> O -> RSPMessage.destination m' = Some (toProtoNodeId here.1)).
Proof.
  intros Hd. revert a b na nb m e. induction k as [|k IH]; intros a b na nb m e Hc Ha Hb Hsrc Hs.
  { exists m, e, (a, na), (b, nb). by split_and!. }
  cbn [bounce fst snd]. rewrite default_reply_sent; [|by eapply Hd|by rewrite Hc]. cbn [mbind res_bind].
  set (r := signed a sig (defaultReply m (env_now env))).
  assert (Hr : RSPMessage.core_message r = Some (ErrorMessage (Error.mk UNKNOWN_MESSAGE_TYPE
    (bs "unsupported message for base node handler"))) /\ RSPMessage.source r = None
    /\ RSPMessage.destination r = Some (toProtoNodeId b)).
  { unfold r, signed, defaultReply. rewrite Hc, Hsrc, Hs. by destruct (RSPMessage.nonce m). }
  destruct Hr as (Hrc & Hrs & Hrd).
  assert (Hsr : senderNodeIdFromMessage r = Some a).
  { unfold senderNodeIdFromMessage. cbn [r signed RSPMessage.signature RSPMessage.set_signature SignatureBlock.signer].
    by rewrite nodeIdFromSignerField_serialize. }
  destruct (IH b a nb na r _ Hrc Hb Ha Hrs Hsr) as (m' & e' & here & there & E & Hc' & Hs' & Hd').
  exists m', e', here, there. split_and!; [exact E|exact Hc'|exact Hs'|]. intros _.
  destruct k as [|k]; [|by apply Hd']. cbn in E. by injection E as <- <- <-.
Qed.
End Node.

(** ** Witnesses

    A node that adds nothing of its own. *)
#[local] Instance plain_node : NodeSpecific :=
  {| Specific := unit; handleNodeSpecificMessage := fun sp _ => Ok (false, [], sp) |}.
#[local] Existing Instances ToyCodec.toy_codec ToyCrypto.toy ToyCrypto.toy_laws toy_agreement
  ToyReflection.toy_reflection x86_math.

Definition sample_node (k : KeyPair) : RSPNode (Callback := unit) :=
  mkNode k (bs "boot") (IdentityCache_new 1024) initial_aes (SubscriptionManager_new (mkGUID 1 1)) tt.

Definition sample_env : Env := mkEnv _ aes_now aes_now aes_now (mkGUID 5 6) (Ok ToyCrypto.bob).

Definition sample_challenge : RSPMessage.t :=
  RSPMessage.set_core (RSPMessage.set_source RSPMessage.empty (Some (toProtoNodeId (mkGUID 3 4))))
    (Some (ChallengeRequest (Some aes_key_id))).

Definition sample_error : RSPMessage.t :=
  signed (mkGUID 3 4) [] (RSPMessage.set_core RSPMessage.empty (Some (ErrorMessage (Error.mk 2 [])))).

Definition sample_ping : RSPMessage.t :=
  RSPMessage.set_core RSPMessage.empty (Some (PingRequestMessage (PingRequest.mk None 7 None))).

Lemma sample_node_inv k : node_inv 64 (sample_node k).
Proof. split; [apply cache_inv_new; lia|apply aes_inv_initial; lia]. Qed.

Lemma node_handler_safe_witness :
  node_safe 64 (handleMessage (mkGUID 1 1) (sample_node ToyCrypto.alice) sample_env sample_challenge).
Proof.
  apply (node_handler_safe 64 (mkGUID 1 1) (sample_node ToyCrypto.alice) sample_env sample_challenge).
  - apply sample_node_inv.
  - exact I.
  - exact I.
Defined.

Lemma challenge_reply_identifies_witness :
  exists r calls c', handleChallenge (sample_node ToyCrypto.alice) sample_challenge (Some aes_key_id) = Ok [r]
    /\ observeMessage (IdentityCache_new (Callback := unit) 4) r = Ok (true, calls, c')
    /\ get c' alice_id = Some (Identity.mk None (Some aes_pk_alice) None).
Proof.
  destruct (handleChallenge (sample_node ToyCrypto.alice) sample_challenge (Some aes_key_id)) as [[|r []]| | |] eqn:Hr;
    try (vm_compute in Hr; discriminate Hr).
  destruct (challenge_reply_identifies (sample_node ToyCrypto.alice) sample_challenge (Some aes_key_id) r alice_id
    (IdentityCache_new (Callback := unit) 4)) as (q & v & pk & calls & c' & _ & _ & _ & _ & Hpk & Hobs & Hget).
  - exact Hr.
  - vm_compute. reflexivity.
  - apply cache_inv_new. lia.
  - cbn. lia.
  - exists r, calls, c'. split; [done|]. split; [exact Hobs|]. vm_compute in Hpk. injection Hpk as <-. exact Hget.
Defined.

Lemma ping_is_echoed_witness :
  exists r, handleMessage (mkGUID 1 1) (sample_node ToyCrypto.alice) sample_env sample_ping
    = Ok ([r], sample_node ToyCrypto.alice).
Proof.
  destruct (ping_is_echoed (mkGUID 1 1) (sample_node ToyCrypto.alice) sample_env sample_ping (PingRequest.mk None 7 None))
    as (r & Hr & _); [by intros sp|reflexivity|]. by exists r.
Defined.

Lemma error_exchange_never_ends_witness :
  exists m' here there, bounce 1000 sample_env [] (mkGUID 1 2, sample_node ToyCrypto.alice)
    (mkGUID 3 4, sample_node ToyCrypto.bob) sample_error = Ok (m', here, there).
Proof.
  destruct (error_exchange_never_ends 1000 sample_env [] (mkGUID 1 2) (mkGUID 3 4) (sample_node ToyCrypto.alice)
    (sample_node ToyCrypto.bob) sample_error (Error.mk 2 [])) as (m' & e' & here & there & E & _).
  - intros m' e' _ sp. reflexivity.
  - reflexivity.
  - split; split; cbn; lia.
  - split; split; cbn; lia.
  - reflexivity.
  - vm_compute. reflexivity.
  - by exists m', here, there.
Defined.
