(* ===== verification/ResourceQuery.v ===== *)
(** * resource_manager/resource_manager.cpp: the query language

    The lexer, the recursive-descent parser and the matcher of resource queries.
    The lexer's state is the rest of the input.  The parser's recursion is not
    structural: it runs on fuel, and [parseQueryExpression] gives it six steps
    per character plus six, which [parseQuery_total] shows to be enough.  The
    pointers of an expression the parser builds are never null, so the checks of
    [matchesExpression] for null operands have no counterpart. *)

From S2P Require Import Prelude BaseTypes Proto GuidBytes.

(** ** Tokens *)
Inductive QueryTokenType :=
| TkIdentifier | TkString | TkInteger | TkEqual | TkNotEqual | TkHas | TkAnd | TkOr | TkNot
| TkLeftParen | TkRightParen | TkEnd.

#[export] Instance QueryTokenType_eq_dec : EqDecision QueryTokenType.
Proof. solve_decision. Defined.

Record QueryToken := mkToken { token_type : QueryTokenType; token_text : bytes }.

(** [std::isalpha] in the "C" locale. *)
Definition is_alpha (c : ascii) : bool := in_range "a" "z" c || in_range "A" "Z" c.

Definition quote : ascii := "034".
Definition backslash : ascii := "\".

(** ** QueryLexer *)
Fixpoint lexSkipWhitespace (input : bytes) : bytes :=
  match input with
  | c :: input' => if is_space c then lexSkipWhitespace input' else input
  | [] => []
  end.

(** The loop of [readString], after the opening quote. *)
Fixpoint readString (input value : bytes) : Res (QueryToken * bytes) :=
  match input with
  | [] => throw_runtime "unterminated string in resource query"
  | c :: input' =>
      if Ascii.eqb c quote then Ok (mkToken TkString value, input')
      else if Ascii.eqb c backslash then
        match input' with
        | [] => throw_runtime "unterminated escape in resource query string"
        | d :: input'' => readString input'' (value ++ [d])
        end
      else readString input' (value ++ [c])
  end.

(** The longest prefix of characters that satisfy [p], and the rest. *)
Fixpoint span (p : ascii -> bool) (input : bytes) : bytes * bytes :=
  match input with
  | c :: input' => if p c then let '(l, r) := span p input' in (c :: l, r) else ([], input)
  | [] => ([], [])
  end.

Definition readInteger (input : bytes) : QueryToken * bytes :=
  let '(digits, rest) := span is_digit input in (mkToken TkInteger digits, rest).

Definition isIdentifierChar (c : ascii) : bool := is_alnum c || Ascii.eqb c "_" || Ascii.eqb c ".".

Definition keyword (value : bytes) : QueryTokenType :=
  let upper := to_upper <$> value in
  if bool_decide (upper = bs "AND") then TkAnd
  else if bool_decide (upper = bs "OR") then TkOr
  else if bool_decide (upper = bs "NOT") then TkNot
  else if bool_decide (upper = bs "HAS") then TkHas
  else TkIdentifier.

Definition readIdentifier (input : bytes) : QueryToken * bytes :=
  let '(value, rest) := span isIdentifierChar input in (mkToken (keyword value) value, rest).

Definition next (input : bytes) : Res (QueryToken * bytes) :=
  match lexSkipWhitespace input with
  | [] => Ok (mkToken TkEnd [], [])
  | current :: rest =>
      if Ascii.eqb current "(" then Ok (mkToken TkLeftParen (bs "("), rest)
      else if Ascii.eqb current ")" then Ok (mkToken TkRightParen (bs ")"), rest)
      else if Ascii.eqb current "=" then Ok (mkToken TkEqual (bs "="), rest)
      else
        match (if Ascii.eqb current "!" then rest else []) with
        | "="%char :: rest' => Ok (mkToken TkNotEqual (bs "!="), rest')
        | _ =>
            if Ascii.eqb current quote then readString rest []
            else if is_digit current then Ok (readInteger (current :: rest))
            else if is_alpha current || Ascii.eqb current "_" then Ok (readIdentifier (current :: rest))
            else throw_runtime "invalid character in resource query"
        end
  end.

(** ** Expressions *)
Inductive QueryOperator := OpEqual | OpNotEqual | OpHas.

Inductive QueryValue :=
| QueryString (s : bytes)
| QueryInteger (z : Z).

Inductive QueryExpression :=
| QEmpty
| QComparison (field : bytes) (comparison : QueryOperator) (value : QueryValue)
| QAnd (lhs rhs : QueryExpression)
| QOr (lhs rhs : QueryExpression)
| QNot (operand : QueryExpression).

(** ** QueryParser *)
Record QueryParser := mkParser { current_ : QueryToken; lexer_ : bytes }.

Definition parser_type (p : QueryParser) : QueryTokenType := token_type (current_ p).

Definition QueryParser_new (input : bytes) : Res QueryParser :=
  '(token, rest) ← next input; Ok (mkParser token rest).

Definition consume (expected : QueryTokenType) (p : QueryParser) : Res QueryParser :=
  if negb (bool_decide (parser_type p = expected)) then throw_runtime "unexpected token in resource query"
  else '(token, rest) ← next (lexer_ p); Ok (mkParser token rest).

(** [static_cast<uint32_t>(std::stoul(text))] of a string of digits. *)
Definition stoul (text : bytes) : Res Z :=
  let value := dec_value 0 text in
  if 2 ^ 64 <=? value then Throw (LogicError (bs "stoul")) else Ok (wrap 32 value).

Definition parseOperator (p : QueryParser) : Res (QueryOperator * QueryParser) :=
  match parser_type p with
  | TkEqual => p' ← consume TkEqual p; Ok (OpEqual, p')
  | TkNotEqual => p' ← consume TkNotEqual p; Ok (OpNotEqual, p')
  | TkHas => p' ← consume TkHas p; Ok (OpHas, p')
  | _ => throw_runtime "expected operator in resource query"
  end.

Definition parseComparison (p : QueryParser) : Res (QueryExpression * QueryParser) :=
  if negb (bool_decide (parser_type p = TkIdentifier)) then throw_runtime "expected field name in resource query"
  else
    let field := token_text (current_ p) in
    p1 ← consume TkIdentifier p;
    '(op, p2) ← parseOperator p1;
    match parser_type p2 with
    | TkString =>
        let value := token_text (current_ p2) in
        p3 ← consume TkString p2; Ok (QComparison field op (QueryString value), p3)
    | TkInteger =>
        value ← stoul (token_text (current_ p2));
        p3 ← consume TkInteger p2; Ok (QComparison field op (QueryInteger value), p3)
    | _ => throw_runtime "expected literal in resource query"
    end.

Fixpoint parseOr (fuel : nat) (p : QueryParser) : Res (QueryExpression * QueryParser) :=
  match fuel with
  | O => NoFuel
  | S fuel' => '(e, p1) ← parseAnd fuel' p; orLoop fuel' e p1
  end
with orLoop (fuel : nat) (e : QueryExpression) (p : QueryParser) : Res (QueryExpression * QueryParser) :=
  match fuel with
  | O => NoFuel
  | S fuel' =>
      if bool_decide (parser_type p = TkOr) then
        p1 ← consume TkOr p; '(e', p2) ← parseAnd fuel' p1; orLoop fuel' (QOr e e') p2
      else Ok (e, p)
  end
with parseAnd (fuel : nat) (p : QueryParser) : Res (QueryExpression * QueryParser) :=
  match fuel with
  | O => NoFuel
  | S fuel' => '(e, p1) ← parseUnary fuel' p; andLoop fuel' e p1
  end
with andLoop (fuel : nat) (e : QueryExpression) (p : QueryParser) : Res (QueryExpression * QueryParser) :=
  match fuel with
  | O => NoFuel
  | S fuel' =>
      if bool_decide (parser_type p = TkAnd) then
        p1 ← consume TkAnd p; '(e', p2) ← parseUnary fuel' p1; andLoop fuel' (QAnd e e') p2
      else Ok (e, p)
  end
with parseUnary (fuel : nat) (p : QueryParser) : Res (QueryExpression * QueryParser) :=
  match fuel with
  | O => NoFuel
  | S fuel' =>
      if bool_decide (parser_type p = TkNot) then
        p1 ← consume TkNot p; '(e, p2) ← parseUnary fuel' p1; Ok (QNot e, p2)
      else parsePrimary fuel' p
  end
with parsePrimary (fuel : nat) (p : QueryParser) : Res (QueryExpression * QueryParser) :=
  match fuel with
  | O => NoFuel
  | S fuel' =>
      if bool_decide (parser_type p = TkLeftParen) then
        p1 ← consume TkLeftParen p; '(e, p2) ← parseOr fuel' p1; p3 ← consume TkRightParen p2; Ok (e, p3)
      else parseComparison p
  end.

Definition parse (fuel : nat) (p : QueryParser) : Res QueryExpression :=
  '(e, p') ← parseOr fuel p;
  if negb (bool_decide (parser_type p' = TkEnd)) then throw_runtime "unexpected token at end of resource query"
  else Ok e.

Definition query_fuel (query : bytes) : nat := 6 * List.length query + 6.

Definition parseQueryExpression (query : bytes) : Res QueryExpression :=
  match query with
  | [] => Ok QEmpty
  | _ => p ← QueryParser_new query; parse (query_fuel query) p
  end.

(** ** Matching *)
Record ServiceCandidate := mkCandidate { candidate_nodeId : NodeID; candidate_schema : ServiceSchema.t }.

(** Two lower-case hexadecimal digits per byte. *)
Definition rm_bytesToHex (b : bytes) : bytes := b ≫= (fun c => put_hex 2 (byte_val c)).

Definition stringComparisonMatches (actual : bytes) (op : QueryOperator) (expected : bytes) : bool :=
  match op with
  | OpEqual => bool_decide (actual = expected)
  | OpNotEqual => negb (bool_decide (actual = expected))
  | OpHas => false
  end.

Definition integerComparisonMatches (actual : Z) (op : QueryOperator) (expected : Z) : bool :=
  match op with
  | OpEqual => actual =? expected
  | OpNotEqual => negb (actual =? expected)
  | OpHas => false
  end.

Definition matchesComparison (field : bytes) (op : QueryOperator) (value : QueryValue) (c : ServiceCandidate) : bool :=
  let schema := candidate_schema c in
  if bool_decide (field = bs "node.id") then
    match value with
    | QueryInteger _ => false
    | QueryString s => stringComparisonMatches (GUID_toString (candidate_nodeId c)) op s
    end
  else if bool_decide (field = bs "service.proto_file_name") then
    match value with
    | QueryInteger _ => false
    | QueryString s => stringComparisonMatches (ServiceSchema.proto_file_name schema) op s
    end
  else if bool_decide (field = bs "service.schema_hash") then
    match value with
    | QueryInteger _ => false
    | QueryString s => stringComparisonMatches (rm_bytesToHex (ServiceSchema.schema_hash schema)) op s
    end
  else if bool_decide (field = bs "service.schema_version") then
    match value with
    | QueryString _ => false
    | QueryInteger z => integerComparisonMatches (ServiceSchema.schema_version schema) op z
    end
  else if bool_decide (field = bs "service.accepted_type_urls") then
    match value with
    | QueryInteger _ => false
    | QueryString s =>
        let found := existsb (fun url => bool_decide (url = s)) (ServiceSchema.accepted_type_urls schema) in
        match op with
        | OpHas | OpEqual => found
        | OpNotEqual => negb found
        end
    end
  else false.

Fixpoint matchesExpression (e : QueryExpression) (c : ServiceCandidate) : bool :=
  match e with
  | QEmpty => true
  | QComparison field op value => matchesComparison field op value c
  | QAnd l r => matchesExpression l c && matchesExpression r c
  | QOr l r => matchesExpression l c || matchesExpression r c
  | QNot l => negb (matchesExpression l c)
  end.

(** ** Lemmas: the parser always ends *)

Lemma lexSkipWhitespace_length input : (List.length (lexSkipWhitespace input) <= List.length input)%nat.
Proof. induction input as [|c l IH]; cbn; [done|]. destruct (is_space c); cbn; lia. Qed.

Lemma readString_spec input value :
  defined (readString input value)
  /\ forall t r, readString input value = Ok (t, r) -> token_type t = TkString /\ (List.length r < List.length input)%nat.
Proof.
  remember (List.length input) as n eqn:Hn. assert (Hle : (List.length input <= n)%nat) by lia. clear Hn.
  revert input value Hle. induction n as [|n IH]; intros [|c l] value Hle; cbn [readString List.length] in *; try (by split).
  { lia. }
  destruct (Ascii.eqb c quote); [split; [done|intros t r [= <- <-]; cbn; split; [done|lia]]|].
  destruct (Ascii.eqb c backslash).
  - destruct l as [|d l]; [by split|]. cbn in Hle. destruct (IH l (value ++ [d]) ltac:(lia)) as [Hd Hr]. split; [done|].
    intros t r E. destruct (Hr t r E). split; [done|lia].
  - destruct (IH l (value ++ [c]) ltac:(lia)) as [Hd Hr]. split; [done|]. intros t r E. destruct (Hr t r E). split; [done|lia].
Qed.

Lemma span_length p input : (List.length (span p input).2 <= List.length input)%nat.
Proof. induction input as [|c l IH]; cbn; [done|]. destruct (p c); [|done]. destruct (span p l). cbn in *. lia. Qed.

Lemma span_cons p c l : p c = true -> (List.length (span p (c :: l)).2 <= List.length l)%nat.
Proof. intros Hc. cbn. rewrite Hc. pose proof (span_length p l). destruct (span p l). done. Qed.

Lemma keyword_not_end v : keyword v <> TkEnd.
Proof. unfold keyword. by repeat case_bool_decide. Qed.

Lemma next_spec input :
  defined (next input)
  /\ forall t r, next input = Ok (t, r) ->
       token_type t = TkEnd /\ r = [] \/ token_type t <> TkEnd /\ (List.length r < List.length input)%nat.
Proof.
  unfold next. pose proof (lexSkipWhitespace_length input) as Hs.
  destruct (lexSkipWhitespace input) as [|c l]; [split; [done|]; intros t r [= <- <-]; by left|]. cbn in Hs.
  assert (Hone : forall ty tx, ty <> TkEnd -> defined (Ok (mkToken ty tx, l))
    /\ forall t r, Ok (mkToken ty tx, l) = Ok (t, r) ->
       token_type t = TkEnd /\ r = [] \/ token_type t <> TkEnd /\ (List.length r < List.length input)%nat).
  { intros ty tx Hty. split; [done|]. intros t r [= <- <-]. right. split; [done|lia]. }
  destruct (Ascii.eqb c "("); [by apply Hone|]. destruct (Ascii.eqb c ")"); [by apply Hone|].
  destruct (Ascii.eqb c "="); [by apply Hone|].
  assert (Hrest : let r0 := (if Ascii.eqb c quote then readString l []
            else if is_digit c then Ok (readInteger (c :: l))
            else if is_alpha c || Ascii.eqb c "_" then Ok (readIdentifier (c :: l))
            else throw_runtime "invalid character in resource query") in
    defined r0 /\ forall t r, r0 = Ok (t, r) ->
       token_type t = TkEnd /\ r = [] \/ token_type t <> TkEnd /\ (List.length r < List.length input)%nat).
  { cbv zeta. destruct (Ascii.eqb c quote).
    { destruct (readString_spec l []) as [Hd Hr]. split; [done|]. intros t r E. destruct (Hr t r E) as [-> ?].
      right. split; [done|lia]. }
    destruct (is_digit c) eqn:Hdig.
    { split; [done|]. intros t r. unfold readInteger. pose proof (span_cons is_digit c l Hdig) as Hp.
      destruct (span is_digit (c :: l)) as [v q]. intros [= <- <-]. right. split; [done|]. cbn in Hp. lia. }
    destruct (is_alpha c || Ascii.eqb c "_") eqn:Hal; [|by split].
    split; [done|]. intros t r. unfold readIdentifier.
    assert (Hid : isIdentifierChar c = true).
    { unfold isIdentifierChar, is_alnum. unfold is_alpha in Hal.
      destruct (in_range "a" "z" c), (in_range "A" "Z" c), (Ascii.eqb c "_"), (is_digit c); done. }
    pose proof (span_cons isIdentifierChar c l Hid) as Hp.
    destruct (span isIdentifierChar (c :: l)) as [v q]. intros [= <- <-]. right. cbn.
    split; [apply keyword_not_end|]. cbn in Hp. lia. }
  destruct (Ascii.eqb c "!"); [|exact Hrest].
  destruct l as [|d l']; [exact Hrest|].
  destruct (Ascii.eqb_spec d "=") as [->|Hne].
  - split; [done|]. intros t r [= <- <-]. right. cbn in *. split; [done|lia].
  - destruct d as [[] [] [] [] [] [] [] []]; try exact Hrest. by destruct Hne.
Qed.

(** What is left to read, the current token included. *)
Definition remaining (p : QueryParser) : nat :=
  (if bool_decide (parser_type p = TkEnd) then 0 else 1) + List.length (lexer_ p).

Lemma consume_spec ty p :
  defined (consume ty p)
  /\ forall p', consume ty p = Ok p' -> ty <> TkEnd -> (remaining p' < remaining p)%nat.
Proof.
  unfold consume. case_bool_decide as Ht; cbn [negb]; [|by split].
  destruct (next_spec (lexer_ p)) as [Hd Hn]. split; [by apply defined_bind; [|intros []]|].
  intros p' Hp' Hty. destruct (next (lexer_ p)) as [[t r]| | |]; try done. cbn in Hp'. injection Hp' as <-.
  unfold remaining. cbn. rewrite Ht, (bool_decide_eq_false_2 (ty = TkEnd)) by done.
  destruct (Hn t r eq_refl) as [[Hte ->]|[Hte Hl]].
  - unfold parser_type. cbn. rewrite bool_decide_eq_true_2 by done. cbn. lia.
  - unfold parser_type. cbn. rewrite bool_decide_eq_false_2 by done. lia.
Qed.

(** A parsing step that ends and does not go back. *)
Definition progresses {X} (p : QueryParser) (r : Res (X * QueryParser)) : Prop :=
  defined r /\ forall x p', r = Ok (x, p') -> (remaining p' <= remaining p)%nat.

Lemma progresses_bind {X Y} p (r : Res (X * QueryParser)) (f : X * QueryParser -> Res (Y * QueryParser)) :
  progresses p r -> (forall x p', (remaining p' <= remaining p)%nat -> progresses p' (f (x, p'))) ->
  progresses p (r ≫= f).
Proof.
  intros [Hd Hr] Hf. destruct r as [[x p']| | |]; try done. cbn. specialize (Hr x p' eq_refl).
  destruct (Hf x p' Hr) as [Hd' Hr']. split; [done|]. intros y p'' E. specialize (Hr' y p'' E). lia.
Qed.

Lemma progresses_consume {X} ty p (f : QueryParser -> Res (X * QueryParser)) :
  ty <> TkEnd -> (forall p', (remaining p' < remaining p)%nat -> progresses p' (f p')) ->
  progresses p (consume ty p ≫= f).
Proof.
  intros Hty Hf. destruct (consume_spec ty p) as [Hd Hc]. destruct (consume ty p) as [p'| | |]; try done. cbn.
  specialize (Hc p' eq_refl Hty). destruct (Hf p' Hc) as [Hd' Hr']. split; [done|]. intros x p'' E.
  specialize (Hr' x p'' E). lia.
Qed.

Lemma progresses_ok {X} p (x : X) : progresses p (Ok (x, p)).
Proof. split; [done|]. intros y p' [= <- <-]. done. Qed.

Lemma progresses_throw {X} p e : progresses p (Throw e : Res (X * QueryParser)).
Proof. by split. Qed.

Lemma parseComparison_progresses p : progresses p (parseComparison p).
Proof.
  unfold parseComparison. destruct (negb _); [apply progresses_throw|]. apply progresses_consume; [done|]. intros p1 _.
  apply progresses_bind.
  - unfold parseOperator. destruct (parser_type p1); try apply progresses_throw;
      (apply progresses_consume; [done|]; intros p2 _; apply progresses_ok).
  - intros op p2 _. cbv beta iota. destruct (parser_type p2); try apply progresses_throw.
    + apply progresses_consume; [done|]. intros p3 _. apply progresses_ok.
    + unfold stoul. destruct (_ <=? _); cbn [mbind res_bind]; [apply progresses_throw|].
      apply progresses_consume; [done|]. intros p3 _. apply progresses_ok.
Qed.

(** Enough fuel for each nonterminal. *)
Lemma parser_progresses fuel :
  (forall p, (6 * remaining p + 6 <= fuel)%nat -> progresses p (parseOr fuel p))
  /\ (forall e p, (6 * remaining p + 1 <= fuel)%nat -> progresses p (orLoop fuel e p))
  /\ (forall p, (6 * remaining p + 4 <= fuel)%nat -> progresses p (parseAnd fuel p))
  /\ (forall e p, (6 * remaining p + 1 <= fuel)%nat -> progresses p (andLoop fuel e p))
  /\ (forall p, (6 * remaining p + 2 <= fuel)%nat -> progresses p (parseUnary fuel p))
  /\ (forall p, (6 * remaining p + 1 <= fuel)%nat -> progresses p (parsePrimary fuel p)).
Proof.
  induction fuel as [|fuel (IHor & IHol & IHand & IHal & IHun & IHpr)]; [split_and!; intros; lia|].
  split_and!; intros; cbn [parseOr orLoop parseAnd andLoop parseUnary parsePrimary].
  - apply progresses_bind; [apply IHand; lia|]. intros e p1 H1. apply IHol. lia.
  - case_bool_decide; [|apply progresses_ok]. apply progresses_consume; [done|]. intros p1 H1.
    apply progresses_bind; [apply IHand; lia|]. intros e' p2 H2. apply IHol. lia.
  - apply progresses_bind; [apply IHun; lia|]. intros e p1 H1. apply IHal. lia.
  - case_bool_decide; [|apply progresses_ok]. apply progresses_consume; [done|]. intros p1 H1.
    apply progresses_bind; [apply IHun; lia|]. intros e' p2 H2. apply IHal. lia.
  - case_bool_decide; [|apply IHpr; lia]. apply progresses_consume; [done|]. intros p1 H1.
    apply progresses_bind; [apply IHun; lia|]. intros e' p2 H2. apply progresses_ok.
  - case_bool_decide; [|apply parseComparison_progresses]. apply progresses_consume; [done|]. intros p1 H1.
    apply progresses_bind; [apply IHor; lia|]. intros e' p2 H2. apply progresses_consume; [done|]. intros p3 H3.
    apply progresses_ok.
Qed.

Lemma QueryParser_new_remaining input p : QueryParser_new input = Ok p -> (remaining p <= List.length input)%nat.
Proof.
  unfold QueryParser_new. destruct (next_spec input) as [_ Hn]. destruct (next input) as [[t r]| | |]; try done.
  cbn. intros [= <-]. unfold remaining, parser_type. cbn. destruct (Hn t r eq_refl) as [[Ht ->]|[Ht Hl]].
  - rewrite bool_decide_eq_true_2 by done. cbn. lia.
  - rewrite bool_decide_eq_false_2 by done. lia.
Qed.

(** ** A reference printer

    Every expression in fully parenthesised form. *)
Definition print_operator (op : QueryOperator) : bytes :=
  match op with OpEqual => bs "=" | OpNotEqual => bs "!=" | OpHas => bs "HAS" end.

Definition escape (s : bytes) : bytes :=
  s ≫= (fun c => if Ascii.eqb c quote || Ascii.eqb c backslash then [backslash; c] else [c]).

Definition print_value (v : QueryValue) : bytes :=
  match v with
  | QueryString s => [quote] ++ escape s ++ [quote]
  | QueryInteger z => to_string z
  end.

Fixpoint print_query (e : QueryExpression) : bytes :=
  match e with
  | QEmpty => []
  | QComparison field op value => field ++ bs " " ++ print_operator op ++ bs " " ++ print_value value
  | QAnd l r => bs "(" ++ print_query l ++ bs " AND " ++ print_query r ++ bs ")"
  | QOr l r => bs "(" ++ print_query l ++ bs " OR " ++ print_query r ++ bs ")"
  | QNot l => bs "(NOT " ++ print_query l ++ bs ")"
  end.

(** A field name that is read as one identifier. *)
Definition is_field (f : bytes) : Prop :=
  keyword f = TkIdentifier /\ Forall (fun c => isIdentifierChar c = true) f
  /\ exists c l, f = c :: l /\ is_alpha c || Ascii.eqb c "_" = true.

Fixpoint printable (e : QueryExpression) : Prop :=
  match e with
  | QEmpty => False
  | QComparison f _ (QueryString _) => is_field f
  | QComparison f _ (QueryInteger z) => is_field f /\ 0 <= z < 2 ^ 32
  | QAnd l r | QOr l r => printable l /\ printable r
  | QNot l => printable l
  end.

(** *** Lemmas *)

(** The text that follows does not extend a word or a number. *)
Definition delimited (k : bytes) : Prop := match k with [] => True | c :: _ => isIdentifierChar c = false end.

Lemma span_app p l k :
  Forall (fun c => p c = true) l -> match k with [] => True | c :: _ => p c = false end -> span p (l ++ k) = (l, k).
Proof.
  intros Hl Hk. induction Hl as [|c l Hc Hl IH]; cbn.
  - destruct k as [|c k]; [done|]. cbn. by rewrite Hk.
  - by rewrite Hc, IH.
Qed.

Lemma alpha_facts c : is_alpha c || Ascii.eqb c "_" = true ->
  is_space c = false /\ Ascii.eqb c "(" = false /\ Ascii.eqb c ")" = false /\ Ascii.eqb c "=" = false
  /\ Ascii.eqb c "!" = false /\ Ascii.eqb c quote = false /\ is_digit c = false.
Proof.
  intros Hc. assert (Hb : implb (is_alpha c || Ascii.eqb c "_")
    (negb (is_space c || Ascii.eqb c "(" || Ascii.eqb c ")" || Ascii.eqb c "=" || Ascii.eqb c "!" || Ascii.eqb c quote
      || is_digit c)) = true) by (clear Hc; by_all_chars c).
  rewrite Hc in Hb. cbn [implb] in Hb. apply negb_true_iff in Hb.
  do 6 (apply orb_false_iff in Hb as [Hb ?]). by split_and!.
Qed.

Lemma digit_facts c : is_digit c = true ->
  is_space c = false /\ Ascii.eqb c "(" = false /\ Ascii.eqb c ")" = false /\ Ascii.eqb c "=" = false
  /\ Ascii.eqb c "!" = false /\ Ascii.eqb c quote = false /\ isIdentifierChar c = true.
Proof.
  intros Hc. assert (Hb : implb (is_digit c)
    (negb (is_space c || Ascii.eqb c "(" || Ascii.eqb c ")" || Ascii.eqb c "=" || Ascii.eqb c "!" || Ascii.eqb c quote
      || negb (isIdentifierChar c))) = true) by (clear Hc; by_all_chars c).
  rewrite Hc in Hb. cbn [implb] in Hb. apply negb_true_iff in Hb.
  do 6 (apply orb_false_iff in Hb as [Hb ?]). split_and!; try done. by apply negb_false_iff.
Qed.

Lemma next_word w k :
  Forall (fun c => isIdentifierChar c = true) w -> (exists c l, w = c :: l /\ is_alpha c || Ascii.eqb c "_" = true) ->
  delimited k -> next (w ++ k) = Ok (mkToken (keyword w) w, k).
Proof.
  intros Hall (c & l & -> & Hc) Hk. destruct (alpha_facts c Hc) as (H1 & H2 & H3 & H4 & H5 & H6 & H7).
  unfold next. cbn [app lexSkipWhitespace]. rewrite H1, H2, H3, H4, H5, H6, H7, Hc.
  change (c :: l ++ k) with ((c :: l) ++ k). unfold readIdentifier. by rewrite (span_app _ (c :: l) k).
Qed.

Lemma next_number z k :
  0 <= z -> delimited k -> next (to_string z ++ k) = Ok (mkToken TkInteger (to_string z), k).
Proof.
  intros Hz Hk. destruct (to_string_spec z) as (c & l & Hs & Hd & _). rewrite (proj2 (Z.ltb_ge z 0)) in Hs by lia.
  cbn [app] in Hs. rewrite Hs. pose proof (Forall_inv Hd) as Hc. cbn in Hc.
  destruct (digit_facts c Hc) as (H1 & H2 & H3 & H4 & H5 & H6 & _).
  unfold next. cbn [app lexSkipWhitespace]. rewrite H1, H2, H3, H4, H5, H6, Hc.
  change (c :: l ++ k) with ((c :: l) ++ k). unfold readInteger. rewrite (span_app _ (c :: l) k); [done|done|].
  destruct k as [|d k]; [done|]. cbn in *. destruct (is_digit d) eqn:Hdd; [|done].
  by destruct (digit_facts d Hdd) as (_ & _ & _ & _ & _ & _ & Hx); rewrite Hx in Hk.
Qed.

Lemma readString_escape s value k : readString (escape s ++ quote :: k) value = Ok (mkToken TkString (value ++ s), k).
Proof.
  revert value. induction s as [|c s IH]; intros value; [cbn; by rewrite app_nil_r|].
  unfold escape. cbn [mbind list_bind]. fold (escape s). rewrite <- app_assoc.
  destruct (Ascii.eqb c quote) eqn:Hq; cbn [orb app].
  - apply Ascii.eqb_eq in Hq as ->. cbn [readString]. cbn. rewrite IH, <- app_assoc. done.
  - destruct (Ascii.eqb c backslash) eqn:Hb; cbn [app readString].
    + apply Ascii.eqb_eq in Hb as ->. cbn. rewrite IH, <- app_assoc. done.
    + rewrite Hq, Hb, IH, <- app_assoc. done.
Qed.

Lemma next_quote k : next (quote :: k) = readString k [].
Proof. reflexivity. Qed.

Lemma next_space k : next (" "%char :: k) = next k.
Proof. reflexivity. Qed.

Lemma QueryParser_new_space k : QueryParser_new (" "%char :: k) = QueryParser_new k.
Proof. reflexivity. Qed.

(** Consuming the token a text starts with leaves the parser at the rest. *)
Lemma consume_at ty p pk k :
  parser_type p = ty -> lexer_ p = k -> QueryParser_new k = Ok pk -> consume ty p = Ok pk.
Proof. intros Ht Hl Hk. unfold consume. rewrite bool_decide_eq_true_2 by done. cbn [negb]. rewrite Hl. exact Hk. Qed.

Lemma stoul_to_string z : 0 <= z < 2 ^ 32 -> stoul (to_string z) = Ok z.
Proof.
  intros Hz. destruct (to_string_spec z) as (c & l & Hs & _ & Hv). rewrite (proj2 (Z.ltb_ge z 0)) in Hs by lia.
  cbn [app] in Hs. unfold stoul. rewrite Hs, Hv, Z.abs_eq by lia.
  destruct (Z.leb_spec (2 ^ 64) z); [lia|]. unfold wrap. by rewrite Z.mod_small by lia.
Qed.

(** The three tokens of a comparison. *)
Lemma parseComparison_print f op v k pk :
  printable (QComparison f op v) -> delimited k -> QueryParser_new k = Ok pk ->
  exists p, QueryParser_new (print_query (QComparison f op v) ++ k) = Ok p /\ parser_type p = TkIdentifier
    /\ parseComparison p = Ok (QComparison f op v, pk).
Proof.
  intros Hp Hk Hpk. assert (Hf : is_field f) by (destruct v; [exact Hp|apply Hp]). destruct Hf as (Hkw & Hall & Hfirst).
  cbn [print_query]. rewrite <- !app_assoc.
  set (k2 := print_value v ++ k).
  assert (H2 : exists p2, QueryParser_new k2 = Ok p2 /\ lexer_ p2 = k
    /\ match v with
       | QueryString s => current_ p2 = mkToken TkString s
       | QueryInteger z => current_ p2 = mkToken TkInteger (to_string z)
       end).
  { unfold k2, QueryParser_new. destruct v as [s|z]; cbn [print_value].
    - rewrite <- !app_assoc. cbn [app]. rewrite next_quote, readString_escape. by eexists.
    - cbn [printable] in Hp. rewrite next_number by (done || lia). cbn. by eexists. }
  destruct H2 as (p2 & Hp2 & Hl2 & Hc2).
  set (k1 := print_operator op ++ bs " " ++ k2).
  assert (H1 : exists p1, QueryParser_new k1 = Ok p1 /\ parseOperator p1 = Ok (op, p2)).
  { unfold k1. destruct op; cbn [print_operator].
    - eexists. split; [reflexivity|]. unfold parseOperator. cbn [parser_type current_ token_type].
      erewrite consume_at; [reflexivity|done|reflexivity|]. exact Hp2.
    - eexists. split; [reflexivity|]. unfold parseOperator. cbn [parser_type current_ token_type].
      erewrite consume_at; [reflexivity|done|reflexivity|]. exact Hp2.
    - unfold QueryParser_new. rewrite (next_word (bs "HAS") (bs " " ++ k2)); [|by repeat constructor|by do 2 eexists|done].
      eexists. split; [reflexivity|]. change (keyword (bs "HAS")) with TkHas. unfold parseOperator.
      cbn [parser_type current_ token_type]. erewrite consume_at; [reflexivity|done|reflexivity|]. exact Hp2. }
  destruct H1 as (p1 & Hp1 & Hop).
  unfold QueryParser_new at 1. rewrite (next_word f (bs " " ++ k1)) by done. rewrite Hkw.
  eexists. split; [reflexivity|]. split; [done|]. unfold parseComparison. cbn [parser_type current_ token_type token_text].
  rewrite bool_decide_eq_true_2 by done. cbn [negb].
  erewrite consume_at; [|done|reflexivity|exact Hp1]. cbn [mbind res_bind]. rewrite Hop. cbn [mbind res_bind].
  destruct v as [s|z]; unfold parser_type; rewrite Hc2; cbn [token_type token_text].
  - erewrite consume_at; [reflexivity|by unfold parser_type; rewrite Hc2|exact Hl2|exact Hpk].
  - rewrite stoul_to_string by apply Hp. cbn [mbind res_bind].
    erewrite consume_at; [reflexivity|by unfold parser_type; rewrite Hc2|exact Hl2|exact Hpk].
Qed.

(** Fuel that the printed form of an expression needs. *)
Fixpoint height (e : QueryExpression) : nat :=
  match e with
  | QEmpty | QComparison _ _ _ => 1
  | QAnd l r | QOr l r => S (Nat.max (height l) (height r))
  | QNot l => S (height l)
  end.

Lemma height_print e : printable e -> (height e <= List.length (print_query e))%nat.
Proof.
  induction e as [|f op v|l IHl r IHr|l IHl r IHr|l IHl]; cbn [printable height print_query]; intros Hp.
  - done.
  - assert (Hf : is_field f) by (destruct v; [exact Hp|apply Hp]). destruct Hf as (_ & _ & c & t & -> & _). apply le_n_S, Nat.le_0_l.
  - destruct Hp as [H1 H2]. specialize (IHl H1). specialize (IHr H2). rewrite !length_app. unfold bs. cbn [list_ascii_of_string List.length]. lia.
  - destruct Hp as [H1 H2]. specialize (IHl H1). specialize (IHr H2). rewrite !length_app. unfold bs. cbn [list_ascii_of_string List.length]. lia.
  - specialize (IHl Hp). rewrite !length_app. unfold bs. cbn [list_ascii_of_string List.length]. lia.
Qed.

(** The parser stands at an operand: a parenthesis or a field. *)
Definition at_operand (p : QueryParser) : Prop := parser_type p = TkLeftParen \/ parser_type p = TkIdentifier.

(** [parsePrimary] reads a printed expression and stops behind it. *)
Definition reads (e : QueryExpression) : Prop := forall k pk,
  delimited k -> QueryParser_new k = Ok pk ->
  exists p, QueryParser_new (print_query e ++ k) = Ok p /\ at_operand p
    /\ forall fuel, (6 * height e <= fuel)%nat -> parsePrimary fuel p = Ok (e, pk).

Lemma unary_operand fuel p : at_operand p -> parseUnary (S fuel) p = parsePrimary fuel p.
Proof. intros [Hp|Hp]; cbn [parseUnary]; rewrite Hp; by rewrite bool_decide_eq_false_2. Qed.

Lemma andLoop_stop fuel e p : parser_type p <> TkAnd -> andLoop (S fuel) e p = Ok (e, p).
Proof. intros. cbn [andLoop]. by rewrite bool_decide_eq_false_2. Qed.

Lemma orLoop_stop fuel e p : parser_type p <> TkOr -> orLoop (S fuel) e p = Ok (e, p).
Proof. intros. cbn [orLoop]. by rewrite bool_decide_eq_false_2. Qed.

(** A keyword between two operands. *)
Lemma new_keyword w ty k :
  keyword w = ty -> Forall (fun c => isIdentifierChar c = true) w ->
  (exists c l, w = c :: l /\ is_alpha c || Ascii.eqb c "_" = true) ->
  QueryParser_new (bs " " ++ w ++ bs " " ++ k) = Ok (mkParser (mkToken ty w) (bs " " ++ k)).
Proof.
  intros Hk Hall Hfirst. change (bs " " ++ w ++ bs " " ++ k) with (" "%char :: w ++ bs " " ++ k).
  rewrite QueryParser_new_space. unfold QueryParser_new. rewrite (next_word w (bs " " ++ k)) by done. by rewrite Hk.
Qed.

Lemma new_close k : QueryParser_new (bs ")" ++ k) = Ok (mkParser (mkToken TkRightParen (bs ")")) k).
Proof. reflexivity. Qed.

Lemma new_open k : QueryParser_new (bs "(" ++ k) = Ok (mkParser (mkToken TkLeftParen (bs "(")) k).
Proof. reflexivity. Qed.

Lemma delimited_space k : delimited (bs " " ++ k).
Proof. reflexivity. Qed.

Lemma delimited_close k : delimited (bs ")" ++ k).
Proof. reflexivity. Qed.

(** Leaves the loops whose token is not theirs. *)
Ltac stop_loops :=
  cbn [mbind res_bind andLoop orLoop parser_type current_ token_type];
  rewrite ?bool_decide_eq_false_2 by discriminate;
  cbn [mbind res_bind andLoop orLoop parser_type current_ token_type];
  rewrite ?bool_decide_eq_false_2 by discriminate; try reflexivity.

(** The parser in front of a closing parenthesis. *)
Definition closing (k : bytes) : QueryParser := mkParser (mkToken TkRightParen (bs ")")) k.

(** A parenthesised text is read when its inner text is. *)
Lemma reads_parens e :
  (0 < height e)%nat ->
  (forall k, exists inner p1, print_query e ++ k = bs "(" ++ inner /\ QueryParser_new inner = Ok p1
     /\ forall fuel, (6 * height e <= S fuel)%nat -> parseOr fuel p1 = Ok (e, closing k)) ->
  reads e.
Proof.
  intros Hh He k pk Hk Hpk. destruct (He k) as (inner & p1 & -> & Hi & Ho). rewrite new_open.
  eexists. split; [reflexivity|]. split; [by left|]. intros [|fuel] Hf; [lia|].
  cbn [parsePrimary parser_type current_ token_type]. rewrite bool_decide_eq_true_2 by done.
  erewrite consume_at; [|reflexivity|reflexivity|exact Hi]. cbn [mbind res_bind]. rewrite (Ho fuel Hf). cbn [mbind res_bind].
  by erewrite consume_at; [|reflexivity|reflexivity|exact Hpk].
Qed.

(** The second operand, behind the space that follows a keyword. *)
Lemma consume_keyword ty w k pr :
  QueryParser_new k = Ok pr -> consume ty (mkParser (mkToken ty w) (bs " " ++ k)) = Ok pr.
Proof. intros Hk. by apply (consume_at ty _ pr (bs " " ++ k)). Qed.

Lemma reads_and l r : reads l -> reads r -> reads (QAnd l r).
Proof.
  intros Hl Hr. apply reads_parens; [cbn; lia|]. intros k.
  destruct (Hr (bs ")" ++ k) _ (delimited_close k) (new_close k)) as (pr & Hnr & Hor & Hpr).
  set (k2 := print_query r ++ bs ")" ++ k) in *.
  assert (Hn1 : QueryParser_new (bs " " ++ bs "AND" ++ bs " " ++ k2) = Ok (mkParser (mkToken TkAnd (bs "AND")) (bs " " ++ k2)))
    by (apply new_keyword; [done|by repeat constructor|by do 2 eexists]).
  destruct (Hl _ _ (delimited_space _) Hn1) as (pl & Hnl & Hol & Hpl).
  exists (print_query l ++ bs " " ++ bs "AND" ++ bs " " ++ k2), pl.
  split; [cbn [print_query]; by rewrite <- !app_assoc|]. split; [exact Hnl|].
  intros fuel Hf. cbn [height] in Hf. destruct fuel as [|[|[|[|[|f]]]]]; try lia.
  cbn [parseOr parseAnd]. rewrite unary_operand, Hpl by (done || lia).
  cbn [mbind res_bind andLoop parser_type current_ token_type]. rewrite bool_decide_eq_true_2 by done.
  rewrite (consume_keyword _ _ _ _ Hnr). cbn [mbind res_bind]. rewrite unary_operand, Hpr by (done || lia).
  stop_loops.
Qed.

Lemma reads_or l r : reads l -> reads r -> reads (QOr l r).
Proof.
  intros Hl Hr. apply reads_parens; [cbn; lia|]. intros k.
  destruct (Hr (bs ")" ++ k) _ (delimited_close k) (new_close k)) as (pr & Hnr & Hor & Hpr).
  set (k2 := print_query r ++ bs ")" ++ k) in *.
  assert (Hn1 : QueryParser_new (bs " " ++ bs "OR" ++ bs " " ++ k2) = Ok (mkParser (mkToken TkOr (bs "OR")) (bs " " ++ k2)))
    by (apply new_keyword; [done|by repeat constructor|by do 2 eexists]).
  destruct (Hl _ _ (delimited_space _) Hn1) as (pl & Hnl & Hol & Hpl).
  exists (print_query l ++ bs " " ++ bs "OR" ++ bs " " ++ k2), pl.
  split; [cbn [print_query]; by rewrite <- !app_assoc|]. split; [exact Hnl|].
  intros fuel Hf. cbn [height] in Hf. destruct fuel as [|[|[|[|[|f]]]]]; try lia.
  cbn [parseOr parseAnd]. rewrite unary_operand, Hpl by (done || lia). cbn [mbind res_bind].
  rewrite andLoop_stop by done. cbn [mbind res_bind orLoop parser_type current_ token_type].
  rewrite bool_decide_eq_true_2 by done. rewrite (consume_keyword _ _ _ _ Hnr). cbn [mbind res_bind parseAnd].
  rewrite unary_operand, Hpr by (done || lia). stop_loops.
Qed.

Lemma reads_not l : reads l -> reads (QNot l).
Proof.
  intros Hl. apply reads_parens; [cbn; lia|]. intros k.
  destruct (Hl (bs ")" ++ k) _ (delimited_close k) (new_close k)) as (pl & Hnl & Hol & Hpl).
  exists (bs "NOT" ++ bs " " ++ print_query l ++ bs ")" ++ k), (mkParser (mkToken TkNot (bs "NOT"))
    (bs " " ++ print_query l ++ bs ")" ++ k)).
  split; [cbn [print_query]; change (bs "(NOT ") with (bs "(" ++ bs "NOT" ++ bs " "); by rewrite <- !app_assoc|].
  split; [apply (new_keyword (bs "NOT") TkNot (print_query l ++ bs ")" ++ k));
    [done|by repeat constructor|by do 2 eexists]|].
  intros fuel Hf. cbn [height] in Hf. destruct fuel as [|[|[|[|[|f]]]]]; try lia.
  cbn [parseOr parseAnd parseUnary parser_type current_ token_type]. rewrite bool_decide_eq_true_2 by done.
  rewrite (consume_keyword _ _ _ _ Hnl). cbn [mbind res_bind].
  match goal with |- context [if bool_decide (parser_type pl = TkNot) then ?a else ?b] =>
    rewrite (bool_decide_eq_false_2 (parser_type pl = TkNot)) by (destruct Hol as [H|H]; rewrite H; discriminate) end.
  rewrite Hpl by lia. stop_loops.
Qed.

Lemma printable_reads e : printable e -> reads e.
Proof.
  induction e as [|f op v|l IHl r IHr|l IHl r IHr|l IHl]; intros Hp.
  - done.
  - intros k pk Hk Hpk. destruct (parseComparison_print f op v k pk Hp Hk Hpk) as (p & Hn & Ht & Hc).
    exists p. split; [done|]. split; [by right|]. intros [|fuel] Hf; [cbn in Hf; lia|]. cbn [parsePrimary].
    rewrite Ht. by rewrite bool_decide_eq_false_2.
  - destruct Hp. by apply reads_and; auto.
  - destruct Hp. by apply reads_or; auto.
  - by apply reads_not; auto.
Qed.

(** The fuel of [parseQueryExpression] is enough. *)
Lemma parseQuery_defined query : defined (parseQueryExpression query).
Proof.
  unfold parseQueryExpression. destruct query as [|c query]; [done|]. set (q := c :: query).
  destruct (next_spec q) as [Hd _]. unfold QueryParser_new.
  destruct (next q) as [[t r]| | |] eqn:Hn; try done. cbn [mbind res_bind].
  assert (Hr : (remaining (mkParser t r) <= List.length q)%nat)
    by (apply QueryParser_new_remaining; unfold QueryParser_new; by rewrite Hn).
  unfold parse, query_fuel. destruct (parser_progresses (6 * List.length q + 6)) as (Hor & _).
  destruct (Hor (mkParser t r) ltac:(lia)) as [Hdo _]. apply defined_bind; [exact Hdo|].
  intros [e p']. by destruct (negb _).
Qed.

(** ** Properties *)

(** C36.  Parsing a query ends for every text: the fuel of [parseQueryExpression]
    is never exhausted, nothing undefined happens, and the parser either returns
    an expression or throws one of its exceptions. *)
Theorem parseQuery_total query : defined (parseQueryExpression query).
Proof. apply parseQuery_defined. Qed.

(** C35.  The parser recovers every expression: the fully parenthesised text of an
    expression over field names, strings with any characters (escaped) and
    32-bit integers parses back to exactly this expression. *)
Theorem parseQuery_print e : printable e -> parseQueryExpression (print_query e) = Ok e.
Proof.
  intros Hp. pose proof (height_print e Hp) as Hh.
  destruct (printable_reads e Hp [] (mkParser (mkToken TkEnd []) []) I eq_refl) as (p & Hn & Ho & Hr).
  rewrite app_nil_r in Hn. unfold parseQueryExpression.
  destruct (print_query e) as [|c q] eqn:Hq; [destruct e; cbn in Hh; try lia; done|]. rewrite <- Hq in *.
  rewrite Hn. cbn [mbind res_bind]. unfold parse, query_fuel.
  assert (Hf : (6 * List.length (print_query e) + 6 = S (S (S (6 * List.length (print_query e) + 3))))%nat) by lia.
  rewrite Hf. cbn [parseOr parseAnd]. rewrite unary_operand, Hr by (done || lia). cbn [mbind res_bind].
  rewrite andLoop_stop by done. cbn [mbind res_bind]. by rewrite orLoop_stop.
Qed.

(** ** Witnesses *)
Definition sample_query : QueryExpression :=
  QAnd (QComparison (bs "node.id") OpEqual (QueryString [quote; backslash]))
       (QNot (QOr (QComparison (bs "service.schema_version") OpNotEqual (QueryInteger 4294967295))
                  (QComparison (bs "service.accepted_type_urls") OpHas (QueryString (bs "u"))))).

Lemma parseQuery_print_witness : parseQueryExpression (print_query sample_query) = Ok sample_query.
Proof.
  apply (parseQuery_print sample_query).
  cbn [printable sample_query]. split_and!; try lia;
    (split_and!; [vm_compute; reflexivity|by repeat constructor|by do 2 eexists]).
Defined.
