(* ===== verification/ResourceManager.v ===== *)
(** * resource_manager/resource_manager.cpp: the resource manager

    The node at the centre: it authenticates connections, checks and authorizes
    every message it receives, hands the messages addressed to it to its own
    input queue and forwards the others to the connection of their destination.
    Its own protocol is the registry of resource advertisements, with schema
    requests and resource queries.

    An active encoding is its identity and the node id of its peer; whether the
    queues of an encoding, the output queue and the identity queue take a message
    are the functions of [Queues].  What an operation does to the queues around
    it is the list of its effects. *)

From S2P Require Import Prelude BaseTypes Proto GuidBytes KeyPair EndorsementCodec FieldResolver Requirement.
From S2P Require Import MessageHash Signing AuthZ AuthN IdentityCache DateTimes Logging AesNegotiation Node ResourceQuery.

Definition SIGNATURE_FAILED : Enum := 2.
Definition UNIMPLEMENTED : Enum := 3.

(** ** The protocol of the resource manager *)

(** [schemaRegistry_] and [resourceAdvertisements_]. *)
Record Directory := mkDirectory {
  rm_schemaRegistry : SchemaRegistry.t;
  resourceAdvertisements_ : gmap NodeID ResourceAdvertisement.t }.

Definition set_advertisements (d : Directory) (m : gmap NodeID ResourceAdvertisement.t) : Directory :=
  mkDirectory (rm_schemaRegistry d) m.

Definition fromProtoNodeId (nodeId : NodeId) : option NodeID :=
  if negb (Nat.eqb (List.length nodeId) 16) then None
  else Some (mkGUID (memcpy_to_u64 nodeId) (memcpy_to_u64 (drop 8 nodeId))).

Definition eraseResourceAdvertisement (d : Directory) (nodeId : NodeID) : Directory :=
  set_advertisements d (delete nodeId (resourceAdvertisements_ d)).

Definition hasResourceAdvertisement (d : Directory) (nodeId : NodeID) : bool :=
  bool_decide (is_Some (resourceAdvertisements_ d !! nodeId)).

Definition handleAdvertisement (d : Directory) (nodeId : NodeID) (advertisement : ResourceAdvertisement.t) : Directory :=
  match ResourceAdvertisement.records advertisement, ResourceAdvertisement.schemas advertisement with
  | [], [] => eraseResourceAdvertisement d nodeId
  | _, _ =>
      mkDirectory (SchemaRegistry.ingest (rm_schemaRegistry d) advertisement)
        (<[nodeId := advertisement]> (resourceAdvertisements_ d))
  end.

(** The schemas a request selects; an absent string field reads as empty. *)
Definition requestedSchemas (d : Directory) (request : SchemaRequest.t) : list ServiceSchema.t :=
  let found o := match o with Some schema => [schema] | None => [] end in
  match value_or_empty (SchemaRequest.proto_file_name request), value_or_empty (SchemaRequest.schema_hash request) with
  | (_ :: _) as name, _ => found (SchemaRegistry.findByProtoFile (rm_schemaRegistry d) name)
  | [], (_ :: _) as hash => found (SchemaRegistry.findByHash (rm_schemaRegistry d) hash)
  | [], [] => SchemaRegistry.allSchemas (rm_schemaRegistry d)
  end.

(** *** Resource queries: the two nested loops with their breaks

    [matchedCount] has 32 bits; when [maxRecords] is not zero the loops end before
    it can wrap around, so it is the number of services found. *)
Definition full (maxRecords : Z) (found : list DiscoveredService.t) : bool :=
  (0 <? maxRecords) && (maxRecords <=? Z.of_nat (List.length found)).

Definition discovered (nodeId : NodeID) (schema : ServiceSchema.t) : DiscoveredService.t :=
  DiscoveredService.mk (Some (toProtoNodeId nodeId)) (Some schema).

Fixpoint schemaLoop (e : QueryExpression) (maxRecords : Z) (nodeId : NodeID) (schemas : list ServiceSchema.t)
    (found : list DiscoveredService.t) : list DiscoveredService.t :=
  match schemas with
  | [] => found
  | schema :: schemas' =>
      if negb (matchesExpression e (mkCandidate nodeId schema)) then schemaLoop e maxRecords nodeId schemas' found
      else
        let found' := found ++ [discovered nodeId schema] in
        if full maxRecords found' then found' else schemaLoop e maxRecords nodeId schemas' found'
  end.

Fixpoint advertisementLoop (e : QueryExpression) (maxRecords : Z)
    (advertisements : list (NodeID * ResourceAdvertisement.t)) (found : list DiscoveredService.t)
    : list DiscoveredService.t :=
  match advertisements with
  | [] => found
  | (nodeId, advertisement) :: advertisements' =>
      let found' := schemaLoop e maxRecords nodeId (ResourceAdvertisement.schemas advertisement) found in
      if full maxRecords found' then found' else advertisementLoop e maxRecords advertisements' found'
  end.

Definition queryServices (d : Directory) (e : QueryExpression) (maxRecords : Z) : list DiscoveredService.t :=
  advertisementLoop e maxRecords (in_order (resourceAdvertisements_ d)) [].

(** ** The query loops compute a filter *)

(** Everything that is advertised, in the order of the nodes. *)
Definition candidates (d : Directory) : list ServiceCandidate :=
  in_order (resourceAdvertisements_ d) ≫= (fun a => mkCandidate a.1 <$> ResourceAdvertisement.schemas a.2).

Definition service_of (c : ServiceCandidate) : DiscoveredService.t := discovered (candidate_nodeId c) (candidate_schema c).

(** At most [maxRecords] results; 0 means all. *)
Definition limited {X} (maxRecords : Z) (l : list X) : list X :=
  if 0 <? maxRecords then take (Z.to_nat maxRecords) l else l.

Lemma full_spec maxRecords found : full maxRecords found = true <-> 0 < maxRecords <= Z.of_nat (List.length found).
Proof. unfold full. rewrite andb_true_iff, Z.ltb_lt, Z.leb_le. lia. Qed.

Lemma full_nil maxRecords : full maxRecords [] = false.
Proof. apply not_true_iff_false. rewrite full_spec. cbn. lia. Qed.

Lemma not_full_limited maxRecords found : full maxRecords found = false -> limited maxRecords found = found.
Proof.
  intros Hf. unfold limited. destruct (Z.ltb_spec 0 maxRecords); [|done]. apply take_ge.
  destruct (Z.leb_spec maxRecords (Z.of_nat (List.length found))) as [Hle|]; [|lia].
  assert (full maxRecords found = true) by (apply full_spec; lia). congruence.
Qed.

(** A result that is full is not extended. *)
Lemma full_limited maxRecords (found more : list DiscoveredService.t) :
  full maxRecords (limited maxRecords found) = true -> limited maxRecords (found ++ more) = limited maxRecords found.
Proof.
  rewrite full_spec. unfold limited. destruct (Z.ltb_spec 0 maxRecords); [|lia]. rewrite length_take. intros Hf.
  apply take_app_le. lia.
Qed.

Lemma schemaLoop_spec e maxRecords n schemas found :
  full maxRecords found = false ->
  schemaLoop e maxRecords n schemas found =
  limited maxRecords (found ++ (service_of <$> List.filter (matchesExpression e) (mkCandidate n <$> schemas))).
Proof.
  revert found. induction schemas as [|s schemas IH]; intros found Hf; cbn [schemaLoop fmap list_fmap List.filter].
  { by rewrite app_nil_r, not_full_limited. }
  destruct (matchesExpression e (mkCandidate n s)) eqn:Hm; cbn [negb]; [|by rewrite IH].
  cbn [fmap list_fmap]. change (service_of (mkCandidate n s)) with (discovered n s).
  set (rest := service_of <$> List.filter (matchesExpression e) (mkCandidate n <$> schemas)).
  replace (found ++ discovered n s :: rest) with ((found ++ [discovered n s]) ++ rest) by (by rewrite <- app_assoc).
  destruct (full maxRecords (found ++ [discovered n s])) eqn:Hfull; [|by rewrite IH].
  assert (Hexact : limited maxRecords (found ++ [discovered n s]) = found ++ [discovered n s]).
  { apply full_spec in Hfull. rewrite length_app in Hfull. cbn in Hfull. unfold limited.
    destruct (Z.ltb_spec 0 maxRecords); [|lia]. apply take_ge. rewrite length_app. cbn.
    destruct (Z.leb_spec maxRecords (Z.of_nat (List.length found))); [|lia].
    assert (full maxRecords found = true) by (apply full_spec; lia). congruence. }
  rewrite full_limited by (by rewrite Hexact). by rewrite Hexact.
Qed.

Lemma advertisementLoop_spec e maxRecords advertisements found :
  full maxRecords found = false ->
  advertisementLoop e maxRecords advertisements found =
  limited maxRecords (found ++ (service_of <$> List.filter (matchesExpression e)
    (advertisements ≫= (fun a => mkCandidate a.1 <$> ResourceAdvertisement.schemas a.2)))).
Proof.
  revert found. induction advertisements as [|[n a] advs IH]; intros found Hf; cbn [advertisementLoop mbind list_bind].
  { cbn. by rewrite app_nil_r, not_full_limited. }
  rewrite schemaLoop_spec by done. cbn [fst snd]. rewrite List.filter_app, fmap_app, app_assoc.
  set (found' := found ++ (service_of <$> _)).
  destruct (full maxRecords (limited maxRecords found')) eqn:Hfull; [by rewrite full_limited|].
  rewrite IH by done. f_equal. f_equal.
  unfold limited in *. destruct (Z.ltb_spec 0 maxRecords); [|done]. apply take_ge.
  destruct (Z.leb_spec (Z.of_nat (List.length found')) maxRecords); [lia|].
  assert (full maxRecords (take (Z.to_nat maxRecords) found') = true) by (apply full_spec; rewrite length_take; lia).
  congruence.
Qed.

(** [mutable_resource_query_reply] is only touched when a service is found. *)
Definition queryReply (requester : NodeID) (services : list DiscoveredService.t) : RSPMessage.t :=
  let reply := to_destination (toProtoNodeId requester) in
  match services with
  | [] => reply
  | _ => RSPMessage.set_core reply (Some (ResourceQueryReply services))
  end.

Definition queryError (requester : NodeID) (e : exn) : RSPMessage.t :=
  RSPMessage.set_core (to_destination (toProtoNodeId requester))
    (Some (ErrorMessage (Error.mk UNIMPLEMENTED (bs "invalid resource query: " ++ exn_what e)))).

Definition answerQuery (d : Directory) (requester : NodeID) (query : ResourceQuery.t) : Res RSPMessage.t :=
  catch_any
    (e ← parseQueryExpression (ResourceQuery.query query);
     Ok (queryReply requester (queryServices d e (ResourceQuery.max_records query))))
    (fun e => Ok (queryError requester e)).

(** [push] is the output queue: a reply it does not take leaves the message to
    the base handler. *)
Definition rm_handleNodeSpecificMessage (push : RSPMessage.t -> bool) (d : Directory) (message : RSPMessage.t)
    : Res (bool * list RSPMessage.t * Directory) :=
  match RSPMessage.core_message message with
  | Some (ResourceAdvertisementMessage advertisement) =>
      match senderNodeIdFromMessage message with
      | None => Ok (false, [], d)
      | Some nodeId => Ok (true, [], handleAdvertisement d nodeId advertisement)
      end
  | Some (SchemaRequestMessage request) =>
      match senderNodeIdFromMessage message with
      | None => Ok (false, [], d)
      | Some requester =>
          let reply := RSPMessage.set_core (to_destination (toProtoNodeId requester))
                         (Some (SchemaReply (requestedSchemas d request))) in
          Ok (push reply, [reply], d)
      end
  | Some (ResourceQueryMessage query) =>
      match senderNodeIdFromMessage message with
      | None => Ok (false, [], d)
      | Some requester => reply ← answerQuery d requester query; Ok (push reply, [reply], d)
      end
  | _ => Ok (false, [], d)
  end.

Lemma rm_specific_defined push d m : defined (rm_handleNodeSpecificMessage push d m).
Proof.
  unfold rm_handleNodeSpecificMessage. destruct (RSPMessage.core_message m) as [[]|]; try done.
  all: destruct (senderNodeIdFromMessage m); try done. unfold answerQuery.
  match goal with |- context [parseQueryExpression ?q] => pose proof (parseQuery_defined q) as Hq end.
  by destruct (parseQueryExpression _).
Qed.

(** ** The resource manager *)
Record Queues := mkQueues {
  (** the output queue *)
  q_output : RSPMessage.t -> bool;
  (** the signing queue and the outgoing queue of an encoding *)
  q_signing : nat -> RSPMessage.t -> bool;
  q_outgoing : nat -> RSPMessage.t -> bool;
  (** the queue that resolves identities *)
  q_identity : RSPMessage.t -> NodeID -> bool }.

Record ActiveEncodingState := mkActive { encoding : nat; peerNodeID : option NodeID }.

Inductive Effect :=
(** pushed on the node's input or output queue *)
| ToInput (m : RSPMessage.t)
| ToOutput (m : RSPMessage.t)
(** pushed on the outgoing queue or on the signing queue of an encoding *)
| ToOutgoing (e : nat) (m : RSPMessage.t)
| ToSigning (e : nat) (m : RSPMessage.t)
(** pushed on the identity queue *)
| ToIdentity (m : RSPMessage.t) (signer : NodeID).

Section ResourceManager.
Context `{H : HashCodec} `{C : Crypto} `{A : !KeyAgreement C} `{R : Reflection} `{M : MathLib}.
Context (as_message : RSPMessage.t -> Message) (queues : Queues) {Callback : Type}.

#[local] Instance rm_specific : NodeSpecific :=
  {| Specific := Directory; handleNodeSpecificMessage := rm_handleNodeSpecificMessage (q_output queues) |}.

(** The virtual methods of the authorization, with the base class's answers
    [rm_authorizationTree] and [rm_getAuthorizationEndorsements]. *)
Context (authorizationTree : ERDAbstractSyntaxTree) (getAuthorizationEndorsements : NodeID -> Res (list Endorsement.t)).

Definition rm_authorizationTree : ERDAbstractSyntaxTree := TrueValue.
Definition rm_getAuthorizationEndorsements (nodeId : NodeID) : Res (list Endorsement.t) := Ok [].

Record ResourceManager := mkRM {
  rm_node : RSPNode (Callback := Callback);
  activeEncodings_ : list ActiveEncodingState }.

Definition directory (rm : ResourceManager) : Directory := specific_ (rm_node rm).

Definition set_node (rm : ResourceManager) (n : RSPNode) : ResourceManager := mkRM n (activeEncodings_ rm).
Definition set_directory (rm : ResourceManager) (d : Directory) : ResourceManager :=
  set_node rm (set_specific (rm_node rm) d).

(** ** Sending *)

(** The loops over [activeEncodings_]: the first connection of the destination. *)
Definition findEncoding (encodings : list ActiveEncodingState) (destination : NodeId) : option ActiveEncodingState :=
  List.find (fun e => match peerNodeID e with
                      | Some peer => bool_decide (toProtoNodeId peer = destination)
                      | None => false
                      end) encodings.

Definition sendLocalMessage (rm : ResourceManager) (message : RSPMessage.t) : bool * list Effect :=
  match RSPMessage.destination message with
  | None | Some [] => (false, [])
  | Some destination =>
      match findEncoding (activeEncodings_ rm) destination with
      | None => (false, [])
      | Some e => (q_signing queues (encoding e) message, [ToSigning (encoding e) message])
      end
  end.

Definition sendToConnection (rm : ResourceManager) (index : nat) (message : RSPMessage.t) : bool * list Effect :=
  match activeEncodings_ rm !! index with
  | None => (false, [])
  | Some e => (q_signing queues (encoding e) message, [ToSigning (encoding e) message])
  end.

(** A destination that cannot be reached loses its advertisement. *)
Definition forget (rm : ResourceManager) (destinationNodeId : option NodeID) : ResourceManager :=
  match destinationNodeId with
  | Some id => set_directory rm (eraseResourceAdvertisement (directory rm) id)
  | None => rm
  end.

Definition routeAndSend (rm : ResourceManager) (message : RSPMessage.t) : bool * list Effect * ResourceManager :=
  match RSPMessage.destination message with
  | None | Some [] => (false, [], rm)
  | Some destination =>
      let destinationNodeId := fromProtoNodeId destination in
      match findEncoding (activeEncodings_ rm) destination with
      | None => (false, [], forget rm destinationNodeId)
      | Some e =>
          let sent := q_outgoing queues (encoding e) message in
          (sent, [ToOutgoing (encoding e) message], if sent then rm else forget rm destinationNodeId)
      end
  end.

Definition isForThisNode (local : NodeID) (message : RSPMessage.t) : bool :=
  match RSPMessage.destination message with
  | None => true
  | Some destination => bool_decide (destination = toProtoNodeId local)
  end.

(** The loop stops at the first encoding of the peer. *)
Lemma findEncoding_first encodings destination a :
  findEncoding encodings destination = Some a ->
  exists l r peer, encodings = l ++ a :: r /\ peerNodeID a = Some peer /\ toProtoNodeId peer = destination
    /\ Forall (fun x => forall p, peerNodeID x = Some p -> toProtoNodeId p <> destination) l.
Proof.
  unfold findEncoding. induction encodings as [|x encodings IH]; [done|]. cbn [List.find].
  destruct (peerNodeID x) as [p|] eqn:Hp; [case_bool_decide as Hb|].
  - intros [= <-]. by exists [], encodings, p.
  - intros Hf. destruct (IH Hf) as (l & r & peer & -> & H1 & H2 & H3). exists (x :: l), r, peer. split_and!; try done.
    constructor; [|done]. intros q Hq. congruence.
  - intros Hf. destruct (IH Hf) as (l & r & peer & -> & H1 & H2 & H3). exists (x :: l), r, peer. split_and!; try done.
    constructor; [|done]. intros q Hq. congruence.
Qed.

(** [SIGNATURE_FAILED] and [EndorsementNeeded] replies; [nonce] is the random
    nonce of a reply to a message that has none. *)
Definition failureReply (rejected : RSPMessage.t) (requester : NodeID) (nonce : bytes) : RSPMessage.t :=
  RSPMessage.set_nonce (to_destination (toProtoNodeId requester))
    (Some match RSPMessage.nonce rejected with Some n => n | None => nonce end).

Definition sendSignatureFailure (rm : ResourceManager) (rejected : RSPMessage.t) (reason nonce : bytes) : list Effect :=
  match senderNodeIdFromMessage rejected with
  | None => []
  | Some requester =>
      (sendLocalMessage rm (RSPMessage.set_core (failureReply rejected requester nonce)
         (Some (ErrorMessage (Error.mk SIGNATURE_FAILED reason))))).2
  end.

Definition sendEndorsementNeeded (rm : ResourceManager) (rejected : RSPMessage.t) (nonce : bytes) : list Effect :=
  match senderNodeIdFromMessage rejected with
  | None => []
  | Some requester =>
      let reply := failureReply rejected requester nonce in
      (sendLocalMessage rm (RSPMessage.set_core reply
         (Some (EndorsementNeededMessage (EndorsementNeeded.mk (RSPMessage.nonce reply) (Some authorizationTree)))))).2
  end.

(** ** The way of a received message *)
Definition verificationKeyForNodeId (local : NodeID) (rm : ResourceManager) (nodeId : NodeID) : Res (option KeyPair) :=
  if bool_decide (nodeId = local) then Ok (Some (keyPair_ (rm_node rm)))
  else
    match get (identityCache_ (rm_node rm)) nodeId with
    | None => Ok None
    | Some identity =>
        catch_any (key ← fromPublicKey (default default_public_key (Identity.public_key identity)); Ok (Some key))
                  (fun _ => Ok None)
    end.

Definition handleSignatureFailure (rm : ResourceManager) (message : RSPMessage.t) (failure : Failure) (nonce : bytes)
    : list Effect :=
  let rejected :=
    sendSignatureFailure rm message
      (match reason failure with [] => bs "signature verification failed" | r => r end) nonce in
  match kind failure, Signing.signerNodeId failure with
  | MissingVerificationKey, Some signer =>
      ToIdentity message signer :: (if q_identity queues message signer then [] else rejected)
  | _, _ => rejected
  end.

Definition handleAuthorizedMessage (local : NodeID) (rm : ResourceManager) (env : Env) (message : RSPMessage.t)
    : Res (list Effect * ResourceManager) :=
  if isForThisNode local message then
    '(drops, n) ← enqueueInput local (rm_node rm) env message;
    Ok ((ToOutput <$> drops) ++ [ToInput message], set_node rm n)
  else
    '(_, _, c) ← observeMessage (identityCache_ (rm_node rm)) message;
    let '(_, effects, rm') := routeAndSend (set_node rm (set_cache (rm_node rm) c)) message in
    Ok (effects, rm').

Definition authzQueue (rm : ResourceManager) : MessageQueueAuthZ :=
  mkAuthZ (fun _ => Ok tt) getAuthorizationEndorsements authorizationTree (Some (rm_schemaRegistry (directory rm))).

(** A message that passed the signature check. *)
Definition processVerified (local : NodeID) (rm : ResourceManager) (env : Env) (nonce : bytes) (message : RSPMessage.t)
    : Res (list Effect * ResourceManager) :=
  events ← MessageQueueAuthZ_handleMessage as_message (authzQueue rm) message;
  match events with
  | [Authorized m] => handleAuthorizedMessage local rm env m
  | [Rejected (Some m)] => Ok (sendEndorsementNeeded rm m nonce, rm)
  | _ => Ok ([], rm)
  end.

(** A message from the wire: signature check, authorization, delivery. *)
Definition processReceived (local : NodeID) (rm : ResourceManager) (env : Env) (nonce : bytes) (message : RSPMessage.t)
    : Res (list Effect * ResourceManager) :=
  events ← MessageQueueCheckSignature_handleMessage (verificationKeyForNodeId local rm) (fun _ => Ok tt) message;
  match events with
  | [Succeeded m] => processVerified local rm env nonce m
  | [Failed (Some m) failure] => Ok (handleSignatureFailure rm m failure nonce, rm)
  | _ => Ok ([], rm)
  end.

(** ** Lemmas *)

Lemma verificationKey_certified local rm id k :
  cache_inv (identityCache_ (rm_node rm)) -> nodeID (keyPair_ (rm_node rm)) = Ok local ->
  verificationKeyForNodeId local rm id = Ok (Some k) ->
  nodeID k = Ok id /\ (id = local \/ contains (identityCache_ (rm_node rm)) id = true).
Proof.
  intros I Hl. unfold verificationKeyForNodeId. case_bool_decide as Hid.
  { intros [= <-]. subst id. split; [exact Hl|by left]. }
  destruct (get (identityCache_ (rm_node rm)) id) as [i|] eqn:Hg; [|done]. unfold get in Hg.
  destruct (entries_ _ !! id) as [e|] eqn:He; [|done]. injection Hg as <-.
  destruct (inv_certified _ I id e He) as (pk & key & Hi & Hk & Hn). rewrite Hi. cbn [Identity.public_key from_option Datatypes.id].
  rewrite Hk. cbn. intros [= <-]. split; [exact Hn|]. right. apply bool_decide_eq_true_2. by exists e.
Qed.

Lemma sendLocalMessage_effects rm m x : x ∈ (sendLocalMessage rm m).2 -> exists e, x = ToSigning e m.
Proof.
  unfold sendLocalMessage. destruct (RSPMessage.destination m) as [[|c d]|]; try (by intros ?%elem_of_nil).
  destruct (findEncoding _ _) as [a|]; [|by intros ?%elem_of_nil]. intros ->%list_elem_of_singleton. by eexists.
Qed.

(** The effects of a rejection. *)
Definition is_rejection (x : Effect) : Prop := match x with ToSigning _ _ | ToIdentity _ _ => True | _ => False end.

Lemma sendSignatureFailure_effects rm m r nonce x : x ∈ sendSignatureFailure rm m r nonce -> is_rejection x.
Proof.
  unfold sendSignatureFailure. destruct (senderNodeIdFromMessage m); [|by intros ?%elem_of_nil].
  by intros [e ->]%sendLocalMessage_effects.
Qed.

Lemma sendEndorsementNeeded_effects rm m nonce x : x ∈ sendEndorsementNeeded rm m nonce -> is_rejection x.
Proof.
  unfold sendEndorsementNeeded. destruct (senderNodeIdFromMessage m); [|by intros ?%elem_of_nil].
  by intros [e ->]%sendLocalMessage_effects.
Qed.

Lemma handleSignatureFailure_effects rm m f nonce x : x ∈ handleSignatureFailure rm m f nonce -> is_rejection x.
Proof.
  unfold handleSignatureFailure. pose proof (sendSignatureFailure_effects rm m) as Hs.
  destruct (kind f), (Signing.signerNodeId f) as [sg|]; try (apply Hs).
  intros [->|Hx]%elem_of_cons; [done|]. destruct (q_identity queues m sg); [by apply elem_of_nil in Hx|by eapply Hs].
Qed.

(** What [processReceived] lets through. *)
Lemma processReceived_cases local rm env nonce m effects rm' :
  processReceived local rm env nonce m = Ok (effects, rm') ->
  (exists evs, MessageQueueCheckSignature_handleMessage (verificationKeyForNodeId local rm) (fun _ => Ok tt) m = Ok evs
     /\ Succeeded m ∈ evs /\ processVerified local rm env nonce m = Ok (effects, rm'))
  \/ rm' = rm /\ Forall is_rejection effects.
Proof.
  unfold processReceived. intros E.
  destruct (MessageQueueCheckSignature_handleMessage _ _ m) as [evs| | |] eqn:Hev; try done. cbn [mbind res_bind] in E.
  destruct evs as [|[m'|[m'|] f] [|? ?]]; try (right; injection E as <- <-; by split).
  - left. exists [Succeeded m']. destruct (checkSignature_accepts _ _ _ _ m' Hev ltac:(by left)) as [-> _].
    split; [done|]. split; [by left|exact E].
  - right. injection E as <- <-. split; [done|]. apply Forall_forall. apply handleSignatureFailure_effects.
Qed.

Lemma processVerified_cases local rm env nonce m effects rm' :
  processVerified local rm env nonce m = Ok (effects, rm') ->
  (exists id es, senderNodeIdFromMessage m = Some id /\ getAuthorizationEndorsements id = Ok es
     /\ (monotone authorizationTree ->
         sat (Some (as_message m)) (Some (SchemaRegistry.snapshot (rm_schemaRegistry (directory rm)))) es authorizationTree = true)
     /\ handleAuthorizedMessage local rm env m = Ok (effects, rm'))
  \/ rm' = rm /\ Forall is_rejection effects.
Proof.
  unfold processVerified. intros E.
  destruct (MessageQueueAuthZ_handleMessage as_message (authzQueue rm) m) as [evs| | |] eqn:Hev; try done.
  cbn [mbind res_bind] in E.
  destruct evs as [|[m'|[m'|]] [|? ?]]; try (right; injection E as <- <-; by split).
  - left. destruct (authz_accepts as_message (authzQueue rm) m _ m' Hev ltac:(by left)) as (-> & id & es & H1 & H2 & H3).
    by exists id, es.
  - right. injection E as <- <-. split; [done|]. apply Forall_forall. apply sendEndorsementNeeded_effects.
Qed.

(** Where an authorized message goes. *)
Lemma handleAuthorized_effects local rm env m effects rm' x :
  handleAuthorizedMessage local rm env m = Ok (effects, rm') -> x ∈ effects ->
  match x with
  | ToInput m' => m' = m /\ isForThisNode local m = true
  | ToOutgoing e m' => m' = m /\ exists a peer, a ∈ activeEncodings_ rm /\ encoding a = e /\ peerNodeID a = Some peer
                         /\ RSPMessage.destination m = Some (toProtoNodeId peer)
  | ToOutput _ => True
  | _ => False
  end.
Proof.
  unfold handleAuthorizedMessage. destruct (isForThisNode local m) eqn:Hf.
  - destruct (enqueueInput local (rm_node rm) env m) as [[drops n]| | |]; try done. cbn [mbind res_bind].
    intros [= <- <-] [Hx|Hx]%elem_of_app.
    + by apply list_elem_of_fmap in Hx as (y & -> & _).
    + by apply list_elem_of_singleton in Hx as ->.
  - destruct (observeMessage _ m) as [[[b cs] c]| | |]; try done. cbn [mbind res_bind]. unfold routeAndSend.
    destruct (RSPMessage.destination m) as [[|c0 dest]|]; try (intros [= <- <-]; by intros ?%elem_of_nil).
    cbn [activeEncodings_ set_node]. destruct (findEncoding _ _) as [a|] eqn:Hfind; intros [= <- <-]; [|by intros ?%elem_of_nil].
    intros ->%list_elem_of_singleton. split; [done|]. apply find_some in Hfind as [Hin Hp].
    destruct (peerNodeID a) as [peer|] eqn:Hpeer; [|done]. apply bool_decide_eq_true_1 in Hp.
    exists a, peer. split_and!; try done; [by apply list_elem_of_In|by rewrite Hp].
Qed.

(** ** Properties *)

(** C1.  End to end: only authentic and authorized messages are delivered.  When, with
    a consistent identity cache, the resource manager hands something to its own input queue or to the
    outgoing queue of a connection, it is the received message, unchanged; its
    signature verifies under a key that hashes to the node id of its sender (the
    manager's own key or one from the identity cache); the sender's endorsements could
    be looked up and, if the authorization rule has no EQUALS above its predicates,
    they and the message satisfy it; and it reaches the input queue only if it is
    addressed to the manager, a connection only if the authenticated peer of that
    connection is its destination.  (For a rule with EQUALS above its predicates see
    [equals_rule_is_void].) *)
Theorem delivered_messages_are_authentic local rm env nonce m effects rm' m' (target : option nat) :
  cache_inv (identityCache_ (rm_node rm)) -> nodeID (keyPair_ (rm_node rm)) = Ok local ->
  processReceived local rm env nonce m = Ok (effects, rm') ->
  (match target with None => ToInput m' | Some e => ToOutgoing e m' end) ∈ effects ->
  m' = m
  /\ (exists id key sig stream es,
        senderNodeIdFromMessage m = Some id /\ nodeID (Some key) = Ok id
        /\ RSPMessage.signature m = Some sig /\ hashRSPMessage m = Ok stream
        /\ digest_verify key (sha256 stream) (SignatureBlock.signature sig) = Some true
        /\ getAuthorizationEndorsements id = Ok es
        /\ (monotone authorizationTree ->
            sat (Some (as_message m)) (Some (SchemaRegistry.snapshot (rm_schemaRegistry (directory rm)))) es
              authorizationTree = true))
  /\ match target with
     | None => isForThisNode local m = true
     | Some e => exists a peer, a ∈ activeEncodings_ rm /\ encoding a = e /\ peerNodeID a = Some peer
                   /\ RSPMessage.destination m = Some (toProtoNodeId peer)
     end.
Proof.
  intros I Hl Hp Hx.
  assert (Hnot : ~ is_rejection (match target with None => ToInput m' | Some e => ToOutgoing e m' end)) by (destruct target; intros []).
  destruct (processReceived_cases _ _ _ _ _ _ _ Hp) as [(evs & Hev & Hin & Hv)|[_ Hr]];
    [|rewrite Forall_forall in Hr; by apply Hr in Hx].
  destruct (processVerified_cases _ _ _ _ _ _ _ Hv) as [(id & es & Hs & He & Hsat & Ha)|[_ Hr]];
    [|rewrite Forall_forall in Hr; by apply Hr in Hx].
  destruct (checkSignature_accepts _ _ _ _ m Hev Hin) as (_ & sig & id' & key & stream & H1 & H2 & H3 & H4 & H5 & H6).
  rewrite Hs in H6. injection H6 as <-.
  pose proof (handleAuthorized_effects local rm env m effects rm' _ Ha Hx) as Hd.
  assert (Hm : m' = m) by (destruct target; apply Hd). split; [exact Hm|]. split; [|destruct target; apply Hd].
  by exists id, key, sig, stream, es.
Qed.

(** Routing leaves everything alone but the advertisements. *)
Lemma routeAndSend_keeps rm m :
  activeEncodings_ (routeAndSend rm m).2 = activeEncodings_ rm
  /\ identityCache_ (rm_node (routeAndSend rm m).2) = identityCache_ (rm_node rm).
Proof.
  unfold routeAndSend, forget. destruct (RSPMessage.destination m) as [[|c d]|]; try done.
  destruct (findEncoding _ _); [destruct (q_outgoing _ _ _)|]; cbn; try done; by destruct (fromProtoNodeId _).
Qed.

Lemma processReceived_cache local rm env nonce m effects rm' :
  cache_inv (identityCache_ (rm_node rm)) -> nodeID (keyPair_ (rm_node rm)) = Ok local ->
  processReceived local rm env nonce m = Ok (effects, rm') ->
  identityCache_ (rm_node rm') = identityCache_ (rm_node rm)
  \/ exists id b calls, senderNodeIdFromMessage m = Some id
       /\ (id = local \/ contains (identityCache_ (rm_node rm)) id = true)
       /\ observeMessage (identityCache_ (rm_node rm)) m = Ok (b, calls, identityCache_ (rm_node rm')).
Proof.
  intros I Hl Hp.
  destruct (processReceived_cases _ _ _ _ _ _ _ Hp) as [(evs & Hev & Hin & Hv)|[-> _]]; [|by left].
  destruct (processVerified_cases _ _ _ _ _ _ _ Hv) as [(id & es & Hs & He & Hsat & Ha)|[-> _]]; [|by left].
  destruct (checkSignature_accepts _ _ _ _ m Hev Hin) as (_ & sig & id' & key & stream & H1 & H2 & H3 & H4 & H5 & H6).
  rewrite Hs in H6. injection H6 as <-. right. exists id.
  destruct (verificationKey_certified local rm id (Some key) I Hl H2) as [_ Hknown].
  unfold handleAuthorizedMessage in Ha. destruct (isForThisNode local m).
  - unfold enqueueInput in Ha. destruct (processExpiredAesKeys _ _ _).
    destruct (observeMessage _ m) as [[[b cs] c]| | |] eqn:Ho; try done. cbn [mbind res_bind] in Ha. injection Ha as _ <-.
    exists b, cs. by split_and!.
  - destruct (observeMessage _ m) as [[[b cs] c]| | |] eqn:Ho; try done. cbn [mbind res_bind] in Ha.
    pose proof (routeAndSend_keeps (set_node rm (set_cache (rm_node rm) c)) m) as [_ Hk].
    destruct (routeAndSend _ m) as [[sent effs] rm2]. injection Ha as <- <-. cbn in Hk.
    exists b, cs. split_and!; try done. by rewrite Hk.
Qed.

(** Finding.  Received messages never teach the resource manager a new
    identity: whatever is received, every node in the identity cache afterwards
    was there before or is the manager itself.  In particular the answer of an
    unknown signer to the challenge that the identity queue sends out is not
    accepted (its signature cannot be checked without the key it carries), so
    messages waiting for a signer's identity are only released when that node
    authenticates on a new connection. *)
Theorem messages_never_introduce_identities local rm env nonce m effects rm' id :
  cache_inv (identityCache_ (rm_node rm)) -> nodeID (keyPair_ (rm_node rm)) = Ok local ->
  processReceived local rm env nonce m = Ok (effects, rm') ->
  contains (identityCache_ (rm_node rm')) id = true ->
  id = local \/ contains (identityCache_ (rm_node rm)) id = true.
Proof.
  intros I Hl Hp Hc. destruct (processReceived_cache local rm env nonce m effects rm' I Hl Hp)
    as [<-|(s & b & calls & Hs & Hknown & Ho)]; [by right|].
  destruct (decide (id = s)) as [->|Hne]; [done|]. right.
  destruct (observeMessage_spec (identityCache_ (rm_node rm)) m I) as (c' & Ho' & I' & _ & V).
  rewrite Ho in Ho'. injection Ho' as _ _ <-.
  assert (Hg : is_Some (get (identityCache_ (rm_node rm')) id)).
  { apply bool_decide_eq_true_1 in Hc as [e He]. unfold get. rewrite He. by eexists. }
  rewrite get_view, V, Hs in Hg by apply inv_linked, I'.
  destruct (lru_get_puts_other id s (maximumEntries_ (identityCache_ (rm_node rm))) _ (view (identityCache_ (rm_node rm)))
    Hne (accepted_sender s (message_identities m))) as [[E|E] _]; rewrite E in Hg; [|by destruct Hg].
  rewrite <- get_view in Hg by apply inv_linked, I. apply bool_decide_eq_true_2.
  unfold get in Hg. destruct (entries_ (identityCache_ (rm_node rm)) !! id); [by eexists|by destruct Hg].
Qed.

(** The resource manager's input handler is safe for every message: what the base class
    needs of the concrete node always holds. *)
Theorem rm_handler_safe `{!CryptoLaws C} cap local rm env m :
  node_inv cap (rm_node rm) -> defined (env_key env) -> node_safe cap (handleMessage local (rm_node rm) env m).
Proof. intros I Hk. apply handleMessage_safe; [done|done|]. apply rm_specific_defined. Qed.

(** Routing follows the authenticated connections.  When [routeAndSend]
    answers true, it has pushed the message, unchanged and only once, on the
    outgoing queue of the first active encoding whose authenticated peer is the
    destination; when there is no such encoding or its queue refuses the message,
    the destination's advertisement is withdrawn and all others stay; a message
    without destination is not sent. *)
Theorem routing_exact rm m sent effects rm' :
  routeAndSend rm m = (sent, effects, rm') ->
  (sent = true -> exists l a r peer, activeEncodings_ rm = l ++ a :: r /\ peerNodeID a = Some peer
     /\ RSPMessage.destination m = Some (toProtoNodeId peer)
     /\ Forall (fun x => peerNodeID x <> Some peer) l
     /\ effects = [ToOutgoing (encoding a) m] /\ rm' = rm)
  /\ (sent = false -> forall peer, GUID_wf peer -> RSPMessage.destination m = Some (toProtoNodeId peer) ->
       resourceAdvertisements_ (directory rm') = delete peer (resourceAdvertisements_ (directory rm)))
  /\ (RSPMessage.destination m = None -> sent = false /\ effects = [] /\ rm' = rm)
  /\ activeEncodings_ rm' = activeEncodings_ rm
  /\ identityCache_ (rm_node rm') = identityCache_ (rm_node rm).
Proof.
  intros E. pose proof (routeAndSend_keeps rm m) as [K1 K2]. rewrite E in K1, K2. cbn [snd] in K1, K2.
  split; [|split; [|split; [|by split]]].
  - intros ->. unfold routeAndSend in E. destruct (RSPMessage.destination m) as [[|c d]|] eqn:Hd; try done.
    destruct (findEncoding (activeEncodings_ rm) (c :: d)) as [a|] eqn:Hf; [|done].
    destruct (q_outgoing queues (encoding a) m); [|done]. injection E as <- <-.
    destruct (findEncoding_first _ _ _ Hf) as (l & r & peer & H1 & H2 & H3 & H4).
    exists l, a, r, peer. split_and!; try done; [by rewrite H3|].
    eapply Forall_impl; [exact H4|]. intros x Hx Hpx. apply (Hx peer Hpx). done.
  - intros -> peer Hwf Hd. unfold routeAndSend in E. rewrite Hd in E.
    assert (Hlen : exists c d, toProtoNodeId peer = c :: d).
    { pose proof (length_toProtoNodeId peer). destruct (toProtoNodeId peer); [done|by do 2 eexists]. }
    destruct Hlen as (c & d & Hcd). rewrite Hcd in E.
    assert (Hforget : rm' = forget rm (fromProtoNodeId (c :: d))).
    { destruct (findEncoding _ _); [destruct (q_outgoing _ _ _)|]; by simplify_eq/=. }
    rewrite <- Hcd in Hforget.
    assert (Hfrom : fromProtoNodeId (toProtoNodeId peer) = Some peer) by exact (nodeIdFromSourceField_toProto peer Hwf).
    rewrite Hforget, Hfrom. reflexivity.
  - intros Hd. unfold routeAndSend in E. rewrite Hd in E. by simplify_eq/=.
Qed.
End ResourceManager.

(** *** The answer to a query *)

(** C37.  A resource query is answered exactly.  The services returned for a
    parsed query are those advertised services that match it, each with its
    node id and schema, in the order of the node ids and of each node's
    advertisement, cut off after [max_records] when that is not zero: the nested
    loops with their early exits compute this filter. *)
Theorem query_reply_exact d requester query e :
  parseQueryExpression (ResourceQuery.query query) = Ok e ->
  answerQuery d requester query = Ok (queryReply requester
    (limited (ResourceQuery.max_records query)
       (service_of <$> List.filter (matchesExpression e) (candidates d)))).
Proof.
  intros Hp. unfold answerQuery, queryServices. rewrite Hp. cbn [mbind res_bind catch_any].
  by rewrite advertisementLoop_spec by apply full_nil.
Qed.

(** Finding.  A query that matches nothing is answered with a message
    without content: the reply carries no [resource_query_reply], so the
    requester cannot recognise it as the answer to its query. *)
Theorem empty_query_reply_has_no_body d requester query e :
  parseQueryExpression (ResourceQuery.query query) = Ok e ->
  Forall (fun c => matchesExpression e c = false) (candidates d) ->
  exists reply, answerQuery d requester query = Ok reply /\ RSPMessage.core_message reply = None.
Proof.
  intros Hp Hnone. unfold answerQuery, queryServices. rewrite Hp. cbn [mbind res_bind catch_any].
  eexists. split; [reflexivity|]. rewrite advertisementLoop_spec by apply full_nil.
  assert (Hf : List.filter (matchesExpression e) (candidates d) = []).
  { induction Hnone as [|c l Hc _ IH]; [done|]. cbn. by rewrite Hc. }
  unfold candidates in Hf. rewrite Hf. cbn [fmap list_fmap app]. unfold limited. rewrite take_nil. by destruct (0 <? _).
Qed.

(** ** Witnesses *)
#[local] Existing Instances ToyCodec.toy_codec ToyCrypto.toy ToyCrypto.toy_laws toy_agreement
  ToyReflection.toy_reflection x86_math.

Definition accepting : Queues := mkQueues (fun _ => true) (fun _ _ => true) (fun _ _ => true) (fun _ _ => true).

Definition sample_schema : ServiceSchema.t := ServiceSchema.mk (bs "a.proto") [] [bs "type/a"] (bs "h") 3.

Definition sample_directory : Directory :=
  mkDirectory SchemaRegistry.empty {[ mkGUID 7 7 := ResourceAdvertisement.mk [] [sample_schema; sample_schema] ]}.

(** A manager with alice's key and a connection to the node 7:7. *)
Definition sample_rm : ResourceManager accepting (Callback := unit) :=
  mkRM _ (@mkNode ToyCrypto.toy (rm_specific accepting) unit ToyCrypto.alice (bs "boot") (IdentityCache_new 1024) initial_aes
            (SubscriptionManager_new alice_id) sample_directory)
    [mkActive 5 (Some (mkGUID 7 7))].

Definition toy_view (m : RSPMessage.t) : @Message ToyReflection.toy_reflection := ToyReflection.sample.

Definition to_seven : RSPMessage.t := RSPMessage.set_destination RSPMessage.empty (Some (toProtoNodeId (mkGUID 7 7))).

Definition signed_to_seven : RSPMessage.t :=
  match signMessage ToyCrypto.alice to_seven with
  | Ok block => RSPMessage.set_signature to_seven (Some block)
  | _ => RSPMessage.empty
  end.

Definition sample_query_message : ResourceQuery.t := ResourceQuery.mk (bs "service.schema_version = 3") 1.

Lemma delivered_messages_are_authentic_witness :
  exists effects rm', processReceived toy_view accepting TrueValue rm_getAuthorizationEndorsements
      alice_id sample_rm sample_env [] signed_to_seven = Ok (effects, rm')
    /\ ToOutgoing 5 signed_to_seven ∈ effects /\ senderNodeIdFromMessage signed_to_seven <> None.
Proof.
  destruct (processReceived toy_view accepting TrueValue rm_getAuthorizationEndorsements
      alice_id sample_rm sample_env [] signed_to_seven) as [[effects rm']| | |] eqn:Hp;
    try (vm_compute in Hp; discriminate Hp).
  assert (Hin : ToOutgoing 5 signed_to_seven ∈ effects).
  { assert (Hv : match processReceived toy_view accepting TrueValue
      rm_getAuthorizationEndorsements alice_id sample_rm sample_env [] signed_to_seven with
      | Ok (fx, _) => fx = [ToOutgoing 5 signed_to_seven] | _ => False end) by (vm_compute; reflexivity).
    rewrite Hp in Hv. subst effects. by left. }
  exists effects, rm'. split; [done|]. split; [exact Hin|].
  destruct (delivered_messages_are_authentic toy_view accepting TrueValue
    rm_getAuthorizationEndorsements alice_id sample_rm sample_env [] signed_to_seven effects rm' signed_to_seven (Some 5%nat))
    as (_ & (id & key & sig & stream & es & Hs & _) & _).
  - apply cache_inv_new. lia.
  - vm_compute. reflexivity.
  - exact Hp.
  - exact Hin.
  - rewrite Hs. discriminate.
Defined.

Lemma messages_never_introduce_identities_witness :
  exists effects rm', processReceived toy_view accepting TrueValue rm_getAuthorizationEndorsements
      alice_id sample_rm sample_env [] signed_to_seven = Ok (effects, rm')
    /\ contains (identityCache_ (rm_node accepting rm')) bob_node = false.
Proof.
  destruct (processReceived toy_view accepting TrueValue rm_getAuthorizationEndorsements
      alice_id sample_rm sample_env [] signed_to_seven) as [[effects rm']| | |] eqn:Hp;
    try (vm_compute in Hp; discriminate Hp).
  exists effects, rm'. split; [done|].
  destruct (contains (identityCache_ (rm_node accepting rm')) bob_node) eqn:Hc; [|done]. exfalso.
  destruct (messages_never_introduce_identities toy_view accepting TrueValue
    rm_getAuthorizationEndorsements alice_id sample_rm sample_env [] signed_to_seven effects rm' bob_node) as [Hx|Hx].
  - apply cache_inv_new. lia.
  - vm_compute. reflexivity.
  - exact Hp.
  - exact Hc.
  - vm_compute in Hx. discriminate Hx.
  - vm_compute in Hx. discriminate Hx.
Defined.

Lemma routing_exact_witness :
  exists l a r, activeEncodings_ accepting sample_rm = l ++ a :: r /\ encoding a = 5%nat.
Proof.
  destruct (routing_exact accepting sample_rm to_seven true [ToOutgoing 5 to_seven] sample_rm) as (Hs & _).
  - vm_compute. reflexivity.
  - destruct (Hs eq_refl) as (l & a & r & peer & H1 & _ & _ & _ & H2 & _). exists l, a, r. split; [exact H1|].
    by injection H2 as <-.
Defined.

Lemma query_reply_exact_witness :
  answerQuery sample_directory (mkGUID 1 1) sample_query_message
  = Ok (queryReply (mkGUID 1 1) [discovered (mkGUID 7 7) sample_schema]).
Proof.
  etransitivity; [eapply (query_reply_exact sample_directory (mkGUID 1 1) sample_query_message);
    vm_compute; reflexivity|]. vm_compute. reflexivity.
Defined.

Lemma empty_query_reply_has_no_body_witness :
  exists reply, answerQuery sample_directory (mkGUID 1 1) (ResourceQuery.mk (bs "service.schema_version = 4") 0) = Ok reply
    /\ RSPMessage.core_message reply = None.
Proof.
  eapply (empty_query_reply_has_no_body sample_directory (mkGUID 1 1)).
  - vm_compute. reflexivity.
  - vm_compute. repeat constructor.
Defined.
