(* ===== verification/ServiceMessage.v ===== *)
(** * common/service_message.hpp: messages of the services

    A service puts its own protobuf messages into the [service_message] field of
    an envelope, a [google.protobuf.Any].  The generated class of such a message
    is the class [ServiceMessageType]: its full name, its serializer and its
    parser. *)

From S2P Require Import Prelude Proto.

Class ServiceMessageType (T : Type) := {
  (** [T::descriptor()->full_name()] *)
  full_name : string;
  serialize_message : T -> bytes;
  parse_message : bytes -> option T }.
Arguments full_name T {_}.

Definition kTypeUrlPrefix : bytes := bs "type.rsp/".

Definition expectedUrl (T : Type) `{ServiceMessageType T} : bytes := kTypeUrlPrefix ++ bs (full_name T).

Definition set_service (m : RSPMessage.t) (x : option AnyMsg.t) : RSPMessage.t :=
  RSPMessage.mk (RSPMessage.destination m) (RSPMessage.source m) (RSPMessage.trace m) (RSPMessage.core_message m) x
    (RSPMessage.nonce m) (RSPMessage.signature m) (RSPMessage.endorsements m) (RSPMessage.identities m)
    (RSPMessage.encrypted_fields m).

Definition packServiceMessage {T} `{ServiceMessageType T} (envelope : RSPMessage.t) (serviceMsg : T) : RSPMessage.t :=
  set_service envelope (Some (AnyMsg.mk (expectedUrl T) (serialize_message serviceMsg))).

(** [UnpackTo] parses when the type of the [Any] is [T], which was checked. *)
Definition unpackServiceMessage (T : Type) `{ServiceMessageType T} (envelope : RSPMessage.t) : option T :=
  match RSPMessage.service_message envelope with
  | None => None
  | Some any =>
      if negb (bool_decide (AnyMsg.type_url any = expectedUrl T)) then None
      else parse_message (AnyMsg.value any)
  end.

Definition hasServiceMessage (T : Type) `{ServiceMessageType T} (envelope : RSPMessage.t) : bool :=
  match RSPMessage.service_message envelope with
  | None => false
  | Some any => bool_decide (AnyMsg.type_url any = expectedUrl T)
  end.

(** What can be unpacked is present. *)
Lemma unpack_has T `{ServiceMessageType T} m x : unpackServiceMessage T m = Some x -> hasServiceMessage T m = true.
Proof.
  unfold unpackServiceMessage, hasServiceMessage. destruct (RSPMessage.service_message m); [|done].
  by case_bool_decide.
Qed.

(** An envelope carries one service message: types with different names exclude
    each other. *)
Lemma hasServiceMessage_exclusive T U `{ServiceMessageType T} `{ServiceMessageType U} m :
  bs (full_name T) <> bs (full_name U) -> hasServiceMessage T m = true -> hasServiceMessage U m = false.
Proof.
  intros Hne. unfold hasServiceMessage. destruct (RSPMessage.service_message m) as [any|]; [|done].
  rewrite bool_decide_eq_true, bool_decide_eq_false. intros ->. unfold expectedUrl.
  intros E%app_inv_head. done.
Qed.

(** Unpacking what was packed is parsing what was serialized. *)
Lemma unpack_packServiceMessage T `{ServiceMessageType T} m (x : T) :
  unpackServiceMessage T (packServiceMessage m x) = parse_message (serialize_message x).
Proof. unfold unpackServiceMessage, packServiceMessage. cbn. by rewrite bool_decide_true. Qed.
