(* ===== verification/Connections.v ===== *)
(** * resource_manager/resource_manager.cpp: connections

    What the resource manager does when a connection has been authenticated, when
    its encoding is running and when it ends: the list of active encodings, the
    signing queue of each of them, the identity cache, and the log records that
    subscribers see.  The calls on the encoding and on its signing queue are the
    events of [Lifecycle]. *)

From S2P Require Import Prelude BaseTypes Proto GuidBytes KeyPair EndorsementCodec FieldResolver Requirement.
From S2P Require Import MessageHash Signing AuthZ AuthN IdentityCache DateTimes Logging AesNegotiation ServiceMessage Node.
From S2P Require Import ResourceManager.

(** ** Log events (logging/logging.proto) *)
Module NodeConnectedEvent.
Record t := mk { node_id : option NodeId; identity : option Identity.t }.
End NodeConnectedEvent.

Module NodeDisconnectedEvent.
Record t := mk { node_id : option NodeId }.
End NodeDisconnectedEvent.

Module NodeStartedEvent.
Record t := mk { node_id : option NodeId; service_type : bytes }.
End NodeStartedEvent.

Module NodeStoppingEvent.
Record t := mk { node_id : option NodeId; service_type : bytes }.
End NodeStoppingEvent.

Class EventTypes := {
  ev_connected :: ServiceMessageType NodeConnectedEvent.t;
  ev_disconnected :: ServiceMessageType NodeDisconnectedEvent.t;
  ev_started :: ServiceMessageType NodeStartedEvent.t;
  ev_stopping :: ServiceMessageType NodeStoppingEvent.t }.

(** [record.mutable_payload()->PackFrom(event, rsp::kTypeUrlPrefix)]. *)
Definition eventRecord {T} `{ServiceMessageType T} (event : T) : LogRecord.t :=
  LogRecord.mk None None None (Some (AnyMsg.mk (expectedUrl T) (serialize_message event))).

(** ** Calls on an encoding and its signing queue *)
Inductive Lifecycle :=
| StartSigning (e : nat)
| StopSigning (e : nat)
| SetDisconnectCallback (e : nat) (set : bool)
| StartEncoding (e : nat)
| StopEncoding (e : nat)
| NewEncoding (e : nat).

(** [std::find_if] and [erase] of the first entry of an encoding. *)
Fixpoint eraseEncoding (e : nat) (encodings : list ActiveEncodingState) : list ActiveEncodingState :=
  match encodings with
  | [] => []
  | x :: encodings' => if Nat.eqb (encoding x) e then encodings' else x :: eraseEncoding e encodings'
  end.

Section Connections.
Context `{H : HashCodec} `{C : Crypto} `{A : !KeyAgreement C} `{R : Reflection} `{M : MathLib} `{E : EventTypes}.
Context (queues : Queues) {Callback : Type}.
(** [loggingSchemaSnapshot_], and whether [newEncodingCallback_] is set. *)
Context (loggingSchemaSnapshot : SchemaSnapshot.t) (newEncodingCallback : bool).

Abbreviation RM := (ResourceManager queues (Callback := Callback)).

Definition with_encodings (rm : RM) (l : list ActiveEncodingState) : RM := mkRM queues (rm_node queues rm) l.

(** The output queue takes the log records. *)
Definition publishEvent {T} `{ServiceMessageType T} (rm : RM) (event : T) (now : DateTime.t) : Res (list Effect * RM) :=
  '(calls, n) ← publishLogRecord (S := rm_specific queues) (rm_node queues rm) (eventRecord event) (Some loggingSchemaSnapshot)
                  (fun _ m => q_output queues m) now;
  Ok (List.map ToOutput calls, set_node queues rm n).

(** [started] is the answer of [encoding->start()]. *)
Definition handleAuthNSuccess (rm : RM) (e : ActiveEncodingState) (started : bool) : list Lifecycle * RM :=
  match peerNodeID e with
  | None => ([StopEncoding (encoding e)], rm)
  | Some _ =>
      let h := encoding e in
      let opening := [StartSigning h; SetDisconnectCallback h true; StartEncoding h] in
      let registered := activeEncodings_ queues rm ++ [e] in
      if started then (opening ++ (if newEncodingCallback then [NewEncoding h] else []), with_encodings rm registered)
      else (opening ++ [SetDisconnectCallback h false; StopSigning h; StopEncoding h],
            with_encodings rm (eraseEncoding h registered))
  end.

Definition handleAuthNFailure (e : ActiveEncodingState) : list Lifecycle := [StopEncoding (encoding e)].

Definition handleEncodingDisconnect (rm : RM) (e : nat) (nodeId : NodeID) (now : DateTime.t)
    : Res (list Lifecycle * list Effect * RM) :=
  let calls := match List.find (fun s => Nat.eqb (encoding s) e) (activeEncodings_ queues rm) with
               | Some _ => [StopSigning e]
               | None => []
               end in
  '(effects, rm') ← publishEvent (with_encodings rm (eraseEncoding e (activeEncodings_ queues rm)))
                      (NodeDisconnectedEvent.mk (Some (toProtoNodeId nodeId))) now;
  Ok (calls, effects, rm').

Definition cacheAuthenticatedIdentity (rm : RM) (peer : NodeID) (identity : Identity.t) (now : DateTime.t)
    : Res (list Effect * RM) :=
  '(_, _, c) ← observeMessage (identityCache_ (rm_node queues rm))
     (RSPMessage.mk None (Some (toProtoNodeId peer)) None None None None None [] [identity] []);
  publishEvent (set_node queues rm (set_cache (rm_node queues rm) c))
    (NodeConnectedEvent.mk (Some (toProtoNodeId peer)) (Some identity)) now.

Definition emitNodeStarted (local : NodeID) (rm : RM) (now : DateTime.t) : Res (list Effect * RM) :=
  publishEvent rm (NodeStartedEvent.mk (Some (toProtoNodeId local)) (bs "resource_manager")) now.

Definition emitNodeStopping (local : NodeID) (rm : RM) (now : DateTime.t) : Res (list Effect * RM) :=
  publishEvent rm (NodeStoppingEvent.mk (Some (toProtoNodeId local)) (bs "resource_manager")) now.

(** ** Runs *)
Inductive ConnectionEvent :=
| Connected (e : ActiveEncodingState) (started : bool)
| Disconnected (e : nat) (nodeId : NodeID) (now : DateTime.t).

Definition connection_step (rm : RM) (ev : ConnectionEvent) : Res (list Lifecycle * RM) :=
  match ev with
  | Connected e started => Ok (handleAuthNSuccess rm e started)
  | Disconnected e nodeId now => '(calls, _, rm') ← handleEncodingDisconnect rm e nodeId now; Ok (calls, rm')
  end.

Fixpoint connection_run (rm : RM) (events : list ConnectionEvent) : Res (list Lifecycle * RM) :=
  match events with
  | [] => Ok ([], rm)
  | ev :: events' =>
      '(calls, rm1) ← connection_step rm ev;
      '(calls', rm2) ← connection_run rm1 events';
      Ok (calls ++ calls', rm2)
  end.

(** The specification: a connection is live from its start to its end. *)
Definition live_step (l : list ActiveEncodingState) (ev : ConnectionEvent) : list ActiveEncodingState :=
  match ev with
  | Connected e true => match peerNodeID e with Some _ => l ++ [e] | None => l end
  | Connected _ false => l
  | Disconnected e _ _ => List.filter (fun x => negb (Nat.eqb (encoding x) e)) l
  end.

(** The signing queues that were started and not stopped. *)
Definition signing_step (l : list nat) (call : Lifecycle) : list nat :=
  match call with
  | StartSigning e => l ++ [e]
  | StopSigning e => List.filter (fun x => negb (Nat.eqb x e)) l
  | _ => l
  end.

(** The handles of the encodings in a run; every connection has its own. *)
Definition new_handles (events : list ConnectionEvent) : list nat :=
  omap (fun ev => match ev with Connected e _ => Some (encoding e) | _ => None end) events.

(** ** The registry of connections *)
Definition handles (l : list ActiveEncodingState) : list nat := encoding <$> l.

Lemma eraseEncoding_filter e l :
  NoDup (handles l) -> eraseEncoding e l = List.filter (fun x => negb (Nat.eqb (encoding x) e)) l.
Proof.
  induction l as [|x l IH]; [done|]. intros [Hx Hl]%NoDup_cons. cbn. destruct (Nat.eqb_spec (encoding x) e) as [<-|Hne]; cbn.
  - symmetry. clear IH Hl. induction l as [|y l IH]; [done|]. apply not_elem_of_cons in Hx as [Hxy Hx]. cbn.
    apply not_eq_sym in Hxy as Hyx. apply Nat.eqb_neq in Hyx as ->. cbn. f_equal. by apply IH.
  - f_equal. by apply IH.
Qed.

Lemma erase_appended x l : encoding x ∉ handles l -> eraseEncoding (encoding x) (l ++ [x]) = l.
Proof.
  induction l as [|y l IH]; cbn; intros Hx; [by rewrite Nat.eqb_refl|]. apply not_elem_of_cons in Hx as [Hxy Hx].
  apply not_eq_sym, Nat.eqb_neq in Hxy as ->. f_equal. by apply IH.
Qed.

Lemma handles_filter e l :
  handles (List.filter (fun x => negb (Nat.eqb (encoding x) e)) l) = List.filter (fun x => negb (Nat.eqb x e)) (handles l).
Proof.
  induction l as [|x l IH]; [done|]. unfold handles in *. cbn [List.filter fmap list_fmap].
  destruct (Nat.eqb (encoding x) e); cbn [negb]; [done|]. cbn [fmap list_fmap]. by rewrite <- IH.
Qed.

Lemma filter_away (P : nat -> bool) (l : list nat) : (forall x, x ∈ l -> P x = true) -> List.filter P l = l.
Proof.
  induction l as [|x l IH]; [done|]. intros Hl. cbn. rewrite Hl by constructor. f_equal. apply IH.
  intros y Hy. apply Hl. by constructor.
Qed.

Lemma elem_of_List_filter (P : nat -> bool) (l : list nat) x : x ∈ List.filter P l -> x ∈ l.
Proof. rewrite !list_elem_of_In, filter_In. tauto. Qed.

Lemma NoDup_List_filter (P : nat -> bool) (l : list nat) : NoDup l -> NoDup (List.filter P l).
Proof.
  induction 1 as [|x l Hx Hl IH]; cbn; [constructor|]. destruct (P x); [|done]. constructor; [|done].
  by intros ?%elem_of_List_filter.
Qed.

Lemma publishEvent_encodings {T} `{ServiceMessageType T} rm (event : T) now effects rm' :
  publishEvent rm event now = Ok (effects, rm') -> activeEncodings_ queues rm' = activeEncodings_ queues rm.
Proof.
  unfold publishEvent. destruct (publishLogRecord _ _ _ _ _) as [[calls n]| | |]; cbn; intros [=]. by subst.
Qed.

(** One step keeps the registry and the running signing queues together. *)
Lemma connection_step_live rm ev calls rm' :
  NoDup (handles (activeEncodings_ queues rm)) ->
  (forall e started, ev = Connected e started -> encoding e ∉ handles (activeEncodings_ queues rm)) ->
  connection_step rm ev = Ok (calls, rm') ->
  activeEncodings_ queues rm' = live_step (activeEncodings_ queues rm) ev
  /\ foldl signing_step (handles (activeEncodings_ queues rm)) calls = handles (activeEncodings_ queues rm')
  /\ NoDup (handles (activeEncodings_ queues rm')).
Proof.
  intros Hnd Hfresh. destruct ev as [e started|e nodeId now]; cbn [connection_step live_step].
  - specialize (Hfresh e started eq_refl). unfold handleAuthNSuccess.
    assert (Hoff : List.filter (fun x => negb (Nat.eqb x (encoding e))) (handles (activeEncodings_ queues rm) ++ [encoding e])
                   = handles (activeEncodings_ queues rm)).
    { rewrite List.filter_app. cbn. rewrite Nat.eqb_refl, app_nil_r. apply filter_away. intros x Hx.
      destruct (Nat.eqb_spec x (encoding e)); [congruence|done]. }
    destruct (peerNodeID e); [destruct started|destruct started]; intros [= <- <-]; try done.
    + change (activeEncodings_ queues (with_encodings rm (activeEncodings_ queues rm ++ [e])))
        with (activeEncodings_ queues rm ++ [e]).
      assert (Happ : handles (activeEncodings_ queues rm ++ [e]) = handles (activeEncodings_ queues rm) ++ [encoding e])
        by (unfold handles; by rewrite fmap_app).
      rewrite Happ. split_and!; [done|..].
      * by destruct newEncodingCallback.
      * apply NoDup_app. split_and!; [done| |apply NoDup_singleton]. intros x Hx ->%list_elem_of_singleton. done.
    + cbn [activeEncodings_ with_encodings]. rewrite erase_appended by done. split_and!; [done| |done]. cbn. done.
  - unfold handleEncodingDisconnect.
    destruct (publishEvent _ _ _) as [[effects rm1]| | |] eqn:Hp; cbn; intros [= <- <-].
    apply publishEvent_encodings in Hp. cbn in Hp. rewrite Hp, eraseEncoding_filter, handles_filter by done. split_and!; [done| |].
    + destruct (List.find _ _) eqn:Hf; [done|]. cbn. symmetry. apply filter_away. intros x (s & -> & Hs)%list_elem_of_fmap.
      apply List.find_none with (x := s) in Hf; [by rewrite Hf|by apply list_elem_of_In].
    + by apply NoDup_List_filter.
Qed.

(** The handles that stay registered come from the start or from a new connection. *)
Lemma live_step_handles l ev x :
  x ∈ handles (live_step l ev) -> x ∈ handles l \/ exists e started, ev = Connected e started /\ x = encoding e.
Proof.
  destruct ev as [e []|e nodeId now]; cbn.
  - destruct (peerNodeID e); [|by left]. unfold handles. rewrite fmap_app, elem_of_app. intros [?| ->%list_elem_of_singleton]; eauto.
  - by left.
  - rewrite handles_filter. intros ?%elem_of_List_filter. by left.
Qed.

Lemma connection_run_live events rm calls rm' :
  NoDup (handles (activeEncodings_ queues rm)) -> NoDup (new_handles events) ->
  (forall x, x ∈ new_handles events -> x ∉ handles (activeEncodings_ queues rm)) ->
  connection_run rm events = Ok (calls, rm') ->
  activeEncodings_ queues rm' = foldl live_step (activeEncodings_ queues rm) events
  /\ foldl signing_step (handles (activeEncodings_ queues rm)) calls = handles (activeEncodings_ queues rm')
  /\ NoDup (handles (activeEncodings_ queues rm')).
Proof.
  revert rm calls. induction events as [|ev events IH]; intros rm calls Hnd Hnew Hfresh; cbn [connection_run foldl].
  { by intros [= <- <-]. }
  destruct (connection_step rm ev) as [[calls1 rm1]| | |] eqn:Hs; try done. cbn [mbind res_bind].
  destruct (connection_run rm1 events) as [[calls2 rm2]| | |] eqn:Hr; try done. intros [= <- <-].
  destruct (connection_step_live rm ev calls1 rm1) as (Hl & Hq & Hnd1); try done.
  { intros e started ->. apply Hfresh. cbn. by constructor. }
  assert (Hnew1 : NoDup (new_handles events)).
  { destruct ev; cbn in Hnew; [by apply NoDup_cons in Hnew as [_ ?]|done]. }
  destruct (IH rm1 calls2) as (IH1 & IH2 & IH3); try done.
  { intros x Hx. rewrite Hl. intros [Hin|(e & started & -> & ->)]%live_step_handles.
    - revert Hin. apply Hfresh. destruct ev; cbn; [by constructor|done].
    - cbn in Hnew. by apply NoDup_cons in Hnew as [? _]. }
  rewrite <- Hl, foldl_app, Hq. done.
Qed.

(** Without log subscribers no event can fail. *)
Lemma connection_run_returns events rm :
  subscriptionCount (loggingSubscriptions_ (rm_node queues rm)) = 0%nat ->
  exists calls rm', connection_run rm events = Ok (calls, rm').
Proof.
  revert rm. induction events as [|ev events IH]; intros rm Hsub; [by do 2 eexists|].
  assert (exists calls rm1, connection_step rm ev = Ok (calls, rm1)
            /\ subscriptionCount (loggingSubscriptions_ (rm_node queues rm1)) = 0%nat) as (calls & rm1 & Hs & Hsub1).
  { destruct ev as [e started|e nodeId now]; cbn.
    - unfold handleAuthNSuccess. destruct (peerNodeID e), started; cbn; by do 2 eexists.
    - unfold handleEncodingDisconnect, publishEvent, publishLogRecord. cbn [rm_node with_encodings]. rewrite Hsub.
      cbn. by do 2 eexists. }
  destruct (IH rm1 Hsub1) as (calls' & rm' & Hr). cbn. rewrite Hs. cbn. rewrite Hr. by do 2 eexists.
Qed.

(** C9.  The resource manager's list of active encodings is exactly the list of the
    connections that were authenticated, could be started and have not ended, in the
    order they came; and the signing queues that were started and not stopped are
    exactly the queues of these connections, one each: a connection whose encoding
    does not start, and one that ends, leaves neither an entry nor a running queue.
    Only a log subscriber's filter can make one of these handlers throw. *)
Theorem connection_registry rm events :
  activeEncodings_ queues rm = [] -> NoDup (new_handles events) ->
  (subscriptionCount (loggingSubscriptions_ (rm_node queues rm)) = 0%nat ->
   exists calls rm', connection_run rm events = Ok (calls, rm'))
  /\ forall calls rm', connection_run rm events = Ok (calls, rm') ->
     activeEncodings_ queues rm' = foldl live_step [] events
     /\ foldl signing_step [] calls = handles (activeEncodings_ queues rm')
     /\ NoDup (handles (activeEncodings_ queues rm')).
Proof.
  intros Hnil Hnew. split; [apply connection_run_returns|]. intros calls rm' Hrun.
  destruct (connection_run_live events rm calls rm') as (H1 & H2 & H3); rewrite ?Hnil in *; try done.
  - constructor.
  - intros x _. apply not_elem_of_nil.
Qed.

(** A peer's identity reaches the cache when it has been authenticated. *)
Lemma cacheAuthenticatedIdentity_get rm peer identity now effects rm' :
  cache_inv (identityCache_ (rm_node queues rm)) -> 0 < maximumEntries_ (identityCache_ (rm_node queues rm)) ->
  GUID_wf peer -> nodeIdFromIdentity identity = Ok (Some peer) ->
  cacheAuthenticatedIdentity rm peer identity now = Ok (effects, rm') ->
  get (identityCache_ (rm_node queues rm')) peer = Some (sanitizedIdentityForCache identity)
  /\ keyPair_ (rm_node queues rm') = keyPair_ (rm_node queues rm).
Proof.
  intros Ic Hmax Hwf Hid. unfold cacheAuthenticatedIdentity.
  set (m := RSPMessage.mk _ _ _ _ _ _ _ _ _ _).
  assert (Hacc : accepted (senderNodeIdFromMessage m) (message_identities m) = [(peer, sanitizedIdentityForCache identity)]).
  { unfold senderNodeIdFromMessage. cbn [RSPMessage.signature RSPMessage.source m].
    rewrite nodeIdFromSourceField_toProto by done.
    unfold accepted. cbn [message_identities RSPMessage.core_message RSPMessage.identities m app omap list_omap].
    by rewrite Hid, bool_decide_eq_true_2. }
  destruct (observeMessage_single _ m peer _ Ic Hmax Hacc) as (calls & c' & -> & _ & Hget). cbn [mbind res_bind].
  unfold publishEvent, publishLogRecord. cbn [rm_node set_node loggingSubscriptions_ set_cache].
  destruct (Nat.eqb _ _); cbn [mbind res_bind]; [by intros [= <- <-]|].
  destruct (publish _ _ _ _ _) as [[[st l] subs]| | |]; cbn [mbind res_bind]; intros [= <- <-]. done.
Qed.

(** C8.  A peer that has been authenticated is heard: once [cacheAuthenticatedIdentity]
    has run for a peer other than the manager itself, every message the peer's signing
    queue signs passes the signature check of the manager, which takes the verification
    key from its own identity cache, and is attributed to the peer. *)
Theorem connected_peer_is_heard `{!CryptoLaws C} local rm k id pk identity now effects rm' getKey onSuccess fresh m evs m' :
  cache_inv (identityCache_ (rm_node queues rm)) -> 0 < maximumEntries_ (identityCache_ (rm_node queues rm)) ->
  nodeID k = Ok id -> id <> local -> publicKey k = Ok pk -> Identity.public_key identity = Some pk ->
  cacheAuthenticatedIdentity rm id identity now = Ok (effects, rm') ->
  getKey (default fresh (senderNodeIdFromMessage m)) = Ok (Some k) ->
  MessageQueueSign_handleMessage getKey onSuccess fresh m = Ok evs -> Succeeded m' ∈ evs ->
  MessageQueueCheckSignature_handleMessage (verificationKeyForNodeId queues local rm') (fun _ => Ok tt) m' = Ok [Succeeded m']
  /\ senderNodeIdFromMessage m' = Some id.
Proof.
  intros Ic Hmax Hid Hlocal Hpk Hident Hcache Hkey Hsign Hin.
  destruct (sign_success _ _ _ _ _ _ Hsign Hin) as (k0 & block & Hk0 & Hs & _).
  rewrite Hkey in Hk0. injection Hk0 as <-. unfold signMessage in Hs.
  destruct (messageSignatureInput m) as [input| | |]; try done. cbn [mbind res_bind] in Hs.
  destruct (public_key_verifies _ _ _ _ Hs Hpk) as (k' & Hk' & Hidk & _).
  destruct (cacheAuthenticatedIdentity_get rm id identity now effects rm' Ic Hmax) as [Hget _]; [by eapply nodeID_wf| |done|].
  { unfold nodeIdFromIdentity. rewrite Hident. cbn [from_option Datatypes.id]. rewrite Hk'. cbn [mbind res_bind].
    by rewrite Hidk, Hid. }
  eapply signed_passes_check; try done. unfold verificationKeyForNodeId. rewrite bool_decide_eq_false_2, Hget by done.
  unfold sanitizedIdentityForCache. cbn [Identity.public_key]. rewrite Hident. cbn [from_option Datatypes.id].
  by rewrite Hk'.
Qed.
End Connections.

(** ** Witnesses *)
#[local] Existing Instances ToyCodec.toy_codec ToyCrypto.toy ToyCrypto.toy_laws toy_agreement
  ToyReflection.toy_reflection x86_math.

#[local] Instance toy_events : EventTypes := {|
  ev_connected := {| full_name := "rsp.proto.NodeConnectedEvent"; serialize_message := fun _ => []; parse_message := fun _ => None |};
  ev_disconnected := {| full_name := "rsp.proto.NodeDisconnectedEvent"; serialize_message := fun _ => []; parse_message := fun _ => None |};
  ev_started := {| full_name := "rsp.proto.NodeStartedEvent"; serialize_message := fun _ => []; parse_message := fun _ => None |};
  ev_stopping := {| full_name := "rsp.proto.NodeStoppingEvent"; serialize_message := fun _ => []; parse_message := fun _ => None |} |}.

Definition idle_rm : ResourceManager accepting (Callback := unit) := mkRM _ (rm_node accepting sample_rm) [].

Definition peer_of (h : nat) : ActiveEncodingState := mkActive h (Some (mkGUID 7 (Z.of_nat h))).

Definition sample_events : list ConnectionEvent :=
  [Connected (peer_of 1) true; Connected (peer_of 2) false; Connected (peer_of 3) true;
   Connected (mkActive 4 None) true; Disconnected 1 (mkGUID 7 1) (env_now sample_env)].

Lemma connection_registry_witness :
  exists calls rm', connection_run accepting [] true idle_rm sample_events = Ok (calls, rm')
    /\ activeEncodings_ accepting rm' = [peer_of 3] /\ foldl signing_step [] calls = [3%nat].
Proof.
  destruct (connection_registry accepting [] true idle_rm sample_events) as [Hret Hreg].
  - reflexivity.
  - apply (bool_decide_unpack _). vm_compute. exact I.
  - destruct Hret as (calls & rm' & Hr); [reflexivity|]. exists calls, rm'. split; [exact Hr|].
    destruct (Hreg _ _ Hr) as (-> & Hq & _). split; [reflexivity|]. exact Hq.
Defined.

(** Bob's manager hears alice. *)
Definition bobs_rm : ResourceManager accepting (Callback := unit) :=
  mkRM _ (@mkNode ToyCrypto.toy (rm_specific accepting) unit ToyCrypto.alice (bs "boot") (IdentityCache_new 1024) initial_aes
            (SubscriptionManager_new bob_node) sample_directory) [].

Lemma connected_peer_is_heard_witness :
  exists effects rm', cacheAuthenticatedIdentity accepting [] bobs_rm alice_id
      (Identity.mk None (Some aes_pk_alice) None) (env_now sample_env) = Ok (effects, rm')
    /\ MessageQueueCheckSignature_handleMessage (verificationKeyForNodeId accepting bob_node rm') (fun _ => Ok tt) signed_ping
       = Ok [Succeeded signed_ping].
Proof.
  destruct (cacheAuthenticatedIdentity accepting [] bobs_rm alice_id
      (Identity.mk None (Some aes_pk_alice) None) (env_now sample_env)) as [[effects rm']| | |] eqn:Hc;
    try (vm_compute in Hc; discriminate Hc).
  exists effects, rm'. split; [done|].
  apply (connected_peer_is_heard accepting [] bob_node bobs_rm ToyCrypto.alice alice_id aes_pk_alice
    (Identity.mk None (Some aes_pk_alice) None) (env_now sample_env) effects rm'
    (fun _ => Ok (Some ToyCrypto.alice)) (fun _ => Ok tt) alice_id (ToyCodec.ping 1) [Succeeded signed_ping] signed_ping).
  - apply cache_inv_new. lia.
  - cbn. lia.
  - vm_compute. reflexivity.
  - vm_compute. discriminate.
  - vm_compute. reflexivity.
  - reflexivity.
  - exact Hc.
  - reflexivity.
  - vm_compute. reflexivity.
  - left.
Defined.
