(* ===== verification/EndorsementService.v ===== *)
(** * resource_service/endorsement: the endorsement service

    The service issues signed endorsements.  A request carries the values that
    are wanted, signed by the requester itself; the service checks that signature
    against the identity it has cached for the sender, compares the request with
    its configuration and signs an endorsement of its own.

    [now] is the clock reading of [rsp::DateTime validUntil]; [lookup] is
    [identityCache().get]; [push] is [send]. *)

From Stdlib Require Import SpecFloat.
From S2P Require Import Prelude BaseTypes Proto GuidBytes KeyPair EndorsementCodec FieldResolver Requirement.
From S2P Require Import MessageHash Signing IdentityCache DateTimes ServiceMessage Node.

Definition ENDORSEMENT_SUCCESS : Enum := 0.
Definition ENDORSEMENT_FAILED : Enum := 1.
Definition ENDORSEMENT_INVALID_SIGNATURE : Enum := 3.
Definition ENDORSEMENT_UNKNOWN_IDENTITY : Enum := 4.

Module BeginEndorsementRequest.
Record t := mk { requested_values : option Endorsement.t; auth_data : option bytes }.
End BeginEndorsementRequest.

Module EndorsementDone.
Record t := mk { status : Enum; new_endorsement : option Endorsement.t }.
End EndorsementDone.

(** [DAYS(1)]. *)
Definition one_day : double := double_of_u64 86400.

Record ConfiguredEndorsement := mkConfigured {
  requestor : option NodeID;
  configured_type : GUID;
  configured_value : bytes;
  validForSeconds : double }.

(** [buffersEqual]: sizes, then [memcmp]. *)
Definition buffersEqual (lhs rhs : bytes) : bool :=
  if negb (Nat.eqb (List.length lhs) (List.length rhs)) then false
  else match lhs with [] => true | _ => bool_decide (lhs = rhs) end.

Section EndorsementService.
Context `{C : Crypto} `{M : MathLib}.
Context (serializeDeterministic : Endorsement.t -> bytes).
Context `{RequestType : !ServiceMessageType BeginEndorsementRequest.t} `{DoneType : !ServiceMessageType EndorsementDone.t}.

(** The loop of [findMatchingConfiguredEndorsement]. *)
Fixpoint findMatching (requestorNodeId : NodeID) (requestedValues : Endorsement.t)
    (configured : list ConfiguredEndorsement) : Res (option ConfiguredEndorsement) :=
  match configured with
  | [] => Ok None
  | c :: configured' =>
      let continue := findMatching requestorNodeId requestedValues configured' in
      if match requestor c with Some r => negb (bool_decide (r = requestorNodeId)) | None => false end then continue
      else
        type ← endorsementType requestedValues;
        if negb (bool_decide (configured_type c = type)) then continue
        else
          value ← endorsementValue requestedValues;
          if negb (buffersEqual (configured_value c) value) then continue
          else Ok (Some c)
  end.

Definition findMatchingConfiguredEndorsement (configured : list ConfiguredEndorsement) (requestorNodeId : NodeID)
    (requestedValues : Endorsement.t) : Res (bool * option ConfiguredEndorsement) :=
  endorsement ← findMatching requestorNodeId requestedValues configured;
  Ok (match configured with [] => false | _ => true end, endorsement).

(** The [try] block for a known requester. *)
Definition issueEndorsement (keyPair : KeyPair) (configured : list ConfiguredEndorsement) (now : DateTime.t)
    (sourceNodeId : NodeID) (cachedIdentity : Identity.t) (values : Endorsement.t) : Res EndorsementDone.t :=
  requesterPublicKey ← fromPublicKey (default default_public_key (Identity.public_key cachedIdentity));
  requester ← nodeID requesterPublicKey;
  if negb (bool_decide (requester = sourceNodeId)) then Ok (EndorsementDone.mk ENDORSEMENT_INVALID_SIGNATURE None)
  else
    requestedValues ← Endorsement_fromProto values;
    subject ← endorsement_subject requestedValues;
    mine ← (if negb (bool_decide (subject = sourceNodeId)) then Ok false
            else
              service ← endorsementService requestedValues;
              if negb (bool_decide (service = sourceNodeId)) then Ok false
              else verifySignature serializeDeterministic requestedValues requesterPublicKey);
    if negb mine then Ok (EndorsementDone.mk ENDORSEMENT_INVALID_SIGNATURE None)
    else
      '(hasConfiguredEndorsements, configuredMatch) ← findMatchingConfiguredEndorsement configured sourceNodeId requestedValues;
      match (hasConfiguredEndorsements : bool), configuredMatch with
      | true, None => Ok (EndorsementDone.mk ENDORSEMENT_FAILED None)
      | _, _ =>
          type ← endorsementType requestedValues;
          value ← endorsementValue requestedValues;
          let endorsementType := match configuredMatch with Some c => configured_type c | None => type end in
          let endorsementValue := match configuredMatch with Some c => configured_value c | None => value end in
          let seconds := match configuredMatch with
                         | Some c => if SFltb (S754_zero false) (validForSeconds c) then validForSeconds c else one_day
                         | None => one_day
                         end in
          let validUntil := DateTime.add now seconds in
          issuedEndorsement ← createSigned serializeDeterministic keyPair subject endorsementType endorsementValue
                                (DateTime.millisecondsSinceEpoch validUntil);
          proto ← Endorsement_toProto issuedEndorsement;
          Ok (EndorsementDone.mk ENDORSEMENT_SUCCESS (Some proto))
      end.

(** What is answered to a request. *)
Definition endorsementAnswer (keyPair : KeyPair) (lookup : NodeID -> option Identity.t)
    (configured : list ConfiguredEndorsement) (now : DateTime.t) (message : RSPMessage.t) : Res EndorsementDone.t :=
  let failed := EndorsementDone.mk ENDORSEMENT_FAILED None in
  match senderNodeIdFromMessage message with
  | None => Ok failed
  | Some sourceNodeId =>
      match lookup sourceNodeId with
      | None => Ok (EndorsementDone.mk ENDORSEMENT_UNKNOWN_IDENTITY None)
      | Some cachedIdentity =>
          match unpackServiceMessage BeginEndorsementRequest.t message with
          | None => Ok failed
          | Some request =>
              match BeginEndorsementRequest.requested_values request with
              | None => Ok (EndorsementDone.mk ENDORSEMENT_INVALID_SIGNATURE None)
              | Some values =>
                  catch_any (issueEndorsement keyPair configured now sourceNodeId cachedIdentity values)
                            (fun _ => Ok failed)
              end
          end
      end
  end.

Definition handleBeginEndorsementRequest (push : RSPMessage.t -> bool) (keyPair : KeyPair)
    (lookup : NodeID -> option Identity.t) (configured : list ConfiguredEndorsement) (now : DateTime.t)
    (message : RSPMessage.t) : Res (bool * list RSPMessage.t) :=
  let reply := match senderNodeIdFromMessage message with
               | Some id => to_destination (toProtoNodeId id)
               | None => RSPMessage.empty
               end in
  done ← endorsementAnswer keyPair lookup configured now message;
  let sent := packServiceMessage reply done in
  Ok (push sent, [sent]).

Definition es_handleNodeSpecificMessage (push : RSPMessage.t -> bool) (keyPair : KeyPair)
    (lookup : NodeID -> option Identity.t) (configured : list ConfiguredEndorsement) (now : DateTime.t)
    (message : RSPMessage.t) : Res (bool * list RSPMessage.t) :=
  let has_identity := match RSPMessage.core_message message with Some (IdentityMessage _) => true | _ => false end in
  if has_identity || negb (match RSPMessage.identities message with [] => true | _ => false end) then Ok (true, [])
  else if hasServiceMessage BeginEndorsementRequest.t message
  then handleBeginEndorsementRequest push keyPair lookup configured now message
  else Ok (false, []).

(** ** What the service is meant to check *)

(** The sender is known, and the values it asks for are about itself and signed
    with the key that its node id stands for. *)
Record entitled (lookup : NodeID -> option Identity.t) (message : RSPMessage.t) (id : NodeID) (key : KeyPair)
    (v : Endorsement.t) (type : GUID) (value : bytes) : Prop := {
  ent_sender : senderNodeIdFromMessage message = Some id;
  ent_identity : exists identity, lookup id = Some identity
    /\ fromPublicKey (default default_public_key (Identity.public_key identity)) = Ok key;
  ent_key : nodeID key = Ok id;
  ent_request : exists request, unpackServiceMessage BeginEndorsementRequest.t message = Some request
    /\ BeginEndorsementRequest.requested_values request = Some v;
  ent_subject : endorsement_subject v = Ok id;
  ent_service : endorsementService v = Ok id;
  ent_type : endorsementType v = Ok type;
  ent_value : endorsementValue v = Ok value;
  ent_signature : verifySignature serializeDeterministic v key = Ok true }.

(** A configured endorsement covers a request. *)
Definition grants (id : NodeID) (type : GUID) (value : bytes) (c : ConfiguredEndorsement) : bool :=
  match requestor c with Some r => bool_decide (r = id) | None => true end
  && bool_decide (configured_type c = type) && bool_decide (configured_value c = value).

(** Without configuration every request is granted. *)
Definition permitted (configured : list ConfiguredEndorsement) (id : NodeID) (type : GUID) (value : bytes) : bool :=
  match configured with [] => true | _ => existsb (grants id type value) configured end.

(** ** Lemmas *)

Lemma buffersEqual_spec a b : buffersEqual a b = bool_decide (a = b).
Proof.
  unfold buffersEqual. destruct (Nat.eqb_spec (List.length a) (List.length b)) as [Hl|Hl]; cbn [negb].
  - destruct a; [|done]. destruct b; [|done]. by rewrite bool_decide_eq_true_2.
  - rewrite bool_decide_eq_false_2 by congruence. done.
Qed.

(** The accessors of a validated endorsement return. *)
Lemma accessors_ok v :
  validateMessage v true = Ok tt ->
  exists s t, endorsement_subject v = Ok s /\ endorsementType v = Ok t /\ (exists w, endorsementService v = Ok w)
    /\ endorsementValue v = Ok (stringToBuffer (Endorsement.endorsement_value v)).
Proof.
  intros Hv. pose proof Hv as [(s & w & t & u & H1 & H2 & H3 & H4 & L1 & L2 & L3) _]%validateMessage_ok.
  unfold endorsement_subject, endorsementType, endorsementService, endorsementValue. rewrite Hv, H1, H2, H3.
  cbn [mbind res_bind default from_option Datatypes.id]. unfold deserializeGuidBytes. rewrite L1, L2, L3. cbn. eauto 10.
Qed.

Lemma validated v x : endorsement_subject v = Ok x -> validateMessage v true = Ok tt.
Proof. unfold endorsement_subject. by destruct (validateMessage_cases v true) as [->|[? ->]]. Qed.

Lemma findMatching_find id v type value configured :
  endorsementType v = Ok type -> endorsementValue v = Ok value ->
  findMatching id v configured = Ok (List.find (grants id type value) configured).
Proof.
  intros Ht Hv. induction configured as [|c configured IH]; [done|]. cbn [findMatching List.find]. unfold grants at 1.
  rewrite Ht, Hv, IH. cbn [mbind res_bind]. rewrite buffersEqual_spec.
  destruct (requestor c) as [r|]; [case_bool_decide|]; cbn [negb andb]; try done;
    (case_bool_decide; cbn [negb andb]; [|done]); by case_bool_decide.
Qed.

Lemma find_permitted configured id type value :
  permitted configured id type value = false <-> configured <> [] /\ List.find (grants id type value) configured = None.
Proof.
  unfold permitted. destruct configured as [|c cs]; [by split; [|intros []]|].
  split; [|intros [_ Hf]].
  - intros He. split; [done|]. destruct (List.find _ _) as [x|] eqn:Hf; [|done].
    apply List.find_some in Hf as [Hin Hg].
    assert (existsb (grants id type value) (c :: cs) = true) by (apply existsb_exists; eauto). congruence.
  - apply not_true_iff_false. intros (x & Hin & Hg)%existsb_exists.
    pose proof (List.find_none _ _ Hf x Hin). congruence.
Qed.

(** The issued endorsement for a request that passed the checks. *)
Definition issued (keyPair : KeyPair) (configured : list ConfiguredEndorsement) (now : DateTime.t) (id : NodeID)
    (type : GUID) (value : bytes) : Res Endorsement.t :=
  let seconds := match List.find (grants id type value) configured with
                 | Some c => if SFltb (S754_zero false) (validForSeconds c) then validForSeconds c else one_day
                 | None => one_day
                 end in
  createSigned serializeDeterministic keyPair id type value
    (DateTime.millisecondsSinceEpoch (DateTime.add now seconds)).

(** Granting does not change what was asked for. *)
Lemma issueEndorsement_entitled kp configured now lookup m id identity key v type value :
  entitled lookup m id key v type value -> lookup id = Some identity ->
  issueEndorsement kp configured now id identity v =
  if permitted configured id type value then
    e ← issued kp configured now id type value;
    proto ← Endorsement_toProto e;
    Ok (EndorsementDone.mk ENDORSEMENT_SUCCESS (Some proto))
  else Ok (EndorsementDone.mk ENDORSEMENT_FAILED None).
Proof.
  intros [_ (i & Hi & Hk) Hid _ Hs Hw Ht Hv Hsig] Hl. rewrite Hl in Hi. injection Hi as <-.
  unfold issueEndorsement, Endorsement_fromProto, findMatchingConfiguredEndorsement. rewrite Hk. cbn [mbind res_bind].
  rewrite Hid. cbn [mbind res_bind]. rewrite bool_decide_eq_true_2 by done. cbn [negb].
  rewrite (validated _ _ Hs). cbn [mbind res_bind]. rewrite Hs. cbn [mbind res_bind].
  rewrite bool_decide_eq_true_2, Hw by done. cbn [negb mbind res_bind].
  rewrite bool_decide_eq_true_2, Hsig by done. cbn [negb mbind res_bind].
  rewrite (findMatching_find id v type value) by done. cbn [mbind res_bind]. rewrite Ht, Hv. cbn [mbind res_bind].
  unfold issued. destruct (List.find _ configured) as [c|] eqn:Hf.
  - apply List.find_some in Hf as Hg. destruct Hg as [Hin Hg].
    assert (Hp : permitted configured id type value = true).
    { destruct (permitted configured id type value) eqn:Hp; [done|]. apply find_permitted in Hp as [_ Hp]. congruence. }
    rewrite Hp. unfold grants in Hg. apply andb_true_iff in Hg as [[_ Hc]%andb_true_iff Hc'].
    apply bool_decide_eq_true_1 in Hc, Hc'. rewrite Hc, Hc'. by destruct configured.
  - destruct configured as [|c cs]; [done|]. by rewrite (proj2 (find_permitted (c :: cs) id type value)).
Qed.

(** Everything but a checked request is refused. *)
Lemma issueEndorsement_checked kp configured now id identity v done :
  issueEndorsement kp configured now id identity v = Ok done ->
  (EndorsementDone.status done <> ENDORSEMENT_SUCCESS /\ EndorsementDone.new_endorsement done = None)
  \/ exists key type value,
       fromPublicKey (default default_public_key (Identity.public_key identity)) = Ok key /\ nodeID key = Ok id
       /\ endorsement_subject v = Ok id /\ endorsementService v = Ok id /\ endorsementType v = Ok type
       /\ endorsementValue v = Ok value /\ verifySignature serializeDeterministic v key = Ok true.
Proof.
  unfold issueEndorsement. destruct (fromPublicKey _) as [key| | |] eqn:Hk; try done. cbn [mbind res_bind].
  destruct (nodeID key) as [r| | |] eqn:Hid; try done. cbn [mbind res_bind].
  case_bool_decide as Hr; cbn [negb]; [subst r|intros [= <-]; by left].
  unfold Endorsement_fromProto. destruct (validateMessage_cases v true) as [Hv|[? ->]]; [rewrite Hv|done].
  destruct (accessors_ok v Hv) as (s & t & Hs & Ht & (w & Hw) & Hval). cbn [mbind res_bind]. rewrite Hs. cbn [mbind res_bind].
  case_bool_decide as Hsub; cbn [negb mbind res_bind]; [subst s|intros [= <-]; by left].
  rewrite Hw. cbn [mbind res_bind]. case_bool_decide as Hser; cbn [negb mbind res_bind]; [subst w|intros [= <-]; by left].
  destruct (verifySignature _ v key) as [[]| | |] eqn:Hsig; try done; cbn [negb mbind res_bind]; [|intros [= <-]; by left].
  intros _. right. eauto 12.
Qed.

Lemma accessors_defined v :
  defined (endorsement_subject v) /\ defined (endorsementType v) /\ defined (endorsementService v)
  /\ defined (endorsementValue v).
Proof.
  destruct (validateMessage_cases v true) as [Hv|[x Hv]].
  - destruct (accessors_ok v Hv) as (s & t & -> & -> & (w & ->) & ->). done.
  - unfold endorsement_subject, endorsementType, endorsementService, endorsementValue. by rewrite Hv.
Qed.

Lemma validateMessage_defined v r : defined (validateMessage v r).
Proof. by destruct (validateMessage_cases v r) as [->|[? ->]]. Qed.

Lemma sign_defined k b : defined (sign k b).
Proof. unfold sign. repeat case_match; done. Qed.

Lemma createSigned_defined k s t x u : defined (createSigned serializeDeterministic k s t x u).
Proof.
  apply defined_bind; [apply nodeID_defined|]. intros service. apply defined_bind.
  { apply defined_bind; [apply validateMessage_defined|done]. }
  intros b. apply defined_bind; [apply sign_defined|done].
Qed.

Lemma verifySignature_defined v k : defined (verifySignature serializeDeterministic v k).
Proof.
  apply defined_bind; [apply validateMessage_defined|]. intros _. apply defined_bind; [apply nodeID_defined|]. intros i.
  apply defined_bind; [apply accessors_defined|]. intros w. case_bool_decide; [|done].
  apply defined_bind. { apply defined_bind; [apply validateMessage_defined|done]. }
  intros b. apply defined_bind. { apply defined_bind; [apply validateMessage_defined|done]. }
  intros s. unfold verify. repeat case_match; done.
Qed.

Lemma findMatching_defined id v configured : defined (findMatching id v configured).
Proof.
  induction configured as [|c configured IH]; [done|]. cbn [findMatching]. destruct (match requestor c with Some _ => _ | None => _ end); [exact IH|].
  apply defined_bind; [apply accessors_defined|]. intros t. destruct (negb _); [exact IH|].
  apply defined_bind; [apply accessors_defined|]. intros x. by destruct (negb _).
Qed.

Lemma issueEndorsement_defined kp configured now id identity v :
  defined (issueEndorsement kp configured now id identity v).
Proof.
  apply defined_bind; [apply fromPublicKey_defined|]. intros key. apply defined_bind; [apply nodeID_defined|]. intros r.
  destruct (negb _); [done|]. apply defined_bind. { apply defined_bind; [apply validateMessage_defined|done]. }
  intros v'. apply defined_bind; [apply accessors_defined|]. intros s. apply defined_bind.
  { destruct (negb _); [done|]. apply defined_bind; [apply accessors_defined|]. intros w.
    destruct (negb _); [done|apply verifySignature_defined]. }
  intros mine. destruct (negb _); [done|]. apply defined_bind.
  { apply defined_bind; [apply findMatching_defined|done]. }
  intros [has match_]. destruct has, match_; try done;
    (apply defined_bind; [apply accessors_defined|intros t]); (apply defined_bind; [apply accessors_defined|intros x]);
    (apply defined_bind; [apply createSigned_defined|intros e]);
    (apply defined_bind; [apply defined_bind; [apply validateMessage_defined|done]|done]).
Qed.

(** The answer is given in every case. *)
Lemma endorsementAnswer_ok kp lookup configured now m :
  exists done, endorsementAnswer kp lookup configured now m = Ok done.
Proof.
  unfold endorsementAnswer. destruct (senderNodeIdFromMessage m) as [id|]; [|by eexists].
  destruct (lookup id) as [identity|]; [|by eexists]. destruct (unpackServiceMessage _ m) as [request|]; [|by eexists].
  destruct (BeginEndorsementRequest.requested_values request) as [v|]; [|by eexists].
  pose proof (issueEndorsement_defined kp configured now id identity v) as Hd.
  destruct (issueEndorsement kp configured now id identity v); cbn; eauto; done.
Qed.

(** What is issued was asked for by an entitled node. *)
Lemma endorsementAnswer_issued kp lookup configured now m done :
  endorsementAnswer kp lookup configured now m = Ok done ->
  (EndorsementDone.status done <> ENDORSEMENT_SUCCESS /\ EndorsementDone.new_endorsement done = None)
  \/ exists id key v type value e,
       entitled lookup m id key v type value /\ permitted configured id type value = true
       /\ issued kp configured now id type value = Ok e /\ validateMessage e true = Ok tt
       /\ done = EndorsementDone.mk ENDORSEMENT_SUCCESS (Some e).
Proof.
  unfold endorsementAnswer. destruct (senderNodeIdFromMessage m) as [id|] eqn:Hs; [|intros [= <-]; by left].
  destruct (lookup id) as [identity|] eqn:Hl; [|intros [= <-]; by left].
  destruct (unpackServiceMessage _ m) as [request|] eqn:Hu; [|intros [= <-]; by left].
  destruct (BeginEndorsementRequest.requested_values request) as [v|] eqn:Hv; [|intros [= <-]; by left].
  destruct (issueEndorsement kp configured now id identity v) as [d| | |] eqn:Hi; cbn; try done; intros [= <-]; [|by left].
  destruct (issueEndorsement_checked _ _ _ _ _ _ _ Hi) as [?|(key & type & value & H1 & H2 & H3 & H4 & H5 & H6 & H7)]; [by left|].
  assert (E : entitled lookup m id key v type value) by (split; eauto).
  rewrite (issueEndorsement_entitled _ _ _ _ _ _ _ _ _ _ _ E Hl) in Hi.
  destruct (permitted configured id type value) eqn:Hp; [|injection Hi as <-; by left].
  destruct (issued kp configured now id type value) as [e| | |] eqn:He; try done. cbn [mbind res_bind] in Hi.
  unfold Endorsement_toProto in Hi. destruct (validateMessage_cases e true) as [Hval|[? Hval]]; rewrite Hval in Hi; [|done].
  cbn in Hi. injection Hi as <-. right. eauto 12.
Qed.

Context `{L : !CryptoLaws C}.

(** ** Properties *)

(** C16.  Endorsements are only issued to entitled requesters.  Every request that
    reaches the request handler (the dispatcher keeps those that carry identities from
    it) is answered with exactly one message, to its sender; when that message carries
    an endorsement, the sender's identity was known, the requested values were
    about the sender and signed with the key its node id stands for, and the
    configuration permits type and value for this node; the endorsement names
    that node, type and value and this service, and verifies under the service's
    key (for signatures below 4 GiB).  Any other answer carries none. *)
Theorem endorsement_service_sound push kp lookup configured now m :
  exists done, endorsementAnswer kp lookup configured now m = Ok done /\
    let reply := packServiceMessage (match senderNodeIdFromMessage m with
                                     | Some id => to_destination (toProtoNodeId id) | None => RSPMessage.empty end) done in
    handleBeginEndorsementRequest push kp lookup configured now m = Ok (push reply, [reply])
    /\ (EndorsementDone.status done = ENDORSEMENT_SUCCESS <-> EndorsementDone.new_endorsement done <> None)
    /\ forall e, EndorsementDone.new_endorsement done = Some e ->
       exists id key v type value, entitled lookup m id key v type value
         /\ permitted configured id type value = true
         /\ (size_of (Endorsement.signature e) < 2 ^ 32 ->
             verifySignature serializeDeterministic e kp = Ok true
             /\ endorsementService e = nodeID kp /\ endorsement_subject e = Ok id
             /\ endorsementType e = Ok type /\ Endorsement.endorsement_value e = value).
Proof.
  destruct (endorsementAnswer_ok kp lookup configured now m) as [done Hd]. exists done. split; [done|]. cbv zeta.
  unfold handleBeginEndorsementRequest. rewrite Hd. split; [done|].
  destruct (endorsementAnswer_issued _ _ _ _ _ _ Hd) as [[H1 H2]|(id & key & v & type & value & e & E & Hp & Hi & Hval & ->)].
  { rewrite H2. split; [done|]. intros e [=]. }
  split; [done|]. intros e' [= <-]. exists id, key, v, type, value. do 2 (split; [done|]). intros Hsz.
  destruct E as [_ _ _ _ Es _ Et _ _].
  assert (GUID_wf id).
  { unfold endorsement_subject in Es. destruct (validateMessage v true) as [[]| | |]; try done. by apply deserializeGuidBytes_inv in Es as (_ & _ & ?). }
  assert (GUID_wf type).
  { unfold endorsementType in Et. destruct (validateMessage v true) as [[]| | |]; try done. by apply deserializeGuidBytes_inv in Et as (_ & _ & ?). }
  eapply (createSigned_verifies serializeDeterministic); [done..|exact Hi].
Qed.

(** A key that can sign makes valid endorsements. *)
Lemma createSigned_ok kp svc subject type value validUntil :
  nodeID kp = Ok svc -> (forall b, exists s, sign kp b = Ok s) ->
  exists e b s, createSigned serializeDeterministic kp subject type value validUntil = Ok e
    /\ validateMessage e true = Ok tt /\ sign kp b = Ok s /\ Endorsement.signature e = bufferToString s.
Proof.
  intros Hsvc Hsign. unfold createSigned. rewrite Hsvc. cbn [mbind res_bind].
  unfold serializeUnsigned. set (e0 := Endorsement.mk _ _ _ _ _ []).
  assert (Hv0 : validateMessage e0 false = Ok tt).
  { apply validateMessage_ok. split; [|done]. do 4 eexists. repeat split; apply length_serializeGuidBytes. }
  rewrite Hv0. cbn [mbind res_bind]. destruct (Hsign (serializeDeterministic e0)) as [s Hs]. rewrite Hs. cbn [mbind res_bind].
  set (e1 := Endorsement.mk _ _ _ _ _ (bufferToString s)). exists e1, (serializeDeterministic e0), s. split_and!; [done| |done..].
  apply validateMessage_ok. split; [do 4 eexists; repeat split; apply length_serializeGuidBytes|]. intros _.
  unfold sign in Hs. destruct kp as [k|]; [|done]. destruct (negb _); [done|].
  destruct (digest_sign k _) as [s'|] eqn:Hd; [|done]. injection Hs as <-. apply sign_nonempty in Hd. by destruct s'.
Qed.

(** The answer to a permitted request of an entitled node. *)
Lemma endorsementAnswer_serves kp svc lookup configured now m id key v type value :
  nodeID kp = Ok svc -> (forall b, exists s, sign kp b = Ok s) ->
  entitled lookup m id key v type value -> permitted configured id type value = true ->
  exists e, issued kp configured now id type value = Ok e /\ validateMessage e true = Ok tt
    /\ endorsementAnswer kp lookup configured now m = Ok (EndorsementDone.mk ENDORSEMENT_SUCCESS (Some e)).
Proof.
  intros Hsvc Hsign E Hp. pose proof E as [Hs (identity & Hl & _) _ (request & Hu & Hv) _ _ _ _ _].
  unfold endorsementAnswer. rewrite Hs, Hl, Hu, Hv.
  rewrite (issueEndorsement_entitled _ _ _ _ _ _ _ _ _ _ _ E Hl), Hp. unfold issued.
  destruct (createSigned_ok kp svc id type value (DateTime.millisecondsSinceEpoch (DateTime.add now
      match List.find (grants id type value) configured with
      | Some c => if SFltb (S754_zero false) (validForSeconds c) then validForSeconds c else one_day
      | None => one_day
      end))) as (e & _ & _ & He & Hval & _); [done..|].
  exists e. rewrite He. cbn [mbind res_bind]. unfold Endorsement_toProto. by rewrite Hval.
Qed.

(** Entitled requesters are served.  With a service key that can sign,
    the request of an entitled node that the configuration permits is answered
    with SUCCESS and an endorsement. *)
Theorem endorsement_service_serves push kp svc lookup configured now m id key v type value :
  nodeID kp = Ok svc -> (forall b, exists s, sign kp b = Ok s) ->
  entitled lookup m id key v type value -> permitted configured id type value = true ->
  exists e, handleBeginEndorsementRequest push kp lookup configured now m =
    let reply := packServiceMessage (to_destination (toProtoNodeId id)) (EndorsementDone.mk ENDORSEMENT_SUCCESS (Some e)) in
    Ok (push reply, [reply]).
Proof.
  intros Hsvc Hsign E Hp.
  destruct (endorsementAnswer_serves kp svc lookup configured now m id key v type value) as (e & _ & _ & He); [done..|].
  exists e. unfold handleBeginEndorsementRequest. by rewrite He, (ent_sender _ _ _ _ _ _ _ E).
Qed.
End EndorsementService.

(** ** Witnesses *)
#[local] Existing Instances ToyCrypto.toy ToyCrypto.toy_laws x86_math.

Definition es_alice : NodeID := mkGUID (be_value 64 (bs "Dalice" ++ replicate 2 (byte_of 0))) 0.
Definition es_identity : Identity.t := Identity.mk None (Some (PublicKey.mk P256 (bs "Palice"))) None.
Definition es_lookup (id : NodeID) : option Identity.t := if bool_decide (id = es_alice) then Some es_identity else None.

(** Alice's request, signed by herself. *)
Definition es_values : Endorsement.t :=
  let unsigned := setMessageFields es_alice es_alice (mkGUID 3 4) (bs "v") 5 [] in
  Endorsement.mk (Endorsement.subject unsigned) (Endorsement.endorsement_service unsigned)
    (Endorsement.endorsement_type unsigned) (Endorsement.endorsement_value unsigned) (Endorsement.valid_until unsigned)
    (bs "Salicev").

#[local] Instance es_request_type : ServiceMessageType BeginEndorsementRequest.t := {|
  full_name := "rsp.proto.BeginEndorsementRequest";
  serialize_message := fun _ => [];
  parse_message := fun _ => Some (BeginEndorsementRequest.mk (Some es_values) None) |}.

#[local] Instance es_done_type : ServiceMessageType EndorsementDone.t := {|
  full_name := "rsp.proto.EndorsementDone";
  serialize_message := fun d => to_string (EndorsementDone.status d);
  parse_message := fun _ => None |}.

Definition es_message : RSPMessage.t :=
  RSPMessage.set_source (packServiceMessage RSPMessage.empty (BeginEndorsementRequest.mk (Some es_values) None))
    (Some (toProtoNodeId es_alice)).

Definition es_configured : list ConfiguredEndorsement := [mkConfigured None (mkGUID 3 4) (bs "v") one_day].

Definition es_now : DateTime.t := DateTime.fromMillisecondsSinceEpoch 1700000000000.

Lemma es_entitled :
  entitled Endorsement.endorsement_value es_lookup es_message es_alice (Some (bs "alice", false)) es_values (mkGUID 3 4) (bs "v").
Proof. split; try (vm_compute; reflexivity); eexists; split; vm_compute; reflexivity. Qed.

Lemma endorsement_service_sound_witness :
  exists e key v type value, endorsementAnswer Endorsement.endorsement_value ToyCrypto.bob es_lookup es_configured es_now
      es_message = Ok (EndorsementDone.mk ENDORSEMENT_SUCCESS (Some e))
    /\ entitled Endorsement.endorsement_value es_lookup es_message es_alice key v type value
    /\ verifySignature Endorsement.endorsement_value e ToyCrypto.bob = Ok true.
Proof.
  destruct (endorsement_service_sound Endorsement.endorsement_value (fun _ => true) ToyCrypto.bob es_lookup
    es_configured es_now es_message) as (done & Hd & _ & _ & He).
  eexists. vm_compute in Hd. injection Hd as <-.
  destruct (He _ eq_refl) as (id & key & v & type & value & E & _ & Hv). exists key, v, type, value.
  split; [vm_compute; reflexivity|]. destruct Hv as (Hsig & _); [vm_compute; reflexivity|].
  destruct E as [Hs E1 E2 E3 E4 E5 E6 E7 E8]. assert (Some id = Some es_alice) as [= ->] by (rewrite <- Hs; vm_compute; reflexivity).
  split; [by split|exact Hsig].
Defined.

Lemma endorsement_service_serves_witness :
  exists e, handleBeginEndorsementRequest Endorsement.endorsement_value (fun _ => true) ToyCrypto.bob es_lookup
      es_configured es_now es_message
    = let reply := packServiceMessage (to_destination (toProtoNodeId es_alice)) (EndorsementDone.mk ENDORSEMENT_SUCCESS (Some e)) in
      Ok (true, [reply]).
Proof.
  eapply (endorsement_service_serves Endorsement.endorsement_value (fun _ => true) ToyCrypto.bob).
  - vm_compute. reflexivity.
  - intros b. eexists. reflexivity.
  - exact es_entitled.
  - vm_compute. reflexivity.
Defined.
