(* ===== verification/NameService.v ===== *)
(** * resource_service/name: the name service

    A database of records, one for each (name, owner, type), with a time to live.
    Requests create, read, update, delete, query and refresh records; a sweep
    thread removes expired ones; when a name is created that another node holds
    already, a ping thread finds out whether that node is still there and lets
    its record expire if it is not.

    The handlers run one at a time in the node's input queue, and every access to
    the database is under its mutex, so the service is a state machine whose
    steps are the requests, the sweeps and the two halves of a ping check.
    [now] is the clock reading of a step, [push] is [send]. *)

From Stdlib Require Import SpecFloat.
From stdpp Require Import sorting.
From S2P Require Import Prelude BaseTypes Proto GuidBytes MessageHash Signing IdentityCache DateTimes ServiceMessage Node.

Definition NAME_SUCCESS : Enum := 0.
Definition NAME_NOT_FOUND : Enum := 1.
Definition NAME_DUPLICATE : Enum := 2.

(** ** Messages *)
Module NameRecord.
Record t := mk { name : bytes; owner : option NodeId; type : option Uuid; value : option Uuid; expires_at : option DateTime }.
Definition empty : t := mk [] None None None None.
End NameRecord.

Module NameCreateRequest.
Record t := mk { record : option NameRecord.t }.
End NameCreateRequest.

Module NameCreateReply.
Record t := mk { status : Enum; message : option bytes }.
End NameCreateReply.

Module NameReadRequest.
Record t := mk { name : bytes; owner : option NodeId; type : option Uuid }.
End NameReadRequest.

Module NameReadReply.
Record t := mk { status : Enum; records : list NameRecord.t }.
End NameReadReply.

Module NameUpdateRequest.
Record t := mk { name : bytes; owner : option NodeId; type : option Uuid; new_value : option Uuid }.
End NameUpdateRequest.

Module NameUpdateReply.
Record t := mk { status : Enum; message : option bytes }.
End NameUpdateReply.

Module NameDeleteRequest.
Record t := mk { name : bytes; owner : option NodeId; type : option Uuid }.
End NameDeleteRequest.

Module NameDeleteReply.
Record t := mk { status : Enum; message : option bytes }.
End NameDeleteReply.

Module NameQueryRequest.
Record t := mk { name_prefix : option bytes; owner : option NodeId; type : option Uuid; max_records : Z }.
End NameQueryRequest.

Module NameQueryReply.
Record t := mk { records : list NameRecord.t }.
End NameQueryReply.

Module NameRefreshRequest.
Record t := mk { name : bytes; owner : option NodeId; type : option Uuid }.
End NameRefreshRequest.

Module NameRefreshReply.
Record t := mk { status : Enum; message : option bytes }.
End NameRefreshReply.

(** The generated classes. *)
Class NameMessages := {
  nm_create :: ServiceMessageType NameCreateRequest.t; nm_create_reply :: ServiceMessageType NameCreateReply.t;
  nm_read :: ServiceMessageType NameReadRequest.t; nm_read_reply :: ServiceMessageType NameReadReply.t;
  nm_update :: ServiceMessageType NameUpdateRequest.t; nm_update_reply :: ServiceMessageType NameUpdateReply.t;
  nm_delete :: ServiceMessageType NameDeleteRequest.t; nm_delete_reply :: ServiceMessageType NameDeleteReply.t;
  nm_query :: ServiceMessageType NameQueryRequest.t; nm_query_reply :: ServiceMessageType NameQueryReply.t;
  nm_refresh :: ServiceMessageType NameRefreshRequest.t; nm_refresh_reply :: ServiceMessageType NameRefreshReply.t }.

(** ** The database *)
Abbreviation RecordKey := (bytes * bytes * bytes)%type.

Record StoredRecord := mkStored {
  stored_name : bytes;
  ownerBytes : bytes;
  typeBytes : bytes;
  valueBytes : bytes;
  expiresAt : DateTime.t }.

Record PingCheckItem := mkPing { oldRecordKey : RecordKey; oldOwnerBytes : bytes }.

(** [checking] is the item the ping thread has taken from the queue. *)
Record NameService := mkNames {
  records_ : gmap RecordKey StoredRecord;
  pingCheckQueue_ : list PingCheckItem;
  checking : option PingCheckItem }.

Definition set_records (s : NameService) (m : gmap RecordKey StoredRecord) : NameService :=
  mkNames m (pingCheckQueue_ s) (checking s).

Definition makeKey (name owner type : bytes) : RecordKey := (name, owner, type).

Definition recordKey (record : NameRecord.t) : RecordKey :=
  makeKey (NameRecord.name record) (value_or_empty (NameRecord.owner record)) (value_or_empty (NameRecord.type record)).

Definition kRecordTtlSeconds : double := double_of_u64 300.

(** The order of a [std::map] keyed by a tuple of strings. *)
Definition bytes_ltb (a b : bytes) : bool := negb (bytes_leb b a).

Definition key_leb (a b : RecordKey) : bool :=
  let '(n1, o1, t1) := a in let '(n2, o2, t2) := b in
  bytes_ltb n1 n2
  || (bool_decide (n1 = n2) && (bytes_ltb o1 o2 || (bool_decide (o1 = o2) && bytes_leb t1 t2))).

Definition key_le (p q : RecordKey * StoredRecord) : Prop := Is_true (key_leb p.1 q.1).

(** Iteration over [records_]. *)
Definition records_in_order (m : gmap RecordKey StoredRecord) : list (RecordKey * StoredRecord) :=
  merge_sort key_le (map_to_list m).

(** [std::sort] with the comparison by expiry: some permutation of its input
    without an earlier record before a later one. *)
Definition expires_ms (r : NameRecord.t) : Z := default 0 (NameRecord.expires_at r).
Definition later_first (a b : NameRecord.t) : Prop := expires_ms b <= expires_ms a.

Class StdSort := { sortByExpiresAtDescending : list NameRecord.t -> list NameRecord.t }.
Class StdSortLaws (S : StdSort) := {
  sort_permutes : forall l, sortByExpiresAtDescending l ≡ₚ l;
  sort_sorts : forall l, Sorted later_first (sortByExpiresAtDescending l) }.

(** An entry of the database: its key, its value and its expiry. *)
Abbreviation Entry := (RecordKey * (bytes * DateTime.t))%type.

Section NameService.
Context `{M : MathLib} `{Sort : StdSort} `{NM : NameMessages}.
Context (push : RSPMessage.t -> bool).

Definition toProto (stored : StoredRecord) : NameRecord.t :=
  NameRecord.mk (stored_name stored) (Some (ownerBytes stored)) (Some (typeBytes stored)) (Some (valueBytes stored))
    (Some (DateTime.millisecondsSinceEpoch (expiresAt stored))).

(** The end of every handler: the response to the sender, if it is known. *)
Definition respond {T} `{ServiceMessageType T} (message : RSPMessage.t) (reply : T) : bool * list RSPMessage.t :=
  match senderNodeIdFromMessage message with
  | None => (false, [])
  | Some requester =>
      let response := packServiceMessage (to_destination (toProtoNodeId requester)) reply in (push response, [response])
  end.

(** *** Creation *)

(** Records of the same name and type under different owners. *)
Fixpoint sameNameType (record : NameRecord.t) (l : list (RecordKey * StoredRecord)) : list RecordKey :=
  match l with
  | [] => []
  | (k, stored) :: l' =>
      if bool_decide (stored_name stored = NameRecord.name record)
         && bool_decide (typeBytes stored = value_or_empty (NameRecord.type record))
         && negb (bool_decide (ownerBytes stored = value_or_empty (NameRecord.owner record)))
      then k :: sameNameType record l' else sameNameType record l'
  end.

(** The critical section: the reply, the ping check to queue, the database. *)
Definition createRecord (m : gmap RecordKey StoredRecord) (record : NameRecord.t) (now : DateTime.t)
    : Res (NameCreateReply.t * option PingCheckItem * gmap RecordKey StoredRecord) :=
  let key := recordKey record in
  match m !! key with
  | Some _ => Ok (NameCreateReply.mk NAME_DUPLICATE (Some (bs "record with (name, owner, type) already exists")), None, m)
  | None =>
      pingCheck ← match sameNameType record (records_in_order m) with
                  | [oldKey] =>
                      match m !! oldKey with
                      | Some old => Ok (Some (mkPing oldKey (ownerBytes old)))
                      | None => Throw (LogicError (bs "map::at"))
                      end
                  | _ => Ok None
                  end;
      let stored := mkStored (NameRecord.name record) (value_or_empty (NameRecord.owner record))
                      (value_or_empty (NameRecord.type record)) (value_or_empty (NameRecord.value record))
                      (DateTime.add now kRecordTtlSeconds) in
      Ok (NameCreateReply.mk NAME_SUCCESS None, pingCheck, <[key := stored]> m)
  end.

Definition handleCreateRequest (s : NameService) (now : DateTime.t) (message : RSPMessage.t)
    : Res (bool * list RSPMessage.t * NameService) :=
  match unpackServiceMessage NameCreateRequest.t message with
  | None => Ok (false, [], s)
  | Some request =>
      '(reply, pingCheck, m) ← createRecord (records_ s) (default NameRecord.empty (NameCreateRequest.record request)) now;
      let s' := set_records s m in
      match senderNodeIdFromMessage message with
      | None => Ok (false, [], s')
      | Some _ =>
          let '(sent, out) := respond message reply in
          let queue := pingCheckQueue_ s' ++ match pingCheck with Some item => [item] | None => [] end in
          Ok (sent, out, mkNames (records_ s') queue (checking s'))
      end
  end.

(** *** Reading *)
Definition other (wanted : option bytes) (actual : bytes) : bool :=
  match wanted with Some w => negb (bool_decide (actual = w)) | None => false end.

Fixpoint readLoop (request : NameReadRequest.t) (now : DateTime.t) (l : list (RecordKey * StoredRecord))
    (records : list NameRecord.t) : list NameRecord.t :=
  match l with
  | [] => records
  | (_, stored) :: l' =>
      if negb (bool_decide (stored_name stored = NameReadRequest.name request)) then readLoop request now l' records
      else if other (NameReadRequest.owner request) (ownerBytes stored) then readLoop request now l' records
      else if other (NameReadRequest.type request) (typeBytes stored) then readLoop request now l' records
      else if DateTime.leb (expiresAt stored) now then readLoop request now l' records
      else readLoop request now l' (records ++ [toProto stored])
  end.

Definition readRecords (m : gmap RecordKey StoredRecord) (request : NameReadRequest.t) (now : DateTime.t) : NameReadReply.t :=
  let records := readLoop request now (records_in_order m) [] in
  NameReadReply.mk (match records with [] => NAME_NOT_FOUND | _ => NAME_SUCCESS end) (sortByExpiresAtDescending records).

Definition handleReadRequest (s : NameService) (now : DateTime.t) (message : RSPMessage.t)
    : Res (bool * list RSPMessage.t * NameService) :=
  match unpackServiceMessage NameReadRequest.t message with
  | None => Ok (false, [], s)
  | Some request => Ok (respond message (readRecords (records_ s) request now), s)
  end.

(** *** Updating, deleting, refreshing *)
Definition no_record : option bytes := Some (bs "no matching record").

Definition updateRecord (m : gmap RecordKey StoredRecord) (request : NameUpdateRequest.t)
    : NameUpdateReply.t * gmap RecordKey StoredRecord :=
  let key := makeKey (NameUpdateRequest.name request) (value_or_empty (NameUpdateRequest.owner request))
               (value_or_empty (NameUpdateRequest.type request)) in
  match m !! key with
  | None => (NameUpdateReply.mk NAME_NOT_FOUND no_record, m)
  | Some r =>
      (NameUpdateReply.mk NAME_SUCCESS None,
       <[key := mkStored (stored_name r) (ownerBytes r) (typeBytes r) (value_or_empty (NameUpdateRequest.new_value request))
                  (expiresAt r)]> m)
  end.

Definition handleUpdateRequest (s : NameService) (message : RSPMessage.t) : Res (bool * list RSPMessage.t * NameService) :=
  match unpackServiceMessage NameUpdateRequest.t message with
  | None => Ok (false, [], s)
  | Some request =>
      let '(reply, m) := updateRecord (records_ s) request in Ok (respond message reply, set_records s m)
  end.

Definition deleteRecord (m : gmap RecordKey StoredRecord) (request : NameDeleteRequest.t)
    : NameDeleteReply.t * gmap RecordKey StoredRecord :=
  let key := makeKey (NameDeleteRequest.name request) (value_or_empty (NameDeleteRequest.owner request))
               (value_or_empty (NameDeleteRequest.type request)) in
  match m !! key with
  | None => (NameDeleteReply.mk NAME_NOT_FOUND no_record, m)
  | Some _ => (NameDeleteReply.mk NAME_SUCCESS None, delete key m)
  end.

Definition handleDeleteRequest (s : NameService) (message : RSPMessage.t) : Res (bool * list RSPMessage.t * NameService) :=
  match unpackServiceMessage NameDeleteRequest.t message with
  | None => Ok (false, [], s)
  | Some request =>
      let '(reply, m) := deleteRecord (records_ s) request in Ok (respond message reply, set_records s m)
  end.

Definition refreshRecord (m : gmap RecordKey StoredRecord) (request : NameRefreshRequest.t) (now : DateTime.t)
    : NameRefreshReply.t * gmap RecordKey StoredRecord :=
  let key := makeKey (NameRefreshRequest.name request) (value_or_empty (NameRefreshRequest.owner request))
               (value_or_empty (NameRefreshRequest.type request)) in
  match m !! key with
  | None => (NameRefreshReply.mk NAME_NOT_FOUND no_record, m)
  | Some r =>
      (NameRefreshReply.mk NAME_SUCCESS None,
       <[key := mkStored (stored_name r) (ownerBytes r) (typeBytes r) (valueBytes r) (DateTime.add now kRecordTtlSeconds)]> m)
  end.

Definition handleRefreshRequest (s : NameService) (now : DateTime.t) (message : RSPMessage.t)
    : Res (bool * list RSPMessage.t * NameService) :=
  match unpackServiceMessage NameRefreshRequest.t message with
  | None => Ok (false, [], s)
  | Some request =>
      let '(reply, m) := refreshRecord (records_ s) request now in Ok (respond message reply, set_records s m)
  end.

(** *** Queries; [name.find(prefix) != 0] says that [prefix] is no prefix. *)
Definition lacksPrefix (request : NameQueryRequest.t) (name : bytes) : bool :=
  match NameQueryRequest.name_prefix request with
  | None | Some [] => false
  | Some prefix => negb (bool_decide (prefix `prefix_of` name))
  end.

Definition enough (maxRecords : Z) (records : list NameRecord.t) : bool :=
  (0 <? maxRecords) && (maxRecords <=? Z.of_nat (List.length records)).

Fixpoint queryLoop (request : NameQueryRequest.t) (now : DateTime.t) (l : list (RecordKey * StoredRecord))
    (records : list NameRecord.t) : list NameRecord.t :=
  match l with
  | [] => records
  | (_, stored) :: l' =>
      if lacksPrefix request (stored_name stored) then queryLoop request now l' records
      else if other (NameQueryRequest.owner request) (ownerBytes stored) then queryLoop request now l' records
      else if other (NameQueryRequest.type request) (typeBytes stored) then queryLoop request now l' records
      else if DateTime.leb (expiresAt stored) now then queryLoop request now l' records
      else
        let records' := records ++ [toProto stored] in
        if enough (NameQueryRequest.max_records request) records' then records' else queryLoop request now l' records'
  end.

Definition queryRecords (m : gmap RecordKey StoredRecord) (request : NameQueryRequest.t) (now : DateTime.t) : NameQueryReply.t :=
  NameQueryReply.mk (sortByExpiresAtDescending (queryLoop request now (records_in_order m) [])).

Definition handleQueryRequest (s : NameService) (now : DateTime.t) (message : RSPMessage.t)
    : Res (bool * list RSPMessage.t * NameService) :=
  match unpackServiceMessage NameQueryRequest.t message with
  | None => Ok (false, [], s)
  | Some request => Ok (respond message (queryRecords (records_ s) request now), s)
  end.

(** *** The handler of the node *)
Definition names_handleNodeSpecificMessage (now : DateTime.t) (s : NameService) (message : RSPMessage.t)
    : Res (bool * list RSPMessage.t * NameService) :=
  if hasServiceMessage NameCreateRequest.t message then handleCreateRequest s now message
  else if hasServiceMessage NameReadRequest.t message then handleReadRequest s now message
  else if hasServiceMessage NameUpdateRequest.t message then handleUpdateRequest s message
  else if hasServiceMessage NameDeleteRequest.t message then handleDeleteRequest s message
  else if hasServiceMessage NameQueryRequest.t message then handleQueryRequest s now message
  else if hasServiceMessage NameRefreshRequest.t message then handleRefreshRequest s now message
  else Ok (false, [], s).

(** *** The threads *)

(** One round of the sweep thread. *)
Definition sweep (s : NameService) (now : DateTime.t) : NameService :=
  set_records s (filter (fun e => DateTime.ltb (expiresAt e.2) now = false) (records_ s)).

(** The ping thread takes the oldest item. *)
Definition ping_take (s : NameService) : option NameService :=
  match checking s, pingCheckQueue_ s with
  | None, item :: queue => Some (mkNames (records_ s) queue (Some item))
  | _, _ => None
  end.

(** The node that is pinged; [fresh] is the random id of the default constructor. *)
Definition oldOwner (item : PingCheckItem) (fresh : NodeID) : NodeID :=
  if Nat.eqb (List.length (oldOwnerBytes item)) 16
  then mkGUID (memcpy_to_u64 (oldOwnerBytes item)) (memcpy_to_u64 (drop 8 (oldOwnerBytes item)))
  else fresh.

(** The end of a ping check; [null] is the random id of [rsp::NodeID{}] and
    [ping] the answer of the blocking ping. *)
Definition ping_finish (s : NameService) (fresh null : NodeID) (ping : NodeID -> bool) : option NameService :=
  match checking s with
  | None => None
  | Some item =>
      let owner := oldOwner item fresh in
      let alive := negb (bool_decide (owner = null)) && ping owner in
      let m := records_ s in
      let m' := if (alive : bool) then m
                else match m !! oldRecordKey item with
                     | Some r => <[oldRecordKey item := mkStored (stored_name r) (ownerBytes r) (typeBytes r) (valueBytes r)
                                                          (DateTime.mk (S754_zero false))]> m
                     | None => m
                     end in
      Some (mkNames m' (pingCheckQueue_ s) None)
  end.

(** ** The service as a state machine *)
Definition initial_names : NameService := mkNames ∅ [] None.

Inductive names_step (s : NameService) : NameService -> Prop :=
| step_request now message consumed out s' :
    names_handleNodeSpecificMessage now s message = Ok (consumed, out, s') -> names_step s s'
| step_sweep now : names_step s (sweep s now)
| step_ping_take s' : ping_take s = Some s' -> names_step s s'
| step_ping_finish fresh null ping s' : ping_finish s fresh null ping = Some s' -> names_step s s'.

(** Every record is filed under its own name, owner and type, and every ping
    check pings the owner of the record it may expire. *)
Definition item_ok (item : PingCheckItem) : Prop := (oldRecordKey item).1.2 = oldOwnerBytes item.

Record names_inv (s : NameService) : Prop := {
  inv_keys : map_Forall (fun k r => (stored_name r, ownerBytes r, typeBytes r) = k) (records_ s);
  inv_queue : Forall item_ok (pingCheckQueue_ s);
  inv_checking : forall item, checking s = Some item -> item_ok item }.

(** ** The specification: a map from keys to values and expiry times *)
Abbreviation Db := (gmap RecordKey (bytes * DateTime.t)).

Definition view_of_records (m : gmap RecordKey StoredRecord) : Db := (fun r => (valueBytes r, expiresAt r)) <$> m.

Inductive NameRequest :=
| RqCreate (r : NameCreateRequest.t) | RqRead (r : NameReadRequest.t) | RqUpdate (r : NameUpdateRequest.t)
| RqDelete (r : NameDeleteRequest.t) | RqQuery (r : NameQueryRequest.t) | RqRefresh (r : NameRefreshRequest.t).

Definition request_of (m : RSPMessage.t) : option NameRequest :=
  if hasServiceMessage NameCreateRequest.t m then RqCreate <$> unpackServiceMessage NameCreateRequest.t m
  else if hasServiceMessage NameReadRequest.t m then RqRead <$> unpackServiceMessage NameReadRequest.t m
  else if hasServiceMessage NameUpdateRequest.t m then RqUpdate <$> unpackServiceMessage NameUpdateRequest.t m
  else if hasServiceMessage NameDeleteRequest.t m then RqDelete <$> unpackServiceMessage NameDeleteRequest.t m
  else if hasServiceMessage NameQueryRequest.t m then RqQuery <$> unpackServiceMessage NameQueryRequest.t m
  else if hasServiceMessage NameRefreshRequest.t m then RqRefresh <$> unpackServiceMessage NameRefreshRequest.t m
  else None.

Definition created_record (r : NameCreateRequest.t) : NameRecord.t := default NameRecord.empty (NameCreateRequest.record r).

(** The key a request is about. *)
Definition request_key (r : NameRequest) : RecordKey :=
  match r with
  | RqCreate r => recordKey (created_record r)
  | RqUpdate r => (NameUpdateRequest.name r, value_or_empty (NameUpdateRequest.owner r), value_or_empty (NameUpdateRequest.type r))
  | RqDelete r => (NameDeleteRequest.name r, value_or_empty (NameDeleteRequest.owner r), value_or_empty (NameDeleteRequest.type r))
  | RqRefresh r => (NameRefreshRequest.name r, value_or_empty (NameRefreshRequest.owner r), value_or_empty (NameRefreshRequest.type r))
  | RqRead _ | RqQuery _ => ([], [], [])
  end.

(** What a request does to the map. *)
Definition spec_db (now : DateTime.t) (r : NameRequest) (db : Db) : Db :=
  let ttl := DateTime.add now kRecordTtlSeconds in
  match r with
  | RqCreate q =>
      match db !! request_key r with
      | Some _ => db
      | None => <[request_key r := (value_or_empty (NameRecord.value (created_record q)), ttl)]> db
      end
  | RqUpdate q => alter (fun e => (value_or_empty (NameUpdateRequest.new_value q), e.2)) (request_key r) db
  | RqDelete _ => delete (request_key r) db
  | RqRefresh _ => alter (fun e => (e.1, ttl)) (request_key r) db
  | RqRead _ | RqQuery _ => db
  end.

Definition found_status (db : Db) (r : NameRequest) : Enum :=
  match db !! request_key r with Some _ => NAME_SUCCESS | None => NAME_NOT_FOUND end.
Definition found_message (db : Db) (r : NameRequest) : option bytes :=
  match db !! request_key r with Some _ => None | None => no_record end.

(** The answers go to the sender, if there is one. *)
Definition answer {T} `{ServiceMessageType T} (m : RSPMessage.t) (reply : T) : list RSPMessage.t :=
  match senderNodeIdFromMessage m with
  | Some id => [packServiceMessage (to_destination (toProtoNodeId id)) reply]
  | None => []
  end.

(** An entry as a record of a reply. *)
Definition proto_of (e : Entry) : NameRecord.t :=
  let '(n, o, t, (v, x)) := e in NameRecord.mk n (Some o) (Some t) (Some v) (Some (DateTime.millisecondsSinceEpoch x)).

(** The entries a read or a query is about: the name or the prefix, the owner and the
    type if they are given, and an expiry that has not come. *)
Definition asked (wanted : option bytes) (actual : bytes) : Prop :=
  match wanted with Some w => actual = w | None => True end.

Definition read_entry (q : NameReadRequest.t) (now : DateTime.t) (e : Entry) : Prop :=
  let '(n, o, t, (_, x)) := e in
  n = NameReadRequest.name q /\ asked (NameReadRequest.owner q) o /\ asked (NameReadRequest.type q) t
  /\ DateTime.leb x now = false.

Definition query_entry (q : NameQueryRequest.t) (now : DateTime.t) (e : Entry) : Prop :=
  let '(n, o, t, (_, x)) := e in
  value_or_empty (NameQueryRequest.name_prefix q) `prefix_of` n
  /\ asked (NameQueryRequest.owner q) o /\ asked (NameQueryRequest.type q) t /\ DateTime.leb x now = false.

#[export] Instance asked_dec wanted actual : Decision (asked wanted actual).
Proof. destruct wanted; cbn; apply _. Defined.
#[export] Instance read_entry_dec q now e : Decision (read_entry q now e).
Proof. destruct e as [[[n o] t] [v x]]; cbn; apply _. Defined.
#[export] Instance query_entry_dec q now e : Decision (query_entry q now e).
Proof. destruct e as [[[n o] t] [v x]]; cbn; apply _. Defined.

(** The order of the records of a reply, the order of the keys, and [max_records]
    entries at most; 0 means all. *)
Definition lives_longer (e e' : Entry) : Prop :=
  DateTime.millisecondsSinceEpoch e'.2.2 <= DateTime.millisecondsSinceEpoch e.2.2.
Definition key_before (e e' : Entry) : Prop := Is_true (key_leb e.1 e'.1).
Definition up_to {X} (maximum : Z) (l : list X) : list X := if 0 <? maximum then take (Z.to_nat maximum) l else l.

(** The entries in the answer to a read: precisely the ones it is about, the longest
    lived first. *)
Definition read_answer (q : NameReadRequest.t) (now : DateTime.t) (db : Db) (es : list Entry) : Prop :=
  es ≡ₚ filter (read_entry q now) (map_to_list db) /\ Sorted lives_longer es.

(** The same for a query, of which only the first in the order of the keys are
    returned if there are more than [max_records]. *)
Definition query_answer (q : NameQueryRequest.t) (now : DateTime.t) (db : Db) (es : list Entry) : Prop :=
  (exists ordered, ordered ≡ₚ map_to_list db /\ Sorted key_before ordered
     /\ es ≡ₚ up_to (NameQueryRequest.max_records q) (filter (query_entry q now) ordered))
  /\ Sorted lives_longer es.

Definition read_status (es : list Entry) : Enum := match es with [] => NAME_NOT_FOUND | _ => NAME_SUCCESS end.

(** What is sent for a request, as a relation on the map: the order of entries that
    expire at the same time is left open. *)
Definition spec_out (db : Db) (now : DateTime.t) (r : NameRequest) (m : RSPMessage.t) (out : list RSPMessage.t) : Prop :=
  match r with
  | RqCreate _ =>
      out = answer m (match db !! request_key r with
                      | Some _ => NameCreateReply.mk NAME_DUPLICATE (Some (bs "record with (name, owner, type) already exists"))
                      | None => NameCreateReply.mk NAME_SUCCESS None
                      end)
  | RqUpdate _ => out = answer m (NameUpdateReply.mk (found_status db r) (found_message db r))
  | RqDelete _ => out = answer m (NameDeleteReply.mk (found_status db r) (found_message db r))
  | RqRefresh _ => out = answer m (NameRefreshReply.mk (found_status db r) (found_message db r))
  | RqRead q => exists es, read_answer q now db es /\ out = answer m (NameReadReply.mk (read_status es) (proto_of <$> es))
  | RqQuery q => exists es, query_answer q now db es /\ out = answer m (NameQueryReply.mk (proto_of <$> es))
  end.

(** The answer as the handlers compute it; [computed_answer] relates it to [spec_out]. *)
Definition computed_out (records : gmap RecordKey StoredRecord) (now : DateTime.t) (r : NameRequest) (m : RSPMessage.t)
    : list RSPMessage.t :=
  let db := view_of_records records in
  match r with
  | RqCreate _ =>
      answer m (match db !! request_key r with
                | Some _ => NameCreateReply.mk NAME_DUPLICATE (Some (bs "record with (name, owner, type) already exists"))
                | None => NameCreateReply.mk NAME_SUCCESS None
                end)
  | RqUpdate _ => answer m (NameUpdateReply.mk (found_status db r) (found_message db r))
  | RqDelete _ => answer m (NameDeleteReply.mk (found_status db r) (found_message db r))
  | RqRefresh _ => answer m (NameRefreshReply.mk (found_status db r) (found_message db r))
  | RqRead q => answer m (readRecords records q now)
  | RqQuery q => answer m (queryRecords records q now)
  end.

(** ** Lemmas *)

Lemma in_key_order_permutation m : records_in_order m ≡ₚ map_to_list m.
Proof. apply merge_sort_Permutation. Qed.

Lemma elem_of_in_key_order m k r : (k, r) ∈ records_in_order m <-> m !! k = Some r.
Proof. rewrite in_key_order_permutation. apply elem_of_map_to_list. Qed.

Lemma sameNameType_elem record l k : k ∈ sameNameType record l -> exists r, (k, r) ∈ l.
Proof.
  induction l as [|[k' r] l IH]; [by intros ?%elem_of_nil|]. cbn [sameNameType]. destruct (_ && _).
  - intros [->|Hk]%elem_of_cons; [exists r; by left|]. destruct (IH Hk) as [r' Hr]. exists r'. by right.
  - intros Hk. destruct (IH Hk) as [r' Hr]. exists r'. by right.
Qed.

(** [records_.at(oldKey)] finds its record. *)
Lemma createRecord_ok m record now :
  match m !! recordKey record with
  | Some _ => exists reply, createRecord m record now = Ok (reply, None, m)
  | None => exists item, createRecord m record now = Ok (NameCreateReply.mk NAME_SUCCESS None, item,
        <[recordKey record := mkStored (NameRecord.name record) (value_or_empty (NameRecord.owner record))
             (value_or_empty (NameRecord.type record)) (value_or_empty (NameRecord.value record))
             (DateTime.add now kRecordTtlSeconds)]> m)
      /\ (forall i, item = Some i -> exists old, m !! oldRecordKey i = Some old /\ ownerBytes old = oldOwnerBytes i)
  end.
Proof.
  unfold createRecord. destruct (m !! recordKey record); [by eexists|].
  pose proof (sameNameType_elem record (records_in_order m)) as He.
  destruct (sameNameType record (records_in_order m)) as [|k [|? ?]]; cbn [mbind res_bind]; try (eexists; split; [done|]; by intros ? [=]).
  destruct (He k) as [r Hr]; [by left|]. apply elem_of_in_key_order in Hr. rewrite Hr. cbn [mbind res_bind].
  eexists; split; [done|]. intros i [= <-]. eauto.
Qed.

Lemma view_lookup m k : view_of_records m !! k = (fun r => (valueBytes r, expiresAt r)) <$> m !! k.
Proof. apply lookup_fmap. Qed.

Lemma respond_answer {T} `{ServiceMessageType T} m (x : T) : (respond m x).2 = answer m x.
Proof. unfold respond, answer. by destruct (senderNodeIdFromMessage m). Qed.

Definition keys_ok (m : gmap RecordKey StoredRecord) : Prop :=
  map_Forall (fun k r => (stored_name r, ownerBytes r, typeBytes r) = k) m.

(** Rewriting the value and the expiry of a record. *)
Lemma rewrite_record m k r v x :
  m !! k = Some r ->
  let m' := <[k := mkStored (stored_name r) (ownerBytes r) (typeBytes r) v x]> m in
  view_of_records m' = <[k := (v, x)]> (view_of_records m) /\ (keys_ok m -> keys_ok m').
Proof.
  intros Hk m'. split; [unfold m', view_of_records; by rewrite fmap_insert|].
  intros K. apply map_Forall_insert_2; [|done]. exact (K k r Hk).
Qed.

(** The three operations on an existing record have the same shape. *)
Lemma alter_view m k r (f : bytes * DateTime.t -> bytes * DateTime.t) v x :
  m !! k = Some r -> f (valueBytes r, expiresAt r) = (v, x) ->
  <[k := (v, x)]> (view_of_records m) = alter f k (view_of_records m).
Proof.
  intros Hk Hf. apply map_eq. intros j. destruct (decide (k = j)) as [<-|Hj].
  - by rewrite lookup_insert_eq, lookup_alter_eq, view_lookup, Hk, <- Hf.
  - by rewrite lookup_insert_ne, lookup_alter_ne.
Qed.

Lemma alter_absent m k (f : bytes * DateTime.t -> bytes * DateTime.t) :
  m !! k = None -> alter f k (view_of_records m) = view_of_records m.
Proof. intros Hk. apply alter_id. intros e. by rewrite view_lookup, Hk. Qed.

Lemma updateRecord_spec m q now :
  updateRecord m q = (NameUpdateReply.mk (found_status (view_of_records m) (RqUpdate q)) (found_message (view_of_records m) (RqUpdate q)),
                      (updateRecord m q).2)
  /\ view_of_records (updateRecord m q).2 = spec_db now (RqUpdate q) (view_of_records m)
  /\ (keys_ok m -> keys_ok (updateRecord m q).2).
Proof.
  unfold updateRecord, found_status, found_message, spec_db, makeKey. cbn [request_key]. rewrite view_lookup.
  destruct (m !! _) as [r|] eqn:Hk; cbn [fmap option_fmap option_map snd].
  - split; [done|]. destruct (rewrite_record m _ r (value_or_empty (NameUpdateRequest.new_value q)) (expiresAt r) Hk) as [-> Hi].
    split; [|exact Hi]. by apply (alter_view m _ r).
  - split; [done|]. split; [|done]. by rewrite alter_absent.
Qed.

Lemma refreshRecord_spec m q now :
  refreshRecord m q now = (NameRefreshReply.mk (found_status (view_of_records m) (RqRefresh q)) (found_message (view_of_records m) (RqRefresh q)),
                           (refreshRecord m q now).2)
  /\ view_of_records (refreshRecord m q now).2 = spec_db now (RqRefresh q) (view_of_records m)
  /\ (keys_ok m -> keys_ok (refreshRecord m q now).2).
Proof.
  unfold refreshRecord, found_status, found_message, spec_db, makeKey. cbn [request_key]. rewrite view_lookup.
  destruct (m !! _) as [r|] eqn:Hk; cbn [fmap option_fmap option_map snd].
  - split; [done|]. destruct (rewrite_record m _ r (valueBytes r) (DateTime.add now kRecordTtlSeconds) Hk) as [-> Hi].
    split; [|exact Hi]. by apply (alter_view m _ r).
  - split; [done|]. split; [|done]. by rewrite alter_absent.
Qed.

Lemma deleteRecord_spec m q now :
  deleteRecord m q = (NameDeleteReply.mk (found_status (view_of_records m) (RqDelete q)) (found_message (view_of_records m) (RqDelete q)),
                      (deleteRecord m q).2)
  /\ view_of_records (deleteRecord m q).2 = spec_db now (RqDelete q) (view_of_records m)
  /\ (keys_ok m -> keys_ok (deleteRecord m q).2).
Proof.
  unfold deleteRecord, found_status, found_message, spec_db, makeKey. cbn [request_key]. rewrite view_lookup.
  destruct (m !! _) as [r|] eqn:Hk; cbn [fmap option_fmap option_map snd].
  - split; [done|]. split; [by unfold view_of_records; rewrite fmap_delete|]. intros K. by apply map_Forall_delete.
  - split; [done|]. split; [|done]. rewrite delete_id; [done|]. by rewrite view_lookup, Hk.
Qed.

(** Handling a request, all cases. *)
Definition refines (now : DateTime.t) (s : NameService) (m : RSPMessage.t) (r : NameRequest)
    (result : Res (bool * list RSPMessage.t * NameService)) : Prop :=
  exists consumed s', result = Ok (consumed, computed_out (records_ s) now r m, s')
    /\ view_of_records (records_ s') = spec_db now r (view_of_records (records_ s))
    /\ (names_inv s -> names_inv s').

Lemma set_records_inv s m : (keys_ok (records_ s) -> keys_ok m) -> names_inv s -> names_inv (set_records s m).
Proof. intros K [I1 I2 I3]. split; [by apply K|done|done]. Qed.

Lemma respond_split {T} `{ServiceMessageType T} m (x : T) (s : NameService) :
  Ok (respond m x, s) = Ok ((respond m x).1, answer m x, s).
Proof. rewrite <- respond_answer. by destruct (respond m x). Qed.

Lemma create_refines now s m q :
  unpackServiceMessage NameCreateRequest.t m = Some q -> refines now s m (RqCreate q) (handleCreateRequest s now m).
Proof.
  intros Hu. unfold refines, handleCreateRequest, computed_out, spec_db, answer. rewrite Hu. cbn [request_key]. rewrite view_lookup.
  pose proof (createRecord_ok (records_ s) (created_record q) now) as Hc. unfold created_record in *.
  set (record := default NameRecord.empty (NameCreateRequest.record q)) in *.
  destruct (records_ s !! recordKey record) as [old|] eqn:Hk; cbn [fmap option_fmap option_map].
  - assert (Hc' : createRecord (records_ s) record now
      = Ok (NameCreateReply.mk NAME_DUPLICATE (Some (bs "record with (name, owner, type) already exists")), None, records_ s))
      by (unfold createRecord; by rewrite Hk).
    rewrite Hc'. cbn [mbind res_bind]. unfold respond. destruct (senderNodeIdFromMessage m); do 2 eexists; (split; [done|]); (split; [done|]);
      intros [I1 I2 I3]; split; cbn; rewrite ?app_nil_r; done.
  - destruct Hc as (item & -> & Hi). cbn [mbind res_bind]. unfold respond.
    set (stored := mkStored _ _ _ _ _).
    assert (K : names_inv s -> keys_ok (<[recordKey record := stored]> (records_ s))).
    { intros [I1 _ _]. by apply map_Forall_insert_2. }
    destruct (senderNodeIdFromMessage m); do 2 eexists; (split; [done|]); (split; [unfold view_of_records; cbn; by rewrite fmap_insert|]);
      intros I; pose proof (K I) as HK; destruct I as [I1 I2 I3]; split; cbn; try done.
    apply Forall_app. split; [done|]. destruct item as [i|]; [|constructor]. constructor; [|constructor].
    destruct (Hi i eq_refl) as (old & Ho & Hb). unfold item_ok. by rewrite <- (I1 _ _ Ho).
Qed.

Lemma handler_refines now s m :
  match request_of m with
  | None => names_handleNodeSpecificMessage now s m = Ok (false, [], s)
  | Some r => refines now s m r (names_handleNodeSpecificMessage now s m)
  end.
Proof.
  unfold request_of, names_handleNodeSpecificMessage.
  destruct (hasServiceMessage NameCreateRequest.t m).
  { destruct (unpackServiceMessage NameCreateRequest.t m) as [q|] eqn:Hu; cbn; [by apply create_refines|].
    unfold handleCreateRequest. by rewrite Hu. }
  destruct (hasServiceMessage NameReadRequest.t m).
  { unfold handleReadRequest. destruct (unpackServiceMessage NameReadRequest.t m) as [q|]; cbn; [|done].
    eexists _, s. split; [apply respond_split|]. by split. }
  destruct (hasServiceMessage NameUpdateRequest.t m).
  { unfold handleUpdateRequest. destruct (unpackServiceMessage NameUpdateRequest.t m) as [q|]; cbn; [|done].
    destruct (updateRecord_spec (records_ s) q now) as (E & V & K). rewrite E. eexists _, _. split; [apply respond_split|].
    split; [exact V|]. by apply set_records_inv. }
  destruct (hasServiceMessage NameDeleteRequest.t m).
  { unfold handleDeleteRequest. destruct (unpackServiceMessage NameDeleteRequest.t m) as [q|]; cbn; [|done].
    destruct (deleteRecord_spec (records_ s) q now) as (E & V & K). rewrite E. eexists _, _. split; [apply respond_split|].
    split; [exact V|]. by apply set_records_inv. }
  destruct (hasServiceMessage NameQueryRequest.t m).
  { unfold handleQueryRequest. destruct (unpackServiceMessage NameQueryRequest.t m) as [q|]; cbn; [|done].
    eexists _, s. split; [apply respond_split|]. by split. }
  destruct (hasServiceMessage NameRefreshRequest.t m); [|done].
  unfold handleRefreshRequest. destruct (unpackServiceMessage NameRefreshRequest.t m) as [q|]; cbn; [|done].
  destruct (refreshRecord_spec (records_ s) q now) as (E & V & K). rewrite E. eexists _, _. split; [apply respond_split|].
  split; [exact V|]. by apply set_records_inv.
Qed.

Lemma names_step_inv s s' : names_step s s' -> names_inv s -> names_inv s'.
Proof.
  intros Hstep I. destruct Hstep as [now m b out s' Hh|now|s' Ht|fresh null ping s' Hf].
  - pose proof (handler_refines now s m) as Hr. destruct (request_of m) as [r|].
    + destruct Hr as (b' & s1 & E & _ & K). rewrite Hh in E. injection E as _ _ <-. by apply K.
    + rewrite Hh in Hr. by injection Hr as _ _ ->.
  - apply set_records_inv; [|done]. intros K k r Hk. apply map_lookup_filter_Some in Hk as [Hk _]. by apply K.
  - unfold ping_take in Ht. destruct I as [I1 I2 I3]. destruct (checking s); [done|].
    destruct (pingCheckQueue_ s) as [|item q]; [done|]. injection Ht as <-. apply Forall_cons in I2 as [H1 H2].
    split; try done. by intros ? [= <-].
  - unfold ping_finish in Hf. destruct I as [I1 I2 I3]. destruct (checking s) as [item|]; [|done]. injection Hf as <-.
    split; cbn; try done. destruct (_ && _); [done|]. destruct (records_ s !! oldRecordKey item) as [r|] eqn:Hr; [|done].
    by apply (rewrite_record (records_ s) _ r).
Qed.

(** The loops compute filters. *)
Definition read_wanted (request : NameReadRequest.t) (now : DateTime.t) (r : StoredRecord) : bool :=
  bool_decide (stored_name r = NameReadRequest.name request) && negb (other (NameReadRequest.owner request) (ownerBytes r))
  && negb (other (NameReadRequest.type request) (typeBytes r)) && negb (DateTime.leb (expiresAt r) now).

Definition query_wanted (request : NameQueryRequest.t) (now : DateTime.t) (r : StoredRecord) : bool :=
  negb (lacksPrefix request (stored_name r)) && negb (other (NameQueryRequest.owner request) (ownerBytes r))
  && negb (other (NameQueryRequest.type request) (typeBytes r)) && negb (DateTime.leb (expiresAt r) now).

Lemma readLoop_filter request now l records :
  readLoop request now l records = records ++ (toProto <$> List.filter (read_wanted request now) l.*2).
Proof.
  revert records. induction l as [|[k r] l IH]; intros records; cbn [readLoop fmap list_fmap List.filter]; [by rewrite app_nil_r|].
  cbn [snd]. unfold read_wanted at 1. case_bool_decide; cbn [negb andb]; [|by rewrite IH].
  destruct (other _ _); cbn [negb andb]; [by rewrite IH|]. destruct (other _ _); cbn [negb andb]; [by rewrite IH|].
  destruct (DateTime.leb _ _); cbn [negb]; [by rewrite IH|]. rewrite IH, <- app_assoc. done.
Qed.

Lemma up_to_enough maximum (l more : list NameRecord.t) : enough maximum l = true -> up_to maximum (l ++ more) = up_to maximum l.
Proof.
  unfold enough, up_to. rewrite andb_true_iff, Z.ltb_lt, Z.leb_le. intros [H1 H2].
  destruct (Z.ltb_spec 0 maximum); [|lia]. apply take_app_le. lia.
Qed.

Lemma up_to_short maximum (l : list NameRecord.t) x : enough maximum l = false -> up_to maximum (l ++ [x]) = l ++ [x].
Proof.
  unfold enough, up_to. intros He. destruct (Z.ltb_spec 0 maximum); [|done]. cbn in He. apply Z.leb_gt in He.
  apply take_ge. rewrite length_app. cbn. lia.
Qed.

Lemma queryLoop_filter request now l records :
  enough (NameQueryRequest.max_records request) records = false ->
  queryLoop request now l records =
  up_to (NameQueryRequest.max_records request) (records ++ (toProto <$> List.filter (query_wanted request now) l.*2)).
Proof.
  revert records. induction l as [|[k r] l IH]; intros records He; cbn [queryLoop fmap list_fmap List.filter].
  { rewrite app_nil_r. unfold up_to. unfold enough in He. destruct (Z.ltb_spec 0 (NameQueryRequest.max_records request)); [|done].
    cbn in He. apply Z.leb_gt in He. rewrite take_ge; [done|lia]. }
  cbn [snd]. unfold query_wanted at 1. destruct (lacksPrefix _ _); cbn [negb andb]; [by rewrite IH|].
  destruct (other _ _); cbn [negb andb]; [by rewrite IH|]. destruct (other _ _); cbn [negb andb]; [by rewrite IH|].
  destruct (DateTime.leb _ _); cbn [negb]; [by rewrite IH|]. cbn [fmap list_fmap].
  set (rest := toProto <$> _). replace (records ++ toProto r :: rest) with ((records ++ [toProto r]) ++ rest) by (by rewrite <- app_assoc).
  destruct (enough _ (records ++ [toProto r])) eqn:He'; [|by rewrite IH].
  rewrite up_to_enough by done. by rewrite up_to_short.
Qed.

(** The map iterates in the order of its keys. *)
Lemma bytes_ltb_connex a b : a <> b -> bytes_ltb a b = true \/ bytes_ltb b a = true.
Proof.
  unfold bytes_ltb. intros Hne. destruct (bytes_leb a b) eqn:H1, (bytes_leb b a) eqn:H2; auto.
  exfalso. by apply Hne, bytes_leb_antisym.
Qed.

#[local] Instance key_le_total : Total key_le.
Proof.
  intros [[[n1 o1] t1] r1] [[[n2 o2] t2] r2]. unfold key_le, key_leb. cbn [fst].
  destruct (decide (n1 = n2)) as [<-|Hn]; [|destruct (bytes_ltb_connex n1 n2 Hn) as [->| ->]; auto].
  rewrite !(bool_decide_eq_true_2 (n1 = n1)) by done.
  destruct (decide (o1 = o2)) as [<-|Ho]; [|destruct (bytes_ltb_connex o1 o2 Ho) as [->| ->]; rewrite ?orb_true_r; auto].
  rewrite !(bool_decide_eq_true_2 (o1 = o1)) by done.
  destruct (bytes_leb_total t1 t2) as [->| ->]; rewrite ?orb_true_r; auto.
Qed.

Lemma in_key_order_sorted m : Sorted key_le (records_in_order m).
Proof. apply (Sorted_merge_sort key_le). Qed.

Lemma permutation_filter {X} (f : X -> bool) l k : l ≡ₚ k -> List.filter f l ≡ₚ List.filter f k.
Proof.
  induction 1 as [|x l k Hp IH|x y l|]; cbn; [done| | |by etrans].
  - destruct (f x); [by constructor|done].
  - destruct (f x), (f y); try done. by constructor.
Qed.

(** ** The replies in terms of the specification *)

(** The entries of the map in the order of the keys. *)
Definition entries_in_order (m : gmap RecordKey StoredRecord) : list Entry :=
  (fun e => (e.1, (valueBytes e.2, expiresAt e.2))) <$> records_in_order m.

Lemma entries_permutation m : entries_in_order m ≡ₚ map_to_list (view_of_records m).
Proof.
  unfold entries_in_order, view_of_records. rewrite map_to_list_fmap, in_key_order_permutation. reflexivity.
Qed.

Lemma entries_sorted m : Sorted key_before (entries_in_order m).
Proof. by apply (Sorted_fmap _ key_le), in_key_order_sorted. Qed.

(** A filter over the records is a filter over the entries. *)
Lemma filter_entries m (want : StoredRecord -> bool) (P : Entry -> Prop) `{!forall e, Decision (P e)} :
  keys_ok m ->
  (forall r, want r = bool_decide (P (stored_name r, ownerBytes r, typeBytes r, (valueBytes r, expiresAt r)))) ->
  toProto <$> List.filter want (records_in_order m).*2 = proto_of <$> filter P (entries_in_order m).
Proof.
  intros K Hw. unfold entries_in_order.
  assert (Hk : Forall (fun e => (stored_name e.2, ownerBytes e.2, typeBytes e.2) = e.1) (records_in_order m)).
  { apply Forall_forall. intros [k r] Hin. apply K. by apply elem_of_in_key_order. }
  induction Hk as [|[k r] l He Hk IH]; [done|]. cbn [fst snd] in He. subst k. cbn [fmap list_fmap List.filter fst snd].
  rewrite Hw, filter_cons. destruct (decide _) as [Hd|Hd]; [rewrite bool_decide_true by done|by rewrite bool_decide_false].
  cbn [fmap list_fmap]. f_equal. exact IH.
Qed.

Lemma other_asked wanted actual : negb (other wanted actual) = bool_decide (asked wanted actual).
Proof. destruct wanted; cbn [asked other]; [apply negb_involutive|by symmetry; apply bool_decide_true]. Qed.

Lemma lacksPrefix_spec q name :
  negb (lacksPrefix q name) = bool_decide (value_or_empty (NameQueryRequest.name_prefix q) `prefix_of` name).
Proof.
  unfold lacksPrefix. destruct (NameQueryRequest.name_prefix q) as [[|b p]|]; cbn [value_or_empty default];
    rewrite ?negb_involutive; try done; symmetry; apply bool_decide_true, prefix_nil.
Qed.

Lemma read_wanted_spec q now r :
  read_wanted q now r = bool_decide (read_entry q now (stored_name r, ownerBytes r, typeBytes r, (valueBytes r, expiresAt r))).
Proof.
  unfold read_wanted, read_entry. rewrite !other_asked. apply eq_bool_prop_intro.
  rewrite !andb_True, !bool_decide_spec, negb_True. destruct (DateTime.leb _ _); cbn; intuition congruence.
Qed.

Lemma query_wanted_spec q now r :
  query_wanted q now r = bool_decide (query_entry q now (stored_name r, ownerBytes r, typeBytes r, (valueBytes r, expiresAt r))).
Proof.
  unfold query_wanted, query_entry. rewrite !other_asked, lacksPrefix_spec. apply eq_bool_prop_intro.
  rewrite !andb_True, !bool_decide_spec, negb_True. destruct (DateTime.leb _ _); cbn; intuition congruence.
Qed.

Lemma later_first_proto e e' : later_first (proto_of e) (proto_of e') <-> lives_longer e e'.
Proof. by destruct e as [[[??]?][??]], e' as [[[??]?][??]]. Qed.

Lemma sorted_proto_inv es : Sorted later_first (proto_of <$> es) -> Sorted lives_longer es.
Proof.
  induction es as [|e es IH]; [constructor|]. cbn. intros [Hs Hd]%Sorted_inv. constructor; [by apply IH|].
  destruct es; constructor. apply HdRel_inv in Hd. by apply later_first_proto.
Qed.

Lemma up_to_fmap {X Y} (f : X -> Y) maximum l : up_to maximum (f <$> l) = f <$> up_to maximum l.
Proof. unfold up_to. case_match; [by rewrite fmap_take|done]. Qed.

Context `{SL : !StdSortLaws Sort}.

(** The sort arranges the records of some entries. *)
Lemma sorted_entries l : exists es, sortByExpiresAtDescending (proto_of <$> l) = proto_of <$> es /\ es ≡ₚ l /\ Sorted lives_longer es.
Proof.
  pose proof (sort_permutes (proto_of <$> l)) as Hp. pose proof (sort_sorts (proto_of <$> l)) as Hs.
  destruct (Permutation_map_inv proto_of l Hp) as (es & He & Hes). exists es. rewrite He in Hs |- *. split; [done|].
  split; [done|]. by apply sorted_proto_inv.
Qed.

(** Look-ups are exact: a read or a query answers with the entries the specification
    names, and a read says NOT_FOUND precisely when there is none. *)
Theorem name_lookup_exact s now read query :
  names_inv s ->
  let db := view_of_records (records_ s) in
  (exists es, read_answer read now db es
     /\ readRecords (records_ s) read now = NameReadReply.mk (read_status es) (proto_of <$> es))
  /\ (exists es, query_answer query now db es
     /\ queryRecords (records_ s) query now = NameQueryReply.mk (proto_of <$> es)).
Proof.
  intros [K _ _] db. split.
  - unfold readRecords. rewrite readLoop_filter, (filter_entries _ _ _ K (read_wanted_spec read now)). cbn [app].
    set (l := filter _ (entries_in_order _)). destruct (sorted_entries l) as (es & -> & Hp & Hs). exists es. split.
    + split; [|done]. rewrite Hp. unfold l. by rewrite entries_permutation.
    + f_equal. by destruct l, es; cbn; try done; apply Permutation_length in Hp.
  - unfold queryRecords. rewrite queryLoop_filter, (filter_entries _ _ _ K (query_wanted_spec query now)).
    2: { unfold enough. apply andb_false_iff. destruct (Z.ltb_spec 0 (NameQueryRequest.max_records query)); [right|by left].
         apply Z.leb_gt. cbn. lia. }
    cbn [app]. rewrite up_to_fmap. destruct (sorted_entries (up_to (NameQueryRequest.max_records query)
      (filter (query_entry query now) (entries_in_order (records_ s))))) as (es & -> & Hp & Hs).
    exists es. split; [|done]. split; [|done]. eauto using entries_permutation, entries_sorted.
Qed.

Lemma computed_answer s now r m : names_inv s -> spec_out (view_of_records (records_ s)) now r m (computed_out (records_ s) now r m).
Proof.
  intros I. destruct r as [q|q|q|q|q|q]; try done; cbn.
  - destruct (name_lookup_exact s now q (NameQueryRequest.mk None None None 0) I) as [(es & He & ->) _]. eauto.
  - destruct (name_lookup_exact s now (NameReadRequest.mk [] None None) q I) as [_ (es & He & ->)]. eauto.
Qed.

Lemma reachable_inv s : rtc names_step initial_names s -> names_inv s.
Proof.
  intros Hr. assert (I : names_inv initial_names) by (split; [apply map_Forall_empty|constructor|done]).
  revert I. induction Hr as [|a b c Hab Hbc IH]; [done|]. intros I. apply IH. by eapply names_step_inv.
Qed.

(** ** Properties *)

(** C17.  The name service implements a map.  In every state reached from the
    empty database by requests, sweeps and ping checks in any order, a request
    is handled without exception; it changes the database as the specification
    [spec_db] says for its key (a creation that finds the key occupied, and an
    update, a deletion or a refresh that does not find it, change nothing), and
    the answer, sent to the sender of the request, says which it was.  The answer
    to a read holds precisely the unexpired entries of the name, with the owner and
    type that are asked for, the longest lived first, or NOT_FOUND if there is none;
    the answer to a query holds in the same order the unexpired entries with the
    prefix, owner and type that are asked for, of more than [max_records] the first in
    the order of the keys.  Records stay filed under their own name, owner and type,
    and ping checks stay addressed to the owner of the record they may expire. *)
Theorem name_service_refines_map s now m :
  rtc names_step initial_names s ->
  names_inv s
  /\ exists consumed out s', names_handleNodeSpecificMessage now s m = Ok (consumed, out, s')
    /\ match request_of m with
       | None => consumed = false /\ out = [] /\ s' = s
       | Some r => spec_out (view_of_records (records_ s)) now r m out
                   /\ view_of_records (records_ s') = spec_db now r (view_of_records (records_ s))
       end.
Proof.
  intros I%reachable_inv. split; [done|]. pose proof (handler_refines now s m) as Hh. destruct (request_of m) as [r|].
  - destruct Hh as (b & s' & -> & V & _). eexists _, _, _. split; [done|]. split; [by apply computed_answer|done].
  - rewrite Hh. by eexists _, _, _.
Qed.

(** Finding.  Ownership is not enforced: what a request does to the
    database does not depend on who sent it.  Two messages that differ only in
    their sender (both identified) lead to the same state, so any node the
    message rules let through can update, delete or refresh another node's
    records and create records in its name. *)
Theorem name_requests_ignore_sender s now m m' id id' :
  RSPMessage.service_message m = RSPMessage.service_message m' ->
  senderNodeIdFromMessage m = Some id -> senderNodeIdFromMessage m' = Some id' ->
  exists b out b' out' s', names_handleNodeSpecificMessage now s m = Ok (b, out, s')
    /\ names_handleNodeSpecificMessage now s m' = Ok (b', out', s').
Proof.
  intros Hs Hi Hi'. pose proof (handler_refines now s m) as H1. pose proof (handler_refines now s m') as H2.
  assert (Hsame : forall b out s1 b' out' s2, names_handleNodeSpecificMessage now s m = Ok (b, out, s1) ->
    names_handleNodeSpecificMessage now s m' = Ok (b', out', s2) -> s1 = s2).
  { unfold names_handleNodeSpecificMessage, handleCreateRequest, handleReadRequest, handleUpdateRequest, handleDeleteRequest,
      handleQueryRequest, handleRefreshRequest, hasServiceMessage, unpackServiceMessage, respond. rewrite Hs, Hi, Hi'.
    intros b out s1 b' out' s2 E1 E2. revert E1 E2.
    repeat (case_match; simplify_eq/=; try congruence); try congruence.
    all: destruct (createRecord _ _ _) as [[[? ?] ?]| | |]; cbn; congruence. }
  destruct (request_of m) as [r|]; [destruct H1 as (b & s1 & E1 & _)|rename H1 into E1];
    (destruct (request_of m') as [r'|]; [destruct H2 as (b' & s2 & E2 & _)|rename H2 into E2]);
    rewrite E1, E2 in *; pose proof (Hsame _ _ _ _ _ _ eq_refl eq_refl); subst; eauto 10.
Qed.

(** Finding.  A name that has expired cannot be taken until it is swept:
    for a record whose time is over, reading its name, owner and type answers
    NOT_FOUND, while creating it answers DUPLICATE and changes nothing. *)
Theorem expired_name_blocks_creation s now record old :
  names_inv s -> records_ s !! recordKey record = Some old -> DateTime.leb (expiresAt old) now = true ->
  NameReadReply.status (readRecords (records_ s)
    (NameReadRequest.mk (NameRecord.name record) (Some (value_or_empty (NameRecord.owner record)))
       (Some (value_or_empty (NameRecord.type record)))) now) = NAME_NOT_FOUND
  /\ exists text, createRecord (records_ s) record now = Ok (NameCreateReply.mk NAME_DUPLICATE text, None, records_ s).
Proof.
  intros [K _ _] Ho Hexp. split; [|unfold createRecord; rewrite Ho; by eexists].
  unfold readRecords. rewrite readLoop_filter. cbn [app NameReadReply.status].
  assert (Hnone : List.filter (read_wanted (NameReadRequest.mk (NameRecord.name record) (Some (value_or_empty (NameRecord.owner record)))
       (Some (value_or_empty (NameRecord.type record)))) now) (records_in_order (records_ s)).*2 = []); [|by rewrite Hnone].
  destruct (List.filter _ _) as [|r l] eqn:Hf; [done|]. exfalso.
  assert (Hin : In r (r :: l)) by (by left). rewrite <- Hf in Hin. apply List.filter_In in Hin as [Hin Hw].
  apply list_elem_of_In, list_elem_of_fmap in Hin as ([k r'] & -> & Hin). apply elem_of_in_key_order in Hin. cbn [snd] in *.
  revert Hw. unfold read_wanted, other. cbn.
  rewrite !andb_true_iff, !negb_true_iff, !negb_false_iff, !bool_decide_eq_true. intros [[[H1 H2] H3] H4].
  pose proof (K k r' Hin) as Hk. cbn in Hk. rewrite H1, H2, H3 in Hk. change (recordKey record = k) in Hk. subst k.
  rewrite Ho in Hin. injection Hin as <-. congruence.
Qed.
End NameService.

(** ** Witnesses *)
#[local] Existing Instance x86_math.

(** A sort that satisfies the laws. *)
#[local] Instance later_first_dec a b : Decision (later_first a b) := decide (_ <= _).
#[local] Instance later_first_total : Total later_first.
Proof. intros a b. unfold later_first. lia. Qed.

#[local] Instance merge_sort_by_expiry : StdSort := {| sortByExpiresAtDescending := merge_sort later_first |}.
#[local] Instance merge_sort_by_expiry_laws : StdSortLaws merge_sort_by_expiry.
Proof. split; intros l; [apply merge_sort_Permutation|apply (Sorted_merge_sort later_first)]. Qed.

Definition ns_record : NameRecord.t :=
  NameRecord.mk (bs "printer") (Some (bs "0123456789abcdef")) (Some (bs "t")) (Some (bs "v")) None.

(** The codec of one message type: every payload parses to [x]. *)
Definition constant_type {T} (name : string) (x : T) : ServiceMessageType T :=
  {| full_name := name; serialize_message := fun _ => []; parse_message := fun _ => Some x |}.

#[local] Instance ns_messages : NameMessages := {|
  nm_create := constant_type "rsp.proto.NameCreateRequest" (NameCreateRequest.mk (Some ns_record));
  nm_create_reply := constant_type "rsp.proto.NameCreateReply" (NameCreateReply.mk 0 None);
  nm_read := constant_type "rsp.proto.NameReadRequest" (NameReadRequest.mk (bs "printer") None None);
  nm_read_reply := constant_type "rsp.proto.NameReadReply" (NameReadReply.mk 0 []);
  nm_update := constant_type "rsp.proto.NameUpdateRequest" (NameUpdateRequest.mk (bs "printer") None None None);
  nm_update_reply := constant_type "rsp.proto.NameUpdateReply" (NameUpdateReply.mk 0 None);
  nm_delete := constant_type "rsp.proto.NameDeleteRequest"
    (NameDeleteRequest.mk (bs "printer") (Some (bs "0123456789abcdef")) (Some (bs "t")));
  nm_delete_reply := constant_type "rsp.proto.NameDeleteReply" (NameDeleteReply.mk 0 None);
  nm_query := constant_type "rsp.proto.NameQueryRequest" (NameQueryRequest.mk None None None 1);
  nm_query_reply := constant_type "rsp.proto.NameQueryReply" (NameQueryReply.mk []);
  nm_refresh := constant_type "rsp.proto.NameRefreshRequest" (NameRefreshRequest.mk (bs "printer") None None);
  nm_refresh_reply := constant_type "rsp.proto.NameRefreshReply" (NameRefreshReply.mk 0 None) |}.

Definition ns_now : DateTime.t := DateTime.fromMillisecondsSinceEpoch 1700000000000.
Definition ns_from (id : NodeID) (any : AnyMsg.t) : RSPMessage.t :=
  RSPMessage.set_source (set_service RSPMessage.empty (Some any)) (Some (toProtoNodeId id)).
Definition ns_create : AnyMsg.t := AnyMsg.mk (bs "type.rsp/rsp.proto.NameCreateRequest") [].
Definition ns_delete : AnyMsg.t := AnyMsg.mk (bs "type.rsp/rsp.proto.NameDeleteRequest") [].

(** The database with the one record. *)
Definition ns_state : NameService :=
  mkNames {[ recordKey ns_record := mkStored (bs "printer") (bs "0123456789abcdef") (bs "t") (bs "v")
               (DateTime.add ns_now kRecordTtlSeconds) ]} [] None.

Lemma ns_reachable : rtc (names_step (fun _ => true)) initial_names ns_state.
Proof.
  eapply rtc_l; [|reflexivity]. eapply (step_request _ _ ns_now (ns_from (mkGUID 1 2) ns_create)). vm_compute. reflexivity.
Qed.

(** Reading the name of the one record. *)
Definition ns_read : AnyMsg.t := AnyMsg.mk (bs "type.rsp/rsp.proto.NameReadRequest") [].

Lemma name_service_refines_map_witness :
  exists s', names_handleNodeSpecificMessage (fun _ => true) ns_now ns_state (ns_from (mkGUID 1 2) ns_read) =
      Ok (true, [packServiceMessage (to_destination (toProtoNodeId (mkGUID 1 2))) (NameReadReply.mk NAME_SUCCESS
            [NameRecord.mk (bs "printer") (Some (bs "0123456789abcdef")) (Some (bs "t")) (Some (bs "v")) (Some 1700000300000)])], s')
    /\ view_of_records (records_ s') = view_of_records (records_ ns_state).
Proof.
  destruct (name_service_refines_map (fun _ => true) ns_state ns_now (ns_from (mkGUID 1 2) ns_read) ns_reachable)
    as [_ (b & out & s' & Hh & Ho & Hv)].
  exists s'. split; [|exact Hv]. vm_compute in Hh. injection Hh as <- <- <-. vm_compute. reflexivity.
Defined.

Lemma ns_state_inv : names_inv ns_state.
Proof. split; [|constructor|done]. by apply map_Forall_singleton. Qed.

Lemma name_lookup_exact_witness :
  readRecords (records_ ns_state) (NameReadRequest.mk (bs "printer") None None) ns_now
  = NameReadReply.mk NAME_SUCCESS
      [NameRecord.mk (bs "printer") (Some (bs "0123456789abcdef")) (Some (bs "t")) (Some (bs "v")) (Some 1700000300000)].
Proof.
  destruct (name_lookup_exact ns_state ns_now (NameReadRequest.mk (bs "printer") None None)
    (NameQueryRequest.mk None None None 1) ns_state_inv) as [(es & [Hp _] & ->) _].
  vm_compute in Hp. apply Permutation_singleton_r in Hp as ->. vm_compute. reflexivity.
Defined.

Lemma name_requests_ignore_sender_witness :
  exists b out b' out' s',
    names_handleNodeSpecificMessage (fun _ => true) ns_now ns_state (ns_from (mkGUID 1 2) ns_delete) = Ok (b, out, s')
    /\ names_handleNodeSpecificMessage (fun _ => true) ns_now ns_state (ns_from (mkGUID 3 4) ns_delete) = Ok (b', out', s').
Proof.
  apply (name_requests_ignore_sender (fun _ => true) ns_state ns_now (ns_from (mkGUID 1 2) ns_delete)
    (ns_from (mkGUID 3 4) ns_delete) (mkGUID 1 2) (mkGUID 3 4)); vm_compute; reflexivity.
Defined.

Lemma expired_name_blocks_creation_witness :
  exists text, createRecord (records_ ns_state) ns_record (DateTime.fromMillisecondsSinceEpoch 1700000400000)
    = Ok (NameCreateReply.mk NAME_DUPLICATE text, None, records_ ns_state).
Proof.
  eapply (expired_name_blocks_creation ns_state (DateTime.fromMillisecondsSinceEpoch 1700000400000) ns_record
    (mkStored (bs "printer") (bs "0123456789abcdef") (bs "t") (bs "v") (DateTime.add ns_now kRecordTtlSeconds)) ns_state_inv);
    vm_compute; reflexivity.
Defined.
