(* ===== verification/MessageRules.v ===== *)
(** * common/config/message_rules.cpp: the authorization rule from the configuration

    A configuration file gives the authorization rule as an array of lines:
    comments, [let] declarations of named requirements, and one rule line at the
    end.  Macros in the lines stand for node ids; [${name}] in a requirement
    stands for an earlier declaration.  The tree that results is what
    [ConfiguredResourceManager] (resource_manager_main.cpp) answers as its
    authorization tree. *)

From S2P Require Import Prelude BaseTypes Proto KeyPair ErdText.

(** What the code looks at in a JSON value. *)
Inductive json := JArray (entries : list json) | JString (s : bytes) | JOther.

(** ** Lines *)
Definition trimmed (s : bytes) : bytes := rev (skip_spaces (rev (skip_spaces s))).

Definition isCommentOrBlank (trimmedLine : bytes) : bool :=
  match trimmedLine with
  | [] => true
  | c :: rest =>
      if bool_decide (c = "#"%char) then true
      else match rest with
           | d :: _ => bool_decide (c = "/"%char) && bool_decide (d = "/"%char)
           | [] => false
           end
  end.

Definition isFirst (c : ascii) : bool := bool_decide (c = "_"%char) || in_range "A" "Z" c || in_range "a" "z" c.
Definition isRest (c : ascii) : bool := isFirst c || in_range "0" "9" c.

Definition isIdentifier (s : bytes) : bool :=
  match s with
  | [] => false
  | c :: rest => isFirst c && forallb isRest rest
  end.

(** The name of a declaration: up to a blank or an equals sign. *)
Fixpoint span_name (rest : bytes) : bytes * bytes :=
  match rest with
  | c :: rest' =>
      if is_space c || bool_decide (c = "="%char) then ([], rest)
      else let '(name, after) := span_name rest' in (c :: name, after)
  | [] => ([], [])
  end.

(** [tryParseLet]: [None] is the answer false; otherwise [outName], [outExpr]
    and [outError]. *)
Definition tryParseLet (trimmedLine : bytes) : option (bytes * bytes * bytes) :=
  let startsWithLet :=
    bool_decide (take 4 trimmedLine = bs "let ")
    || (bool_decide (take 3 trimmedLine = bs "let")
        && match trimmedLine !! 3%nat with Some c => is_space c | None => false end) in
  if (List.length trimmedLine <? 4)%nat || negb startsWithLet then None
  else
    let '(name, after) := span_name (skip_spaces (drop 3 trimmedLine)) in
    match skip_spaces after with
    | c :: rest =>
        if negb (bool_decide (c = "="%char)) then Some (name, [], bs "let declaration is missing '='")
        else
          let expr := skip_spaces rest in
          if negb (isIdentifier name) then Some (name, [], bs "invalid variable name '" ++ name ++ bs "'")
          else match expr with
               | [] => Some (name, [], bs "let declaration for '" ++ name ++ bs "' has empty expression")
               | _ => Some (name, expr, [])
               end
    | [] => Some (name, [], bs "let declaration is missing '='")
    end.

(** ** Macros *)

(** [find]: the text before the first occurrence of [pattern] and after it. *)
Fixpoint split_at (pattern s : bytes) : option (bytes * bytes) :=
  if bool_decide (take (List.length pattern) s = pattern) then Some ([], drop (List.length pattern) s)
  else match s with
       | [] => None
       | c :: s' => '(before, after) ← split_at pattern s'; Some (c :: before, after)
       end.

Definition myNodeId : bytes := bs "MY_NODEID()".
Definition fromFilePrefix : bytes := bs "NODEID_FROM_FILE(".

(** The loop from [pos] on; every pass consumes an occurrence. *)
Fixpoint expandMyNodeId (fuel : nat) (nodeId rest : bytes) : Res bytes :=
  match split_at myNodeId rest with
  | None => Ok rest
  | Some (before, after) =>
      match fuel with
      | O => NoFuel
      | S fuel' => tail ← expandMyNodeId fuel' nodeId after; Ok (before ++ nodeId ++ tail)
      end
  end.

Section MessageRules.
Context `{C : Crypto}.
(** Reading a PEM file from disk. *)
Context (readPublicKeyFile : bytes -> Res Key).

Definition nodeIDFromPublicKeyFile (publicKeyPath : bytes) : Res NodeID :=
  key ← readPublicKeyFile publicKeyPath;
  verifyP256 (Some key);;
  kp ← KeyPair_of_key key;
  nodeID kp.

Fixpoint expandFromFile (fuel : nat) (rest : bytes) : Res bytes :=
  match split_at fromFilePrefix rest with
  | None => Ok rest
  | Some (before, arg) =>
      match split_at (bs ")") arg with
      | None => throw_runtime "NODEID_FROM_FILE( missing closing ')'"
      | Some (path, after) =>
          id ← nodeIDFromPublicKeyFile path;
          match fuel with
          | O => NoFuel
          | S fuel' => tail ← expandFromFile fuel' after; Ok (before ++ GUID_toString id ++ tail)
          end
      end
  end.

Definition expandMacros (input nodeId : bytes) : Res bytes :=
  result ← expandMyNodeId (List.length input) nodeId input;
  expandFromFile (List.length result) result.

(** ** The rules *)
Abbreviation Variables := (gmap bytes ERDAbstractSyntaxTree).

Definition resolver (variables : Variables) (name : bytes) : Res (option ERDAbstractSyntaxTree) := Ok (variables !! name).

Definition at_entry (idx : nat) (what : bytes) : exn :=
  RuntimeError (bs "message_rules[" ++ to_string (Z.of_nat (S idx)) ++ bs "]: " ++ what).

(** Expansion and parsing of a line, with the two [try] blocks. *)
Definition parseLine (idx : nat) (nodeId text : bytes) (variables : Variables) (what : bytes) : Res ERDAbstractSyntaxTree :=
  expanded ← catch_any (expandMacros text nodeId)
               (fun e => Throw (at_entry idx (bs "macro expansion failed: " ++ exn_what e)));
  catch_any (fromString (Some (resolver variables)) expanded) (fun e => Throw (at_entry idx (what ++ exn_what e))).

(** The loop; [ruleTree] is set once the rule line has been seen. *)
Fixpoint rulesLoop (idx : nat) (nodeId : bytes) (entries : list json) (variables : Variables)
    (ruleTree : option ERDAbstractSyntaxTree) : Res (option ERDAbstractSyntaxTree) :=
  match entries with
  | [] => Ok ruleTree
  | JString raw :: entries' =>
      let line := trimmed raw in
      if isCommentOrBlank line then rulesLoop (S idx) nodeId entries' variables ruleTree
      else
        match ruleTree with
        | Some _ => Throw (at_entry idx (bs "content appears after the rule line; the rule line must be last"))
        | None =>
            match tryParseLet line with
            | Some (letName, letExpr, letError) =>
                match letError with
                | _ :: _ => Throw (at_entry idx letError)
                | [] =>
                    match variables !! letName with
                    | Some _ => Throw (at_entry idx (bs "duplicate variable '" ++ letName ++ bs "'"))
                    | None =>
                        tree ← parseLine idx nodeId letExpr variables (bs "failed to parse let '" ++ letName ++ bs "': ");
                        rulesLoop (S idx) nodeId entries' (<[letName := tree]> variables) None
                    end
                end
            | None =>
                tree ← parseLine idx nodeId line variables (bs "failed to parse rule: ");
                rulesLoop (S idx) nodeId entries' variables (Some tree)
            end
        end
  | _ :: _ => Throw (at_entry idx (bs "entry must be a string"))
  end.

Definition buildMessageRulesTree (rules : json) (nodeId : bytes) : Res ERDAbstractSyntaxTree :=
  match rules with
  | JArray entries =>
      ruleTree ← rulesLoop 0 nodeId entries ∅ None;
      match ruleTree with
      | Some tree => Ok tree
      | None => Throw (RuntimeError ("034"%char :: bs "message_rules" ++ "034"%char :: bs " must contain exactly one rule line"))
      end
  | _ => Throw (RuntimeError ("034"%char :: bs "message_rules" ++ "034"%char :: bs " must be a JSON array"))
  end.

(** ** The language of rule files *)

(** The tree a line stands for. *)
Definition line_tree (nodeId text : bytes) (variables : Variables) (tree : ERDAbstractSyntaxTree) : Prop :=
  exists expanded, expandMacros text nodeId = Ok expanded /\ fromString (Some (resolver variables)) expanded = Ok tree.

(** Declarations, each seeing the earlier ones, with different names. *)
Inductive declares (nodeId : bytes) : Variables -> list bytes -> Variables -> Prop :=
| declares_nil variables : declares nodeId variables [] variables
| declares_let variables line name expr tree lines variables' :
    tryParseLet line = Some (name, expr, []) -> variables !! name = None ->
    line_tree nodeId expr variables tree ->
    declares nodeId (<[name := tree]> variables) lines variables' ->
    declares nodeId variables (line :: lines) variables'.

(** The lines that count. *)
Definition content (raws : list bytes) : list bytes := List.filter (fun line => negb (isCommentOrBlank line)) (trimmed <$> raws).

(** ** Lemmas *)

Lemma split_at_eq pattern s before after : split_at pattern s = Some (before, after) -> s = before ++ pattern ++ after.
Proof.
  revert before. induction s as [|c s IH]; intros before; cbn [split_at]; case_bool_decide as Hp.
  1,3: intros [= <- <-]; cbn [app]; rewrite <- Hp at 1; by rewrite take_drop.
  - done.
  - destruct (split_at pattern s) as [[b a]|]; [|done]. cbn. intros [= <- <-]. cbn. f_equal. by apply IH.
Qed.

Lemma expandMyNodeId_ok fuel nodeId rest : (List.length rest <= fuel)%nat -> exists x, expandMyNodeId fuel nodeId rest = Ok x.
Proof.
  revert rest. induction fuel as [|fuel IH]; intros rest Hl; cbn [expandMyNodeId];
    (destruct (split_at myNodeId rest) as [[b a]|] eqn:Hs; [|by eexists]);
    apply split_at_eq in Hs; subst rest; rewrite !length_app in Hl; change (List.length myNodeId) with 11%nat in Hl; [lia|].
  destruct (IH a ltac:(lia)) as [x ->]. by eexists.
Qed.

Lemma plain_bind {X Y} (m : Res X) (f : X -> Res Y) : plain m -> (forall x, m = Ok x -> plain (f x)) -> plain (m ≫= f).
Proof. destruct m as [x|[]| |]; cbn; auto. Qed.

Lemma nodeID_plain k : plain (nodeID k).
Proof. unfold nodeID. repeat case_match; done. Qed.

Lemma verifyP256_plain k : plain (verifyP256 k).
Proof. unfold verifyP256. repeat case_match; done. Qed.

(** Reading a key file returns a key or throws a [std::runtime_error]. *)
Definition files_plain : Prop := forall path, plain (readPublicKeyFile path).

Lemma nodeIDFromPublicKeyFile_plain path : files_plain -> plain (nodeIDFromPublicKeyFile path).
Proof.
  intros Hf. apply plain_bind; [apply Hf|]. intros key _. apply plain_bind; [apply verifyP256_plain|]. intros _ _.
  apply plain_bind; [apply plain_bind; [apply verifyP256_plain|done]|]. intros k _. apply nodeID_plain.
Qed.

Lemma expandFromFile_plain fuel rest : files_plain -> (List.length rest <= fuel)%nat -> plain (expandFromFile fuel rest).
Proof.
  intros Hf. revert rest. induction fuel as [|fuel IH]; intros rest Hl; cbn [expandFromFile];
    (destruct (split_at fromFilePrefix rest) as [[b a]|] eqn:Hs; [|done]);
    apply split_at_eq in Hs; subst rest; rewrite !length_app in Hl; change (List.length fromFilePrefix) with 17%nat in Hl; [lia|].
  destruct (split_at _ a) as [[path after]|] eqn:Ha; [|done]. apply split_at_eq in Ha. subst a. rewrite !length_app in Hl.
  apply plain_bind; [by apply nodeIDFromPublicKeyFile_plain|]. intros id _. apply plain_bind; [apply IH; lia|done].
Qed.

Lemma expandMacros_plain text nodeId : files_plain -> plain (expandMacros text nodeId).
Proof.
  intros Hf. unfold expandMacros. destruct (expandMyNodeId_ok (List.length text) nodeId text) as [x ->]; [lia|].
  cbn [mbind res_bind]. by apply expandFromFile_plain.
Qed.

(** A line is parsed to its tree and to nothing else. *)
Lemma parseLine_ok idx nodeId text variables what tree :
  parseLine idx nodeId text variables what = Ok tree <-> line_tree nodeId text variables tree.
Proof.
  unfold parseLine, line_tree. destruct (expandMacros text nodeId) as [x| | |]; cbn [catch_any mbind res_bind].
  - destruct (fromString _ x) eqn:Hx; cbn [catch_any]; split; try done;
      first [intros (? & [= <-] & E); rewrite Hx in E; congruence | intros [= <-]; eauto].
  - split; [done|by intros (? & ? & _)].
  - split; [done|by intros (? & ? & _)].
  - split; [done|by intros (? & ? & _)].
Qed.

(** After the rule line only comments and blank lines may follow. *)
Lemma rulesLoop_after idx nodeId entries variables tree t :
  rulesLoop idx nodeId entries variables (Some tree) = Ok t <->
  t = Some tree /\ exists raws, entries = JString <$> raws /\ content raws = [].
Proof.
  revert idx. induction entries as [|e entries IH]; intros idx; cbn [rulesLoop].
  { split; [intros [= <-]; split; [done|by exists []]|by intros [-> _]]. }
  destruct e as [l|raw|].
  1,3: split; [done|]; intros [_ ([|] & E & _)]; discriminate E.
  destruct (isCommentOrBlank (trimmed raw)) eqn:Hc.
  - rewrite IH. split; intros [-> (raws & E & Hr)]; (split; [done|]).
    + exists (raw :: raws). subst entries. split; [done|]. unfold content. cbn. by rewrite Hc.
    + destruct raws as [|raw' raws]; [discriminate E|]. injection E as -> ->. exists raws. split; [done|].
      unfold content in Hr. cbn in Hr. rewrite Hc in Hr. exact Hr.
  - split; [done|]. intros [_ (raws & E & Hr)]. destruct raws as [|raw' raws]; [discriminate E|]. injection E as -> ->.
    unfold content in Hr. cbn in Hr. by rewrite Hc in Hr.
Qed.

Lemma rulesLoop_iff idx nodeId entries variables tree :
  rulesLoop idx nodeId entries variables None = Ok (Some tree) <->
  exists raws lets rule variables', entries = JString <$> raws /\ content raws = lets ++ [rule]
    /\ tryParseLet rule = None /\ declares nodeId variables lets variables' /\ line_tree nodeId rule variables' tree.
Proof.
  revert idx variables. induction entries as [|e entries IH]; intros idx variables; cbn [rulesLoop].
  { split; [done|]. intros ([|] & lets & rule & v & E & Hc & _); [by destruct lets|discriminate E]. }
  destruct e as [l|raw|].
  1,3: split; [done|]; intros ([|] & lets & rule & v & E & Hc & _); [discriminate E|discriminate E].
  assert (Hcons : forall raws, content (raw :: raws) =
    if isCommentOrBlank (trimmed raw) then content raws else trimmed raw :: content raws).
  { intros raws. unfold content. cbn. by destruct (isCommentOrBlank (trimmed raw)). }
  destruct (isCommentOrBlank (trimmed raw)) eqn:Hb.
  { rewrite IH. split.
    - intros (raws & lets & rule & v & -> & Hc & H3). exists (raw :: raws), lets, rule, v. rewrite Hcons. done.
    - intros ([|raw' raws] & lets & rule & v & E & Hc & H3); [discriminate E|]. injection E as <- ->.
      exists raws, lets, rule, v. rewrite Hcons in Hc. done. }
  destruct (tryParseLet (trimmed raw)) as [[[name expr] err]|] eqn:Hl.
  - split.
    + destruct err; [|done]. destruct (variables !! name) eqn:Hv; [done|].
      destruct (parseLine idx nodeId expr variables _) as [t| | |] eqn:Hp; try done. apply parseLine_ok in Hp. cbn [mbind res_bind].
      intros (raws & lets & rule & v & -> & Hc & Hr & Hd & Ht)%IH. exists (raw :: raws), (trimmed raw :: lets), rule, v.
      rewrite Hcons, Hc. do 2 (split; [done|]). split; [done|]. split; [by econstructor|done].
    + intros ([|raw' raws] & lets & rule & v & E & Hc & Hr & Hd & Ht); [discriminate E|]. injection E as <- ->.
      rewrite Hcons in Hc. destruct lets as [|line lets]; [injection Hc as <- _; congruence|]. injection Hc as <- Hc.
      inversion Hd as [|? ? name' expr' tree' ? ? Hl' Hv Ht' Hd']; subst. rewrite Hl in Hl'. injection Hl' as <- <- ->. rewrite Hv.
      rewrite (proj2 (parseLine_ok idx nodeId expr variables _ tree')) by done. cbn [mbind res_bind]. apply IH. eauto 10.
  - split.
    + destruct (parseLine idx nodeId (trimmed raw) variables _) as [t| | |] eqn:Hp; try done. apply parseLine_ok in Hp.
      cbn [mbind res_bind]. intros ([= <-] & raws & -> & Hc)%rulesLoop_after. exists (raw :: raws), [], (trimmed raw), variables.
      rewrite Hcons, Hc. do 3 (split; [done|]). split; [constructor|done].
    + intros ([|raw' raws] & lets & rule & v & E & Hc & Hr & Hd & Ht); [discriminate E|]. injection E as <- ->.
      rewrite Hcons in Hc. destruct lets as [|line lets].
      * injection Hc as <- Hc. inversion Hd; subst. rewrite (proj2 (parseLine_ok idx nodeId _ _ _ tree)) by done.
        cbn [mbind res_bind]. apply rulesLoop_after. eauto.
      * injection Hc as <- Hc. inversion Hd; congruence.
Qed.

(** *** References *)
Lemma isFirst_letter c : isFirst c = isIdChar c true.
Proof. unfold isFirst, isIdChar. by rewrite orb_false_r. Qed.

Lemma isRest_letter c : isRest c = isIdChar c false.
Proof. done. Qed.

Lemma identifier_chars name c : isIdentifier name = true -> c ∈ name -> isRest c = true.
Proof.
  destruct name as [|d name]; [done|]. cbn. intros [Hd Hn]%andb_true_iff [->|Hc]%elem_of_cons.
  - unfold isRest. by rewrite Hd.
  - rewrite forallb_forall in Hn. apply Hn. by apply list_elem_of_In.
Qed.

Lemma identifier_valid name : isIdentifier name = true -> name <> [] /\ validName name = true.
Proof.
  destruct name as [|d name]; [done|]. cbn. rewrite isFirst_letter. intros H. split; [done|exact H].
Qed.

Lemma until_brace_name name rest : (forall c, c ∈ name -> c <> "}"%char) -> until_brace (name ++ "}"%char :: rest) = Some (name, rest).
Proof.
  induction name as [|c name IH]; intros Hn; cbn [until_brace app]; [by rewrite bool_decide_eq_true_2|].
  rewrite bool_decide_eq_false_2 by (apply Hn; by left). rewrite IH by (intros d Hd; apply Hn; by right). done.
Qed.

Definition reference (name : bytes) : bytes := bs "${" ++ name ++ bs "}".

(** [${name}] is the tree that was declared. *)
Lemma fromString_reference variables name tree :
  isIdentifier name = true -> variables !! name = Some tree ->
  fromString (Some (resolver variables)) (reference name) = Ok tree.
Proof.
  intros Hid Hv. destruct (identifier_valid name Hid) as [Hne Hvalid].
  set (text := "$"%char :: "{"%char :: name ++ ["}"%char]). change (reference name) with text.
  assert (Hp : parseTree (Some (resolver variables)) (S (List.length text)) (size_of text) text = Ok (tree, [])).
  2:{ unfold fromString. change (skip_spaces text) with text. unfold text at 1. fold text. by rewrite Hp. }
  unfold parseTree, parseAst, erdBefore. fold (@parseAst ErdLeaf).
  assert (Hb : until_brace (name ++ ["}"%char]) = Some (name, [])).
  { apply until_brace_name. intros c Hc ->. by specialize (identifier_chars name _ Hid Hc). }
  assert (Hvar : forall size, parseVariable (Some (resolver variables)) size (name ++ ["}"%char]) = Ok (tree, [])).
  { intros size. unfold parseVariable. rewrite Hb, bool_decide_eq_false_2, Hvalid by done. cbn [negb]. unfold resolver. by rewrite Hv. }
  change (parseVariable (Some (resolver variables)) (size_of text) (drop 2 text) = Ok (tree, [])). apply Hvar.
Qed.

(** *** Printing a declaration *)
Lemma skip_spaces_suffix s : exists p, s = p ++ skip_spaces s.
Proof.
  induction s as [|c s [p IH]]; [by exists []|]. cbn [skip_spaces]. destruct (is_space c); [|by exists []].
  exists (c :: p). cbn. by rewrite <- IH.
Qed.

Lemma skip_spaces_fixed s : (List.length s <= List.length (skip_spaces s))%nat -> skip_spaces s = s.
Proof.
  intros Hl. destruct (skip_spaces_suffix s) as [p Hp]. rewrite Hp, length_app in Hl at 1.
  destruct p; [by rewrite Hp at 2|cbn in Hl; lia].
Qed.

(** A text without blanks at its ends. *)
Lemma trimmed_ends s :
  trimmed s = s -> s <> [] -> skip_spaces s = s /\ exists c l, rev s = c :: l /\ is_space c = false.
Proof.
  intros Ht Hne. unfold trimmed in Ht.
  assert (H1 : skip_spaces s = s).
  { apply skip_spaces_fixed. rewrite <- Ht at 1. rewrite length_rev.
    destruct (skip_spaces_suffix (rev (skip_spaces s))) as [p Hp]. apply (f_equal List.length) in Hp.
    rewrite length_rev, length_app in Hp. lia. }
  split; [done|]. rewrite H1 in Ht. apply (f_equal (@rev ascii)) in Ht. rewrite rev_involutive in Ht.
  destruct (rev s) as [|c l] eqn:Hr; [apply (f_equal (@rev ascii)) in Hr; rewrite rev_involutive in Hr; by subst|].
  exists c, l. split; [done|]. cbn [skip_spaces] in Ht. destruct (is_space c) eqn:Hc; [|done].
  destruct (skip_spaces_suffix l) as [p Hp]. rewrite Ht in Hp. apply (f_equal List.length) in Hp. rewrite length_app in Hp. cbn in Hp. lia.
Qed.

Lemma trimmed_solid c s l d : is_space c = false -> rev (c :: s) = d :: l -> is_space d = false -> trimmed (c :: s) = c :: s.
Proof.
  intros Hc Hr Hd. unfold trimmed. cbn [skip_spaces]. rewrite Hc, Hr. cbn [skip_spaces]. rewrite Hd, <- Hr. apply rev_involutive.
Qed.

Lemma rest_not_space c : isRest c = true -> is_space c || bool_decide (c = "="%char) = false.
Proof.
  assert (Hall : implb (isRest c) (negb (is_space c || bool_decide (c = "="%char))) = true) by by_all_chars c.
  intros Hc. rewrite Hc in Hall. by apply negb_true_iff.
Qed.

Lemma span_name_spec name after :
  (forall c, c ∈ name -> isRest c = true) ->
  match after with c :: _ => is_space c || bool_decide (c = "="%char) = true | [] => True end ->
  span_name (name ++ after) = (name, after).
Proof.
  intros Hn Ha. induction name as [|c name IH]; cbn [span_name app].
  - destruct after as [|c after]; [done|]. cbn [span_name]. by rewrite Ha.
  - rewrite rest_not_space by (apply Hn; by left). rewrite IH by (intros d Hd; apply Hn; by right). done.
Qed.

Definition declaration (name expr : bytes) : bytes := bs "let " ++ name ++ bs " = " ++ expr.

Lemma tryParseLet_declaration name expr :
  isIdentifier name = true -> skip_spaces expr = expr -> expr <> [] ->
  tryParseLet (declaration name expr) = Some (name, expr, []).
Proof.
  intros Hid Hs Hne. pose proof (identifier_chars name) as Hch.
  assert (Hskip : skip_spaces (drop 3 (declaration name expr)) = name ++ bs " = " ++ expr).
  { change (drop 3 (declaration name expr)) with (" "%char :: name ++ bs " = " ++ expr).
    destruct name as [|c name]; [done|]. cbn [skip_spaces app].
    specialize (Hch c Hid ltac:(by left)). pose proof (rest_not_space c Hch) as [-> _]%orb_false_iff. done. }
  unfold tryParseLet. change (bool_decide (take 4 (declaration name expr) = bs "let ")) with true.
  replace (List.length (declaration name expr) <? 4)%nat with false
    by (symmetry; apply Nat.ltb_ge; unfold declaration; rewrite length_app; change (List.length (bs "let ")) with 4%nat; lia).
  cbn [orb negb]. rewrite Hskip, span_name_spec; [|by intros c; apply Hch|reflexivity].
  change (skip_spaces (bs " = " ++ expr)) with ("="%char :: " "%char :: expr).
  cbv beta iota. rewrite bool_decide_eq_true_2 by done. cbn [negb].
  change (skip_spaces (" "%char :: expr)) with (skip_spaces expr). rewrite Hs, Hid. cbn [negb]. by destruct expr.
Qed.

Lemma trimmed_declaration name expr : trimmed expr = expr -> expr <> [] -> trimmed (declaration name expr) = declaration name expr.
Proof.
  intros Ht Hne. destruct (trimmed_ends expr Ht Hne) as [_ (c & l & Hr & Hc)].
  change (declaration name expr) with ("l"%char :: bs "et " ++ name ++ bs " = " ++ expr).
  eapply (trimmed_solid _ _ _ c); [done| |done].
  change ("l"%char :: bs "et " ++ name ++ bs " = " ++ expr) with (bs "let " ++ name ++ bs " = " ++ expr).
  rewrite !app_assoc, rev_app_distr, Hr. reflexivity.
Qed.

Lemma trimmed_reference name : trimmed (reference name) = reference name.
Proof.
  change (reference name) with ("$"%char :: "{"%char :: name ++ ["}"%char]). eapply (trimmed_solid _ _ _ "}"%char); [done| |done].
  change ("$"%char :: "{"%char :: name ++ ["}"%char]) with ((["$"%char; "{"%char] ++ name) ++ ["}"%char]).
  rewrite rev_app_distr. reflexivity.
Qed.

(** A reference contains no macro. *)
Lemma split_at_absent pattern s c : c ∈ pattern -> c ∉ s -> split_at pattern s = None.
Proof.
  intros Hc Hs. destruct (split_at pattern s) as [[b a]|] eqn:E; [|done]. apply split_at_eq in E. subst s.
  exfalso. apply Hs. rewrite !elem_of_app. auto.
Qed.

Lemma expandMacros_reference name nodeId : isIdentifier name = true -> expandMacros (reference name) nodeId = Ok (reference name).
Proof.
  intros Hid. assert (Hp : "("%char ∉ reference name).
  { unfold reference. rewrite !elem_of_app. intros [H|[H|H]].
    - apply list_elem_of_In in H. vm_compute in H. intuition discriminate.
    - by specialize (identifier_chars name _ Hid H).
    - apply list_elem_of_In in H. vm_compute in H. intuition discriminate. }
  assert (H1 : split_at myNodeId (reference name) = None).
  { apply (split_at_absent _ _ "("%char); [|done]. apply list_elem_of_In. vm_compute. tauto. }
  assert (H2 : split_at fromFilePrefix (reference name) = None).
  { apply (split_at_absent _ _ "("%char); [|done]. apply list_elem_of_In. vm_compute. tauto. }
  unfold expandMacros. destruct (List.length (reference name)); cbn [expandMyNodeId]; rewrite H1; cbn [mbind res_bind];
    (destruct (List.length (reference name)); cbn [expandFromFile]; by rewrite H2).
Qed.

Lemma declares_app nodeId v l1 v1 l2 v2 : declares nodeId v l1 v1 -> declares nodeId v1 l2 v2 -> declares nodeId v (l1 ++ l2) v2.
Proof. induction 1; intros Hd; [done|]. cbn. econstructor; eauto. Qed.

Lemma declares_fresh nodeId v lines v' name :
  declares nodeId v lines v' -> v !! name = None ->
  (forall line n e, line ∈ lines -> tryParseLet line = Some (n, e, []) -> n <> name) -> v' !! name = None.
Proof.
  induction 1 as [|v line n e tree lines v' Hl Hn Ht Hd IH]; intros Hv Hf; [done|]. apply IH.
  - rewrite lookup_insert_ne; [done|]. apply (Hf line n e); [by left|done].
  - intros line' n' e' Hin. apply Hf. by right.
Qed.

Lemma content_app l k : content (l ++ k) = content l ++ content k.
Proof. unfold content. by rewrite fmap_app, List.filter_app. Qed.

Lemma build_iff entries nodeId tree :
  buildMessageRulesTree (JArray entries) nodeId = Ok tree <-> rulesLoop 0 nodeId entries ∅ None = Ok (Some tree).
Proof.
  unfold buildMessageRulesTree. destruct (rulesLoop 0 nodeId entries ∅ None) as [[t|]| | |]; cbn; split; congruence.
Qed.

Lemma tryParseLet_reference name : tryParseLet (reference name) = None.
Proof.
  unfold tryParseLet. rewrite !(bool_decide_eq_false_2 (take _ (reference name) = _)) by discriminate.
  cbn [orb andb negb]. by rewrite orb_true_r.
Qed.

(** A part of a document, from its start, that is in order: declarations and at most
    one rule line after them, with the variables and the tree of the rule line. *)
Definition in_order (nodeId : bytes) (entries : list json) (variables : Variables) (rule : option ERDAbstractSyntaxTree) : Prop :=
  exists raws lets, entries = JString <$> raws /\ declares nodeId ∅ lets variables
    /\ match rule with
       | None => content raws = lets
       | Some tree => exists line, content raws = lets ++ [line] /\ tryParseLet line = None /\ line_tree nodeId line variables tree
       end.

(** The expression of a line, and how an error in it is announced. *)
Inductive expression (variables : Variables) (line : bytes) : bytes -> bytes -> Prop :=
| expression_let name text :
    tryParseLet line = Some (name, text, []) -> variables !! name = None ->
    expression variables line text (bs "failed to parse let '" ++ name ++ bs "': ")
| expression_rule : tryParseLet line = None -> expression variables line line (bs "failed to parse rule: ").

(** What is wrong with an entry after a part that is in order, and the words for it. *)
Inductive faulty (nodeId : bytes) (variables : Variables) : option ERDAbstractSyntaxTree -> json -> bytes -> Prop :=
| faulty_kind rule e : (forall raw, e <> JString raw) -> faulty nodeId variables rule e (bs "entry must be a string")
| faulty_after raw tree :
    isCommentOrBlank (trimmed raw) = false ->
    faulty nodeId variables (Some tree) (JString raw) (bs "content appears after the rule line; the rule line must be last")
| faulty_let raw name text error :
    isCommentOrBlank (trimmed raw) = false -> tryParseLet (trimmed raw) = Some (name, text, error) -> error <> [] ->
    faulty nodeId variables None (JString raw) error
| faulty_duplicate raw name text tree :
    isCommentOrBlank (trimmed raw) = false -> tryParseLet (trimmed raw) = Some (name, text, []) -> variables !! name = Some tree ->
    faulty nodeId variables None (JString raw) (bs "duplicate variable '" ++ name ++ bs "'")
| faulty_macro raw text what e :
    isCommentOrBlank (trimmed raw) = false -> expression variables (trimmed raw) text what -> expandMacros text nodeId = Throw e ->
    faulty nodeId variables None (JString raw) (bs "macro expansion failed: " ++ exn_what e)
| faulty_text raw text what expanded e :
    isCommentOrBlank (trimmed raw) = false -> expression variables (trimmed raw) text what -> expandMacros text nodeId = Ok expanded ->
    fromString (Some (resolver variables)) expanded = Throw e ->
    faulty nodeId variables None (JString raw) (what ++ exn_what e).

(** An error message of the interface: it names the first entry that is wrong, counted
    from one, and says what is wrong with it. *)
Definition names_entry (nodeId : bytes) (entries : list json) (what : bytes) : Prop :=
  exists before e after variables rule detail, entries = before ++ e :: after
    /\ in_order nodeId before variables rule /\ faulty nodeId variables rule e detail
    /\ what = bs "message_rules[" ++ to_string (Z.of_nat (S (List.length before))) ++ bs "]: " ++ detail.

(** The first entry that is not in order holds a literal whose reading is undefined. *)
Definition undefined_entry (nodeId : bytes) (entries : list json) : Prop :=
  exists before raw after variables text what expanded, entries = before ++ JString raw :: after
    /\ in_order nodeId before variables None /\ expression variables (trimmed raw) text what
    /\ expandMacros text nodeId = Ok expanded /\ fromString (Some (resolver variables)) expanded = Undefined.

Definition rules_outcome (nodeId : bytes) (entries : list json) (r : Res (option ERDAbstractSyntaxTree)) : Prop :=
  match r with
  | Ok rule => exists variables, in_order nodeId entries variables rule
  | Throw (RuntimeError what) => names_entry nodeId entries what
  | Undefined => undefined_entry nodeId entries
  | _ => False
  end.

Lemma in_order_comment nodeId before variables rule raw :
  in_order nodeId before variables rule -> isCommentOrBlank (trimmed raw) = true ->
  in_order nodeId (before ++ [JString raw]) variables rule.
Proof.
  intros (raws & lets & -> & Hd & Hc) Hb. exists (raws ++ [raw]), lets. split; [by rewrite fmap_app|]. split; [done|].
  assert (E : content (raws ++ [raw]) = content raws) by (rewrite content_app; unfold content at 2; cbn; by rewrite Hb, app_nil_r).
  by rewrite E.
Qed.

Lemma content_line raws raw : isCommentOrBlank (trimmed raw) = false -> content (raws ++ [raw]) = content raws ++ [trimmed raw].
Proof. intros Hb. rewrite content_app. unfold content at 2. cbn. by rewrite Hb. Qed.

Lemma in_order_let nodeId before variables raw name text tree :
  in_order nodeId before variables None -> isCommentOrBlank (trimmed raw) = false ->
  tryParseLet (trimmed raw) = Some (name, text, []) -> variables !! name = None -> line_tree nodeId text variables tree ->
  in_order nodeId (before ++ [JString raw]) (<[name := tree]> variables) None.
Proof.
  intros (raws & lets & -> & Hd & <-) Hb Hl Hv Ht. exists (raws ++ [raw]), (content raws ++ [trimmed raw]).
  split; [by rewrite fmap_app|]. split; [|by apply content_line]. eapply declares_app; [done|]. econstructor; eauto. constructor.
Qed.

Lemma in_order_rule nodeId before variables raw tree :
  in_order nodeId before variables None -> isCommentOrBlank (trimmed raw) = false ->
  tryParseLet (trimmed raw) = None -> line_tree nodeId (trimmed raw) variables tree ->
  in_order nodeId (before ++ [JString raw]) variables (Some tree).
Proof.
  intros (raws & lets & -> & Hd & <-) Hb Hl Ht. exists (raws ++ [raw]), (content raws).
  split; [by rewrite fmap_app|]. split; [done|]. exists (trimmed raw). split; [by apply content_line|done].
Qed.

Lemma at_entry_outcome nodeId before e after variables rule detail :
  in_order nodeId before variables rule -> faulty nodeId variables rule e detail ->
  rules_outcome nodeId (before ++ e :: after) (Throw (at_entry (List.length before) detail)).
Proof. intros Ho Hf. exists before, e, after, variables, rule, detail. done. Qed.

(** A line that holds an expression: if the expression is read, the loop goes on. *)
Lemma parseLine_outcome nodeId before raw after variables text what (next : ERDAbstractSyntaxTree -> Res (option ERDAbstractSyntaxTree)) :
  files_plain -> in_order nodeId before variables None -> isCommentOrBlank (trimmed raw) = false ->
  expression variables (trimmed raw) text what ->
  (forall tree, line_tree nodeId text variables tree -> rules_outcome nodeId (before ++ JString raw :: after) (next tree)) ->
  rules_outcome nodeId (before ++ JString raw :: after)
    (tree ← parseLine (List.length before) nodeId text variables what; next tree).
Proof.
  intros Hf Ho Hb He Hnext. unfold parseLine. pose proof (expandMacros_plain text nodeId Hf) as Hp.
  destruct (expandMacros text nodeId) as [x|[]| |] eqn:Ex; try done; cbn [catch_any mbind res_bind].
  - destruct (fromString_ends (Some (resolver variables)) x ltac:(done)) as [[t Et]|[[w Et]|Et]]; rewrite Et; cbn [catch_any mbind res_bind].
    + apply Hnext. by exists x.
    + eapply at_entry_outcome; [done|]. by eapply faulty_text.
    + by exists before, raw, after, variables, text, what, x.
  - eapply at_entry_outcome; [done|]. by eapply faulty_macro.
Qed.

Lemma rulesLoop_outcome nodeId before entries variables rule :
  files_plain -> in_order nodeId before variables rule ->
  rules_outcome nodeId (before ++ entries) (rulesLoop (List.length before) nodeId entries variables rule).
Proof.
  intros Hf. revert before variables rule. induction entries as [|e entries IH]; intros before variables rule Ho.
  { cbn. rewrite app_nil_r. eauto. }
  assert (IH' : forall v r, in_order nodeId (before ++ [e]) v r ->
    rules_outcome nodeId (before ++ e :: entries) (rulesLoop (S (List.length before)) nodeId entries v r)).
  { intros v r Ho'. specialize (IH (before ++ [e]) v r Ho'). rewrite <- app_assoc, length_app, Nat.add_comm in IH. exact IH. }
  cbn [rulesLoop]. destruct e as [l|raw|]; [by eapply at_entry_outcome, faulty_kind| |by eapply at_entry_outcome, faulty_kind].
  destruct (isCommentOrBlank (trimmed raw)) eqn:Hb; [by apply IH', in_order_comment|].
  destruct rule as [tree|]; [by eapply at_entry_outcome, faulty_after|].
  destruct (tryParseLet (trimmed raw)) as [[[name text] error]|] eqn:Hl.
  - destruct error as [|c error]; [|by eapply at_entry_outcome; [|eapply faulty_let]].
    destruct (variables !! name) eqn:Hv; [by eapply at_entry_outcome; [|eapply faulty_duplicate]|].
    apply parseLine_outcome; [done..|by constructor|]. intros tree Ht. by eapply IH', in_order_let.
  - apply parseLine_outcome; [done..|by constructor|]. intros tree Ht. by apply IH', in_order_rule.
Qed.

(** ** Properties *)

(** C33.  Which rule files are accepted, and with which meaning.  A document is
    accepted with the tree [tree] exactly when it is an array of strings whose
    lines, comments and blank lines apart, are [let] declarations with different
    names, each parsing with the earlier names, followed by one rule line that
    is not a declaration and parses, with all of them, to [tree]. *)
Theorem rules_accept_iff rules nodeId tree :
  buildMessageRulesTree rules nodeId = Ok tree <->
  exists raws lets rule variables, rules = JArray (JString <$> raws) /\ content raws = lets ++ [rule]
    /\ tryParseLet rule = None /\ declares nodeId ∅ lets variables /\ line_tree nodeId rule variables tree.
Proof.
  destruct rules as [entries|s|]; [|split; [done|by intros (? & ? & ? & ? & [=] & _)]..].
  rewrite build_iff, rulesLoop_iff. split.
  - intros (raws & lets & rule & v & -> & H). by exists raws, lets, rule, v.
  - intros (raws & lets & rule & v & [= ->] & H). by exists raws, lets, rule, v.
Qed.

(** C34.  Errors name the entry at fault.  When key files are read or refused with
    [std::runtime_error], building the tree ends for every document.  An exception is
    always a [std::runtime_error].  For an array its message names one entry, by its
    position counted from one: the first entry that does not continue the document
    correctly (all entries before it are in order), together with what is wrong with it:
    no string, content after the rule line, a malformed declaration, a name declared
    twice, a macro that cannot be expanded, or an expression that cannot be parsed, with
    the message of the macro or the parser.  Two messages name no entry: for a
    document that is no array, and for an array all in order without a rule line.  The
    remaining outcome is undefined behaviour, only in reading a literal of the first
    entry after a part that is in order. *)
Theorem rules_errors rules nodeId :
  files_plain ->
  match buildMessageRulesTree rules nodeId with
  | Ok tree => exists entries variables, rules = JArray entries /\ in_order nodeId entries variables (Some tree)
  | Throw (RuntimeError what) =>
      match rules with
      | JArray entries => names_entry nodeId entries what
          \/ (what = "034"%char :: bs "message_rules" ++ "034"%char :: bs " must contain exactly one rule line"
              /\ exists variables, in_order nodeId entries variables None)
      | _ => what = "034"%char :: bs "message_rules" ++ "034"%char :: bs " must be a JSON array"
      end
  | Undefined => exists entries, rules = JArray entries /\ undefined_entry nodeId entries
  | _ => False
  end.
Proof.
  intros Hf. destruct rules as [entries|s|]; [|done..]. cbn [buildMessageRulesTree].
  assert (Hnil : in_order nodeId [] ∅ None) by (exists [], []; repeat split; constructor).
  pose proof (rulesLoop_outcome nodeId [] entries ∅ None Hf Hnil) as Ho. cbn [app List.length] in Ho.
  destruct (rulesLoop 0 nodeId entries ∅ None) as [[t|]|[]| |]; try done; cbn [mbind res_bind].
  - destruct Ho as [v Ho]. eauto.
  - right. eauto.
  - by left.
  - eauto.
Qed.

(** Variables are spliced in.  Naming the expression of the rule line in a
    [let] declaration with a new name and making the reference to it the rule
    line does not change the tree. *)
Theorem let_is_spliced raws name expr nodeId tree :
  isIdentifier name = true ->
  (forall line n e, line ∈ content raws -> tryParseLet line = Some (n, e, []) -> n <> name) ->
  trimmed expr = expr -> isCommentOrBlank expr = false ->
  buildMessageRulesTree (JArray (JString <$> raws ++ [expr])) nodeId = Ok tree ->
  buildMessageRulesTree (JArray (JString <$> raws ++ [declaration name expr; reference name])) nodeId = Ok tree.
Proof.
  intros Hid Hfresh Ht Hc. rewrite !build_iff, !rulesLoop_iff.
  intros (raws' & lets & rule & v & E & Hcon & Hr & Hd & Hl).
  assert (raws' = raws ++ [expr]) as -> by (eapply list_fmap_eq_inj; [|done]; intros ? ? [= ->]; done).
  assert (He : content [expr] = [expr]) by (unfold content; cbn; by rewrite Ht, Hc).
  rewrite content_app, He in Hcon. apply app_inj_tail in Hcon as [<- <-].
  assert (Hne : expr <> []) by (by intros ->). destruct (trimmed_ends expr Ht Hne) as [Hs _].
  exists (raws ++ [declaration name expr; reference name]), (content raws ++ [declaration name expr]), (reference name),
    (<[name := tree]> v).
  split; [done|]. split.
  { rewrite content_app, <- app_assoc. f_equal. unfold content. cbn [fmap list_fmap].
    rewrite trimmed_declaration, trimmed_reference by done. reflexivity. }
  split; [apply tryParseLet_reference|]. split.
  - eapply declares_app; [exact Hd|]. econstructor; [by apply tryParseLet_declaration| |exact Hl|constructor].
    eapply declares_fresh; [exact Hd|done|done].
  - exists (reference name). split; [by apply expandMacros_reference|]. apply fromString_reference; [done|]. by rewrite lookup_insert_eq.
Qed.
End MessageRules.

(** ** Witnesses *)
#[local] Existing Instance ToyCrypto.toy.

Definition mr_files (path : bytes) : Res Key := if bool_decide (path = bs "a.pem") then Ok (bs "a", false) else throw_runtime "no file".

Definition mr_rule : bytes := bs "AND(TRUE, ANYOF())".
Definition mr_raws : list bytes := [bs "# who may connect"; bs "  "; bs "let yes = TRUE"].

Lemma mr_files_plain : files_plain mr_files.
Proof. intros path. unfold mr_files. by case_bool_decide. Qed.

Lemma rules_accept_iff_witness :
  exists raws lets rule variables, JArray (JString <$> mr_raws ++ [bs "OR(${yes}, FALSE)"]) = JArray (JString <$> raws)
    /\ content raws = lets ++ [rule] /\ tryParseLet rule = None /\ declares mr_files (bs "id") ∅ lets variables
    /\ line_tree mr_files (bs "id") rule variables (Or (Some TrueValue) (Some FalseValue)).
Proof. apply (rules_accept_iff mr_files). vm_compute. reflexivity. Defined.

(** The second declaration is at fault, in the third entry. *)
Definition mr_twice : list json := [JString (bs "# names"); JString (bs "let x = TRUE"); JString (bs "let x = FALSE")].

Lemma rules_errors_witness :
  buildMessageRulesTree mr_files (JArray mr_twice) (bs "id")
    = Throw (RuntimeError (bs "message_rules[3]: duplicate variable 'x'"))
  /\ names_entry mr_files (bs "id") mr_twice (bs "message_rules[3]: duplicate variable 'x'").
Proof.
  assert (E : buildMessageRulesTree mr_files (JArray mr_twice) (bs "id")
    = Throw (RuntimeError (bs "message_rules[3]: duplicate variable 'x'"))) by (vm_compute; reflexivity).
  split; [exact E|]. pose proof (rules_errors mr_files (JArray mr_twice) (bs "id") mr_files_plain) as Hr.
  rewrite E in Hr. destruct Hr as [Hn|[Hn _]]; [exact Hn|]. exfalso. vm_compute in Hn. discriminate Hn.
Defined.

Lemma let_is_spliced_witness :
  buildMessageRulesTree mr_files (JArray (JString <$> mr_raws ++ [declaration (bs "r") mr_rule; reference (bs "r")])) (bs "id")
  = Ok (And (Some TrueValue) (Some (AnyOf []))).
Proof.
  apply (let_is_spliced mr_files).
  - reflexivity.
  - intros line n e Hin. apply list_elem_of_In in Hin. vm_compute in Hin. destruct Hin as [<-|[]].
    vm_compute. intros [= <- _]. discriminate.
  - vm_compute. reflexivity.
  - reflexivity.
  - vm_compute. reflexivity.
Defined.
