(* ===== verification/FullClient.v ===== *)
(** * client/cpp_full/rsp_client.cpp: the client node

    [RSPClient] is a node with connections to resource managers: what it sends goes
    to the signing queue of one of its connections, what arrives for it goes to the
    node's input queue, and [ping] waits for the reply to a ping request.

    The state is what [connectionsMutex_], [runMutex_] and [pingMutex_] protect.
    Transports, encodings, queues and reconnect contexts are known by their
    handles; the life of a connection with its threads is in the file Reconnect.
    [queue_size] and [queue_push] are the sizes of the signing queues and their
    answers to a push at the time of a call; the random nonce, the random id of a
    ping and the clock are arguments. *)

From S2P Require Import Prelude BaseTypes Proto GuidBytes KeyPair FieldResolver Requirement MessageHash Signing AuthN.
From S2P Require Import IdentityCache DateTimes Logging AesNegotiation Node.

(** ** State *)
Record ClientConnectionState := mkClientConnection {
  cc_transport : option nat;
  cc_encoding : option nat;
  cc_signingQueue : option nat;
  cc_reconnect : option nat }.

Record PendingPingState := mkPendingPing { pp_destination : NodeID; pp_sequence : Z; completed : bool }.

Record RSPClient := mkClient {
  connections_ : gmap GUID ClientConnectionState;
  stopping_ : bool;
  pendingPings_ : gmap bytes PendingPingState;
  nextPingSequence_ : Z }.

Definition initial_client : RSPClient := mkClient ∅ false ∅ 1.

Definition set_pings (c : RSPClient) (pings : gmap bytes PendingPingState) : RSPClient :=
  mkClient (connections_ c) (stopping_ c) pings (nextPingSequence_ c).

(** ** Connections *)

(** [splitTransportSpec]: the text before and after the first colon, both not
    empty. *)
Fixpoint splitColon (s : bytes) : option (bytes * bytes) :=
  match s with
  | [] => None
  | c :: s' =>
      if bool_decide (c = ":"%char) then Some ([], s')
      else '(before, after) ← splitColon s'; Some (c :: before, after)
  end.

Definition splitTransportSpec (transportSpec : bytes) : option (bytes * bytes) :=
  match splitColon transportSpec with
  | Some ((_ :: _) as name, (_ :: _) as parameters) => Some (name, parameters)
  | _ => None
  end.

Definition hasConnections (c : RSPClient) : bool := negb (bool_decide (connections_ c = ∅)).
Definition hasConnection (c : RSPClient) (id : GUID) : bool := bool_decide (is_Some (connections_ c !! id)).
Definition connectionCount (c : RSPClient) : nat := size (connections_ c).
Definition connectionIds (c : RSPClient) : list GUID := (in_order (connections_ c)).*1.

(** ** Sending *)
Definition prepareOutboundMessage (nonce : Uuid) (message : RSPMessage.t) : RSPMessage.t :=
  match RSPMessage.nonce message with
  | Some _ => message
  | None => RSPMessage.set_nonce message (Some nonce)
  end.

Section Client.
Context `{M : MathLib}.
Context (queue_size : nat -> nat) (queue_push : nat -> RSPMessage.t -> bool).

(** The loop of [send]: an empty queue is taken at once; otherwise the selection
    is the first of the shortest queues. *)
Fixpoint selectQueue (l : list (GUID * ClientConnectionState)) (selected : option (nat * nat)) : option nat :=
  match l with
  | [] => fst <$> selected
  | (_, state) :: l' =>
      match cc_signingQueue state with
      | None => selectQueue l' selected
      | Some q =>
          let queueSize := queue_size q in
          if Nat.eqb queueSize 0 then Some q
          else if match selected with Some (_, size) => (queueSize <? size)%nat | None => true end
          then selectQueue l' (Some (q, queueSize))
          else selectQueue l' selected
      end
  end.

(** Result: the answer and the messages handed to a queue. *)
Definition pushTo (q : option nat) (message : RSPMessage.t) : bool * list (nat * RSPMessage.t) :=
  match q with
  | Some q => (queue_push q message, [(q, message)])
  | None => (false, [])
  end.

Definition send (c : RSPClient) (nonce : Uuid) (message : RSPMessage.t) : bool * list (nat * RSPMessage.t) :=
  pushTo (selectQueue (in_order (connections_ c)) None) (prepareOutboundMessage nonce message).

Definition sendOnConnection (c : RSPClient) (connectionId : GUID) (nonce : Uuid) (message : RSPMessage.t)
    : bool * list (nat * RSPMessage.t) :=
  pushTo (connections_ c !! connectionId ≫= cc_signingQueue) (prepareOutboundMessage nonce message).

(** ** Ping *)
Definition pingRequest (nodeId : NodeID) (nonce : bytes) (sequence : Z) (now : DateTime.t) : RSPMessage.t :=
  RSPMessage.set_core (to_destination (toProtoNodeId nodeId))
    (Some (PingRequestMessage (PingRequest.mk (Some nonce) sequence (Some (toProtoDateTime now))))).

(** [ping] up to [send]; [emplace] keeps an existing entry. *)
Definition ping_begin (c : RSPClient) (nodeId : NodeID) (nonce : bytes) (now : DateTime.t) : RSPMessage.t * RSPClient :=
  let next := nextPingSequence_ c in
  let pings := match pendingPings_ c !! nonce with
               | Some _ => pendingPings_ c
               | None => <[nonce := mkPendingPing nodeId next false]> (pendingPings_ c)
               end in
  (pingRequest nodeId nonce next now, mkClient (connections_ c) (stopping_ c) pings (wrap 32 (next + 1))).

(** The branch for a failed [send]. *)
Definition ping_unsent (c : RSPClient) (nonce : bytes) : RSPClient := set_pings c (delete nonce (pendingPings_ c)).

(** The predicate of the wait. *)
Definition ping_ready (c : RSPClient) (nonce : bytes) : bool :=
  stopping_ c || match pendingPings_ c !! nonce with Some p => completed p | None => false end.

(** The end of [ping], when the wait has ended because the predicate holds or
    because the time is over; [wait_for] returns the predicate's value. *)
Definition ping_end (c : RSPClient) (nonce : bytes) : bool * RSPClient :=
  let replied := ping_ready c nonce in
  let success := replied && negb (stopping_ c)
                 && match pendingPings_ c !! nonce with Some p => completed p | None => false end in
  (success, set_pings c (delete nonce (pendingPings_ c))).

Definition handlePingReply (c : RSPClient) (reply : PingReply.t) : RSPClient :=
  match PingReply.nonce reply with
  | None => c
  | Some nonce =>
      match pendingPings_ c !! nonce with
      | None => c
      | Some p =>
          if negb (PingReply.sequence reply =? pp_sequence p) then c
          else set_pings c (<[nonce := mkPendingPing (pp_destination p) (pp_sequence p) true]> (pendingPings_ c))
      end
  end.

Definition client_handleNodeSpecificMessage (c : RSPClient) (message : RSPMessage.t)
    : Res (bool * list RSPMessage.t * RSPClient) :=
  match RSPMessage.core_message message with
  | Some (PingReplyMessage reply) => Ok (true, [], handlePingReply c reply)
  | _ => Ok (false, [], c)
  end.
End Client.

(** The client is a node. *)
#[export] Instance client_specific : NodeSpecific :=
  {| Specific := RSPClient; handleNodeSpecificMessage := client_handleNodeSpecificMessage |}.

Section ClientNode.
Context `{H : HashCodec} `{C : Crypto} `{A : !KeyAgreement C} `{R : Reflection} `{M : MathLib}.
Context {Callback : Type}.
Abbreviation ClientNode := (RSPNode (S := client_specific) (Callback := Callback)).

Definition client_isForThisNode (local : NodeID) (message : RSPMessage.t) : bool :=
  match RSPMessage.destination message with
  | None => true
  | Some destination => bool_decide (destination = toProtoNodeId local)
  end.

(** [dispatchIncomingMessage]: whether the message is handed to the input queue. *)
Definition dispatchIncomingMessage (local : NodeID) (n : ClientNode) (env : Env) (message : RSPMessage.t)
    : Res (bool * list RSPMessage.t * ClientNode) :=
  if negb (client_isForThisNode local message) then Ok (false, [], n)
  else '(drops, n') ← enqueueInput local n env message; Ok (true, drops, n').

(** The client's input handler is safe for every message. *)
Theorem client_handler_safe `{!CryptoLaws C} cap local (n : ClientNode) env m :
  node_inv cap n -> defined (env_key env) -> node_safe cap (handleMessage local n env m).
Proof.
  intros I Hk. apply handleMessage_safe; [done|done|]. cbn. unfold client_handleNodeSpecificMessage. by repeat case_match.
Qed.

(** ** Properties of sending *)
Context (queue_size : nat -> nat) (queue_push : nat -> RSPMessage.t -> bool).

(** The queues of the connections, in the order of the loop. *)
Definition queues_of (c : RSPClient) : list nat := omap (fun e => cc_signingQueue e.2) (in_order (connections_ c)).

(** [q] is the first of the shortest queues of [l]. *)
Definition first_shortest (q : nat) (l : list nat) : Prop :=
  exists before after, l = before ++ q :: after
    /\ Forall (fun x => queue_size q < queue_size x)%nat before
    /\ Forall (fun x => queue_size q <= queue_size x)%nat after.

(** What the loop has seen so far: a shortest queue that is not empty. *)
Definition selection (seen : list nat) (selected : option (nat * nat)) : Prop :=
  match selected with
  | None => seen = []
  | Some (q, n) => n = queue_size q /\ n <> 0%nat /\ first_shortest q seen
  end.

Lemma first_shortest_longer q seen x :
  (queue_size q <= queue_size x)%nat -> first_shortest q seen -> first_shortest q (seen ++ [x]).
Proof.
  intros Hx (b & a & -> & Hb & Ha). exists b, (a ++ [x]). rewrite <- app_assoc. split_and!; [done|done|].
  apply Forall_app. split; [done|]. by apply Forall_singleton.
Qed.

Lemma first_shortest_new q n seen x :
  n = queue_size q -> first_shortest q seen -> (queue_size x < n)%nat -> first_shortest x (seen ++ [x]).
Proof.
  intros -> (b & a & -> & Hb & Ha) Hx. exists (b ++ q :: a), []. split_and!; [done| |constructor].
  apply Forall_app. split; [|constructor; [done|]]; (eapply Forall_impl; [eassumption|]; cbn; lia).
Qed.

Lemma selectQueue_first l seen selected :
  selection seen selected ->
  match selectQueue queue_size l selected with
  | None => seen ++ omap (fun e => cc_signingQueue e.2) l = []
  | Some q => first_shortest q (seen ++ omap (fun e => cc_signingQueue e.2) l)
  end.
Proof.
  revert seen selected. induction l as [|[id state] l IH]; intros seen selected Hsel; cbn [selectQueue omap list_omap snd].
  { rewrite app_nil_r. destruct selected as [[q n]|]; cbn in *; [by destruct Hsel as (_ & _ & ?)|done]. }
  destruct (cc_signingQueue state) as [x|]; [|by apply IH].
  replace (seen ++ x :: omap (fun e : GUID * ClientConnectionState => cc_signingQueue e.2) l)
    with ((seen ++ [x]) ++ omap (fun e : GUID * ClientConnectionState => cc_signingQueue e.2) l) by (by rewrite <- app_assoc).
  destruct (Nat.eqb_spec (queue_size x) 0) as [Hz|Hz].
  - exists seen, (omap (fun e : GUID * ClientConnectionState => cc_signingQueue e.2) l). rewrite <- app_assoc. split_and!; [done| |].
    + destruct selected as [[q n]|]; cbn in Hsel; [|subst; constructor].
      destruct Hsel as (-> & Hne & (b & a & -> & Hb & Ha)).
      apply Forall_app. split; [|constructor; [lia|]]; (eapply Forall_impl; [eassumption|]; cbn; lia).
    + apply Forall_true. intros. lia.
  - destruct selected as [[q n]|]; cbn in Hsel.
    + destruct Hsel as (-> & Hne & Hf). destruct (Nat.ltb_spec (queue_size x) (queue_size q)); apply IH; cbn; split_and!; try done.
      * by eapply first_shortest_new.
      * by apply first_shortest_longer.
    + subst. apply IH. cbn. split_and!; try done. exists [], []. split_and!; [done|constructor..].
Qed.

(** A message goes to the shortest queue: [send] hands the message, with the
    nonce it already has or else the fresh one and otherwise unchanged, exactly once
    to the first connection in the order of the ids whose signing queue is shortest,
    and answers what that queue answers; only a client without any signing queue
    sends nothing, and says so. *)
Theorem send_picks_shortest c nonce m :
  let prepared := prepareOutboundMessage nonce m in
  (RSPMessage.nonce prepared = Some (default nonce (RSPMessage.nonce m))
   /\ RSPMessage.set_nonce prepared (RSPMessage.nonce m) = m)
  /\ (queues_of c = [] /\ send queue_size queue_push c nonce m = (false, [])
      \/ exists q, first_shortest q (queues_of c)
          /\ send queue_size queue_push c nonce m = (queue_push q prepared, [(q, prepared)])).
Proof.
  intros prepared. split.
  - unfold prepared, prepareOutboundMessage. destruct m as [? ? ? ? ? [n|] ? ? ? ?]; done.
  - pose proof (selectQueue_first (in_order (connections_ c)) [] None eq_refl) as Hs. unfold send.
    destruct (selectQueue _ _ _) as [q|]; [right|by left]. exists q. split; [exact Hs|done].
Qed.

(** ** Properties of ping *)

(** What can happen to a client's pings: calls of [ping] begin, fail to send and
    end; replies are handled; the client is stopped. *)
Inductive PingEvent :=
| PingBegun (nodeId : NodeID) (nonce : bytes) (now : DateTime.t)
| PingUnsent (nonce : bytes)
| PingReplied (reply : PingReply.t)
| PingEnded (nonce : bytes)
| ClientStopped.

Definition ping_event (c : RSPClient) (ev : PingEvent) : RSPClient :=
  match ev with
  | PingBegun nodeId nonce now => (ping_begin c nodeId nonce now).2
  | PingUnsent nonce => ping_unsent c nonce
  | PingReplied reply => handlePingReply c reply
  | PingEnded nonce => (ping_end c nonce).2
  | ClientStopped => mkClient (connections_ c) true (pendingPings_ c) (nextPingSequence_ c)
  end.

(** Events of other calls of [ping]: every call has its own random id. *)
Definition of_others (nonce : bytes) (ev : PingEvent) : bool :=
  match ev with
  | PingBegun _ n _ | PingUnsent n | PingEnded n => negb (bool_decide (n = nonce))
  | _ => true
  end.

Definition answers (nonce : bytes) (sequence : Z) (ev : PingEvent) : bool :=
  match ev with
  | PingReplied reply => bool_decide (PingReply.nonce reply = Some nonce) && (PingReply.sequence reply =? sequence)
  | _ => false
  end.

Definition stops (ev : PingEvent) : bool := match ev with ClientStopped => true | _ => false end.

(** One event and the entry of a ping it does not belong to. *)
Lemma ping_event_entry c nonce ev p :
  of_others nonce ev = true -> pendingPings_ c !! nonce = Some p ->
  pendingPings_ (ping_event c ev) !! nonce
    = Some (mkPendingPing (pp_destination p) (pp_sequence p) (completed p || answers nonce (pp_sequence p) ev))
  /\ stopping_ (ping_event c ev) = stopping_ c || stops ev.
Proof.
  intros Ho Hp. destruct p as [d sq cm]. destruct ev as [id n now|n|reply|n|]; cbn [of_others] in Ho;
    rewrite ?negb_true_iff, ?bool_decide_eq_false in Ho; cbn [pp_destination pp_sequence completed answers stops ping_event];
    rewrite ?orb_false_r, ?orb_true_r.
  - cbn. split; [|done]. destruct (pendingPings_ c !! n); [done|]. by rewrite lookup_insert_ne.
  - cbn. by rewrite lookup_delete_ne.
  - unfold handlePingReply. destruct (PingReply.nonce reply) as [n|] eqn:Hn.
    2: { rewrite bool_decide_eq_false_2 by done. by rewrite orb_false_r. }
    destruct (decide (n = nonce)) as [->|Hne].
    + rewrite Hp. rewrite bool_decide_eq_true_2 by done. cbn [pp_sequence andb].
      destruct (PingReply.sequence reply =? sq); cbn [negb].
      * cbn. by rewrite lookup_insert_eq, orb_true_r.
      * by rewrite orb_false_r.
    + rewrite bool_decide_eq_false_2 by congruence. cbn [andb]. rewrite orb_false_r.
      destruct (pendingPings_ c !! n); [|done]. destruct (negb _); [done|]. cbn. by rewrite lookup_insert_ne.
  - cbn. by rewrite lookup_delete_ne.
  - done.
Qed.

Lemma ping_events_entry evs c nonce p :
  Forall (fun ev => of_others nonce ev = true) evs -> pendingPings_ c !! nonce = Some p ->
  pendingPings_ (foldl ping_event c evs) !! nonce
    = Some (mkPendingPing (pp_destination p) (pp_sequence p) (completed p || existsb (answers nonce (pp_sequence p)) evs))
  /\ stopping_ (foldl ping_event c evs) = stopping_ c || existsb stops evs.
Proof.
  intros Hev. revert c p. induction Hev as [|ev evs Ho _ IH]; intros c p Hp; cbn [foldl existsb].
  { rewrite !orb_false_r. by destruct p. }
  destruct (ping_event_entry c nonce ev p Ho Hp) as [Hp1 Hs1]. destruct (IH _ _ Hp1) as [-> ->].
  cbn [pp_destination pp_sequence completed]. by rewrite Hs1, !orb_assoc.
Qed.

Lemma ping_outcome c nodeId nonce now evs :
  pendingPings_ c !! nonce = None -> Forall (fun ev => of_others nonce ev = true) evs ->
  let c' := foldl ping_event (ping_begin c nodeId nonce now).2 evs in
  (ping_end c' nonce).1 = negb (stopping_ c || existsb stops evs) && existsb (answers nonce (nextPingSequence_ c)) evs
  /\ pendingPings_ (ping_end c' nonce).2 !! nonce = None.
Proof.
  intros Hnew Hev. unfold ping_begin. rewrite Hnew. cbn [snd]. set (c1 := mkClient _ _ _ _). cbv zeta.
  destruct (ping_events_entry evs c1 nonce (mkPendingPing nodeId (nextPingSequence_ c) false) Hev) as [Hp Hs].
  { cbn. by rewrite lookup_insert_eq. }
  unfold ping_end, ping_ready. rewrite Hp, Hs. cbn [completed pp_sequence orb c1 stopping_ fst snd]. split.
  - by destruct (stopping_ c || existsb stops evs), (existsb (answers nonce (nextPingSequence_ c)) evs).
  - cbn. apply lookup_delete_eq.
Qed.

(** What [ping] answers.  Whatever other pings, replies and a stop happen
    between its beginning and its end, a ping with a new id answers true exactly
    when the client has not been stopped and a reply with its id and its sequence
    number was handled meanwhile; it leaves no entry behind.  (Who sent the reply
    does not matter: the destination that is stored is never compared.) *)
Theorem ping_exact c nodeId nonce now evs :
  pendingPings_ c !! nonce = None -> Forall (fun ev => of_others nonce ev = true) evs ->
  let '(request, c1) := ping_begin c nodeId nonce now in
  let '(success, c2) := ping_end (foldl ping_event c1 evs) nonce in
  RSPMessage.destination request = Some (toProtoNodeId nodeId)
  /\ success = negb (stopping_ c || existsb stops evs) && existsb (answers nonce (nextPingSequence_ c)) evs
  /\ pendingPings_ c2 !! nonce = None.
Proof.
  intros Hnew Hev. pose proof (ping_outcome c nodeId nonce now evs Hnew Hev) as Ho. cbv zeta in Ho.
  destruct (ping_begin c nodeId nonce now) as [request c1] eqn:Hb. cbn [snd] in Ho.
  destruct (ping_end _ nonce) as [success c2]. split; [|exact Ho]. unfold ping_begin in Hb. by injection Hb as <- _.
Qed.

(** The node's handler gives a ping reply to the client. *)
Lemma client_takes_reply local (n : ClientNode) env m reply :
  RSPMessage.core_message m = Some (PingReplyMessage reply) ->
  handleMessage local n env m = Ok ([], set_specific n (handlePingReply (specific_ n) reply)).
Proof. intros Hc. unfold handleMessage. rewrite Hc. cbn. unfold client_handleNodeSpecificMessage. by rewrite Hc. Qed.

(** A ping between two clients succeeds.  When a client's ping request, however
    it was routed and signed, is handled by another client, that client answers it
    with one message and stays as it is; and when the client that pinged handles
    that answer, however it was routed and signed, before its time is over, with any
    pings, replies and no stop before and after, the ping answers true. *)
Theorem ping_is_answered here there (a b : ClientNode) env env' nodeId nonce now evs evs' m m' :
  let c := specific_ a in
  let ping := ping_begin c nodeId nonce now in
  stopping_ c = false -> pendingPings_ c !! nonce = None ->
  Forall (fun ev => of_others nonce ev = true /\ stops ev = false) (evs ++ evs') ->
  RSPMessage.core_message m = RSPMessage.core_message ping.1 ->
  exists r, handleMessage there b env m = Ok ([r], b)
    /\ (RSPMessage.core_message m' = RSPMessage.core_message r ->
        exists a', handleMessage here (set_specific a (foldl ping_event ping.2 evs)) env' m' = Ok ([], a')
          /\ (ping_end (foldl ping_event (specific_ a') evs') nonce).1 = true).
Proof.
  intros c ping Hstop Hnew Hev Hm. cbn in Hm.
  assert (Hd : declines m) by (intros sp; cbn; unfold client_handleNodeSpecificMessage; by rewrite Hm).
  exists (defaultReply m (env_now env)). split; [apply default_reply_sent; [done|by rewrite Hm]|]. intros Hm'.
  unfold defaultReply in Hm'. rewrite Hm in Hm'. cbn in Hm'. set (reply := PingReply.mk _ _ _ _) in Hm'.
  exists (set_specific (set_specific a (foldl ping_event ping.2 evs)) (handlePingReply (foldl ping_event ping.2 evs) reply)).
  split; [by rewrite (client_takes_reply _ _ _ _ reply Hm')|]. cbn [specific_ set_specific].
  rewrite Forall_app in Hev. destruct Hev as [Hev Hev'].
  assert (Hquiet : forall l, Forall (fun ev => of_others nonce ev = true /\ stops ev = false) l -> existsb stops l = false).
  { induction 1 as [|x l [_ Hx] _ IH]; [done|]. cbn. by rewrite Hx. }
  destruct (ping_outcome c nodeId nonce now (evs ++ PingReplied reply :: evs') Hnew) as [Hs _].
  { apply Forall_app. split; [eapply Forall_impl; [exact Hev|by intros ? []]|].
    constructor; [done|]. eapply Forall_impl; [exact Hev'|by intros ? []]. }
  rewrite foldl_app in Hs. cbn [foldl ping_event] in Hs. etransitivity; [exact Hs|].
  rewrite Hstop, !existsb_app. cbn [existsb stops answers]. rewrite !Hquiet by done. cbn.
  rewrite bool_decide_eq_true_2, Z.eqb_refl by done. by rewrite orb_true_r.
Qed.
End ClientNode.

(** ** Witnesses *)
#[local] Existing Instances ToyCodec.toy_codec ToyCrypto.toy ToyCrypto.toy_laws toy_agreement
  ToyReflection.toy_reflection x86_math.

Definition sample_client : RSPNode (S := client_specific) (Callback := unit) :=
  mkNode ToyCrypto.alice (bs "boot") (IdentityCache_new 1024) initial_aes (SubscriptionManager_new (mkGUID 1 1)) initial_client.

Definition other_ping : PingEvent := PingBegun (mkGUID 9 9) (bs "other") aes_now.

Lemma ping_exact_witness :
  (ping_end (foldl ping_event (ping_begin initial_client (mkGUID 2 2) (bs "mine") aes_now).2
    [other_ping; PingReplied (PingReply.mk (Some (bs "mine")) 1 None None)]) (bs "mine")).1 = true.
Proof.
  pose proof (ping_exact initial_client (mkGUID 2 2) (bs "mine") aes_now
    [other_ping; PingReplied (PingReply.mk (Some (bs "mine")) 1 None None)]) as Hx.
  destruct (ping_begin initial_client (mkGUID 2 2) (bs "mine") aes_now) as [request c1]. cbn [snd].
  destruct (ping_end _ (bs "mine")) as [success c2]. cbn [fst]. destruct Hx as (_ & -> & _).
  - reflexivity.
  - repeat constructor.
  - reflexivity.
Defined.

Lemma ping_is_answered_witness :
  exists r a', handleMessage (mkGUID 2 2) sample_client sample_env
      (ping_begin initial_client (mkGUID 2 2) (bs "mine") aes_now).1 = Ok ([r], sample_client)
    /\ handleMessage (mkGUID 1 1)
         (set_specific sample_client (foldl ping_event (ping_begin initial_client (mkGUID 2 2) (bs "mine") aes_now).2 [other_ping]))
         sample_env r = Ok ([], a')
    /\ (ping_end (foldl ping_event (specific_ a') []) (bs "mine")).1 = true.
Proof.
  destruct (handleMessage (mkGUID 2 2) sample_client sample_env
      (ping_begin initial_client (mkGUID 2 2) (bs "mine") aes_now).1) as [[[|r []] b]| | |] eqn:Hh;
    try (vm_compute in Hh; discriminate Hh).
  destruct (ping_is_answered (mkGUID 1 1) (mkGUID 2 2) sample_client sample_client sample_env sample_env
    (mkGUID 2 2) (bs "mine") aes_now [other_ping] [] (ping_begin initial_client (mkGUID 2 2) (bs "mine") aes_now).1 r)
    as (r' & Hr & Ha).
  - reflexivity.
  - reflexivity.
  - repeat constructor.
  - reflexivity.
  - assert (Heq : Ok ([r'], sample_client) = Ok ([r], b)) by (rewrite <- Hr; exact Hh). injection Heq as -> <-.
    destruct (Ha eq_refl) as (a' & H1 & H2). exists r, a'. split; [reflexivity|]. split; [exact H1|exact H2].
Defined.
