(* ===== verification/Reconnect.v ===== *)
(** * client/cpp_full/rsp_client.cpp: the life of a connection

    A connection of [RSPClient] is an entry of [connections_] with an encoding, a
    signing queue and a [ReconnectContext].  Four kinds of threads work on it:

    - the caller of [connectToResourceManager], which starts encoding and queue,
      enters them and calls [enableReconnect];
    - the read thread of an encoding, which calls [triggerReconnect] when the
      connection is lost and the disconnect callback is set;
    - the reconnect thread, which runs [doReconnect];
    - the caller of [removeConnection] or [stop], which takes the entry out and
      stops what belongs to it.

    [Sys] is the state of one connection and the positions of these threads; an
    [Action] lets one of them run to its next synchronisation (a critical section
    of [connectionsMutex_], an access to [stopping] or [inProgress], [threadMutex],
    a join).  Only the remover holds [threadMutex] across actions, while it joins;
    so the mutex is free unless the remover is at [RmJoin].  What the network and
    the handshake do is chosen by the actions.  The user's [onReconnected] callback
    is not modelled. *)

From S2P Require Import Prelude.

(** ** Encodings (common/encoding/encoding.cpp)

    [Running]: the read thread reads.  [Lost]: it has met a read error while
    running and is about to look at the disconnect callback (line 181).  [Ended]: it
    has ended, or the encoding was stopped. *)
Inductive Phase := Running | Lost | Ended.
Record Enc := mkEnc { phase : Phase; callback : bool }.

(** ** Threads *)

(** [triggerReconnect]: before the test of [stopping], before the exchange of
    [inProgress], before [threadMutex] is locked. *)
Inductive TriggerPc := TCheck | TSwap | TLock.

(** [doReconnect] *)
Inductive ThreadPc :=
| ThStart                     (** line 438 *)
| ThCheck                     (** line 449 *)
| ThLoop                      (** line 464 *)
| ThConnect                   (** line 465 *)
| ThShake                     (** lines 471-541 *)
| ThSleep                     (** line 546, before the lock *)
| ThSleeping                  (** line 547, waiting *)
| ThReady (e : nat)           (** line 552 *)
| ThStartEnc (e : nat)        (** line 557 *)
| ThQueue (e : nat)           (** line 563 *)
| ThInstall (e q : nat)       (** line 579 *)
| ThOldQueue (e oldE oldQ : nat)  (** line 594 *)
| ThOldEncoding (e oldE : nat)    (** line 597 *)
| ThCallback (e : nat)        (** line 601 *)
| ThFinish                    (** line 606 *)
| ThDone.

(** [removeConnection], and [stop] for one of its connections *)
Inductive RemoverPc :=
| RmIdle
| RmTaken (e q : nat)         (** line 363: the entry is erased *)
| RmStop (e q : nat)          (** line 368: [stopping] is set *)
| RmLock (e q : nat)          (** line 372 *)
| RmJoin (e q : nat)          (** line 375, holding [threadMutex] *)
| RmEncoding (e q : nat)      (** line 379 *)
| RmQueue (q : nat)           (** line 383 *)
| RmDone.

Record Sys := mkSys {
  entry : option (nat * nat);             (** encoding and signing queue in [connections_] *)
  stopping : bool;
  inProgress : bool;
  thread : option ThreadPc;               (** [ctx->thread]; [None] when not joinable *)
  triggers : list (nat * TriggerPc);      (** read threads inside [triggerReconnect] *)
  enablers : list nat;                    (** calls of [enableReconnect] before line 409 *)
  remover : RemoverPc;
  connector : option (nat * nat);         (** started and not entered yet *)
  encodings : gmap nat Enc;
  running : list nat;                     (** signing queues that run *)
  fresh : nat }.

(** [connectToResourceManager] after line 265. *)
Definition connected : Sys :=
  mkSys None true false None [] [] RmIdle (Some (0, 1)%nat) {[0%nat := mkEnc Running false]} [1%nat] 2.

Definition set_thread (s : Sys) (pc : ThreadPc) : Sys :=
  mkSys (entry s) (stopping s) (inProgress s) (Some pc) (triggers s) (enablers s) (remover s) (connector s) (encodings s)
    (running s) (fresh s).
Definition set_triggers (s : Sys) (l : list (nat * TriggerPc)) : Sys :=
  mkSys (entry s) (stopping s) (inProgress s) (thread s) l (enablers s) (remover s) (connector s) (encodings s)
    (running s) (fresh s).
Definition set_remover (s : Sys) (pc : RemoverPc) : Sys :=
  mkSys (entry s) (stopping s) (inProgress s) (thread s) (triggers s) (enablers s) pc (connector s) (encodings s)
    (running s) (fresh s).
Definition set_encodings (s : Sys) (m : gmap nat Enc) : Sys :=
  mkSys (entry s) (stopping s) (inProgress s) (thread s) (triggers s) (enablers s) (remover s) (connector s) m
    (running s) (fresh s).
Definition set_running (s : Sys) (l : list nat) : Sys :=
  mkSys (entry s) (stopping s) (inProgress s) (thread s) (triggers s) (enablers s) (remover s) (connector s) (encodings s)
    l (fresh s).

(** The end of [doReconnect]: [inProgress] is cleared and the thread returns. *)
Definition finish (s : Sys) : Sys :=
  mkSys (entry s) (stopping s) false (Some ThDone) (triggers s) (enablers s) (remover s) (connector s) (encodings s)
    (running s) (fresh s).

Definition mutex_free (s : Sys) : bool := match remover s with RmJoin _ _ => false | _ => true end.

(** The read thread of an encoding has returned or will return by itself:
    [Encoding::stop] can join it. *)
Definition reader_idle (s : Sys) (e : nat) : bool :=
  match encodings s !! e with Some (mkEnc Lost _) => false | _ => true end
  && forallb (fun t => negb (Nat.eqb t.1 e)) (triggers s).

Definition stop_encoding (e : nat) (m : gmap nat Enc) : gmap nat Enc :=
  match m !! e with Some enc => <[e := mkEnc Ended (callback enc)]> m | None => m end.
Definition set_callback (e : nat) (m : gmap nat Enc) : gmap nat Enc :=
  match m !! e with Some enc => <[e := mkEnc (phase enc) true]> m | None => m end.
Definition stop_queue (q : nat) (l : list nat) : list nat := List.filter (fun x => negb (Nat.eqb x q)) l.

(** ** Steps of the threads *)

(** [readLoop] lines 166-174 and 181-192. *)
Definition lose (s : Sys) (e : nat) : option Sys :=
  match encodings s !! e with
  | Some (mkEnc Running cb) => Some (set_encodings s (<[e := mkEnc Lost cb]> (encodings s)))
  | _ => None
  end.

Definition notify (s : Sys) (e : nat) : option Sys :=
  match encodings s !! e with
  | Some (mkEnc Lost cb) =>
      let s' := set_encodings s (<[e := mkEnc Ended cb]> (encodings s)) in
      Some (if cb then set_triggers s' (triggers s ++ [(e, TCheck)]) else s')
  | _ => None
  end.

(** [triggerReconnect]; the read thread at position [i] of the list. *)
Definition trigger_step (s : Sys) (i : nat) : option Sys :=
  '(e, pc) ← triggers s !! i;
  let returned := delete i (triggers s) in
  match pc with
  | TCheck => Some (if stopping s then set_triggers s returned else set_triggers s (<[i := (e, TSwap)]> (triggers s)))
  | TSwap =>
      Some (if inProgress s then set_triggers s returned
            else mkSys (entry s) (stopping s) true (thread s) (<[i := (e, TLock)]> (triggers s)) (enablers s) (remover s)
                   (connector s) (encodings s) (running s) (fresh s))
  | TLock => if mutex_free s then Some (set_thread (set_triggers s returned) ThStart) else None
  end.

(** What the reconnect thread meets outside the client. *)
Inductive Shake := NotPushed | ShakeFailed | ShakeDone.
Record Outside := mkOutside { reconnected : bool; shake : Shake; starts : bool }.

Definition thread_step (s : Sys) (o : Outside) : option Sys :=
  match thread s with
  | None | Some ThDone => None
  | Some ThStart => Some match entry s with None => finish s | Some _ => set_thread s ThCheck end
  | Some ThCheck => Some (if stopping s then finish s else set_thread s ThLoop)
  | Some ThLoop => Some (if stopping s then finish s else set_thread s ThConnect)
  | Some ThConnect => Some (if negb (reconnected o) || stopping s then finish s else set_thread s ThShake)
  | Some ThShake =>
      Some match shake o with
           | NotPushed => finish s
           | ShakeFailed => set_thread s ThSleep
           | ShakeDone =>
               mkSys (entry s) (stopping s) (inProgress s) (Some (ThReady (fresh s))) (triggers s) (enablers s) (remover s)
                 (connector s) (encodings s) (running s) (S (fresh s))
           end
  | Some ThSleep => if mutex_free s then Some (set_thread s (if stopping s then ThLoop else ThSleeping)) else None
  | Some ThSleeping => if mutex_free s then Some (set_thread s ThLoop) else None
  | Some (ThReady e) => Some (if stopping s then finish s else set_thread s (ThStartEnc e))
  | Some (ThStartEnc e) =>
      Some (if starts o then set_thread (set_encodings s (<[e := mkEnc Running false]> (encodings s))) (ThQueue e)
            else finish s)
  | Some (ThQueue e) =>
      Some (mkSys (entry s) (stopping s) (inProgress s) (Some (ThInstall e (fresh s))) (triggers s) (enablers s) (remover s)
              (connector s) (encodings s) (fresh s :: running s) (S (fresh s)))
  | Some (ThInstall e q) =>
      match entry s, stopping s with
      | Some (oldE, oldQ), false =>
          Some (mkSys (Some (e, q)) (stopping s) (inProgress s) (Some (ThOldQueue e oldE oldQ)) (triggers s) (enablers s)
                  (remover s) (connector s) (encodings s) (running s) (fresh s))
      | _, _ =>
          if reader_idle s e
          then Some (finish (set_running (set_encodings s (stop_encoding e (encodings s))) (stop_queue q (running s))))
          else None
      end
  | Some (ThOldQueue e oldE oldQ) => Some (set_thread (set_running s (stop_queue oldQ (running s))) (ThOldEncoding e oldE))
  | Some (ThOldEncoding e oldE) =>
      if reader_idle s oldE
      then Some (set_thread (set_encodings s (stop_encoding oldE (encodings s))) (ThCallback e)) else None
  | Some (ThCallback e) => Some (set_thread (set_encodings s (set_callback e (encodings s))) ThFinish)
  | Some ThFinish => Some (finish s)
  end.

Definition remover_step (s : Sys) : option Sys :=
  match remover s with
  | RmIdle =>
      '(e, q) ← entry s;
      Some (mkSys None (stopping s) (inProgress s) (thread s) (triggers s) (enablers s) (RmTaken e q) (connector s)
              (encodings s) (running s) (fresh s))
  | RmTaken e q =>
      Some (mkSys (entry s) true (inProgress s) (thread s) (triggers s) (enablers s) (RmStop e q) (connector s)
              (encodings s) (running s) (fresh s))
  | RmStop e q => Some (set_remover s (RmLock e q))
  | RmLock e q => Some (set_remover s match thread s with None => RmEncoding e q | Some _ => RmJoin e q end)
  | RmJoin e q =>
      match thread s with
      | Some ThDone =>
          Some (mkSys (entry s) (stopping s) (inProgress s) None (triggers s) (enablers s) (RmEncoding e q) (connector s)
                  (encodings s) (running s) (fresh s))
      | _ => None
      end
  | RmEncoding e q =>
      if reader_idle s e
      then Some (set_remover (set_encodings s (stop_encoding e (encodings s))) (RmQueue q)) else None
  | RmQueue q => Some (set_remover (set_running s (stop_queue q (running s))) RmDone)
  | RmDone => None
  end.

(** [connections_.emplace] of [connectToResourceManager]. *)
Definition insert_step (s : Sys) : option Sys :=
  '(e, q) ← connector s;
  Some (mkSys (Some (e, q)) (stopping s) (inProgress s) (thread s) (triggers s) (enablers s) (remover s) None
          (encodings s) (running s) (fresh s)).

(** [enableReconnect]: the critical section, then [setDisconnectCallback]. *)
Definition enable_begin (s : Sys) : option Sys :=
  '(e, _) ← entry s;
  Some (mkSys (entry s) false (inProgress s) (thread s) (triggers s) (enablers s ++ [e]) (remover s) (connector s)
          (encodings s) (running s) (fresh s)).

Definition enable_end (s : Sys) (i : nat) : option Sys :=
  e ← enablers s !! i;
  Some (mkSys (entry s) (stopping s) (inProgress s) (thread s) (triggers s) (delete i (enablers s)) (remover s) (connector s)
          (set_callback e (encodings s)) (running s) (fresh s)).

Inductive Action :=
| Insert | EnableBegin | EnableEnd (i : nat)
| Lose (e : nat) | Notify (e : nat) | Trigger (i : nat)
| Reconnect (o : Outside) | Remove.

Definition act (s : Sys) (a : Action) : option Sys :=
  match a with
  | Insert => insert_step s
  | EnableBegin => enable_begin s
  | EnableEnd i => enable_end s i
  | Lose e => lose s e
  | Notify e => notify s e
  | Trigger i => trigger_step s i
  | Reconnect o => thread_step s o
  | Remove => remover_step s
  end.

Fixpoint acts (s : Sys) (l : list Action) : option Sys :=
  match l with
  | [] => Some s
  | a :: l' => s' ← act s a; acts s' l'
  end.

Definition reaches (s s' : Sys) : Prop := exists l, acts s l = Some s'.

(** ** Who owns what *)
Definition remover_queue (pc : RemoverPc) : list nat :=
  match pc with
  | RmTaken _ q | RmStop _ q | RmLock _ q | RmJoin _ q | RmEncoding _ q | RmQueue q => [q]
  | RmIdle | RmDone => []
  end.
Definition remover_encoding (pc : RemoverPc) : list nat :=
  match pc with RmTaken e _ | RmStop e _ | RmLock e _ | RmJoin e _ | RmEncoding e _ => [e] | _ => [] end.
Definition thread_queue (t : option ThreadPc) : list nat :=
  match t with Some (ThInstall _ q) => [q] | Some (ThOldQueue _ _ oldQ) => [oldQ] | _ => [] end.
Definition thread_encoding (t : option ThreadPc) : list nat :=
  match t with
  | Some (ThQueue e) | Some (ThInstall e _) => [e]
  | Some (ThOldQueue _ oldE _) | Some (ThOldEncoding _ oldE) => [oldE]
  | _ => []
  end.
Definition pair_queue (p : option (nat * nat)) : list nat := match p with Some (_, q) => [q] | None => [] end.
Definition pair_encoding (p : option (nat * nat)) : list nat := match p with Some (e, _) => [e] | None => [] end.

(** A signing queue or a running encoding belongs to the entry, to the remover, to
    the reconnect thread or to the caller that connects. *)
Definition owned_queues (s : Sys) : list nat :=
  pair_queue (entry s) ++ remover_queue (remover s) ++ thread_queue (thread s) ++ pair_queue (connector s).
Definition owned_encodings (s : Sys) : list nat :=
  pair_encoding (entry s) ++ remover_encoding (remover s) ++ thread_encoding (thread s) ++ pair_encoding (connector s).

Definition thread_active (t : option ThreadPc) : bool := match t with None | Some ThDone => false | _ => true end.
Definition is_lock (t : nat * TriggerPc) : bool := match t.2 with TLock => true | _ => false end.

Definition locked (l : list (nat * TriggerPc)) : nat := List.length (List.filter is_lock l).

(** The reconnect thread and the read threads that are about to start one. *)
Definition reconnecting (s : Sys) : nat := (Nat.b2n (thread_active (thread s)) + locked (triggers s))%nat.

Record sys_inv (s : Sys) : Prop := {
  inv_queues : running s ≡ₚ owned_queues s;
  inv_distinct : NoDup (running s);
  inv_fresh : Forall (fun q => q < fresh s)%nat (running s);
  inv_encodings : forall e enc, encodings s !! e = Some enc -> phase enc = Running -> e ∈ owned_encodings s;
  inv_single : reconnecting s = Nat.b2n (inProgress s);
  inv_entered : connector s = None \/ entry s = None;
  inv_removed : remover s = RmIdle \/ entry s = None /\ connector s = None }.

Lemma stop_queue_perm q l l' : NoDup l -> l ≡ₚ q :: l' -> stop_queue q l ≡ₚ l'.
Proof.
  intros Hnd Hp. unfold stop_queue.
  assert (Hf : forall l1 l2 : list nat, l1 ≡ₚ l2 ->
    List.filter (fun x => negb (Nat.eqb x q)) l1 ≡ₚ List.filter (fun x => negb (Nat.eqb x q)) l2).
  { induction 1; cbn; repeat (destruct (Nat.eqb _ _); cbn); eauto using Permutation. }
  rewrite (Hf _ _ Hp). cbn. rewrite Nat.eqb_refl. cbn. rewrite Hp in Hnd. apply NoDup_cons in Hnd as [Hq _].
  clear Hp Hf. induction l' as [|x l' IH]; [done|]. apply not_elem_of_cons in Hq as [Hx Hq]. cbn.
  destruct (Nat.eqb_spec x q); [congruence|]. cbn. by rewrite IH.
Qed.

Lemma stop_queue_incl q l x : x ∈ stop_queue q l -> x ∈ l.
Proof. unfold stop_queue. rewrite !list_elem_of_In, filter_In. tauto. Qed.

Lemma stop_queue_distinct q l : NoDup l -> NoDup (stop_queue q l).
Proof.
  unfold stop_queue. induction 1 as [|x l Hx _ IH]; cbn; [constructor|]. destruct (negb _); [|done]. constructor; [|done].
  by intros ?%(stop_queue_incl q).
Qed.

Lemma stop_queue_fresh n q l : Forall (fun x => x < n)%nat l -> Forall (fun x => x < n)%nat (stop_queue q l).
Proof. rewrite !Forall_forall. intros Hl x Hx. by eapply Hl, stop_queue_incl. Qed.

Lemma stopped_encoding e m e' enc :
  stop_encoding e m !! e' = Some enc -> phase enc = Running -> e' <> e /\ m !! e' = Some enc.
Proof.
  unfold stop_encoding. destruct (m !! e) as [old|] eqn:He.
  - destruct (decide (e' = e)) as [->|Hne].
    + rewrite lookup_insert_eq. by intros [= <-].
    + by rewrite lookup_insert_ne.
  - intros Hm Hr. split; [congruence|done].
Qed.

Lemma callback_phase e m e' enc :
  set_callback e m !! e' = Some enc -> exists old, m !! e' = Some old /\ phase old = phase enc.
Proof.
  unfold set_callback. destruct (m !! e) as [old|] eqn:He; [|by eauto].
  destruct (decide (e' = e)) as [->|Hne].
  - rewrite lookup_insert_eq. intros [= <-]. eauto.
  - rewrite lookup_insert_ne by done. eauto.
Qed.

(** Counting the read threads before the lock. *)
Lemma locked_cons t l : locked (t :: l) = (Nat.b2n (is_lock t) + locked l)%nat.
Proof. unfold locked. cbn. by destruct (is_lock t). Qed.

Lemma locked_delete l i t : l !! i = Some t -> locked l = (Nat.b2n (is_lock t) + locked (delete i l))%nat.
Proof.
  revert i. induction l as [|x l IH]; intros [|i] Hl; try done.
  - injection Hl as ->. apply locked_cons.
  - change (delete (S i) (x :: l)) with (x :: delete i l). rewrite !locked_cons, (IH i Hl). lia.
Qed.

Lemma locked_insert l i t t' : l !! i = Some t -> locked (<[i := t']> l) = (Nat.b2n (is_lock t') + locked (delete i l))%nat.
Proof.
  revert i. induction l as [|x l IH]; intros [|i] Hl; try done.
  - apply locked_cons.
  - change (<[S i := t']> (x :: l)) with (x :: <[i := t']> l). change (delete (S i) (x :: l)) with (x :: delete i l).
    rewrite !locked_cons, (IH i Hl). lia.
Qed.

Lemma locked_app l t : locked (l ++ [t]) = (locked l + Nat.b2n (is_lock t))%nat.
Proof. unfold locked. rewrite List.filter_app, length_app. cbn. by destruct (is_lock t). Qed.

(** *** Every action preserves the invariant *)
Lemma inactive_owns t : thread_active t = false -> thread_queue t = [] /\ thread_encoding t = [].
Proof. by destruct t as [[]|]. Qed.

Lemma inv_connected : sys_inv connected.
Proof.
  split; cbn; try done; try (by left); try (by right).
  - apply NoDup_singleton.
  - repeat constructor.
  - intros e enc He _. apply lookup_singleton_Some in He as [<- _]. by left.
Qed.

Lemma trigger_step_inv s i s' : sys_inv s -> trigger_step s i = Some s' -> sys_inv s'.
Proof.
  intros [Hq Hd Hf He Hs Hc Hr]. unfold trigger_step. destruct (triggers s !! i) as [[e pc]|] eqn:Ht; [|done].
  cbn [mbind option_bind]. unfold reconnecting in Hs. pose proof (locked_delete _ _ _ Ht) as Hl.
  pose proof (fun pc' => locked_insert _ _ _ (e, pc') Ht) as Hi.
  destruct pc; cbn [is_lock snd Nat.b2n] in Hl.
  - intros [= <-]. destruct (stopping s); (split; try done); unfold reconnecting; cbn [thread triggers inProgress set_triggers].
    + lia.
    + rewrite Hi. cbn [is_lock snd Nat.b2n]. lia.
  - intros [= <-]. destruct (inProgress s) eqn:Hp; (split; try done); unfold reconnecting; cbn [thread triggers inProgress set_triggers].
    + rewrite Hp. lia.
    + rewrite Hi. cbn [is_lock snd Nat.b2n] in *. lia.
  - destruct (mutex_free s); [|done]. intros [= <-].
    assert (Ha : thread_active (thread s) = false).
    { destruct (thread_active (thread s)), (inProgress s); cbn [Nat.b2n] in Hs; (done || lia). }
    destruct (inactive_owns _ Ha) as [Htq Hte]. unfold owned_queues, owned_encodings in *. rewrite Htq in Hq. rewrite Hte in He.
    split; try done. unfold reconnecting. cbn [thread triggers inProgress set_triggers set_thread thread_active Nat.b2n].
    rewrite Ha in Hs. cbn [Nat.b2n] in Hs. lia.
Qed.

Lemma lose_inv s e s' : sys_inv s -> lose s e = Some s' -> sys_inv s'.
Proof.
  intros [Hq Hd Hf He Hs Hc Hr]. unfold lose. destruct (encodings s !! e) as [[[] cb]|] eqn:Hx; try done. intros [= <-].
  split; try done. cbn. intros e' enc. destruct (decide (e' = e)) as [->|Hne].
  - rewrite lookup_insert_eq. by intros [= <-].
  - rewrite lookup_insert_ne by done. apply He.
Qed.

Lemma notify_inv s e s' : sys_inv s -> notify s e = Some s' -> sys_inv s'.
Proof.
  intros [Hq Hd Hf He Hs Hc Hr]. unfold notify. destruct (encodings s !! e) as [[[] cb]|] eqn:Hx; try done. intros [= <-].
  assert (He' : forall e' enc, <[e := mkEnc Ended cb]> (encodings s) !! e' = Some enc -> phase enc = Running ->
    e' ∈ owned_encodings s).
  { intros e' enc. destruct (decide (e' = e)) as [->|Hne].
    - rewrite lookup_insert_eq. by intros [= <-].
    - rewrite lookup_insert_ne by done. apply He. }
  destruct cb; split; try done. unfold reconnecting in *. cbn [thread triggers inProgress set_triggers set_encodings].
  rewrite locked_app. cbn [is_lock snd Nat.b2n]. lia.
Qed.

Lemma connect_inv s a s' :
  sys_inv s -> match a with Insert | EnableBegin | EnableEnd _ => True | _ => False end -> act s a = Some s' -> sys_inv s'.
Proof.
  intros [Hq Hd Hf He Hs Hc Hr] Ha. destruct a as [| |i| | | | |]; try done; cbn [act].
  - unfold insert_step. destruct (connector s) as [[e q]|] eqn:Hcn; [|done]. cbn. intros [= <-].
    destruct Hc as [|Hent]; [done|]. destruct Hr as [Hr|[_ Hr]]; [|done].
    unfold owned_queues, owned_encodings in *. rewrite Hent, Hcn, Hr in *.
    split; try done; try (by left); unfold owned_queues, owned_encodings; cbn; rewrite ?Hr; cbn in *.
    + rewrite Hq. solve_Permutation.
    + intros e' enc H1 H2. specialize (He e' enc H1 H2). clear -He. set_solver.
  - unfold enable_begin. destruct (entry s) as [[e q]|] eqn:Hent; [|done]. cbn. intros [= <-].
    unfold owned_queues, owned_encodings in *. rewrite Hent in *.
    split; try done; unfold owned_queues, owned_encodings; cbn; by rewrite ?Hent.
  - unfold enable_end. destruct (enablers s !! i) as [e|]; [|done]. cbn. intros [= <-]. split; try done. cbn.
    intros e' enc (old & Ho & Hp)%callback_phase Hrun. eapply He; [exact Ho|congruence].
Qed.

(** The reconnect thread moves on and keeps what it owns. *)
Lemma set_thread_inv s t pc :
  sys_inv s -> thread s = Some t -> thread_active (Some t) = true -> thread_active (Some pc) = true ->
  thread_queue (Some pc) = thread_queue (Some t) -> thread_encoding (Some pc) = thread_encoding (Some t) ->
  sys_inv (set_thread s pc).
Proof.
  intros [Hq Hd Hf He Hs Hc Hr] Ht Ha Ha' Eq Ee. unfold owned_queues, owned_encodings, reconnecting in *. rewrite Ht in *.
  split; try done; unfold owned_queues, owned_encodings, reconnecting; cbn [thread set_thread entry remover connector triggers inProgress].
  - by rewrite Eq.
  - by rewrite Ee.
  - by rewrite Ha', Ha in *.
Qed.

(** It returns when it owns nothing. *)
Lemma finish_inv s t :
  sys_inv s -> thread s = Some t -> thread_active (Some t) = true ->
  thread_queue (Some t) = [] -> thread_encoding (Some t) = [] -> sys_inv (finish s).
Proof.
  intros [Hq Hd Hf He Hs Hc Hr] Ht Ha Eq Ee. unfold owned_queues, owned_encodings, reconnecting in *. rewrite Ht in *.
  rewrite Eq in Hq. rewrite Ee in He. rewrite Ha in Hs.
  split; try done; unfold reconnecting; cbn [thread finish triggers inProgress thread_active Nat.b2n] in *.
  destruct (inProgress s); cbn in Hs; lia.
Qed.

(** It gives up an encoding it has stopped. *)
Lemma drop_encoding_inv s t pc e :
  sys_inv s -> thread s = Some t -> thread_active (Some t) = true -> thread_active (Some pc) = true ->
  thread_queue (Some pc) = thread_queue (Some t) -> thread_encoding (Some t) = [e] -> thread_encoding (Some pc) = [] ->
  sys_inv (set_thread (set_encodings s (stop_encoding e (encodings s))) pc).
Proof.
  intros [Hq Hd Hf He Hs Hc Hr] Ht Ha Ha' Eq Ee Ee'. unfold owned_queues, owned_encodings, reconnecting in *. rewrite Ht in *.
  split; try done; unfold owned_queues, owned_encodings, reconnecting;
    cbn [thread set_thread set_encodings entry remover connector triggers inProgress encodings].
  - by rewrite Eq.
  - intros e' enc Hin Hrun. destruct (stopped_encoding _ _ _ _ Hin Hrun) as [Hne Hm]. specialize (He e' enc Hm Hrun). rewrite Ee in He. rewrite Ee'.
    clear -He Hne. set_solver.
  - by rewrite Ha', Ha in *.
Qed.

(** It gives up a queue it has stopped. *)
Lemma drop_queue_inv s t pc q :
  sys_inv s -> thread s = Some t -> thread_active (Some t) = true -> thread_active (Some pc) = true ->
  thread_queue (Some t) = [q] -> thread_queue (Some pc) = [] -> thread_encoding (Some pc) = thread_encoding (Some t) ->
  sys_inv (set_thread (set_running s (stop_queue q (running s))) pc).
Proof.
  intros [Hq Hd Hf He Hs Hc Hr] Ht Ha Ha' Eq Eq' Ee. unfold owned_queues, owned_encodings, reconnecting in *. rewrite Ht in *.
  split; try done; unfold owned_queues, owned_encodings, reconnecting;
    cbn [thread set_thread set_running entry remover connector triggers inProgress encodings running].
  - apply stop_queue_perm; [done|]. rewrite Hq, Eq, Eq'. solve_Permutation.
  - by apply stop_queue_distinct.
  - by apply stop_queue_fresh.
  - by rewrite Ee.
  - by rewrite Ha', Ha in *.
Qed.

(** It starts a queue of its own. *)
Lemma start_queue_inv s e :
  sys_inv s -> thread s = Some (ThQueue e) ->
  sys_inv (mkSys (entry s) (stopping s) (inProgress s) (Some (ThInstall e (fresh s))) (triggers s) (enablers s) (remover s)
             (connector s) (encodings s) (fresh s :: running s) (S (fresh s))).
Proof.
  intros [Hq Hd Hf He Hs Hc Hr] Ht. unfold owned_queues, owned_encodings, reconnecting in *. rewrite Ht in *.
  split; try done; unfold owned_queues, owned_encodings; cbn.
  - rewrite Hq. solve_Permutation.
  - constructor; [|done]. rewrite Forall_forall in Hf. intros Hin%Hf. lia.
  - constructor; [lia|]. eapply Forall_impl; [exact Hf|]. cbn. lia.
Qed.

(** It enters its encoding and queue and takes the old ones. *)
Lemma install_inv s e q oldE oldQ :
  sys_inv s -> thread s = Some (ThInstall e q) -> entry s = Some (oldE, oldQ) ->
  sys_inv (mkSys (Some (e, q)) (stopping s) (inProgress s) (Some (ThOldQueue e oldE oldQ)) (triggers s) (enablers s)
             (remover s) (connector s) (encodings s) (running s) (fresh s)).
Proof.
  intros [Hq Hd Hf He Hs Hc Hr] Ht Hent. unfold owned_queues, owned_encodings, reconnecting in *. rewrite Ht, Hent in *.
  split; try done; unfold owned_queues, owned_encodings; cbn.
  - rewrite Hq. cbn. solve_Permutation.
  - intros e' enc H1 H2. specialize (He e' enc H1 H2). cbn in He. clear -He. set_solver.
  - by left; destruct Hc.
  - by left; destruct Hr as [|[]].
Qed.

Lemma thread_step_inv s o s' : sys_inv s -> thread_step s o = Some s' -> sys_inv s'.
Proof.
  intros I. unfold thread_step. destruct (thread s) as [t|] eqn:Ht; [|done].
  assert (Hmove : forall pc, thread_active (Some t) = true -> thread_active (Some pc) = true ->
    thread_queue (Some pc) = thread_queue (Some t) -> thread_encoding (Some pc) = thread_encoding (Some t) ->
    sys_inv (set_thread s pc)) by (intros; by eapply set_thread_inv).
  assert (Hend : thread_active (Some t) = true -> thread_queue (Some t) = [] -> thread_encoding (Some t) = [] ->
    sys_inv (finish s)) by (intros; by eapply finish_inv).
  destruct t as [| | | | | | |e|e|e|e q|e oldE oldQ|e oldE|e| |]; try done.
  - intros [= <-]. destruct (entry s); auto.
  - intros [= <-]. destruct (stopping s); auto.
  - intros [= <-]. destruct (stopping s); auto.
  - intros [= <-]. destruct (negb _ || _); auto.
  - intros [= <-]. destruct (shake o); auto. destruct (set_thread_inv s _ (ThReady (fresh s)) I Ht) as [Hq Hd Hf He Hs Hc Hr];
      try done. split; try done. eapply Forall_impl; [exact Hf|]. cbn. lia.
  - destruct (mutex_free s); [|done]. intros [= <-]. destruct (stopping s); auto.
  - destruct (mutex_free s); [|done]. intros [= <-]. auto.
  - intros [= <-]. destruct (stopping s); auto.
  - intros [= <-]. destruct (starts o); [|by auto]. destruct I as [Hq Hd Hf He Hs Hc Hr].
    unfold owned_queues, owned_encodings, reconnecting in *. rewrite Ht in *.
    split; try done. unfold owned_encodings. cbn. intros e' enc. destruct (decide (e' = e)) as [->|Hne].
    + intros _ _. set_solver.
    + rewrite lookup_insert_ne by done. intros H1 H2. specialize (He e' enc H1 H2). cbn in He. clear -He. set_solver.
  - intros [= <-]. by apply start_queue_inv.
  - assert (Hstop : sys_inv (finish (set_running (set_encodings s (stop_encoding e (encodings s))) (stop_queue q (running s))))).
    { destruct I as [Hq Hd Hf He Hs Hc Hr]. unfold owned_queues, owned_encodings, reconnecting in *. rewrite Ht in *.
      cbn [thread_queue thread_encoding thread_active Nat.b2n] in *.
      split; try done; unfold owned_queues, owned_encodings, reconnecting;
        cbn [thread finish set_running set_encodings entry remover connector triggers inProgress encodings running
             thread_queue thread_encoding thread_active Nat.b2n].
      - apply stop_queue_perm; [done|]. rewrite Hq. solve_Permutation.
      - by apply stop_queue_distinct.
      - by apply stop_queue_fresh.
      - intros e' enc Hin Hrun. destruct (stopped_encoding _ _ _ _ Hin Hrun) as [Hne Hm]. specialize (He e' enc Hm Hrun). clear -He Hne. set_solver.
      - destruct (inProgress s); cbn [Nat.b2n] in Hs; lia. }
    destruct (entry s) as [[oldE oldQ]|] eqn:Hent; [destruct (stopping s) eqn:Hst|].
    + destruct (reader_idle s e); [|done]. by intros [= <-].
    + intros [= <-]. rewrite <- Hst. by apply install_inv.
    + destruct (reader_idle s e); [|done]. by intros [= <-].
  - intros [= <-]. by eapply drop_queue_inv.
  - destruct (reader_idle s oldE); [|done]. intros [= <-]. by eapply drop_encoding_inv.
  - intros [= <-]. destruct (set_thread_inv s _ ThFinish I Ht) as [Hq Hd Hf He Hs Hc Hr]; try done. split; try done.
    cbn. intros e' enc (old & Ho & Hp)%callback_phase Hrun. eapply He; [exact Ho|congruence].
  - intros [= <-]. auto.
Qed.

Lemma remover_step_inv s s' : sys_inv s -> remover_step s = Some s' -> sys_inv s'.
Proof.
  intros I. pose proof I as [Hq Hd Hf He Hs Hc Hr]. unfold remover_step. destruct (remover s) as [|e q|e q|e q|e q|e q|q|] eqn:Hrm; try done.
  - destruct (entry s) as [[e q]|] eqn:Hent; [|done]. cbn. intros [= <-].
    unfold owned_queues, owned_encodings in *. rewrite Hrm, Hent in *.
    split; try done; unfold owned_queues, owned_encodings; cbn; [by right|]. right. split; [done|]. by destruct Hc.
  - intros [= <-]. unfold owned_queues, owned_encodings in *. rewrite Hrm in *.
    split; try done; right; by destruct Hr.
  - intros [= <-]. unfold owned_queues, owned_encodings in *. rewrite Hrm in *.
    split; try done; right; by destruct Hr.
  - intros [= <-]. unfold owned_queues, owned_encodings in *. rewrite Hrm in *.
    destruct (thread s) eqn:Ht; split; try done; unfold owned_queues, owned_encodings; cbn [remover set_remover thread entry connector];
      rewrite ?Ht; try done; right; by destruct Hr.
  - destruct (thread s) as [[]|] eqn:Ht; try done. intros [= <-]. unfold owned_queues, owned_encodings, reconnecting in *.
    rewrite Hrm, Ht in *. split; try done; right; by destruct Hr.
  - destruct (reader_idle s e); [|done]. intros [= <-]. unfold owned_queues, owned_encodings in *. rewrite Hrm in *.
    split; try done; [|right; by destruct Hr]. unfold owned_encodings.
    cbn [remover set_remover set_encodings thread entry connector encodings remover_encoding] in *.
    intros e' enc Hin Hrun. destruct (stopped_encoding _ _ _ _ Hin Hrun) as [Hne Hm]. specialize (He e' enc Hm Hrun).
    clear -He Hne. set_solver.
  - intros [= <-]. unfold owned_queues, owned_encodings in *. rewrite Hrm in *.
    split; try done; unfold owned_queues, owned_encodings;
      cbn [remover set_remover set_running thread entry connector running remover_queue remover_encoding] in *.
    + apply stop_queue_perm; [done|]. rewrite Hq. solve_Permutation.
    + by apply stop_queue_distinct.
    + by apply stop_queue_fresh.
    + right. by destruct Hr.
Qed.

Lemma act_inv s a s' : sys_inv s -> act s a = Some s' -> sys_inv s'.
Proof.
  intros I Ha. destruct a; cbn [act] in Ha;
    eauto using trigger_step_inv, thread_step_inv, remover_step_inv, lose_inv, notify_inv.
  - by eapply (connect_inv s Insert).
  - by eapply (connect_inv s EnableBegin).
  - by eapply (connect_inv s (EnableEnd i)).
Qed.

Lemma acts_inv l s s' : sys_inv s -> acts s l = Some s' -> sys_inv s'.
Proof.
  revert s. induction l as [|a l IH]; intros s I; cbn; [by intros [= <-]|].
  destruct (act s a) as [s1|] eqn:Ha; [|done]. cbn. apply IH. by eapply act_inv.
Qed.

(** What the invariant says about the resources of a connection. *)
Definition resources_owned (s : Sys) : Prop :=
  (running s ≡ₚ owned_queues s /\ NoDup (running s))
  /\ (forall e enc, encodings s !! e = Some enc -> phase enc = Running -> e ∈ owned_encodings s)
  /\ reconnecting s = Nat.b2n (inProgress s)
  /\ (remover s = RmDone -> thread_active (thread s) = false ->
      running s = [] /\ forall e enc, encodings s !! e = Some enc -> phase enc <> Running)
  /\ (remover s = RmIdle -> thread_active (thread s) = false -> forall e q, entry s = Some (e, q) ->
      running s = [q] /\ forall e' enc, encodings s !! e' = Some enc -> phase enc = Running -> e' = e).

Lemma inv_resources s : sys_inv s -> resources_owned s.
Proof.
  intros [Hq Hd Hf He Hs Hc Hr]. unfold resources_owned.
  split_and!; try done.
  - intros Hrm Ha. destruct (inactive_owns _ Ha) as [Htq Hte]. destruct Hr as [|[Hent Hcn]]; [congruence|].
    unfold owned_queues, owned_encodings in *. rewrite Hrm, Htq, Hent, Hcn in Hq. rewrite Hrm, Hte, Hent, Hcn in He.
    split; [by apply Permutation_nil_r in Hq|]. intros e enc Hx Hrun. by apply (not_elem_of_nil e), (He e enc).
  - intros Hrm Ha e q Hent. destruct (inactive_owns _ Ha) as [Htq Hte]. destruct Hc as [Hcn|]; [|congruence].
    unfold owned_queues, owned_encodings in *. rewrite Hrm, Htq, Hent, Hcn in Hq. rewrite Hrm, Hte, Hent, Hcn in He.
    split; [by apply Permutation_singleton_r in Hq|]. intros e' enc Hx Hrun. specialize (He e' enc Hx Hrun).
    by apply list_elem_of_singleton in He.
Qed.

(** ** Properties *)

(** C10.  Queues and encodings are owned while connections are re-established and removed
    concurrently.  In every state that the threads can reach, each running signing
    queue has exactly one owner (the entry of the connection, the remover, the
    reconnect thread or the caller that connects), and so every owner's queue runs;
    every encoding that still reads is owned; at most one reconnect thread is at
    work or about to be started, exactly while [inProgress] is set.  When the
    connection has been removed and no reconnect thread is at work or about to be
    started, no queue and no encoding is left running; when it is entered and nobody
    works on it, exactly its own queue runs.  A removal can be over while a reconnect
    thread is about to run ([removal_can_leave_thread]). *)
Theorem reconnect_resources s : reaches connected s -> resources_owned s.
Proof. intros [l Hl]. apply inv_resources. by eapply acts_inv, Hl; apply inv_connected. Qed.

(** *** Findings *)

(** A set of states that no action leaves. *)
Definition closed (P : Sys -> Prop) : Prop := forall s a s', P s -> act s a = Some s' -> P s'.

Lemma closed_reaches P s s' : closed P -> P s -> reaches s s' -> P s'.
Proof.
  intros Hc HP [l Hl]. revert s HP Hl. induction l as [|a l IH]; intros s HP; cbn; [by intros [= <-]|].
  destruct (act s a) as [s1|] eqn:Ha; [|done]. cbn. apply IH. by eapply Hc.
Qed.

(** All branches of a step. *)
Ltac branches H :=
  unfold insert_step, enable_begin, enable_end, lose, notify, trigger_step, thread_step, remover_step, mutex_free, mbind,
    option_bind in H;
  repeat match type of H with context [match ?x with _ => _ end] => destruct x eqn:? end; try discriminate H;
  injection H as <-.

(** Only the remover moves the remover; a thread that exists stays until it is
    joined. *)
Lemma act_keeps s a s' :
  act s a = Some s' ->
  (remover s' = remover s \/ a = Remove) /\ (thread s <> None -> thread s' <> None \/ exists e q, remover s = RmJoin e q).
Proof.
  intros Ha. destruct a; cbn [act] in Ha; (split; [try (by right); left; branches Ha; done|]); intros Ht;
    try (left; branches Ha; cbn; congruence).
  destruct (remover s) eqn:Hrm; try (left; unfold remover_step in Ha; rewrite Hrm in Ha; branches Ha; cbn; congruence). right. eauto.
Qed.

(** The first connection, up to the set callback; then it is lost and a reconnect
    thread is started. *)
Definition opening : list Action := [Insert; EnableBegin; EnableEnd 0].
Definition losing (e : nat) : list Action := [Lose e; Notify e; Trigger 0; Trigger 0; Trigger 0].
Definition outside (r : bool) (h : Shake) : Outside := mkOutside r h true.

(** Finding.  Removing a connection can hang for ever.  The remover locks
    [threadMutex] and joins the reconnect thread while it holds the mutex; when the
    reconnect thread is pausing after a failed handshake (or about to), it needs the
    same mutex to wake up.  From the state that is reached, whatever happens, the
    remover waits. *)
Theorem removal_can_hang :
  exists s, reaches connected s /\ stopping s = true
    /\ forall s', reaches s s' -> exists e q, remover s' = RmJoin e q.
Proof.
  set (run := opening ++ losing 0 ++ replicate 4 (Reconnect (outside true NotPushed))
                ++ replicate 2 (Reconnect (outside true ShakeFailed)) ++ replicate 4 Remove).
  destruct (acts connected run) as [s|] eqn:Hrun; [|vm_compute in Hrun; discriminate Hrun].
  exists s. split; [by exists run|]. assert (Hs : stopping s = true /\ remover s = RmJoin 0 1 /\ thread s = Some ThSleeping).
  { vm_compute in Hrun. by injection Hrun as <-. }
  clear Hrun. destruct Hs as (Hst & Hrm & Hth). split; [done|]. intros s' Hr.
  enough (remover s' = RmJoin 0 1 /\ thread s' = Some ThSleeping) as [-> _] by eauto.
  refine (closed_reaches (fun s => remover s = RmJoin 0 1 /\ thread s = Some ThSleeping) s s' _ (conj Hrm Hth) Hr).
  clear. intros s a s' [Hrm Hth] Ha. destruct (act_keeps _ _ _ Ha) as [[-> | ->] _].
  - split; [done|]. destruct a; cbn [act] in Ha; try (by branches Ha).
    all: unfold trigger_step, thread_step, remover_step, mutex_free in Ha; rewrite ?Hth, ?Hrm in Ha; by branches Ha.
  - cbn [act] in Ha. unfold remover_step in Ha. by rewrite Hrm, Hth in Ha.
Qed.

(** Finding.  A removed connection can keep a thread.  A read thread that has
    set [inProgress] but not yet locked [threadMutex] starts its reconnect thread
    after the remover has looked for one to join.  The removal (or [stop], in the
    destructor of the client) returns with that thread about to run, and nobody ever
    joins it, so that destroying the context ends the process. *)
Theorem removal_can_leave_thread :
  exists s, reaches connected s /\ remover s = RmDone /\ thread s = Some ThStart
    /\ forall s', reaches s s' -> thread s' <> None.
Proof.
  set (run := opening ++ [Lose 0; Notify 0; Trigger 0; Trigger 0] ++ replicate 4 Remove ++ [Trigger 0; Remove; Remove]).
  destruct (acts connected run) as [s|] eqn:Hrun; [|vm_compute in Hrun; discriminate Hrun].
  exists s. split; [by exists run|]. assert (Hs : remover s = RmDone /\ thread s = Some ThStart).
  { vm_compute in Hrun. by injection Hrun as <-. }
  clear Hrun. destruct Hs as [Hrm Hth]. split; [exact Hrm|]. split; [exact Hth|]. intros s' Hr.
  refine (proj2 (closed_reaches (fun s => remover s = RmDone /\ thread s <> None) s s' _ _ Hr)); [|by rewrite Hrm, Hth].
  clear. intros s a s' [Hrm Hth] Ha. destruct (act_keeps _ _ _ Ha) as [Hkeep Ht]. split.
  - destruct Hkeep as [-> | ->]; [done|]. cbn [act] in Ha. unfold remover_step in Ha. by rewrite Hrm in Ha.
  - destruct (Ht Hth) as [|(e & q & Hj)]; [done|congruence].
Qed.

(** Finding.  A connection can be lost without being re-established.  The
    disconnect callback is set after the encoding was started; when the connection
    breaks in between, its read thread finds no callback.  The entry then stays in
    the table, with a signing queue that takes messages and an encoding that has
    ended, until somebody removes it: no reconnect thread is ever started. *)
Theorem lost_connection_stays :
  exists s e q, reaches connected s /\ entry s = Some (e, q) /\ running s = [q] /\ stopping s = false
    /\ forall s', reaches s s' ->
       (remover s' = RmIdle -> entry s' = Some (e, q))
       /\ thread s' = None /\ forall e' enc, encodings s' !! e' = Some enc -> phase enc = Ended.
Proof.
  set (run := [Insert; EnableBegin; Lose 0; Notify 0; EnableEnd 0]).
  destruct (acts connected run) as [s|] eqn:Hrun; [|vm_compute in Hrun; discriminate Hrun].
  set (P := fun s => (remover s = RmIdle -> entry s = Some (0, 1)%nat) /\ thread s = None /\ triggers s = [] /\ connector s = None
    /\ forall e enc, encodings s !! e = Some enc -> phase enc = Ended).
  exists s, 0%nat, 1%nat. split; [by exists run|].
  assert (HP : P s /\ entry s = Some (0, 1)%nat /\ running s = [1%nat] /\ stopping s = false).
  { vm_compute in Hrun. injection Hrun as <-. repeat split; try done. cbn. intros e enc He.
    change (({[0%nat := mkEnc Ended true]} : gmap nat Enc) !! e = Some enc) in He.
    by apply lookup_singleton_Some in He as [_ <-]. }
  clear Hrun. destruct HP as (HP & H1 & H2 & H3). do 3 (split; [assumption|]). intros s' Hr.
  assert (HP' : P s').
  { refine (closed_reaches P s s' _ HP Hr). clear. intros s a s' (Hi & Hth & Htr & Hcn & He) Ha.
    assert (Hset : forall e m, (forall e' enc, m !! e' = Some enc -> phase enc = Ended) ->
      forall e' enc, set_callback e m !! e' = Some enc -> phase enc = Ended).
    { intros e m Hm e' enc (old & Ho & <-)%callback_phase. by eapply Hm. }
    assert (Hstop : forall e m, (forall e' enc, m !! e' = Some enc -> phase enc = Ended) ->
      forall e' enc, stop_encoding e m !! e' = Some enc -> phase enc = Ended).
    { intros e m Hm e' enc. unfold stop_encoding. destruct (m !! e) eqn:Hx; [|apply Hm].
      intros [[_ <-]|[_ Hy]]%lookup_insert_Some; [done|by eapply Hm]. }
    destruct a; cbn [act] in Ha.
    - unfold insert_step in Ha. by rewrite Hcn in Ha.
    - unfold enable_begin in Ha. destruct (entry s) as [[e q]|] eqn:Hent; [|done]. injection Ha as <-. done.
    - unfold enable_end in Ha. destruct (enablers s !! i) as [e|]; [|done]. injection Ha as <-. split_and!; try done. by apply Hset.
    - unfold lose in Ha. destruct (encodings s !! e) as [[p cb]|] eqn:Hx; [|done]. apply He in Hx. cbn in Hx. by subst p.
    - unfold notify in Ha. destruct (encodings s !! e) as [[p cb]|] eqn:Hx; [|done]. apply He in Hx. cbn in Hx. by subst p.
    - unfold trigger_step in Ha. by rewrite Htr in Ha.
    - unfold thread_step in Ha. by rewrite Hth in Ha.
    - unfold remover_step in Ha. rewrite Hth in Ha. destruct (remover s) eqn:Hrm; try done.
      + destruct (entry s) as [[e q]|] eqn:Hent; [|done]. injection Ha as <-. by split_and!.
      + injection Ha as <-. by split_and!.
      + injection Ha as <-. by split_and!.
      + injection Ha as <-. by split_and!.
      + destruct (reader_idle s e); [|done]. injection Ha as <-. split_and!; try done. by apply Hstop.
      + injection Ha as <-. by split_and!. }
  destruct HP' as (? & ? & _ & _ & ?). by split_and!.
Qed.

(** ** Witness: a connection that was lost and re-established *)
Definition reconnection : list Action := opening ++ losing 0 ++ replicate 13 (Reconnect (outside true ShakeDone)).

Lemma reconnect_resources_witness :
  exists s e, acts connected reconnection = Some s /\ entry s = Some (e, 3%nat) /\ running s = [3%nat].
Proof.
  destruct (acts connected reconnection) as [s|] eqn:Hrun; [|vm_compute in Hrun; discriminate Hrun].
  exists s, 2%nat. split; [reflexivity|].
  assert (Hs : entry s = Some (2, 3)%nat /\ remover s = RmIdle /\ thread_active (thread s) = false).
  { vm_compute in Hrun. injection Hrun as <-. repeat split. }
  destruct Hs as (He & Hr & Ht). split; [exact He|].
  destruct (reconnect_resources s) as (_ & _ & _ & _ & Hx); [by exists reconnection|].
  exact (proj1 (Hx Hr Ht 2%nat 3%nat He)).
Defined.
