(* ===== verification/BsdSockets.v ===== *)
(** * resource_service/bsd_sockets: remote TCP sockets

    The service opens TCP connections and listeners for other nodes and moves bytes
    between them and the messages of the stream protocol.  A socket belongs to the
    node that asked for it, unless it was opened as a shared one.

    Connections are known by handles; [connections] are the open ones.  The state
    that [socketsMutex_] protects is the two tables; what a [shared_ptr] shares
    between a table and a thread (the accepted connections and the [stopping] flag
    of a listener, the thread that reads an asynchronous socket) is in a store of its
    own.  Except for connection requests, which
    have a queue with workers, the handlers run one at a time in the node's input
    queue.  [push] is [send]; random ids, the outcome of connecting and listening
    are arguments.  What a handler does is the list of its events. *)

From S2P Require Import Prelude BaseTypes Proto GuidBytes MessageHash KeyPair Signing AuthN Transport ServiceMessage.
From S2P Require Import IdentityCache DateTimes FieldResolver Requirement Logging AesNegotiation Node.

(** ** Messages (messages.proto, bsd_sockets.proto)

    [StreamID] stands for its one field; [N] is the type of [uint32] fields. *)
Abbreviation StreamID := bytes.

Definition SUCCESS : Enum := 0.
Definition CONNECT_REFUSED : Enum := 1.
Definition CONNECT_TIMEOUT : Enum := 2.
Definition STREAM_CLOSED : Enum := 3.
Definition STREAM_DATA : Enum := 4.
Definition STREAM_ERROR : Enum := 5.
Definition NEW_CONNECTION : Enum := 6.
Definition ASYNC_STREAM : Enum := 7.
Definition NODEID_MISMATCH : Enum := 9.
Definition INVALID_FLAGS : Enum := 10.
Definition STREAM_IN_USE : Enum := 11.
Definition TIMED_OUT : Enum := 12.

Module StreamReply.
Record t := mk {
  stream_id : option StreamID; error : Enum; message : option bytes; new_stream_remote_address : option bytes;
  new_stream_id : option StreamID; stream_error_code : option Z; data : option bytes }.
Definition empty : t := mk None 0 None None None None None.
End StreamReply.

Module StreamSend.
Record t := mk { stream_id : option StreamID; index : N; data : bytes }.
End StreamSend.

Module StreamRecv.
Record t := mk { stream_id : option StreamID; index : N; max_bytes : option N; wait_ms : option N }.
End StreamRecv.

Module StreamClose.
Record t := mk { stream_id : option StreamID }.
End StreamClose.

Module ConnectTCPRequest.
Record t := mk {
  host_port : bytes; stream_id : option StreamID; reuse_addr : option bool; source_port : option N;
  timeout_ms : option N; retries : option N; retry_ms : option N;
  async_data : option bool; use_socket : option bool; share_socket : option bool }.
End ConnectTCPRequest.

Module ListenTCPRequest.
Record t := mk {
  host_port : bytes; stream_id : option StreamID; reuse_addr : option bool; timeout_ms : option N; async_accept : option bool;
  share_listening_socket : option bool; share_child_sockets : option bool; children_use_socket : option bool;
  children_async_data : option bool }.
End ListenTCPRequest.

Module AcceptTCP.
Record t := mk {
  listen_stream_id : option StreamID; new_stream_id : option StreamID; timeout_ms : option N;
  share_child_socket : option bool; child_use_socket : option bool; child_async_data : option bool }.
End AcceptTCP.

Class StreamMessages := {
  sm_reply :: ServiceMessageType StreamReply.t; sm_send :: ServiceMessageType StreamSend.t;
  sm_recv :: ServiceMessageType StreamRecv.t; sm_close :: ServiceMessageType StreamClose.t;
  sm_connect :: ServiceMessageType ConnectTCPRequest.t; sm_listen :: ServiceMessageType ListenTCPRequest.t;
  sm_accept :: ServiceMessageType AcceptTCP.t }.

Definition request_names `{StreamMessages} : list bytes :=
  bs <$> [full_name ConnectTCPRequest.t; full_name ListenTCPRequest.t; full_name AcceptTCP.t;
          full_name StreamSend.t; full_name StreamRecv.t; full_name StreamClose.t].

(** What generated protobuf code guarantees: messages parse back, and the requests
    have names of their own. *)
Class StreamMessagesLaws (SM : StreamMessages) := {
  reply_parses : forall r : StreamReply.t, parse_message (serialize_message r) = Some r;
  send_parses : forall r : StreamSend.t, parse_message (serialize_message r) = Some r;
  recv_parses : forall r : StreamRecv.t, parse_message (serialize_message r) = Some r;
  connect_parses : forall r : ConnectTCPRequest.t, parse_message (serialize_message r) = Some r;
  names_distinct : NoDup request_names }.

(** An [optional bool] that is set and true. *)
Definition is_set (b : option bool) : bool := match b with Some true => true | _ => false end.

(** The ids of streams have the byte order of node ids. *)
Definition toProtoStreamId (socketId : GUID) : StreamID := toProtoNodeId socketId.
Definition fromProtoStreamId (socketId : StreamID) : option GUID := nodeIdFromSourceField socketId.

(** ** Endpoints *)
Fixpoint parsePort_loop (text : bytes) (value : Z) : option Z :=
  match text with
  | [] => Some value
  | current :: text' =>
      if (byte_val current <? 48) || (57 <? byte_val current) then None
      else
        let value' := value * 10 + (byte_val current - 48) in
        if 65535 <? value' then None else parsePort_loop text' value'
  end.

Definition parsePort (text : bytes) : option Z := match text with [] => None | _ => parsePort_loop text 0 end.

(** [rfind(':')]: the text before and after the last colon. *)
Fixpoint splitLastColon (s : bytes) : option (bytes * bytes) :=
  match s with
  | [] => None
  | c :: s' =>
      match splitLastColon s' with
      | Some (before, after) => Some (c :: before, after)
      | None => if bool_decide (c = ":"%char) then Some ([], s') else None
      end
  end.

Definition parseEndpoint (endpoint : bytes) : option (bytes * Z) :=
  match splitLastColon endpoint with
  | Some ((_ :: _) as host, (_ :: _) as text) => port ← parsePort text; Some (host, port)
  | _ => None
  end.

(** ** State *)
Record ManagedSocketState := mkSocket {
  ms_connection : nat;
  ms_requesterNodeId : NodeId;
  ms_socketId : GUID;
  ms_remoteEndpoint : bytes;
  ms_asyncData : bool;
  ms_shareSocket : bool;
  ms_traceEnabled : bool }.

Record ManagedListenerState := mkListener {
  ml_handle : nat;
  ml_requesterNodeId : NodeId;
  ml_socketId : GUID;
  ml_bindEndpoint : bytes;
  ml_asyncAccept : bool;
  ml_shareListeningSocket : bool;
  ml_shareChildSockets : bool;
  ml_childrenUseSocket : bool;
  ml_childrenAsyncData : bool;
  ml_traceEnabled : bool }.

(** What a listener shares with its accept thread. *)
Record Accepted := mkAccepted { acceptedConnections : list nat; acc_stopping : bool }.

(** Log payloads (bsd_sockets_logging.proto). *)
Inductive BsdLog :=
| ConnectFailedLog (requester : NodeId) (stream : StreamID) (endpoint : bytes) (parsed : option (bytes * Z)) (attempts : Z)
| ConnectEstablishedLog (requester : NodeId) (stream : StreamID) (endpoint : bytes) (parsed : option (bytes * Z))
| ListenFailedLog (requester : NodeId) (stream : StreamID) (endpoint : bytes) (parsed : option (bytes * Z))
| ListenStartedLog (requester : NodeId) (stream : StreamID) (endpoint : bytes) (parsed : option (bytes * Z))
| ConnectionAcceptedLog (requester : NodeId) (listen child : StreamID)
| AsyncConnectionAcceptedLog (requester : NodeId) (listen child : StreamID)
| SendFailedLog (requester : NodeId) (stream : StreamID)
| RecvFailedLog (requester : NodeId) (stream : StreamID) (async_mode : bool)
| PeerClosedLog (requester : NodeId) (stream : StreamID) (async_mode : bool)
| ListenClosedLog (requester : NodeId) (stream : StreamID)
| SocketClosedLog (requester : NodeId) (stream : StreamID).

Inductive BsdEvent :=
(** [send] was called *)
| Sent (m : RSPMessage.t)
| Logged (l : BsdLog)
(** a connection request was put into [connectQueue_] *)
| Queued (m : RSPMessage.t)
(** a connection was asked to send or to receive, it was closed *)
| Wrote (h : nat) (data : bytes)
| Read (h : nat)
| Closed (h : nat)
| StoppedListener (l : nat).

(** The thread of an asynchronous socket.  It holds a reference to the socket; a
    thread that has come to its end stays joinable until the socket is stopped. *)
Record ReadThread := mkReader { rd_socket : ManagedSocketState; rd_running : bool }.

Section BsdSockets.
Context `{C : Connection} `{SM : StreamMessages}.

(** [terminated_]: a [std::thread] that nobody joined was destroyed, which calls
    [std::terminate]. *)
Record BsdSockets := mkBsd {
  managedSockets_ : gmap GUID ManagedSocketState;
  managedListeningSockets_ : gmap GUID ManagedListenerState;
  connections : gmap nat Conn;
  listeners : gmap nat Accepted;
  readers : gmap nat ReadThread;
  next_handle : nat;
  terminated_ : bool }.

Definition initial_bsd : BsdSockets := mkBsd ∅ ∅ ∅ ∅ ∅ 0 false.

Definition set_sockets (s : BsdSockets) (m : gmap GUID ManagedSocketState) : BsdSockets :=
  mkBsd m (managedListeningSockets_ s) (connections s) (listeners s) (readers s) (next_handle s) (terminated_ s).
Definition set_listening (s : BsdSockets) (m : gmap GUID ManagedListenerState) : BsdSockets :=
  mkBsd (managedSockets_ s) m (connections s) (listeners s) (readers s) (next_handle s) (terminated_ s).
Definition set_connections (s : BsdSockets) (m : gmap nat Conn) : BsdSockets :=
  mkBsd (managedSockets_ s) (managedListeningSockets_ s) m (listeners s) (readers s) (next_handle s) (terminated_ s).
Definition set_listeners (s : BsdSockets) (m : gmap nat Accepted) : BsdSockets :=
  mkBsd (managedSockets_ s) (managedListeningSockets_ s) (connections s) m (readers s) (next_handle s) (terminated_ s).
Definition set_readers (s : BsdSockets) (m : gmap nat ReadThread) : BsdSockets :=
  mkBsd (managedSockets_ s) (managedListeningSockets_ s) (connections s) (listeners s) m (next_handle s) (terminated_ s).
Definition set_next (s : BsdSockets) (n : nat) : BsdSockets :=
  mkBsd (managedSockets_ s) (managedListeningSockets_ s) (connections s) (listeners s) (readers s) n (terminated_ s).
Definition terminate (s : BsdSockets) : BsdSockets :=
  mkBsd (managedSockets_ s) (managedListeningSockets_ s) (connections s) (listeners s) (readers s) (next_handle s) true.

(** [std::map::emplace] *)
Definition emplace {V} (k : GUID) (v : V) (m : gmap GUID V) : gmap GUID V :=
  match m !! k with Some _ => m | None => <[k := v]> m end.

(** ** Replies *)
Definition streamReply (status : Enum) (errorMessage : bytes) (socketId : option GUID) : StreamReply.t :=
  let id := toProtoStreamId <$> socketId in
  StreamReply.mk id status (match errorMessage with [] => None | _ => Some errorMessage end) None id None None.

Definition makeStreamReplyTo (destinationNodeId : NodeId) (status : Enum) (errorMessage : bytes) (socketId : option GUID)
    (traceEnabled : bool) : RSPMessage.t :=
  let reply := to_destination destinationNodeId in
  let reply := if traceEnabled then RSPMessage.set_trace reply (Some true) else reply in
  packServiceMessage reply (streamReply status errorMessage socketId).

(** The stream a request is about. *)
Definition derivedSocketId (request : RSPMessage.t) : option GUID :=
  match unpackServiceMessage ConnectTCPRequest.t request ≫= ConnectTCPRequest.stream_id with
  | Some id => fromProtoStreamId id
  | None =>
  match unpackServiceMessage ListenTCPRequest.t request ≫= ListenTCPRequest.stream_id with
  | Some id => fromProtoStreamId id
  | None =>
  match unpackServiceMessage AcceptTCP.t request with
  | Some r => fromProtoStreamId (value_or_empty (AcceptTCP.listen_stream_id r))
  | None =>
  match unpackServiceMessage StreamSend.t request with
  | Some r => fromProtoStreamId (value_or_empty (StreamSend.stream_id r))
  | None =>
  match unpackServiceMessage StreamRecv.t request with
  | Some r => fromProtoStreamId (value_or_empty (StreamRecv.stream_id r))
  | None =>
  match unpackServiceMessage StreamClose.t request with
  | Some r => fromProtoStreamId (value_or_empty (StreamClose.stream_id r))
  | None => None
  end end end end end end.

Definition makeStreamReplyMessage (request : RSPMessage.t) (status : Enum) (errorMessage : bytes) (socketId : option GUID)
    : RSPMessage.t :=
  let effective := match socketId with Some id => Some id | None => derivedSocketId request end in
  match senderNodeIdFromMessage request with
  | None => RSPMessage.empty
  | Some sender => copyMessageTrace request (makeStreamReplyTo (toProtoNodeId sender) status errorMessage effective false)
  end.

(** Unpack, change, repack. *)
Definition modifyReply (reply : RSPMessage.t) (f : StreamReply.t -> StreamReply.t) : RSPMessage.t :=
  packServiceMessage reply (f (default StreamReply.empty (unpackServiceMessage StreamReply.t reply))).

Definition with_new_stream (id : GUID) (r : StreamReply.t) : StreamReply.t :=
  StreamReply.mk (StreamReply.stream_id r) (StreamReply.error r) (StreamReply.message r)
    (StreamReply.new_stream_remote_address r) (Some (toProtoStreamId id)) (StreamReply.stream_error_code r) (StreamReply.data r).
Definition with_data (d : bytes) (r : StreamReply.t) : StreamReply.t :=
  StreamReply.mk (StreamReply.stream_id r) (StreamReply.error r) (StreamReply.message r)
    (StreamReply.new_stream_remote_address r) (StreamReply.new_stream_id r) (StreamReply.stream_error_code r) (Some d).

(** ** Stopping *)

(** Closing wakes a reading thread, which is then joined. *)
Definition stopManagedSocket (s : BsdSockets) (socketState : ManagedSocketState) : BsdSockets * list BsdEvent :=
  let h := ms_connection socketState in
  (set_readers (set_connections s (delete h (connections s))) (delete h (readers s)), [Closed h]).

(** [close] of several connections. *)
Definition closeConnections (s : BsdSockets) (hs : list nat) : BsdSockets * list BsdEvent :=
  (set_connections s (foldl (fun m h => delete h m) (connections s) hs), Closed <$> hs).

Definition stopManagedListener (s : BsdSockets) (listenerState : ManagedListenerState) : BsdSockets * list BsdEvent :=
  let l := ml_handle listenerState in
  let accepted := default (mkAccepted [] false) (listeners s !! l) in
  let s' := set_listeners s (<[l := mkAccepted [] true]> (listeners s)) in
  let '(s'', events) := closeConnections s' (acceptedConnections accepted) in
  (s'', StoppedListener l :: events).

(** The table gives up its reference to a socket that was not stopped: a running
    thread keeps it; otherwise it is destroyed, with its connection, and so is the
    thread object of a thread that has ended. *)
Definition releaseSocket (s : BsdSockets) (socketState : ManagedSocketState) : BsdSockets * list BsdEvent :=
  let h := ms_connection socketState in
  match readers s !! h with
  | Some r => if rd_running r then (s, []) else (terminate s, [])
  | None => (set_connections s (delete h (connections s)), [Closed h])
  end.

Fixpoint stopAllSockets (s : BsdSockets) (l : list (GUID * ManagedSocketState)) : BsdSockets * list BsdEvent :=
  match l with
  | [] => (s, [])
  | (_, socketState) :: l' =>
      let '(s1, e1) := stopManagedSocket s socketState in
      let '(s2, e2) := stopAllSockets s1 l' in (s2, e1 ++ e2)
  end.

Fixpoint stopAllListeners (s : BsdSockets) (l : list (GUID * ManagedListenerState)) : BsdSockets * list BsdEvent :=
  match l with
  | [] => (s, [])
  | (_, listenerState) :: l' =>
      let '(s1, e1) := stopManagedListener s listenerState in
      let '(s2, e2) := stopAllListeners s1 l' in (s2, e1 ++ e2)
  end.

Definition closeAllManagedSockets (s : BsdSockets) : BsdSockets * list BsdEvent :=
  let removedSockets := managedSockets_ s in
  let removedListeners := managedListeningSockets_ s in
  let '(s1, e1) := stopAllListeners (set_listening (set_sockets s ∅) ∅) (in_order removedListeners) in
  let '(s2, e2) := stopAllSockets s1 (in_order removedSockets) in (s2, e1 ++ e2).

(** ** Access *)
Definition validateSocketAccess (message : RSPMessage.t) (socketState : ManagedSocketState) : bool :=
  if ms_shareSocket socketState then true
  else
    match senderNodeIdFromMessage message with
    | None => false
    | Some sender => bool_decide (toProtoNodeId sender = ms_requesterNodeId socketState)
    end.

Definition validateListeningSocketAccess (message : RSPMessage.t) (listenerState : ManagedListenerState) : bool :=
  if ml_shareListeningSocket listenerState then true
  else
    match senderNodeIdFromMessage message with
    | None => false
    | Some sender => bool_decide (toProtoNodeId sender = ml_requesterNodeId listenerState)
    end.

(** ** Handlers

    A handler returns what the code returns, the new state and its events. *)
Abbreviation Outcome := (bool * BsdSockets * list BsdEvent)%type.

Section Handlers.
(** What [send] answers while the handler runs. *)
Context (send_ok : RSPMessage.t -> bool).

Definition answer (s : BsdSockets) (events : list BsdEvent) (reply : RSPMessage.t) : Outcome :=
  (send_ok reply, s, events ++ [Sent reply]).

(** A new connection gets a handle. *)
Definition addConnection (s : BsdSockets) (c : Conn) : nat * BsdSockets :=
  let h := next_handle s in (h, set_next (set_connections s (<[h := c]> (connections s))) (S h)).

Definition startReader (s : BsdSockets) (socketState : ManagedSocketState) : BsdSockets :=
  if ms_asyncData socketState
  then set_readers s (<[ms_connection socketState := mkReader socketState true]> (readers s)) else s.

(** [managedSockets_.erase(socketId); stopManagedSocket(socketState);] *)
Definition eraseAndStop (s : BsdSockets) (socketState : ManagedSocketState) : BsdSockets * list BsdEvent :=
  stopManagedSocket (set_sockets s (delete (ms_socketId socketState) (managedSockets_ s))) socketState.

(** [connect attempt] is what the attempt with this number gives. *)
Fixpoint createTCPConnection_loop (connect : nat -> option Conn) (remaining attempt : nat) : option Conn :=
  match remaining with
  | O => None
  | S remaining =>
      match connect attempt with
      | Some connection => Some connection
      | None => createTCPConnection_loop connect remaining (S attempt)
      end
  end.

Definition createTCPConnection (connect : nat -> option Conn) (totalAttempts : Z) : option Conn :=
  createTCPConnection_loop connect (Z.to_nat totalAttempts) 0.

(** [emplace] keeps an entry that is there.  When the new socket is not the one in
    the table, it is released at the end of the function, unless its thread holds
    it; when the reply cannot be sent, the entry of the table is erased whichever
    socket it holds. *)
Definition registerConnectedSocket (s : BsdSockets) (message : RSPMessage.t) (c : Conn) (socketId : GUID)
    (hostPort : bytes) (asyncData shareSocket : bool) : Outcome :=
  match senderNodeIdFromMessage message with
  | None => (false, s, [])
  | Some requester =>
      let '(h, s1) := addConnection s c in
      let socketState :=
        mkSocket h (toProtoNodeId requester) socketId hostPort asyncData shareSocket (messageTraceEnabled message) in
      let previous := managedSockets_ s !! socketId in
      let s2 := set_sockets s1 (emplace socketId socketState (managedSockets_ s1)) in
      let reply := makeStreamReplyMessage message SUCCESS [] (Some socketId) in
      if negb (send_ok reply) then
        let '(s3, e3) :=
          match previous with
          | None => (set_sockets s2 (delete socketId (managedSockets_ s2)), [])
          | Some old => releaseSocket (set_sockets s2 (delete socketId (managedSockets_ s2))) old
          end in
        let '(s4, e4) := stopManagedSocket s3 socketState in
        (false, s4, Sent reply :: e3 ++ e4)
      else
        let log := ConnectEstablishedLog (toProtoNodeId requester) (toProtoStreamId socketId) hostPort (parseEndpoint hostPort) in
        let s3 := startReader s2 socketState in
        let '(s4, e4) := match previous with None => (s3, []) | Some _ => releaseSocket s3 socketState end in
        (true, s4, Sent reply :: Logged log :: e4)
  end.

Definition handleConnectTCPRequest (s : BsdSockets) (connect : nat -> option Conn) (message : RSPMessage.t) : Outcome :=
  match senderNodeIdFromMessage message with
  | None => (false, s, [])
  | Some requester =>
  match unpackServiceMessage ConnectTCPRequest.t message with
  | None => (false, s, [])
  | Some request =>
  match ConnectTCPRequest.stream_id request with
  | None => answer s [] (makeStreamReplyMessage message INVALID_FLAGS (bs "socket_number is required") None)
  | Some id =>
  match fromProtoStreamId id with
  | None => answer s [] (makeStreamReplyMessage message INVALID_FLAGS (bs "invalid socket_number") None)
  | Some socketId =>
      let hostPort := ConnectTCPRequest.host_port request in
      let share := is_set (ConnectTCPRequest.share_socket request) in
      if bool_decide (hostPort = []) then
        answer s [] (makeStreamReplyMessage message STREAM_ERROR (bs "host_port is required") (Some socketId))
      else if share && is_set (ConnectTCPRequest.async_data request) then
        answer s [] (makeStreamReplyMessage message INVALID_FLAGS (bs "share_socket cannot be combined with async_data")
                       (Some socketId))
      else if share && is_set (ConnectTCPRequest.use_socket request) then
        answer s [] (makeStreamReplyMessage message INVALID_FLAGS (bs "share_socket cannot be combined with use_socket")
                       (Some socketId))
      else
        let totalAttempts :=
          match ConnectTCPRequest.retries request with Some retries => Z.min (Z.of_N retries) 5 + 1 | None => 1 end in
        match createTCPConnection connect totalAttempts with
        | None =>
            let log := ConnectFailedLog (toProtoNodeId requester) (toProtoStreamId socketId) hostPort
                         (parseEndpoint hostPort) totalAttempts in
            answer s [Logged log] (makeStreamReplyMessage message CONNECT_REFUSED (bs "tcp connect failed") (Some socketId))
        | Some c =>
            registerConnectedSocket s message c socketId hostPort (is_set (ConnectTCPRequest.async_data request)) share
        end
  end end end end.

(** [listen_ok] is what the transport's [listen] answers. *)
Definition handleListenTCPRequest (s : BsdSockets) (listen_ok : bool) (message : RSPMessage.t) : Outcome :=
  match senderNodeIdFromMessage message with
  | None => (false, s, [])
  | Some requester =>
  match unpackServiceMessage ListenTCPRequest.t message with
  | None => (false, s, [])
  | Some request =>
  match ListenTCPRequest.stream_id request with
  | None => answer s [] (makeStreamReplyMessage message INVALID_FLAGS (bs "socket_number is required") None)
  | Some id =>
  match fromProtoStreamId id with
  | None => answer s [] (makeStreamReplyMessage message INVALID_FLAGS (bs "invalid socket_number") None)
  | Some socketId =>
      let hostPort := ListenTCPRequest.host_port request in
      let asyncAccept := is_set (ListenTCPRequest.async_accept request) in
      let fail status text := answer s [] (makeStreamReplyMessage message status (bs text) (Some socketId)) in
      if bool_decide (hostPort = []) then fail STREAM_ERROR "host_port is required"
      else if negb asyncAccept && is_set (ListenTCPRequest.share_child_sockets request) then
        fail INVALID_FLAGS "share_child_sockets requires async_accept"
      else if negb asyncAccept && is_set (ListenTCPRequest.children_use_socket request) then
        fail INVALID_FLAGS "children_use_socket requires async_accept"
      else if negb asyncAccept && is_set (ListenTCPRequest.children_async_data request) then
        fail INVALID_FLAGS "children_async_data requires async_accept"
      else if bool_decide (is_Some (managedSockets_ s !! socketId)) ||
              bool_decide (is_Some (managedListeningSockets_ s !! socketId)) then
        fail STREAM_IN_USE "socket id already exists"
      else if negb listen_ok then
        let log := ListenFailedLog (toProtoNodeId requester) (toProtoStreamId socketId) hostPort (parseEndpoint hostPort) in
        answer s [Logged log] (makeStreamReplyMessage message STREAM_ERROR (bs "tcp listen failed") (Some socketId))
      else
        let l := next_handle s in
        let listenerState :=
          mkListener l (toProtoNodeId requester) socketId hostPort asyncAccept
            (is_set (ListenTCPRequest.share_listening_socket request)) (is_set (ListenTCPRequest.share_child_sockets request))
            (is_set (ListenTCPRequest.children_use_socket request)) (is_set (ListenTCPRequest.children_async_data request))
            (messageTraceEnabled message) in
        let s1 := set_next (set_listeners s (<[l := mkAccepted [] false]> (listeners s))) (S l) in
        let s2 := set_listening s1 (emplace socketId listenerState (managedListeningSockets_ s1)) in
        let reply := makeStreamReplyMessage message SUCCESS [] (Some socketId) in
        if negb (send_ok reply) then
          let '(s3, e3) :=
            stopManagedListener (set_listening s2 (delete socketId (managedListeningSockets_ s2))) listenerState in
          (false, s3, Sent reply :: e3)
        else
          (true, s2, [Sent reply; Logged (ListenStartedLog (toProtoNodeId requester) (toProtoStreamId socketId) hostPort
                                            (parseEndpoint hostPort))])
  end end end end.

(** The wait for a connection ends with the state [s]; it is over when there is a
    connection, the listener was stopped, or the time has passed.  [newId] is the
    random id of a child that the request does not name.  The sender of a request
    for a shared listener is used without a check that there is one. *)
Definition handleAcceptTCP (s : BsdSockets) (newId : GUID) (message : RSPMessage.t) : Res Outcome :=
  match unpackServiceMessage AcceptTCP.t message with
  | None => Ok (false, s, [])
  | Some request =>
  match fromProtoStreamId (value_or_empty (AcceptTCP.listen_stream_id request)) with
  | None => Ok (answer s [] (makeStreamReplyMessage message STREAM_ERROR (bs "invalid listen socket id") None))
  | Some listenSocketId =>
      let fail s status text := Ok (answer s [] (makeStreamReplyMessage message status (bs text) (Some listenSocketId))) in
      match managedListeningSockets_ s !! listenSocketId with
      | None => fail s STREAM_CLOSED "listen socket not found"
      | Some listenerState =>
          if negb (validateListeningSocketAccess message listenerState) then
            fail s NODEID_MISMATCH "listen socket is owned by a different node id"
          else if ml_asyncAccept listenerState then
            fail s ASYNC_STREAM "accept_tcp is ignored when async_accept is enabled"
          else
            let l := ml_handle listenerState in
            let accepted := default (mkAccepted [] false) (listeners s !! l) in
            match acceptedConnections accepted with
            | [] =>
                if acc_stopping accepted then fail s STREAM_CLOSED "listen socket closed"
                else fail s TIMED_OUT "accept timed out"
            | h :: rest =>
                if acc_stopping accepted then fail s STREAM_CLOSED "listen socket closed"
                else
                  let s1 := set_listeners s (<[l := mkAccepted rest false]> (listeners s)) in
                  let childSocketId :=
                    match AcceptTCP.new_stream_id request with Some id => fromProtoStreamId id | None => Some newId end in
                  match childSocketId with
                  | None =>
                      let '(s2, e2) := closeConnections s1 [h] in
                      Ok (answer s2 e2 (makeStreamReplyMessage message INVALID_FLAGS (bs "invalid new_socket_number")
                                          (Some listenSocketId)))
                  | Some child =>
                  match senderNodeIdFromMessage message with
                  | None => Undefined
                  | Some sender =>
                      let socketState :=
                        mkSocket h (toProtoNodeId sender) child [] (is_set (AcceptTCP.child_async_data request))
                          (is_set (AcceptTCP.share_child_socket request)) false in
                      if bool_decide (is_Some (managedSockets_ s1 !! child)) ||
                         bool_decide (is_Some (managedListeningSockets_ s1 !! child)) then
                        let '(s2, e2) := closeConnections s1 [h] in
                        Ok (answer s2 e2 (makeStreamReplyMessage message STREAM_IN_USE (bs "socket id already exists")
                                            (Some listenSocketId)))
                      else
                        let s2 := set_sockets s1 (emplace child socketState (managedSockets_ s1)) in
                        let reply :=
                          modifyReply (makeStreamReplyMessage message SUCCESS [] (Some listenSocketId)) (with_new_stream child) in
                        if negb (send_ok reply) then
                          let '(s3, e3) := eraseAndStop s2 socketState in Ok (false, s3, Sent reply :: e3)
                        else
                          let log := ConnectionAcceptedLog (toProtoNodeId sender) (toProtoStreamId listenSocketId)
                                       (toProtoStreamId child) in
                          Ok (true, startReader s2 socketState, [Sent reply; Logged log])
                  end end
            end
      end
  end end.

(** The lookup and the checks that sending and receiving share. *)
Definition findSocket (s : BsdSockets) (message : RSPMessage.t) (stream_id : option StreamID)
    : RSPMessage.t + (GUID * ManagedSocketState) :=
  match fromProtoStreamId (value_or_empty stream_id) with
  | None => inl (makeStreamReplyMessage message STREAM_ERROR (bs "invalid socket id") None)
  | Some socketId =>
  match managedSockets_ s !! socketId with
  | None => inl (makeStreamReplyMessage message STREAM_CLOSED (bs "socket not found") None)
  | Some socketState =>
      if negb (validateSocketAccess message socketState) then
        inl (makeStreamReplyMessage message NODEID_MISMATCH (bs "socket is owned by a different node id") None)
      else inr (socketId, socketState)
  end end.

(** [sendAll] on a connection that was closed fails. *)
Definition sendOn (s : BsdSockets) (h : nat) (data : bytes) : Res (bool * BsdSockets) :=
  match connections s !! h with
  | None => Ok (false, s)
  | Some c => r ← sendAll c data; Ok (r.1, set_connections s (<[h := r.2]> (connections s)))
  end.

Definition handleStreamSend (s : BsdSockets) (message : RSPMessage.t) : Res Outcome :=
  match unpackServiceMessage StreamSend.t message with
  | None => Ok (false, s, [])
  | Some sendMsg =>
      match findSocket s message (StreamSend.stream_id sendMsg) with
      | inl reply => Ok (answer s [] reply)
      | inr (socketId, socketState) =>
          let h := ms_connection socketState in
          let data := take (Z.to_nat (wrap 32 (size_of (StreamSend.data sendMsg)))) (StreamSend.data sendMsg) in
          r ← sendOn s h data;
          if negb r.1 then
            let log := SendFailedLog (ms_requesterNodeId socketState) (toProtoStreamId socketId) in
            Ok (answer r.2 [Wrote h data; Logged log]
                  (makeStreamReplyMessage message STREAM_ERROR (bs "socket send failed") None))
          else Ok (answer r.2 [Wrote h data] (makeStreamReplyMessage message SUCCESS [] None))
      end
  end.

(** What a [recv] returns: bytes, the end of the stream (0), or a failure (-1).
    [recv_failed] tells the last two apart. *)
Inductive Received := Bytes (b : bytes) | EndOfStream | RecvFailed.

Definition recvOn (recv_failed : Conn -> bool) (s : BsdSockets) (h : nat) (maxBytes : Z) : Received * BsdSockets :=
  match connections s !! h with
  | None => (RecvFailed, s)
  | Some c =>
      match recv c (Z.to_nat maxBytes) with
      | Some (b, c') => (Bytes b, set_connections s (<[h := c']> (connections s)))
      | None => (if recv_failed c then RecvFailed else EndOfStream, s)
      end
  end.

Definition maxBytesOf (max_bytes : option N) : Z :=
  match max_bytes with Some n => if 0 <? Z.of_N n then Z.of_N n else 4096 | None => 4096 end.

Definition handleStreamRecv (recv_failed : Conn -> bool) (s : BsdSockets) (message : RSPMessage.t) : Outcome :=
  match unpackServiceMessage StreamRecv.t message with
  | None => (false, s, [])
  | Some recvMsg =>
      match findSocket s message (StreamRecv.stream_id recvMsg) with
      | inl reply => answer s [] reply
      | inr (socketId, socketState) =>
          let h := ms_connection socketState in
          let requester := ms_requesterNodeId socketState in
          if ms_asyncData socketState then
            answer s [] (makeStreamReplyMessage message ASYNC_STREAM (bs "socket_recv is ignored when async_data is enabled") None)
          else
            let '(received, s1) := recvOn recv_failed s h (maxBytesOf (StreamRecv.max_bytes recvMsg)) in
            match received with
            | RecvFailed =>
                answer s1 [Read h; Logged (RecvFailedLog requester (toProtoStreamId socketId) false)]
                  (makeStreamReplyMessage message STREAM_ERROR (bs "socket recv failed") None)
            | EndOfStream =>
                answer s1 [Read h; Logged (PeerClosedLog requester (toProtoStreamId socketId) false)]
                  (makeStreamReplyMessage message STREAM_CLOSED (bs "socket closed") None)
            | Bytes b => answer s1 [Read h] (modifyReply (makeStreamReplyMessage message STREAM_DATA [] None) (with_data b))
            end
      end
  end.

(** The entry is taken out of its table before the access is checked and put back
    when the sender may not close it. *)
Definition handleStreamClose (s : BsdSockets) (message : RSPMessage.t) : Outcome :=
  match unpackServiceMessage StreamClose.t message with
  | None => (false, s, [])
  | Some closeMsg =>
  match fromProtoStreamId (value_or_empty (StreamClose.stream_id closeMsg)) with
  | None => answer s [] (makeStreamReplyMessage message STREAM_ERROR (bs "invalid socket id") None)
  | Some socketId =>
      match managedListeningSockets_ s !! socketId with
      | Some removed =>
          let s1 := set_listening s (delete socketId (managedListeningSockets_ s)) in
          if negb (validateListeningSocketAccess message removed) then
            answer (set_listening s1 (emplace socketId removed (managedListeningSockets_ s1))) []
              (makeStreamReplyMessage message NODEID_MISMATCH (bs "listen socket is owned by a different node id") (Some socketId))
          else
            let '(s2, e2) := stopManagedListener s1 removed in
            answer s2 (e2 ++ [Logged (ListenClosedLog (ml_requesterNodeId removed) (toProtoStreamId socketId))])
              (makeStreamReplyMessage message SUCCESS [] (Some socketId))
      | None =>
      match managedSockets_ s !! socketId with
      | None => answer s [] (makeStreamReplyMessage message STREAM_CLOSED (bs "socket not found") None)
      | Some removed =>
          let s1 := set_sockets s (delete socketId (managedSockets_ s)) in
          if negb (validateSocketAccess message removed) then
            answer (set_sockets s1 (emplace socketId removed (managedSockets_ s1))) []
              (makeStreamReplyMessage message NODEID_MISMATCH (bs "socket is owned by a different node id") None)
          else
            let '(s2, e2) := stopManagedSocket s1 removed in
            answer s2 (e2 ++ [Logged (SocketClosedLog (ms_requesterNodeId removed) (toProtoStreamId socketId))])
              (makeStreamReplyMessage message SUCCESS [] None)
      end end
  end end.

(** The callback of a listener's accept thread.  [ids] are the random ids it draws;
    there are enough of them when one is not in use. *)
Fixpoint freshId (s : BsdSockets) (ids : list GUID) : Res GUID :=
  match ids with
  | [] => NoFuel
  | id :: ids' =>
      if bool_decide (is_Some (managedSockets_ s !! id)) || bool_decide (is_Some (managedListeningSockets_ s !! id))
      then freshId s ids' else Ok id
  end.

Definition handleAcceptedConnection (s : BsdSockets) (listenerState : ManagedListenerState) (ids : list GUID) (c : Conn)
    : Res (BsdSockets * list BsdEvent) :=
  let '(h, s1) := addConnection s c in
  let l := ml_handle listenerState in
  let accepted := default (mkAccepted [] false) (listeners s !! l) in
  if acc_stopping accepted then Ok (closeConnections s1 [h])
  else if negb (ml_asyncAccept listenerState) then
    Ok (set_listeners s1 (<[l := mkAccepted (acceptedConnections accepted ++ [h]) (acc_stopping accepted)]> (listeners s1)), [])
  else
    id ← freshId s1 ids;
    let socketState :=
      mkSocket h (ml_requesterNodeId listenerState) id (ml_bindEndpoint listenerState) (ml_childrenAsyncData listenerState)
        (ml_shareChildSockets listenerState) (ml_traceEnabled listenerState) in
    let s2 := set_sockets s1 (emplace id socketState (managedSockets_ s1)) in
    let reply :=
      modifyReply (makeStreamReplyTo (ml_requesterNodeId listenerState) NEW_CONNECTION [] (Some (ml_socketId listenerState))
                     (ml_traceEnabled listenerState)) (with_new_stream id) in
    if negb (send_ok reply) then
      let '(s3, e3) := eraseAndStop s2 socketState in Ok (s3, Sent reply :: e3)
    else
      let log := AsyncConnectionAcceptedLog (ml_requesterNodeId listenerState) (toProtoStreamId (ml_socketId listenerState))
                   (toProtoStreamId id) in
      Ok (startReader s2 socketState, [Sent reply; Logged log]).

(** ** Asynchronous reading *)
Definition asyncReply (st : ManagedSocketState) (status : Enum) (text : bytes) : RSPMessage.t :=
  makeStreamReplyTo (ms_requesterNodeId st) status text (Some (ms_socketId st)) (ms_traceEnabled st).

Definition asyncData (st : ManagedSocketState) (b : bytes) : RSPMessage.t :=
  modifyReply (asyncReply st STREAM_DATA []) (with_data b).

(** One turn of the loop of a socket that is not being stopped: its events, and
    whether the loop goes on. *)
Definition asyncTurn (st : ManagedSocketState) (received : Received) : list BsdEvent * bool :=
  let h := ms_connection st in
  match received with
  | RecvFailed =>
      ([Read h; Logged (RecvFailedLog (ms_requesterNodeId st) (toProtoStreamId (ms_socketId st)) true);
        Sent (asyncReply st STREAM_ERROR (bs "socket recv failed"))], false)
  | EndOfStream =>
      ([Read h; Logged (PeerClosedLog (ms_requesterNodeId st) (toProtoStreamId (ms_socketId st)) true);
        Sent (asyncReply st STREAM_CLOSED (bs "socket closed"))], false)
  | Bytes b => ([Read h; Sent (asyncData st b)], send_ok (asyncData st b))
  end.

Fixpoint runAsyncReadLoop (fuel : nat) (recv_failed : Conn -> bool) (s : BsdSockets) (st : ManagedSocketState)
    : Res (BsdSockets * list BsdEvent) :=
  match fuel with
  | O => NoFuel
  | S fuel =>
      let '(received, s1) := recvOn recv_failed s (ms_connection st) 4096 in
      let '(events, continue) := asyncTurn st received in
      if continue then
        r ← runAsyncReadLoop fuel recv_failed s1 st; Ok (r.1, events ++ r.2)
      else Ok (s1, events)
  end.

(** Whether the table holds the socket of a connection. *)
Definition holdsSocket (s : BsdSockets) (st : ManagedSocketState) : bool :=
  match managedSockets_ s !! ms_socketId st with
  | Some st' => (ms_connection st' =? ms_connection st)%nat
  | None => false
  end.

(** One turn of the thread of the connection [h], which ends when the loop does;
    the closure of the thread then gives up its reference to the socket. *)
Definition reader_turn (recv_failed : Conn -> bool) (s : BsdSockets) (h : nat) : option (BsdSockets * list BsdEvent) :=
  match readers s !! h with
  | Some (mkReader st true) =>
      let '(received, s1) := recvOn recv_failed s h 4096 in
      let '(events, continue) := asyncTurn st received in
      let s2 := if continue then s1 else set_readers s1 (<[h := mkReader st false]> (readers s1)) in
      Some (if continue || holdsSocket s2 st then s2 else terminate s2, events)
  | _ => None
  end.

(** ** Dispatch *)
Definition handleNodeSpecificMessage (queue_ok listen_ok : bool) (newId : GUID) (recv_failed : Conn -> bool)
    (s : BsdSockets) (message : RSPMessage.t) : Res Outcome :=
  if hasServiceMessage ConnectTCPRequest.t message then Ok (queue_ok, s, [Queued message])
  else if hasServiceMessage ListenTCPRequest.t message then Ok (handleListenTCPRequest s listen_ok message)
  else if hasServiceMessage AcceptTCP.t message then handleAcceptTCP s newId message
  else if hasServiceMessage StreamSend.t message then handleStreamSend s message
  else if hasServiceMessage StreamRecv.t message then Ok (handleStreamRecv recv_failed s message)
  else if hasServiceMessage StreamClose.t message then Ok (handleStreamClose s message)
  else Ok (false, s, []).
End Handlers.

(** ** Steps *)
Inductive bsd_step : BsdSockets -> list BsdEvent -> BsdSockets -> Prop :=
| step_message send_ok queue_ok listen_ok newId recv_failed s m b s' e :
    terminated_ s = false ->
    handleNodeSpecificMessage send_ok queue_ok listen_ok newId recv_failed s m = Ok (b, s', e) -> bsd_step s e s'
| step_connect send_ok connect s m b s' e :
    terminated_ s = false -> handleConnectTCPRequest send_ok s connect m = (b, s', e) -> bsd_step s e s'
| step_accepted send_ok ids c ls s s' e :
    terminated_ s = false -> managedListeningSockets_ s !! ml_socketId ls = Some ls ->
    handleAcceptedConnection send_ok s ls ids c = Ok (s', e) -> bsd_step s e s'
| step_reader send_ok recv_failed h s s' e :
    terminated_ s = false -> reader_turn send_ok recv_failed s h = Some (s', e) -> bsd_step s e s'.

Inductive bsd_reachable : BsdSockets -> Prop :=
| reach_initial : bsd_reachable initial_bsd
| reach_step s e s' : bsd_reachable s -> bsd_step s e s' -> bsd_reachable s'.

(** ** The invariant *)
Definition waits_in (s : BsdSockets) (h l : nat) : Prop := exists A, listeners s !! l = Some A /\ h ∈ acceptedConnections A.
Definition in_table (s : BsdSockets) (h : nat) : Prop := exists id st, managedSockets_ s !! id = Some st /\ ms_connection st = h.
Definition read_by_thread (s : BsdSockets) (h : nat) : Prop := exists st, readers s !! h = Some (mkReader st true).

(** Who is responsible for closing a connection. *)
Inductive owner := TableEntry (id : GUID) | QueueOf (l : nat) | ThreadAlone.
Definition owned_by (s : BsdSockets) (h : nat) (o : owner) : Prop :=
  match o with
  | TableEntry id => exists st, managedSockets_ s !! id = Some st /\ ms_connection st = h
  | QueueOf l => waits_in s h l
  | ThreadAlone => read_by_thread s h /\ ~ in_table s h
  end.

Record bsd_inv (s : BsdSockets) : Prop := {
  (** entries are under their own ids, with connections of their own that are open *)
  inv_socket : forall id st, managedSockets_ s !! id = Some st ->
    ms_socketId st = id /\ is_Some (connections s !! ms_connection st);
  inv_distinct : forall id id' st st', managedSockets_ s !! id = Some st -> managedSockets_ s !! id' = Some st' ->
    ms_connection st = ms_connection st' -> id = id';
  inv_listener : forall id ls, managedListeningSockets_ s !! id = Some ls ->
    ml_socketId ls = id /\ exists hs, listeners s !! ml_handle ls = Some (mkAccepted hs false);
  inv_listener_distinct : forall id id' ls ls', managedListeningSockets_ s !! id = Some ls ->
    managedListeningSockets_ s !! id' = Some ls' -> ml_handle ls = ml_handle ls' -> id = id';
  (** a connection that waits is open, belongs to a listener of the table and to nobody else *)
  inv_waits : forall h l, waits_in s h l ->
    is_Some (connections s !! h) /\ ~ in_table s h /\ readers s !! h = None /\
    (exists id ls, managedListeningSockets_ s !! id = Some ls /\ ml_handle ls = l) /\ forall l', waits_in s h l' -> l' = l;
  inv_nodup : forall l A, listeners s !! l = Some A -> NoDup (acceptedConnections A);
  (** asynchronous sockets, and only they, have their thread *)
  inv_async : forall id st, managedSockets_ s !! id = Some st ->
    if ms_asyncData st then exists run, readers s !! ms_connection st = Some (mkReader st run)
    else readers s !! ms_connection st = None;
  inv_reader : forall h r, readers s !! h = Some r ->
    ms_connection (rd_socket r) = h /\ ms_asyncData (rd_socket r) = true /\ is_Some (connections s !! h) /\
    (terminated_ s = false -> rd_running r = false -> managedSockets_ s !! ms_socketId (rd_socket r) = Some (rd_socket r));
  (** every open connection is owned *)
  inv_owned : terminated_ s = false -> forall h, is_Some (connections s !! h) -> in_table s h \/ (exists l, waits_in s h l) \/ read_by_thread s h;
  inv_next : forall h, (next_handle s <= h)%nat -> connections s !! h = None /\ listeners s !! h = None }.

Lemma inv_initial : bsd_inv initial_bsd.
Proof.
  split; cbn; intros; try (by rewrite lookup_empty in *).
  all: match goal with H : waits_in _ _ _ |- _ => destruct H as (A & H & _); cbn in H; by rewrite lookup_empty in H
       | H : is_Some _ |- _ => destruct H as [? H]; by rewrite lookup_empty in H | |- _ => idtac end.
Qed.

(** A handle that was not given out yet is nowhere. *)
Lemma fresh_reader s h : bsd_inv s -> (next_handle s <= h)%nat -> readers s !! h = None.
Proof.
  intros I Hh. destruct (readers s !! h) as [r|] eqn:E; [|done].
  destruct (inv_reader s I h r E) as (_ & _ & [c Hc] & _). by destruct (inv_next s I h Hh); simplify_eq.
Qed.
Lemma fresh_table s h : bsd_inv s -> (next_handle s <= h)%nat -> ~ in_table s h.
Proof.
  intros I Hh (id & st & E & <-). destruct (inv_socket s I id st E) as [_ [c Hc]].
  by destruct (inv_next s I _ Hh); simplify_eq.
Qed.
Lemma fresh_waits s h l : bsd_inv s -> (next_handle s <= h)%nat -> ~ waits_in s h l.
Proof.
  intros I Hh W. destruct (inv_waits s I h l W) as [[c Hc] _]. by destruct (inv_next s I _ Hh); simplify_eq.
Qed.

Ltac bsd_lookup := repeat match goal with
  | H : <[_ := _]> _ !! _ = Some _ |- _ => apply lookup_insert_Some in H as [[? ?]|[? ?]]; simplify_eq
  | H : delete _ _ !! _ = Some _ |- _ => apply lookup_delete_Some in H as [? ?]
  end.

(** Handles may be skipped. *)
Lemma inv_skip s n : bsd_inv s -> (next_handle s <= n)%nat -> bsd_inv (set_next s n).
Proof.
  intros [] Hn. split; try done. cbn. intros h Hh. apply inv_next0. lia.
Qed.

(** Whether a thread was started, an asynchronous socket without one gets it. *)
Lemma readers_startReader s st h : 
  readers (startReader s st) !! h =
    if ms_asyncData st && (h =? ms_connection st)%nat then Some (mkReader st true) else readers s !! h.
Proof.
  unfold startReader. destruct (ms_asyncData st); [|done]. cbn.
  destruct (Nat.eqb_spec h (ms_connection st)) as [->|]; [by rewrite lookup_insert_eq|by rewrite lookup_insert_ne].
Qed.

(** The other components are as they were. *)
Lemma startReader_keeps s st :
  managedSockets_ (startReader s st) = managedSockets_ s /\ managedListeningSockets_ (startReader s st) = managedListeningSockets_ s /\
  connections (startReader s st) = connections s /\ listeners (startReader s st) = listeners s /\
  next_handle (startReader s st) = next_handle s /\ terminated_ (startReader s st) = terminated_ s.
Proof. unfold startReader. by destruct (ms_asyncData st). Qed.

(** An open connection that nobody owns but the caller is put into the table. *)
Record pre_inv (s : BsdSockets) (h : nat) : Prop := {
  pre_used : (h < next_handle s)%nat;
  pre_open : is_Some (connections s !! h);
  pre_table : ~ in_table s h;
  pre_waits : forall l, ~ waits_in s h l;
  pre_reader : readers s !! h = None;
  (** without it, the state is consistent *)
  pre_rest : bsd_inv (set_connections s (delete h (connections s))) }.

Lemma inv_enter s st :
  pre_inv s (ms_connection st) -> managedSockets_ s !! ms_socketId st = None ->
  bsd_inv (startReader (set_sockets s (<[ms_socketId st := st]> (managedSockets_ s))) st).
Proof.
  intros [Hused Ho Ht Hw Hr I] Hid.
  set (s' := set_sockets s (<[ms_socketId st := st]> (managedSockets_ s))).
  destruct (startReader_keeps s' st) as (E1 & E2 & E3 & E4 & E5 & E6).
  pose proof (readers_startReader s' st) as ER. set (s2 := startReader s' st) in *. clearbody s2. cbn in E1, E2, E3, E4, E5, E6, ER.
  destruct I as [I1 I2 I3 I4 I5 I6 I7 I8 I9 I10]; cbn in *.
  assert (forall h' l, waits_in s2 h' l <-> waits_in s h' l) as EW by (intros; unfold waits_in; by rewrite E4).
  assert (forall h', h' <> ms_connection st -> is_Some (connections s !! h') -> is_Some (delete (ms_connection st) (connections s) !! h')) as Hdel.
  { intros h' Hne. by rewrite lookup_delete_ne by done. }
  split.
  - rewrite E1, E3. intros id x Hx. bsd_lookup; [done|]. destruct (I1 id x) as [? [c Hc]]; [done|]. bsd_lookup. eauto.
  - rewrite E1. intros id id' x x' Hx Hx' Hc. bsd_lookup; [done| | |by eapply I2].
    + destruct Ht. eexists _, _. split; [eassumption|congruence].
    + destruct Ht. eexists _, _. split; [eassumption|congruence].
  - rewrite E2, E4. apply I3.
  - rewrite E2. apply I4.
  - intros h l W%EW. rewrite E2, E3. pose proof W as W0. apply I5 in W0 as ([c Hc] & Hn & Hn' & Hl & Hu). bsd_lookup.
    split_and!; [eauto| | |done|intros l' ?%EW; by apply Hu].
    + intros (id & x & Hx & <-). rewrite E1 in Hx. bsd_lookup. apply Hn. exists id, x. done.
    + rewrite ER. by rewrite (proj2 (Nat.eqb_neq _ _)), andb_false_r by done.
  - rewrite E4. apply I6.
  - rewrite E1. intros id x Hx. rewrite ER. bsd_lookup.
    + rewrite Nat.eqb_refl. destruct (ms_asyncData x); cbn; eauto.
    + assert (ms_connection x <> ms_connection st) by (intros Hc; apply Ht; by exists id, x).
      rewrite (proj2 (Nat.eqb_neq _ _)), andb_false_r by done. by apply I7 in H0.
  - rewrite E1, E3, E6. intros h r. rewrite ER. destruct (ms_asyncData st) eqn:Ea; cbn.
    + destruct (Nat.eqb_spec h (ms_connection st)) as [->|Hne].
      * intros [= <-]. cbn. split_and!; try done.
      * intros Hx. apply I8 in Hx as (? & ? & [c Hc] & Hrun). bsd_lookup. split_and!; [done..|eauto|].
        intros Ht' Hr'. specialize (Hrun Ht' Hr'). rewrite lookup_insert_ne; [done|]. intros Heq. by rewrite <- Heq, Hid in Hrun.
    + intros Hx. apply I8 in Hx as (? & ? & [c Hc] & Hrun). bsd_lookup. split_and!; [done..|eauto|].
      intros Ht' Hr'. specialize (Hrun Ht' Hr'). rewrite lookup_insert_ne; [done|]. intros Heq. by rewrite <- Heq, Hid in Hrun.
  - rewrite E6, E3. intros Hterm h Hop. destruct (decide (h = ms_connection st)) as [->|Hne].
    + left. exists (ms_socketId st), st. rewrite E1, lookup_insert_eq. done.
    + destruct (I9 Hterm h) as [(id & x & Hx & Hc)|[[l Hl]|[x Hx]]]; [by rewrite lookup_delete_ne|..].
      * left. exists id, x. rewrite E1, lookup_insert_ne; [done|]. intros <-. cbn in Hx. congruence.
      * right; left. exists l. apply EW. done.
      * right; right. exists x. rewrite ER. cbn in Hx.
        by rewrite (proj2 (Nat.eqb_neq _ _)), andb_false_r by done.
  - rewrite E3, E4, E5. intros h Hh. destruct (I10 h Hh) as [Hc Hl]. split; [|done].
    rewrite lookup_delete_ne in Hc by lia. done.
Qed.

(** A new connection. *)
Lemma pre_add s c : bsd_inv s -> pre_inv (addConnection s c).2 (next_handle s).
Proof.
  intros I. unfold addConnection. cbn. split; cbn.
  - lia.
  - by rewrite lookup_insert_eq.
  - apply (fresh_table s _ I). lia.
  - intros l. apply (fresh_waits s _ _ I). lia.
  - by apply fresh_reader.
  - rewrite delete_insert_id by (apply (inv_next s I); lia).
    refine (inv_skip s _ I _). cbn. lia.
Qed.

(** A connection leaves the queue of its listener. *)
Lemma pre_pop s l h rest :
  bsd_inv s -> listeners s !! l = Some (mkAccepted (h :: rest) false) ->
  pre_inv (set_listeners s (<[l := mkAccepted rest false]> (listeners s))) h.
Proof.
  intros I Hl. set (s' := set_listeners _ _).
  assert (waits_in s h l) as W by (eexists; split; [exact Hl|left]).
  destruct (inv_waits s I h l W) as (Ho & Ht & Hr & Hls & Hu).
  pose proof (inv_nodup s I l _ Hl) as ND. cbn in ND. apply NoDup_cons in ND as [Hnin ND].
  assert (forall h' l', waits_in s' h' l' -> waits_in s h' l') as EW.
  { intros h' l' (A & HA & Hin). cbn in HA. bsd_lookup; [|by exists A]. eexists; split; [exact Hl|by right]. }
  assert (forall l', ~ waits_in s' h l') as Hn.
  { intros l' W'. pose proof (Hu l' (EW _ _ W')) as ->. destruct W' as (A & HA & Hin). cbn in HA. bsd_lookup; done. }
  destruct I as [I1 I2 I3 I4 I5 I6 I7 I8 I9 I10].
  split; [|done..|].
  { destruct (decide (h < next_handle s)%nat); [done|]. destruct Ho as [c Ho]. destruct (I10 h) as [HH _]; [lia|congruence]. }
  split; cbn; try done.
  - intros id st Hst. destruct (I1 _ _ Hst) as [? [c Hc]]. split; [done|]. exists c. rewrite lookup_delete_ne; [done|].
    intros Heq. apply Ht. by exists id, st.
  - intros id ls Hx. destruct (I3 _ _ Hx) as [? [hs Hc]]. split; [done|].
    destruct (decide (l = ml_handle ls)) as [->|]; [rewrite lookup_insert_eq|rewrite lookup_insert_ne by done]; eauto.
  - intros h' l' W'. destruct (I5 h' l' (EW _ _ W')) as ([c Hc] & ? & ? & ? & Hu').
    assert (h <> h') by (intros ->; by destruct (Hn l')).
    split_and!; try done; [rewrite lookup_delete_ne by done; eauto|]. intros l'' W''. apply Hu', EW, W''.
  - intros l' A HA. bsd_lookup; [done|eauto].
  - intros h' r Hr'. destruct (I8 h' r Hr') as (? & ? & [c Hc] & ?).
    split_and!; try done. exists c. rewrite lookup_delete_ne; [done|congruence].
  - intros Hterm h' [c Hc]. bsd_lookup. destruct (I9 Hterm h') as [?|[[l' (A & HA & Hin)]|?]]; [eauto|by left|right;left|by right;right].
    exists l'. destruct (decide (l = l')) as [->|].
    + rewrite Hl in HA. simplify_eq. eexists; split; [cbn; apply lookup_insert_eq|].
      by inversion Hin; subst.
    + exists A. split; [cbn; by rewrite lookup_insert_ne|done].
  - intros h' Hh. destruct (I10 h' Hh) as [Hc Hl']. split; [by apply lookup_delete_None; right|].
    rewrite lookup_insert_ne; [done|]. congruence.
Qed.

(** A thread is the only owner of a connection. *)
Lemma inv_orphan s st :
  pre_inv s (ms_connection st) -> ms_asyncData st = true -> bsd_inv (startReader s st).
Proof.
  intros [Hused Ho Ht Hw Hr I] Ha. unfold startReader. rewrite Ha.
  destruct I as [I1 I2 I3 I4 I5 I6 I7 I8 I9 I10]; cbn in *. split; cbn; try done.
  - intros id x Hx. destruct (I1 _ _ Hx) as [? [c Hc]]. bsd_lookup. eauto.
  - intros h l W. destruct (I5 h l W) as ([c Hc] & ? & ? & ? & ?). bsd_lookup. split_and!; try done; try (by eauto).
    by rewrite lookup_insert_ne.
  - intros id x Hx. specialize (I7 _ _ Hx). rewrite lookup_insert_ne; [done|]. intros E. apply Ht. by exists id, x.
  - intros h r Hx. bsd_lookup; [done|]. destruct (I8 h r) as (? & ? & [c Hc] & ?); [done|]. bsd_lookup.
    split_and!; try done; eauto.
  - intros Hterm h Hop. destruct (decide (h = ms_connection st)) as [->|Hne].
    + right; right. exists st. cbn. by rewrite lookup_insert_eq.
    + destruct (I9 Hterm h) as [?|[?|[x Hx]]]; [by rewrite lookup_delete_ne|by left|by right; left|right;right].
      exists x. cbn in *. by rewrite lookup_insert_ne.
  - intros h Hh. destruct (I10 h Hh) as [Hc ?]. split; [|done]. by rewrite lookup_delete_ne in Hc by lia.
Qed.

(** A socket leaves the table and its thread is joined. *)
Lemma pre_leave s st :
  bsd_inv s -> managedSockets_ s !! ms_socketId st = Some st ->
  pre_inv (set_readers (set_sockets s (delete (ms_socketId st) (managedSockets_ s))) (delete (ms_connection st) (readers s)))
    (ms_connection st).
Proof.
  intros I Hst. destruct (inv_socket s I _ _ Hst) as [_ Ho].
  assert (forall l, ~ waits_in s (ms_connection st) l) as Hw.
  { intros l W. destruct (inv_waits s I _ _ W) as (_ & Hn & _). apply Hn. eexists _, _. eauto. }
  assert (forall id x, managedSockets_ s !! id = Some x -> id <> ms_socketId st -> ms_connection x <> ms_connection st) as Hd.
  { intros id x Hx Hne Hc. apply Hne. by apply (inv_distinct s I id _ x st). }
  destruct I as [I1 I2 I3 I4 I5 I6 I7 I8 I9 I10].
  split; cbn; [| done | | done | by rewrite lookup_delete_eq | split; cbn; try done].
  - destruct (decide (ms_connection st < next_handle s)%nat); [done|]. destruct Ho as [c Ho]. destruct (I10 (ms_connection st)) as [HH _]; [lia|congruence].
  - intros (id & x & Hx & Hc). cbn in Hx. bsd_lookup. by apply (Hd id x).
  - intros id x Hx. bsd_lookup. destruct (I1 _ _ H0) as [? [c Hc]]. split; [done|]. exists c.
    rewrite lookup_delete_ne; [done|]. by apply not_eq_sym, (Hd id).
  - intros id id' x x' Hx Hx'. bsd_lookup. by apply I2.
  - intros h l W. destruct (I5 h l W) as ([c Hc] & Hn & ? & ? & ?).
    assert (h <> ms_connection st) by (intros ->; by apply (Hw l)).
    split_and!; try done; [rewrite lookup_delete_ne by done; eauto| |by apply lookup_delete_None; right].
    intros (id & x & Hx & <-). cbn in Hx. bsd_lookup. apply Hn. by exists id, x.
  - intros id x Hx. bsd_lookup. specialize (I7 _ _ H0). rewrite lookup_delete_ne; [done|]. by apply not_eq_sym, (Hd id).
  - intros h r Hr. bsd_lookup. destruct (I8 h r) as (Hcr & ? & [c Hc] & Hrun); [done|]. split_and!; [done..| |].
    + rewrite lookup_delete_ne by done. eauto.
    + intros Ht Hr. specialize (Hrun Ht Hr). rewrite lookup_delete_ne; [done|]. intros Heq. rewrite <- Heq, Hst in Hrun. congruence.
  - intros Hterm h [c Hc]. bsd_lookup. destruct (I9 Hterm h) as [(id & x & Hx & Hxc)|[?|[x Hx]]]; [eauto|left|by right; left|right;right].
    + exists id, x. cbn. rewrite lookup_delete_ne; [done|]. congruence.
    + exists x. cbn. by rewrite lookup_delete_ne.
  - intros h Hh. destruct (I10 h Hh). split; [by apply lookup_delete_None; right|done].
Qed.

(** [stopManagedSocket] of a socket that is taken out of the table. *)
Lemma inv_stop s st :
  bsd_inv s -> managedSockets_ s !! ms_socketId st = Some st ->
  bsd_inv (stopManagedSocket (set_sockets s (delete (ms_socketId st) (managedSockets_ s))) st).1.
Proof. intros I Hst. exact (pre_rest _ _ (pre_leave s st I Hst)). Qed.

(** A socket that was just put into the table is taken out again and closed: only
    its connection is gone. *)
Lemma eraseAndStop_entered s st :
  pre_inv s (ms_connection st) -> managedSockets_ s !! ms_socketId st = None ->
  (eraseAndStop (set_sockets s (<[ms_socketId st := st]> (managedSockets_ s))) st).1 =
  set_connections s (delete (ms_connection st) (connections s)).
Proof.
  intros P Hid. unfold eraseAndStop, stopManagedSocket. destruct s. cbn in *.
  rewrite delete_insert_id by done. rewrite (delete_id readers0) by exact (pre_reader _ _ P). done.
Qed.

(** The table gives up a socket that is not stopped. *)
Lemma inv_release s st :
  bsd_inv s -> managedSockets_ s !! ms_socketId st = Some st ->
  bsd_inv (releaseSocket (set_sockets s (delete (ms_socketId st) (managedSockets_ s))) st).1.
Proof.
  intros I Hst. pose proof (pre_leave s st I Hst) as P. unfold releaseSocket. cbn.
  destruct (readers s !! ms_connection st) as [r|] eqn:Er.
  2: { pose proof (pre_rest _ _ P) as Q. unfold set_readers in Q. cbn in *. by rewrite (delete_id (readers s)) in Q. }
  assert (r = mkReader st (rd_running r)) as Hr.
  { destruct (inv_reader s I _ _ Er) as (Hc & Ha & _). pose proof (inv_async s I _ _ Hst) as Hs.
    destruct (ms_asyncData st); [destruct Hs as [run Hs]|]; rewrite Er in Hs; simplify_eq. done. }
  assert (forall id x, managedSockets_ s !! id = Some x -> id <> ms_socketId st -> ms_connection x <> ms_connection st) as Hd.
  { intros id x Hx Hne Hc. apply Hne. by apply (inv_distinct s I id _ x st). }
  destruct I as [I1 I2 I3 I4 I5 I6 I7 I8 I9 I10].
  destruct (rd_running r) eqn:Erun; split; cbn; try done; try (by intros; bsd_lookup; eauto).
  all: try (intros h l W; destruct (I5 h l W) as (? & Hn & ? & ? & ?); split_and!; try done;
            intros (id & x & Hx & Hxc); cbn in Hx; bsd_lookup; apply Hn; by exists id, x).
  all: try (intros id x Hx; bsd_lookup; by apply I7 with id).
  - intros h x Hx. destruct (I8 h x Hx) as (? & ? & ? & Hrun). split_and!; try done. intros Ht Hf.
    specialize (Hrun Ht Hf). rewrite lookup_delete_ne; [done|]. intros Heq. rewrite <- Heq, Hst in Hrun.
    injection Hrun as Hrun. rewrite <- Hrun in *. assert (x = r) as -> by congruence. congruence.
  - intros Hterm h Hop. destruct (I9 Hterm h Hop) as [(id & x & Hx & Hxc)|[?|?]]; [|by right; left|by right; right].
    destruct (decide (id = ms_socketId st)) as [->|Hne].
    + right; right. exists st. cbn. assert (x = st) as -> by congruence. subst h. rewrite Er, Hr. done.
    + left. exists id, x. cbn. by rewrite lookup_delete_ne.
  - intros h x Hx. destruct (I8 h x Hx) as (? & ? & ? & Hrun). done.
Qed.

(** The bytes of a connection move on. *)
Lemma inv_update s h c :
  bsd_inv s -> is_Some (connections s !! h) -> bsd_inv (set_connections s (<[h := c]> (connections s))).
Proof.
  intros I Hh.
  assert (forall k, is_Some (<[h := c]> (connections s) !! k) <-> is_Some (connections s !! k)) as E.
  { intros k. destruct (decide (h = k)) as [->|]; [rewrite lookup_insert_eq|by rewrite lookup_insert_ne].
    split; [done|eauto]. }
  destruct I as [I1 I2 I3 I4 I5 I6 I7 I8 I9 I10]. split; cbn; try done; intros; rewrite ?E.
  - by apply I1.
  - by apply I5.
  - by apply I8.
  - apply I9; [done|]. by apply E.
  - destruct (I10 h0); [done|]. rewrite lookup_insert_ne; [done|]. intros ->. destruct Hh. congruence.
Qed.

(** The loop of a thread ends. *)
Lemma inv_reader_end s h st :
  bsd_inv s -> readers s !! h = Some (mkReader st true) ->
  let s' := set_readers s (<[h := mkReader st false]> (readers s)) in
  bsd_inv (if holdsSocket s' st then s' else terminate s').
Proof.
  intros I Hr s'. destruct (inv_reader s I _ _ Hr) as (Hc & Ha & Ho & _). cbn in Hc, Ha.
  assert (holdsSocket s' st = true -> managedSockets_ s !! ms_socketId st = Some st) as Hh.
  { unfold holdsSocket. cbn. destruct (managedSockets_ s !! ms_socketId st) as [st'|] eqn:E; [|done].
    intros Heq%Nat.eqb_eq. pose proof (inv_async s I _ _ E) as Hs. rewrite Heq, Hc, Hr in Hs.
    destruct (ms_asyncData st'); [destruct Hs as [? Hs]|]; congruence. }
  destruct (holdsSocket s' st); [specialize (Hh eq_refl)|clear Hh].
  all: subst s'; destruct I as [I1 I2 I3 I4 I5 I6 I7 I8 I9 I10]; split; cbn; try done.
  all: try (intros h' l W; destruct (I5 h' l W) as (? & ? & ? & ? & ?); split_and!; try done;
            rewrite lookup_insert_ne; [done|congruence]).
  all: try (intros id x Hx; specialize (I7 _ _ Hx); destruct (decide (h = ms_connection x)) as [->|];
            [rewrite lookup_insert_eq, Hr in *|by rewrite lookup_insert_ne];
            destruct (ms_asyncData x); [destruct I7; simplify_eq; eauto|done]).
  - intros h' r Hx. bsd_lookup; [done|by apply I8].
  - intros Hterm h' Hop. destruct (I9 Hterm h' Hop) as [?|[?|[x Hx]]]; [by left|by right; left|].
    destruct (decide (h = h')) as [->|].
    + left. by exists (ms_socketId st), st.
    + right; right. exists x. cbn. by rewrite lookup_insert_ne.
  - intros h' r Hx. bsd_lookup; [done|]. destruct (I8 h' r) as (? & ? & ? & ?); done.
Qed.

Lemma waits_insert s h l l' A :
  waits_in (set_listeners s (<[l := A]> (listeners s))) h l' <->
  (l' = l /\ h ∈ acceptedConnections A) \/ (l' <> l /\ waits_in s h l').
Proof.
  unfold waits_in. cbn. destruct (decide (l' = l)) as [->|Hne].
  - split; [intros (B & HB & Hin); rewrite lookup_insert_eq in HB; simplify_eq; eauto|].
    intros [[_ Hin]|[? _]]; [|done]. exists A. by rewrite lookup_insert_eq.
  - rewrite lookup_insert_ne by done. split; [by right|]. by intros [[]|[]].
Qed.

(** A new listener. *)
Lemma inv_listen s ls :
  bsd_inv s -> managedListeningSockets_ s !! ml_socketId ls = None -> ml_handle ls = next_handle s ->
  bsd_inv (set_listening (set_next (set_listeners s (<[ml_handle ls := mkAccepted [] false]> (listeners s))) (S (ml_handle ls)))
             (<[ml_socketId ls := ls]> (managedListeningSockets_ s))).
Proof.
  intros I Hid Hh. set (l := ml_handle ls) in *.
  assert (listeners s !! l = None) as Hl by (apply (inv_next s I); lia).
  assert (forall id x, managedListeningSockets_ s !! id = Some x -> ml_handle x <> l) as Hne.
  { intros id x Hx Heq. destruct (inv_listener s I _ _ Hx) as [_ [hs E]]. congruence. }
  destruct I as [I1 I2 I3 I4 I5 I6 I7 I8 I9 I10].
  assert (forall h l', waits_in s h l' -> l' <> l) as Hw by (intros h l' (A & HA & _) ->; congruence).
  split; cbn; try done.
  - intros id x Hx. bsd_lookup; [rewrite lookup_insert_eq; eauto|].
    destruct (I3 id x) as [? [hs E]]; [done|]. rewrite lookup_insert_ne by (by apply not_eq_sym, (Hne id)). eauto.
  - intros id id' x x' Hx Hx' Heq. bsd_lookup; [done| | |by eapply I4].
    + exfalso. eapply Hne; [eassumption|congruence].
    + exfalso. eapply Hne; [eassumption|congruence].
  - intros h l' W. change (waits_in (set_listeners s (<[l := mkAccepted [] false]> (listeners s))) h l') in W.
    apply waits_insert in W as [[_ Hin]|[Hn W]]; [by apply elem_of_nil in Hin|].
    destruct (I5 h l' W) as (? & ? & ? & (id & x & Hx & <-) & Hu). split_and!; try done.
    + exists id, x. split; [|done]. rewrite lookup_insert_ne; [done|]. congruence.
    + intros l'' W'. change (waits_in (set_listeners s (<[l := mkAccepted [] false]> (listeners s))) h l'') in W'.
      apply waits_insert in W' as [[_ Hin]|[_ W']]; [by apply elem_of_nil in Hin|]. by apply Hu.
  - intros l' A HA. bsd_lookup; [apply NoDup_nil_2|eauto].
  - intros Hterm h Hop. destruct (I9 Hterm h Hop) as [?|[[l' W]|?]]; [by left|right;left|by right; right].
    exists l'. change (waits_in (set_listeners s (<[l := mkAccepted [] false]> (listeners s))) h l').
    apply waits_insert. right. split; [by eapply Hw|done].
  - intros h Hh'. destruct (I10 h); [lia|]. split; [done|]. rewrite lookup_insert_ne by lia. done.
Qed.

(** A listener that is not in the table and has no waiting connections. *)
Lemma inv_stopped s l :
  bsd_inv s -> (forall h, ~ waits_in s h l) -> (forall id ls, managedListeningSockets_ s !! id = Some ls -> ml_handle ls <> l) ->
  (l < next_handle s)%nat ->
  bsd_inv (set_listeners s (<[l := mkAccepted [] true]> (listeners s))).
Proof.
  intros [I1 I2 I3 I4 I5 I6 I7 I8 I9 I10] Hw Hne Hused. 
  split; cbn; try done.
  - intros id x Hx. destruct (I3 _ _ Hx) as [? [hs E]].
    rewrite lookup_insert_ne by (by apply not_eq_sym, (Hne id)). eauto.
  - intros h l' W. apply waits_insert in W as [[_ Hin]|[Hn W]]; [by apply elem_of_nil in Hin|].
    destruct (I5 h l' W) as (? & ? & ? & ? & Hu). split_and!; try done.
    intros l'' W'. apply waits_insert in W' as [[_ Hin]|[_ W']]; [by apply elem_of_nil in Hin|]. by apply Hu.
  - intros l' A HA. bsd_lookup; [apply NoDup_nil_2|eauto].
  - intros Hterm h Hop. destruct (I9 Hterm h Hop) as [?|[[l' W]|?]]; [by left|right;left|by right; right].
    exists l'. apply waits_insert. right. split; [intros ->; by apply (Hw h)|done].
  - intros h Hh'. destruct (I10 h); [lia|]. split; [done|]. rewrite lookup_insert_ne by lia. done.
Qed.

(** The queue of a listener is closed, one connection at a time. *)
Lemma inv_close_queue hs s l :
  bsd_inv s -> listeners s !! l = Some (mkAccepted hs false) ->
  bsd_inv (set_connections (set_listeners s (<[l := mkAccepted [] false]> (listeners s))) (foldl (fun m h => delete h m) (connections s) hs)).
Proof.
  revert s. induction hs as [|h hs IH]; intros s I Hl; cbn.
  { destruct s; cbn in *. unfold set_listeners; cbn. rewrite insert_id by done. done. }
  pose proof (pre_rest _ _ (pre_pop s l h hs I Hl)) as I'.
  specialize (IH _ I'). cbn in IH. rewrite lookup_insert_eq in IH. specialize (IH eq_refl).
  by rewrite insert_insert_eq in IH.
Qed.

(** A listener with an empty queue leaves the table. *)
Lemma inv_unlisten s ls :
  bsd_inv s -> listeners s !! ml_handle ls = Some (mkAccepted [] false) ->
  managedListeningSockets_ s !! ml_socketId ls = Some ls ->
  bsd_inv (set_listening s (delete (ml_socketId ls) (managedListeningSockets_ s))).
Proof.
  intros I Hl Hls. assert (forall h, ~ waits_in s h (ml_handle ls)) as Hw.
  { intros h (A & HA & Hin). rewrite Hl in HA. simplify_eq. by apply elem_of_nil in Hin. }
  destruct I as [I1 I2 I3 I4 I5 I6 I7 I8 I9 I10]. split; cbn; try done.
  - intros id x Hx. bsd_lookup. by apply I3.
  - intros id id' x x' Hx Hx'. bsd_lookup. by apply I4.
  - intros h l W. destruct (I5 h l W) as (? & ? & ? & (id & x & Hx & Hxl) & ?). split_and!; try done.
    exists id, x. split; [|done]. rewrite lookup_delete_ne; [done|]. intros Heq. rewrite <- Heq, Hls in Hx. simplify_eq.
    by apply (Hw h).
Qed.

(** [stopManagedListener] of a listener that is taken out of the table. *)
Lemma inv_stop_listener s ls :
  bsd_inv s -> managedListeningSockets_ s !! ml_socketId ls = Some ls ->
  bsd_inv (stopManagedListener (set_listening s (delete (ml_socketId ls) (managedListeningSockets_ s))) ls).1.
Proof.
  intros I Hls. destruct (inv_listener s I _ _ Hls) as [_ [hs Hl]].
  pose proof (inv_close_queue hs s _ I Hl) as I1.
  pose proof (inv_unlisten _ ls I1 (lookup_insert_eq _ _ _) Hls) as I2.
  unfold stopManagedListener. cbn. rewrite Hl. cbn.
  pose proof (inv_stopped _ (ml_handle ls) I2) as I3. unfold set_listeners at 1 in I3. cbn in I3.
  rewrite insert_insert_eq in I3. apply I3.
  - intros h (A & HA & Hin). cbn in HA. rewrite lookup_insert_eq in HA. simplify_eq. by apply elem_of_nil in Hin.
  - intros id x Hx Heq. apply lookup_delete_Some in Hx as [Hne Hx]. apply Hne. by eapply (inv_listener_distinct s I).
  - destruct (decide (ml_handle ls < next_handle s)%nat); [done|].
    destruct (inv_next s I (ml_handle ls)) as [_ HH]; [lia|congruence].
Qed.

(** A connection is put into the queue of a listener. *)
Lemma inv_push s ls hs h :
  pre_inv s h -> managedListeningSockets_ s !! ml_socketId ls = Some ls ->
  listeners s !! ml_handle ls = Some (mkAccepted hs false) ->
  bsd_inv (set_listeners s (<[ml_handle ls := mkAccepted (hs ++ [h]) false]> (listeners s))).
Proof.
  intros [Hused Ho Ht Hw Hr I] Hls Hl. set (l := ml_handle ls) in *.
  destruct I as [I1 I2 I3 I4 I5 I6 I7 I8 I9 I10]; cbn in *.
  assert (forall h' l', waits_in (set_listeners s (<[l := mkAccepted (hs ++ [h]) false]> (listeners s))) h' l' <->
            waits_in s h' l' \/ (h' = h /\ l' = l)) as EW.
  { intros h' l'. rewrite waits_insert. cbn. rewrite elem_of_app, list_elem_of_singleton. unfold waits_in.
    destruct (decide (l' = l)) as [->|]; [rewrite Hl|]; split.
    - intros [[_ [?|?]]|[? _]]; [left; eexists; eauto|by right|done].
    - intros [(A & [= <-] & Hin)|[-> _]]; left; auto.
    - intros [[? _]|[_ ?]]; [done|by left].
    - intros [?|[_ ?]]; [by right|done]. }
  split; cbn; try done.
  - intros id x Hx. destruct (I1 _ _ Hx) as [? [c Hc]]. bsd_lookup. eauto.
  - intros id x Hx. destruct (I3 _ _ Hx) as [? [hs' E]]. split; [done|].
    destruct (decide (l = ml_handle x)) as [->|]; [rewrite lookup_insert_eq|rewrite lookup_insert_ne by done]; eauto.
  - intros h' l' [W|[-> ->]]%EW.
    + destruct (I5 h' l' W) as ([c Hc] & ? & ? & ? & Hu). bsd_lookup. split_and!; try done; try (by eauto).
      intros l'' [W'|[-> _]]%EW; [by apply Hu|done].
    + split_and!; try done; [by eauto|]. intros l'' [W'|[_ ->]]%EW; [by destruct (Hw l'')|done].
  - intros l' A HA. bsd_lookup; [|by eapply I6]. cbn. apply NoDup_app. split_and!; [by apply (I6 _ _ Hl)| |apply NoDup_singleton].
    intros x Hx ->%list_elem_of_singleton. by eapply Hw; eexists.
  - intros h' r Hx. destruct (I8 h' r Hx) as (? & ? & [c Hc] & ?). bsd_lookup. split_and!; try done; eauto.
  - intros Hterm h' Hop. destruct (decide (h' = h)) as [->|Hne]; [right; left; exists l; apply EW; by right|].
    destruct (I9 Hterm h') as [?|[[l' W]|?]]; [by rewrite lookup_delete_ne|by left|right;left|by right; right].
    exists l'. apply EW. by left.
  - intros h' Hh. destruct (I10 h' Hh) as [Hc Hl']. rewrite lookup_delete_ne in Hc by lia. split; [done|].
    rewrite lookup_insert_ne; [done|]. congruence.
Qed.

Lemma emplace_new {V} k (v : V) m : m !! k = None -> emplace k v m = <[k := v]> m.
Proof. unfold emplace. by intros ->. Qed.
Lemma emplace_old {V} k (v w : V) m : m !! k = Some w -> emplace k v m = m.
Proof. unfold emplace. by intros ->. Qed.

(** What was taken out is put back. *)
Lemma emplace_delete {V} k (v : V) m : m !! k = Some v -> emplace k v (delete k m) = m.
Proof. intros Hv. rewrite emplace_new by apply lookup_delete_eq. by apply insert_delete_id. Qed.

(** Releasing one socket and stopping another commute. *)
Lemma release_stop s old st :
  ms_connection old <> ms_connection st ->
  (stopManagedSocket (releaseSocket s old).1 st).1 = (releaseSocket (stopManagedSocket s st).1 old).1.
Proof.
  intros Hne. unfold stopManagedSocket, releaseSocket. cbn. rewrite lookup_delete_ne by done.
  destruct (readers s !! ms_connection old) as [r|]; [by destruct (rd_running r)|].
  unfold set_connections, set_readers. cbn. f_equal. apply delete_delete.
Qed.

(** [stopManagedSocket] of a socket without a thread. *)
Lemma stop_without_reader s st :
  readers s !! ms_connection st = None ->
  (stopManagedSocket s st).1 = set_connections s (delete (ms_connection st) (connections s)).
Proof. intros Hr. unfold stopManagedSocket. destruct s. cbn in *. by rewrite (delete_id readers0). Qed.

Lemma registerConnectedSocket_inv send_ok s m c id hp async share b s' e :
  bsd_inv s -> registerConnectedSocket send_ok s m c id hp async share = (b, s', e) -> bsd_inv s'.
Proof.
  intros I. unfold registerConnectedSocket. destruct (senderNodeIdFromMessage m) as [g|]; [|by intros [= _ <- _]].
  pose proof (pre_add s c I) as P. destruct (addConnection s c) as [h s1] eqn:Ea. unfold addConnection in Ea.
  injection Ea as <- E1. cbn [snd] in P. set (st := mkSocket _ _ _ _ _ _ _).
  assert (managedSockets_ s1 = managedSockets_ s) as E2 by (by rewrite <- E1). rewrite <- E2.
  pose proof (pre_rest _ _ P) as Q. pose proof (pre_reader _ _ P) as Hr.
  destruct (managedSockets_ s1 !! id) as [old|] eqn:Eid.
  - rewrite (emplace_old _ _ old) by done.
    assert (set_sockets s1 (managedSockets_ s1) = s1) as -> by (by destruct s1).
    destruct (inv_socket _ Q _ _ Eid) as [Hid _].
    assert (ms_connection old <> ms_connection st) as Hne.
    { intros Heq. apply (pre_table _ _ P). by exists id, old. }
    destruct (negb _).
    + pose proof (inv_release _ old Q) as R. cbn in R. rewrite Hid in R. specialize (R Eid).
      pose proof (release_stop (set_sockets s1 (delete id (managedSockets_ s1))) old st Hne) as E.
      destruct (releaseSocket (set_sockets s1 _) old) as [s3 e3]. cbn [fst] in E.
      destruct (stopManagedSocket s3 st) as [s4 e4]. intros [= _ <- _]. cbn [fst] in E. rewrite E.
      rewrite stop_without_reader by done. exact R.
    + destruct (ms_asyncData st) eqn:Es.
      * unfold releaseSocket. rewrite readers_startReader, Es. cbn. rewrite Nat.eqb_refl. intros [= _ <- _].
        by apply inv_orphan.
      * replace (startReader s1 st) with s1 by (unfold startReader; by rewrite Es).
        unfold releaseSocket. cbn. rewrite Hr. intros [= _ <- _]. done.
  - rewrite emplace_new by done. destruct (negb _).
    + pose proof (eraseAndStop_entered s1 st P Eid) as E. unfold eraseAndStop in E.
      destruct (stopManagedSocket _ st) as [s4 e4]. cbn [fst] in E. intros [= _ <- _]. by rewrite E.
    + intros [= _ <- _]. by apply (inv_enter s1 st P).
Qed.

Lemma handleConnectTCPRequest_inv send_ok s connect m b s' e :
  bsd_inv s -> handleConnectTCPRequest send_ok s connect m = (b, s', e) -> bsd_inv s'.
Proof.
  intros I. unfold handleConnectTCPRequest, answer. repeat case_match; try (by intros [= _ <- _]).
  all: by apply registerConnectedSocket_inv.
Qed.

Lemma handleListenTCPRequest_inv send_ok s listen_ok m b s' e :
  bsd_inv s -> handleListenTCPRequest send_ok s listen_ok m = (b, s', e) -> bsd_inv s'.
Proof.
  intros I. unfold handleListenTCPRequest, answer.
  destruct (senderNodeIdFromMessage m) as [g|]; [|by intros [= _ <- _]].
  destruct (unpackServiceMessage _ m) as [r|]; [|by intros [= _ <- _]].
  destruct (ListenTCPRequest.stream_id r) as [x|]; [|by intros [= _ <- _]].
  destruct (fromProtoStreamId x) as [id|]; [|by intros [= _ <- _]].
  repeat (case_match; [by intros [= _ <- _]|]).
  set (ls := mkListener _ _ _ _ _ _ _ _ _ _).
  assert (managedListeningSockets_ s !! id = None) as Hid.
  { apply eq_None_not_Some. intros Hs. revert select (_ || _ = false). intros [_ E%bool_decide_eq_false]%orb_false_iff. done. }
  rewrite emplace_new by done. pose proof (inv_listen s ls I Hid eq_refl) as I'.
  pose proof (inv_stop_listener _ ls I' (lookup_insert_eq _ _ _)) as J.
  cbn [managedListeningSockets_ set_listening] in J.
  destruct (send_ok _); [by intros [= _ <- _]|].
  cbn [negb]. destruct (stopManagedListener _ ls) as [s3 e3]. by intros [= _ <- _].
Qed.

Lemma handleAcceptTCP_inv send_ok s newId m b s' e :
  bsd_inv s -> handleAcceptTCP send_ok s newId m = Ok (b, s', e) -> bsd_inv s'.
Proof.
  intros I. unfold handleAcceptTCP, answer.
  destruct (unpackServiceMessage _ m) as [r|]; [|by intros [= _ <- _]].
  destruct (fromProtoStreamId _) as [lid|]; [|by intros [= _ <- _]].
  destruct (managedListeningSockets_ s !! lid) as [ls|] eqn:Els; [|by intros [= _ <- _]].
  destruct (negb (validateListeningSocketAccess _ _)); [by intros [= _ <- _]|].
  destruct (ml_asyncAccept ls); [by intros [= _ <- _]|].
  destruct (inv_listener s I _ _ Els) as [_ [hs El]]. rewrite El. cbn [default from_option id acceptedConnections acc_stopping].
  destruct hs as [|h rest]; [by intros [= _ <- _]|].
  pose proof (pre_pop s _ h rest I El) as P. set (s1 := set_listeners s _) in *.
  pose proof (pre_rest _ _ P) as Q.
  destruct (match AcceptTCP.new_stream_id r with Some _ => _ | None => _ end) as [child|]; [|by intros [= _ <- _]].
  destruct (senderNodeIdFromMessage m) as [g|]; [|done].
  set (st := mkSocket _ _ _ _ _ _ _).
  destruct (_ || _) eqn:Eid; [by intros [= _ <- _]|].
  apply orb_false_iff in Eid as [Eid%bool_decide_eq_false _]. apply eq_None_not_Some in Eid. rewrite emplace_new by done.
  destruct (send_ok _); cbn [negb].
  - intros [= _ <- _]. by apply (inv_enter s1 st P).
  - pose proof (eraseAndStop_entered s1 st P Eid) as E. cbn [ms_socketId st] in E.
    destruct (eraseAndStop _ st) as [s3 e3]. cbn [fst] in E. intros [= _ <- _]. by rewrite E.
Qed.

Lemma sendOn_inv s h data ok s' : bsd_inv s -> sendOn s h data = Ok (ok, s') -> bsd_inv s'.
Proof.
  intros I. unfold sendOn. destruct (connections s !! h) as [c|] eqn:Ec; [|by intros [= _ <-]].
  destruct (sendAll c data) as [[? c']| | |]; try done. intros [= _ <-]. apply inv_update; eauto.
Qed.

Lemma recvOn_inv recv_failed s h n x s' : bsd_inv s -> recvOn recv_failed s h n = (x, s') -> bsd_inv s'.
Proof.
  intros I. unfold recvOn. destruct (connections s !! h) as [c|] eqn:Ec; [|by intros [= _ <-]].
  destruct (recv c _) as [[? c']|]; intros [= _ <-]; [apply inv_update; eauto|done].
Qed.

Lemma handleStreamSend_inv send_ok s m b s' e :
  bsd_inv s -> handleStreamSend send_ok s m = Ok (b, s', e) -> bsd_inv s'.
Proof.
  intros I. unfold handleStreamSend, answer. destruct (unpackServiceMessage _ m) as [r|]; [|by intros [= _ <- _]].
  destruct (findSocket _ _ _) as [?|[id st]]; [by intros [= _ <- _]|].
  destruct (sendOn s _ _) as [[ok s1]| | |] eqn:E; try done. cbn. apply sendOn_inv in E; [|done].
  destruct (negb ok); by intros [= _ <- _].
Qed.

Lemma handleStreamRecv_inv send_ok recv_failed s m b s' e :
  bsd_inv s -> handleStreamRecv send_ok recv_failed s m = (b, s', e) -> bsd_inv s'.
Proof.
  intros I. unfold handleStreamRecv, answer. destruct (unpackServiceMessage _ m) as [r|]; [|by intros [= _ <- _]].
  destruct (findSocket _ _ _) as [?|[id st]]; [by intros [= _ <- _]|].
  destruct (ms_asyncData st); [by intros [= _ <- _]|].
  destruct (recvOn _ s _ _) as [x s1] eqn:E. apply recvOn_inv in E; [|done].
  destruct x; by intros [= _ <- _].
Qed.

Lemma handleStreamClose_inv send_ok s m b s' e :
  bsd_inv s -> handleStreamClose send_ok s m = (b, s', e) -> bsd_inv s'.
Proof.
  intros I. unfold handleStreamClose, answer. destruct (unpackServiceMessage _ m) as [r|]; [|by intros [= _ <- _]].
  destruct (fromProtoStreamId _) as [id|]; [|by intros [= _ <- _]].
  destruct (managedListeningSockets_ s !! id) as [ls|] eqn:El.
  - destruct (inv_listener s I _ _ El) as [Hid _]. subst id.
    destruct (negb _).
    + cbn. rewrite emplace_delete by done. intros [= _ <- _]. by destruct s.
    + pose proof (inv_stop_listener s ls I El) as J. destruct (stopManagedListener _ ls). by intros [= _ <- _].
  - destruct (managedSockets_ s !! id) as [st|] eqn:Es; [|by intros [= _ <- _]].
    destruct (inv_socket s I _ _ Es) as [Hid _]. subst id.
    destruct (negb _).
    + cbn. rewrite emplace_delete by done. intros [= _ <- _]. by destruct s.
    + pose proof (inv_stop s st I Es) as J. destruct (stopManagedSocket _ st). by intros [= _ <- _].
Qed.

Lemma freshId_new s ids id : freshId s ids = Ok id -> managedSockets_ s !! id = None /\ managedListeningSockets_ s !! id = None.
Proof.
  induction ids as [|x ids IH]; cbn; [done|]. destruct (_ || _) eqn:E; [done|]. intros [= <-].
  apply orb_false_iff in E as [E1%bool_decide_eq_false E2%bool_decide_eq_false].
  split; by apply eq_None_not_Some.
Qed.

Lemma handleAcceptedConnection_inv send_ok s ls ids c s' e :
  bsd_inv s -> managedListeningSockets_ s !! ml_socketId ls = Some ls ->
  handleAcceptedConnection send_ok s ls ids c = Ok (s', e) -> bsd_inv s'.
Proof.
  intros I Hls. unfold handleAcceptedConnection. pose proof (pre_add s c I) as P.
  destruct (addConnection s c) as [h s1] eqn:Ea. unfold addConnection in Ea. injection Ea as <- E1. cbn [snd] in P.
  assert (managedListeningSockets_ s1 = managedListeningSockets_ s /\ listeners s1 = listeners s) as [El1 El2] by (by rewrite <- E1).
  destruct (inv_listener s I _ _ Hls) as [_ [hs El]]. rewrite El. cbn [default from_option id acceptedConnections acc_stopping].
  pose proof (pre_rest _ _ P) as Q.
  destruct (negb (ml_asyncAccept ls)).
  { intros [= <- _]. apply inv_push; [done|by rewrite El1|by rewrite El2]. }
  destruct (freshId s1 ids) as [id| | |] eqn:Ef; cbn [mbind res_bind]; try done.
  apply freshId_new in Ef as [Eid _].
  set (st := mkSocket _ _ _ _ _ _ _). rewrite emplace_new by done.
  destruct (send_ok _); cbn [negb].
  - intros [= <- _]. by apply (inv_enter s1 st P).
  - pose proof (eraseAndStop_entered s1 st P Eid) as E. cbn [ms_socketId st] in E.
    destruct (eraseAndStop _ st) as [s3 e3]. cbn [fst] in E. intros [= <- _]. by rewrite E.
Qed.

Lemma reader_turn_inv send_ok recv_failed s h s' e :
  bsd_inv s -> reader_turn send_ok recv_failed s h = Some (s', e) -> bsd_inv s'.
Proof.
  intros I. unfold reader_turn. destruct (readers s !! h) as [[st [|]]|] eqn:Er; try done.
  destruct (recvOn recv_failed s h 4096) as [x s1] eqn:E. pose proof (recvOn_inv _ _ _ _ _ _ I E) as I1.
  assert (readers s1 !! h = Some (mkReader st true)) as Er1.
  { rewrite <- Er. revert E. unfold recvOn. repeat case_match; by intros [= _ <-]. }
  destruct (asyncTurn send_ok st x) as [events [|]]; intros [= <- _]; [done|].
  by apply inv_reader_end.
Qed.

Lemma bsd_step_inv s e s' : bsd_inv s -> bsd_step s e s' -> bsd_inv s'.
Proof.
  intros I St. revert I. destruct St as [send_ok q l newId rf s0 m b s1 e0 _ H|send_ok f s0 m b s1 e0 _ H|send_ok ids c ls s0 s1 e0 _ Hl H|send_ok rf h s0 s1 e0 _ H]; intros I.
  - revert H. unfold handleNodeSpecificMessage. repeat case_match; try (by intros [= _ <- _]).
    + intros [= Hh]. by eapply handleListenTCPRequest_inv.
    + by apply handleAcceptTCP_inv.
    + by apply handleStreamSend_inv.
    + intros [= Hh]. by eapply handleStreamRecv_inv.
    + intros [= Hh]. by eapply handleStreamClose_inv.
  - by eapply handleConnectTCPRequest_inv.
  - by eapply handleAcceptedConnection_inv.
  - by eapply reader_turn_inv.
Qed.

Lemma bsd_reachable_inv s : bsd_reachable s -> bsd_inv s.
Proof. induction 1; [apply inv_initial|by eapply bsd_step_inv]. Qed.

(** ** Ownership *)

Lemma in_table_dec s h : in_table s h \/ ~ in_table s h.
Proof.
  destruct (decide (map_Exists (fun _ st => ms_connection st = h) (managedSockets_ s))) as [H|H].
  - left. destruct H as (id & st & H1 & H2). by exists id, st.
  - right. intros (id & st & H1 & H2). apply H. by exists id, st.
Qed.

Lemma open_owned s h : bsd_inv s -> terminated_ s = false -> is_Some (connections s !! h) <-> exists o, owned_by s h o.
Proof.
  intros I Ht. split.
  - intros Ho. destruct (in_table_dec s h) as [(id & st & H1 & H2)|Hn]; [by exists (TableEntry id), st|].
    destruct (inv_owned s I Ht h Ho) as [?|[[l W]|Hr]]; [done|by exists (QueueOf l)|by exists ThreadAlone].
  - intros [[id|l|] Ho]; cbn in Ho.
    + destruct Ho as (st & Hst & <-). by apply (inv_socket s I id).
    + by apply (inv_waits s I h l).
    + destruct Ho as [[st Hr] _]. by apply (inv_reader s I h _ Hr).
Qed.

Lemma owner_unique s h o o' : bsd_inv s -> owned_by s h o -> owned_by s h o' -> o = o'.
Proof.
  intros I. destruct o as [id|l|], o' as [id'|l'|]; cbn; try done.
  - intros (st & H1 & H2) (st' & H1' & H2'). f_equal. eapply (inv_distinct s I); eauto. congruence.
  - intros (st & H1 & H2) W. destruct (inv_waits s I h l' W) as (_ & Hn & _). destruct Hn. by exists id, st.
  - intros (st & H1 & H2) [_ Hn]. destruct Hn. by exists id, st.
  - intros W (st & H1 & H2). destruct (inv_waits s I h l W) as (_ & Hn & _). destruct Hn. by exists id', st.
  - intros W W'. destruct (inv_waits s I h l W) as (_ & _ & _ & _ & Hu). f_equal. by rewrite (Hu l' W').
  - intros W [[st Hr] _]. destruct (inv_waits s I h l W) as (_ & _ & Hn & _). congruence.
  - intros [_ Hn] (st & H1 & H2). destruct Hn. by exists id', st.
  - intros [[st Hr] _] W. destruct (inv_waits s I h l' W) as (_ & _ & Hn & _). congruence.
Qed.

(** The event uses or closes the connection. *)
Definition touches (e : BsdEvent) (h : nat) : Prop :=
  match e with Wrote h' _ | Read h' | Closed h' => h' = h | _ => False end.

Definition may_use (m : RSPMessage.t) (st : ManagedSocketState) : Prop :=
  ms_shareSocket st = true \/ exists g, senderNodeIdFromMessage m = Some g /\ ms_requesterNodeId st = toProtoNodeId g.
Definition may_listen (m : RSPMessage.t) (ls : ManagedListenerState) : Prop :=
  ml_shareListeningSocket ls = true \/ exists g, senderNodeIdFromMessage m = Some g /\ ml_requesterNodeId ls = toProtoNodeId g.

Lemma validateSocketAccess_iff m st : validateSocketAccess m st = true <-> may_use m st.
Proof.
  unfold validateSocketAccess, may_use. destruct (ms_shareSocket st); [by split; [left|]|].
  destruct (senderNodeIdFromMessage m) as [g|]; [rewrite bool_decide_eq_true|]; split; try done.
  - intros <-. right. by exists g.
  - by intros [?|(g' & [= <-] & ->)].
  - by intros [?|(g' & ? & _)].
Qed.
Lemma validateListeningSocketAccess_iff m ls : validateListeningSocketAccess m ls = true <-> may_listen m ls.
Proof.
  unfold validateListeningSocketAccess, may_listen. destruct (ml_shareListeningSocket ls); [by split; [left|]|].
  destruct (senderNodeIdFromMessage m) as [g|]; [rewrite bool_decide_eq_true|]; split; try done.
  - intros <-. right. by exists g.
  - by intros [?|(g' & [= <-] & ->)].
  - by intros [?|(g' & ? & _)].
Qed.

(** What a handler may touch: sockets the sender may use, connections that wait at
    listeners the sender may use, and connections it has made. *)
Definition lawful (s : BsdSockets) (m : RSPMessage.t) (h : nat) : Prop :=
  (forall id st, managedSockets_ s !! id = Some st -> ms_connection st = h -> may_use m st) /\
  (forall id ls, managedListeningSockets_ s !! id = Some ls -> waits_in s h (ml_handle ls) -> may_listen m ls).

Lemma lawful_socket s m id st :
  bsd_inv s -> managedSockets_ s !! id = Some st -> validateSocketAccess m st = true -> lawful s m (ms_connection st).
Proof.
  intros I Hst Hv%validateSocketAccess_iff. split.
  - intros id' st' Hst' Hc. assert (id' = id) as -> by (by eapply (inv_distinct s I)). by simplify_eq.
  - intros id' ls _ W. destruct (inv_waits s I _ _ W) as (_ & Hn & _). destruct Hn. by exists id, st.
Qed.

Lemma lawful_waiting s m id ls h :
  bsd_inv s -> managedListeningSockets_ s !! id = Some ls -> validateListeningSocketAccess m ls = true ->
  waits_in s h (ml_handle ls) -> lawful s m h.
Proof.
  intros I Hls Hv%validateListeningSocketAccess_iff W. destruct (inv_waits s I _ _ W) as (_ & Hn & _ & _ & Hu). split.
  - intros id' st Hst Hc. destruct Hn. by exists id', st.
  - intros id' ls' Hls' W'. assert (id' = id) as -> by (eapply (inv_listener_distinct s I); eauto). by simplify_eq.
Qed.

Lemma findSocket_inr s m x id st :
  findSocket s m x = inr (id, st) -> managedSockets_ s !! id = Some st /\ validateSocketAccess m st = true.
Proof.
  unfold findSocket. destruct (fromProtoStreamId _) as [id'|]; [|done].
  destruct (managedSockets_ s !! id') as [st'|] eqn:E; [|done].
  destruct (validateSocketAccess m st') eqn:Ev; [|done]. by intros [= <- <-].
Qed.

Definition lawful_events (s : BsdSockets) (m : RSPMessage.t) (es : list BsdEvent) : Prop :=
  Forall (fun e => forall h, touches e h -> lawful s m h) es.

Ltac lawful_tac :=
  unfold lawful_events; cbn; repeat (first [apply Forall_nil_2 | apply Forall_cons_2]); try (intros ?; cbn; try done; intros <-).

Lemma handleListenTCPRequest_lawful send_ok s listen_ok m b s' es :
  bsd_inv s -> handleListenTCPRequest send_ok s listen_ok m = (b, s', es) -> lawful_events s m es.
Proof.
  intros I. unfold handleListenTCPRequest, answer.
  destruct (senderNodeIdFromMessage m) as [g|]; [|intros [= _ _ <-]; lawful_tac].
  destruct (unpackServiceMessage _ m) as [r|]; [|intros [= _ _ <-]; lawful_tac].
  destruct (ListenTCPRequest.stream_id r) as [x|]; [|intros [= _ _ <-]; lawful_tac].
  destruct (fromProtoStreamId x) as [id|]; [|intros [= _ _ <-]; lawful_tac].
  repeat (case_match; [intros [= _ _ <-]; lawful_tac|]).
  - rewrite lookup_insert_eq. apply Forall_nil_2.
  - intros [= _ _ <-]. lawful_tac.
Qed.

Lemma handleAcceptTCP_lawful send_ok s newId m b s' es :
  bsd_inv s -> handleAcceptTCP send_ok s newId m = Ok (b, s', es) -> lawful_events s m es.
Proof.
  intros I. unfold handleAcceptTCP, answer.
  destruct (unpackServiceMessage _ m) as [r|]; [|intros [= _ _ <-]; lawful_tac].
  destruct (fromProtoStreamId _) as [lid|]; [|intros [= _ _ <-]; lawful_tac].
  destruct (managedListeningSockets_ s !! lid) as [ls|] eqn:Els; [|intros [= _ _ <-]; lawful_tac].
  destruct (validateListeningSocketAccess m ls) eqn:Ev; cbn [negb]; [|intros [= _ _ <-]; lawful_tac].
  destruct (ml_asyncAccept ls); [intros [= _ _ <-]; lawful_tac|].
  destruct (inv_listener s I _ _ Els) as [_ [hs El]]. rewrite El. cbn [default from_option id acceptedConnections acc_stopping].
  destruct hs as [|h rest]; [intros [= _ _ <-]; lawful_tac|].
  assert (lawful s m h) as L by (apply (lawful_waiting s m lid ls h I Els Ev); eexists; split; [exact El|left]).
  destruct (match AcceptTCP.new_stream_id r with Some _ => _ | None => _ end) as [child|]; [|intros [= _ _ <-]; by lawful_tac].
  destruct (senderNodeIdFromMessage m) as [g|]; [|done].
  destruct (_ || _); [intros [= _ _ <-]; by lawful_tac|].
  destruct (send_ok _); cbn; intros [= _ _ <-]; by lawful_tac.
Qed.

Lemma handleStreamSend_lawful send_ok s m b s' es :
  bsd_inv s -> handleStreamSend send_ok s m = Ok (b, s', es) -> lawful_events s m es.
Proof.
  intros I. unfold handleStreamSend, answer. destruct (unpackServiceMessage _ m) as [r|]; [|intros [= _ _ <-]; lawful_tac].
  destruct (findSocket _ _ _) as [?|[id st]] eqn:Ef; [intros [= _ _ <-]; lawful_tac|].
  apply findSocket_inr in Ef as [Hst Hv]. pose proof (lawful_socket s m id st I Hst Hv) as L.
  destruct (sendOn s _ _) as [[ok s1]| | |] eqn:E; try done. cbn.
  destruct (negb ok); intros [= _ _ <-]; by lawful_tac.
Qed.

Lemma handleStreamRecv_lawful send_ok recv_failed s m b s' es :
  bsd_inv s -> handleStreamRecv send_ok recv_failed s m = (b, s', es) -> lawful_events s m es.
Proof.
  intros I. unfold handleStreamRecv, answer. destruct (unpackServiceMessage _ m) as [r|]; [|intros [= _ _ <-]; lawful_tac].
  destruct (findSocket _ _ _) as [?|[id st]] eqn:Ef; [intros [= _ _ <-]; lawful_tac|].
  apply findSocket_inr in Ef as [Hst Hv]. pose proof (lawful_socket s m id st I Hst Hv) as L.
  destruct (ms_asyncData st); [intros [= _ _ <-]; lawful_tac|].
  destruct (recvOn _ s _ _) as [x s1] eqn:E. destruct x; intros [= _ _ <-]; by lawful_tac.
Qed.

Lemma handleStreamClose_lawful send_ok s m b s' es :
  bsd_inv s -> handleStreamClose send_ok s m = (b, s', es) -> lawful_events s m es.
Proof.
  intros I. unfold handleStreamClose, answer. destruct (unpackServiceMessage _ m) as [r|]; [|intros [= _ _ <-]; lawful_tac].
  destruct (fromProtoStreamId _) as [id|]; [|intros [= _ _ <-]; lawful_tac].
  destruct (managedListeningSockets_ s !! id) as [ls|] eqn:El.
  - destruct (validateListeningSocketAccess m ls) eqn:Ev; cbn [negb]; [|intros [= _ _ <-]; lawful_tac].
    destruct (inv_listener s I _ _ El) as [_ [hs Eh]]. unfold stopManagedListener. cbn. rewrite Eh. cbn.
    intros [= _ _ <-]. constructor; [done|]. apply Forall_app. split; [|lawful_tac]. apply Forall_app. split; [|lawful_tac].
    apply Forall_fmap, Forall_forall. intros h Hh h' <-. apply (lawful_waiting s m id ls h I El Ev). by eexists.
  - destruct (managedSockets_ s !! id) as [st|] eqn:Es; [|intros [= _ _ <-]; lawful_tac].
    destruct (validateSocketAccess m st) eqn:Ev; cbn [negb]; [|intros [= _ _ <-]; lawful_tac].
    intros [= _ _ <-]. lawful_tac. by apply (lawful_socket s m id st I Es).
Qed.

Lemma handler_lawful send_ok queue_ok listen_ok newId recv_failed s m b s' es :
  bsd_inv s -> handleNodeSpecificMessage send_ok queue_ok listen_ok newId recv_failed s m = Ok (b, s', es) ->
  lawful_events s m es.
Proof.
  intros I. unfold handleNodeSpecificMessage. repeat case_match.
  - intros [= _ _ <-]. lawful_tac.
  - intros [= Hh]. by eapply handleListenTCPRequest_lawful.
  - by apply handleAcceptTCP_lawful.
  - by apply handleStreamSend_lawful.
  - intros [= Hh]. by eapply handleStreamRecv_lawful.
  - intros [= Hh]. by eapply handleStreamClose_lawful.
  - intros [= _ _ <-]. lawful_tac.
Qed.

(** A socket that the sender may not use is left alone. *)
Definition keeps (m : RSPMessage.t) (s s' : BsdSockets) : Prop :=
  forall id st, managedSockets_ s !! id = Some st -> ~ may_use m st ->
    managedSockets_ s' !! id = Some st /\ connections s' !! ms_connection st = connections s !! ms_connection st.

Lemma keeps_refl m s : keeps m s s.
Proof. done. Qed.

Lemma lookup_close (conns : gmap nat Conn) hs h :
  h ∉ hs -> foldl (fun m h' => delete h' m) conns hs !! h = conns !! h.
Proof.
  revert conns. induction hs as [|x hs IH]; intros conns Hn; [done|]. cbn. apply not_elem_of_cons in Hn as [Hne Hn].
  by rewrite IH, lookup_delete_ne by done.
Qed.

(** Connections that wait at listeners are of no socket. *)
Lemma keeps_waiting m s s' l hs :
  bsd_inv s -> managedSockets_ s' = managedSockets_ s ->
  connections s' = foldl (fun m h => delete h m) (connections s) hs -> (forall h, h ∈ hs -> waits_in s h l) -> keeps m s s'.
Proof.
  intros I E1 E2 Hw id st Hst _. rewrite E1, E2. split; [done|]. apply lookup_close. intros W%Hw.
  destruct (inv_waits s I _ _ W) as (_ & Hn & _). destruct Hn. by exists id, st.
Qed.

Lemma handleListenTCPRequest_keeps send_ok s listen_ok m b s' es :
  handleListenTCPRequest send_ok s listen_ok m = (b, s', es) -> keeps m s s'.
Proof.
  unfold handleListenTCPRequest, answer.
  destruct (senderNodeIdFromMessage m) as [g|]; [|by intros [= _ <- _]].
  destruct (unpackServiceMessage _ m) as [r|]; [|by intros [= _ <- _]].
  destruct (ListenTCPRequest.stream_id r) as [x|]; [|by intros [= _ <- _]].
  destruct (fromProtoStreamId x) as [id|]; [|by intros [= _ <- _]].
  do 6 (case_match; [by intros [= _ <- _]|]).
  destruct (send_ok _); cbn [negb]; [by intros [= _ <- _]|].
  unfold stopManagedListener. cbn. rewrite lookup_insert_eq. by intros [= _ <- _].
Qed.

Lemma handleAcceptTCP_keeps send_ok s newId m b s' es :
  bsd_inv s -> handleAcceptTCP send_ok s newId m = Ok (b, s', es) -> keeps m s s'.
Proof.
  intros I. unfold handleAcceptTCP, answer.
  destruct (unpackServiceMessage _ m) as [r|]; [|by intros [= _ <- _]].
  destruct (fromProtoStreamId _) as [lid|]; [|by intros [= _ <- _]].
  destruct (managedListeningSockets_ s !! lid) as [ls|] eqn:Els; [|by intros [= _ <- _]].
  destruct (negb (validateListeningSocketAccess _ _)); [by intros [= _ <- _]|].
  destruct (ml_asyncAccept ls); [by intros [= _ <- _]|].
  destruct (inv_listener s I _ _ Els) as [_ [hs El]]. rewrite El. cbn [default from_option id acceptedConnections acc_stopping].
  destruct hs as [|h rest]; [by intros [= _ <- _]|].
  pose proof (pre_pop s _ h rest I El) as P. set (s1 := set_listeners s _) in *.
  assert (keeps m s (set_connections s1 (delete h (connections s1)))) as K.
  { eapply (keeps_waiting _ _ _ (ml_handle ls) [h]); [done..|]. intros x ->%list_elem_of_singleton.
    eexists; split; [exact El|left]. }
  destruct (match AcceptTCP.new_stream_id r with Some _ => _ | None => _ end) as [child|]; [|by intros [= _ <- _]].
  destruct (senderNodeIdFromMessage m) as [g|]; [|done].
  set (st := mkSocket _ _ _ _ _ _ _).
  destruct (_ || _) eqn:Eid; [by intros [= _ <- _]|].
  apply orb_false_iff in Eid as [Eid%bool_decide_eq_false _]. apply eq_None_not_Some in Eid. rewrite emplace_new by done.
  destruct (send_ok _); cbn [negb].
  - intros [= _ <- _] id' st' Hst' _. destruct (startReader_keeps (set_sockets s1 (<[child := st]> (managedSockets_ s))) st) as (-> & _ & -> & _).
    split; [|done]. cbn. rewrite lookup_insert_ne; [done|]. intros <-. cbn in Eid. congruence.
  - pose proof (eraseAndStop_entered s1 st P Eid) as E. cbn [ms_socketId st] in E.
    destruct (eraseAndStop _ st) as [s3 e3]. cbn [fst] in E. intros [= _ <- _]. by rewrite E.
Qed.

(** Only the connection of a socket that the sender may use changes. *)
Lemma keeps_use m s id st s' :
  bsd_inv s -> managedSockets_ s !! id = Some st -> validateSocketAccess m st = true ->
  managedSockets_ s' = managedSockets_ s -> (forall h, h <> ms_connection st -> connections s' !! h = connections s !! h) ->
  keeps m s s'.
Proof.
  intros I Hst Hv%validateSocketAccess_iff E1 E2 id' st' Hst' Hn. rewrite E1. split; [done|]. apply E2. intros Heq.
  assert (id' = id) as -> by (by eapply (inv_distinct s I)). by simplify_eq.
Qed.

Lemma handleStreamSend_keeps send_ok s m b s' es :
  bsd_inv s -> handleStreamSend send_ok s m = Ok (b, s', es) -> keeps m s s'.
Proof.
  intros I. unfold handleStreamSend, answer. destruct (unpackServiceMessage _ m) as [r|]; [|by intros [= _ <- _]].
  destruct (findSocket _ _ _) as [?|[id st]] eqn:Ef; [by intros [= _ <- _]|]. apply findSocket_inr in Ef as [Hst Hv].
  unfold sendOn. destruct (connections s !! ms_connection st); cbn [mbind res_bind fst snd negb]; [|by intros [= _ <- _]].
  destruct (sendAll _ _) as [[ok c']| | |]; cbn [mbind res_bind fst snd]; try done.
  destruct (negb ok); intros [= _ <- _]; eapply keeps_use; try done; intros h Hh; cbn; by rewrite lookup_insert_ne.
Qed.

Lemma handleStreamRecv_keeps send_ok recv_failed s m b s' es :
  bsd_inv s -> handleStreamRecv send_ok recv_failed s m = (b, s', es) -> keeps m s s'.
Proof.
  intros I. unfold handleStreamRecv, answer. destruct (unpackServiceMessage _ m) as [r|]; [|by intros [= _ <- _]].
  destruct (findSocket _ _ _) as [?|[id st]] eqn:Ef; [by intros [= _ <- _]|]. apply findSocket_inr in Ef as [Hst Hv].
  destruct (ms_asyncData st); [by intros [= _ <- _]|].
  destruct (recvOn _ s _ _) as [x s1] eqn:E.
  assert (keeps m s s1) as K.
  { revert E. unfold recvOn. destruct (connections s !! _); [|by intros [= _ <-]].
    destruct (recv _ _) as [[? ?]|]; intros [= _ <-]; [|done].
    eapply keeps_use; try done; intros h Hh; cbn; by rewrite lookup_insert_ne. }
  destruct x; by intros [= _ <- _].
Qed.

Lemma handleStreamClose_keeps send_ok s m b s' es :
  bsd_inv s -> handleStreamClose send_ok s m = (b, s', es) -> keeps m s s'.
Proof.
  intros I. unfold handleStreamClose, answer. destruct (unpackServiceMessage _ m) as [r|]; [|by intros [= _ <- _]].
  destruct (fromProtoStreamId _) as [id|]; [|by intros [= _ <- _]].
  destruct (managedListeningSockets_ s !! id) as [ls|] eqn:El.
  - destruct (negb _); [by intros [= _ <- _]|].
    destruct (inv_listener s I _ _ El) as [_ [hs Eh]]. unfold stopManagedListener. cbn. rewrite Eh. intros [= _ <- _].
    eapply (keeps_waiting _ _ _ (ml_handle ls) hs); [done..|]. intros h Hh. by eexists.
  - destruct (managedSockets_ s !! id) as [st|] eqn:Es; [|by intros [= _ <- _]].
    destruct (validateSocketAccess m st) eqn:Ev; cbn [negb].
    + intros [= _ <- _] id' st' Hst' Hn. apply validateSocketAccess_iff in Ev. cbn.
      destruct (decide (id = id')) as [->|Hne]; [by simplify_eq|]. rewrite lookup_delete_ne by done. split; [done|].
      rewrite lookup_delete_ne; [done|]. intros Heq. apply Hne. by eapply (inv_distinct s I).
    + cbn. rewrite emplace_delete by done. intros [= _ <- _]. by destruct s.
Qed.

Lemma handler_keeps send_ok queue_ok listen_ok newId recv_failed s m b s' es :
  bsd_inv s -> handleNodeSpecificMessage send_ok queue_ok listen_ok newId recv_failed s m = Ok (b, s', es) -> keeps m s s'.
Proof.
  intros I. unfold handleNodeSpecificMessage. repeat case_match.
  - by intros [= _ <- _].
  - intros [= Hh]. by eapply handleListenTCPRequest_keeps.
  - by apply handleAcceptTCP_keeps.
  - by apply handleStreamSend_keeps.
  - intros [= Hh]. by eapply handleStreamRecv_keeps.
  - intros [= Hh]. by eapply handleStreamClose_keeps.
  - by intros [= _ <- _].
Qed.

(** *** Connection requests *)
Definition requested_id (m : RSPMessage.t) : option GUID :=
  (unpackServiceMessage ConnectTCPRequest.t m ≫= ConnectTCPRequest.stream_id) ≫= fromProtoStreamId.

Lemma lawful_fresh s m : bsd_inv s -> lawful s m (next_handle s).
Proof.
  intros I. split.
  - intros id st Hst Hc. destruct (fresh_table s (next_handle s) I ltac:(lia)). by exists id, st.
  - intros id ls _ W. by destruct (fresh_waits s _ _ I (Nat.le_refl _) W).
Qed.

(** The entries stay, and so do the connections but for the new one. *)
Lemma keeps_fresh m s s' :
  bsd_inv s -> (forall id st, managedSockets_ s !! id = Some st -> managedSockets_ s' !! id = Some st) ->
  (forall h, h <> next_handle s -> connections s' !! h = connections s !! h) -> keeps m s s'.
Proof.
  intros I E1 E2 id st Hst _. split; [by apply E1|]. apply E2. intros Hc.
  destruct (fresh_table s (next_handle s) I ltac:(lia)). by exists id, st.
Qed.

Lemma register_private send_ok s m c id hostPort async share b s' es :
  bsd_inv s -> managedSockets_ s !! id = None \/ (forall reply, send_ok reply = true) ->
  registerConnectedSocket send_ok s m c id hostPort async share = (b, s', es) -> lawful_events s m es /\ keeps m s s'.
Proof.
  intros I Hid. pose proof (lawful_fresh s m I) as L. unfold registerConnectedSocket.
  destruct (senderNodeIdFromMessage m) as [g|]; [|intros [= _ <- <-]; by split; [lawful_tac|]].
  cbn [addConnection]. set (st := mkSocket _ _ _ _ _ _ _).
  destruct (send_ok _) eqn:Es; cbn [negb].
  - set (s3 := startReader _ st).
    assert (K : forall x, x = s3 \/ x = set_connections s3 (delete (next_handle s) (connections s3)) -> keeps m s x).
    { unfold s3. match goal with |- context [startReader ?x st] => destruct (startReader_keeps x st) as (E1 & _ & E3 & _) end.
      intros x Hx. apply keeps_fresh; [done|intros id' st' Hst'|intros h Hh].
      - destruct Hx as [->| ->]; cbn [managedSockets_ set_connections]; rewrite E1; cbn; unfold emplace;
          (destruct (managedSockets_ s !! id) eqn:Eid; [done|]; rewrite lookup_insert_ne; [done|congruence]).
      - destruct Hx as [->| ->]; cbn [connections set_connections]; rewrite ?lookup_delete_ne by done; rewrite E3; cbn;
          by rewrite lookup_insert_ne. }
    destruct (managedSockets_ s !! id) as [old|]; [|intros [= _ <- <-]; split; [by lawful_tac|apply K; by left]].
    assert (Hrd : readers s3 !! ms_connection st = if ms_asyncData st then Some (mkReader st true) else None).
    { unfold s3. rewrite readers_startReader, Nat.eqb_refl, andb_true_r. destruct (ms_asyncData st); [done|].
      cbn. apply fresh_reader; [done|lia]. }
    unfold releaseSocket. rewrite Hrd.
    destruct (ms_asyncData st); intros [= _ <- <-]; (split; [by lawful_tac|apply K; auto]).
  - destruct Hid as [Hid|Hs]; [|by rewrite Hs in Es]. rewrite Hid. cbn. intros [= _ <- <-]. split; [by lawful_tac|].
    apply keeps_fresh; [done|intros id' st' Hst'|intros h Hh]; cbn.
    + unfold emplace. rewrite Hid, lookup_delete_ne, lookup_insert_ne by congruence. done.
    + by rewrite lookup_delete_ne, lookup_insert_ne.
Qed.

Lemma connect_private send_ok s connect m b s' es :
  bsd_inv s -> (forall id, requested_id m = Some id -> managedSockets_ s !! id = None) \/ (forall reply, send_ok reply = true) ->
  handleConnectTCPRequest send_ok s connect m = (b, s', es) -> lawful_events s m es /\ keeps m s s'.
Proof.
  intros I Hid. unfold handleConnectTCPRequest, requested_id, answer in *.
  destruct (senderNodeIdFromMessage m) as [g|]; [|intros [= _ <- <-]; by split; [lawful_tac|]].
  destruct (unpackServiceMessage _ m) as [r|]; [|intros [= _ <- <-]; by split; [lawful_tac|]]. cbn in Hid.
  destruct (ConnectTCPRequest.stream_id r) as [x|]; [|intros [= _ <- <-]; by split; [lawful_tac|]]. cbn in Hid.
  destruct (fromProtoStreamId x) as [id|]; [|intros [= _ <- <-]; by split; [lawful_tac|]].
  repeat (case_match; [intros [= _ <- <-]; by split; [lawful_tac|]|]).
  destruct (createTCPConnection _ _); [|intros [= _ <- <-]; by split; [lawful_tac|]].
  apply register_private; [done|]. destruct Hid as [Hid|Hid]; [left; by apply Hid|by right].
Qed.

(** ** Shutdown *)
Lemma close_monotone (conns : gmap nat Conn) hs h :
  conns !! h = None -> foldl (fun m h' => delete h' m) conns hs !! h = None.
Proof.
  revert conns. induction hs as [|x hs IH]; intros conns Hn; [done|]. apply IH. by apply lookup_delete_None; right.
Qed.

Lemma close_all (conns : gmap nat Conn) hs h : h ∈ hs -> foldl (fun m h' => delete h' m) conns hs !! h = None.
Proof.
  revert conns. induction hs as [|x hs IH]; intros conns Hin; [by apply not_elem_of_nil in Hin|].
  apply elem_of_cons in Hin as [->|Hin]; [|by apply IH]. cbn. apply close_monotone. apply lookup_delete_eq.
Qed.

Lemma stopAllListeners_spec l s s' es :
  stopAllListeners s l = (s', es) ->
  readers s' = readers s /\ managedSockets_ s' = managedSockets_ s /\ managedListeningSockets_ s' = managedListeningSockets_ s /\
  (forall h, connections s !! h = None -> connections s' !! h = None) /\
  (forall id ls h, (id, ls) ∈ l -> waits_in s h (ml_handle ls) -> connections s' !! h = None).
Proof.
  revert s es. induction l as [|[k0 ls0] l IH]; intros s es; cbn [stopAllListeners].
  { intros [= <- _]. split_and!; try done. intros ??? Hin. by apply not_elem_of_nil in Hin. }
  cbn [stopManagedListener closeConnections]. set (s1 := set_connections _ _).
  destruct (stopAllListeners s1 l) as [s2 e2] eqn:E. intros [= <- _].
  destruct (IH s1 e2 E) as (H1 & H2 & H3 & H4 & H5).
  split_and!; [by rewrite H1|by rewrite H2|by rewrite H3|intros h Hh; by apply H4, close_monotone|].
  intros id ls h Hin (A & HA & Hh). destruct (decide (ml_handle ls = ml_handle ls0)) as [Heq|Hne].
  - apply H4. cbn. rewrite <- Heq, HA. by apply close_all.
  - apply elem_of_cons in Hin as [[= -> ->]|Hin]; [done|]. apply (H5 id ls h Hin). exists A. cbn. by rewrite lookup_insert_ne.
Qed.

Lemma stopAllSockets_spec l s s' es :
  stopAllSockets s l = (s', es) ->
  managedSockets_ s' = managedSockets_ s /\ managedListeningSockets_ s' = managedListeningSockets_ s /\
  (forall h, connections s !! h = None -> connections s' !! h = None) /\
  (forall h, readers s !! h = None -> readers s' !! h = None) /\
  (forall id st, (id, st) ∈ l -> connections s' !! ms_connection st = None /\ readers s' !! ms_connection st = None).
Proof.
  revert s es. induction l as [|[k0 st0] l IH]; intros s es; cbn [stopAllSockets stopManagedSocket].
  { intros [= <- _]. split_and!; try done. intros ?? Hin. by apply not_elem_of_nil in Hin. }
  set (s1 := set_readers _ _). destruct (stopAllSockets s1 l) as [s2 e2] eqn:E. intros [= <- _].
  destruct (IH s1 e2 E) as (H1 & H2 & H3 & H4 & H5).
  split_and!; [by rewrite H1|by rewrite H2|intros h Hh; by apply H3, lookup_delete_None; right
              |intros h Hh; by apply H4, lookup_delete_None; right|].
  intros id st [[= -> ->]|Hin]%elem_of_cons; [|by eapply H5].
  split; [apply H3|apply H4]; cbn; apply lookup_delete_eq.
Qed.

(** ** Answers *)
Definition sents (es : list BsdEvent) : list RSPMessage.t :=
  omap (fun e => match e with Sent m => Some m | _ => None end) es.

Context `{SL : !StreamMessagesLaws SM}.

Lemma unpack_absent T `{ServiceMessageType T} m : hasServiceMessage T m = false -> unpackServiceMessage T m = None.
Proof. intros Hf. destruct (unpackServiceMessage T m) as [x|] eqn:E; [|done]. apply unpack_has in E. congruence. Qed.

Lemma has_only T U `{ServiceMessageType T} `{ServiceMessageType U} i j m :
  request_names !! i = Some (bs (full_name T)) -> request_names !! j = Some (bs (full_name U)) -> i <> j ->
  hasServiceMessage T m = true -> unpackServiceMessage U m = None.
Proof.
  intros Hi Hj Hne Hx. apply unpack_absent. apply (hasServiceMessage_exclusive T U); [|done].
  intros E. rewrite <- E in Hj. apply Hne. exact (proj1 (NoDup_alt _) names_distinct i j _ Hi Hj).
Qed.

Lemma unpack_only T U `{ServiceMessageType T} `{ServiceMessageType U} i j m (x : T) :
  request_names !! i = Some (bs (full_name T)) -> request_names !! j = Some (bs (full_name U)) -> i <> j ->
  unpackServiceMessage T m = Some x -> unpackServiceMessage U m = None.
Proof. intros Hi Hj Hne Hx%unpack_has. by apply (has_only T U i j). Qed.

Ltac other_name i j := refine (unpack_only _ _ i j _ _ eq_refl eq_refl ltac:(done) _); eassumption.

Lemma derived_connect m r id :
  unpackServiceMessage ConnectTCPRequest.t m = Some r -> ConnectTCPRequest.stream_id r = Some id ->
  derivedSocketId m = fromProtoStreamId id.
Proof. unfold derivedSocketId. intros -> Hid. cbn. by rewrite Hid. Qed.

Lemma derived_listen m r id :
  unpackServiceMessage ListenTCPRequest.t m = Some r -> ListenTCPRequest.stream_id r = Some id ->
  derivedSocketId m = fromProtoStreamId id.
Proof.
  intros Hr Hid. unfold derivedSocketId.
  assert (unpackServiceMessage ConnectTCPRequest.t m = None) as -> by other_name 1%nat 0%nat.
  rewrite Hr. cbn. by rewrite Hid.
Qed.

Lemma derived_accept m r :
  unpackServiceMessage AcceptTCP.t m = Some r ->
  derivedSocketId m = fromProtoStreamId (value_or_empty (AcceptTCP.listen_stream_id r)).
Proof.
  intros Hr. unfold derivedSocketId.
  assert (unpackServiceMessage ConnectTCPRequest.t m = None) as -> by other_name 2%nat 0%nat.
  assert (unpackServiceMessage ListenTCPRequest.t m = None) as -> by other_name 2%nat 1%nat.
  by rewrite Hr.
Qed.

Lemma derived_send m r :
  unpackServiceMessage StreamSend.t m = Some r ->
  derivedSocketId m = fromProtoStreamId (value_or_empty (StreamSend.stream_id r)).
Proof.
  intros Hr. unfold derivedSocketId.
  assert (unpackServiceMessage ConnectTCPRequest.t m = None) as -> by other_name 3%nat 0%nat.
  assert (unpackServiceMessage ListenTCPRequest.t m = None) as -> by other_name 3%nat 1%nat.
  assert (unpackServiceMessage AcceptTCP.t m = None) as -> by other_name 3%nat 2%nat.
  by rewrite Hr.
Qed.

Lemma derived_recv m r :
  unpackServiceMessage StreamRecv.t m = Some r ->
  derivedSocketId m = fromProtoStreamId (value_or_empty (StreamRecv.stream_id r)).
Proof.
  intros Hr. unfold derivedSocketId.
  assert (unpackServiceMessage ConnectTCPRequest.t m = None) as -> by other_name 4%nat 0%nat.
  assert (unpackServiceMessage ListenTCPRequest.t m = None) as -> by other_name 4%nat 1%nat.
  assert (unpackServiceMessage AcceptTCP.t m = None) as -> by other_name 4%nat 2%nat.
  assert (unpackServiceMessage StreamSend.t m = None) as -> by other_name 4%nat 3%nat.
  by rewrite Hr.
Qed.

Lemma derived_close m r :
  unpackServiceMessage StreamClose.t m = Some r ->
  derivedSocketId m = fromProtoStreamId (value_or_empty (StreamClose.stream_id r)).
Proof.
  intros Hr. unfold derivedSocketId.
  assert (unpackServiceMessage ConnectTCPRequest.t m = None) as -> by other_name 5%nat 0%nat.
  assert (unpackServiceMessage ListenTCPRequest.t m = None) as -> by other_name 5%nat 1%nat.
  assert (unpackServiceMessage AcceptTCP.t m = None) as -> by other_name 5%nat 2%nat.
  assert (unpackServiceMessage StreamSend.t m = None) as -> by other_name 5%nat 3%nat.
  assert (unpackServiceMessage StreamRecv.t m = None) as -> by other_name 5%nat 4%nat.
  by rewrite Hr.
Qed.

Lemma unpack_pack m (r : StreamReply.t) : unpackServiceMessage StreamReply.t (packServiceMessage m r) = Some r.
Proof. rewrite unpack_packServiceMessage. apply reply_parses. Qed.

(** A reply goes to [d] and carries [r]. *)
Definition carries (reply : RSPMessage.t) (d : NodeId) (r : StreamReply.t) : Prop :=
  RSPMessage.destination reply = Some d /\ unpackServiceMessage StreamReply.t reply = Some r.

Lemma makeStreamReplyTo_carries d status text id trace :
  carries (makeStreamReplyTo d status text id trace) d (streamReply status text id).
Proof. split; [by destruct trace|apply unpack_pack]. Qed.

Lemma makeStreamReplyMessage_carries_id m g status text id :
  senderNodeIdFromMessage m = Some g ->
  carries (makeStreamReplyMessage m status text id) (toProtoNodeId g)
    (streamReply status text match id with Some x => Some x | None => derivedSocketId m end).
Proof.
  intros Hg. unfold makeStreamReplyMessage. rewrite Hg. set (id' := match id with Some _ => _ | None => _ end).
  destruct (makeStreamReplyTo_carries (toProtoNodeId g) status text id' false) as [E1 E2].
  unfold copyMessageTrace. destruct (RSPMessage.trace m); [|done]. split; [done|]. rewrite <- E2. done.
Qed.

Lemma makeStreamReplyMessage_carries m g status text id :
  senderNodeIdFromMessage m = Some g -> id = None \/ id = derivedSocketId m ->
  carries (makeStreamReplyMessage m status text id) (toProtoNodeId g) (streamReply status text (derivedSocketId m)).
Proof.
  intros Hg Hid. replace (derivedSocketId m) with (match id with Some x => Some x | None => derivedSocketId m end);
    [by apply makeStreamReplyMessage_carries_id|]. destruct Hid as [->| ->]; [done|]. by destruct (derivedSocketId m).
Qed.

Lemma modifyReply_carries reply d r f : carries reply d r -> carries (modifyReply reply f) d (f r).
Proof. intros [E1 E2]. unfold modifyReply. rewrite E2. split; [done|apply unpack_pack]. Qed.

(** A handler calls [send] once, with a reply for the sender about the stream of the
    request, and returns what [send] answers. *)
Definition answered (send_ok : RSPMessage.t -> bool) (m : RSPMessage.t) (g : NodeID) (b : bool) (es : list BsdEvent) : Prop :=
  exists reply r, sents es = [reply] /\ b = send_ok reply /\ carries reply (toProtoNodeId g) r /\
    StreamReply.stream_id r = toProtoStreamId <$> derivedSocketId m.

Lemma answered_reply send_ok m g status text id b es :
  senderNodeIdFromMessage m = Some g -> sents es = [makeStreamReplyMessage m status text id] ->
  id = None \/ id = derivedSocketId m -> b = send_ok (makeStreamReplyMessage m status text id) ->
  answered send_ok m g b es.
Proof.
  intros Hg Hs Hid Hb. eexists _, _. split_and!; [exact Hs|exact Hb|by apply makeStreamReplyMessage_carries|done].
Qed.

Lemma answered_modified send_ok m g status text id f b es :
  senderNodeIdFromMessage m = Some g -> sents es = [modifyReply (makeStreamReplyMessage m status text id) f] ->
  id = None \/ id = derivedSocketId m ->
  (forall r, StreamReply.stream_id (f r) = StreamReply.stream_id r) ->
  b = send_ok (modifyReply (makeStreamReplyMessage m status text id) f) ->
  answered send_ok m g b es.
Proof.
  intros Hg Hs Hid Hf Hb. eexists _, _. split_and!; [exact Hs|exact Hb|by apply modifyReply_carries, makeStreamReplyMessage_carries|].
  by rewrite Hf.
Qed.

Lemma sents_app es es' : sents (es ++ es') = sents es ++ sents es'.
Proof. apply omap_app. Qed.
Lemma sents_sent m es : sents (Sent m :: es) = m :: sents es.
Proof. done. Qed.
Lemma sents_logged l es : sents (Logged l :: es) = sents es.
Proof. done. Qed.
Lemma sents_closed hs : sents (Closed <$> hs) = [].
Proof. by induction hs. Qed.

Section Answers.
Context (send_ok : RSPMessage.t -> bool) (m : RSPMessage.t) (g : NodeID) (Hg : senderNodeIdFromMessage m = Some g).

(** Close a goal about a handler that ends with an answer. *)
Ltac answers :=
  intros [= <- _ <-];
  first [ eapply answered_reply; [done|cbn; reflexivity|first [left; reflexivity|right; by symmetry]|reflexivity]
        | eapply answered_modified; [done|cbn; reflexivity|first [left; reflexivity|right; by symmetry]|done|reflexivity] ].

(** The same for a handler that returns [Ok]. *)
Ltac answers_ok := eexists _, _, _; split; [reflexivity|];
  first [ eapply answered_reply; [done|cbn; reflexivity|first [left; reflexivity|right; by symmetry]|reflexivity]
        | eapply answered_modified; [done|cbn; reflexivity|first [left; reflexivity|right; by symmetry]|done|by symmetry] ].

Lemma handleConnectTCPRequest_answers s connect r b s' es :
  unpackServiceMessage ConnectTCPRequest.t m = Some r ->
  handleConnectTCPRequest send_ok s connect m = (b, s', es) -> answered send_ok m g b es.
Proof.
  intros Hr. unfold handleConnectTCPRequest, answer. rewrite Hg, Hr.
  destruct (ConnectTCPRequest.stream_id r) as [x|] eqn:Ex; [|answers].
  pose proof (derived_connect m r x Hr Ex) as D.
  destruct (fromProtoStreamId x) as [id|]; [|answers].
  do 3 (case_match; [answers|]).
  destruct (createTCPConnection connect _) as [c|]; [|answers].
  unfold registerConnectedSocket. rewrite Hg. destruct (addConnection s c) as [h s1].
  destruct (send_ok _) eqn:Eok; cbn [negb].
  - destruct (match _ with None => _ | Some _ => _ end) as [s4 e4] eqn:E4.
    assert (sents e4 = []) as He4.
    { revert E4. destruct (managedSockets_ s !! id); [|by intros [= _ <-]].
      unfold releaseSocket. destruct (readers _ !! _) as [rd|]; [destruct (rd_running rd)|]; by intros [= _ <-]. }
    intros [= <- _ <-]. eapply answered_reply; [done|by rewrite sents_sent, sents_logged, He4|right; by symmetry|by symmetry].
  - destruct (match _ with None => _ | Some _ => _ end) as [s3 e3] eqn:E3.
    assert (sents e3 = []) as He3.
    { revert E3. destruct (managedSockets_ s !! id); [|by intros [= _ <-]].
      unfold releaseSocket. destruct (readers _ !! _) as [rd|]; [destruct (rd_running rd)|]; by intros [= _ <-]. }
    intros [= <- _ <-]. eapply answered_reply; [done|by rewrite sents_sent, sents_app, He3|right; by symmetry|by symmetry].
Qed.

Lemma handleListenTCPRequest_answers s listen_ok r b s' es :
  unpackServiceMessage ListenTCPRequest.t m = Some r ->
  handleListenTCPRequest send_ok s listen_ok m = (b, s', es) -> answered send_ok m g b es.
Proof.
  intros Hr. unfold handleListenTCPRequest, answer. rewrite Hg, Hr.
  destruct (ListenTCPRequest.stream_id r) as [x|] eqn:Ex; [|answers].
  pose proof (derived_listen m r x Hr Ex) as D.
  destruct (fromProtoStreamId x) as [id|]; [|answers].
  do 6 (case_match; [answers|]). clear -Hg D SL.
  destruct (send_ok _) eqn:Eok; cbn [negb].
  - intros [= <- _ <-]. by eapply answered_reply; [done|cbn; reflexivity|right; by symmetry|].
  - unfold stopManagedListener. cbn. intros [= <- _ <-]. eapply answered_reply; [done|rewrite sents_sent; f_equal; apply sents_closed|right; by symmetry|by symmetry].
Qed.

Lemma handleAcceptTCP_answers s newId r :
  unpackServiceMessage AcceptTCP.t m = Some r ->
  exists b s' es, handleAcceptTCP send_ok s newId m = Ok (b, s', es) /\ answered send_ok m g b es.
Proof.
  intros Hr. pose proof (derived_accept m r Hr) as D. unfold handleAcceptTCP, answer. rewrite Hg, Hr.
  destruct (fromProtoStreamId _) as [lid|]; [|answers_ok].
  destruct (managedListeningSockets_ s !! lid) as [ls|]; [|answers_ok].
  destruct (negb (validateListeningSocketAccess m ls)); [answers_ok|].
  destruct (ml_asyncAccept ls); [answers_ok|].
  destruct (default _ _) as [[|h rest] [|]]; cbn [acceptedConnections acc_stopping]; [answers_ok..|].
  destruct (match AcceptTCP.new_stream_id r with Some _ => _ | None => _ end) as [child|]; [|answers_ok].
  destruct (_ || _); [answers_ok|].
  destruct (send_ok _) eqn:Eok; cbn [negb]; answers_ok.
Qed.

Lemma handleStreamRecv_answers recv_failed s r b s' es :
  unpackServiceMessage StreamRecv.t m = Some r ->
  handleStreamRecv send_ok recv_failed s m = (b, s', es) -> answered send_ok m g b es.
Proof.
  intros Hr. unfold handleStreamRecv, answer. rewrite Hr.
  destruct (findSocket s m _) as [reply|[id st]] eqn:Ef.
  - revert Ef. unfold findSocket. repeat case_match; intros [= <-]; answers.
  - destruct (ms_asyncData st); [answers|]. destruct (recvOn _ _ _ _) as [[x| |] s1]; answers.
Qed.

Lemma handleStreamClose_answers s r b s' es :
  unpackServiceMessage StreamClose.t m = Some r ->
  handleStreamClose send_ok s m = (b, s', es) -> answered send_ok m g b es.
Proof.
  intros Hr. pose proof (derived_close m r Hr) as D. unfold handleStreamClose, answer. rewrite Hr.
  destruct (fromProtoStreamId _) as [id|]; [|answers].
  destruct (managedListeningSockets_ s !! id) as [ls|].
  - destruct (negb _); [answers|]. unfold stopManagedListener. cbn. intros [= <- _ <-].
    eapply answered_reply; [done| |right; by symmetry|reflexivity].
    change (sents (((Closed <$> acceptedConnections (default (mkAccepted [] false) (listeners s !! ml_handle ls))) ++
              [Logged (ListenClosedLog (ml_requesterNodeId ls) (toProtoStreamId id))]) ++
              [Sent (makeStreamReplyMessage m SUCCESS [] (Some id))]) = [makeStreamReplyMessage m SUCCESS [] (Some id)]).
    by rewrite !sents_app, sents_closed.
  - destruct (managedSockets_ s !! id) as [st|]; [|answers].
    destruct (negb _); answers.
Qed.

Lemma handleStreamSend_answers `{CL : !ConnectionLaws C} s r :
  unpackServiceMessage StreamSend.t m = Some r ->
  exists b s' es, handleStreamSend send_ok s m = Ok (b, s', es) /\ answered send_ok m g b es.
Proof.
  intros Hr. unfold handleStreamSend, answer. rewrite Hr.
  destruct (findSocket s m _) as [reply|[id st]] eqn:Ef.
  - revert Ef. unfold findSocket. repeat case_match; intros [= <-]; answers_ok.
  - unfold sendOn. destruct (connections s !! ms_connection st) as [c|]; [|cbn; answers_ok].
    destruct (sendAll_spec c (take (Z.to_nat (wrap 32 (size_of (StreamSend.data r)))) (StreamSend.data r))) as (ok & c' & k & -> & _).
    cbn [mbind res_bind fst snd]. destruct ok; cbn [negb]; answers_ok.
Qed.
End Answers.

(** The bytes of the connection of a socket: what is delivered to it and what is
    pending. *)
Context `{CL : !ConnectionLaws C}.

Lemma sendOn_spec s h c data :
  connections s !! h = Some c ->
  exists ok c' k, sendOn s h data = Ok (ok, set_connections s (<[h := c']> (connections s))) /\
    delivered c' = delivered c ++ take k data /\ pending c' = pending c /\ (ok = true -> take k data = data).
Proof.
  intros Hc. unfold sendOn. rewrite Hc. destruct (sendAll_spec c data) as (ok & c' & k & -> & ?). by exists ok, c', k.
Qed.

Lemma recvOn_spec recv_failed s h c n :
  connections s !! h = Some c -> 0 < n ->
  (exists b c', recvOn recv_failed s h n = (Bytes b, set_connections s (<[h := c']> (connections s))) /\
     (0 < List.length b <= Z.to_nat n)%nat /\ pending c = b ++ pending c' /\ delivered c' = delivered c) \/
  (recvOn recv_failed s h n = (if recv_failed c then RecvFailed else EndOfStream, s) /\ pending c = []).
Proof.
  intros Hc Hn. unfold recvOn. rewrite Hc. destruct (recv c (Z.to_nat n)) as [[b c']|] eqn:Er.
  - left. apply recv_some in Er; [|lia]. by exists b, c'.
  - right. apply recv_none in Er; [done|lia].
Qed.

Lemma asyncData_carries st b :
  carries (asyncData st b) (ms_requesterNodeId st) (with_data b (streamReply STREAM_DATA [] (Some (ms_socketId st)))).
Proof. apply modifyReply_carries, makeStreamReplyTo_carries. Qed.

(** The last message of a thread. *)
Definition lastReply (st : ManagedSocketState) (failed : bool) : RSPMessage.t :=
  if failed then asyncReply st STREAM_ERROR (bs "socket recv failed") else asyncReply st STREAM_CLOSED (bs "socket closed").

Lemma runAsyncReadLoop_spec send_ok fuel recv_failed s st c :
  (forall b, send_ok (asyncData st b) = true) -> connections s !! ms_connection st = Some c ->
  (List.length (pending c) < fuel)%nat ->
  exists s' es c' chunks, runAsyncReadLoop send_ok fuel recv_failed s st = Ok (s', es) /\
    connections s' !! ms_connection st = Some c' /\ pending c' = [] /\ delivered c' = delivered c /\
    concat chunks = pending c /\ Forall (fun b => (0 < List.length b <= 4096)%nat) chunks /\
    sents es = (asyncData st <$> chunks) ++ [lastReply st (recv_failed c')].
Proof.
  intros Hok. revert s c. induction fuel as [|fuel IH]; intros s c Hc Hf; [lia|]. cbn [runAsyncReadLoop].
  destruct (recvOn_spec recv_failed s _ c 4096 Hc) as [(b & c1 & -> & Hb & Hp & Hd)|[-> Hp]]; [lia| |].
  - cbn [asyncTurn]. rewrite Hok.
    destruct (IH (set_connections s (<[ms_connection st := c1]> (connections s))) c1) as (s' & es & c' & chunks & -> & H1 & H2 & H3 & H4 & H5 & H6).
    + cbn. by rewrite lookup_insert_eq.
    + rewrite Hp, length_app in Hf. lia.
    + cbn [mbind res_bind fst snd]. exists s', ([Read (ms_connection st); Sent (asyncData st b)] ++ es), c', (b :: chunks).
      split_and!; try done; [congruence|cbn; congruence|by constructor|].
      rewrite sents_app. cbn. by rewrite H6.
  - exists s. unfold lastReply. destruct (recv_failed c) eqn:Ef; cbn; eexists _, c, []; rewrite Ef; done.
Qed.

(** ** Properties *)



(** Finding.  A connection request with the id of another node's socket destroys that
    socket when the reply cannot be sent: the entry is erased and, if no thread reads
    the connection, the connection is closed. *)
Theorem failed_reply_closes_other send_ok s m g c id old hostPort async share :
  managedSockets_ s !! id = Some old -> readers s !! ms_connection old = None -> senderNodeIdFromMessage m = Some g ->
  send_ok (makeStreamReplyMessage m SUCCESS [] (Some id)) = false ->
  exists s' es, registerConnectedSocket send_ok s m c id hostPort async share = (false, s', es)
    /\ managedSockets_ s' !! id = None /\ connections s' !! ms_connection old = None /\ Closed (ms_connection old) ∈ es.
Proof.
  intros Hold Hr Hg Hs. unfold registerConnectedSocket. rewrite Hg. cbn [addConnection]. rewrite Hold, Hs. cbn [negb].
  unfold releaseSocket. cbn [readers set_sockets set_next set_connections]. rewrite Hr. cbn. eexists _, _. split; [reflexivity|].
  cbn. split_and!; [apply lookup_delete_eq| |set_solver].
  destruct (decide (ms_connection old = next_handle s)) as [->|Hne]; [apply lookup_delete_eq|].
  rewrite lookup_delete_ne by done. apply lookup_delete_eq.
Qed.

(** The message holds a request that the input queue handles. *)
Definition well_formed_request (m : RSPMessage.t) : bool :=
  bool_decide (is_Some (unpackServiceMessage ListenTCPRequest.t m)) || bool_decide (is_Some (unpackServiceMessage AcceptTCP.t m)) ||
  bool_decide (is_Some (unpackServiceMessage StreamSend.t m)) || bool_decide (is_Some (unpackServiceMessage StreamRecv.t m)) ||
  bool_decide (is_Some (unpackServiceMessage StreamClose.t m)).

(** Replace the other kinds of request in the goal when [T], the [i]th, is present. *)
Ltac rule_out T i := repeat match goal with |- context [unpackServiceMessage ?U ?m] =>
  assert (unpackServiceMessage U m = None) as ->
    by first [by apply (has_only T U i 1)|by apply (has_only T U i 2)|by apply (has_only T U i 3)
             |by apply (has_only T U i 4)|by apply (has_only T U i 5)] end.

Lemma dispatch_answers send_ok queue_ok listen_ok newId recv_failed s m g :
  senderNodeIdFromMessage m = Some g -> hasServiceMessage ConnectTCPRequest.t m = false ->
  exists b s' es, handleNodeSpecificMessage send_ok queue_ok listen_ok newId recv_failed s m = Ok (b, s', es) /\
    if well_formed_request m then answered send_ok m g b es else b = false /\ s' = s /\ es = [].
Proof.
  intros Hg Hc. unfold handleNodeSpecificMessage, well_formed_request. rewrite Hc.
  destruct (hasServiceMessage ListenTCPRequest.t m) eqn:EL.
  { rule_out ListenTCPRequest.t 1%nat. destruct (handleListenTCPRequest send_ok s listen_ok m) as [[b s'] es] eqn:E.
    exists b, s', es. split; [done|]. destruct (unpackServiceMessage ListenTCPRequest.t m) as [r|] eqn:Er; cbn.
    - by eapply handleListenTCPRequest_answers.
    - revert E. unfold handleListenTCPRequest. rewrite Hg, Er. by intros [= <- <- <-]. }
  destruct (hasServiceMessage AcceptTCP.t m) eqn:EA.
  { rule_out AcceptTCP.t 2%nat. destruct (unpackServiceMessage AcceptTCP.t m) as [r|] eqn:Er; cbn.
    - by eapply handleAcceptTCP_answers.
    - eexists _, _, _. unfold handleAcceptTCP. by rewrite Er. }
  destruct (hasServiceMessage StreamSend.t m) eqn:ES.
  { rule_out StreamSend.t 3%nat. destruct (unpackServiceMessage StreamSend.t m) as [r|] eqn:Er; cbn.
    - by eapply handleStreamSend_answers.
    - eexists _, _, _. unfold handleStreamSend. by rewrite Er. }
  destruct (hasServiceMessage StreamRecv.t m) eqn:ER.
  { rule_out StreamRecv.t 4%nat. destruct (handleStreamRecv send_ok recv_failed s m) as [[b s'] es] eqn:E.
    exists b, s', es. split; [done|]. destruct (unpackServiceMessage StreamRecv.t m) as [r|] eqn:Er; cbn.
    - by eapply handleStreamRecv_answers.
    - revert E. unfold handleStreamRecv. rewrite Er. by intros [= <- <- <-]. }
  destruct (hasServiceMessage StreamClose.t m) eqn:EC.
  { rule_out StreamClose.t 5%nat. destruct (handleStreamClose send_ok s m) as [[b s'] es] eqn:E.
    exists b, s', es. split; [done|]. destruct (unpackServiceMessage StreamClose.t m) as [r|] eqn:Er; cbn.
    - by eapply handleStreamClose_answers.
    - revert E. unfold handleStreamClose. rewrite Er. by intros [= <- <- <-]. }
  rewrite !unpack_absent by done. by eexists _, _, _.
Qed.

(** Every request is answered once.  Handling a message with a sender always
    returns.  It hands a connection request to the worker queue; a message that
    holds no well-formed request of the service changes nothing and is refused; and
    for every other one [send] is called exactly once, with a reply that goes to the
    sender and names the stream of the request, and the handler returns what [send]
    answers.  A worker that takes a well-formed connection request answers it the
    same way. *)
Theorem requests_answered_once send_ok queue_ok listen_ok newId recv_failed connect s m g :
  senderNodeIdFromMessage m = Some g ->
  (exists b s' es, handleNodeSpecificMessage send_ok queue_ok listen_ok newId recv_failed s m = Ok (b, s', es) /\
     if hasServiceMessage ConnectTCPRequest.t m then b = queue_ok /\ s' = s /\ es = [Queued m]
     else if well_formed_request m then answered send_ok m g b es else b = false /\ s' = s /\ es = []) /\
  (exists b s' es, handleConnectTCPRequest send_ok s connect m = (b, s', es) /\
     if bool_decide (is_Some (unpackServiceMessage ConnectTCPRequest.t m)) then answered send_ok m g b es
     else b = false /\ s' = s /\ es = []).
Proof.
  intros Hg. split.
  - destruct (hasServiceMessage ConnectTCPRequest.t m) eqn:Hc; [|by apply dispatch_answers].
    unfold handleNodeSpecificMessage. rewrite Hc. by eexists _, _, _.
  - destruct (handleConnectTCPRequest send_ok s connect m) as [[b s'] es] eqn:E. exists b, s', es. split; [done|].
    destruct (unpackServiceMessage ConnectTCPRequest.t m) as [r|] eqn:Er; cbn.
    + by eapply handleConnectTCPRequest_answers.
    + revert E. unfold handleConnectTCPRequest. rewrite Hg, Er. by intros [= <- <- <-].
Qed.

Lemma findSocket_found s m x id st :
  fromProtoStreamId (value_or_empty x) = Some id -> managedSockets_ s !! id = Some st -> may_use m st ->
  findSocket s m x = inr (id, st).
Proof. intros Hx Hst Hv%validateSocketAccess_iff. unfold findSocket. by rewrite Hx, Hst, Hv. Qed.

Lemma streamSend_spec send_ok s m id st c r :
  managedSockets_ s !! id = Some st -> connections s !! ms_connection st = Some c -> may_use m st ->
  derivedSocketId m = Some id -> unpackServiceMessage StreamSend.t m = Some r -> size_of (StreamSend.data r) < 2 ^ 32 ->
  exists ok s' es c' k status text, handleStreamSend send_ok s m = Ok (ok, s', es) /\ connections s' !! ms_connection st = Some c' /\
    sents es = [makeStreamReplyMessage m status text None] /\ delivered c' = delivered c ++ take k (StreamSend.data r) /\
    pending c' = pending c /\ (status = SUCCESS /\ take k (StreamSend.data r) = StreamSend.data r \/ status = STREAM_ERROR).
Proof.
  intros Hst Hc Hu Hd Hr Hsz. rewrite (derived_send m r Hr) in Hd. unfold handleStreamSend, answer. rewrite Hr.
  rewrite (findSocket_found s m _ id st Hd Hst Hu).
  assert (take (Z.to_nat (wrap 32 (size_of (StreamSend.data r)))) (StreamSend.data r) = StreamSend.data r) as ->.
  { unfold wrap; rewrite Z.mod_small by (unfold size_of in *; lia). unfold size_of. rewrite Nat2Z.id. apply firstn_all. }
  destruct (sendOn_spec s _ c (StreamSend.data r) Hc) as (ok & c' & k & -> & H1 & H2 & H3).
  cbn [mbind res_bind fst snd]. destruct ok; cbn [negb]; eexists _, _, _, c', k, _, _;
    (split_and!; [reflexivity|cbn; by rewrite lookup_insert_eq|reflexivity|done|done|]); auto.
Qed.

Lemma maxBytesOf_pos x : 0 < maxBytesOf x.
Proof. unfold maxBytesOf. destruct x as [n|]; [|lia]. destruct (Z.ltb_spec 0 (Z.of_N n)); lia. Qed.

Lemma streamRecv_spec send_ok recv_failed s m g id st c r :
  senderNodeIdFromMessage m = Some g -> managedSockets_ s !! id = Some st -> connections s !! ms_connection st = Some c ->
  may_use m st -> derivedSocketId m = Some id -> unpackServiceMessage StreamRecv.t m = Some r -> ms_asyncData st = false ->
  exists ok s' es c' reply x, handleStreamRecv send_ok recv_failed s m = (ok, s', es) /\ connections s' !! ms_connection st = Some c' /\
    sents es = [reply] /\ carries reply (toProtoNodeId g) x /\ delivered c' = delivered c /\
    ((exists b, x = with_data b (streamReply STREAM_DATA [] (Some id)) /\ pending c = b ++ pending c' /\
        (0 < List.length b)%nat /\ size_of b <= maxBytesOf (StreamRecv.max_bytes r)) \/
     (pending c = [] /\ c' = c /\
        x = if recv_failed c then streamReply STREAM_ERROR (bs "socket recv failed") (Some id)
            else streamReply STREAM_CLOSED (bs "socket closed") (Some id))).
Proof.
  intros Hg Hst Hc Hu Hd Hr Ha. pose proof (derived_recv m r Hr) as Hd'. rewrite Hd in Hd'.
  unfold handleStreamRecv, answer. rewrite Hr, (findSocket_found s m _ id st (eq_sym Hd') Hst Hu), Ha.
  assert (forall status text, carries (makeStreamReplyMessage m status text None) (toProtoNodeId g) (streamReply status text (Some id))) as HR.
  { intros. rewrite <- Hd. apply makeStreamReplyMessage_carries; auto. }
  destruct (recvOn_spec recv_failed s _ c (maxBytesOf (StreamRecv.max_bytes r)) Hc (maxBytesOf_pos _))
    as [(b & c' & -> & Hb & Hp & Hdel)|[-> Hp]].
  - eexists _, _, _, c', _, _. split_and!; [reflexivity|cbn; by rewrite lookup_insert_eq|reflexivity|apply modifyReply_carries, HR|done|].
    left. exists b. pose proof (maxBytesOf_pos (StreamRecv.max_bytes r)). split_and!; [done..|lia|unfold size_of; lia].
  - destruct (recv_failed c); eexists _, _, _, c, _, _; (split_and!; [reflexivity|done|reflexivity|apply HR|done|]); by right.
Qed.

(** A stream carries its bytes in order.  On a socket of the table whose
    connection is [c], a StreamSend the sender may make delivers exactly its data
    after what was delivered before when it is answered with SUCCESS, and a beginning
    of the data when it is answered with an error; a StreamRecv is answered with the
    next bytes that are pending, at least one and at most as many as were asked for,
    which are then no longer pending, or, only when nothing is left to come, with the
    end of the stream or an error. *)
Theorem stream_carries_bytes send_ok recv_failed s m g id st c :
  senderNodeIdFromMessage m = Some g -> managedSockets_ s !! id = Some st -> connections s !! ms_connection st = Some c ->
  may_use m st -> derivedSocketId m = Some id ->
  (forall r, unpackServiceMessage StreamSend.t m = Some r -> size_of (StreamSend.data r) < 2 ^ 32 ->
     exists ok s' es c' k status text, handleStreamSend send_ok s m = Ok (ok, s', es) /\ connections s' !! ms_connection st = Some c' /\
       sents es = [makeStreamReplyMessage m status text None] /\ delivered c' = delivered c ++ take k (StreamSend.data r) /\
       pending c' = pending c /\ (status = SUCCESS /\ take k (StreamSend.data r) = StreamSend.data r \/ status = STREAM_ERROR)) /\
  (forall r, unpackServiceMessage StreamRecv.t m = Some r -> ms_asyncData st = false ->
     exists ok s' es c' reply x, handleStreamRecv send_ok recv_failed s m = (ok, s', es) /\ connections s' !! ms_connection st = Some c' /\
       sents es = [reply] /\ carries reply (toProtoNodeId g) x /\ delivered c' = delivered c /\
       ((exists b, x = with_data b (streamReply STREAM_DATA [] (Some id)) /\ pending c = b ++ pending c' /\
           (0 < List.length b)%nat /\ size_of b <= maxBytesOf (StreamRecv.max_bytes r)) \/
        (pending c = [] /\ c' = c /\
           x = if recv_failed c then streamReply STREAM_ERROR (bs "socket recv failed") (Some id)
               else streamReply STREAM_CLOSED (bs "socket closed") (Some id)))).
Proof.
  intros Hg Hst Hc Hu Hd. split.
  - intros r Hr Hsz. by apply (streamSend_spec send_ok s m id st c r).
  - intros r Hr Ha. by apply (streamRecv_spec send_ok recv_failed s m g id st c r).
Qed.

(** Asynchronous data is forwarded completely.  The thread of an asynchronous
    socket, while its messages are accepted, ends when the stream of its connection
    does; it has then sent the owner all the bytes that came, in order and in pieces
    of at most 4096 bytes, each as the data of a STREAM_DATA message about the
    socket, and after them exactly one STREAM_CLOSED or STREAM_ERROR message. *)
Theorem async_stream_forwarded send_ok fuel recv_failed s st c :
  (forall b, send_ok (asyncData st b) = true) -> connections s !! ms_connection st = Some c ->
  (List.length (pending c) < fuel)%nat ->
  exists s' es chunks failed, runAsyncReadLoop send_ok fuel recv_failed s st = Ok (s', es) /\
    concat chunks = pending c /\ Forall (fun b => (0 < List.length b <= 4096)%nat) chunks /\
    sents es = (asyncData st <$> chunks) ++ [lastReply st failed] /\
    (forall b, carries (asyncData st b) (ms_requesterNodeId st) (with_data b (streamReply STREAM_DATA [] (Some (ms_socketId st))))) /\
    carries (lastReply st failed) (ms_requesterNodeId st)
      (if failed then streamReply STREAM_ERROR (bs "socket recv failed") (Some (ms_socketId st))
       else streamReply STREAM_CLOSED (bs "socket closed") (Some (ms_socketId st))).
Proof.
  intros Hok Hc Hf.
  destruct (runAsyncReadLoop_spec send_ok fuel recv_failed s st c Hok Hc Hf) as (s' & es & c' & chunks & E & _ & _ & _ & H1 & H2 & H3).
  exists s', es, chunks, (recv_failed c'). split_and!; [done..|apply asyncData_carries|].
  unfold lastReply. destruct (recv_failed c'); apply makeStreamReplyTo_carries.
Qed.

(** Shutting down leaves nothing behind.  When every running thread belongs to a
    socket of the table, [closeAllManagedSockets] empties both tables, closes every
    open connection, those that wait at listeners included, and has every thread
    joined. *)
Theorem shutdown_closes_everything s s' es :
  bsd_reachable s -> terminated_ s = false -> (forall h, read_by_thread s h -> in_table s h) ->
  closeAllManagedSockets s = (s', es) ->
  managedSockets_ s' = ∅ /\ managedListeningSockets_ s' = ∅ /\ connections s' = ∅ /\ readers s' = ∅.
Proof.
  intros I%bsd_reachable_inv Ht Horphan. unfold closeAllManagedSockets.
  destruct (stopAllListeners _ _) as [s1 e1] eqn:E1. destruct (stopAllSockets s1 _) as [s2 e2] eqn:E2. intros [= <- _].
  apply stopAllListeners_spec in E1 as (A1 & A2 & A3 & A4 & A5). apply stopAllSockets_spec in E2 as (B1 & B2 & B3 & B4 & B5).
  split_and!; [by rewrite B1, A2|by rewrite B2, A3|apply map_empty; intros h|apply map_empty; intros h].
  - destruct (connections s !! h) as [c|] eqn:Ec; [|by apply B3, A4].
    assert (in_table s h -> connections s2 !! h = None) as HT.
    { intros (id & st & Hst & <-). by apply (B5 id st), elem_of_in_order. }
    destruct (inv_owned s I Ht h) as [?|[[l W]|?]]; [eauto|by apply HT| |by apply HT, Horphan].
    destruct (inv_waits s I h l W) as (_ & _ & _ & (id & ls & Hls & <-) & _).
    apply B3, (A5 id ls); [by apply elem_of_in_order|done].
  - destruct (readers s !! h) as [r|] eqn:Er; [|apply B4; by rewrite A1].
    destruct (inv_reader s I h r Er) as (Hc & _ & _ & Hrun).
    assert (in_table s h) as (id & st & Hst & <-).
    { destruct (rd_running r) eqn:Err; [|exists (ms_socketId (rd_socket r)), (rd_socket r); auto].
      apply Horphan. exists (rd_socket r). rewrite Er. destruct r. by rewrite <- Err. }
    by apply (B5 id st), elem_of_in_order.
Qed.

Lemma createTCPConnection_loop_ext connect connect' n i :
  (forall j, (i <= j < i + n)%nat -> connect j = connect' j) ->
  createTCPConnection_loop connect n i = createTCPConnection_loop connect' n i.
Proof.
  revert i. induction n as [|n IH]; intros i Hj; [done|]. cbn. rewrite Hj by lia. destruct (connect' i); [done|].
  apply IH. intros j Hr. apply Hj. lia.
Qed.

(** A connection request makes at most six attempts, whatever number of retries
    it asks for: two networks that agree on the first six attempts give the same
    outcome. *)
Theorem connect_attempts_bounded send_ok s connect connect' m :
  (forall i, (i < 6)%nat -> connect i = connect' i) ->
  handleConnectTCPRequest send_ok s connect m = handleConnectTCPRequest send_ok s connect' m.
Proof.
  intros Hc. unfold handleConnectTCPRequest.
  destruct (senderNodeIdFromMessage m); [|done]. destruct (unpackServiceMessage _ m) as [r|]; [|done].
  set (total := match ConnectTCPRequest.retries r with Some _ => _ | None => _ end).
  assert (createTCPConnection connect total = createTCPConnection connect' total) as ->; [|done].
  apply createTCPConnection_loop_ext. intros j Hj. apply Hc. subst total.
  destruct (ConnectTCPRequest.retries r); lia.
Qed.
End BsdSockets.

Lemma parsePort_loop_range text value port :
  0 <= value <= 65535 -> parsePort_loop text value = Some port -> 0 <= port <= 65535.
Proof.
  revert value. induction text as [|x text IH]; intros value Hv; cbn; [by intros [= <-]|].
  destruct (_ || _) eqn:E; [done|]. destruct (Z.ltb_spec 65535 (value * 10 + (byte_val x - 48))); [done|].
  apply IH. lia.
Qed.

(** ** Witnesses

    A codec for messages, from their numbering. *)
Fixpoint pos_bytes (p : positive) : bytes :=
  match p with xH => [] | xO p => "0"%char :: pos_bytes p | xI p => "1"%char :: pos_bytes p end.
Fixpoint bytes_pos (b : bytes) : positive :=
  match b with [] => xH | x :: b => if bool_decide (x = "0"%char) then xO (bytes_pos b) else xI (bytes_pos b) end.
Lemma bytes_pos_bytes p : bytes_pos (pos_bytes p) = p.
Proof.
  induction p as [p IH|p IH|]; cbn; [rewrite bool_decide_false by done|rewrite bool_decide_true by done|done]; by rewrite IH.
Qed.

Definition counted (T : Type) `{Countable T} (name : string) : ServiceMessageType T :=
  {| full_name := name; serialize_message := fun x => pos_bytes (encode x); parse_message := fun b => decode (bytes_pos b) |}.

Lemma counted_parses T `{Countable T} name (x : T) :
  @parse_message T (counted T name) (@serialize_message T (counted T name) x) = Some x.
Proof. cbn. by rewrite bytes_pos_bytes, decode_encode. Qed.

#[local] Instance reply_eq_dec : EqDecision StreamReply.t.
Proof. solve_decision. Defined.
#[local] Instance send_eq_dec : EqDecision StreamSend.t.
Proof. solve_decision. Defined.
#[local] Instance recv_eq_dec : EqDecision StreamRecv.t.
Proof. solve_decision. Defined.
#[local] Instance close_eq_dec : EqDecision StreamClose.t.
Proof. solve_decision. Defined.
#[local] Instance connect_eq_dec : EqDecision ConnectTCPRequest.t.
Proof. solve_decision. Defined.
#[local] Instance listen_eq_dec : EqDecision ListenTCPRequest.t.
Proof. solve_decision. Defined.
#[local] Instance accept_eq_dec : EqDecision AcceptTCP.t.
Proof. solve_decision. Defined.

#[local] Instance reply_countable : Countable StreamReply.t.
Proof.
  refine (inj_countable' (fun r : StreamReply.t => let (a, b, c, d, e, f, g) := r in (a, (b, (c, (d, (e, (f, g)))))))
            (fun '(a, (b, (c, (d, (e, (f, g)))))) => StreamReply.mk a b c d e f g) _).
  by intros [].
Defined.
#[local] Instance send_countable : Countable StreamSend.t.
Proof.
  refine (inj_countable' (fun r : StreamSend.t => let (a, b, c) := r in (a, (b, c))) (fun '(a, (b, c)) => StreamSend.mk a b c) _).
  by intros [].
Defined.
#[local] Instance recv_countable : Countable StreamRecv.t.
Proof.
  refine (inj_countable' (fun r : StreamRecv.t => let (a, b, c, d) := r in (a, (b, (c, d))))
            (fun '(a, (b, (c, d))) => StreamRecv.mk a b c d) _).
  by intros [].
Defined.
#[local] Instance close_countable : Countable StreamClose.t.
Proof. refine (inj_countable' StreamClose.stream_id StreamClose.mk _). by intros []. Defined.
#[local] Instance connect_countable : Countable ConnectTCPRequest.t.
Proof.
  refine (inj_countable' (fun r : ConnectTCPRequest.t => let (a, b, c, d, e, f, g, h, i, j) := r in (a, (b, (c, (d, (e, (f, (g, (h, (i, j))))))))))
            (fun '(a, (b, (c, (d, (e, (f, (g, (h, (i, j))))))))) => ConnectTCPRequest.mk a b c d e f g h i j) _).
  by intros [].
Defined.
#[local] Instance listen_countable : Countable ListenTCPRequest.t.
Proof.
  refine (inj_countable' (fun r : ListenTCPRequest.t => let (a, b, c, d, e, f, g, h, i) := r in (a, (b, (c, (d, (e, (f, (g, (h, i)))))))))
            (fun '(a, (b, (c, (d, (e, (f, (g, (h, i)))))))) => ListenTCPRequest.mk a b c d e f g h i) _).
  by intros [].
Defined.
#[local] Instance accept_countable : Countable AcceptTCP.t.
Proof.
  refine (inj_countable' (fun r : AcceptTCP.t => let (a, b, c, d, e, f) := r in (a, (b, (c, (d, (e, f))))))
            (fun '(a, (b, (c, (d, (e, f))))) => AcceptTCP.mk a b c d e f) _).
  by intros [].
Defined.

#[local] Instance stream_messages : StreamMessages := {|
  sm_reply := counted _ "rsp.proto.StreamReply"; sm_send := counted _ "rsp.proto.StreamSend";
  sm_recv := counted _ "rsp.proto.StreamRecv"; sm_close := counted _ "rsp.proto.StreamClose";
  sm_connect := counted _ "rsp.proto.ConnectTCPRequest"; sm_listen := counted _ "rsp.proto.ListenTCPRequest";
  sm_accept := counted _ "rsp.proto.AcceptTCP" |}.

#[local] Instance stream_messages_laws : StreamMessagesLaws stream_messages.
Proof. split; [intros r; apply counted_parses..|]. apply (bool_decide_unpack _). vm_compute. exact I. Qed.

Import Trickle.

(** A request of the node [n] and a network in which every attempt to connect
    succeeds: the peer has sent [hi]. *)
Definition from_node {T} `{ServiceMessageType T} (n : Z) (x : T) : RSPMessage.t :=
  packServiceMessage (RSPMessage.set_source RSPMessage.empty (Some (toProtoNodeId (mkGUID n n)))) x.
Definition connect_request (async : bool) (id : Z) : ConnectTCPRequest.t :=
  ConnectTCPRequest.mk (bs "h:80") (Some (toProtoStreamId (mkGUID id id))) None None None None None (Some async) None None.
Definition bsd_network : nat -> option Conn := fun _ => Some (bs "hi", []).
Definition all_sent (m : RSPMessage.t) : bool := true.
Definition never_failed : Conn -> bool := fun _ => false.

Definition connect_step (s : BsdSockets) (m : RSPMessage.t) : BsdSockets :=
  (handleConnectTCPRequest all_sent s bsd_network m).1.2.
Lemma connect_step_reachable s m : bsd_reachable s -> terminated_ s = false -> bsd_reachable (connect_step s m).
Proof.
  intros Hr Ht. unfold connect_step. destruct (handleConnectTCPRequest all_sent s bsd_network m) as [[b s'] es] eqn:E.
  eapply reach_step; [exact Hr|]. by eapply step_connect.
Qed.

Definition reader_step (s : BsdSockets) (h : nat) : BsdSockets := default s (fst <$> reader_turn all_sent never_failed s h).
Lemma reader_step_reachable s h : bsd_reachable s -> terminated_ s = false -> bsd_reachable (reader_step s h).
Proof.
  intros Hr Ht. unfold reader_step. destruct (reader_turn all_sent never_failed s h) as [[s' es]|] eqn:E; [|done].
  eapply reach_step; [exact Hr|]. by eapply step_reader.
Qed.

(** The node 7 has opened the socket 1. *)
Definition bsd_one : BsdSockets := connect_step initial_bsd (from_node 7 (connect_request false 1)).
Lemma bsd_one_reachable : bsd_reachable bsd_one.
Proof. apply connect_step_reachable; [apply reach_initial|done]. Qed.


(** The node 8 may not close the socket of the node 7. *)
Definition close_request : RSPMessage.t := from_node 8 (StreamClose.mk (Some (toProtoStreamId (mkGUID 1 1)))).

Definition socket_of_7 : ManagedSocketState :=
  mkSocket 0 (toProtoNodeId (mkGUID 7 7)) (mkGUID 1 1) (bs "h:80") false false false.


(** Requests of the owner. *)
Definition send_request : RSPMessage.t := from_node 7 (StreamSend.mk (Some (toProtoStreamId (mkGUID 1 1))) 0 (bs "ping")).
Definition recv_request : RSPMessage.t := from_node 7 (StreamRecv.mk (Some (toProtoStreamId (mkGUID 1 1))) 0 None None).

Lemma sender_of_7 : senderNodeIdFromMessage send_request = Some (mkGUID 7 7).
Proof. vm_compute. reflexivity. Qed.

Lemma requests_answered_once_witness :
  exists b s' es, handleNodeSpecificMessage all_sent true true (mkGUID 9 9) never_failed bsd_one send_request = Ok (b, s', es) /\
    answered all_sent send_request (mkGUID 7 7) b es.
Proof.
  destruct (requests_answered_once all_sent true true (mkGUID 9 9) never_failed bsd_network bsd_one send_request (mkGUID 7 7))
    as [(b & s' & es & E & Ha) _]; [exact sender_of_7|].
  exists b, s', es. split; [exact E|].
  assert (hasServiceMessage ConnectTCPRequest.t send_request = false) as H1 by (vm_compute; reflexivity). rewrite H1 in Ha.
  assert (well_formed_request send_request = true) as H2 by (vm_compute; reflexivity). rewrite H2 in Ha. exact Ha.
Defined.

Lemma stream_carries_bytes_witness :
  exists s' es reply x, handleStreamRecv all_sent never_failed bsd_one recv_request = (true, s', es) /\
    sents es = [reply] /\ carries reply (toProtoNodeId (mkGUID 7 7)) x.
Proof.
  destruct (stream_carries_bytes all_sent never_failed bsd_one recv_request (mkGUID 7 7) (mkGUID 1 1) socket_of_7 (bs "hi", []))
    as [_ H2]; [vm_compute; reflexivity..| | |].
  - apply validateSocketAccess_iff. vm_compute. reflexivity.
  - vm_compute. reflexivity.
  - destruct (H2 (StreamRecv.mk (Some (toProtoStreamId (mkGUID 1 1))) 0 None None)) as (ok & s' & es & c' & reply & x & E & _ & H3 & H4 & _);
      [vm_compute; reflexivity|reflexivity|].
    exists s', es, reply, x. split; [|split; assumption]. rewrite E. f_equal. f_equal.
    assert (ok = (handleStreamRecv all_sent never_failed bsd_one recv_request).1.1) as -> by (rewrite E; reflexivity).
    vm_compute. reflexivity.
Defined.

Lemma async_stream_forwarded_witness :
  exists s' es chunks, runAsyncReadLoop all_sent 3 never_failed bsd_one socket_of_7 = Ok (s', es) /\ concat chunks = bs "hi".
Proof.
  destruct (async_stream_forwarded all_sent 3 never_failed bsd_one socket_of_7 (bs "hi", [])) as (s' & es & chunks & failed & H1 & H2 & _).
  - intros b. reflexivity.
  - vm_compute. reflexivity.
  - vm_compute. lia.
  - exists s', es, chunks. split; [exact H1|exact H2].
Defined.

Lemma shutdown_closes_everything_witness : connections (closeAllManagedSockets bsd_one).1 = ∅.
Proof.
  destruct (closeAllManagedSockets bsd_one) as [s' es] eqn:E.
  apply (shutdown_closes_everything bsd_one s' es bsd_one_reachable); [vm_compute; reflexivity| |exact E].
  intros h [st Hst]. assert (readers bsd_one = ∅) as Hr by (vm_compute; reflexivity). rewrite Hr, lookup_empty in Hst. discriminate.
Defined.

Lemma connect_attempts_bounded_witness :
  handleConnectTCPRequest all_sent initial_bsd bsd_network (from_node 7 (connect_request false 1)) =
  handleConnectTCPRequest all_sent initial_bsd (fun i => if (i <? 6)%nat then bsd_network i else None) (from_node 7 (connect_request false 1)).
Proof.
  apply connect_attempts_bounded. intros i Hi. destruct (Nat.ltb_spec i 6); [reflexivity|lia].
Defined.

(** ** Findings *)

(** A connection request with the id of an open socket is answered with SUCCESS,
    although the table keeps the old socket and the new one is not in it. *)
Lemma used_id_is_accepted :
  exists reply r, sents (handleConnectTCPRequest all_sent bsd_one bsd_network (from_node 8 (connect_request false 1))).2 = [reply] /\
    carries reply (toProtoNodeId (mkGUID 8 8)) r /\ StreamReply.error r = SUCCESS /\
    (exists st, managedSockets_ (connect_step bsd_one (from_node 8 (connect_request false 1))) !! mkGUID 1 1 = Some st /\
       ms_requesterNodeId st = toProtoNodeId (mkGUID 7 7)).
Proof.
  eexists _, _. split; [vm_compute; reflexivity|]. split; [split; vm_compute; reflexivity|]. split; [reflexivity|].
  eexists. split; vm_compute; reflexivity.
Qed.

(** Two connection requests with the same id and asynchronous data bring the process
    down: when the stream of the second connection ends, the thread that reads it
    gives up the last reference to its own socket. *)
Definition bsd_twice : BsdSockets :=
  connect_step (connect_step initial_bsd (from_node 7 (connect_request true 1))) (from_node 8 (connect_request true 1)).

Lemma used_id_terminates : exists s, bsd_reachable s /\ terminated_ s = true.
Proof.
  exists (reader_step (reader_step (reader_step bsd_twice 1) 1) 1). split; [|vm_compute; reflexivity].
  do 3 (apply reader_step_reachable; [|vm_compute; reflexivity]).
  do 2 (apply connect_step_reachable; [|vm_compute; reflexivity]). apply reach_initial.
Qed.

(** A request to accept on a shared listener is handled although it names no sender,
    whose id is then used. *)
Definition listen_request : RSPMessage.t :=
  from_node 7 (ListenTCPRequest.mk (bs "h:80") (Some (toProtoStreamId (mkGUID 2 2))) None None None (Some true) None None None).
Definition accept_request : RSPMessage.t :=
  packServiceMessage RSPMessage.empty (AcceptTCP.mk (Some (toProtoStreamId (mkGUID 2 2))) None None None None None).
Definition bsd_listening : BsdSockets := (handleListenTCPRequest all_sent initial_bsd true listen_request).1.2.

Lemma bsd_listening_reachable : bsd_reachable bsd_listening.
Proof.
  unfold bsd_listening. destruct (handleListenTCPRequest all_sent initial_bsd true listen_request) as [[b s'] es] eqn:E.
  eapply reach_step; [apply reach_initial|].
  eapply (step_message all_sent true true (mkGUID 9 9) never_failed _ listen_request b); [done|].
  unfold handleNodeSpecificMessage. replace (hasServiceMessage ConnectTCPRequest.t listen_request) with false by (vm_compute; reflexivity).
  replace (hasServiceMessage ListenTCPRequest.t listen_request) with true by (vm_compute; reflexivity). by rewrite E.
Qed.

Definition bsd_waiting : BsdSockets :=
  match managedListeningSockets_ bsd_listening !! mkGUID 2 2 with
  | Some ls => match handleAcceptedConnection all_sent bsd_listening ls [] (bs "hi", []) with Ok r => r.1 | _ => bsd_listening end
  | None => bsd_listening
  end.

Lemma shared_accept_undefined :
  bsd_reachable bsd_waiting /\ handleAcceptTCP all_sent bsd_waiting (mkGUID 9 9) accept_request = Undefined.
Proof.
  split; [|vm_compute; reflexivity].
  unfold bsd_waiting. destruct (managedListeningSockets_ bsd_listening !! mkGUID 2 2) as [ls|] eqn:El; [|apply bsd_listening_reachable].
  destruct (handleAcceptedConnection _ _ _ _ _) as [[s' es]| | |] eqn:E; [|apply bsd_listening_reachable..].
  eapply reach_step; [apply bsd_listening_reachable|]. eapply step_accepted; [vm_compute; reflexivity| |exact E].
  destruct (inv_listener _ (bsd_reachable_inv _ bsd_listening_reachable) _ _ El) as [-> _]. exact El.
Qed.
