(* ===== verification/StreamClient.v ===== *)
(** * client/cpp/rsp_client.cpp: the streams of the client

    A client opens streams at services, sends and receives over them and can join one
    to a local socket, a native bridge, whose other end the application uses.

    The state is what [stateMutex_] protects.  A call that waits for a reply has two
    parts, around the wait: its end is evaluated in the state in which the wait ends.
    Native bridges are known by handles, because the tables and the threads share
    them; their local sockets are connections.  Random stream ids are arguments. *)

From S2P Require Import Prelude BaseTypes Proto GuidBytes MessageHash KeyPair Signing AuthN Transport ServiceMessage.
From S2P Require Import IdentityCache DateTimes FieldResolver Requirement Logging AesNegotiation Node BsdSockets.

(** ** Data *)
Record StreamResult := mkResult {
  sr_status : Enum;
  sr_streamId : GUID;
  (** [newStreamId], when [hasNewStreamId] *)
  sr_newStreamId : option GUID;
  sr_data : bytes;
  sr_message : bytes;
  sr_errorCode : Z }.

Record PendingConnectState := mkPendingConnect { pc_completed : bool; pc_result : option StreamResult }.

Definition streamResultFromReply (reply : StreamReply.t) (fallbackStreamId : GUID) : StreamResult :=
  mkResult (StreamReply.error reply)
    (match StreamReply.stream_id reply with
     | Some id => default fallbackStreamId (fromProtoStreamId id)
     | None => fallbackStreamId
     end)
    (StreamReply.new_stream_id reply ≫= fromProtoStreamId)
    (value_or_empty (StreamReply.data reply))
    (value_or_empty (StreamReply.message reply))
    (default 0 (StreamReply.stream_error_code reply)).

(** The first result with the stream and the status of [result] is erased. *)
Fixpoint removeBufferedReply (pendingResults : list StreamResult) (result : StreamResult) : list StreamResult :=
  match pendingResults with
  | [] => []
  | r :: rest =>
      if bool_decide (sr_streamId r = sr_streamId result) && (sr_status r =? sr_status result) then rest
      else r :: removeBufferedReply rest result
  end.

Module ConnectSshd.
Record t := mk {
  stream_id : option StreamID; timeout_ms : option N; async_data : option bool; use_socket : option bool; share_socket : option bool }.
End ConnectSshd.

Module ConnectHttp.
Record t := mk {
  stream_id : option StreamID; virtual_host : option bytes; tls : option bool; timeout_ms : option N;
  async_data : option bool; share_socket : option bool }.
End ConnectHttp.

(** Optional fields are set when an argument is not zero or is true. *)
Definition positive_field (n : N) : option N := if (0 <? n)%N then Some n else None.
Definition true_field (b : bool) : option bool := if b then Some true else None.

Section Streams.
Context `{C : Connection} `{SM : StreamMessages}.

(** [br_socket] is [None] when [bridgeSocket] was closed. *)
Record NativeStreamBridgeState := mkBridge { br_socket : option Conn; br_stopping : bool; br_remoteClosed : bool }.

Record StreamClient := mkStreams {
  streamRoutes_ : gmap GUID NodeID;
  pendingConnects_ : gmap GUID PendingConnectState;
  pendingListens_ : gmap GUID PendingConnectState;
  pendingStreamResults_ : list StreamResult;
  streamReplyQueues_ : gmap GUID (list StreamResult);
  awaitedStreamReplies_ : gset GUID;
  nativeStreamBridges_ : gmap GUID nat;
  bridges : gmap nat NativeStreamBridgeState;
  next_bridge : nat;
  sc_stopping : bool }.

Definition initial_streams : StreamClient := mkStreams ∅ ∅ ∅ [] ∅ ∅ ∅ ∅ 0 false.

Definition set_routes (c : StreamClient) m : StreamClient :=
  mkStreams m (pendingConnects_ c) (pendingListens_ c) (pendingStreamResults_ c) (streamReplyQueues_ c) (awaitedStreamReplies_ c)
    (nativeStreamBridges_ c) (bridges c) (next_bridge c) (sc_stopping c).
Definition set_connects (c : StreamClient) m : StreamClient :=
  mkStreams (streamRoutes_ c) m (pendingListens_ c) (pendingStreamResults_ c) (streamReplyQueues_ c) (awaitedStreamReplies_ c)
    (nativeStreamBridges_ c) (bridges c) (next_bridge c) (sc_stopping c).
Definition set_listens (c : StreamClient) m : StreamClient :=
  mkStreams (streamRoutes_ c) (pendingConnects_ c) m (pendingStreamResults_ c) (streamReplyQueues_ c) (awaitedStreamReplies_ c)
    (nativeStreamBridges_ c) (bridges c) (next_bridge c) (sc_stopping c).
Definition set_results (c : StreamClient) l : StreamClient :=
  mkStreams (streamRoutes_ c) (pendingConnects_ c) (pendingListens_ c) l (streamReplyQueues_ c) (awaitedStreamReplies_ c)
    (nativeStreamBridges_ c) (bridges c) (next_bridge c) (sc_stopping c).
Definition set_queues (c : StreamClient) m : StreamClient :=
  mkStreams (streamRoutes_ c) (pendingConnects_ c) (pendingListens_ c) (pendingStreamResults_ c) m (awaitedStreamReplies_ c)
    (nativeStreamBridges_ c) (bridges c) (next_bridge c) (sc_stopping c).
Definition set_awaited (c : StreamClient) m : StreamClient :=
  mkStreams (streamRoutes_ c) (pendingConnects_ c) (pendingListens_ c) (pendingStreamResults_ c) (streamReplyQueues_ c) m
    (nativeStreamBridges_ c) (bridges c) (next_bridge c) (sc_stopping c).
Definition set_native (c : StreamClient) m n : StreamClient :=
  mkStreams (streamRoutes_ c) (pendingConnects_ c) (pendingListens_ c) (pendingStreamResults_ c) (streamReplyQueues_ c)
    (awaitedStreamReplies_ c) m (bridges c) n (sc_stopping c).
Definition set_bridges (c : StreamClient) m : StreamClient :=
  mkStreams (streamRoutes_ c) (pendingConnects_ c) (pendingListens_ c) (pendingStreamResults_ c) (streamReplyQueues_ c)
    (awaitedStreamReplies_ c) (nativeStreamBridges_ c) m (next_bridge c) (sc_stopping c).

Definition set_bridge (c : StreamClient) (b : nat) (f : NativeStreamBridgeState -> NativeStreamBridgeState) : StreamClient :=
  set_bridges c (alter f b (bridges c)).

(** ** Requests *)
Definition connectTCP_request (nodeId : NodeID) (hostPort : bytes) (timeoutMilliseconds retries retryMilliseconds : N)
    (asyncData shareSocket useSocket : bool) (socketId : GUID) : RSPMessage.t :=
  packServiceMessage (to_destination (toProtoNodeId nodeId))
    (ConnectTCPRequest.mk hostPort (Some (toProtoStreamId socketId)) None None (positive_field timeoutMilliseconds)
       (positive_field retries) (positive_field retryMilliseconds) (true_field asyncData) (Some useSocket) (true_field shareSocket)).

Definition listenTCP_request (nodeId : NodeID) (hostPort : bytes) (timeoutMilliseconds : N)
    (asyncAccept shareListeningSocket shareChildSockets childrenUseSocket childrenAsyncData : bool) (socketId : GUID) : RSPMessage.t :=
  packServiceMessage (to_destination (toProtoNodeId nodeId))
    (ListenTCPRequest.mk hostPort (Some (toProtoStreamId socketId)) None (positive_field timeoutMilliseconds)
       (true_field asyncAccept) (true_field shareListeningSocket) (true_field shareChildSockets) (true_field childrenUseSocket)
       (true_field childrenAsyncData)).

Definition connectSshd_request `{!ServiceMessageType ConnectSshd.t} (nodeId : NodeID) (timeoutMilliseconds : N)
    (asyncData shareSocket useSocket : bool) (socketId : GUID) : RSPMessage.t :=
  packServiceMessage (to_destination (toProtoNodeId nodeId))
    (ConnectSshd.mk (Some (toProtoStreamId socketId)) (positive_field timeoutMilliseconds) (true_field asyncData) (Some useSocket)
       (true_field shareSocket)).

Definition connectHttp_request `{!ServiceMessageType ConnectHttp.t} (nodeId : NodeID) (timeoutMilliseconds : N)
    (asyncData shareSocket : bool) (virtualHost : bytes) (socketId : GUID) : RSPMessage.t :=
  packServiceMessage (to_destination (toProtoNodeId nodeId))
    (ConnectHttp.mk (Some (toProtoStreamId socketId)) (match virtualHost with [] => None | _ => Some virtualHost end) None
       (positive_field timeoutMilliseconds) (true_field asyncData) (true_field shareSocket)).

(** ** Opening a stream

    The functions that open a stream differ in the request and in the table in which
    they wait.  [None] is [nullopt]. *)
Definition connect_begin (c : StreamClient) (socketId : GUID) : StreamClient :=
  set_connects c (<[socketId := mkPendingConnect false None]> (pendingConnects_ c)).
Definition connect_unsent (c : StreamClient) (socketId : GUID) : StreamClient :=
  set_connects c (delete socketId (pendingConnects_ c)).
Definition listen_begin (c : StreamClient) (socketId : GUID) : StreamClient :=
  set_listens c (<[socketId := mkPendingConnect false None]> (pendingListens_ c)).
Definition listen_unsent (c : StreamClient) (socketId : GUID) : StreamClient :=
  set_listens c (delete socketId (pendingListens_ c)).

(** What the end of a wait finds in a table; the wait fails when it ends before
    the reply or when the client stops. *)
Definition open_result (pending : gmap GUID PendingConnectState) (stopping : bool) (socketId : GUID) : option StreamResult :=
  match pending !! socketId with
  | Some p => if pc_completed p && negb stopping then pc_result p else None
  | None => None
  end.

Definition open_route (c : StreamClient) (nodeId : NodeID) (socketId : GUID) (result : option StreamResult) : StreamClient :=
  match result with
  | Some r => if sr_status r =? SUCCESS then set_routes c (<[socketId := nodeId]> (streamRoutes_ c)) else c
  | None => c
  end.

Definition connect_end (c : StreamClient) (nodeId : NodeID) (socketId : GUID) : option StreamResult * StreamClient :=
  let result := open_result (pendingConnects_ c) (sc_stopping c) socketId in
  (result, open_route (set_connects c (delete socketId (pendingConnects_ c))) nodeId socketId result).

Definition listen_end (c : StreamClient) (nodeId : NodeID) (socketId : GUID) : option StreamResult * StreamClient :=
  let result := open_result (pendingListens_ c) (sc_stopping c) socketId in
  (result, open_route (set_listens c (delete socketId (pendingListens_ c))) nodeId socketId result).

(** [connectTCP], [listenTCP], [connectSshd], [connectHttp]: the id of a stream that was opened. *)
Definition opened (reply : option StreamResult) : option GUID :=
  match reply with Some r => if sr_status r =? SUCCESS then Some (sr_streamId r) else None | None => None end.

(** ** Using a stream *)
Definition registerStreamRoute (c : StreamClient) (socketId : GUID) (nodeId : NodeID) : StreamClient :=
  set_routes c (<[socketId := nodeId]> (streamRoutes_ c)).

(** The route, with the stream marked as awaited; [None] without a route. *)
Definition await (c : StreamClient) (socketId : GUID) : option (NodeID * StreamClient) :=
  destination ← streamRoutes_ c !! socketId;
  Some (destination, set_awaited c ({[socketId]} ∪ awaitedStreamReplies_ c)).

Definition waitForStreamReply (c : StreamClient) (socketId : GUID) : option StreamResult * StreamClient :=
  let c1 := set_awaited c (awaitedStreamReplies_ c ∖ {[socketId]}) in
  match streamReplyQueues_ c !! socketId with
  | Some (reply :: rest) =>
      if sc_stopping c then (None, c1)
      else
        let c2 := set_results c1 (removeBufferedReply (pendingStreamResults_ c) reply) in
        (Some reply,
         set_queues c2 (match rest with
                        | [] => delete socketId (streamReplyQueues_ c)
                        | _ => <[socketId := rest]> (streamReplyQueues_ c)
                        end))
  | _ => (None, c1)
  end.

Definition streamSend_begin (c : StreamClient) (socketId : GUID) (data : bytes) : option (RSPMessage.t * StreamClient) :=
  r ← await c socketId;
  Some (packServiceMessage (to_destination (toProtoNodeId r.1)) (StreamSend.mk (Some (toProtoStreamId socketId)) 0 data), r.2).

Definition streamSend_end (c : StreamClient) (socketId : GUID) : bool * StreamClient :=
  let '(reply, c') := waitForStreamReply c socketId in
  (match reply with Some r => sr_status r =? SUCCESS | None => false end, c').

Definition streamRecv_begin (c : StreamClient) (socketId : GUID) (maxBytes waitMilliseconds : N) : option (RSPMessage.t * StreamClient) :=
  r ← await c socketId;
  Some (packServiceMessage (to_destination (toProtoNodeId r.1))
          (StreamRecv.mk (Some (toProtoStreamId socketId)) 0 (Some maxBytes) (positive_field waitMilliseconds)), r.2).

(** [streamRecv]: the data of the reply that [streamRecvEx] waits for. *)
Definition streamRecv_end (c : StreamClient) (socketId : GUID) : option bytes * StreamClient :=
  let '(reply, c') := waitForStreamReply c socketId in
  (match reply with
   | Some r => if (sr_status r =? STREAM_DATA) || (sr_status r =? SUCCESS) then Some (sr_data r) else None
   | None => None
   end, c').

Definition acceptTCP_begin (c : StreamClient) (listenSocketId : GUID) (newSocketId : option GUID) (timeoutMilliseconds : N)
    (shareChildSocket childUseSocket childAsyncData : bool) : option (RSPMessage.t * StreamClient) :=
  r ← await c listenSocketId;
  Some (packServiceMessage (to_destination (toProtoNodeId r.1))
          (AcceptTCP.mk (Some (toProtoStreamId listenSocketId)) (toProtoStreamId <$> newSocketId) (positive_field timeoutMilliseconds)
             (true_field shareChildSocket) (true_field childUseSocket) (true_field childAsyncData)), r.2).

Definition acceptTCP_unsent (c : StreamClient) (listenSocketId : GUID) : StreamClient :=
  set_awaited c (awaitedStreamReplies_ c ∖ {[listenSocketId]}).

Definition accepted_child (reply : option StreamResult) : option GUID :=
  match reply with
  | Some r => if (sr_status r =? SUCCESS) || (sr_status r =? NEW_CONNECTION) then sr_newStreamId r else None
  | None => None
  end.

Definition acceptTCP_end (c : StreamClient) (destination : NodeID) (listenSocketId : GUID) : option StreamResult * StreamClient :=
  let '(reply, c') := waitForStreamReply c listenSocketId in
  (reply, match accepted_child reply with
          | Some child => set_routes c' (<[child := destination]> (streamRoutes_ c'))
          | None => c'
          end).

Definition streamClose_begin (c : StreamClient) (socketId : GUID) : option (RSPMessage.t * StreamClient) :=
  r ← await c socketId;
  Some (packServiceMessage (to_destination (toProtoNodeId r.1)) (StreamClose.mk (Some (toProtoStreamId socketId))), r.2).

Definition eraseRoute (c : StreamClient) (socketId : GUID) : StreamClient := set_routes c (delete socketId (streamRoutes_ c)).

(** One turn of the loop of [streamClose]: what it returns, or [None] when the loop
    goes on.  The deadline of the loop is the end [eraseRoute]. *)
Definition streamClose_turn (c : StreamClient) (socketId : GUID) : option bool * StreamClient :=
  let '(reply, c') := waitForStreamReply c socketId in
  match reply with
  | None => (Some true, eraseRoute c' socketId)
  | Some r =>
      let status := sr_status r in
      if (status =? SUCCESS) || (status =? STREAM_CLOSED) then (Some true, eraseRoute c' socketId)
      else if negb (status =? STREAM_DATA) && negb (status =? ASYNC_STREAM) && negb (status =? NEW_CONNECTION) then (Some false, c')
      else (None, c')
  end.

Definition tryDequeueStreamResult (c : StreamClient) : option StreamResult * StreamClient :=
  match pendingStreamResults_ c with
  | [] => (None, c)
  | r :: rest => (Some r, set_results c rest)
  end.

Definition pendingStreamReplyCount (c : StreamClient) : nat := List.length (pendingStreamResults_ c).

(** ** Replies *)
Definition completes_connect (status : Enum) : bool :=
  (status =? SUCCESS) || (status =? CONNECT_REFUSED) || (status =? CONNECT_TIMEOUT) || (status =? STREAM_ERROR) ||
  (status =? STREAM_IN_USE) || (status =? INVALID_FLAGS).
Definition completes_listen (status : Enum) : bool :=
  (status =? SUCCESS) || (status =? STREAM_ERROR) || (status =? STREAM_IN_USE) || (status =? INVALID_FLAGS).

(** A call that waits in a table is completed once. *)
Definition completeOpen (completes : Enum -> bool) (pending : gmap GUID PendingConnectState) (socketId : GUID)
    (reply : StreamReply.t) : option (gmap GUID PendingConnectState) :=
  match pending !! socketId with
  | Some p =>
      if negb (pc_completed p) && completes (StreamReply.error reply)
      then Some (<[socketId := mkPendingConnect true (Some (streamResultFromReply reply socketId))]> pending)
      else None
  | None => None
  end.

(** The reply [new_stream_id] routes a stream to the sender of the reply. *)
Definition routeNewStream (c : StreamClient) (message : RSPMessage.t) (reply : StreamReply.t) : StreamClient :=
  match StreamReply.new_stream_id reply ≫= fromProtoStreamId, senderNodeIdFromMessage message with
  | Some newId, Some source => set_routes c (<[newId := source]> (streamRoutes_ c))
  | _, _ => c
  end.

(** The bridge that takes a reply, if any. *)
Definition bridgeFor (c : StreamClient) (socketId : GUID) (status : Enum) : option nat :=
  match nativeStreamBridges_ c !! socketId with
  | Some b =>
      let isSocketData := status =? STREAM_DATA in
      let isDataOrClose := isSocketData || (status =? STREAM_CLOSED) || (status =? STREAM_ERROR) in
      if isDataOrClose && (isSocketData || negb (bool_decide (socketId ∈ awaitedStreamReplies_ c))) then Some b else None
  | None => None
  end.

Definition pushReply (c : StreamClient) (socketId : GUID) (r : StreamResult) : StreamClient :=
  set_queues c (<[socketId := default [] (streamReplyQueues_ c !! socketId) ++ [r]]> (streamReplyQueues_ c)).

(** The critical section of [handleStreamReply]; [randomId] is the id of a result
    without one.  The second component is the bridge to deliver to. *)
Definition handleStreamReply_locked (randomId : GUID) (c : StreamClient) (message : RSPMessage.t) (reply : StreamReply.t)
    : StreamClient * option nat :=
  let status := StreamReply.error reply in
  match StreamReply.stream_id reply ≫= fromProtoStreamId with
  | None => (set_results c (pendingStreamResults_ c ++ [streamResultFromReply reply randomId]), None)
  | Some id =>
  match completeOpen completes_connect (pendingConnects_ c) id reply with
  | Some connects => (set_connects c connects, None)
  | None =>
  match completeOpen completes_listen (pendingListens_ c) id reply with
  | Some listens => (set_listens c listens, None)
  | None =>
      let c1 := routeNewStream c message reply in
      match bridgeFor c1 id status with
      | Some b =>
          (if status =? STREAM_DATA then c1 else set_bridge c1 b (fun x => mkBridge (br_socket x) true true), Some b)
      | None =>
          let r := streamResultFromReply reply id in
          let c2 := pushReply c1 id r in
          if bool_decide (id ∈ awaitedStreamReplies_ c2)
          then (set_awaited c2 (awaitedStreamReplies_ c2 ∖ {[id]}), None)
          else (set_results c2 (pendingStreamResults_ c2 ++ [r]), None)
      end
  end end end.

(** [sendAllToSocket] on the socket of a bridge: the loop of [sendAll]; a closed
    socket fails.  [closeBridgeSocket] is [closeSocket]. *)
Definition sendAllToSocket (c : StreamClient) (b : nat) (data : bytes) : Res (bool * StreamClient) :=
  match bridges c !! b with
  | Some x =>
      match br_socket x with
      | Some socket =>
          r ← sendAll socket data;
          Ok (r.1, set_bridge c b (fun x => mkBridge (Some r.2) (br_stopping x) (br_remoteClosed x)))
      | None => Ok (bool_decide (data = []), c)
      end
  | None => Ok (bool_decide (data = []), c)
  end.

Definition closeBridgeSocket (c : StreamClient) (b : nat) : StreamClient :=
  set_bridge c b (fun x => mkBridge None (br_stopping x) (br_remoteClosed x)).
Definition stopBridge (c : StreamClient) (b : nat) : StreamClient :=
  set_bridge c b (fun x => mkBridge (br_socket x) true (br_remoteClosed x)).

(** After the critical section. *)
Definition deliverToBridge (c : StreamClient) (b : nat) (reply : StreamReply.t) : Res StreamClient :=
  match (if StreamReply.error reply =? STREAM_DATA then StreamReply.data reply else None) with
  | Some data =>
      r ← sendAllToSocket c b data;
      Ok (if (r.1 : bool) then r.2 else closeBridgeSocket (stopBridge r.2 b) b)
  | None => Ok (closeBridgeSocket c b)
  end.

Definition handleStreamReply (randomId : GUID) (c : StreamClient) (message : RSPMessage.t) : Res StreamClient :=
  let reply := default StreamReply.empty (unpackServiceMessage StreamReply.t message) in
  let '(c', bridge) := handleStreamReply_locked randomId c message reply in
  match bridge with
  | Some b => deliverToBridge c' b reply
  | None => Ok c'
  end.

(** ** Native bridges *)

(** The critical section of [attachNativeStreamBridge]: the new bridge takes the
    replies that are buffered. *)
Definition attach_begin (c : StreamClient) (socketId : GUID) (socket : Conn) : nat * list StreamResult * StreamClient :=
  let b := next_bridge c in
  let c1 := set_native (set_bridges c (<[b := mkBridge (Some socket) false false]> (bridges c)))
              (<[socketId := b]> (nativeStreamBridges_ c)) (S b) in
  match streamReplyQueues_ c1 !! socketId with
  | Some buffered =>
      (b, buffered, set_results (set_queues c1 (delete socketId (streamReplyQueues_ c1)))
                      (foldl removeBufferedReply (pendingStreamResults_ c1) buffered))
  | None => (b, [], c1)
  end.

(** The loop after it, which does not hold the lock: one reply, and whether the loop
    goes on. *)
Definition flush_one (c : StreamClient) (b : nat) (reply : StreamResult) : Res (bool * StreamClient) :=
  if (sr_status reply =? STREAM_DATA) && negb (bool_decide (sr_data reply = [])) then
    r ← sendAllToSocket c b (sr_data reply);
    Ok (r.1, if (r.1 : bool) then r.2 else closeBridgeSocket (stopBridge r.2 b) b)
  else Ok (false, closeBridgeSocket (set_bridge c b (fun x => mkBridge (br_socket x) true true)) b).

Fixpoint flush (c : StreamClient) (b : nat) (replies : list StreamResult) : Res StreamClient :=
  match replies with
  | [] => Ok c
  | reply :: replies' =>
      r ← flush_one c b reply;
      if (r.1 : bool) then flush r.2 b replies' else Ok r.2
  end.

Definition attachNativeStreamBridge (c : StreamClient) (socketId : GUID) (socket : Conn) : Res (nat * StreamClient) :=
  let '(b, buffered, c1) := attach_begin c socketId socket in
  c2 ← flush c1 b buffered; Ok (b, c2).

(** [runNativeStreamBridge]: [stream_send] is what [streamSend] answers, [stopping]
    whether the flag is set before the turn with this number; the chunks that were
    sent and the socket. *)
Fixpoint runNativeStreamBridge_loop (fuel turn : nat) (stopping : nat -> bool) (stream_send : bytes -> bool) (socket : Conn)
    : Res (list bytes * Conn) :=
  if stopping turn then Ok ([], socket)
  else
    match fuel with
    | O => NoFuel
    | S fuel =>
        match recv socket 4096 with
        | None => Ok ([], socket)
        | Some (payload, socket') =>
            if negb (stream_send payload) then Ok ([payload], socket')
            else r ← runNativeStreamBridge_loop fuel (S turn) stopping stream_send socket'; Ok (payload :: r.1, r.2)
        end
    end.

(** Its end; the result is whether [streamClose] is called. *)
Definition runNativeStreamBridge_end (c : StreamClient) (b : nat) : bool * StreamClient :=
  let c1 := closeBridgeSocket (stopBridge c b) b in
  (match bridges c1 !! b with Some x => negb (br_remoteClosed x) | None => true end, c1).

(** The bridges are taken out of the table and stopped; their workers are joined. *)
Definition stopOne (c : StreamClient) (b : nat) : StreamClient :=
  closeBridgeSocket (set_bridge c b (fun x => mkBridge (br_socket x) true true)) b.

Definition stopNativeSocketBridges (c : StreamClient) : StreamClient :=
  foldl stopOne (set_native c ∅ (next_bridge c)) (in_order (nativeStreamBridges_ c)).*2.

Definition stopNativeSocketBridgesForNode (c : StreamClient) (nodeId : NodeID) : StreamClient :=
  let of_node (e : GUID * nat) := bool_decide (streamRoutes_ c !! e.1 = Some nodeId) in
  let removed := List.filter of_node (in_order (nativeStreamBridges_ c)) in
  foldl stopOne (set_native c (foldl (fun m e => delete (e : GUID * nat).1 m) (nativeStreamBridges_ c) removed) (next_bridge c)) removed.*2.

(** ** Properties of the parts *)
Context `{SL : !StreamMessagesLaws SM} `{CL : !ConnectionLaws C}.

(** The message arrives as [m'] with the authenticated sender [g]: signing and
    forwarding keep the service message. *)
Definition arrives (g : NodeID) (m m' : RSPMessage.t) : Prop :=
  RSPMessage.service_message m' = RSPMessage.service_message m /\ senderNodeIdFromMessage m' = Some g.

Lemma arrives_unpack g m m' T `{ServiceMessageType T} :
  arrives g m m' -> unpackServiceMessage T m' = unpackServiceMessage T m.
Proof. intros [E _]. unfold unpackServiceMessage. by rewrite E. Qed.

Lemma fromProtoStreamId_toProto id : GUID_wf id -> fromProtoStreamId (toProtoStreamId id) = Some id.
Proof. apply nodeIdFromSourceField_toProto. Qed.

(** A stream with a route to [srv] on which nothing is outstanding. *)
Record idle (c : StreamClient) (id : GUID) (srv : NodeID) : Prop := {
  idle_route : streamRoutes_ c !! id = Some srv;
  idle_running : sc_stopping c = false;
  idle_queue : streamReplyQueues_ c !! id = None;
  idle_connect : pendingConnects_ c !! id = None;
  idle_listen : pendingListens_ c !! id = None }.

(** A reply to an awaited request is what the request's wait returns, and the stream
    is idle again.  Data goes to a bridge instead, when there is one. *)
Lemma awaited_reply rnd c id srv reply x :
  GUID_wf id -> idle c id srv -> id ∈ awaitedStreamReplies_ c ->
  senderNodeIdFromMessage reply = Some srv -> unpackServiceMessage StreamReply.t reply = Some x ->
  StreamReply.stream_id x = Some (toProtoStreamId id) -> StreamReply.new_stream_id x = Some (toProtoStreamId id) ->
  nativeStreamBridges_ c !! id = None \/ StreamReply.error x <> STREAM_DATA ->
  exists c' c'', handleStreamReply rnd c reply = Ok c' /\ waitForStreamReply c' id = (Some (streamResultFromReply x id), c'') /\
    idle c'' id srv /\ nativeStreamBridges_ c'' = nativeStreamBridges_ c /\ bridges c'' = bridges c.
Proof.
  intros Hwf [Hr Hs Hq Hc Hl] Haw Hsrv Hx Hid Hnew Hbr. unfold handleStreamReply. rewrite Hx. change (default StreamReply.empty (Some x)) with x.
  unfold handleStreamReply_locked. rewrite Hid. cbn [mbind option_bind].
  rewrite (fromProtoStreamId_toProto id Hwf).
  unfold completeOpen. rewrite Hc, Hl.
  assert (routeNewStream c reply x = set_routes c (<[id := srv]> (streamRoutes_ c))) as ->.
  { unfold routeNewStream. rewrite Hnew, Hsrv. cbn [mbind option_bind]. by rewrite (fromProtoStreamId_toProto id Hwf). }
  set (c1 := set_routes c _).
  assert (bridgeFor c1 id (StreamReply.error x) = None) as ->.
  { unfold bridgeFor. cbn. destruct (nativeStreamBridges_ c !! id); [|done]. destruct Hbr as [?|Hne%Z.eqb_neq]; [done|].
    rewrite Hne. rewrite bool_decide_true by done. by rewrite andb_false_r. }
  cbn [pushReply awaitedStreamReplies_ set_queues c1 set_routes]. rewrite bool_decide_true by done.
  eexists _, _. split; [reflexivity|]. unfold waitForStreamReply. cbn. rewrite Hq, lookup_insert_eq. cbn. rewrite Hs.
  split; [reflexivity|]. split_and!; [|done|done].
  split; cbn; [by rewrite lookup_insert_eq|done|by rewrite lookup_delete_eq|done|done].
Qed.

Lemma await_idle c id srv :
  idle c id srv -> exists c1, await c id = Some (srv, c1) /\ idle c1 id srv /\ id ∈ awaitedStreamReplies_ c1 /\
    nativeStreamBridges_ c1 = nativeStreamBridges_ c /\ bridges c1 = bridges c.
Proof.
  intros [Hr Hs Hq Hc Hl]. unfold await. rewrite Hr. cbn. eexists. split; [reflexivity|]. split_and!; [by split|set_solver|done|done].
Qed.

(** The request of a client that owns or shares a socket may use it. *)
Lemma owner_may_use me st m :
  ms_shareSocket st = true \/ ms_requesterNodeId st = toProtoNodeId me -> senderNodeIdFromMessage m = Some me -> may_use m st.
Proof. intros [?|?] Hm; [by left|right]. by exists me. Qed.

(** A reply to the request [m] of [me] about the stream [id], as it arrives. *)
Lemma reply_arrives me srv m status text id reply' :
  senderNodeIdFromMessage m = Some me -> derivedSocketId m = Some id ->
  arrives srv (makeStreamReplyMessage m status text None) reply' ->
  senderNodeIdFromMessage reply' = Some srv /\ unpackServiceMessage StreamReply.t reply' = Some (streamReply status text (Some id)).
Proof.
  intros Hm Hd Ha. split; [apply Ha|]. rewrite (arrives_unpack _ _ _ _ Ha).
  destruct (makeStreamReplyMessage_carries m me status text None Hm) as [_ E]; [by left|]. by rewrite E, Hd.
Qed.

Section EndToEnd.
Context (send_ok : RSPMessage.t -> bool) (recv_failed : Conn -> bool) (rnd : GUID) (me srv : NodeID).

Lemma remote_send cl id data s st tcp :
  GUID_wf id -> idle cl id srv -> managedSockets_ s !! id = Some st -> connections s !! ms_connection st = Some tcp ->
  ms_shareSocket st = true \/ ms_requesterNodeId st = toProtoNodeId me -> size_of data < 2 ^ 32 ->
  exists req cl1, streamSend_begin cl id data = Some (req, cl1) /\ forall req', arrives me req req' ->
  exists ok s' es reply tcp' k, handleStreamSend send_ok s req' = Ok (ok, s', es) /\ sents es = [reply] /\
    connections s' !! ms_connection st = Some tcp' /\ delivered tcp' = delivered tcp ++ take k data /\ pending tcp' = pending tcp /\
  forall reply', arrives srv reply reply' ->
  exists cl2 b cl3, handleStreamReply rnd cl1 reply' = Ok cl2 /\ streamSend_end cl2 id = (b, cl3) /\ idle cl3 id srv /\
    (b = true -> delivered tcp' = delivered tcp ++ data).
Proof.
  intros Hwf Hi Hst Hc Hown Hsz. destruct (await_idle cl id srv Hi) as (cl1 & Ea & Hi1 & Haw & _).
  unfold streamSend_begin. rewrite Ea. cbn [mbind option_bind fst snd]. eexists _, cl1. split; [reflexivity|].
  intros req' Hreq. pose proof (arrives_unpack _ _ _ StreamSend.t Hreq) as Eu.
  rewrite unpack_packServiceMessage, send_parses in Eu.
  pose proof (derived_send req' _ Eu) as Hd. change (derivedSocketId req' = fromProtoStreamId (toProtoStreamId id)) in Hd.
  rewrite (fromProtoStreamId_toProto id Hwf) in Hd.
  destruct (streamSend_spec send_ok s req' id st tcp _ Hst Hc (owner_may_use me st req' Hown (proj2 Hreq)) Hd Eu Hsz)
    as (ok & s' & es & tcp' & k & status & text & E & Hc' & Hs & Hdel & Hp & Hstatus).
  exists ok, s', es, (makeStreamReplyMessage req' status text None), tcp', k. split_and!; [exact E|exact Hs|exact Hc'|exact Hdel|exact Hp|].
  intros reply' Hrep. destruct (reply_arrives me srv req' status text id reply' (proj2 Hreq) Hd Hrep) as [Hsnd Hu].
  destruct (awaited_reply rnd cl1 id srv reply' _ Hwf Hi1 Haw Hsnd Hu) as (cl2 & cl3 & E2 & Ew & Hi3 & _); [done|done| |].
  { right. destruct Hstatus as [[-> _]| ->]; done. }
  exists cl2, (status =? SUCCESS), cl3. split_and!; [exact E2| |exact Hi3|].
  - unfold streamSend_end. rewrite Ew. done.
  - intros Hb%Z.eqb_eq. destruct Hstatus as [[_ Hk]| ->]; [by rewrite Hdel, Hk|done].
Qed.

Lemma remote_recv cl id maxBytes wait s st tcp :
  GUID_wf id -> idle cl id srv -> nativeStreamBridges_ cl !! id = None ->
  managedSockets_ s !! id = Some st -> connections s !! ms_connection st = Some tcp -> ms_asyncData st = false ->
  ms_shareSocket st = true \/ ms_requesterNodeId st = toProtoNodeId me ->
  exists req cl1, streamRecv_begin cl id maxBytes wait = Some (req, cl1) /\ forall req', arrives me req req' ->
  exists ok s' es reply tcp', handleStreamRecv send_ok recv_failed s req' = (ok, s', es) /\ sents es = [reply] /\
    connections s' !! ms_connection st = Some tcp' /\ delivered tcp' = delivered tcp /\
  forall reply', arrives srv reply reply' ->
  exists cl2 answer cl3, handleStreamReply rnd cl1 reply' = Ok cl2 /\ streamRecv_end cl2 id = (answer, cl3) /\ idle cl3 id srv /\
    match answer with
    | Some b => b <> [] /\ pending tcp = b ++ pending tcp' /\ size_of b <= maxBytesOf (Some maxBytes)
    | None => pending tcp = []
    end.
Proof.
  intros Hwf Hi Hnb Hst Hc Ha Hown. destruct (await_idle cl id srv Hi) as (cl1 & Ea & Hi1 & Haw & Hnb1 & _).
  unfold streamRecv_begin. rewrite Ea. cbn [mbind option_bind fst snd]. eexists _, cl1. split; [reflexivity|].
  intros req' Hreq. pose proof (arrives_unpack _ _ _ StreamRecv.t Hreq) as Eu.
  rewrite unpack_packServiceMessage, recv_parses in Eu.
  pose proof (derived_recv req' _ Eu) as Hd. change (derivedSocketId req' = fromProtoStreamId (toProtoStreamId id)) in Hd.
  rewrite (fromProtoStreamId_toProto id Hwf) in Hd.
  destruct (streamRecv_spec send_ok recv_failed s req' me id st tcp _ (proj2 Hreq) Hst Hc
              (owner_may_use me st req' Hown (proj2 Hreq)) Hd Eu Ha)
    as (ok & s' & es & tcp' & reply & x & E & Hc' & Hs & [_ Hx] & Hdel & Hcase).
  exists ok, s', es, reply, tcp'. split_and!; [exact E|exact Hs|exact Hc'|exact Hdel|].
  intros reply' Hrep. pose proof (arrives_unpack _ _ _ StreamReply.t Hrep) as Hu. rewrite Hx in Hu.
  destruct (awaited_reply rnd cl1 id srv reply' x Hwf Hi1 Haw (proj2 Hrep) Hu) as (cl2 & cl3 & E2 & Ew & Hi3 & _).
  1-2: destruct Hcase as [(b & -> & _)|(_ & _ & ->)]; [done|by destruct (recv_failed tcp)].
  { left. by rewrite Hnb1. }
  eexists cl2, _, cl3. split_and!; [exact E2|unfold streamRecv_end; rewrite Ew; reflexivity|exact Hi3|].
  destruct Hcase as [(b & -> & Hp & Hlen & Hmax)|(Hp & _ & ->)]; cbn.
  - split_and!; [intros ->; cbn in Hlen; lia|done|done].
  - by destruct (recv_failed tcp).
Qed.
Lemma is_set_true_field b : is_set (true_field b) = b.
Proof. by destruct b. Qed.

(** A new socket under a free id, and the reply about it. *)
Lemma socket_registered s m c id hostPort async share :
  (forall x, send_ok x = true) -> senderNodeIdFromMessage m = Some me -> managedSockets_ s !! id = None ->
  exists s' es st, registerConnectedSocket send_ok s m c id hostPort async share = (true, s', es) /\
    sents es = [makeStreamReplyMessage m SUCCESS [] (Some id)] /\ managedSockets_ s' !! id = Some st /\
    connections s' !! ms_connection st = Some c /\ ms_requesterNodeId st = toProtoNodeId me /\
    ms_asyncData st = async /\ ms_shareSocket st = share.
Proof.
  intros Hok Hm Hnone. unfold registerConnectedSocket, addConnection. rewrite Hm, Hok, Hnone. cbn [negb].
  cbn [managedSockets_ set_next set_connections]. rewrite emplace_new by done.
  set (st := mkSocket _ _ _ _ _ _ _). set (s2 := set_sockets _ _).
  destruct (startReader_keeps s2 st) as (E1 & _ & E3 & _).
  eexists _, _, st. split; [reflexivity|]. split_and!; [done|rewrite E1; cbn; by rewrite lookup_insert_eq
    |rewrite E3; cbn; by rewrite lookup_insert_eq|done|done|done].
Qed.

(** The reply about a new socket ends the call that opens it. *)
Lemma opening_completes cl id reply' :
  GUID_wf id -> sc_stopping cl = false -> streamReplyQueues_ cl !! id = None -> pendingListens_ cl !! id = None ->
  unpackServiceMessage StreamReply.t reply' = Some (streamReply SUCCESS [] (Some id)) ->
  exists cl2 r cl3, handleStreamReply rnd (connect_begin cl id) reply' = Ok cl2 /\ connect_end cl2 srv id = (Some r, cl3) /\
    opened (Some r) = Some id /\ idle cl3 id srv.
Proof.
  intros Hwf Hs Hq Hl Hu. unfold handleStreamReply. rewrite Hu.
  change (default StreamReply.empty (Some (streamReply SUCCESS [] (Some id)))) with (streamReply SUCCESS [] (Some id)).
  unfold handleStreamReply_locked. cbn [streamReply StreamReply.stream_id mbind option_bind fmap option_fmap option_map].
  rewrite (fromProtoStreamId_toProto id Hwf). unfold completeOpen, connect_begin. cbn [pendingConnects_ set_connects].
  rewrite lookup_insert_eq. cbn [pc_completed negb andb completes_connect StreamReply.error].
  eexists _, _, _. split; [reflexivity|]. unfold connect_end, open_result. cbn. rewrite lookup_insert_eq. cbn. rewrite Hs. cbn.
  split; [reflexivity|].
  assert (sr_streamId (streamResultFromReply (streamReply SUCCESS [] (Some id)) id) = id) as Hsid.
  { change (default id (fromProtoStreamId (toProtoStreamId id)) = id). by rewrite (fromProtoStreamId_toProto id Hwf). }
  split; [by rewrite Hsid|].
  split; cbn; [by rewrite lookup_insert_eq|done|done|by rewrite lookup_delete_eq|done].
Qed.

(** The service connects at the first attempt and files the socket under the id. *)
Lemma connect_served s net tcp m r id :
  (forall x, send_ok x = true) -> senderNodeIdFromMessage m = Some me ->
  unpackServiceMessage ConnectTCPRequest.t m = Some r -> ConnectTCPRequest.stream_id r = Some (toProtoStreamId id) -> GUID_wf id ->
  ConnectTCPRequest.host_port r <> [] ->
  is_set (ConnectTCPRequest.share_socket r) = false \/
    is_set (ConnectTCPRequest.async_data r) = false /\ is_set (ConnectTCPRequest.use_socket r) = false ->
  net 0%nat = Some tcp -> managedSockets_ s !! id = None ->
  exists s' es st, handleConnectTCPRequest send_ok s net m = (true, s', es) /\
    sents es = [makeStreamReplyMessage m SUCCESS [] (Some id)] /\ managedSockets_ s' !! id = Some st /\
    connections s' !! ms_connection st = Some tcp /\ ms_requesterNodeId st = toProtoNodeId me /\
    ms_asyncData st = is_set (ConnectTCPRequest.async_data r) /\ ms_shareSocket st = is_set (ConnectTCPRequest.share_socket r).
Proof.
  intros Hok Hm Hr Hid Hwf Hhp Hfl Hnet Hnone. unfold handleConnectTCPRequest. rewrite Hm, Hr, Hid, (fromProtoStreamId_toProto id Hwf).
  rewrite bool_decide_false by done.
  assert (is_set (ConnectTCPRequest.share_socket r) && is_set (ConnectTCPRequest.async_data r) = false) as ->.
  { destruct Hfl as [->|[-> _]]; [done|apply andb_false_r]. }
  assert (is_set (ConnectTCPRequest.share_socket r) && is_set (ConnectTCPRequest.use_socket r) = false) as ->.
  { destruct Hfl as [->|[_ ->]]; [done|apply andb_false_r]. }
  set (total := match ConnectTCPRequest.retries r with Some _ => _ | None => _ end).
  assert (createTCPConnection net total = Some tcp) as ->.
  { unfold createTCPConnection. assert (exists n, Z.to_nat total = S n) as [n ->].
    { exists (Z.to_nat (total - 1)). subst total. destruct (ConnectTCPRequest.retries r); lia. }
    cbn. by rewrite Hnet. }
  by apply socket_registered.
Qed.

Lemma remote_connect cl id hostPort timeout retries retryMs async share use s net tcp :
  (forall x, send_ok x = true) -> GUID_wf id ->
  sc_stopping cl = false -> streamReplyQueues_ cl !! id = None -> pendingListens_ cl !! id = None ->
  hostPort <> [] -> share = false \/ async = false /\ use = false -> net 0%nat = Some tcp -> managedSockets_ s !! id = None ->
  forall req', arrives me (connectTCP_request srv hostPort timeout retries retryMs async share use id) req' ->
  exists s' es reply st, handleConnectTCPRequest send_ok s net req' = (true, s', es) /\ sents es = [reply] /\
    managedSockets_ s' !! id = Some st /\ connections s' !! ms_connection st = Some tcp /\
    ms_requesterNodeId st = toProtoNodeId me /\ ms_asyncData st = async /\ ms_shareSocket st = share /\
  forall reply', arrives srv reply reply' ->
  exists cl2 r cl3, handleStreamReply rnd (connect_begin cl id) reply' = Ok cl2 /\ connect_end cl2 srv id = (Some r, cl3) /\
    opened (Some r) = Some id /\ idle cl3 id srv.
Proof.
  intros Hok Hwf Hs Hq Hl Hhp Hfl Hnet Hnone req' Hreq. pose proof (arrives_unpack _ _ _ ConnectTCPRequest.t Hreq) as Eu.
  unfold connectTCP_request in Eu. rewrite unpack_packServiceMessage, connect_parses in Eu.
  destruct (connect_served s net tcp req' _ id Hok (proj2 Hreq) Eu eq_refl Hwf Hhp) as (s' & es & st & E & Hse & Hst & Hc & Ho & Ha & Hsh);
    [cbn; rewrite !is_set_true_field; by destruct use|exact Hnet|exact Hnone|].
  cbn in Ha, Hsh. rewrite is_set_true_field in Ha, Hsh.
  eexists s', es, _, st. split_and!; [exact E|exact Hse|exact Hst|exact Hc|exact Ho|exact Ha|exact Hsh|].
  intros reply' Hrep. pose proof (arrives_unpack _ _ _ StreamReply.t Hrep) as Hu.
  pose proof (derived_connect req' _ _ Eu eq_refl) as Hd. rewrite (fromProtoStreamId_toProto id Hwf) in Hd.
  destruct (makeStreamReplyMessage_carries req' me SUCCESS [] (Some id) (proj2 Hreq)) as [_ Hcar]; [by right|].
  rewrite Hcar, Hd in Hu. by apply opening_completes.
Qed.
End EndToEnd.

(** ** Bridges *)

(** A local socket that takes what it is given. *)
Definition always_sends : Prop := forall (x : Conn) d, d <> [] -> send x d <> None.

Lemma sendAll_loop_ok (Hs : always_sends) fuel x d ok x' : sendAll_loop fuel x d = Ok (ok, x') -> ok = true.
Proof.
  revert x d. induction fuel as [|fuel IH]; intros x [|y d]; cbn [sendAll_loop]; try done; try (by intros [= <- _]).
  destruct (send x (y :: d)) as [[k x1]|] eqn:E; [apply IH|]. by destruct (Hs x (y :: d)).
Qed.

Lemma sendAll_all (Hs : always_sends) x d : exists x', sendAll x d = Ok (true, x') /\ delivered x' = delivered x ++ d.
Proof.
  destruct (sendAll_spec x d) as (ok & x' & k & E & Hd & _ & Hk). pose proof (sendAll_loop_ok Hs _ _ _ _ _ E) as ->.
  exists x'. split; [done|]. by rewrite Hd, Hk.
Qed.

(** What a message changes when a bridge takes it. *)
Definition same_but_bridges (c c' : StreamClient) : Prop :=
  nativeStreamBridges_ c' = nativeStreamBridges_ c /\ awaitedStreamReplies_ c' = awaitedStreamReplies_ c /\
  streamReplyQueues_ c' = streamReplyQueues_ c /\ pendingStreamResults_ c' = pendingStreamResults_ c /\
  pendingConnects_ c' = pendingConnects_ c /\ pendingListens_ c' = pendingListens_ c.

Lemma same_but_bridges_trans c c' c'' : same_but_bridges c c' -> same_but_bridges c' c'' -> same_but_bridges c c''.
Proof. unfold same_but_bridges. intuition congruence. Qed.

Lemma routeNewStream_keeps c m x : same_but_bridges c (routeNewStream c m x) /\ bridges (routeNewStream c m x) = bridges c.
Proof. unfold routeNewStream. repeat case_match; done. Qed.

Lemma completeOpen_data completes pend id x :
  completes (StreamReply.error x) = false -> completeOpen completes pend id x = None.
Proof. intros Hc. unfold completeOpen. destruct (pend !! id); [|done]. by rewrite Hc, andb_false_r. Qed.

Lemma bridge_data (Hs : always_sends) rnd c id b y stp rc reply d :
  GUID_wf id -> nativeStreamBridges_ c !! id = Some b -> bridges c !! b = Some (mkBridge (Some y) stp rc) ->
  unpackServiceMessage StreamReply.t reply = Some (with_data d (streamReply STREAM_DATA [] (Some id))) ->
  exists c' y', handleStreamReply rnd c reply = Ok c' /\ bridges c' !! b = Some (mkBridge (Some y') stp rc) /\
    delivered y' = delivered y ++ d /\ same_but_bridges c c'.
Proof.
  intros Hwf Hb Hy Hx. unfold handleStreamReply. rewrite Hx. set (x := with_data d _).
  change (default StreamReply.empty (Some x)) with x. unfold handleStreamReply_locked.
  change (StreamReply.stream_id x) with (Some (toProtoStreamId id)). cbn [mbind option_bind].
  rewrite (fromProtoStreamId_toProto id Hwf), !completeOpen_data by done.
  destruct (routeNewStream_keeps c reply x) as [K EB]. set (c1 := routeNewStream c reply x) in *. clearbody c1.
  unfold bridgeFor. rewrite (proj1 K), Hb. cbn [andb orb]. change (StreamReply.error x) with STREAM_DATA.
  change (STREAM_DATA =? STREAM_DATA) with true. cbn [andb orb]. unfold deliverToBridge.
  change (StreamReply.error x =? STREAM_DATA) with true. cbn. unfold sendAllToSocket. rewrite EB, Hy. cbn [br_socket].
  destruct (sendAll_all Hs y d) as (y' & -> & Hd). cbn [mbind res_bind fst snd].
  eexists _, y'. split; [reflexivity|]. split_and!; [|done|exact K].
  unfold set_bridge. cbn. by rewrite EB, lookup_alter_eq, Hy.
Qed.

(** Messages are handled one after the other. *)
Fixpoint receive (rnd : GUID) (c : StreamClient) (ms : list RSPMessage.t) : Res StreamClient :=
  match ms with [] => Ok c | m :: ms => c' ← handleStreamReply rnd c m; receive rnd c' ms end.

Lemma bridge_stream (Hs : always_sends) rnd srv st b stp rc chunks c y ms :
  GUID_wf (ms_socketId st) -> nativeStreamBridges_ c !! ms_socketId st = Some b ->
  bridges c !! b = Some (mkBridge (Some y) stp rc) -> Forall2 (arrives srv) (asyncData st <$> chunks) ms ->
  exists c' y', receive rnd c ms = Ok c' /\ bridges c' !! b = Some (mkBridge (Some y') stp rc) /\
    delivered y' = delivered y ++ concat chunks /\ same_but_bridges c c'.
Proof.
  intros Hwf. revert c y ms. induction chunks as [|d chunks IH]; intros c y ms Hb Hy Hms.
  - inversion Hms; subst. exists c, y. cbn. by rewrite app_nil_r.
  - inversion Hms as [|? m ? ms' Hm Hms' E1 E2]; subst. pose proof (arrives_unpack _ _ _ StreamReply.t Hm) as Hu.
    rewrite (proj2 (asyncData_carries st d)) in Hu.
    destruct (bridge_data Hs rnd c _ b y stp rc m d Hwf Hb Hy Hu) as (c1 & y1 & E & Hy1 & Hd1 & K1).
    destruct (IH c1 y1 ms') as (c2 & y2 & E2 & Hy2 & Hd2 & K2); [by rewrite (proj1 K1)|done|done|].
    exists c2, y2. cbn [receive]. rewrite E. cbn [mbind res_bind]. split_and!; [done|done| |by eapply same_but_bridges_trans].
    by rewrite Hd2, Hd1, <- app_assoc.
Qed.

(** The last message closes the bridge when nobody waits for a reply. *)
Lemma bridge_end rnd srv st b c y stp rc failed m :
  GUID_wf (ms_socketId st) -> nativeStreamBridges_ c !! ms_socketId st = Some b -> bridges c !! b = Some (mkBridge y stp rc) ->
  ms_socketId st ∉ awaitedStreamReplies_ c -> pendingConnects_ c !! ms_socketId st = None -> pendingListens_ c !! ms_socketId st = None ->
  arrives srv (lastReply st failed) m ->
  exists c', handleStreamReply rnd c m = Ok c' /\ bridges c' !! b = Some (mkBridge None true true) /\
    streamReplyQueues_ c' = streamReplyQueues_ c.
Proof.
  intros Hwf Hb Hy Haw Hc Hl Hm. pose proof (arrives_unpack _ _ _ StreamReply.t Hm) as Hu.
  assert (exists x, unpackServiceMessage StreamReply.t (lastReply st failed) = Some x /\
    StreamReply.stream_id x = Some (toProtoStreamId (ms_socketId st)) /\ StreamReply.error x = if failed then STREAM_ERROR else STREAM_CLOSED)
    as (x & Hx & Hid & He).
  { unfold lastReply. destruct failed; eexists; (split; [apply makeStreamReplyTo_carries|done]). }
  rewrite Hx in Hu. unfold handleStreamReply. rewrite Hu. change (default StreamReply.empty (Some x)) with x.
  unfold handleStreamReply_locked. rewrite Hid. cbn [mbind option_bind]. rewrite (fromProtoStreamId_toProto _ Hwf).
  unfold completeOpen. rewrite Hc, Hl.
  destruct (routeNewStream_keeps c m x) as [K EB]. set (c1 := routeNewStream c m x) in *. clearbody c1.
  destruct K as (K1 & K2 & K3 & _). unfold bridgeFor. rewrite K1, K2, Hb, bool_decide_false by done.
  unfold deliverToBridge. rewrite He. destruct failed; cbn; eexists; (split; [reflexivity|]);
    unfold closeBridgeSocket, set_bridge; cbn; rewrite EB, !lookup_alter_eq, Hy; done.
Qed.

(** ** Properties *)

(** Opening a remote socket works.  When a client that is running asks a service
    that can connect for a TCP connection under an id that is free on both sides, with
    flags that may be combined, the service's handler accepts the request as it
    arrives and files the socket under the id, owned by the client, with the flags of
    the request and the new connection; and when the reply arrives, the call returns
    the id and the client has a route to the service. *)
Theorem remote_socket_opens send_ok rnd me srv cl id hostPort timeout retries retryMs async share use s net tcp :
  (forall x, send_ok x = true) -> GUID_wf id ->
  sc_stopping cl = false -> streamReplyQueues_ cl !! id = None -> pendingListens_ cl !! id = None ->
  hostPort <> [] -> share = false \/ async = false /\ use = false -> net 0%nat = Some tcp -> managedSockets_ s !! id = None ->
  forall req', arrives me (connectTCP_request srv hostPort timeout retries retryMs async share use id) req' ->
  exists s' es reply st, handleConnectTCPRequest send_ok s net req' = (true, s', es) /\ sents es = [reply] /\
    managedSockets_ s' !! id = Some st /\ connections s' !! ms_connection st = Some tcp /\
    ms_requesterNodeId st = toProtoNodeId me /\ ms_asyncData st = async /\ ms_shareSocket st = share /\
  forall reply', arrives srv reply reply' ->
  exists cl2 r cl3, handleStreamReply rnd (connect_begin cl id) reply' = Ok cl2 /\ connect_end cl2 srv id = (Some r, cl3) /\
    opened (Some r) = Some id /\ idle cl3 id srv.
Proof. apply remote_connect. Qed.

(** C24.  Requests on an idle remote socket behave like requests on a socket.  Let the
    stream be idle at the client, which is not stopping: its route is known, no call that
    opens it is pending, and no reply is queued for it, as from a call that gave up
    (otherwise the late reply answers the next call, [late_reply_answers_next_call]);
    let it be open at the service for a socket that the client owns or that is shared;
    and let the request and its reply arrive, the reply before the call gives up.  Then
    [streamSend]
    of less than 4 GiB reaches the service's handler, and when it returns true, exactly
    its data was delivered to the TCP connection after what was delivered before;
    [streamRecv], on a socket that is not asynchronous and a stream that is not joined
    to a local socket, returns the next bytes of the TCP connection, at least one and at
    most as many as asked for, and fails only when nothing is left to come.  After
    either call the stream is idle again. *)
Theorem remote_socket_requests send_ok recv_failed rnd me srv cl id s st tcp :
  GUID_wf id -> idle cl id srv -> managedSockets_ s !! id = Some st -> connections s !! ms_connection st = Some tcp ->
  ms_shareSocket st = true \/ ms_requesterNodeId st = toProtoNodeId me ->
  (forall data, size_of data < 2 ^ 32 ->
   exists req cl1, streamSend_begin cl id data = Some (req, cl1) /\ forall req', arrives me req req' ->
   exists ok s' es reply tcp' k, handleStreamSend send_ok s req' = Ok (ok, s', es) /\ sents es = [reply] /\
     connections s' !! ms_connection st = Some tcp' /\ delivered tcp' = delivered tcp ++ take k data /\ pending tcp' = pending tcp /\
   forall reply', arrives srv reply reply' ->
   exists cl2 b cl3, handleStreamReply rnd cl1 reply' = Ok cl2 /\ streamSend_end cl2 id = (b, cl3) /\ idle cl3 id srv /\
     (b = true -> delivered tcp' = delivered tcp ++ data)) /\
  (forall maxBytes wait, nativeStreamBridges_ cl !! id = None -> ms_asyncData st = false ->
   exists req cl1, streamRecv_begin cl id maxBytes wait = Some (req, cl1) /\ forall req', arrives me req req' ->
   exists ok s' es reply tcp', handleStreamRecv send_ok recv_failed s req' = (ok, s', es) /\ sents es = [reply] /\
     connections s' !! ms_connection st = Some tcp' /\ delivered tcp' = delivered tcp /\
   forall reply', arrives srv reply reply' ->
   exists cl2 answer cl3, handleStreamReply rnd cl1 reply' = Ok cl2 /\ streamRecv_end cl2 id = (answer, cl3) /\ idle cl3 id srv /\
     match answer with
     | Some b => b <> [] /\ pending tcp = b ++ pending tcp' /\ size_of b <= maxBytesOf (Some maxBytes)
     | None => pending tcp = []
     end).
Proof.
  intros Hwf Hi Hst Hc Hown. split.
  - intros data Hsz. by apply remote_send.
  - intros maxBytes wait Hnb Ha. by apply remote_recv.
Qed.

(** C25.  The stream of a remote connection arrives at the local socket.  Let the client
    have joined the stream to a local socket before the first message of the service
    comes, with no call that opens the stream pending; let the local socket take
    whatever it is given; and let the service's messages be sent, arrive and be handled
    in order.  The service reads the TCP connection to its end for an asynchronous
    socket.  Then the local socket has been given exactly the bytes of the TCP
    connection, in order, whether or not the client waits for a reply meanwhile, and
    nothing of them was put anywhere else; if the client awaits no reply on the stream,
    the last message closes the local socket.  (A stream that is joined after its first
    bytes can be out of order: [bridge_can_reorder].) *)
Theorem remote_stream_arrives send_ok fuel recv_failed rnd srv s st tcp c b y stp rc :
  always_sends -> (forall d, send_ok (asyncData st d) = true) -> connections s !! ms_connection st = Some tcp ->
  (List.length (pending tcp) < fuel)%nat -> GUID_wf (ms_socketId st) ->
  nativeStreamBridges_ c !! ms_socketId st = Some b -> bridges c !! b = Some (mkBridge (Some y) stp rc) ->
  pendingConnects_ c !! ms_socketId st = None -> pendingListens_ c !! ms_socketId st = None ->
  exists s' es msgs final, runAsyncReadLoop send_ok fuel recv_failed s st = Ok (s', es) /\ sents es = msgs ++ [final] /\
    forall msgs' final', Forall2 (arrives srv) msgs msgs' -> arrives srv final final' ->
    exists c' y', receive rnd c msgs' = Ok c' /\ bridges c' !! b = Some (mkBridge (Some y') stp rc) /\
      delivered y' = delivered y ++ pending tcp /\
      streamReplyQueues_ c' = streamReplyQueues_ c /\ pendingStreamResults_ c' = pendingStreamResults_ c /\
      (ms_socketId st ∉ awaitedStreamReplies_ c ->
       exists c'', handleStreamReply rnd c' final' = Ok c'' /\ bridges c'' !! b = Some (mkBridge None true true)).
Proof.
  intros Hs Hok Hc Hf Hwf Hb Hy Hpc Hpl.
  destruct (runAsyncReadLoop_spec send_ok fuel recv_failed s st tcp Hok Hc Hf)
    as (s' & es & tcp' & chunks & E & _ & _ & _ & Hch & _ & Hse).
  exists s', es, (asyncData st <$> chunks), (lastReply st (recv_failed tcp')). split_and!; [done|done|].
  intros msgs' final' Hms Hfin. destruct (bridge_stream Hs rnd srv st b stp rc chunks c y msgs' Hwf Hb Hy Hms) as (c' & y' & E' & Hy' & Hd & K).
  exists c', y'. destruct K as (K1 & K2 & K3 & K4 & K5 & K6). split_and!; [done|done|by rewrite Hd, Hch|done|done|].
  intros Haw. destruct (bridge_end rnd srv st b c' (Some y') stp rc (recv_failed tcp') final' Hwf) as (c'' & E'' & Hb'' & _);
    [by rewrite K1|done|by rewrite K2|by rewrite K5|by rewrite K6|done|]. by exists c''.
Qed.

(** The worker of a bridge that is not stopped, while its sends succeed, ends with the
    stream of the local socket and has sent all its bytes in order. *)
Lemma runNativeStreamBridge_sends fuel turn stopping stream_send x :
  (forall i, stopping i = false) -> (forall d, stream_send d = true) -> (List.length (pending x) < fuel)%nat ->
  exists chunks x', runNativeStreamBridge_loop fuel turn stopping stream_send x = Ok (chunks, x') /\
    concat chunks = pending x /\ Forall (fun d => (0 < List.length d <= 4096)%nat) chunks.
Proof.
  intros Hst Hss. revert turn x. induction fuel as [|fuel IH]; intros turn x Hf; [lia|]. cbn [runNativeStreamBridge_loop]. rewrite Hst.
  destruct (recv x 4096) as [[d x1]|] eqn:E.
  - apply recv_some in E as (Hd & Hp & _); [|lia]. rewrite Hss. cbn [negb].
    destruct (IH (S turn) x1) as (chunks & x' & -> & Hc & Hall); [rewrite Hp, length_app in Hf; lia|].
    exists (d :: chunks), x'. cbn. rewrite Hc, Hp. split_and!; [done|done|by constructor].
  - apply recv_none in E; [|lia]. exists [], x. by rewrite E.
Qed.

(** A reply about one stream leaves the others alone, but for the route of the stream
    that it names as new. *)
Lemma replies_stay_in_their_stream rnd c m x id id' :
  StreamReply.stream_id x ≫= fromProtoStreamId = Some id -> id' <> id ->
  let c' := (handleStreamReply_locked rnd c m x).1 in
  streamReplyQueues_ c' !! id' = streamReplyQueues_ c !! id' /\ pendingConnects_ c' !! id' = pendingConnects_ c !! id' /\
  pendingListens_ c' !! id' = pendingListens_ c !! id' /\ (id' ∈ awaitedStreamReplies_ c' <-> id' ∈ awaitedStreamReplies_ c).
Proof.
  intros Hid Hne. unfold handleStreamReply_locked. rewrite Hid. destruct (routeNewStream_keeps c m x) as [(K1 & K2 & K3 & K4 & K5 & K6) _].
  unfold completeOpen. repeat case_match; simplify_eq; cbn; rewrite ?K2, ?K3, ?K4, ?K5, ?K6, ?lookup_insert_ne by done; try done.
  all: split_and!; try done; rewrite elem_of_difference, elem_of_singleton; tauto.
Qed.

End Streams.

(** ** Witnesses *)
Import Trickle.
#[local] Existing Instance stream_messages.
#[local] Existing Instance stream_messages_laws.

Definition me7 : NodeID := mkGUID 7 7.
Definition srv5 : NodeID := mkGUID 5 5.
Definition stream1 : GUID := mkGUID 1 1.

Lemma stream1_wf : GUID_wf stream1.
Proof. unfold GUID_wf, is_u64. cbn. lia. Qed.

(** A message as it arrives from [g]. *)
Definition sent_by (g : NodeID) (m : RSPMessage.t) : RSPMessage.t := RSPMessage.set_source m (Some (toProtoNodeId g)).

(** The client has a stream to a socket that the node 7 opened at the service. *)
Definition client_idle : StreamClient := registerStreamRoute initial_streams stream1 srv5.
Lemma client_is_idle : idle client_idle stream1 srv5.
Proof. split; reflexivity. Qed.

Lemma trickle_sends : always_sends.
Proof. intros x [|a d] Hd; [done|]. cbn. discriminate. Qed.

Lemma remote_socket_opens_witness :
  exists s' es, handleConnectTCPRequest all_sent initial_bsd bsd_network
      (sent_by me7 (connectTCP_request srv5 (bs "h:80") 0 0 0 false false false stream1)) = (true, s', es) /\
    is_Some (managedSockets_ s' !! stream1).
Proof.
  destruct (remote_socket_opens all_sent stream1 me7 srv5 initial_streams stream1 (bs "h:80") 0 0 0 false false false
              initial_bsd bsd_network (bs "hi", []))
    with (req' := sent_by me7 (connectTCP_request srv5 (bs "h:80") 0 0 0 false false false stream1))
    as (s' & es & reply & st & E & _ & Hst & _);
    [intros x; reflexivity|exact stream1_wf|reflexivity|reflexivity|reflexivity|discriminate|left; reflexivity|reflexivity|reflexivity
    |split; vm_compute; reflexivity|].
  exists s', es. split; [exact E|]. exists st. exact Hst.
Defined.

Lemma remote_socket_requests_witness :
  exists req cl1, streamSend_begin client_idle stream1 (bs "ping") = Some (req, cl1) /\
    exists ok s' es, handleStreamSend all_sent bsd_one (sent_by me7 req) = Ok (ok, s', es).
Proof.
  destruct (remote_socket_requests all_sent never_failed stream1 me7 srv5 client_idle stream1 bsd_one socket_of_7 (bs "hi", []))
    as [H1 _]; [exact stream1_wf|exact client_is_idle|vm_compute; reflexivity|vm_compute; reflexivity|right; reflexivity|].
  destruct (H1 (bs "ping")) as (req & cl1 & E & H2); [vm_compute; reflexivity|].
  exists req, cl1. split; [exact E|].
  destruct (H2 (sent_by me7 req)) as (ok & s' & es & reply & tcp' & k & E2 & _).
  - split; [reflexivity|]. assert (req = (default (RSPMessage.empty, client_idle) (streamSend_begin client_idle stream1 (bs "ping"))).1) as ->
      by (rewrite E; reflexivity). vm_compute. reflexivity.
  - exists ok, s', es. exact E2.
Defined.

(** The stream is joined to a local socket. *)
Definition client_joined : StreamClient := (attach_begin client_idle stream1 ([], [])).2.

Lemma remote_stream_arrives_witness :
  exists s' es msgs final, runAsyncReadLoop all_sent 3 never_failed bsd_one socket_of_7 = Ok (s', es) /\ sents es = msgs ++ [final] /\
    forall msgs', Forall2 (arrives srv5) msgs msgs' -> exists c', receive stream1 client_joined msgs' = Ok c'.
Proof.
  destruct (remote_stream_arrives all_sent 3 never_failed stream1 srv5 bsd_one socket_of_7 (bs "hi", []) client_joined 0 ([], []) false false)
    as (s' & es & msgs & final & E1 & E2 & H3);
    [exact trickle_sends|intros d; reflexivity|vm_compute; reflexivity|vm_compute; lia|exact stream1_wf|vm_compute; reflexivity
    |vm_compute; reflexivity|reflexivity|reflexivity|].
  exists s', es, msgs, final. split; [exact E1|]. split; [exact E2|]. intros msgs' Hm.
  destruct (H3 msgs' (sent_by srv5 final) Hm) as (c' & _ & E3 & _).
  - split; [reflexivity|]. assert (final = lastReply socket_of_7 false) as ->.
    { assert (last (sents es) = Some final) as Hl by (rewrite E2; apply last_snoc).
      assert (es = match runAsyncReadLoop all_sent 3 never_failed bsd_one socket_of_7 with Ok r => r.2 | _ => [] end) as Hes
        by (rewrite E1; reflexivity).
      rewrite Hes in Hl. vm_compute in Hl. injection Hl as Hl. rewrite <- Hl. vm_compute. reflexivity. }
    vm_compute. reflexivity.
  - exists c'. exact E3.
Defined.

(** ** Findings *)

(** A StreamReply of the service 5 about the stream 1. *)
Definition reply_of (g : NodeID) (status : Enum) (data : option bytes) (new : option GUID) : RSPMessage.t :=
  sent_by g (packServiceMessage RSPMessage.empty
    (StreamReply.mk (Some (toProtoStreamId stream1)) status None None (toProtoStreamId <$> new) None data)).
Definition handled (c : StreamClient) (m : RSPMessage.t) : StreamClient :=
  match handleStreamReply (mkGUID 3 3) c m with Ok c' => c' | _ => c end.
Definition sending (c : StreamClient) (data : bytes) : StreamClient :=
  match streamSend_begin c stream1 data with Some r => r.2 | None => c end.

(** Data of an asynchronous stream that is buffered when [streamSend] is called is
    taken for the reply to it: the call fails although the service accepted the data,
    and the buffered data is lost. *)
Lemma send_takes_data_as_reply :
  let c := handled client_idle (reply_of srv5 STREAM_DATA (Some (bs "hi")) None) in
  let c' := handled (sending c (bs "x")) (reply_of srv5 SUCCESS None None) in
  (streamSend_end c' stream1).1 = false /\
  Forall (fun r => sr_data r = []) (default [] (streamReplyQueues_ (streamSend_end c' stream1).2 !! stream1)).
Proof. cbv zeta. split; [vm_compute; reflexivity|]. vm_compute. repeat constructor. Qed.

(** A reply that comes after its call gave up is taken for the reply to the next
    call: the second [streamSend] succeeds although the service refused its data. *)
Lemma late_reply_answers_next_call :
  let c1 := (streamSend_end (sending client_idle (bs "a")) stream1).2 in
  let c2 := handled c1 (reply_of srv5 SUCCESS None None) in
  let c3 := handled (sending c2 (bs "b")) (reply_of srv5 STREAM_ERROR None None) in
  (streamSend_end (sending client_idle (bs "a")) stream1).1 = false /\ (streamSend_end c3 stream1).1 = true.
Proof. cbv zeta. split; vm_compute; reflexivity. Qed.

(** Any node can redirect a stream: a reply that names the stream as new routes it to
    its sender. *)
Lemma route_can_be_redirected :
  streamRoutes_ (handled client_idle (reply_of (mkGUID 9 9) NEW_CONNECTION None (Some stream1))) !! stream1 = Some (mkGUID 9 9).
Proof. vm_compute. reflexivity. Qed.

(** [attachNativeStreamBridge] writes what was buffered after it released the lock:
    data that arrives in between gets to the socket first. *)
Definition socket_bytes (c : StreamClient) (b : nat) : option bytes :=
  match bridges c !! b with
  | Some (mkBridge (Some socket) _ _) => Some (delivered socket)
  | _ => None
  end.

Lemma bridge_can_reorder :
  let c := handled client_idle (reply_of srv5 STREAM_DATA (Some (bs "first ")) None) in
  let '(b, buffered, c1) := attach_begin c stream1 ([], []) in
  let c2 := handled c1 (reply_of srv5 STREAM_DATA (Some (bs "second ")) None) in
  match flush c2 b buffered with Ok c3 => socket_bytes c3 b = Some (bs "second first ") | _ => False end.
Proof. vm_compute. reflexivity. Qed.

(** A result that was taken with [tryDequeueStreamResult] stays in the queue of its
    stream: a later [streamRecv] returns the same data again. *)
Lemma dequeued_data_is_returned_again :
  let c := handled client_idle (reply_of srv5 STREAM_DATA (Some (bs "hi")) None) in
  (sr_data <$> (tryDequeueStreamResult c).1) = Some (bs "hi") /\
  (streamRecv_end (tryDequeueStreamResult c).2 stream1).1 = Some (bs "hi").
Proof. cbv zeta. split; vm_compute; reflexivity. Qed.
