(* ===== verification/NameClient.v ===== *)
(** * client/cpp/rsp_client.cpp: names

    The wrappers for the requests of the name service, the thread that keeps the
    names of a client registered, and the log events that tell the client about
    name services and other nodes that come and go.

    A request has two parts, around the wait for the reply, under [stateMutex_]; what
    concerns registrations is under [refreshMutex_].  The thread calls the wrappers;
    the calls and what they change are the functions [create] and [refresh] on a
    world, which is the name service when the parts are composed.  Random ids and
    clock readings are arguments. *)

From S2P Require Import Prelude BaseTypes Proto GuidBytes MessageHash Signing IdentityCache DateTimes ServiceMessage Node NameService.
From S2P Require Import KeyPair FieldResolver Requirement EndorsementCodec AuthN Transport Logging AesNegotiation ResourceQuery ResourceManager Connections.
From S2P Require Import BsdSockets.

(** ** Results *)
Definition toProtoUuid (guid : GUID) : Uuid := toProtoNodeId guid.

Record ClientNameRecord := mkNameRecord {
  cn_name : bytes; cn_owner : NodeID; cn_type : GUID; cn_value : GUID; cn_expiresAt : DateTime.t }.

Record NameResult := mkNameResult { nr_status : Enum; nr_message : bytes; nr_records : list ClientNameRecord }.

(** The id in a field of 16 bytes; any other field leaves the id as it is. *)
Definition id_field (field : option bytes) (id : GUID) : GUID :=
  match field with Some b => default id (nodeIdFromSourceField b) | None => id end.

(** What the generated classes promise: what was serialized is parsed, and the types
    have different names.  The promise is about the values the wire format can hold:
    texts ([string] fields) in UTF-8 and numbers in the range of their field.  The
    types of the model do not express these two conditions, so where a theorem uses
    [parses] it speaks about messages that meet them. *)
Definition name_types `{NM : NameMessages} : list bytes :=
  [bs (full_name NameCreateRequest.t); bs (full_name NameReadRequest.t); bs (full_name NameUpdateRequest.t);
   bs (full_name NameDeleteRequest.t); bs (full_name NameQueryRequest.t); bs (full_name NameRefreshRequest.t);
   bs (full_name NameCreateReply.t); bs (full_name NameReadReply.t); bs (full_name NameUpdateReply.t);
   bs (full_name NameDeleteReply.t); bs (full_name NameQueryReply.t); bs (full_name NameRefreshReply.t)].

Definition parses (T : Type) `{ServiceMessageType T} : Prop := forall x : T, parse_message (serialize_message x) = Some x.

Class NameMessagesLaws (NM : NameMessages) := {
  nml_create : parses NameCreateRequest.t; nml_create_reply : parses NameCreateReply.t;
  nml_read : parses NameReadRequest.t; nml_read_reply : parses NameReadReply.t;
  nml_update : parses NameUpdateRequest.t; nml_update_reply : parses NameUpdateReply.t;
  nml_delete : parses NameDeleteRequest.t; nml_delete_reply : parses NameDeleteReply.t;
  nml_query : parses NameQueryRequest.t; nml_query_reply : parses NameQueryReply.t;
  nml_refresh : parses NameRefreshRequest.t; nml_refresh_reply : parses NameRefreshReply.t;
  nml_names : NoDup name_types }.

Section Names.
Context `{M : MathLib} `{NM : NameMessages}.

(** [rec] is the default-constructed record: its ids are random, its time is the clock. *)
Definition nameRecordFromProto (rec : ClientNameRecord) (r : NameRecord.t) : ClientNameRecord :=
  mkNameRecord (NameRecord.name r) (id_field (NameRecord.owner r) (cn_owner rec)) (id_field (NameRecord.type r) (cn_type rec))
    (id_field (NameRecord.value r) (cn_value rec))
    (match NameRecord.expires_at r with Some ms => DateTime.fromMillisecondsSinceEpoch ms | None => cn_expiresAt rec end).

(** ** Requests *)
Definition nameCreate_request (nodeId : NodeID) (name : bytes) (owner : NodeID) (type value : GUID) : RSPMessage.t :=
  packServiceMessage (to_destination (toProtoNodeId nodeId))
    (NameCreateRequest.mk (Some (NameRecord.mk name (Some (toProtoNodeId owner)) (Some (toProtoUuid type)) (Some (toProtoUuid value)) None))).

Definition nameRead_request (nodeId : NodeID) (name : bytes) (owner : option NodeID) (type : option GUID) : RSPMessage.t :=
  packServiceMessage (to_destination (toProtoNodeId nodeId))
    (NameReadRequest.mk name (toProtoNodeId <$> owner) (toProtoUuid <$> type)).

Definition nameUpdate_request (nodeId : NodeID) (name : bytes) (owner : NodeID) (type newValue : GUID) : RSPMessage.t :=
  packServiceMessage (to_destination (toProtoNodeId nodeId))
    (NameUpdateRequest.mk name (Some (toProtoNodeId owner)) (Some (toProtoUuid type)) (Some (toProtoUuid newValue))).

Definition nameDelete_request (nodeId : NodeID) (name : bytes) (owner : NodeID) (type : GUID) : RSPMessage.t :=
  packServiceMessage (to_destination (toProtoNodeId nodeId))
    (NameDeleteRequest.mk name (Some (toProtoNodeId owner)) (Some (toProtoUuid type))).

Definition nameQuery_request (nodeId : NodeID) (namePrefix : bytes) (owner : option NodeID) (type : option GUID) (maxRecords : Z)
    : RSPMessage.t :=
  packServiceMessage (to_destination (toProtoNodeId nodeId))
    (NameQueryRequest.mk (match namePrefix with [] => None | _ => Some namePrefix end) (toProtoNodeId <$> owner) (toProtoUuid <$> type)
       (if 0 <? maxRecords then maxRecords else 0)).

Definition nameRefresh_request (nodeId : NodeID) (name : bytes) (owner : NodeID) (type : GUID) : RSPMessage.t :=
  packServiceMessage (to_destination (toProtoNodeId nodeId))
    (NameRefreshRequest.mk name (Some (toProtoNodeId owner)) (Some (toProtoUuid type))).

(** ** Waiting for a reply *)
Record NameCall := mkCall { nameReplyPending_ : bool; nameReplyResult_ : option NameResult; nc_stopping : bool }.

Definition nameRequest_begin (c : NameCall) : NameCall := mkCall true None (nc_stopping c).
Definition nameRequest_unsent (c : NameCall) : NameCall := mkCall false (nameReplyResult_ c) (nc_stopping c).

(** After the wait, which ends when the reply has come, the client stops or the time
    is over. *)
Definition nameRequest_end (c : NameCall) : option NameResult * NameCall :=
  if nameReplyPending_ c || nc_stopping c || negb (bool_decide (is_Some (nameReplyResult_ c)))
  then (None, mkCall false (nameReplyResult_ c) (nc_stopping c))
  else (nameReplyResult_ c, mkCall false None (nc_stopping c)).

Definition isNameServiceReply (m : RSPMessage.t) : bool :=
  hasServiceMessage NameCreateReply.t m || hasServiceMessage NameReadReply.t m || hasServiceMessage NameUpdateReply.t m ||
  hasServiceMessage NameDeleteReply.t m || hasServiceMessage NameQueryReply.t m || hasServiceMessage NameRefreshReply.t m.

(** The result of a reply; a reply that cannot be unpacked gives the default result. *)
Definition nameResultFromReply (rec : nat -> ClientNameRecord) (m : RSPMessage.t) : NameResult :=
  let records := imap (fun i => nameRecordFromProto (rec i)) in
  match unpackServiceMessage NameCreateReply.t m with
  | Some r => mkNameResult (NameCreateReply.status r) (value_or_empty (NameCreateReply.message r)) []
  | None =>
  match unpackServiceMessage NameReadReply.t m with
  | Some r => mkNameResult (NameReadReply.status r) [] (records (NameReadReply.records r))
  | None =>
  match unpackServiceMessage NameUpdateReply.t m with
  | Some r => mkNameResult (NameUpdateReply.status r) (value_or_empty (NameUpdateReply.message r)) []
  | None =>
  match unpackServiceMessage NameDeleteReply.t m with
  | Some r => mkNameResult (NameDeleteReply.status r) (value_or_empty (NameDeleteReply.message r)) []
  | None =>
  match unpackServiceMessage NameQueryReply.t m with
  | Some r => mkNameResult NAME_SUCCESS [] (records (NameQueryReply.records r))
  | None =>
  match unpackServiceMessage NameRefreshReply.t m with
  | Some r => mkNameResult (NameRefreshReply.status r) (value_or_empty (NameRefreshReply.message r)) []
  | None => mkNameResult NAME_SUCCESS [] []
  end end end end end end.

Definition handleNameServiceReply (rec : nat -> ClientNameRecord) (c : NameCall) (m : RSPMessage.t) : NameCall :=
  if nameReplyPending_ c then mkCall false (Some (nameResultFromReply rec m)) (nc_stopping c) else c.

(** [nameResolve]: the first owner that answers a ping. *)
Fixpoint firstAlive (ping : NodeID -> bool) (records : list ClientNameRecord) : option NodeID :=
  match records with
  | [] => None
  | r :: records' => if ping (cn_owner r) then Some (cn_owner r) else firstAlive ping records'
  end.

Definition nameResolve (ping : NodeID -> bool) (result : option NameResult) : option NodeID :=
  match result with Some r => firstAlive ping (nr_records r) | None => None end.

(** ** Registrations *)
Definition NAME_ERROR : Enum := 3.

Record RefreshEntry := mkEntry { nsNodeId : NodeID; re_name : bytes; re_owner : NodeID; re_type : GUID; re_value : GUID }.

(** [nodeConnectedCallback_] and the two functions of [lifecycleCallbacks_] are known
    by whether they are set. *)
Record Registrations := mkRegistrations {
  refreshRegistrations_ : list RefreshEntry;
  nsBootIds_ : gmap NodeID bytes;
  pendingReregistrations_ : gset NodeID;
  failedRegistrations_ : gset NodeID;
  has_nodeConnectedCallback : bool;
  has_onConnected : bool;
  has_onDisconnected : bool;
  lifecycleBootIds_ : gmap NodeID bytes;
  logSubActive_ : bool;
  refreshStopping_ : bool;
  refreshRunning : bool }.

Definition isSuccess (result : option NameResult) : bool :=
  match result with Some r => nr_status r =? NAME_SUCCESS | None => false end.

(** [sendLogSubscribeToRM]: the two subscriptions at the peer of every connection;
    [peers] are the results of [peerNodeID], in the order of [connectionIds]. *)
Definition subscription (me rmNodeId : NodeID) (typeUrl : bytes) : RSPMessage.t :=
  RSPMessage.set_core (RSPMessage.set_destination (RSPMessage.set_source RSPMessage.empty (Some (toProtoNodeId me)))
      (Some (toProtoNodeId rmNodeId)))
    (Some (LogSubscribeRequestMessage
       (LogSubscribeRequest.mk typeUrl (Some (Leaf (FieldExists (Some [bs "node_id"])))) 300000))).

Definition connectedUrl : bytes := bs "type.rsp/rsp.proto.NodeConnectedEvent".
Definition disconnectedUrl : bytes := bs "type.rsp/rsp.proto.NodeDisconnectedEvent".

Fixpoint sendLogSubscribeToRM (me : NodeID) (peers : list (option NodeID)) : list RSPMessage.t :=
  match peers with
  | [] => []
  | None :: peers' => sendLogSubscribeToRM me peers'
  | Some rm :: peers' =>
      subscription me rm connectedUrl :: subscription me rm disconnectedUrl :: sendLogSubscribeToRM me peers'
  end.

(** The end of the three functions that need the thread and the subscription. *)
Definition startWatching (me : NodeID) (peers : list (option NodeID)) (r : Registrations) : list RSPMessage.t * Registrations :=
  (if logSubActive_ r then [] else sendLogSubscribeToRM me peers,
   mkRegistrations (refreshRegistrations_ r) (nsBootIds_ r) (pendingReregistrations_ r) (failedRegistrations_ r)
     (has_nodeConnectedCallback r) (has_onConnected r) (has_onDisconnected r) (lifecycleBootIds_ r) true
     (if refreshRunning r then refreshStopping_ r else false) true).

(** What [registerNameWithRefresh] does after [nameCreate]. *)
Definition registerNameWithRefresh_end (me : NodeID) (peers : list (option NodeID)) (r : Registrations) (entry : RefreshEntry)
    (result : option NameResult) : list RSPMessage.t * Registrations :=
  startWatching me peers
    (mkRegistrations (refreshRegistrations_ r ++ [entry]) (nsBootIds_ r)
       (if isSuccess result then pendingReregistrations_ r else {[nsNodeId entry]} ∪ pendingReregistrations_ r)
       (failedRegistrations_ r) (has_nodeConnectedCallback r) (has_onConnected r) (has_onDisconnected r) (lifecycleBootIds_ r)
       (logSubActive_ r) (refreshStopping_ r) (refreshRunning r)).

Definition watchNodeConnectedEvents (me : NodeID) (peers : list (option NodeID)) (r : Registrations) (callback : bool)
    : list RSPMessage.t * Registrations :=
  startWatching me peers
    (mkRegistrations (refreshRegistrations_ r) (nsBootIds_ r) (pendingReregistrations_ r) (failedRegistrations_ r) callback
       (has_onConnected r) (has_onDisconnected r) (lifecycleBootIds_ r) (logSubActive_ r) (refreshStopping_ r) (refreshRunning r)).

Definition watchNodeLifecycle (me : NodeID) (peers : list (option NodeID)) (r : Registrations) (onConnected onDisconnected : bool)
    : list RSPMessage.t * Registrations :=
  startWatching me peers
    (mkRegistrations (refreshRegistrations_ r) (nsBootIds_ r) (pendingReregistrations_ r) (failedRegistrations_ r)
       (has_nodeConnectedCallback r) onConnected onDisconnected (lifecycleBootIds_ r) (logSubActive_ r) (refreshStopping_ r)
       (refreshRunning r)).

(** The start of a round of the refresh thread, after the wait: the entries, the
    services at which they are created again, the renewed subscriptions and the state;
    [None] when the thread ends. *)
Definition refresh_take (me : NodeID) (peers : list (option NodeID)) (r : Registrations)
    : option (list RefreshEntry * gset NodeID * list RSPMessage.t * Registrations) :=
  if refreshStopping_ r then None
  else
    Some (refreshRegistrations_ r, pendingReregistrations_ r ∪ failedRegistrations_ r, sendLogSubscribeToRM me peers,
          mkRegistrations (refreshRegistrations_ r) (nsBootIds_ r) ∅ ∅ (has_nodeConnectedCallback r) (has_onConnected r)
            (has_onDisconnected r) (lifecycleBootIds_ r) (logSubActive_ r) (refreshStopping_ r) (refreshRunning r)).

Section Round.
Context {W : Type} (create refresh : W -> RefreshEntry -> option NameResult * W).

Definition createFailed (result : option NameResult) : bool :=
  match result with Some r => nr_status r =? NAME_ERROR | None => true end.
Definition refreshMissing (result : option NameResult) : bool :=
  match result with Some r => nr_status r =? NAME_NOT_FOUND | None => true end.

(** One entry of the round; the second component is [failedRegistrations_]. *)
Definition refresh_entry (reregister : gset NodeID) (w : W) (failed : gset NodeID) (entry : RefreshEntry) : W * gset NodeID :=
  let create_it w :=
    let '(result, w') := create w entry in
    (w', if createFailed result then {[nsNodeId entry]} ∪ failed else failed) in
  if bool_decide (nsNodeId entry ∈ reregister) then create_it w
  else
    let '(result, w') := refresh w entry in
    if refreshMissing result then create_it w' else (w', failed).

Fixpoint refresh_round (reregister : gset NodeID) (w : W) (failed : gset NodeID) (entries : list RefreshEntry) : W * gset NodeID :=
  match entries with
  | [] => (w, failed)
  | entry :: entries' =>
      let '(w', failed') := refresh_entry reregister w failed entry in refresh_round reregister w' failed' entries'
  end.
End Round.

(** ** Log events *)
Inductive NodeEvent := UnknownNode (n : NodeID) | OnConnected (n : NodeID) | OnDisconnected (n : NodeID).

Definition set_boot_ids (r : Registrations) (ns lifecycle : gmap NodeID bytes) (pending : gset NodeID) : Registrations :=
  mkRegistrations (refreshRegistrations_ r) ns pending (failedRegistrations_ r) (has_nodeConnectedCallback r) (has_onConnected r)
    (has_onDisconnected r) lifecycle (logSubActive_ r) (refreshStopping_ r) (refreshRunning r).

Definition isKnownNS (r : Registrations) (n : NodeID) : bool :=
  existsb (fun entry => bool_decide (nsNodeId entry = n)) (refreshRegistrations_ r).

(** The last part of the critical section: the lifecycle callback. *)
Definition lifecycleConnected (r : Registrations) (n : NodeID) (newBootId : bytes) : list NodeEvent * Registrations :=
  if has_onConnected r &&
     match lifecycleBootIds_ r !! n with
     | Some bootId => negb (bool_decide (bootId = newBootId)) || bool_decide (newBootId = [])
     | None => true
     end
  then ([OnConnected n], set_boot_ids r (nsBootIds_ r) (<[n := newBootId]> (lifecycleBootIds_ r)) (pendingReregistrations_ r))
  else ([], r).

Definition nodeConnected (r : Registrations) (n : NodeID) (newBootId : bytes) : list NodeEvent * Registrations :=
  if negb (isKnownNS r n) then
    let '(events, r') := lifecycleConnected r n newBootId in
    ((if has_nodeConnectedCallback r then [UnknownNode n] else []) ++ events, r')
  else if bool_decide (nsBootIds_ r !! n = Some newBootId) && negb (bool_decide (newBootId = [])) then ([], r)
  else lifecycleConnected
         (set_boot_ids r (<[n := newBootId]> (nsBootIds_ r)) (lifecycleBootIds_ r) ({[n]} ∪ pendingReregistrations_ r)) n newBootId.

Definition nodeDisconnected (r : Registrations) (n : NodeID) : list NodeEvent * Registrations :=
  let r' := set_boot_ids r (nsBootIds_ r) (delete n (lifecycleBootIds_ r)) (pendingReregistrations_ r) in
  (if has_onDisconnected r then [OnDisconnected n] else [], r').

(** The callbacks that are called, in order, and the state. *)
Definition handleLogRecord `{E : EventTypes} (r : Registrations) (m : RSPMessage.t) : list NodeEvent * Registrations :=
  match RSPMessage.core_message m with
  | Some (LogRecordMessage record) =>
      match LogRecord.payload record with
      | None => ([], r)
      | Some payload =>
          if bool_decide (AnyMsg.type_url payload = connectedUrl) then
            match parse_message (T := NodeConnectedEvent.t) (AnyMsg.value payload) with
            | None => ([], r)
            | Some event =>
                match nodeIdFromSourceField (value_or_empty (NodeConnectedEvent.node_id event)) with
                | None => ([], r)
                | Some nodeId =>
                    nodeConnected r nodeId
                      (value_or_empty (identity ← NodeConnectedEvent.identity event; Identity.boot_id identity))
                end
            end
          else if bool_decide (AnyMsg.type_url payload = disconnectedUrl) then
            match parse_message (T := NodeDisconnectedEvent.t) (AnyMsg.value payload) with
            | None => ([], r)
            | Some event =>
                match nodeIdFromSourceField (value_or_empty (NodeDisconnectedEvent.node_id event)) with
                | None => ([], r)
                | Some nodeId => nodeDisconnected r nodeId
                end
            end
          else ([], r)
      end
  | _ => ([], r)
  end.

(** ** The client and the name services together

    [services] are the reachable name services by node id, [slot] is the state of the
    client's calls; the [i]-th call is handled at the time [clock i]. *)
Record World := mkWorld { services : gmap NodeID NameService; ticks : nat; slot : NameCall }.

Section World.
Context `{Sort : StdSort} (push : RSPMessage.t -> bool).
Context (me : NodeID) (clock : nat -> DateTime.t) (rec : nat -> ClientNameRecord).
(** [transit g m] is the message [m] of the node [g] as it arrives. *)
Context (transit : NodeID -> RSPMessage.t -> RSPMessage.t).

(** A message of the node [n] arrives at the client. *)
Definition receive (n : NodeID) (c : NameCall) (m : RSPMessage.t) : NameCall :=
  if bool_decide (RSPMessage.destination m = Some (toProtoNodeId me)) && isNameServiceReply (transit n m)
  then handleNameServiceReply rec c (transit n m) else c.

(** [sendNameRequestImpl]; a service that is not there does not answer. *)
Definition call (w : World) (n : NodeID) (request : RSPMessage.t) : option NameResult * World :=
  let c := nameRequest_begin (slot w) in
  let finish svs c := let '(result, c') := nameRequest_end c in (result, mkWorld svs (S (ticks w)) c') in
  match services w !! n with
  | None => finish (services w) c
  | Some s =>
      match names_handleNodeSpecificMessage push (clock (ticks w)) s (transit me request) with
      | Ok (_, out, s') => finish (<[n := s']> (services w)) (foldl (receive n) c out)
      | _ => finish (services w) c
      end
  end.

Definition create_entry (w : World) (e : RefreshEntry) : option NameResult * World :=
  call w (nsNodeId e) (nameCreate_request (nsNodeId e) (re_name e) (re_owner e) (re_type e) (re_value e)).
Definition refresh_existing (w : World) (e : RefreshEntry) : option NameResult * World :=
  call w (nsNodeId e) (nameRefresh_request (nsNodeId e) (re_name e) (re_owner e) (re_type e)).

(** The wrappers by their arguments, the request each one makes and the result the
    specification of the service gives. *)
Inductive NameOp :=
| OpCreate (name : bytes) (owner : NodeID) (type value : GUID)
| OpRead (name : bytes) (owner : option NodeID) (type : option GUID)
| OpUpdate (name : bytes) (owner : NodeID) (type newValue : GUID)
| OpDelete (name : bytes) (owner : NodeID) (type : GUID)
| OpQuery (namePrefix : bytes) (owner : option NodeID) (type : option GUID) (maxRecords : Z)
| OpRefresh (name : bytes) (owner : NodeID) (type : GUID).

Definition op_message (n : NodeID) (op : NameOp) : RSPMessage.t :=
  match op with
  | OpCreate name owner type value => nameCreate_request n name owner type value
  | OpRead name owner type => nameRead_request n name owner type
  | OpUpdate name owner type newValue => nameUpdate_request n name owner type newValue
  | OpDelete name owner type => nameDelete_request n name owner type
  | OpQuery namePrefix owner type maxRecords => nameQuery_request n namePrefix owner type maxRecords
  | OpRefresh name owner type => nameRefresh_request n name owner type
  end.

Definition op_request (op : NameOp) : NameRequest :=
  match op with
  | OpCreate name owner type value =>
      RqCreate (NameCreateRequest.mk (Some (NameRecord.mk name (Some (toProtoNodeId owner)) (Some (toProtoUuid type))
                                              (Some (toProtoUuid value)) None)))
  | OpRead name owner type => RqRead (NameReadRequest.mk name (toProtoNodeId <$> owner) (toProtoUuid <$> type))
  | OpUpdate name owner type newValue =>
      RqUpdate (NameUpdateRequest.mk name (Some (toProtoNodeId owner)) (Some (toProtoUuid type)) (Some (toProtoUuid newValue)))
  | OpDelete name owner type => RqDelete (NameDeleteRequest.mk name (Some (toProtoNodeId owner)) (Some (toProtoUuid type)))
  | OpQuery namePrefix owner type maxRecords =>
      RqQuery (NameQueryRequest.mk (match namePrefix with [] => None | _ => Some namePrefix end) (toProtoNodeId <$> owner)
                 (toProtoUuid <$> type) (if 0 <? maxRecords then maxRecords else 0))
  | OpRefresh name owner type => RqRefresh (NameRefreshRequest.mk name (Some (toProtoNodeId owner)) (Some (toProtoUuid type)))
  end.

(** What a client sees of an entry of the database.  An id that is stored as 16 bytes is
    the id with this encoding; the client cannot read a field of another length and
    keeps the id of its default-constructed record. *)
Definition stands_for (unread : GUID) (field : bytes) (id : GUID) : Prop :=
  if decide (List.length field = 16%nat) then toProtoNodeId id = field else id = unread.

Definition shows (unread : ClientNameRecord) (e : Entry) (c : ClientNameRecord) : Prop :=
  let '(n, o, t, (v, x)) := e in
  cn_name c = n /\ stands_for (cn_owner unread) o (cn_owner c) /\ stands_for (cn_type unread) t (cn_type c)
  /\ stands_for (cn_value unread) v (cn_value c)
  /\ cn_expiresAt c = DateTime.fromMillisecondsSinceEpoch (DateTime.millisecondsSinceEpoch x).

Definition shows_all (es : list Entry) (cs : list ClientNameRecord) : Prop :=
  List.length cs = List.length es
  /\ forall i e c, es !! i = Some e -> cs !! i = Some c -> shows (rec i) e c.

(** The result of a request, as a relation on the abstract map of the service. *)
Definition spec_result (db : gmap RecordKey (bytes * DateTime.t)) (now : DateTime.t) (r : NameRequest) (result : NameResult) : Prop :=
  let found := bool_decide (is_Some (db !! request_key r)) in
  let missing := mkNameResult NAME_NOT_FOUND (bs "no matching record") [] in
  let success := mkNameResult NAME_SUCCESS [] [] in
  match r with
  | RqCreate _ =>
      result = if found then mkNameResult NAME_DUPLICATE (bs "record with (name, owner, type) already exists") [] else success
  | RqRead q => exists es, read_answer q now db es /\ nr_status result = read_status es /\ nr_message result = []
                  /\ shows_all es (nr_records result)
  | RqQuery q => exists es, query_answer q now db es /\ nr_status result = NAME_SUCCESS /\ nr_message result = []
                   /\ shows_all es (nr_records result)
  | RqUpdate _ | RqDelete _ | RqRefresh _ => result = if found then success else missing
  end.

(** The result as the code computes it; [computed_result_spec] relates it to
    [spec_result]. *)
Definition computed_result (m : gmap RecordKey StoredRecord) (now : DateTime.t) (r : NameRequest) : NameResult :=
  let found := bool_decide (is_Some (view_of_records m !! request_key r)) in
  let missing := mkNameResult NAME_NOT_FOUND (bs "no matching record") [] in
  let success := mkNameResult NAME_SUCCESS [] [] in
  match r with
  | RqCreate _ => if found then mkNameResult NAME_DUPLICATE (bs "record with (name, owner, type) already exists") [] else success
  | RqRead q =>
      let reply := readRecords m q now in
      mkNameResult (NameReadReply.status reply) [] (imap (fun i => nameRecordFromProto (rec i)) (NameReadReply.records reply))
  | RqQuery q =>
      mkNameResult NAME_SUCCESS [] (imap (fun i => nameRecordFromProto (rec i)) (NameQueryReply.records (queryRecords m q now)))
  | RqUpdate _ | RqDelete _ | RqRefresh _ => if found then success else missing
  end.

(** ** Lemmas *)
Context `{L : !NameMessagesLaws NM}.
Context (transit_content : forall g m, RSPMessage.service_message (transit g m) = RSPMessage.service_message m).
Context (transit_sender : forall m, senderNodeIdFromMessage (transit me m) = Some me).

Lemma has_pack T U `{ServiceMessageType T} `{ServiceMessageType U} m (x : T) :
  bs (full_name T) <> bs (full_name U) -> hasServiceMessage U (packServiceMessage m x) = false.
Proof. intros Hn. apply (hasServiceMessage_exclusive T U); [done|]. cbn. by apply bool_decide_true. Qed.

Lemma unpack_other T U `{ServiceMessageType T} `{ServiceMessageType U} m (x : T) :
  bs (full_name T) <> bs (full_name U) -> unpackServiceMessage U (packServiceMessage m x) = None.
Proof.
  intros Hn. destruct (unpackServiceMessage U _) eqn:E; [|done]. apply unpack_has in E. by rewrite has_pack in E.
Qed.

Lemma has_pack_same T `{ServiceMessageType T} m (x : T) : hasServiceMessage T (packServiceMessage m x) = true.
Proof. cbn. by apply bool_decide_true. Qed.

Lemma unpack_same T `{ServiceMessageType T} m (x : T) : parses T -> unpackServiceMessage T (packServiceMessage m x) = Some x.
Proof. intros Hp. by rewrite unpack_packServiceMessage. Qed.

Lemma request_of_op n op : request_of (op_message n op) = Some (op_request op).
Proof.
  pose proof nml_names as Hn. unfold name_types in Hn. rewrite !NoDup_cons, !not_elem_of_cons in Hn. destruct_and! Hn.
  destruct op; unfold request_of; cbn [op_message op_request];
    unfold nameCreate_request, nameRead_request, nameUpdate_request, nameDelete_request, nameQuery_request, nameRefresh_request;
    rewrite ?has_pack by congruence; rewrite has_pack_same, unpack_same; try done; apply L.
Qed.

(** Only the service message of a message matters. *)
Lemma service_unpack m m' T `{ServiceMessageType T} :
  RSPMessage.service_message m' = RSPMessage.service_message m -> unpackServiceMessage T m' = unpackServiceMessage T m.
Proof. intros E. unfold unpackServiceMessage. by rewrite E. Qed.

Lemma service_has m m' T `{ServiceMessageType T} :
  RSPMessage.service_message m' = RSPMessage.service_message m -> hasServiceMessage T m' = hasServiceMessage T m.
Proof. intros E. unfold hasServiceMessage. by rewrite E. Qed.

Lemma service_request m m' :
  RSPMessage.service_message m' = RSPMessage.service_message m -> request_of m' = request_of m.
Proof. intros E. unfold request_of. by rewrite !(service_has m m'), !(service_unpack m m'). Qed.

Lemma service_result m m' :
  RSPMessage.service_message m' = RSPMessage.service_message m -> nameResultFromReply rec m' = nameResultFromReply rec m.
Proof. intros E. unfold nameResultFromReply. by rewrite !(service_unpack m m'). Qed.

Lemma service_reply m m' :
  RSPMessage.service_message m' = RSPMessage.service_message m -> isNameServiceReply m' = isNameServiceReply m.
Proof. intros E. unfold isNameServiceReply. by rewrite !(service_has m m'). Qed.

(** The answer of the service to a request, as a reply the client recognises. *)
Lemma computed_out_result records now r m :
  senderNodeIdFromMessage m = Some me ->
  exists reply, computed_out records now r m = [reply] /\ RSPMessage.destination reply = Some (toProtoNodeId me)
    /\ isNameServiceReply reply = true /\ nameResultFromReply rec reply = computed_result records now r.
Proof.
  intros Hs. pose proof nml_names as Hn. unfold name_types in Hn. rewrite !NoDup_cons, !not_elem_of_cons in Hn. destruct_and! Hn.
  destruct r as [q|q|q|q|q|q]; unfold computed_out, computed_result, NameService.answer; rewrite Hs; (eexists; split; [done|]; split; [done|]); split;
    first [by unfold isNameServiceReply; rewrite has_pack_same, ?orb_true_r|
           unfold nameResultFromReply; rewrite ?unpack_other by congruence; rewrite unpack_same by apply L];
    unfold found_status, found_message; first [by destruct (view_of_records records !! request_key _)|done].
Qed.

(** A call at a service that is there returns what the service's specification says. *)
Lemma call_op w n op s :
  services w !! n = Some s -> nc_stopping (slot w) = false ->
  exists s', call w n (op_message n op)
      = (Some (computed_result (records_ s) (clock (ticks w)) (op_request op)),
         mkWorld (<[n := s']> (services w)) (S (ticks w)) (mkCall false None false))
    /\ view_of_records (records_ s') = spec_db (clock (ticks w)) (op_request op) (view_of_records (records_ s))
    /\ (names_inv s -> names_inv s').
Proof.
  intros Hs Hstop. unfold call. rewrite Hs. pose proof (transit_content me (op_message n op)) as E1. pose proof (transit_sender (op_message n op)) as E2.
  pose proof (handler_refines push (clock (ticks w)) s (transit me (op_message n op))) as Hr.
  rewrite (service_request _ _ E1), request_of_op in Hr. destruct Hr as (b & s' & -> & V). exists s'. split; [|exact V].
  destruct (computed_out_result (records_ s) (clock (ticks w)) (op_request op) _ E2) as (reply & -> & Hd & Hi & Hres).
  pose proof (transit_content n reply) as R1. cbn [foldl]. unfold receive.
  rewrite bool_decide_true by done. rewrite (service_reply _ _ R1), Hi. unfold handleNameServiceReply. cbn.
  rewrite (service_result _ _ R1), Hres, Hstop. done.
Qed.

(** A call at a service that is not there. *)
Lemma call_absent w n m :
  services w !! n = None ->
  call w n m
  = (None, mkWorld (services w) (S (ticks w)) (mkCall false None (nc_stopping (slot w)))).
Proof. intros Hs. unfold call. by rewrite Hs. Qed.

(** ** What a round does to the databases *)
Definition database (w : World) (n : NodeID) : option (gmap RecordKey (bytes * DateTime.t)) :=
  (fun s => view_of_records (records_ s)) <$> services w !! n.
Definition entryKey (e : RefreshEntry) : RecordKey := (re_name e, toProtoNodeId (re_owner e), toProtoUuid (re_type e)).
Definition ttl (i : nat) : DateTime.t := DateTime.add (clock i) kRecordTtlSeconds.

Definition registration (n : NodeID) (k : RecordKey) (e : RefreshEntry) : Prop := nsNodeId e = n /\ entryKey e = k.

(** The entry of a key before and after: untouched without a registration; with one it
    is there, with the value it had or a registered value, and it lives for a new time
    to live, or as long as it would have, if it was there and only created again. *)
Definition refreshed (reregister : gset NodeID) (entries : list RefreshEntry) (n : NodeID) (k : RecordKey) (first last : nat)
    (old new : option (bytes * DateTime.t)) : Prop :=
  (Forall (fun e => ~ registration n k e) entries /\ new = old)
  \/ (Exists (registration n k) entries /\ exists v x, new = Some (v, x)
      /\ match old with
         | Some (v0, x0) => v = v0 /\ if decide (n ∈ reregister) then x = x0 else exists i, first <= i < last /\ x = ttl i
         | None => Exists (fun e => registration n k e /\ v = toProtoUuid (re_value e)) entries
                   /\ exists i, first <= i < last /\ x = ttl i
         end)%nat.

Definition round_effect (reregister : gset NodeID) (entries : list RefreshEntry) (w w' : World) : Prop :=
  nc_stopping (slot w') = nc_stopping (slot w) /\ (ticks w <= ticks w')%nat
  /\ forall n, match database w n with
               | None => database w' n = None
               | Some db => exists db', database w' n = Some db'
                   /\ forall k, refreshed reregister entries n k (ticks w) (ticks w') (db !! k) (db' !! k)
               end.

Lemma refreshed_app reregister es es' n k a b c old mid new :
  (a <= b)%nat -> (b <= c)%nat ->
  refreshed reregister es n k a b old mid -> refreshed reregister es' n k b c mid new ->
  refreshed reregister (es ++ es') n k a c old new.
Proof.
  intros Hab Hbc. assert (W : forall x lo hi, (a <= lo -> hi <= c -> (exists i, lo <= i < hi /\ x = ttl i) -> exists i, a <= i < c /\ x = ttl i)%nat).
  { intros x lo hi ?? (i & ? & ->). exists i. split; [lia|done]. }
  intros [[F ->]|(X & v & x & -> & H1)] [[F' ->]|(X' & v' & x' & -> & H2)].
  - left. split; [by apply Forall_app|done].
  - right. split; [apply Exists_app; by right|]. exists v', x'. split; [done|].
    destruct old as [[v0 x0]|].
    + destruct H2 as [-> H2]. split; [done|]. case_decide; [done|]. by apply (W _ b c).
    + destruct H2 as [H2 H3]. split; [apply Exists_app; by right|]. by apply (W _ b c).
  - right. split; [apply Exists_app; by left|]. exists v, x. split; [done|].
    destruct old as [[v0 x0]|].
    + destruct H1 as [-> H1]. split; [done|]. case_decide; [done|]. by apply (W _ a b).
    + destruct H1 as [H1 H3]. split; [apply Exists_app; by left|]. by apply (W _ a b).
  - right. split; [apply Exists_app; by left|]. destruct H2 as [-> H2]. exists v, x'. split; [done|].
    destruct old as [[v0 x0]|].
    + destruct H1 as [-> H1]. split; [done|]. case_decide; [congruence|]. by apply (W _ b c).
    + destruct H1 as [H1 H3]. split; [apply Exists_app; by left|]. case_decide; [subst; by apply (W _ a b)|by apply (W _ b c)].
Qed.

Lemma round_effect_app reregister es es' w w1 w2 :
  round_effect reregister es w w1 -> round_effect reregister es' w1 w2 -> round_effect reregister (es ++ es') w w2.
Proof.
  intros (S1 & T1 & H1) (S2 & T2 & H2). split; [congruence|]. split; [lia|]. intros n. specialize (H1 n). specialize (H2 n).
  destruct (database w n) as [db|]; [|by rewrite H1 in H2]. destruct H1 as (db1 & E1 & H1). rewrite E1 in H2.
  destruct H2 as (db2 & E2 & H2). exists db2. split; [done|]. intros k. by eapply refreshed_app.
Qed.

Lemma round_effect_nil reregister w : round_effect reregister [] w w.
Proof.
  split; [done|]. split; [done|]. intros n. destruct (database w n) as [db|]; [|done]. exists db. split; [done|].
  intros k. left. by split.
Qed.

(** The effect of one entry at a service that is there. *)
Lemma one_entry_effect reregister e w s s' t c :
  services w !! nsNodeId e = Some s -> nc_stopping c = nc_stopping (slot w) -> (ticks w <= t)%nat ->
  (forall k, k <> entryKey e -> view_of_records (records_ s') !! k = view_of_records (records_ s) !! k) ->
  refreshed reregister [e] (nsNodeId e) (entryKey e) (ticks w) t
    (view_of_records (records_ s) !! entryKey e) (view_of_records (records_ s') !! entryKey e) ->
  round_effect reregister [e] w (mkWorld (<[nsNodeId e := s']> (services w)) t c).
Proof.
  intros Hs Hc Ht Hother Hkey. split; [done|]. split; [done|]. intros n. unfold database. cbn [services ticks].
  assert (Hleft : forall k o, ~ registration n k e -> refreshed reregister [e] n k (ticks w) t o o).
  { intros k o Hr. left. split; [|done]. by apply Forall_singleton. }
  destruct (decide (n = nsNodeId e)) as [->|Hne].
  - rewrite Hs, lookup_insert_eq. cbn. eexists. split; [done|]. intros k.
    destruct (decide (k = entryKey e)) as [->|Hk]; [done|]. rewrite Hother by done. apply Hleft. by intros [_ ?].
  - rewrite lookup_insert_ne by done. destruct (services w !! n) as [s0|]; cbn; [|done]. eexists. split; [done|].
    intros k. apply Hleft. by intros [? _].
Qed.

Lemma refreshed_one reregister e a b (old : option (bytes * DateTime.t)) v x :
  match old with
  | Some (v0, x0) => v = v0 /\ if decide (nsNodeId e ∈ reregister) then x = x0 else exists i, (a <= i < b)%nat /\ x = ttl i
  | None => v = toProtoUuid (re_value e) /\ exists i, (a <= i < b)%nat /\ x = ttl i
  end ->
  refreshed reregister [e] (nsNodeId e) (entryKey e) a b old (Some (v, x)).
Proof.
  intros H. right. split; [by apply Exists_cons_hd|]. exists v, x. split; [done|]. destruct old as [[v0 x0]|]; [done|].
  destruct H as [-> H]. split; [by apply Exists_cons_hd|done].
Qed.

Lemma create_at w e s :
  services w !! nsNodeId e = Some s -> nc_stopping (slot w) = false ->
  exists s' result, create_entry w e
      = (Some result, mkWorld (<[nsNodeId e := s']> (services w)) (S (ticks w)) (mkCall false None false))
    /\ createFailed (Some result) = false
    /\ view_of_records (records_ s')
       = match view_of_records (records_ s) !! entryKey e with
         | Some _ => view_of_records (records_ s)
         | None => <[entryKey e := (toProtoUuid (re_value e), ttl (ticks w))]> (view_of_records (records_ s))
         end.
Proof.
  intros Hs Hstop. destruct (call_op w (nsNodeId e) (OpCreate (re_name e) (re_owner e) (re_type e) (re_value e)) s Hs Hstop)
    as (s' & E & V & _). exists s', (computed_result (records_ s) (clock (ticks w)) (op_request (OpCreate (re_name e) (re_owner e) (re_type e) (re_value e)))).
  split; [exact E|]. split; [|exact V]. unfold computed_result. cbn [op_request]. by case_bool_decide.
Qed.

Lemma refresh_at w e s :
  services w !! nsNodeId e = Some s -> nc_stopping (slot w) = false ->
  exists s' result, refresh_existing w e
      = (Some result, mkWorld (<[nsNodeId e := s']> (services w)) (S (ticks w)) (mkCall false None false))
    /\ refreshMissing (Some result) = negb (bool_decide (is_Some (view_of_records (records_ s) !! entryKey e)))
    /\ view_of_records (records_ s') = alter (fun p => (p.1, ttl (ticks w))) (entryKey e) (view_of_records (records_ s)).
Proof.
  intros Hs Hstop. destruct (call_op w (nsNodeId e) (OpRefresh (re_name e) (re_owner e) (re_type e)) s Hs Hstop)
    as (s' & E & V & _). exists s', (computed_result (records_ s) (clock (ticks w)) (op_request (OpRefresh (re_name e) (re_owner e) (re_type e)))).
  split; [exact E|]. split; [|exact V]. unfold computed_result. cbn [op_request]. change (request_key _) with (entryKey e).
  by case_bool_decide.
Qed.

Lemma entry_present reregister w failed e s :
  services w !! nsNodeId e = Some s -> nc_stopping (slot w) = false ->
  exists w', refresh_entry create_entry refresh_existing reregister w failed e = (w', failed)
    /\ round_effect reregister [e] w w'.
Proof.
  intros Hs Hstop. unfold refresh_entry. case_bool_decide as Hin.
  - destruct (create_at w e s Hs Hstop) as (s' & result & -> & -> & V). eexists. split; [done|].
    destruct (view_of_records (records_ s) !! entryKey e) as [[v0 x0]|] eqn:Hk.
    + apply (one_entry_effect _ e w s); try done; [cbn; lia|by intros; rewrite V|]. rewrite V, Hk. apply refreshed_one.
      by rewrite decide_True.
    + apply (one_entry_effect _ e w s); try done; [cbn; lia|by intros; rewrite V, lookup_insert_ne|].
      rewrite V, Hk, lookup_insert_eq. apply refreshed_one. split; [done|]. exists (ticks w). split; [lia|done].
  - destruct (refresh_at w e s Hs Hstop) as (s1 & result & -> & Hm & V1). rewrite Hm.
    destruct (view_of_records (records_ s) !! entryKey e) as [[v0 x0]|] eqn:Hk.
    + rewrite bool_decide_true by done. eexists. split; [done|].
      apply (one_entry_effect _ e w s); try done; [cbn; lia|by intros; rewrite V1, lookup_alter_ne|].
      rewrite V1, lookup_alter_eq, Hk. apply refreshed_one. split; [done|]. rewrite decide_False by done.
      exists (ticks w). split; [lia|done].
    + rewrite bool_decide_false by (by intros [? ?]). cbn [negb]. set (w1 := mkWorld _ _ _).
      destruct (create_at w1 e s1) as (s' & result' & -> & -> & V); [apply lookup_insert_eq|done|]. eexists. split; [done|].
      unfold w1. cbn [services ticks]. rewrite insert_insert_eq.
      rewrite alter_id in V1 by (intros ?; by rewrite Hk). rewrite V1, Hk in V.
      apply (one_entry_effect _ e w s); try done; [cbn; lia|by intros; rewrite V, lookup_insert_ne|].
      rewrite V, Hk, lookup_insert_eq. apply refreshed_one. split; [done|]. exists (S (ticks w)). split; [lia|done].
Qed.

Lemma entry_absent reregister w failed e :
  services w !! nsNodeId e = None ->
  exists w', refresh_entry create_entry refresh_existing reregister w failed e = (w', {[nsNodeId e]} ∪ failed)
    /\ round_effect reregister [e] w w'.
Proof.
  intros Hs.
  assert (Hq : forall w', services w' = services w -> nc_stopping (slot w') = nc_stopping (slot w) -> (ticks w <= ticks w')%nat ->
    round_effect reregister [e] w w').
  { intros w' E1 E2 E3. split; [done|]. split; [done|]. intros n. unfold database. rewrite E1.
    destruct (services w !! n) as [s|] eqn:Hn; cbn; [|done]. eexists. split; [done|]. intros k. left. split; [|done].
    apply Forall_singleton. intros [<- _]. congruence. }
  unfold refresh_entry. case_bool_decide.
  - unfold create_entry. rewrite call_absent by done. eexists. split; [done|]. apply Hq; cbn; [done..|lia].
  - unfold refresh_existing, create_entry. rewrite call_absent by done. cbn [refreshMissing].
    rewrite call_absent by done. eexists. split; [done|]. apply Hq; cbn; [done..|lia].
Qed.

Lemma round_effect_reachable reregister entries w w' n :
  round_effect reregister entries w w' -> services w' !! n = None <-> services w !! n = None.
Proof.
  intros (_ & _ & H). specialize (H n). unfold database in H. destruct (services w !! n); cbn in H.
  - destruct H as (db & H & _). by destruct (services w' !! n).
  - by destruct (services w' !! n).
Qed.

Lemma round_spec reregister w failed entries :
  nc_stopping (slot w) = false ->
  let '(w', failed') := refresh_round create_entry refresh_existing reregister w failed entries in
  round_effect reregister entries w w'
  /\ forall n, n ∈ failed' <-> n ∈ failed \/ (services w !! n = None /\ Exists (fun e => nsNodeId e = n) entries).
Proof.
  revert w failed. induction entries as [|e entries IH]; intros w failed Hstop; cbn [refresh_round].
  { split; [apply round_effect_nil|]. intros n. rewrite Exists_nil. tauto. }
  assert (He : exists w1, refresh_entry create_entry refresh_existing reregister w failed e
      = (w1, if services w !! nsNodeId e is Some _ then failed else {[nsNodeId e]} ∪ failed) /\ round_effect reregister [e] w w1).
  { destruct (services w !! nsNodeId e) as [s|] eqn:Hs; [by eapply entry_present|by apply entry_absent]. }
  destruct He as (w1 & -> & R). specialize (IH w1 (if services w !! nsNodeId e is Some _ then failed else {[nsNodeId e]} ∪ failed)).
  destruct (refresh_round _ _ _ _ _ _) as [w' failed']. destruct IH as [R' F]; [by rewrite (proj1 R)|]. split.
  - exact (round_effect_app _ [e] _ _ _ _ R R').
  - intros n. rewrite F, Exists_cons. rewrite (round_effect_reachable _ _ _ _ n R).
    destruct (services w !! nsNodeId e) eqn:Hs; rewrite ?elem_of_union, ?elem_of_singleton.
    + split; [intros [?|[? ?]]|intros [?|[? [<-|?]]]]; auto. congruence.
    + split; [intros [[->|?]|[? ?]]|intros [?|[? [->|?]]]]; auto.
Qed.

(** ** Results in terms of the specification *)
Lemma id_field_stands_for field unread : stands_for unread field (id_field (Some field) unread).
Proof.
  unfold stands_for, id_field. destruct (nodeIdFromSourceField field) as [g|] eqn:E; cbn [default].
  - apply nodeIdFromSourceField_inv in E as (Hl & Hg & _). by rewrite decide_True.
  - unfold nodeIdFromSourceField in E. destruct (Nat.eqb_spec (List.length field) 16) as [|Hl]; [done|]. by rewrite decide_False.
Qed.

Lemma proto_shows unread e : shows unread e (nameRecordFromProto unread (proto_of e)).
Proof. destruct e as [[[n o] t] [v x]]. cbn. repeat (split; [first [done|apply id_field_stands_for]|]). done. Qed.

Lemma protos_show es : shows_all es (imap (fun i => nameRecordFromProto (rec i)) (proto_of <$> es)).
Proof.
  split; [by rewrite length_imap, length_fmap|]. intros i e c He. rewrite list_lookup_imap, list_lookup_fmap, He. cbn.
  intros [= <-]. apply proto_shows.
Qed.

Context `{SL : !StdSortLaws Sort}.

Lemma computed_result_spec s now r :
  names_inv s -> spec_result (view_of_records (records_ s)) now r (computed_result (records_ s) now r).
Proof.
  intros I. unfold spec_result, computed_result. destruct r as [q|q|q|q|q|q]; try done.
  - destruct (name_lookup_exact s now q (NameQueryRequest.mk None None None 0) I) as [(es & He & ->) _].
    exists es. split; [done|]. split; [done|]. split; [done|]. apply protos_show.
  - destruct (name_lookup_exact s now (NameReadRequest.mk [] None None) q I) as [_ (es & He & ->)].
    exists es. split; [done|]. split; [done|]. split; [done|]. apply protos_show.
Qed.

(** ** Properties *)

(** C18.  The wrappers reach the database.  A call of any of the six wrappers at a name
    service that is there and whose records are filed under their keys (as in every
    state it reaches) returns the result the specification gives on the abstract map of
    the service: the status and message of a creation, update, deletion or refresh; for
    a read or a query one record for each entry that is asked for, the longest lived
    first, with the name, owner, type, value and expiry of the entry (an id that is not
    stored in 16 bytes is not read).  The database of that service changes as the
    specification says for the request, it stays well-formed, and no other service
    changes. *)
Theorem remote_names w n op s :
  services w !! n = Some s -> names_inv s -> nc_stopping (slot w) = false ->
  exists s' result, call w n (op_message n op)
      = (Some result, mkWorld (<[n := s']> (services w)) (S (ticks w)) (mkCall false None false))
    /\ spec_result (view_of_records (records_ s)) (clock (ticks w)) (op_request op) result
    /\ view_of_records (records_ s') = spec_db (clock (ticks w)) (op_request op) (view_of_records (records_ s))
    /\ names_inv s'.
Proof.
  intros Hs I Hstop. destruct (call_op w n op s Hs Hstop) as (s' & -> & V & K). eexists s', _. split; [done|].
  split; [by apply computed_result_spec|]. split; [done|by apply K].
Qed.

(** C19.  Registered names survive.  After a round of the refresh thread every key that
    was registered at a name service that is there is in the database of that
    service: it has the value it had, or a registered one if it was lost, and a new
    time to live, except where it was there and is only created again.  Nothing else
    in any database changes.  The services to retry soon are exactly the ones that
    did not answer. *)
Theorem registered_names_survive peers r entries reregister subs r' w :
  refresh_take me peers r = Some (entries, reregister, subs, r') -> nc_stopping (slot w) = false ->
  let '(w', failed) := refresh_round create_entry refresh_existing reregister w (failedRegistrations_ r') entries in
  round_effect (pendingReregistrations_ r ∪ failedRegistrations_ r) (refreshRegistrations_ r) w w'
  /\ forall n, n ∈ failed <-> services w !! n = None /\ Exists (fun e => nsNodeId e = n) (refreshRegistrations_ r).
Proof.
  unfold refresh_take. destruct (refreshStopping_ r); [done|]. intros [= <- <- _ <-] Hstop. cbn [failedRegistrations_].
  pose proof (round_spec (pendingReregistrations_ r ∪ failedRegistrations_ r) w ∅ (refreshRegistrations_ r) Hstop) as R.
  destruct (refresh_round _ _ _ _ _ _) as [w' failed]. destruct R as [R F]. split; [done|]. intros n. rewrite F, elem_of_empty. tauto.
Qed.

(** The event of the resource manager for a node that has connected. *)
Context `{E : EventTypes} (event_parses : parses NodeConnectedEvent.t) (event_url : expectedUrl NodeConnectedEvent.t = connectedUrl).

Lemma isKnownNS_spec r n : isKnownNS r n = true <-> Exists (fun e => nsNodeId e = n) (refreshRegistrations_ r).
Proof.
  unfold isKnownNS. rewrite existsb_exists, Exists_exists. split; intros (e & H1 & H2); exists e.
  - split; [by apply list_elem_of_In|by apply bool_decide_eq_true in H2].
  - split; [by apply list_elem_of_In|by apply bool_decide_eq_true].
Qed.

Lemma handleLogRecord_connected r m n identity sm id sub now :
  GUID_wf n ->
  RSPMessage.core_message m
  = RSPMessage.core_message (envelope sm (eventRecord (NodeConnectedEvent.mk (Some (toProtoNodeId n)) (Some identity))) id sub now) ->
  handleLogRecord r m = nodeConnected r n (value_or_empty (Identity.boot_id identity)).
Proof.
  intros Hn Hm. unfold handleLogRecord. rewrite Hm.
  cbn -[toProtoNodeId nodeIdFromSourceField nodeConnected]. rewrite event_url, bool_decide_true, event_parses by done.
  cbn -[toProtoNodeId nodeIdFromSourceField nodeConnected].
  by rewrite nodeIdFromSourceField_toProto.
Qed.

Lemma known_connected_pending r n boot :
  isKnownNS r n = true -> nsBootIds_ r !! n <> Some boot ->
  let r' := (nodeConnected r n boot).2 in
  n ∈ pendingReregistrations_ r' /\ refreshRegistrations_ r' = refreshRegistrations_ r /\ refreshStopping_ r' = refreshStopping_ r.
Proof.
  intros Hk Hb. unfold nodeConnected. rewrite Hk, (bool_decide_false (nsBootIds_ r !! n = Some boot)) by done. cbn [negb andb].
  unfold lifecycleConnected. destruct (_ && _); cbn; (split; [set_solver|done]).
Qed.

(** A restarted name service gets its names back.  When the resource manager
    reports that a known name service has connected with a boot id that is not the one
    known, the next round of the refresh thread puts every name that is registered
    there and that the service has lost into its database, with a registered value and
    a new time to live, and does not count the service as failed. *)
Theorem restarted_service_recovers peers r m identity sm id sub now e w s :
  GUID_wf (nsNodeId e) -> e ∈ refreshRegistrations_ r -> refreshStopping_ r = false ->
  RSPMessage.core_message m
  = RSPMessage.core_message
      (envelope sm (eventRecord (NodeConnectedEvent.mk (Some (toProtoNodeId (nsNodeId e))) (Some identity))) id sub now) ->
  nsBootIds_ r !! nsNodeId e <> Some (value_or_empty (Identity.boot_id identity)) ->
  services w !! nsNodeId e = Some s -> nc_stopping (slot w) = false -> view_of_records (records_ s) !! entryKey e = None ->
  exists entries reregister subs r', refresh_take me peers (handleLogRecord r m).2 = Some (entries, reregister, subs, r')
    /\ let '(w', failed) := refresh_round create_entry refresh_existing reregister w (failedRegistrations_ r') entries in
       ~ (nsNodeId e ∈ failed)
       /\ exists db e' i, database w' (nsNodeId e) = Some db /\ (ticks w <= i < ticks w')%nat
         /\ e' ∈ refreshRegistrations_ r /\ nsNodeId e' = nsNodeId e /\ entryKey e' = entryKey e
         /\ db !! entryKey e = Some (toProtoUuid (re_value e'), ttl i).
Proof.
  intros Hwf He Hrun Hm Hboot Hs Hstop Hlost. rewrite (handleLogRecord_connected _ _ _ _ _ _ _ _ Hwf Hm).
  assert (Hk : isKnownNS r (nsNodeId e) = true) by (apply isKnownNS_spec, Exists_exists; by exists e).
  destruct (known_connected_pending r _ _ Hk Hboot) as (Hp & Hregs & Hrun').
  destruct (nodeConnected r _ _) as [events r1]. cbn [snd] in *. unfold refresh_take. rewrite Hrun', Hrun.
  do 4 eexists. split; [done|]. cbn [failedRegistrations_]. rewrite Hregs.
  pose proof (round_spec (pendingReregistrations_ r1 ∪ failedRegistrations_ r1) w ∅ (refreshRegistrations_ r) Hstop) as R.
  destruct (refresh_round _ _ _ _ _ _) as [w' failed]. destruct R as [(_ & _ & R) F]. split; [rewrite F, elem_of_empty, Hs; by intros [?|[? _]]|].
  specialize (R (nsNodeId e)). unfold database in R |- *. rewrite Hs in R. cbn in R. destruct R as (db & Hdb & R).
  exists db. destruct (R (entryKey e)) as [[Hno _]|(_ & v & x & Hv & Hx)].
  - rewrite Forall_forall in Hno. destruct (Hno e He). by split.
  - rewrite Hlost in Hx. destruct Hx as [Hx (i & Hi & ->)]. apply Exists_exists in Hx as (e' & He' & [Hn Hk'] & ->).
    by exists e', i.
Qed.
End World.

(** ** Nodes that come and go *)
Inductive NodeLog := LogConnected (n : NodeID) (bootId : bytes) | LogDisconnected (n : NodeID).

Definition log_event (r : Registrations) (x : NodeLog) : list NodeEvent * Registrations :=
  match x with LogConnected n bootId => nodeConnected r n bootId | LogDisconnected n => nodeDisconnected r n end.

Definition after_log (r : Registrations) (history : list NodeLog) : Registrations := foldl (fun r x => (log_event r x).2) r history.

(** The boot id with which a node is connected, after a history. *)
Definition connected_as (n : NodeID) (current : option bytes) (x : NodeLog) : option bytes :=
  match x with
  | LogConnected m bootId => if decide (m = n) then Some bootId else current
  | LogDisconnected m => if decide (m = n) then None else current
  end.

Definition same_settings (r r' : Registrations) : Prop :=
  refreshRegistrations_ r' = refreshRegistrations_ r /\ has_onConnected r' = has_onConnected r
  /\ has_onDisconnected r' = has_onDisconnected r /\ has_nodeConnectedCallback r' = has_nodeConnectedCallback r.

Lemma same_known r r' n : same_settings r r' -> isKnownNS r' n = isKnownNS r n.
Proof. intros (E & _). unfold isKnownNS. by rewrite E. Qed.

Lemma log_event_settings r x : same_settings r (log_event r x).2.
Proof.
  destruct x; cbn; [|done]. unfold nodeConnected, lifecycleConnected.
  repeat match goal with |- context [if ?b then _ else _] => destruct b end; done.
Qed.

(** [lifecycleBootIds_] holds the nodes that are connected, name services with
    registrations aside. *)
Lemma log_event_boot_ids r x n :
  has_onConnected r = true -> isKnownNS r n = false ->
  lifecycleBootIds_ (log_event r x).2 !! n = connected_as n (lifecycleBootIds_ r !! n) x.
Proof.
  intros Hc Hn. destruct x as [m b|m]; cbn [log_event connected_as].
  - assert (Hl : forall r', has_onConnected r' = true -> lifecycleBootIds_ r' = lifecycleBootIds_ r ->
      lifecycleBootIds_ (lifecycleConnected r' m b).2 !! n = if decide (m = n) then Some b else lifecycleBootIds_ r !! n).
    { intros r' E1 E2. unfold lifecycleConnected. rewrite E1, E2. cbn [andb]. destruct (lifecycleBootIds_ r !! m) as [b0|] eqn:Hm.
      - case_bool_decide as Hb; cbn [negb orb]; [|cbn; case_decide; subst; [by rewrite lookup_insert_eq|by rewrite lookup_insert_ne]].
        subst b0. case_bool_decide; cbn; rewrite ?E2; case_decide; subst; try done; [by rewrite lookup_insert_eq|by rewrite lookup_insert_ne].
      - cbn. rewrite ?E2. case_decide; subst; [by rewrite lookup_insert_eq|by rewrite lookup_insert_ne]. }
    unfold nodeConnected. destruct (isKnownNS r m) eqn:Hm; cbn [negb].
    + assert (m <> n) by congruence. destruct (_ && _); [by rewrite decide_False|]. by apply Hl.
    + pose proof (Hl r Hc eq_refl) as Hl'. destruct (lifecycleConnected r m b). exact Hl'.
  - cbn. case_decide; subst; [by rewrite lookup_delete_eq|by rewrite lookup_delete_ne].
Qed.

Lemma after_log_spec history r n :
  has_onConnected r = true -> isKnownNS r n = false ->
  same_settings r (after_log r history)
  /\ lifecycleBootIds_ (after_log r history) !! n = foldl (connected_as n) (lifecycleBootIds_ r !! n) history.
Proof.
  revert r. induction history as [|x history IH]; intros r Hc Hn; [done|]. cbn [after_log foldl].
  pose proof (log_event_settings r x) as S. destruct (IH (log_event r x).2) as [S' IH'].
  - by rewrite (proj1 (proj2 S)).
  - by rewrite (same_known _ _ _ S).
  - split; [|by rewrite <- log_event_boot_ids]. destruct S as (A1 & A2 & A3 & A4), S' as (B1 & B2 & B3 & B4). unfold same_settings.
    unfold after_log in *. rewrite B1, B2, B3, B4. done.
Qed.

(** Nodes are announced once per boot.  After any history of connections and
    disconnections, a connection of a node that is no name service of the client calls
    onConnected, once and for that node, unless the node is already connected with
    the same non-empty boot id; a disconnection calls onDisconnected. *)
Theorem connections_announced history r n bootId :
  has_onConnected r = true -> has_onDisconnected r = true -> has_nodeConnectedCallback r = false ->
  isKnownNS r n = false -> lifecycleBootIds_ r = ∅ ->
  let current := foldl (connected_as n) None history in
  (log_event (after_log r history) (LogConnected n bootId)).1
  = (if bool_decide (current = Some bootId /\ bootId <> []) then [] else [OnConnected n])
  /\ (log_event (after_log r history) (LogDisconnected n)).1 = [OnDisconnected n].
Proof.
  intros Hc Hd Hcb Hn H0 current. destruct (after_log_spec history r n Hc Hn) as [S B]. rewrite H0, lookup_empty in B.
  pose proof (same_known _ _ n S) as Hk. destruct S as (_ & S1 & S2 & S3). cbn. rewrite S2, Hd. split; [|done].
  unfold nodeConnected, lifecycleConnected. rewrite Hk, Hn, S3, Hcb, S1, Hc, B. fold current. cbn [negb andb].
  destruct current as [b|]; [|by rewrite bool_decide_false by (by intros [? _])].
  destruct (decide (b = bootId)) as [->|Hb].
  - rewrite (bool_decide_true (bootId = bootId)) by done. cbn [negb orb]. case_bool_decide as Hb.
    + rewrite bool_decide_false; [done|]. by intros [_ ?].
    + by rewrite bool_decide_true.
  - rewrite (bool_decide_false (b = bootId)) by done. cbn. rewrite bool_decide_false; [done|]. by intros [[= ?] _].
Qed.

(** Finding.  The boot id of a lost connection is erased so that the next connection
    is announced; for a name service with registrations that reconnects with its boot
    id it is not, since the check of [nsBootIds_] returns first. *)
Theorem reconnected_service_not_announced r n bootId :
  isKnownNS r n = true -> bootId <> [] -> nsBootIds_ r !! n = Some bootId ->
  log_event (nodeDisconnected r n).2 (LogConnected n bootId) = ([], (nodeDisconnected r n).2).
Proof.
  intros Hk Hb Hn. cbn [log_event nodeDisconnected snd]. set (r' := set_boot_ids _ _ _ _).
  unfold nodeConnected. change (isKnownNS r' n) with (isKnownNS r n). change (nsBootIds_ r') with (nsBootIds_ r).
  rewrite Hk. cbn [negb]. by rewrite bool_decide_true, bool_decide_false.
Qed.

(** Finding.  The periodic renewal of the subscriptions adds new ones: when the request
    of [sendLogSubscribeToRM] is repeated before the first subscription is over, the
    resource manager keeps both, so every event arrives once for each, and the
    handler calls onDisconnected each time. *)
Theorem renewed_subscriptions_add_up sm first second now now' me rm r n :
  first <> second -> subscriptions_ sm !! first = None -> subscriptions_ sm !! second = None ->
  forall request, RSPMessage.core_message (subscription me rm disconnectedUrl) = Some (LogSubscribeRequestMessage request) ->
  let sm' := (subscribe (subscribe sm first me request now).2 second me request now').2 in
  is_Some (subscriptions_ sm' !! first) /\ is_Some (subscriptions_ sm' !! second)
  /\ (has_onDisconnected r = true ->
      (log_event r (LogDisconnected n)).1 ++ (log_event (log_event r (LogDisconnected n)).2 (LogDisconnected n)).1
      = [OnDisconnected n; OnDisconnected n]).
Proof.
  intros Hne H1 H2 request [= <-]. cbn zeta.
  assert (Hs : forall sm id t, exists sub, subscriptions_ (subscribe sm id me (LogSubscribeRequest.mk disconnectedUrl
    (Some (Leaf (FieldExists (Some [bs "node_id"])))) 300000) t).2 = Logging.emplace (subscriptions_ sm) id sub) by (intros; by eexists).
  destruct (Hs (subscribe sm first me (LogSubscribeRequest.mk disconnectedUrl
    (Some (Leaf (FieldExists (Some [bs "node_id"])))) 300000) now).2 second now') as [sub2 ->].
  destruct (Hs sm first now) as [sub1 ->]. unfold Logging.emplace. rewrite H1, lookup_insert_ne, H2 by done.
  rewrite lookup_insert_ne, !lookup_insert_eq by done. split; [done|]. split; [done|]. intros Hd. cbn. by rewrite Hd.
Qed.

(** Finding.  All calls share one slot: when a thread calls while another one waits,
    as the refresh thread may at any time, the first reply, whichever call it answers,
    is what the thread that wakes up first returns; the other thread gets nothing, and
    the second reply is dropped. *)
Theorem name_calls_share_a_slot rec c reply1 reply2 :
  nc_stopping c = false ->
  let c2 := handleNameServiceReply rec (nameRequest_begin (nameRequest_begin c)) reply1 in
  (nameRequest_end c2).1 = Some (nameResultFromReply rec reply1)
  /\ (nameRequest_end (nameRequest_end c2).2).1 = None
  /\ handleNameServiceReply rec c2 reply2 = c2.
Proof. intros Hs. unfold nameRequest_end. cbn. by rewrite Hs. Qed.

(** Finding.  A reply is matched with nothing: whoever sends it and whatever kind of
    reply it is, it completes the call that waits. *)
Theorem name_replies_not_matched rec c m m' :
  RSPMessage.service_message m' = RSPMessage.service_message m ->
  handleNameServiceReply rec c m' = handleNameServiceReply rec c m
  /\ (nameReplyPending_ c = true -> nc_stopping c = false ->
      (nameRequest_end (handleNameServiceReply rec c m)).1 = Some (nameResultFromReply rec m)).
Proof.
  intros E. unfold handleNameServiceReply. rewrite (service_result rec m m' E). split; [done|]. intros -> Hs.
  unfold nameRequest_end. cbn. by rewrite Hs.
Qed.
End Names.

(** ** Witnesses *)
#[local] Existing Instance x86_math.
#[local] Existing Instance merge_sort_by_expiry.
#[local] Existing Instance merge_sort_by_expiry_laws.

#[local] Instance name_record_eq_dec : EqDecision NameRecord.t.
Proof. solve_decision. Defined.
#[local] Instance name_record_countable : Countable NameRecord.t.
Proof.
  refine (inj_countable' (fun r : NameRecord.t => let (a, b, c, d, e) := r in (a, (b, (c, (d, e)))))
            (fun '(a, (b, (c, (d, e)))) => NameRecord.mk a b c d e) _).
  by intros [].
Defined.

(** A codec of messages from one for tuples of their fields. *)
Definition via {T U : Type} `{Countable U} (name : string) (f : T -> U) (g : U -> T) : ServiceMessageType T :=
  {| full_name := name; serialize_message := fun x => pos_bytes (encode (f x));
     parse_message := fun b => g <$> decode (bytes_pos b) |}.

Lemma via_parses {T U : Type} `{Countable U} name (f : T -> U) g :
  (forall x, g (f x) = x) -> @parses T (via name f g).
Proof. intros Hg x. cbn. rewrite bytes_pos_bytes, decode_encode. cbn. by rewrite Hg. Qed.

#[local] Instance name_messages : NameMessages := {|
  nm_create := via "rsp.proto.NameCreateRequest" NameCreateRequest.record NameCreateRequest.mk;
  nm_create_reply := via "rsp.proto.NameCreateReply" (fun r => (NameCreateReply.status r, NameCreateReply.message r))
                       (fun '(a, b) => NameCreateReply.mk a b);
  nm_read := via "rsp.proto.NameReadRequest" (fun r => (NameReadRequest.name r, (NameReadRequest.owner r, NameReadRequest.type r)))
               (fun '(a, (b, c)) => NameReadRequest.mk a b c);
  nm_read_reply := via "rsp.proto.NameReadReply" (fun r => (NameReadReply.status r, NameReadReply.records r))
                     (fun '(a, b) => NameReadReply.mk a b);
  nm_update := via "rsp.proto.NameUpdateRequest"
                 (fun r => (NameUpdateRequest.name r, (NameUpdateRequest.owner r, (NameUpdateRequest.type r, NameUpdateRequest.new_value r))))
                 (fun '(a, (b, (c, d))) => NameUpdateRequest.mk a b c d);
  nm_update_reply := via "rsp.proto.NameUpdateReply" (fun r => (NameUpdateReply.status r, NameUpdateReply.message r))
                       (fun '(a, b) => NameUpdateReply.mk a b);
  nm_delete := via "rsp.proto.NameDeleteRequest"
                 (fun r => (NameDeleteRequest.name r, (NameDeleteRequest.owner r, NameDeleteRequest.type r)))
                 (fun '(a, (b, c)) => NameDeleteRequest.mk a b c);
  nm_delete_reply := via "rsp.proto.NameDeleteReply" (fun r => (NameDeleteReply.status r, NameDeleteReply.message r))
                       (fun '(a, b) => NameDeleteReply.mk a b);
  nm_query := via "rsp.proto.NameQueryRequest"
                (fun r => (NameQueryRequest.name_prefix r, (NameQueryRequest.owner r, (NameQueryRequest.type r, NameQueryRequest.max_records r))))
                (fun '(a, (b, (c, d))) => NameQueryRequest.mk a b c d);
  nm_query_reply := via "rsp.proto.NameQueryReply" NameQueryReply.records NameQueryReply.mk;
  nm_refresh := via "rsp.proto.NameRefreshRequest"
                  (fun r => (NameRefreshRequest.name r, (NameRefreshRequest.owner r, NameRefreshRequest.type r)))
                  (fun '(a, (b, c)) => NameRefreshRequest.mk a b c);
  nm_refresh_reply := via "rsp.proto.NameRefreshReply" (fun r => (NameRefreshReply.status r, NameRefreshReply.message r))
                        (fun '(a, b) => NameRefreshReply.mk a b) |}.

#[local] Instance name_messages_laws : NameMessagesLaws name_messages.
Proof. split; [apply via_parses; by intros []..|]. apply (bool_decide_unpack _). vm_compute. exact I. Qed.

#[local] Instance name_events : EventTypes := {|
  ev_connected := via "rsp.proto.NodeConnectedEvent"
    (fun r => (NodeConnectedEvent.node_id r,
               (fun i => (Identity.nonce i, ((fun k => (PublicKey.algorithm k, PublicKey.public_key k)) <$> Identity.public_key i, Identity.boot_id i)))
                 <$> NodeConnectedEvent.identity r))
    (fun '(a, b) => NodeConnectedEvent.mk a
       ((fun '(n, (k, o)) => Identity.mk n ((fun '(x, y) => PublicKey.mk x y) <$> k) o) <$> b));
  ev_disconnected := via "rsp.proto.NodeDisconnectedEvent" NodeDisconnectedEvent.node_id NodeDisconnectedEvent.mk;
  ev_started := via "rsp.proto.NodeStartedEvent" (fun r => (NodeStartedEvent.node_id r, NodeStartedEvent.service_type r))
                  (fun '(a, b) => NodeStartedEvent.mk a b);
  ev_stopping := via "rsp.proto.NodeStoppingEvent" (fun r => (NodeStoppingEvent.node_id r, NodeStoppingEvent.service_type r))
                   (fun '(a, b) => NodeStoppingEvent.mk a b) |}.

Lemma connected_event_parses : parses NodeConnectedEvent.t.
Proof. apply via_parses. by intros [? [[? [[]|] ?]|]]. Qed.

(** A client with the id 7, the name service 5, and a network that sets the source. *)
Definition name_me : NodeID := mkGUID 7 7.
Definition name_srv : NodeID := mkGUID 5 5.
Definition name_clock (i : nat) : DateTime.t := DateTime.fromMillisecondsSinceEpoch (1000 * Z.of_nat i).
Definition name_rec (i : nat) : ClientNameRecord := mkNameRecord [] name_me name_me name_me (name_clock 0).
Definition name_transit (g : NodeID) (m : RSPMessage.t) : RSPMessage.t :=
  RSPMessage.mk (RSPMessage.destination m) (Some (toProtoNodeId g)) (RSPMessage.trace m) (RSPMessage.core_message m)
    (RSPMessage.service_message m) (RSPMessage.nonce m) None (RSPMessage.endorsements m) (RSPMessage.identities m)
    (RSPMessage.encrypted_fields m).
Definition name_push (m : RSPMessage.t) : bool := true.

Lemma name_transit_content g m : RSPMessage.service_message (name_transit g m) = RSPMessage.service_message m.
Proof. reflexivity. Qed.
Lemma name_transit_sender m : senderNodeIdFromMessage (name_transit name_me m) = Some name_me.
Proof. vm_compute. reflexivity. Qed.

(** The service has lost its records; the client has one registration. *)
Definition name_world : World := mkWorld {[name_srv := initial_names]} 1 (mkCall false None false).
Definition name_entry : RefreshEntry := mkEntry name_srv (bs "printer") name_me (mkGUID 1 1) (mkGUID 2 2).
Definition name_regs : Registrations :=
  mkRegistrations [name_entry] {[name_srv := bs "boot one"]} ∅ ∅ false true true ∅ true false true.

(** A service with one record, which the client reads. *)
Definition stored_service : NameService :=
  mkNames {[ (bs "printer", toProtoNodeId name_me, toProtoUuid (mkGUID 1 1)) :=
               mkStored (bs "printer") (toProtoNodeId name_me) (toProtoUuid (mkGUID 1 1)) (toProtoUuid (mkGUID 2 2))
                 (name_clock 9) ]} [] None.

Lemma stored_service_inv : names_inv stored_service.
Proof. split; [|constructor|done]. by apply map_Forall_singleton. Qed.

Lemma remote_names_witness :
  (call name_push name_me name_clock name_rec name_transit (mkWorld {[name_srv := stored_service]} 1 (mkCall false None false)) name_srv
     (op_message name_srv (OpRead (bs "printer") None (Some (mkGUID 1 1))))).1
  = Some (mkNameResult NAME_SUCCESS [] [mkNameRecord (bs "printer") name_me (mkGUID 1 1) (mkGUID 2 2) (name_clock 9)]).
Proof.
  destruct (remote_names name_push name_me name_clock name_rec name_transit name_transit_content name_transit_sender
    (mkWorld {[name_srv := stored_service]} 1 (mkCall false None false)) name_srv (OpRead (bs "printer") None (Some (mkGUID 1 1)))
    stored_service) as (s' & result & E & _); [reflexivity|apply stored_service_inv|reflexivity|].
  rewrite E. cbn [fst]. apply (f_equal fst) in E. cbn [fst] in E. rewrite <- E. vm_compute. reflexivity.
Defined.

Lemma registered_names_survive_witness :
  exists w' failed, refresh_round (create_entry name_push name_me name_clock name_rec name_transit)
      (refresh_existing name_push name_me name_clock name_rec name_transit) ∅ name_world ∅ [name_entry] = (w', failed)
    /\ round_effect name_clock ∅ [name_entry] name_world w' /\ ~ (name_srv ∈ failed).
Proof.
  pose proof (registered_names_survive name_push name_me name_clock name_rec name_transit name_transit_content name_transit_sender
    [] name_regs [name_entry] ∅ [] name_regs name_world eq_refl eq_refl) as H.
  destruct (refresh_round _ _ _ _ _ _) as [w' failed]. destruct H as [R F]. exists w', failed.
  split; [reflexivity|]. split; [exact R|]. rewrite F. by intros [? _].
Defined.

Definition new_boot : Identity.t := Identity.mk None None (Some (bs "boot two")).
Definition boot_message : RSPMessage.t :=
  envelope (SubscriptionManager_new (mkGUID 9 9))
    (eventRecord (NodeConnectedEvent.mk (Some (toProtoNodeId name_srv)) (Some new_boot))) (mkGUID 3 3)
    (mkSubscription name_me connectedUrl TrueValue (name_clock 9)) (name_clock 0).

Lemma restarted_service_recovers_witness :
  exists entries reregister subs r',
    refresh_take name_me [] (handleLogRecord name_regs boot_message).2 = Some (entries, reregister, subs, r')
    /\ let '(w', failed) := refresh_round (create_entry name_push name_me name_clock name_rec name_transit)
         (refresh_existing name_push name_me name_clock name_rec name_transit) reregister name_world (failedRegistrations_ r') entries in
       ~ (name_srv ∈ failed) /\ exists db, database w' name_srv = Some db /\ is_Some (db !! entryKey name_entry).
Proof.
  destruct (restarted_service_recovers name_push name_me name_clock name_rec name_transit name_transit_content name_transit_sender
    connected_event_parses eq_refl [] name_regs boot_message new_boot (SubscriptionManager_new (mkGUID 9 9)) (mkGUID 3 3)
    (mkSubscription name_me connectedUrl TrueValue (name_clock 9)) (name_clock 0) name_entry name_world initial_names)
    as (entries & reregister & subs & r' & E & H).
  - unfold GUID_wf, is_u64. cbn. lia.
  - by left.
  - reflexivity.
  - reflexivity.
  - vm_compute. congruence.
  - reflexivity.
  - reflexivity.
  - reflexivity.
  - exists entries, reregister, subs, r'. split; [exact E|]. destruct (refresh_round _ _ _ _ _ _) as [w' failed].
    destruct H as [Hf (db & e' & i & Hdb & _ & _ & _ & _ & Hk)]. split; [exact Hf|]. exists db. split; [exact Hdb|].
    rewrite Hk. by eexists.
Defined.

(** A printer that reconnects with its boot id and one that comes back after a loss. *)
Lemma connections_announced_witness :
  let printer := mkGUID 8 8 in
  (log_event (after_log name_regs [LogConnected printer (bs "b")]) (LogConnected printer (bs "b"))).1 = []
  /\ (log_event (after_log name_regs [LogConnected printer (bs "b"); LogDisconnected printer]) (LogConnected printer (bs "b"))).1
     = [OnConnected printer].
Proof.
  split.
  - rewrite (proj1 (connections_announced [LogConnected (mkGUID 8 8) (bs "b")] name_regs (mkGUID 8 8) (bs "b")
      eq_refl eq_refl eq_refl eq_refl eq_refl)). reflexivity.
  - rewrite (proj1 (connections_announced [LogConnected (mkGUID 8 8) (bs "b"); LogDisconnected (mkGUID 8 8)] name_regs (mkGUID 8 8)
      (bs "b") eq_refl eq_refl eq_refl eq_refl eq_refl)). reflexivity.
Defined.

Lemma reconnected_service_not_announced_witness :
  (log_event (nodeDisconnected name_regs name_srv).2 (LogConnected name_srv (bs "boot one"))).1 = [].
Proof. by rewrite (reconnected_service_not_announced name_regs name_srv (bs "boot one") eq_refl ltac:(done) eq_refl). Defined.
