(* ===== verification/Transports.v ===== *)
(** * common/transport: the TCP and the memory transport

    [TcpConnection] and [MemoryConnection] have the same code: a descriptor that
    sending and receiving threads copy and that [close] takes away.  The first part
    is the system of all connections of a process, in which the threads interleave;
    the operating system gives a new socket any descriptor that is not open.

    The second part is [MemoryTransport]: the registry of names and the transports
    that listen and connect under them.  The third part is [TcpTransport]: endpoints,
    the loop of [reconnect] and the thread that accepts connections. *)

From Stdlib Require Import SpecFloat.
From S2P Require Import Prelude BaseTypes DateTimes BsdSockets.

(** ** Connections *)
Module Descriptors.

Inductive IO := Sending | Receiving.
#[local] Instance IO_eq_dec : EqDecision IO.
Proof. solve_decision. Defined.

(** A call between its critical section and its system call. *)
Inductive Call :=
| Using (c : nat) (io : IO) (fd : nat)
| Closing (c : nat) (fd : nat).
#[local] Instance Call_eq_dec : EqDecision Call.
Proof. solve_decision. Defined.

(** [handles] are the [socketHandle_] of the connections, [None] for the invalid
    socket; [open] are the open descriptors with the connection each was made for;
    [performed] are the system calls with the connection whose socket they reached. *)
Record Sys := mkSys {
  handles : gmap nat (option nat);
  open : gmap nat nat;
  calls : list Call;
  performed : list (nat * IO * option nat);
  fresh : nat }.

Definition initial : Sys := mkSys ∅ ∅ [] [] 0.

Definition set_calls (s : Sys) (l : list Call) : Sys := mkSys (handles s) (open s) l (performed s) (fresh s).

(** A connection for a new socket with the descriptor [fd]. *)
Definition newConnection (s : Sys) (fd : nat) : option Sys :=
  match open s !! fd with
  | Some _ => None
  | None => Some (mkSys (<[fresh s := Some fd]> (handles s)) (<[fd := fresh s]> (open s)) (calls s) (performed s) (S (fresh s)))
  end.

Definition uses (c : nat) (io : IO) (x : Call) : bool :=
  match x with Using c' io' _ => bool_decide (c' = c /\ io' = io) | Closing _ _ => false end.

(** [send] and [recv] up to the system call; [sendMutex_] and [recvMutex_] exclude
    another call of the same kind.  Without a descriptor the call returns -1. *)
Definition io_begin (s : Sys) (c : nat) (io : IO) : option Sys :=
  match handles s !! c with
  | None => None
  | Some handle =>
      if existsb (uses c io) (calls s) then None
      else match handle with
           | None => Some s
           | Some fd => Some (set_calls s (Using c io fd :: calls s))
           end
  end.

Fixpoint remove_call (x : Call) (l : list Call) : list Call :=
  match l with [] => [] | y :: l' => if decide (y = x) then l' else y :: remove_call x l' end.

Definition io_end (s : Sys) (c : nat) (io : IO) (fd : nat) : option Sys :=
  if bool_decide (Using c io fd ∈ calls s)
  then Some (mkSys (handles s) (open s) (remove_call (Using c io fd) (calls s)) (performed s ++ [(c, io, open s !! fd)]) (fresh s))
  else None.

(** [close], which the destructor calls as well. *)
Definition close_begin (s : Sys) (c : nat) : option Sys :=
  match handles s !! c with
  | None => None
  | Some None => Some s
  | Some (Some fd) =>
      Some (mkSys (<[c := None]> (handles s)) (open s) (Closing c fd :: calls s) (performed s) (fresh s))
  end.

Definition close_end (s : Sys) (c fd : nat) : option Sys :=
  if bool_decide (Closing c fd ∈ calls s)
  then Some (mkSys (handles s) (delete fd (open s)) (remove_call (Closing c fd) (calls s)) (performed s) (fresh s))
  else None.

Inductive Action :=
| New (fd : nat)
| BeginIO (c : nat) (io : IO)
| EndIO (c : nat) (io : IO) (fd : nat)
| BeginClose (c : nat)
| EndClose (c fd : nat).

Definition act (s : Sys) (a : Action) : option Sys :=
  match a with
  | New fd => newConnection s fd
  | BeginIO c io => io_begin s c io
  | EndIO c io fd => io_end s c io fd
  | BeginClose c => close_begin s c
  | EndClose c fd => close_end s c fd
  end.

Definition step (s s' : Sys) : Prop := exists a, act s a = Some s'.

(** No connection is closed while one of its calls is under way. *)
Definition quiet (s : Sys) (c : nat) : bool := negb (existsb (fun x => match x with Using c' _ _ => Nat.eqb c' c | _ => false end) (calls s)).
Definition careful_step (s s' : Sys) : Prop :=
  exists a, act s a = Some s' /\ match a with BeginClose c => quiet s c = true | _ => True end.

Fixpoint run (s : Sys) (l : list Action) : option Sys :=
  match l with [] => Some s | a :: l' => match act s a with Some s' => run s' l' | None => None end end.

Lemma run_steps l s s' : run s l = Some s' -> rtc step s s'.
Proof.
  revert s. induction l as [|a l IH]; intros s; cbn; [intros [= ->]; constructor|].
  destruct (act s a) eqn:E; [|done]. intros H. eapply rtc_l; [by exists a|by apply IH].
Qed.

(** ** One owner for every descriptor *)
Definition closing_id (x : Call) : option nat := match x with Closing c _ => Some c | Using _ _ _ => None end.

Record owned (s : Sys) : Prop := {
  own_handle : forall c fd, handles s !! c = Some (Some fd) -> open s !! fd = Some c;
  own_closing : forall c fd, Closing c fd ∈ calls s -> handles s !! c = Some None /\ open s !! fd = Some c;
  own_open : forall c fd, open s !! fd = Some c -> handles s !! c = Some (Some fd) \/ Closing c fd ∈ calls s;
  own_fresh : forall c, is_Some (handles s !! c) -> (c < fresh s)%nat;
  own_once : NoDup (omap closing_id (calls s)) }.

Lemma remove_call_permutation x l : x ∈ l -> l ≡ₚ x :: remove_call x l.
Proof.
  induction l as [|y l IH]; [by intros ?%elem_of_nil|]. cbn. case_decide as Hy; [by subst|].
  intros [->|Hx]%elem_of_cons; [done|]. rewrite (IH Hx) at 1. apply perm_swap.
Qed.

Lemma remove_call_elem x y l : x ∈ l -> y ∈ l <-> y = x \/ y ∈ remove_call x l.
Proof. intros Hx. rewrite (remove_call_permutation x l Hx) at 1. apply elem_of_cons. Qed.

Lemma closing_id_elem c (l : list Call) : c ∈ omap closing_id l <-> exists fd, Closing c fd ∈ l.
Proof.
  rewrite list_elem_of_omap. split.
  - intros ([? ? ?|c' fd] & Hx & [= <-]). by exists fd.
  - intros [fd Hfd]. by exists (Closing c fd).
Qed.

Lemma newConnection_owned s fd s' : newConnection s fd = Some s' -> owned s -> owned s'.
Proof.
  unfold newConnection. destruct (open s !! fd) eqn:Hfd; [done|]. intros [= <-] [H1 H2 H3 H4 H5].
  assert (Hf : handles s !! fresh s = None).
  { destruct (handles s !! fresh s) eqn:E; [|done]. assert (fresh s < fresh s)%nat by (apply H4; by rewrite E). lia. }
  split; cbn.
  - intros c d. rewrite lookup_insert_Some. intros [[<- [= <-]]|[Hne Hc]]; [by rewrite lookup_insert_eq|].
    apply H1 in Hc. rewrite lookup_insert_ne; [done|congruence].
  - intros c d Hc. apply H2 in Hc as [Hh Ho]. split; rewrite lookup_insert_ne; congruence.
  - intros c d. rewrite lookup_insert_Some. intros [[<- <-]|[Hne Ho]]; [left; by rewrite lookup_insert_eq|].
    destruct (H3 _ _ Ho) as [Hc|Hc]; [left; rewrite lookup_insert_ne; [done|congruence]|by right].
  - intros c. rewrite lookup_insert_is_Some'. intros [<-|Hc]; [lia|]. apply H4 in Hc. lia.
  - done.
Qed.

Lemma io_begin_owned s c io s' : io_begin s c io = Some s' -> owned s -> owned s'.
Proof.
  unfold io_begin. destruct (handles s !! c) as [[fd|]|]; destruct (existsb (uses c io) (calls s)); try done; intros [= <-]; [|done].
  intros [H1 H2 H3 H4 H5]. split; cbn; try done.
  - intros c' d [?|Hc]%elem_of_cons; [done|]. by apply H2.
  - intros c' d Ho. destruct (H3 _ _ Ho); [by left|right; by apply elem_of_cons; right].
Qed.

Lemma io_end_owned s c io fd s' : io_end s c io fd = Some s' -> owned s -> owned s'.
Proof.
  unfold io_end. case_bool_decide as Hin; [|done]. intros [= <-] [H1 H2 H3 H4 H5]. split; cbn; try done.
  - intros c' d Hc. apply H2. apply (remove_call_elem _ _ _ Hin). by right.
  - intros c' d Ho. destruct (H3 _ _ Ho) as [|Hc]; [by left|]. right. by apply (remove_call_elem _ _ _ Hin) in Hc as [|].
  - rewrite (remove_call_permutation _ _ Hin) in H5. done.
Qed.

Lemma close_begin_owned s c s' : close_begin s c = Some s' -> owned s -> owned s'.
Proof.
  unfold close_begin. destruct (handles s !! c) as [[fd|]|] eqn:Hc; try done; intros [= <-]; [|done].
  intros [H1 H2 H3 H4 H5]. split; cbn.
  - intros c' d. rewrite lookup_insert_Some. intros [[_ ?]|[_ ?]]; [done|by apply H1].
  - intros c' d [[= -> ->]|Hc']%elem_of_cons; [split; [by rewrite lookup_insert_eq|by apply H1]|].
    apply H2 in Hc' as [Hh Ho]. split; [|done]. rewrite lookup_insert_ne; [done|congruence].
  - intros c' d Ho. destruct (H3 _ _ Ho) as [Hh|Hh]; [|right; by apply elem_of_cons; right].
    destruct (decide (c' = c)) as [->|Hne]; [right; rewrite Hc in Hh; injection Hh as ->; by left|].
    left. by rewrite lookup_insert_ne.
  - intros c'. rewrite lookup_insert_is_Some'. intros [<-|Hh]; [apply H4; by rewrite Hc|by apply H4].
  - apply NoDup_cons. split; [|done]. intros [d Hd]%closing_id_elem. apply H2 in Hd as [Hd _]. congruence.
Qed.

Lemma close_end_owned s c fd s' : close_end s c fd = Some s' -> owned s -> owned s'.
Proof.
  unfold close_end. case_bool_decide as Hin; [|done]. intros [= <-] [H1 H2 H3 H4 H5]. destruct (H2 _ _ Hin) as [Hh Ho].
  assert (Hnd : NoDup (c :: omap closing_id (remove_call (Closing c fd) (calls s)))).
  { rewrite (remove_call_permutation _ _ Hin) in H5. exact H5. }
  apply NoDup_cons in Hnd as [Hn Hnd]. split; cbn; try done.
  - intros c' d Hc'. pose proof (H1 _ _ Hc') as Hd. rewrite lookup_delete_ne; [done|]. congruence.
  - intros c' d Hc'. destruct (H2 c' d) as [Hh' Ho']; [apply (remove_call_elem _ _ _ Hin); by right|]. split; [done|].
    rewrite lookup_delete_ne; [done|]. intros <-. rewrite Ho in Ho'. injection Ho' as <-. apply Hn, closing_id_elem. eauto.
  - intros c' d. rewrite lookup_delete_Some. intros [Hne Hd]. destruct (H3 _ _ Hd) as [|Hc']; [by left|]. right.
    apply (remove_call_elem _ _ _ Hin) in Hc' as [[= -> ->]|]; done.
Qed.

Lemma descriptor_step_owned s s' : step s s' -> owned s -> owned s'.
Proof.
  intros [[fd|c io|c io fd|c|c fd] H]; [by eapply newConnection_owned|by eapply io_begin_owned|by eapply io_end_owned|
    by eapply close_begin_owned|by eapply close_end_owned].
Qed.

Lemma initial_owned : owned initial.
Proof.
  split; cbn; [by intros c fd H|by intros c fd H%elem_of_nil|by intros c fd H|by intros c [fd H]|constructor].
Qed.

Lemma steps_owned s : rtc step initial s -> owned s.
Proof. intros H. pose proof initial_owned as I. induction H as [|a b c Hab Hbc IH]; [done|]. by eapply IH, descriptor_step_owned. Qed.

Lemma closing_unique l c fd fd' : NoDup (omap closing_id l) -> Closing c fd ∈ l -> Closing c fd' ∈ l -> fd = fd'.
Proof.
  intros Hn H1 H2. rewrite (remove_call_permutation _ _ H1) in Hn. cbn in Hn. apply NoDup_cons in Hn as [Hn _].
  apply (remove_call_elem _ _ _ H1) in H2 as [[= ->]|H2]; [done|]. exfalso. apply Hn, closing_id_elem. eauto.
Qed.

(** Every descriptor has one owner.  Whatever the threads of a process do with its
    connections, the open descriptors are exactly those that a connection holds or
    that a call of [close] has taken from its connection, no connection has two, and a
    call of [close] closes the descriptor of its own connection: nothing is closed
    twice.  When all connections are closed and the calls have returned, no
    descriptor is left open. *)
Theorem descriptors_have_one_owner s :
  rtc step initial s ->
  (forall c fd, open s !! fd = Some c <-> handles s !! c = Some (Some fd) \/ Closing c fd ∈ calls s)
  /\ (forall c fd fd', open s !! fd = Some c -> open s !! fd' = Some c -> fd = fd')
  /\ (forall c fd s', act s (EndClose c fd) = Some s' -> open s !! fd = Some c /\ open s' = delete fd (open s))
  /\ (calls s = [] -> (forall c h, handles s !! c = Some h -> h = None) -> open s = ∅).
Proof.
  intros [H1 H2 H3 H4 H5]%steps_owned. split_and!.
  - intros c fd. split; [apply H3|]. intros [H|H]; [by apply H1|by apply H2].
  - intros c fd fd' [Ha|Ha]%H3 [Hb|Hb]%H3; [congruence| | |by eapply closing_unique].
    + apply H2 in Hb as [Hb _]. congruence.
    + apply H2 in Ha as [Ha _]. congruence.
  - intros c fd s'. cbn. unfold close_end. case_bool_decide as Hin; [|done]. intros [= <-]. split; [by apply H2|done].
  - intros Hc Hh. apply map_eq. intros fd. rewrite lookup_empty. destruct (open s !! fd) as [c|] eqn:E; [|done].
    destruct (H3 _ _ E) as [Ha|Ha]; [by apply Hh in Ha|]. rewrite Hc in Ha. by apply elem_of_nil in Ha.
Qed.

(** *** Where the bytes go *)
Record attentive (s : Sys) : Prop := {
  att_using : forall c io fd, Using c io fd ∈ calls s -> handles s !! c = Some (Some fd);
  att_performed : forall c io k, (c, io, k) ∈ performed s -> k = Some c }.

Lemma quiet_spec s c io fd : quiet s c = true -> Using c io fd ∈ calls s -> False.
Proof.
  unfold quiet. rewrite negb_true_iff. intros Hq Hin. enough (true = false) by done. rewrite <- Hq. symmetry.
  apply existsb_exists. exists (Using c io fd). split; [by apply list_elem_of_In|apply Nat.eqb_refl].
Qed.

Lemma careful_attentive s s' : careful_step s s' -> owned s -> attentive s -> attentive s'.
Proof.
  intros ([fd|c io|c io fd|c|c fd] & Ha & Hq) O [A1 A2]; cbn in Ha.
  - unfold newConnection in Ha. destruct (open s !! fd) eqn:E; [done|]. injection Ha as <-. split; cbn; [|done].
    intros c io d Hin. pose proof (A1 _ _ _ Hin) as Hh. rewrite lookup_insert_ne; [done|]. intros <-.
    pose proof (own_fresh s O (fresh s)) as Hf. rewrite Hh in Hf. specialize (Hf ltac:(by eexists)). lia.
  - unfold io_begin in Ha. destruct (handles s !! c) as [[fd|]|] eqn:Hh; destruct (existsb (uses c io) (calls s)); try done;
      injection Ha as <-; [|done]. split; cbn; [|done]. intros c' io' d [[= -> -> ->]|Hin]%elem_of_cons; [done|by eapply A1].
  - unfold io_end in Ha. case_bool_decide as Hin; [|done]. injection Ha as <-. split; cbn.
    + intros c' io' d Hin'. apply A1 with io'. apply (remove_call_elem _ _ _ Hin). by right.
    + intros c' io' k [Hk|[= -> -> ->]%list_elem_of_singleton]%elem_of_app; [by eapply A2|]. apply (own_handle s O), (A1 _ _ _ Hin).
  - unfold close_begin in Ha. destruct (handles s !! c) as [[fd|]|] eqn:Hh; try done; injection Ha as <-; [|done].
    split; cbn; [|done]. intros c' io d [[=]|Hin]%elem_of_cons. rewrite lookup_insert_ne; [by eapply A1|].
    intros <-. by eapply quiet_spec.
  - unfold close_end in Ha. case_bool_decide as Hin; [|done]. injection Ha as <-. split; cbn; [|done].
    intros c' io d Hin'. apply A1 with io. apply (remove_call_elem _ _ _ Hin). by right.
Qed.

(** As long as no connection is closed while one of its calls is under way, every
    system call reaches the socket of its own connection. *)
Theorem io_reaches_own_socket s c io k :
  rtc careful_step initial s -> (c, io, k) ∈ performed s -> k = Some c.
Proof.
  intros H. assert (I : owned initial /\ attentive initial).
  { split; [apply initial_owned|]. split; cbn; [by intros ? ? ? ?%elem_of_nil|by intros ? ? ? ?%elem_of_nil]. }
  enough (A : attentive s) by (by eapply att_performed). revert I. clear -H. induction H as [|a b d Hab Hbd IH]; [by intros [_ ?]|].
  intros [O A]. apply IH. split; [|by eapply careful_attentive]. destruct Hab as (x & Hx & _). eapply descriptor_step_owned; [by exists x|done].
Qed.

(** Finding.  [close] does not wait for [send] and [recv], which have copied the
    descriptor: when the operating system gives it to a new socket in between, the
    bytes of one connection are written to another one. *)
Theorem closed_descriptor_is_reused :
  exists s, rtc step initial s /\ (0%nat, Sending, Some 1%nat) ∈ performed s.
Proof.
  assert (H : exists s, run initial [New 3; BeginIO 0 Sending; BeginClose 0; EndClose 0 3; New 3; EndIO 0 Sending 3] = Some s
    /\ (0%nat, Sending, Some 1%nat) ∈ performed s) by (eexists; split; [reflexivity|by left]).
  destruct H as (s & Hr & Hp). exists s. split; [by eapply run_steps|done].
Qed.
End Descriptors.

(** ** The memory transport *)
Module MemoryTransports.

(** [newConnectionCallback_] is known by whether it is set. *)
Record MemoryTransport := mkTransport {
  listening_ : bool; registeredName_ : bytes; lastConnectName_ : bytes; activeConnection_ : option nat;
  newConnectionCallback_ : bool }.

(** [g_registry], the transports that exist, the connections with whether they are
    open, the socket pairs, and the calls of callbacks: listener and connection. *)
Record World := mkWorld {
  g_registry : gmap bytes nat;
  transports : gmap nat MemoryTransport;
  connections : gmap nat bool;
  pairs : list (nat * nat);
  notified : list (nat * nat);
  next_connection : nat }.

Definition initial : World := mkWorld ∅ ∅ ∅ [] [] 0.

Definition set_registry (w : World) r : World := mkWorld r (transports w) (connections w) (pairs w) (notified w) (next_connection w).
Definition set_transport (w : World) (t : nat) (T : MemoryTransport) : World :=
  mkWorld (g_registry w) (<[t := T]> (transports w)) (connections w) (pairs w) (notified w) (next_connection w).
Definition closeConnection (w : World) (c : option nat) : World :=
  match c with
  | Some c => mkWorld (g_registry w) (transports w) (<[c := false]> (connections w)) (pairs w) (notified w) (next_connection w)
  | None => w
  end.

(** Access to a transport that has been destroyed is undefined. *)
Definition object (w : World) (t : nat) : Res MemoryTransport :=
  match transports w !! t with Some T => Ok T | None => Undefined end.

(** *** The registry *)
Definition registerListener (w : World) (name : bytes) (t : nat) : bool * World :=
  match g_registry w !! name with
  | Some _ => (false, w)
  | None => (true, set_registry w (<[name := t]> (g_registry w)))
  end.
Definition unregisterListener (w : World) (name : bytes) : World := set_registry w (delete name (g_registry w)).
Definition findListener (w : World) (name : bytes) : option nat := g_registry w !! name.

(** *** Listening *)

(** The last critical section. *)
Definition listen_commit (w : World) (t : nat) (name : bytes) : Res (bool * World) :=
  T ← object w t;
  Ok (true, set_transport w t (mkTransport true name (lastConnectName_ T) (activeConnection_ T) (newConnectionCallback_ T))).

Definition listen_register (w : World) (t : nat) (name : bytes) : Res (bool * World) :=
  let '(ok, w') := registerListener w name t in
  if negb ok then Ok (false, w') else listen_commit w' t name.

Definition listen (w : World) (t : nat) (name : bytes) : Res (bool * World) :=
  T ← object w t; if listening_ T then Ok (false, w) else listen_register w t name.

Definition stopListening (w : World) (t : nat) : Res World :=
  T ← object w t;
  if negb (listening_ T) then Ok w
  else
    let name := registeredName_ T in
    let w' := set_transport w t (mkTransport false [] (lastConnectName_ T) (activeConnection_ T) (newConnectionCallback_ T)) in
    Ok (match name with [] => w' | _ => unregisterListener w' name end).

(** *** Connecting *)

(** Without a callback the connection is dropped, and its destructor closes it. *)
Definition notifyNewConnection (w : World) (listener server : nat) : Res World :=
  L ← object w listener;
  Ok (if newConnectionCallback_ L
      then mkWorld (g_registry w) (transports w) (connections w) (pairs w) (notified w ++ [(listener, server)]) (next_connection w)
      else closeConnection w (Some server)).

(** [createSocketPair]: the client's and the server's connection. *)
Definition newPair (w : World) : nat * nat * World :=
  let c := next_connection w in
  (c, S c, mkWorld (g_registry w) (transports w) (<[S c := true]> (<[c := true]> (connections w))) (pairs w ++ [(c, S c)])
             (notified w) (S (S c))).

(** [connect] with the listener that was found; [paired] tells whether the operating
    system made the paired. *)
Definition connect_to (w : World) (t : nat) (name : bytes) (listener : nat) (paired : bool) : Res (option nat * World) :=
  if negb paired then Ok (None, w)
  else
    let '(client, server, w1) := newPair w in
    w2 ← notifyNewConnection w1 listener server;
    T ← object w2 t;
    let w3 := set_transport w2 t (mkTransport (listening_ T) (registeredName_ T) name (Some client) (newConnectionCallback_ T)) in
    Ok (Some client, closeConnection w3 (activeConnection_ T)).

Definition connect (w : World) (t : nat) (name : bytes) (paired : bool) : Res (option nat * World) :=
  match findListener w name with
  | None => Ok (None, w)
  | Some listener => connect_to w t name listener paired
  end.

Definition reconnect (w : World) (t : nat) (paired : bool) : Res (option nat * World) :=
  T ← object w t;
  match lastConnectName_ T with [] => Ok (None, w) | name => connect w t name paired end.

Definition stopConnection (w : World) (t : nat) : Res World :=
  T ← object w t;
  Ok (closeConnection (set_transport w t (mkTransport (listening_ T) (registeredName_ T) (lastConnectName_ T) None
        (newConnectionCallback_ T))) (activeConnection_ T)).

Definition stop (w : World) (t : nat) : Res World := w1 ← stopListening w t; stopConnection w1 t.

(** The destructor. *)
Definition destroy (w : World) (t : nat) : Res World :=
  w1 ← stop w t;
  Ok (mkWorld (g_registry w1) (delete t (transports w1)) (connections w1) (pairs w1) (notified w1) (next_connection w1)).

Definition connection (w : World) (t : nat) : Res (option nat) := T ← object w t; Ok (activeConnection_ T).

(** *** Histories *)
Inductive Op :=
| Create (t : nat) | SetCallback (t : nat) (set : bool) | Listen (t : nat) (name : bytes) | Connect (t : nat) (name : bytes) (paired : bool)
| Reconnect (t : nat) (paired : bool) | Stop (t : nat) | Destroy (t : nat).

Definition create (w : World) (t : nat) : Res World :=
  match transports w !! t with Some _ => Undefined | None => Ok (set_transport w t (mkTransport false [] [] None false)) end.

Definition setNewConnectionCallback (w : World) (t : nat) (set : bool) : Res World :=
  T ← object w t;
  Ok (set_transport w t (mkTransport (listening_ T) (registeredName_ T) (lastConnectName_ T) (activeConnection_ T) set)).

Definition second {A} (r : Res (A * World)) : Res World := x ← r; Ok x.2.

Definition apply_op (w : World) (op : Op) : Res World :=
  match op with
  | Create t => create w t
  | SetCallback t set => setNewConnectionCallback w t set
  | Listen t name => second (listen w t name)
  | Connect t name paired => _ ← object w t; second (connect w t name paired)
  | Reconnect t paired => second (reconnect w t paired)
  | Stop t => stop w t
  | Destroy t => destroy w t
  end.

(** The caller holds the transport it calls, or makes a new one; names are not empty. *)
Definition allowed (w : World) (op : Op) : Prop :=
  match op with
  | Create t => transports w !! t = None
  | Listen t name => is_Some (transports w !! t) /\ name <> []
  | SetCallback t _ | Connect t _ _ | Reconnect t _ | Stop t | Destroy t => is_Some (transports w !! t)
  end.

Definition mem_step (w w' : World) : Prop := exists op, allowed w op /\ apply_op w op = Ok w'.

(** ** The registry is exact *)
Definition listener_view (w : World) (t : nat) : option (bool * bytes) :=
  (fun T => (listening_ T, registeredName_ T)) <$> transports w !! t.

Record registry_ok (w : World) : Prop := {
  reg_exact : forall name t, g_registry w !! name = Some t <-> listener_view w t = Some (true, name);
  reg_named : forall t, listener_view w t <> Some (true, []) }.

(** What does not touch names keeps the registry. *)
Definition same_listeners (w w' : World) : Prop :=
  g_registry w' = g_registry w /\ forall t, listener_view w' t = listener_view w t.

Lemma same_listeners_ok w w' : same_listeners w w' -> registry_ok w -> registry_ok w'.
Proof. intros [E V] [H1 H2]. split; intros; rewrite ?E, V; auto. Qed.

#[local] Instance same_listeners_trans : Transitive same_listeners.
Proof. intros a b c [E1 V1] [E2 V2]. split; [congruence|]. intros t. by rewrite V2, V1. Qed.

Lemma same_listeners_set w t T T' :
  transports w !! t = Some T -> listening_ T' = listening_ T -> registeredName_ T' = registeredName_ T ->
  same_listeners w (set_transport w t T').
Proof.
  intros Ht E1 E2. split; [done|]. intros t'. unfold listener_view, set_transport. cbn.
  destruct (decide (t' = t)) as [->|Hne]; [|by rewrite lookup_insert_ne]. rewrite lookup_insert_eq, Ht. cbn. by rewrite E1, E2.
Qed.

Lemma same_listeners_close w c : same_listeners w (closeConnection w c).
Proof. by destruct c. Qed.

Lemma object_ok w t T : transports w !! t = Some T -> object w t = Ok T.
Proof. unfold object. by intros ->. Qed.

Lemma object_set w t T : object (set_transport w t T) t = Ok T.
Proof. apply object_ok, lookup_insert_eq. Qed.

Lemma listener_object w t b name : listener_view w t = Some (b, name) -> exists T, transports w !! t = Some T /\ listening_ T = b /\ registeredName_ T = name.
Proof. unfold listener_view. destruct (transports w !! t) as [T|]; [|done]. cbn. intros [= <- <-]. by exists T. Qed.

Lemma same_listeners_object w w' t : same_listeners w w' -> is_Some (transports w !! t) -> is_Some (transports w' !! t).
Proof.
  intros [_ V] [T HT]. specialize (V t). unfold listener_view in V. rewrite HT in V. cbn in V. destruct (transports w' !! t); [by eexists|done].
Qed.

(** [connect] with a listener that exists. *)
Lemma connect_to_ok w t name l L paired :
  is_Some (transports w !! t) -> transports w !! l = Some L ->
  exists r w', connect_to w t name l paired = Ok (r, w') /\ same_listeners w w'.
Proof.
  intros Ht HL. unfold connect_to. destruct paired; cbn [negb]; [|by eexists _, _].
  destruct (newPair w) as [[c srv] w1] eqn:Hp.
  assert (S1 : same_listeners w w1 /\ transports w1 = transports w) by (by injection Hp as <- <- <-). destruct S1 as [S1 E1].
  unfold notifyNewConnection. rewrite (object_ok w1 l L) by (by rewrite E1). cbn [mbind res_bind].
  set (w2 := if newConnectionCallback_ L then _ else _).
  assert (S2 : same_listeners w1 w2 /\ transports w2 = transports w1).
  { unfold w2. destruct (newConnectionCallback_ L); done. }
  destruct S2 as [S2 E2]. destruct Ht as [T HT]. assert (HT2 : transports w2 !! t = Some T) by congruence.
  rewrite (object_ok w2 t T HT2). cbn [mbind res_bind]. eexists _, _. split; [done|].
  transitivity w1; [done|]. transitivity w2; [done|]. etrans; [|apply same_listeners_close]. by apply (same_listeners_set w2 t T).
Qed.

Lemma connect_ok w t name paired :
  registry_ok w -> is_Some (transports w !! t) ->
  exists r w', connect w t name paired = Ok (r, w') /\ same_listeners w w'.
Proof.
  intros R Ht. unfold connect, findListener. destruct (g_registry w !! name) as [l|] eqn:Hl; [|by eexists _, _].
  apply (reg_exact w R) in Hl. destruct (listener_object _ _ _ _ Hl) as (L & HL & _). by eapply connect_to_ok.
Qed.

(** A change of one transport's view together with the registry. *)
Lemma listen_ok w t name :
  registry_ok w -> is_Some (transports w !! t) -> name <> [] ->
  exists b w', listen w t name = Ok (b, w') /\ registry_ok w'.
Proof.
  intros R [T HT] Hn. unfold listen. rewrite (object_ok w t T HT). cbn [mbind res_bind]. destruct (listening_ T) eqn:Hl; [by eexists _, _|].
  unfold listen_register, registerListener. destruct (g_registry w !! name) as [t'|] eqn:Hr; [by eexists _, _|]. cbn [negb].
  unfold listen_commit. rewrite (object_ok _ t T) by done. cbn [mbind res_bind]. eexists _, _. split; [done|].
  assert (V : forall t', listener_view (set_transport (set_registry w (<[name := t]> (g_registry w))) t
      (mkTransport true name (lastConnectName_ T) (activeConnection_ T) (newConnectionCallback_ T))) t'
      = if decide (t' = t) then Some (true, name) else listener_view w t').
  { intros t'. unfold listener_view, set_transport, set_registry. cbn. case_decide as E; [subst; by rewrite lookup_insert_eq|by rewrite lookup_insert_ne]. }
  destruct R as [R1 R2]. assert (Hv : listener_view w t = Some (false, registeredName_ T)) by (unfold listener_view; rewrite HT; cbn; by rewrite Hl).
  split.
  - intros n t'. rewrite V. cbn. destruct (decide (n = name)) as [->|Hne].
    + rewrite lookup_insert_eq. case_decide as E; [subst; done|]. split; [congruence|]. intros H. apply R1 in H. congruence.
    + rewrite lookup_insert_ne by done. rewrite R1. case_decide as E; [subst; rewrite Hv; split; congruence|done].
  - intros t'. rewrite V. case_decide; [congruence|apply R2].
Qed.

Lemma stopListening_ok w t T :
  registry_ok w -> transports w !! t = Some T ->
  exists w', stopListening w t = Ok w' /\ registry_ok w' /\ (exists T', transports w' !! t = Some T' /\ listening_ T' = false)
    /\ forall t', t' <> t -> transports w' !! t' = transports w !! t'.
Proof.
  intros R HT. unfold stopListening. rewrite (object_ok w t T HT). cbn [mbind res_bind].
  destruct (listening_ T) eqn:Hl; cbn [negb]; [|eexists; split; [done|]; split; [done|]; by eauto].
  assert (Hv : listener_view w t = Some (true, registeredName_ T)) by (unfold listener_view; rewrite HT; cbn; by rewrite Hl).
  destruct (registeredName_ T) as [|x name'] eqn:Hname; [by destruct (reg_named w R t)|]. set (name := x :: name') in *.
  eexists. split; [done|]. split; [|split; [eexists; split; [apply lookup_insert_eq|done]|intros; by apply lookup_insert_ne]].
  set (T' := mkTransport false _ _ _ _).
  assert (V : forall t', listener_view (unregisterListener (set_transport w t T') name) t'
      = if decide (t' = t) then Some (false, []) else listener_view w t').
  { intros t'. unfold listener_view, set_transport, unregisterListener, set_registry. cbn.
    case_decide as E; [subst; by rewrite lookup_insert_eq|by rewrite lookup_insert_ne]. }
  destruct R as [R1 R2]. split.
  - intros n t'. rewrite V. cbn. destruct (decide (n = name)) as [->|Hne].
    + rewrite lookup_delete_eq. split; [done|]. case_decide as E; [congruence|]. intros H. apply R1 in H. apply R1 in Hv. congruence.
    + rewrite lookup_delete_ne by done. rewrite R1. case_decide as E; [subst; rewrite Hv; split; congruence|done].
  - intros t'. rewrite V. case_decide; [congruence|apply R2].
Qed.

Lemma stopConnection_ok w t T :
  transports w !! t = Some T -> exists w', stopConnection w t = Ok w' /\ same_listeners w w'.
Proof.
  intros HT. unfold stopConnection. rewrite (object_ok w t T HT). cbn [mbind res_bind]. eexists. split; [done|].
  etrans; [|apply same_listeners_close]. by apply (same_listeners_set w t T).
Qed.

Lemma stop_ok w t :
  registry_ok w -> is_Some (transports w !! t) ->
  exists w' T', stop w t = Ok w' /\ registry_ok w' /\ transports w' !! t = Some T' /\ listening_ T' = false.
Proof.
  intros R [T HT]. unfold stop. destruct (stopListening_ok w t T R HT) as (w1 & -> & R1 & (T1 & HT1 & Hl) & _). cbn [mbind res_bind].
  destruct (stopConnection_ok w1 t T1 HT1) as (w2 & -> & S). pose proof (proj2 S t) as V.
  unfold listener_view in V. rewrite HT1 in V. cbn in V. rewrite Hl in V. destruct (listener_object w2 t false (registeredName_ T1) V) as (T2 & HT2 & Hl2 & _).
  exists w2, T2. split; [done|]. split; [by eapply same_listeners_ok|done].
Qed.

Lemma destroy_ok w t :
  registry_ok w -> is_Some (transports w !! t) -> exists w', destroy w t = Ok w' /\ registry_ok w'.
Proof.
  intros R Ht. unfold destroy. destruct (stop_ok w t R Ht) as (w1 & T1 & -> & R1 & HT1 & Hl). cbn [mbind res_bind].
  eexists. split; [done|]. set (w' := mkWorld _ _ _ _ _ _).
  assert (V : forall t', listener_view w' t' = if decide (t' = t) then None else listener_view w1 t').
  { intros t'. unfold listener_view, w'. cbn. case_decide as E; [subst; by rewrite lookup_delete_eq|by rewrite lookup_delete_ne]. }
  assert (Hv : listener_view w1 t = Some (false, registeredName_ T1)) by (unfold listener_view; rewrite HT1; cbn; by rewrite Hl).
  destruct R1 as [R1 R2]. split.
  - intros n t'. rewrite V. change (g_registry w') with (g_registry w1). rewrite R1. case_decide as E; [subst; rewrite Hv; split; congruence|done].
  - intros t'. rewrite V. case_decide; [done|apply R2].
Qed.

Lemma apply_op_ok w op : registry_ok w -> allowed w op -> exists w', apply_op w op = Ok w' /\ registry_ok w'.
Proof.
  intros R Ha. destruct op as [t|t b|t name|t name p|t p|t|t]; cbn [apply_op allowed] in *.
  - unfold create. rewrite Ha. eexists. split; [done|]. set (w' := set_transport _ _ _).
    assert (V : forall t', listener_view w' t' = if decide (t' = t) then Some (false, []) else listener_view w t').
    { intros t'. unfold listener_view, w', set_transport. cbn. case_decide as E; [subst; by rewrite lookup_insert_eq|by rewrite lookup_insert_ne]. }
    assert (Hv : listener_view w t = None) by (unfold listener_view; by rewrite Ha). destruct R as [R1 R2]. split.
    + intros n t'. rewrite V. change (g_registry w') with (g_registry w). rewrite R1. case_decide as E; [subst; rewrite Hv; split; congruence|done].
    + intros t'. rewrite V. case_decide; [done|apply R2].
  - destruct Ha as [T HT]. unfold setNewConnectionCallback. rewrite (object_ok w t T HT). cbn [mbind res_bind]. eexists. split; [done|].
    eapply same_listeners_ok; [by eapply same_listeners_set|done].
  - destruct Ha as [Ht Hn]. destruct (listen_ok w t name R Ht Hn) as (b & w' & -> & R'). by exists w'.
  - destruct (connect_ok w t name p R Ha) as (r & w' & E & S). destruct Ha as [T HT]. rewrite (object_ok w t T HT). cbn [mbind res_bind].
    rewrite E. exists w'. split; [done|]. by eapply same_listeners_ok.
  - destruct Ha as [T HT]. unfold reconnect. rewrite (object_ok w t T HT). cbn [mbind res_bind]. destruct (lastConnectName_ T) as [|x n]; [by exists w|].
    destruct (connect_ok w t (x :: n) p R) as (r & w' & E & S); [by eexists|]. rewrite E. exists w'. split; [done|]. by eapply same_listeners_ok.
  - destruct (stop_ok w t R Ha) as (w' & T' & -> & R' & _). by exists w'.
  - by apply destroy_ok.
Qed.

Lemma initial_registry_ok : registry_ok initial.
Proof. by split. Qed.

(** C22.  The registry of the memory transport is exact.  After any history of creating,
    listening, connecting, stopping and destroying transports with names that are not
    empty, a name is registered for a transport precisely when that transport exists
    and listens under it, and every further operation on an existing transport
    succeeds: no operation reaches a transport that was destroyed. *)
Theorem memory_registry_exact w op :
  rtc mem_step initial w ->
  registry_ok w /\ (allowed w op -> exists w', apply_op w op = Ok w').
Proof.
  intros H. assert (R : registry_ok w).
  { pose proof initial_registry_ok as I. induction H as [|a b c (o & Ho & E) Hbc IH]; [done|]. apply IH.
    destruct (apply_op_ok a o I Ho) as (b' & E' & R). congruence. }
  split; [done|]. intros Ha. destruct (apply_op_ok w op R Ha) as (w' & E & _). by exists w'.
Qed.

(** A connection to a name that is registered: the two ends are a pair of new sockets;
    the callback of the listener gets the server's end, which is closed if there is
    none; the client's end replaces the active connection, which is closed; no other
    connection changes. *)
Theorem memory_connect_exact w t name l T L :
  registry_ok w -> transports w !! t = Some T -> g_registry w !! name = Some l -> transports w !! l = Some L ->
  (forall c, activeConnection_ T = Some c -> (c < next_connection w)%nat) ->
  let client := next_connection w in
  let server := S client in
  exists w' T', connect w t name true = Ok (Some client, w')
    /\ (client, server) ∈ pairs w' /\ connections w' !! client = Some true
    /\ connections w' !! server = Some (newConnectionCallback_ L)
    /\ notified w' = notified w ++ (if newConnectionCallback_ L then [(l, server)] else [])
    /\ transports w' !! t = Some T' /\ activeConnection_ T' = Some client /\ lastConnectName_ T' = name
    /\ (forall c, activeConnection_ T = Some c -> connections w' !! c = Some false)
    /\ (forall c, (c < client)%nat -> activeConnection_ T <> Some c -> connections w' !! c = connections w !! c).
Proof.
  intros R HT Hl HL Hold client server. unfold connect, findListener. rewrite Hl. unfold connect_to. cbn [negb newPair].
  unfold notifyNewConnection. rewrite (object_ok _ l L) by done. cbn [mbind res_bind].
  set (w2 := if newConnectionCallback_ L then _ else _).
  assert (E2 : transports w2 = transports w /\ pairs w2 = pairs w ++ [(client, server)]
    /\ notified w2 = notified w ++ (if newConnectionCallback_ L then [(l, server)] else [])
    /\ connections w2 !! client = Some true /\ connections w2 !! server = Some (newConnectionCallback_ L)
    /\ forall c, (c < client)%nat -> connections w2 !! c = connections w !! c).
  { unfold w2, server. destruct (newConnectionCallback_ L); cbn; rewrite ?app_nil_r; split_and!; try done;
      intros; rewrite ?lookup_insert_eq, ?lookup_insert_ne by lia; try done; by rewrite ?lookup_insert_eq. }
  destruct E2 as (E2 & Hp & Hn & Hc & Hs & Ho). rewrite (object_ok w2 t T) by (by rewrite E2). cbn [mbind res_bind].
  eexists _, _. split; [done|].
  destruct (activeConnection_ T) as [old|] eqn:Hact; cbn; rewrite ?lookup_insert_eq, ?Hp, ?Hn.
  - specialize (Hold _ eq_refl). rewrite !(lookup_insert_ne _ old) by (unfold server; lia). split_and!; try done; [set_solver| |].
    + intros c [= <-]. apply lookup_insert_eq.
    + intros c Hc' Hne. rewrite lookup_insert_ne by congruence. by apply Ho.
  - split_and!; try done; [set_solver|]. intros c Hc' _. by apply Ho.
Qed.

Lemma listen_register_free w t T name :
  transports w !! t = Some T -> g_registry w !! name = None ->
  listen_register w t name
  = Ok (true, set_transport (set_registry w (<[name := t]> (g_registry w))) t
                (mkTransport true name (lastConnectName_ T) (activeConnection_ T) (newConnectionCallback_ T))).
Proof.
  intros HT Hr. unfold listen_register, registerListener. rewrite Hr. cbn [negb]. unfold listen_commit. by rewrite (object_ok _ t T).
Qed.

(** Finding.  A transport that listens under the empty name is never unregistered: after
    it was destroyed the registry still has its address, and connecting to the empty
    name uses it. *)
Theorem empty_name_dangles w t t' T T' :
  transports w !! t = Some T -> listening_ T = false -> g_registry w !! [] = None ->
  t' <> t -> transports w !! t' = Some T' ->
  exists w', (w1 ← second (listen w t []); destroy w1 t) = Ok w' /\ connect w' t' [] true = Undefined.
Proof.
  intros HT Hl Hr Hne HT'. unfold listen. rewrite (object_ok w t T HT). cbn [mbind res_bind]. rewrite Hl.
  rewrite (listen_register_free w t T) by done. cbn [mbind res_bind second snd]. unfold destroy, stop, stopListening. rewrite object_set.
  cbn [mbind res_bind listening_ negb registeredName_]. unfold stopConnection. rewrite object_set. cbn [mbind res_bind activeConnection_].
  set (w' := mkWorld _ _ _ _ _ _).
  assert (Hreg : g_registry w' !! [] = Some t) by (unfold w'; destruct (activeConnection_ T); cbn; apply lookup_insert_eq).
  assert (Hgone : transports w' !! t = None) by (unfold w'; destruct (activeConnection_ T); cbn; apply lookup_delete_eq).
  exists w'. split; [done|]. unfold connect, findListener. rewrite Hreg. unfold connect_to, notifyNewConnection. cbn [negb newPair].
  unfold object. cbn [transports]. by rewrite Hgone.
Qed.

(** Finding.  [connect] uses the listener after it has released the registry: when the
    listener is destroyed in between, it is used after its end. *)
Theorem listener_can_vanish w t t' name T :
  registry_ok w -> t' <> t -> transports w !! t = Some T -> findListener w name = Some t ->
  exists w', destroy w t = Ok w' /\ connect_to w' t' name t true = Undefined.
Proof.
  intros R Hne HT Hf. destruct (destroy_ok w t R ltac:(by eexists)) as (w' & E & _). exists w'. split; [done|].
  assert (Hgone : transports w' !! t = None).
  { revert E. unfold destroy. destruct (stop w t); cbn; try done. intros [= <-]. cbn. apply lookup_delete_eq. }
  unfold connect_to, notifyNewConnection. cbn [negb newPair]. unfold object. cbn [transports]. by rewrite Hgone.
Qed.

(** Finding.  Two calls of [listen] on one transport that both pass the first test
    register both names; only the second one is remembered, and stopping leaves the
    first one in the registry. *)
Theorem concurrent_listen_leaves_name w t T name1 name2 :
  transports w !! t = Some T -> name1 <> [] -> name2 <> [] -> name1 <> name2 ->
  g_registry w !! name1 = None -> g_registry w !! name2 = None ->
  exists w', (w1 ← second (listen_register w t name1); w2 ← second (listen_register w1 t name2); stop w2 t) = Ok w'
    /\ g_registry w' !! name1 = Some t /\ g_registry w' !! name2 = None.
Proof.
  intros HT H1 H2 Hne Hr1 Hr2. rewrite (listen_register_free w t T) by done. cbn [mbind res_bind second snd].
  set (w1 := set_transport _ _ _).
  rewrite (listen_register_free w1 t (mkTransport true name1 (lastConnectName_ T) (activeConnection_ T) (newConnectionCallback_ T)))
    by (cbn; by rewrite ?lookup_insert_eq, ?lookup_insert_ne). cbn [mbind res_bind second snd].
  unfold stop, stopListening. rewrite object_set. cbn [mbind res_bind listening_ negb registeredName_].
  destruct name2 as [|x name2]; [done|]. unfold stopConnection. change (object (unregisterListener ?w ?n) t) with (object w t).
  rewrite object_set. cbn [mbind res_bind activeConnection_].
  eexists. split; [done|]. destruct (activeConnection_ T); cbn; rewrite lookup_delete_eq, lookup_delete_ne, lookup_insert_ne, lookup_insert_eq by done; done.
Qed.
End MemoryTransports.

(** ** The TCP transport *)
Module TcpTransports.

(** *** Endpoints *)
Definition digit (c : ascii) : option Z := if (byte_val c <? 48) || (57 <? byte_val c) then None else Some (byte_val c - 48).

Fixpoint tcpParsePort_loop (text : bytes) (value : Z) : option Z :=
  match text with
  | [] => Some value
  | current :: text' =>
      match digit current with
      | None => None
      | Some d => let value' := value * 10 + d in if 65535 <? value' then None else tcpParsePort_loop text' value'
      end
  end.

Definition tcpParsePort (text : bytes) : option Z := match text with [] => None | _ => tcpParsePort_loop text 0 end.

(** [std::string::rfind] of a colon: the number of characters before the last one. *)
Fixpoint rfind_colon (s : bytes) : option nat :=
  match s with
  | [] => None
  | c :: s' =>
      match rfind_colon s' with
      | Some n => Some (S n)
      | None => if bool_decide (c = ":"%char) then Some 0%nat else None
      end
  end.

Definition tcpParseEndpoint (parameters : bytes) : option (bytes * Z) :=
  match rfind_colon parameters with
  | None => None
  | Some separator =>
      if Nat.eqb separator 0 || (List.length parameters <=? separator + 1)%nat then None
      else match tcpParsePort (drop (separator + 1) parameters) with
           | Some port => Some (take separator parameters, port)
           | None => None
           end
  end.

(** *** State *)
Record ReconnectConfig := mkConfig {
  enabled : bool; initialIntervalMs : Z; maxIntervalMs : Z; backoffMultiplier : double; maxAttempts : Z }.

(** [acceptThread_] is known by whether it is joinable; sockets and connections are
    numbered. *)
Record TcpTransport := mkTcp {
  listener_ : option nat; listening_ : bool; acceptThread_ : bool; lastParameters_ : bytes; activeConnection_ : option nat;
  reconnectConfig_ : ReconnectConfig; stopping_ : bool }.

(** Static cast of an [int] to [double]. *)
Definition double_of_int (z : Z) : double := binary_normalize 53 1024 z 0 false.
Definition defaultConfig : ReconnectConfig := mkConfig true 500 10000 (double_of_int 2) 0.
Definition newTcp : TcpTransport := mkTcp None false false [] None defaultConfig false.

(** *** Listening; [listener] is what [createTcpListener] returns for an endpoint. *)
Definition tcp_listen (T : TcpTransport) (parameters : bytes) (createTcpListener : bytes -> Z -> option nat)
    : bool * list nat * TcpTransport :=
  match tcpParseEndpoint parameters with
  | None => (false, [], T)
  | Some (address, port) =>
      match createTcpListener address port with
      | None => (false, [], T)
      | Some listener =>
          if listening_ T then (false, [listener], T)
          else (true, [], mkTcp (Some listener) true true (lastParameters_ T) (activeConnection_ T) (reconnectConfig_ T) (stopping_ T))
      end
  end.

Definition listenedPort (T : TcpTransport) (getSocketPort : nat -> Z) : Z :=
  match listener_ T with None => 0 | Some l => getSocketPort l end.

(** [acceptLoop]: before the test, at [acceptSocket] with the listener it has read. *)
Inductive AcceptPc := AtTest | AtAccept (listener : option nat) | AcceptEnded.

(** One step; [accepted] is the result of [acceptSocket].  The connection to announce,
    if there is one. *)
Definition accept_turn (T : TcpTransport) (pc : AcceptPc) (accepted : option nat) : option nat * AcceptPc :=
  match pc with
  | AtTest => (None, if listening_ T then AtAccept (listener_ T) else AcceptEnded)
  | AtAccept _ => (accepted, AtTest)
  | AcceptEnded => (None, AcceptEnded)
  end.

(** *** Connecting: the connection, the connections that are closed, the state. *)
Definition tcp_connect (T : TcpTransport) (parameters : bytes) (connectTcp : bytes -> Z -> option nat)
    : option nat * list nat * TcpTransport :=
  match tcpParseEndpoint parameters with
  | None => (None, [], T)
  | Some (address, port) =>
      match connectTcp address port with
      | None => (None, [], T)
      | Some new =>
          (Some new, match activeConnection_ T with Some old => [old] | None => [] end,
           mkTcp (listener_ T) (listening_ T) (acceptThread_ T) parameters (Some new) (reconnectConfig_ T) (stopping_ T))
      end
  end.

(** [std::min(intervalMs * backoffMultiplier, maxIntervalMs)] *)
Definition nextInterval (config : ReconnectConfig) (interval : double) : double :=
  let a := SFmul 53 1024 interval (backoffMultiplier config) in
  let b := double_of_int (maxIntervalMs config) in
  if SFltb b a then b else a.

(** The loop.  [connectTcp i] is the network at attempt [i]; [stopped i] and
    [stoppedInWait i] are what attempt [i] sees of [stopping_] before it and after the
    wait.  The result has the intervals that were waited.  [attempts] is an [int]:
    incrementing it past [INT_MAX] is undefined. *)
Definition INT_MAX : Z := 2147483647.

Section Reconnect.
Context (connectTcp : nat -> bytes -> Z -> option nat) (stopped stoppedInWait : nat -> bool).

Fixpoint reconnect_loop (fuel : nat) (T : TcpTransport) (config : ReconnectConfig) (parameters : bytes) (interval : double)
    (attempts : nat) : Res (option nat * list double * list nat * TcpTransport) :=
  match fuel with
  | O => NoFuel
  | S fuel =>
      if stopped attempts then Ok (None, [], [], T)
      else
        let '(conn, closed, T') := tcp_connect T parameters (connectTcp attempts) in
        match conn with
        | Some c => Ok (Some c, [], closed, T')
        | None =>
            if INT_MAX <? Z.of_nat (S attempts) then Undefined
            else if (0 <? maxAttempts config) && (maxAttempts config <=? Z.of_nat (S attempts)) then Ok (None, [], closed, T')
            else if stoppedInWait attempts then Ok (None, [interval], closed, T')
            else
              '(result, waits, closed', T'') ← reconnect_loop fuel T' config parameters (nextInterval config interval) (S attempts);
              Ok (result, interval :: waits, closed ++ closed', T'')
        end
  end.

Definition tcp_reconnect (fuel : nat) (T : TcpTransport) : Res (option nat * list double * list nat * TcpTransport) :=
  let parameters := lastParameters_ T in
  let config := reconnectConfig_ T in
  match parameters with
  | [] => Ok (None, [], [], T)
  | _ =>
      if negb (enabled config) then
        let '(conn, closed, T') := tcp_connect T parameters (connectTcp 0) in Ok (conn, [], closed, T')
      else reconnect_loop fuel T config parameters (double_of_int (initialIntervalMs config)) 0
  end.
End Reconnect.

Definition setReconnectConfig (T : TcpTransport) (config : ReconnectConfig) : TcpTransport :=
  mkTcp (listener_ T) (listening_ T) (acceptThread_ T) (lastParameters_ T) (activeConnection_ T) config (stopping_ T).

(** *** Stopping: the sockets that are closed; the accept thread is joined. *)
Definition tcp_stopListening (T : TcpTransport) : list nat * TcpTransport :=
  (match listener_ T with Some l => [l] | None => [] end,
   mkTcp None false false (lastParameters_ T) (activeConnection_ T) (reconnectConfig_ T) (stopping_ T)).

Definition tcp_stopConnection (T : TcpTransport) : list nat * TcpTransport :=
  (match activeConnection_ T with Some c => [c] | None => [] end,
   mkTcp (listener_ T) (listening_ T) (acceptThread_ T) (lastParameters_ T) None (reconnectConfig_ T) (stopping_ T)).

Definition tcp_stop (T : TcpTransport) : list nat * list nat * TcpTransport :=
  let T1 := mkTcp (listener_ T) (listening_ T) (acceptThread_ T) (lastParameters_ T) (activeConnection_ T) (reconnectConfig_ T) true in
  let '(listeners, T2) := tcp_stopListening T1 in
  let '(connections, T3) := tcp_stopConnection T2 in
  (listeners, connections, T3).

(** ** The loop of reconnect *)
Section ReconnectLoop.
Context (connectTcp : nat -> bytes -> Z -> option nat) (stopped stoppedInWait : nat -> bool).

(** What attempt [i] gives. *)
Definition attempt (parameters : bytes) (i : nat) : option nat :=
  match tcpParseEndpoint parameters with Some (address, port) => connectTcp i address port | None => None end.

Definition last_attempt (config : ReconnectConfig) (i : nat) : bool :=
  (0 <? maxAttempts config) && (maxAttempts config <=? Z.of_nat (S i)).

(** The loop ends at attempt [i] at the latest. *)
Definition decisive (config : ReconnectConfig) (parameters : bytes) (i : nat) : Prop :=
  stopped i = true \/ is_Some (attempt parameters i) \/ last_attempt config i = true \/ stoppedInWait i = true.

(** What the loop from attempt [first] on gives, [interval] being the next interval:
    the first interval is the given one, each later one is the one before backed off
    and never exceeds the maximum. *)
Definition reconnect_result (config : ReconnectConfig) (parameters : bytes) (T : TcpTransport) (first i : nat) (interval : double)
    (r : option nat * list double * list nat * TcpTransport) : Prop :=
  let '(result, waits, closed, T') := r in
  (forall k w, waits !! k = Some w -> w = Nat.iter k (nextInterval config) interval)
  /\ Forall (fun x => SFltb (double_of_int (maxIntervalMs config)) x = false) (tail waits)
  /\ exists j, (first <= j <= i)%nat
    /\ (forall k, (first <= k < j)%nat -> attempt parameters k = None /\ stopped k = false /\ stoppedInWait k = false)
    /\ match result with
       | Some c => attempt parameters j = Some c /\ stopped j = false /\ List.length waits = (j - first)%nat
           /\ closed = match activeConnection_ T with Some old => [old] | None => [] end
           /\ activeConnection_ T' = Some c /\ lastParameters_ T' = parameters
       | None => T' = T /\ closed = []
           /\ (stopped j = true /\ List.length waits = (j - first)%nat
               \/ attempt parameters j = None /\ last_attempt config j = true /\ List.length waits = (j - first)%nat
               \/ attempt parameters j = None /\ stoppedInWait j = true /\ List.length waits = S (j - first))
       end.

Lemma SFltb_irrefl x : SFltb x x = false.
Proof.
  unfold SFltb, SFcompare. destruct x as [b|b| |b m e]; try destruct b; try done; rewrite Z.compare_refl, Pos.compare_cont_refl; done.
Qed.

Lemma nextInterval_bounded config x : SFltb (double_of_int (maxIntervalMs config)) (nextInterval config x) = false.
Proof. unfold nextInterval. destruct (SFltb _ (SFmul _ _ _ _)) eqn:E; [apply SFltb_irrefl|done]. Qed.

Lemma tcp_connect_attempt T parameters i :
  tcp_connect T parameters (connectTcp i)
  = match attempt parameters i with
    | Some c => (Some c, match activeConnection_ T with Some old => [old] | None => [] end,
                 mkTcp (listener_ T) (listening_ T) (acceptThread_ T) parameters (Some c) (reconnectConfig_ T) (stopping_ T))
    | None => (None, [], T)
    end.
Proof. unfold tcp_connect, attempt. destruct (tcpParseEndpoint parameters) as [[a p]|]; [|done]. by destruct (connectTcp i a p). Qed.

(** The end of the loop at attempt [first]. *)
Lemma reconnect_ends config parameters T first i interval waits result closed T' :
  (first <= i)%nat -> waits = [] \/ waits = [interval] ->
  match result with
  | Some c => attempt parameters first = Some c /\ stopped first = false /\ waits = []
      /\ closed = match activeConnection_ T with Some old => [old] | None => [] end
      /\ activeConnection_ T' = Some c /\ lastParameters_ T' = parameters
  | None => T' = T /\ closed = []
      /\ (stopped first = true /\ waits = [] \/ attempt parameters first = None /\ last_attempt config first = true /\ waits = []
          \/ attempt parameters first = None /\ stoppedInWait first = true /\ waits = [interval])
  end ->
  reconnect_result config parameters T first i interval (result, waits, closed, T').
Proof.
  intros Hi Hw Hr. split_and!.
  - intros k w. destruct Hw as [->| ->]; [by rewrite lookup_nil|]. destruct k; [by intros [= <-]|done].
  - destruct Hw as [->| ->]; constructor.
  - exists first. split; [lia|]. split; [lia|]. rewrite Nat.sub_diag. destruct result as [c|].
    + destruct Hr as (? & ? & -> & ? & ? & ?). by split_and!.
    + destruct Hr as (? & ? & Hr). split_and!; try done.
      destruct Hr as [[? ->]|[(? & ? & ->)|(? & ? & ->)]]; auto 6.
Qed.

Lemma reconnect_loop_spec T config parameters i fuel first interval :
  decisive config parameters i -> Z.of_nat i < INT_MAX -> (first <= i < first + fuel)%nat ->
  exists r, reconnect_loop connectTcp stopped stoppedInWait fuel T config parameters interval first = Ok r
    /\ reconnect_result config parameters T first i interval r.
Proof.
  intros Hd Hmax. revert first interval. induction fuel as [|fuel IH]; intros first interval Hi; [lia|]. cbn [reconnect_loop].
  destruct (stopped first) eqn:Hs; [eexists; split; [done|]; apply reconnect_ends; auto; lia|].
  rewrite tcp_connect_attempt. destruct (attempt parameters first) as [c|] eqn:Ha.
  { eexists. split; [done|]. apply reconnect_ends; [lia|by left|]. by split_and!. }
  destruct (Z.ltb_spec INT_MAX (Z.of_nat (S first))); [lia|].
  fold (last_attempt config first). destruct (last_attempt config first) eqn:Hl.
  { eexists. split; [done|]. apply reconnect_ends; auto 7; lia. }
  destruct (stoppedInWait first) eqn:Hw; [eexists; split; [done|]; apply reconnect_ends; auto 8; lia|].
  assert (Hne : first <> i). { intros ->. destruct Hd as [?|[[? ?]|[?|?]]]; congruence. }
  destruct (IH (S first) (nextInterval config interval) ltac:(lia)) as ([[[result waits] closed] T'] & -> & Hx & Hb & j & Hj & Hk & Hr).
  cbn [mbind res_bind]. eexists. split; [done|]. split_and!.
  - intros [|k] w; cbn; [by intros [= <-]|]. intros ->%Hx. apply Nat.iter_swap.
  - cbn [tail]. destruct waits as [|x waits]; constructor; [|done]. rewrite (Hx 0%nat x) by done. apply nextInterval_bounded.
  - exists j. split; [lia|]. split.
    + intros k Hk'. destruct (decide (k = first)) as [->|]; [done|]. apply Hk. lia.
    + cbn [List.length]. destruct result as [c|].
      * destruct Hr as (H1 & H2 & H3 & H4 & H5 & H6). split_and!; try done. lia.
      * destruct Hr as (H1 & H2 & [[H3 H4]|[(H3 & H4 & H5)|(H3 & H4 & H5)]]); (split; [done|]; split; [done|]).
        -- left. split; [done|lia].
        -- right. left. split_and!; try done. lia.
        -- right. right. split_and!; try done. lia.
Qed.

End ReconnectLoop.

(** Finding.  [stopping_] is set by [stop] and never cleared: after it, [connect] still
    works, but [reconnect] with retries gives up before its first attempt. *)
Theorem stopped_transport_never_reconnects connectTcp stoppedInWait T fuel :
  lastParameters_ T <> [] -> enabled (reconnectConfig_ T) = true ->
  let T' := (tcp_stop T).2 in
  tcp_reconnect connectTcp (fun _ => stopping_ T') stoppedInWait (S fuel) T' = Ok (None, [], [], T').
Proof. intros Hp He T'. unfold tcp_reconnect, T'. cbn. destruct (lastParameters_ T) eqn:E; [done|]. by rewrite He. Qed.

(** Once [stop] has cleared [listening_], the accept thread ends with its second step
    at the latest, so the join returns. *)
Lemma accept_thread_ends T pc a b : listening_ T = false -> (accept_turn T (accept_turn T pc a).2 b).2 = AcceptEnded \/ (accept_turn T pc a).2 = AcceptEnded.
Proof. intros H. destruct pc; cbn; rewrite ?H; auto. Qed.

(** *** Endpoints *)
Lemma tcpParsePort_loop_same text value : tcpParsePort_loop text value = parsePort_loop text value.
Proof.
  revert value. induction text as [|c text IH]; intros value; [done|]. cbn. unfold digit. destruct (_ || _); [done|].
  destruct (65535 <? value * 10 + (byte_val c - 48)); [done|]. apply IH.
Qed.

Lemma rfind_colon_split s :
  match rfind_colon s with
  | Some n => splitLastColon s = Some (take n s, drop (n + 1) s) /\ (n < List.length s)%nat
  | None => splitLastColon s = None
  end.
Proof.
  induction s as [|c s IH]; [done|]. cbn [rfind_colon splitLastColon]. destruct (rfind_colon s) as [n|].
  - destruct IH as [-> Hn]. cbn [List.length]. split; [done|lia].
  - rewrite IH. case_bool_decide; [|done]. split; [by rewrite take_0|cbn; lia].
Qed.

(** The transport and the socket service read endpoints in the same way. *)
Theorem endpoints_agree parameters : tcpParseEndpoint parameters = parseEndpoint parameters.
Proof.
  unfold tcpParseEndpoint, parseEndpoint. pose proof (rfind_colon_split parameters) as H.
  destruct (rfind_colon parameters) as [n|]; [|by rewrite H]. destruct H as [-> Hn].
  destruct n as [|n]; cbn [Nat.eqb orb]; [by rewrite take_0|].
  destruct (take (S n) parameters) as [|x host] eqn:Ht; [destruct parameters; done|].
  destruct (Nat.leb_spec (List.length parameters) (S n + 1)) as [Hle|Hgt].
  - rewrite drop_ge by lia. done.
  - destruct (drop (S n + 1) parameters) as [|y text] eqn:Hd; [apply (f_equal List.length) in Hd; rewrite length_drop in Hd; cbn in Hd; lia|].
    unfold tcpParsePort, parsePort. rewrite tcpParsePort_loop_same. by destruct (parsePort_loop _ _).
Qed.

Lemma tcpParsePort_digits text value :
  0 <= value -> Forall (fun c => is_digit c = true) text -> dec_value value text <= 65535 ->
  tcpParsePort_loop text value = Some (dec_value value text).
Proof.
  intros Hv Hd. revert value Hv. induction Hd as [|c text Hc Hd IH]; intros value Hv Hb; [done|]. cbn [tcpParsePort_loop].
  assert (Hdc : digit c = Some (digit_val c)).
  { unfold digit, digit_val, is_digit, in_range in *. change (byte_val "0") with 48 in *. change (byte_val "9") with 57 in *.
    destruct (Z.ltb_spec (byte_val c) 48), (Z.ltb_spec 57 (byte_val c)); cbn; try done; lia. }
  rewrite Hdc. pose proof (digit_val_range c Hc). unfold dec_value in *. cbn [foldl] in *.
  pose proof (dec_value_le (value * 10 + digit_val c) text ltac:(lia) Hd) as Hle. unfold dec_value in Hle.
  destruct (Z.ltb_spec 65535 (value * 10 + digit_val c)); [lia|]. apply IH; lia.
Qed.

Lemma rfind_colon_last host text : Forall (fun c => is_digit c = true) text -> rfind_colon (host ++ ":"%char :: text) = Some (List.length host).
Proof.
  intros Hd. induction host as [|c host IH]; cbn [app rfind_colon List.length]; [|by rewrite IH].
  assert (Hn : rfind_colon text = None); [|by rewrite Hn].
  induction Hd as [|c text Hc Hd IH]; [done|]. cbn. rewrite IH. rewrite bool_decide_false; [done|]. by intros ->.
Qed.

(** An endpoint that is written down is read back: a host, which may contain colons
    itself, and any port. *)
Theorem endpoint_round_trip host port :
  host <> [] -> 0 <= port <= 65535 -> tcpParseEndpoint (host ++ ":"%char :: to_string port) = Some (host, port).
Proof.
  intros Hh Hp. destruct (to_string_spec port) as (c & l & E & Hd & Hv). destruct (Z.ltb_spec port 0); [lia|]. cbn [app] in E. rewrite E.
  unfold tcpParseEndpoint. rewrite rfind_colon_last by done. destruct (Nat.eqb_spec (List.length host) 0) as [Hz|_]; [by destruct host|].
  rewrite length_app. cbn [orb List.length]. destruct (Nat.leb_spec (List.length host + S (S (List.length l))) (List.length host + 1)); [lia|].
  rewrite take_app_length. replace (host ++ ":"%char :: c :: l) with ((host ++ [":"%char]) ++ c :: l) by (by rewrite <- app_assoc).
  rewrite drop_app_length' by (rewrite length_app; cbn; lia). unfold tcpParsePort.
  rewrite tcpParsePort_digits; [|lia|done|lia]. rewrite Hv. by rewrite Z.abs_eq by lia.
Qed.
End TcpTransports.

(** ** Witnesses *)
Import Descriptors.

(** Two connections; the first is closed while the second is used. *)
Definition two_connections : list Action := [New 3; New 4; BeginIO 1 Sending; BeginClose 0; EndClose 0 3; EndIO 1 Sending 4].

Lemma descriptors_have_one_owner_witness :
  exists s, run initial two_connections = Some s /\ open s !! 4%nat = Some 1%nat
    /\ forall fd, open s !! fd = Some 1%nat -> fd = 4%nat.
Proof.
  destruct (run initial two_connections) as [s|] eqn:E; [|vm_compute in E; discriminate E]. exists s. split; [reflexivity|].
  destruct (descriptors_have_one_owner s (run_steps _ _ _ E)) as (Hown & Hinj & _).
  assert (H4 : open s !! 4%nat = Some 1%nat) by (apply Hown; left; vm_compute in E; injection E as <-; reflexivity).
  split; [exact H4|]. intros fd Hfd. exact (Hinj 1%nat fd 4%nat Hfd H4).
Defined.

Fixpoint carefully (s : Sys) (l : list Action) : option Sys :=
  match l with
  | [] => Some s
  | a :: l' =>
      if match a with BeginClose c => quiet s c | _ => true end
      then match act s a with Some s' => carefully s' l' | None => None end
      else None
  end.

Lemma carefully_steps l s s' : carefully s l = Some s' -> rtc careful_step s s'.
Proof.
  revert s. induction l as [|a l IH]; intros s; cbn; [intros [= ->]; constructor|].
  destruct (match a with BeginClose c => quiet s c | _ => true end) eqn:Hq; [|done]. destruct (act s a) eqn:E; [|done]. intros H.
  eapply rtc_l; [exists a; split; [done|]|by apply IH]. by destruct a.
Qed.

Lemma io_reaches_own_socket_witness :
  exists s, carefully initial two_connections = Some s /\ forall k, (1%nat, Sending, k) ∈ performed s -> k = Some 1%nat.
Proof.
  destruct (carefully initial two_connections) as [s|] eqn:E; [|vm_compute in E; discriminate E]. exists s. split; [reflexivity|].
  intros k. apply (io_reaches_own_socket s 1 Sending k (carefully_steps _ _ _ E)).
Defined.

Import MemoryTransports.

(** A listener and a client. *)
Definition memory_ops : list Op := [Create 0; SetCallback 0 true; Listen 0 (bs "rm"); Create 1; Connect 1 (bs "rm") true].

#[local] Instance allowed_dec w op : Decision (allowed w op).
Proof. destruct op; cbn; apply _. Defined.

Fixpoint mem_run (w : World) (l : list Op) : option World :=
  match l with
  | [] => Some w
  | op :: l' => if bool_decide (allowed w op) then match apply_op w op with Ok w' => mem_run w' l' | _ => None end else None
  end.

Lemma mem_run_steps l w w' : mem_run w l = Some w' -> rtc mem_step w w'.
Proof.
  revert w. induction l as [|op l IH]; intros w; cbn; [intros [= ->]; constructor|]. case_bool_decide as Ha; [|done].
  destruct (apply_op w op) eqn:E; try done. intros H. eapply rtc_l; [by exists op|by apply IH].
Qed.

Lemma memory_registry_exact_witness :
  exists w, mem_run MemoryTransports.initial memory_ops = Some w /\ registry_ok w /\ exists w', apply_op w (Destroy 0) = Ok w'.
Proof.
  destruct (mem_run MemoryTransports.initial memory_ops) as [w|] eqn:E; [|vm_compute in E; discriminate E]. exists w. split; [reflexivity|].
  destruct (memory_registry_exact w (Destroy 0) (mem_run_steps _ _ _ E)) as [R H]. split; [exact R|]. apply H.
  apply (bool_decide_unpack _). revert E. vm_compute. intros [= <-]. exact I.
Defined.

Import TcpTransports.

(** Two attempts fail, the third succeeds. *)
Definition third_time (i : nat) (address : bytes) (port : Z) : option nat := if Nat.eqb i 2 then Some 7%nat else None.
Definition lost_tcp : TcpTransport := mkTcp None false false (bs "host:8080") (Some 1%nat) defaultConfig false.

