(* ===== verification/ThinConnection.v ===== *)
(** * client/cpp/rsp_client_message.cpp: connections of the thin client

    The messages and the connections below the thin client.  Sending and the table of
    connections are the code of the full client ([FullClient]); the life of a
    connection is the system of threads of [Reconnect] with another reconnect thread,
    which tries once: a handshake that fails after the transport has reconnected ends
    it. *)

From S2P Require Import Prelude BaseTypes Proto GuidBytes MessageHash Signing DateTimes MessageQueue FullClient Reconnect.

(** ** Opening a connection *)
Inductive TransportKind := TcpTransportKind | MemoryTransportKind.

Definition thin_splitTransportSpec (transportSpec : bytes) : option (bytes * bytes) := splitTransportSpec transportSpec.

Definition createTransport (transportName : bytes) : option TransportKind :=
  if bool_decide (transportName = bs "tcp") then Some TcpTransportKind
  else if bool_decide (transportName = bs "memory") then Some MemoryTransportKind
  else None.

(** What the world answers while a connection is set up: [transport->connect], the push
    to the handshake queue, the encoding the two queues give, [encoding->start]. *)
Record Setup := mkSetup {
  connects : TransportKind -> bytes -> bool; pushed : bool; established : option nat; starts_encoding : bool }.

(** What is stopped when the set-up fails. *)
Inductive Stopped := StopTransport | StopEncodingOf (e : nat).

(** [connectToResourceManager]: the encoding that was started, or what was stopped. *)
Definition setup_connection (o : Setup) (transport : bytes) : nat + list Stopped :=
  match thin_splitTransportSpec transport with
  | None => inr []
  | Some (name, parameters) =>
      match createTransport name with
      | None => inr []
      | Some kind =>
          if negb (connects o kind parameters) then inr []
          else if negb (pushed o) then inr [StopTransport]
          else match established o with
               | None => inr [StopTransport]
               | Some e => if starts_encoding o then inl e else inr [StopEncodingOf e; StopTransport]
               end
      end
  end.

(** ** Messages *)
Section Messages.
Context (queue_size : nat -> nat) (queue_push : nat -> RSPMessage.t -> bool).

Definition thin_prepareOutboundMessage (nonce : bytes) (message : RSPMessage.t) : RSPMessage.t := prepareOutboundMessage nonce message.
Definition thin_send := FullClient.send queue_size queue_push.
Definition thin_sendOnConnection := sendOnConnection queue_push.
End Messages.

(** The table of connections. *)
Definition thin_hasConnections (c : RSPClient) : bool := hasConnections c.
Definition thin_hasConnection (c : RSPClient) (connectionId : GUID) : bool := hasConnection c connectionId.
Definition thin_connectionCount (c : RSPClient) : nat := connectionCount c.
Definition thin_connectionIds (c : RSPClient) : list GUID := connectionIds c.

(** ** The reconnect thread *)
Definition thin_thread_step (s : Sys) (o : Outside) : option Sys :=
  match thread s with
  | Some ThCheck => Some (if stopping s then finish s else set_thread s ThConnect)
  | Some ThLoop | Some ThSleep | Some ThSleeping => None
  | Some ThShake =>
      match shake o with
      | ShakeFailed => Some (finish s)
      | NotPushed | ShakeDone => thread_step s o
      end
  | _ => thread_step s o
  end.

(** What the two clients do in the same way. *)
Definition thin_emplace (s : Sys) : option Sys := insert_step s.
Definition thin_enableReconnect_locked (s : Sys) : option Sys := enable_begin s.
Definition thin_enableReconnect_callback (s : Sys) (i : nat) : option Sys := enable_end s i.
Definition thin_triggerReconnect (s : Sys) (i : nat) : option Sys := trigger_step s i.
Definition thin_removeConnection (s : Sys) : option Sys := remover_step s.

Definition thin_act (s : Sys) (a : Action) : option Sys :=
  match a with
  | Insert => thin_emplace s
  | EnableBegin => thin_enableReconnect_locked s
  | EnableEnd i => thin_enableReconnect_callback s i
  | Lose e => lose s e
  | Notify e => notify s e
  | Trigger i => thin_triggerReconnect s i
  | Reconnect o => thin_thread_step s o
  | Remove => thin_removeConnection s
  end.

Fixpoint thin_acts (s : Sys) (l : list Action) : option Sys :=
  match l with [] => Some s | a :: l' => s' ← thin_act s a; thin_acts s' l' end.

Definition thin_reaches (s s' : Sys) : Prop := exists l, thin_acts s l = Some s'.

(** ** Properties *)

(** A connection is set up precisely when the specification names a transport that
    connects, the handshakes give an encoding and it starts; a transport that has
    connected is stopped in every other case. *)
Theorem setup_exact o transport :
  match setup_connection o transport with
  | inl e => exists name parameters kind, thin_splitTransportSpec transport = Some (name, parameters)
      /\ createTransport name = Some kind /\ connects o kind parameters = true /\ pushed o = true
      /\ established o = Some e /\ starts_encoding o = true
  | inr stopped => forall name parameters kind, thin_splitTransportSpec transport = Some (name, parameters) ->
      createTransport name = Some kind -> connects o kind parameters = true -> StopTransport ∈ stopped
  end.
Proof.
  unfold setup_connection. destruct (thin_splitTransportSpec transport) as [[name parameters]|]; [|done].
  destruct (createTransport name) as [kind|] eqn:Hk; [|by intros ? ? ? [= <- <-] ?; congruence].
  destruct (connects o kind parameters) eqn:Hc; cbn [negb]; [|by intros ? ? ? [= <- <-] ? ?; congruence].
  destruct (pushed o) eqn:Hp; cbn [negb]; [|intros; by left].
  destruct (established o) as [e|] eqn:He; [|intros; by left].
  destruct (starts_encoding o) eqn:Hs; [by eexists _, _, _|]. intros. right. by left.
Qed.

Lemma thin_thread_step_inv s o s' : sys_inv s -> thin_thread_step s o = Some s' -> sys_inv s'.
Proof.
  intros I. unfold thin_thread_step. destruct (thread s) as [t|] eqn:Ht; [|by apply thread_step_inv].
  destruct t; try done; try (by apply thread_step_inv).
  - destruct (stopping s); intros [= <-]; [by eapply finish_inv|by eapply set_thread_inv].
  - destruct (shake o); try (by apply thread_step_inv). intros [= <-]. by eapply finish_inv.
Qed.

Ltac thin_action_unfold := cbn [thin_act];
  unfold thin_emplace, thin_enableReconnect_locked, thin_enableReconnect_callback, thin_triggerReconnect, thin_removeConnection.
Ltac thin_action_unfold_in H := cbn [thin_act] in H;
  unfold thin_emplace, thin_enableReconnect_locked, thin_enableReconnect_callback, thin_triggerReconnect, thin_removeConnection in H.
Tactic Notation "thin_action" := thin_action_unfold.
Tactic Notation "thin_action" "in" hyp(H) := thin_action_unfold_in H.

(** Only the reconnect thread differs from the full client. *)
Lemma thin_act_same s a : match a with Reconnect _ => True | _ => thin_act s a = act s a end.
Proof. by destruct a. Qed.

Lemma thin_act_inv s a s' : sys_inv s -> thin_act s a = Some s' -> sys_inv s'.
Proof. intros I. pose proof (thin_act_same s a) as E. destruct a; try (rewrite E; by apply act_inv). by apply thin_thread_step_inv. Qed.

Lemma thin_acts_inv l s s' : sys_inv s -> thin_acts s l = Some s' -> sys_inv s'.
Proof.
  revert s. induction l as [|a l IH]; intros s I; cbn; [by intros [= <-]|].
  destruct (thin_act s a) as [s1|] eqn:Ha; [|done]. cbn. apply IH. by eapply thin_act_inv.
Qed.

Lemma thin_acts_app l l' s : thin_acts s (l ++ l') = s' ← thin_acts s l; thin_acts s' l'.
Proof. revert s. induction l as [|a l IH]; intros s; [done|]. cbn. destruct (thin_act s a); [|done]. cbn. apply IH. Qed.

(** The connections of the thin client: in every interleaving of connecting, losing,
    re-establishing and removing, each running queue has one owner and each reading
    encoding is owned, at most one thread reconnects, and when the connection has been
    removed and no reconnect thread is at work, nothing is left running. *)
Theorem thin_connection_resources s : thin_reaches connected s -> resources_owned s.
Proof. intros [l Hl]. apply inv_resources. by eapply thin_acts_inv, Hl; apply inv_connected. Qed.

(** Where every encoding has ended and nobody works, only the removal changes the entry. *)
Lemma ended_stays s a s' :
  thread_active (thread s) = false -> triggers s = [] -> connector s = None ->
  (forall e enc, encodings s !! e = Some enc -> phase enc = Ended) -> thin_act s a = Some s' ->
  (remover s' = RmIdle -> entry s' = entry s) /\ thread_active (thread s') = false /\ triggers s' = [] /\ connector s' = None
  /\ (forall e enc, encodings s' !! e = Some enc -> phase enc = Ended) /\ (remover s' = RmIdle -> remover s = RmIdle).
Proof.
  intros Hth Htr Hcn He Ha.
  assert (Hset : forall e e' enc, set_callback e (encodings s) !! e' = Some enc -> phase enc = Ended).
  { intros e e' enc (old & Ho & <-)%callback_phase. by eapply He. }
  assert (Hstop : forall e e' enc, stop_encoding e (encodings s) !! e' = Some enc -> phase enc = Ended).
  { intros e e' enc. unfold stop_encoding. destruct (encodings s !! e) eqn:Hx; [|apply He].
    intros [[_ <-]|[_ Hy]]%lookup_insert_Some; [done|by eapply He]. }
  destruct a; thin_action in Ha.
  - unfold insert_step in Ha. by rewrite Hcn in Ha.
  - unfold enable_begin in Ha. destruct (entry s) as [[e q]|] eqn:Hent; [|done]. injection Ha as <-. by split_and!.
  - unfold enable_end in Ha. destruct (enablers s !! i) as [e|]; [|done]. injection Ha as <-. split_and!; try done. apply Hset.
  - unfold lose in Ha. destruct (encodings s !! e) as [[p cb]|] eqn:Hx; [|done]. apply He in Hx. cbn in Hx. by subst p.
  - unfold notify in Ha. destruct (encodings s !! e) as [[p cb]|] eqn:Hx; [|done]. apply He in Hx. cbn in Hx. by subst p.
  - unfold trigger_step in Ha. by rewrite Htr in Ha.
  - unfold thin_thread_step, thread_step in Ha. destruct (thread s) as [[]|]; done.
  - unfold remover_step in Ha. destruct (remover s) eqn:Hrm; try done.
    + destruct (entry s) as [[e q]|] eqn:Hent; [|done]. injection Ha as <-. by split_and!.
    + injection Ha as <-. by split_and!.
    + injection Ha as <-. by split_and!.
    + injection Ha as <-. destruct (thread s) eqn:Ht; split_and!; cbn; try done; by rewrite ?Ht.
    + destruct (thread s) as [[]|] eqn:Ht; try done. injection Ha as <-. by split_and!.
    + destruct (reader_idle s e); [|done]. injection Ha as <-. split_and!; try done. apply Hstop.
    + injection Ha as <-. by split_and!.
Qed.

(** Finding.  A handshake that fails after the transport has reconnected ends the
    reconnection for good: the read thread that would start another one has ended.
    Until somebody removes it, the entry keeps an encoding that has ended and a queue
    that takes messages. *)
Theorem failed_handshake_ends_reconnection :
  exists s e q, thin_reaches connected s /\ entry s = Some (e, q) /\ running s = [q] /\ stopping s = false
    /\ forall s', thin_reaches s s' ->
       (remover s' = RmIdle -> entry s' = Some (e, q)) /\ thread_active (thread s') = false
       /\ forall e' enc, encodings s' !! e' = Some enc -> phase enc = Ended.
Proof.
  set (run := opening ++ losing 0 ++ replicate 3 (Reconnect (outside true NotPushed)) ++ [Reconnect (outside true ShakeFailed)]).
  destruct (thin_acts connected run) as [s|] eqn:Hrun; [|vm_compute in Hrun; discriminate Hrun].
  exists s, 0%nat, 1%nat. split; [by exists run|].
  assert (HP : entry s = Some (0, 1)%nat /\ running s = [1%nat] /\ stopping s = false /\ thread_active (thread s) = false
    /\ triggers s = [] /\ connector s = None /\ forall e enc, encodings s !! e = Some enc -> phase enc = Ended).
  { vm_compute in Hrun. injection Hrun as <-. split_and!; try done. cbn. intros e enc He.
    change (({[0%nat := mkEnc Ended true]} : gmap nat Enc) !! e = Some enc) in He.
    by apply lookup_singleton_Some in He as [_ <-]. }
  clear Hrun. destruct HP as (H1 & H2 & H3 & H4 & H5 & H6 & H7). do 3 (split; [assumption|]). intros s' [l Hl].
  assert (He : remover s = RmIdle -> entry s = Some (0, 1)%nat) by done. clear H1 H2 H3 run. revert s He H4 H5 H6 H7 Hl.
  induction l as [|a l IH]; intros s He H4 H5 H6 H7; cbn; [by intros [= <-]|].
  destruct (thin_act s a) as [s1|] eqn:Ha; [|done]. cbn. destruct (ended_stays s a s1) as (A1 & A2 & A3 & A4 & A5 & A6); try done.
  apply IH; try done. intros Hi. rewrite (A1 Hi). by apply He, A6.
Qed.

(** ** A removal never blocks *)

(** What the threads do by themselves: nothing is lost, opened or enabled. *)
Definition internal (a : Action) : Prop := match a with Notify _ | Trigger _ | Reconnect _ | Remove => True | _ => False end.
Definition leads (s s' : Sys) : Prop := exists l, Forall internal l /\ thin_acts s l = Some s'.

#[local] Instance leads_refl : Reflexive leads.
Proof. intros s. by exists []. Qed.
#[local] Instance leads_trans : Transitive leads.
Proof.
  intros a b c (l & Fl & Hl) (k & Fk & Hk). exists (l ++ k). split; [by apply Forall_app|]. rewrite thin_acts_app, Hl. exact Hk.
Qed.

Lemma leads_act s a s' : internal a -> thin_act s a = Some s' -> leads s s'.
Proof. intros Hi Ha. exists [a]. split; [by constructor|]. cbn. by rewrite Ha. Qed.

Lemma leads_inv s s' : leads s s' -> sys_inv s -> sys_inv s'.
Proof. intros (l & _ & Hl) I. by eapply thin_acts_inv. Qed.

(** The thread is not where only the full client's can be, and exists while it is
    joined. *)
Definition full_only (t : option ThreadPc) : bool := match t with Some ThLoop | Some ThSleep | Some ThSleeping => true | _ => false end.
Definition once (s : Sys) : Prop :=
  full_only (thread s) = false /\ match remover s with RmJoin _ _ => thread s <> None | _ => True end.

Lemma thin_act_once s a s' : once s -> thin_act s a = Some s' -> once s'.
Proof.
  intros [Ho Hj] Ha. split.
  - destruct a; thin_action in Ha; try (by branches Ha).
    + unfold thin_thread_step, thread_step in Ha. destruct (thread s) as [[]|] eqn:Ht; try done;
        repeat match type of Ha with context [match ?x with _ => _ end] => destruct x end; try done; by injection Ha as <-.
    + unfold remover_step, mbind, option_bind in Ha.
      repeat match type of Ha with context [match ?x with _ => _ end] => destruct x eqn:? end; try done; injection Ha as <-; cbn; congruence.
  - assert (Hsome : a <> Remove -> remover s' = remover s /\ (thread s <> None -> thread s' <> None)).
    { intros Hne. destruct a as [| |i|e|e|i|o|]; try done; thin_action in Ha.
      7: { unfold thin_thread_step, thread_step in Ha. destruct (thread s) as [[]|] eqn:Ht; try done;
             repeat match type of Ha with context [match ?x with _ => _ end] => destruct x end; try done; by injection Ha as <-. }
      all: branches Ha; done. }
    destruct a as [| |i|e|e|i|o|]; try (destruct Hsome as [-> Ht]; [done|]; destruct (remover s); auto).
    thin_action in Ha. unfold remover_step, mbind, option_bind in Ha.
    repeat match type of Ha with context [match ?x with _ => _ end] => destruct x eqn:? end; try done; injection Ha as <-; cbn; (done || congruence).
Qed.

(** Read threads inside [triggerReconnect] return, and leave an active thread alone. *)
Definition trigger_weight (t : nat * TriggerPc) : nat := match t.2 with TCheck => 3 | TSwap => 2 | TLock => 1 end.
Definition triggers_weight (s : Sys) : nat := foldr (fun t n => trigger_weight t + n)%nat 0%nat (triggers s).

Lemma triggers_return n s :
  (triggers_weight s <= n)%nat -> sys_inv s -> mutex_free s = true \/ thread_active (thread s) = true ->
  exists s', leads s s' /\ triggers s' = [] /\ encodings s' = encodings s /\ remover s' = remover s
    /\ (thread_active (thread s) = true -> thread s' = thread s).
Proof.
  revert s. induction n as [|n IH]; intros s Hw I Hm; destruct (triggers s) as [|[e pc] l] eqn:Ht;
    try (by exists s; split; [done|]; rewrite Ht).
  { unfold triggers_weight in Hw. rewrite Ht in Hw. cbn in Hw. destruct pc; cbn in Hw; lia. }
  assert (Hstep : exists s1, trigger_step s 0 = Some s1 /\ encodings s1 = encodings s /\ remover s1 = remover s
    /\ (triggers_weight s1 < triggers_weight s)%nat
    /\ (thread_active (thread s) = true -> thread s1 = thread s) /\ (thread_active (thread s1) = true \/ thread s1 = thread s)).
  { pose proof (inv_single s I) as Hs. unfold trigger_step, triggers_weight. rewrite Ht. cbn. destruct pc.
    - destruct (stopping s); (eexists; split; [done|]); cbn; split_and!; auto; lia.
    - destruct (inProgress s); (eexists; split; [done|]); cbn; split_and!; auto; lia.
    - unfold reconnecting in Hs. rewrite Ht, locked_cons in Hs. cbn [is_lock snd Nat.b2n] in Hs.
      destruct (thread_active (thread s)) eqn:Hact; [destruct (inProgress s); cbn in Hs; lia|]. destruct Hm as [->|]; [|done].
      eexists. split; [done|]. cbn. split_and!; auto. lia. }
  destruct Hstep as (s1 & Ha & E1 & E2 & E3 & E4 & E5).
  destruct (IH s1) as (s' & L & T' & E' & R' & A').
  - lia.
  - by eapply (thin_act_inv s (Trigger 0)).
  - unfold mutex_free in *. rewrite E2. destruct E5 as [|E5]; [by right|]. destruct Hm as [|Hm]; [by left|right; congruence].
  - exists s'. split; [etrans; [by eapply (leads_act s (Trigger 0))|done]|]. split_and!; try congruence.
    intros Hact. rewrite <- (E4 Hact). apply A'. by rewrite (E4 Hact).
Qed.

(** An encoding can be stopped: its read thread has returned. *)
Lemma readers_settle s e :
  sys_inv s -> mutex_free s = true \/ thread_active (thread s) = true ->
  exists s', leads s s' /\ reader_idle s' e = true /\ remover s' = remover s
    /\ (thread_active (thread s) = true -> thread s' = thread s).
Proof.
  intros I Hm. destruct (triggers_return _ s (le_n _) I Hm) as (s1 & L1 & T1 & E1 & R1 & A1).
  assert (Hm1 : mutex_free s1 = true \/ thread_active (thread s1) = true).
  { unfold mutex_free in *. rewrite R1. destruct Hm as [|Hm]; [by left|right]. by rewrite (A1 Hm). }
  destruct (encodings s1 !! e) as [[[] cb]|] eqn:Hx;
    try (exists s1; split; [done|]; unfold reader_idle; rewrite Hx, T1; by split_and!).
  set (s2 := if cb then set_triggers (set_encodings s1 (<[e := mkEnc Ended cb]> (encodings s1))) (triggers s1 ++ [(e, TCheck)])
             else set_encodings s1 (<[e := mkEnc Ended cb]> (encodings s1))).
  assert (Hn : notify s1 e = Some s2) by (unfold notify, s2; rewrite Hx; by destruct cb).
  assert (H2 : remover s2 = remover s1 /\ thread s2 = thread s1 /\ encodings s2 !! e = Some (mkEnc Ended cb)).
  { unfold s2. destruct cb; cbn; by rewrite lookup_insert_eq. }
  destruct H2 as (R2 & Th2 & X2).
  destruct (triggers_return _ s2 (le_n _)) as (s3 & L3 & T3 & E3 & R3 & A3).
  - eapply (thin_act_inv s1 (Notify e)); [by eapply leads_inv|done].
  - unfold mutex_free in *. by rewrite R2, Th2.
  - exists s3. split; [etrans; [exact L1|]; etrans; [by eapply (leads_act s1 (Notify e))|exact L3]|].
    split; [unfold reader_idle; by rewrite E3, X2, T3|]. split; [congruence|]. intros Hact.
    rewrite A3, Th2 by (rewrite Th2, (A1 Hact); done). by apply A1.
Qed.

Lemma leads_once s s' : leads s s' -> once s -> once s'.
Proof.
  intros (l & _ & Hl). revert s Hl. induction l as [|a l IH]; intros s; cbn; [by intros [= <-]|].
  destruct (thin_act s a) as [s1|] eqn:Ha; [|done]. cbn. intros Hl Ho. eapply IH; [done|]. by eapply thin_act_once.
Qed.

(** How far the reconnect thread is from its end, when the network fails it. *)
Definition thread_rank (t : option ThreadPc) : nat :=
  match t with
  | None | Some ThDone => 0
  | Some ThFinish => 1 | Some (ThCallback _) => 2 | Some (ThOldEncoding _ _) => 3 | Some (ThOldQueue _ _ _) => 4
  | Some (ThInstall _ _) => 5 | Some (ThQueue _) => 6 | Some (ThStartEnc _) => 7 | Some (ThReady _) => 8
  | Some ThShake => 9 | Some ThConnect => 10 | Some ThCheck => 11 | Some ThStart => 12
  | Some ThLoop | Some ThSleep | Some ThSleeping => 13
  end.

Definition refusing : Outside := mkOutside false NotPushed false.

(** A step that brings an active thread closer to its end, after its readers settled. *)
Lemma thread_advances s :
  sys_inv s -> once s -> thread_active (thread s) = true ->
  exists s', leads s s' /\ remover s' = remover s /\ thread s' <> None /\ (thread_rank (thread s') < thread_rank (thread s))%nat.
Proof.
  intros I Ho Hact.
  assert (Hone : forall s1 s2, leads s s1 -> remover s1 = remover s -> thread s1 = thread s ->
    thin_thread_step s1 refusing = Some s2 -> remover s2 = remover s1 -> thread s2 <> None ->
    (thread_rank (thread s2) < thread_rank (thread s))%nat ->
    exists s', leads s s' /\ remover s' = remover s /\ thread s' <> None /\ (thread_rank (thread s') < thread_rank (thread s))%nat).
  { intros s1 s2 L1 R1 T1 Hs R2 N2 K. exists s2. split; [etrans; [exact L1|by eapply (leads_act s1 (Reconnect refusing))]|].
    split; [congruence|done]. }
  destruct Ho as [Ho _]. destruct (thread s) as [t|] eqn:Ht; [|done].
  assert (Hnow : forall s2, thin_thread_step s refusing = Some s2 -> remover s2 = remover s -> thread s2 <> None ->
    (thread_rank (thread s2) < thread_rank (Some t))%nat ->
    exists s', leads s s' /\ remover s' = remover s /\ thread s' <> None /\ (thread_rank (thread s') < thread_rank (Some t))%nat)
    by (intros s2 H2 ???; eapply (Hone s s2); done).
  unfold thin_thread_step, thread_step in Hnow. rewrite Ht in Hnow.
  destruct t as [| | | | | | |e|e|e|e q|e oldE oldQ|e oldE|e| |]; try done; cbn [shake refusing starts reconnected negb orb] in Hnow.
  - destruct (entry s); eapply Hnow; try done; cbn; lia.
  - destruct (stopping s); eapply Hnow; try done; cbn; lia.
  - eapply Hnow; try done; cbn; lia.
  - eapply Hnow; try done; cbn; lia.
  - destruct (stopping s); eapply Hnow; try done; cbn; lia.
  - eapply Hnow; try done; cbn; lia.
  - eapply Hnow; try done; cbn; lia.
  - destruct (readers_settle s e I) as (s1 & L1 & Hi & R1 & A1); [right; by rewrite Ht|]. rewrite Ht in A1. specialize (A1 eq_refl).
    destruct (thin_thread_step s1 refusing) as [s2|] eqn:H2.
    + eapply (Hone s1 s2); try done; unfold thin_thread_step, thread_step in H2; rewrite A1, Hi in H2;
        destruct (entry s1) as [[oldE oldQ]|], (stopping s1); injection H2 as <-; cbn; try done; lia.
    + unfold thin_thread_step, thread_step in H2. rewrite A1, Hi in H2. by destruct (entry s1) as [[oldE oldQ]|], (stopping s1).
  - eapply Hnow; try done; cbn; lia.
  - destruct (readers_settle s oldE I) as (s1 & L1 & Hi & R1 & A1); [right; by rewrite Ht|]. rewrite Ht in A1. specialize (A1 eq_refl).
    eapply Hone; [exact L1|done|done|unfold thin_thread_step, thread_step; rewrite A1, Hi; done|done|done|cbn; lia].
  - eapply Hnow; try done; cbn; lia.
  - eapply Hnow; try done; cbn; lia.
Qed.

Lemma thread_ends n s :
  (thread_rank (thread s) <= n)%nat -> sys_inv s -> once s -> thread s <> None ->
  exists s', leads s s' /\ remover s' = remover s /\ thread s' = Some ThDone.
Proof.
  revert s. induction n as [|n IH]; intros s Hn I Ho Hne; destruct (thread_active (thread s)) eqn:Hact.
  - destruct (thread s) as [[]|]; cbn in *; try done; lia.
  - exists s. split; [done|]. split; [done|]. destruct (thread s) as [[]|]; done.
  - destruct (thread_advances s I Ho Hact) as (s1 & L1 & R1 & N1 & K1).
    destruct (IH s1) as (s' & L' & R' & T'); [lia|by eapply leads_inv|by eapply leads_once|done|].
    exists s'. split; [by etrans|]. split; [congruence|done].
  - exists s. split; [done|]. split; [done|]. destruct (thread s) as [[]|]; done.
Qed.

(** From the position where the encoding is stopped to the end. *)
Lemma remover_closes s e q : sys_inv s -> remover s = RmEncoding e q -> exists s', leads s s' /\ remover s' = RmDone.
Proof.
  intros I Hr. destruct (readers_settle s e I) as (s1 & L1 & Hi & R1 & _); [left; unfold mutex_free; by rewrite Hr|].
  eexists. split; [etrans; [exact L1|]; etrans; [eapply (leads_act s1 Remove); [done|]|eapply leads_act with (a := Remove); [done|]]|].
  - thin_action. unfold remover_step. rewrite R1, Hr, Hi. done.
  - thin_action. unfold remover_step. cbn [remover set_remover]. done.
  - done.
Qed.

Lemma remover_waits s e q : sys_inv s -> once s -> remover s = RmJoin e q -> exists s', leads s s' /\ remover s' = RmDone.
Proof.
  intros I Ho Hr. assert (Hne : thread s <> None) by (destruct Ho as [_ Hj]; by rewrite Hr in Hj).
  destruct (thread_ends _ s (le_n _) I Ho Hne) as (s2 & L2 & R2 & T2).
  assert (Hjoin : exists s3, thin_act s2 Remove = Some s3 /\ remover s3 = RmEncoding e q).
  { thin_action. unfold remover_step. rewrite R2, Hr, T2. by eexists. }
  destruct Hjoin as (s3 & Ha3 & R3). destruct (remover_closes s3 e q) as (s' & L' & R'); [|done|].
  - eapply thin_act_inv; [|done]. by eapply leads_inv.
  - exists s'. split; [|done]. etrans; [done|]. etrans; [by eapply (leads_act s2 Remove)|done].
Qed.

Lemma remover_joins s e q : sys_inv s -> once s -> remover s = RmLock e q -> exists s', leads s s' /\ remover s' = RmDone.
Proof.
  intros I Ho Hr.
  assert (Hlock : exists s1, thin_act s Remove = Some s1
    /\ (remover s1 = RmEncoding e q \/ remover s1 = RmJoin e q)).
  { thin_action. unfold remover_step. rewrite Hr. eexists. split; [done|]. cbn. destruct (thread s); auto. }
  destruct Hlock as (s1 & Ha & R1). pose proof (thin_act_inv _ _ _ I Ha) as I1. pose proof (thin_act_once _ _ _ Ho Ha) as O1.
  assert (Hend : exists s', leads s1 s' /\ remover s' = RmDone) by (destruct R1; [by eapply remover_closes|by eapply remover_waits]).
  destruct Hend as (s' & L' & R'). exists s'. split; [|done]. etrans; [by eapply (leads_act s Remove)|done].
Qed.

Lemma remover_stops s e q : sys_inv s -> once s -> remover s = RmStop e q -> exists s', leads s s' /\ remover s' = RmDone.
Proof.
  intros I Ho Hr. assert (Ha : thin_act s Remove = Some (set_remover s (RmLock e q))) by (thin_action; unfold remover_step; by rewrite Hr).
  destruct (remover_joins (set_remover s (RmLock e q)) e q) as (s' & L & R); [by eapply thin_act_inv|by eapply thin_act_once|done|].
  exists s'. split; [|done]. etrans; [by eapply (leads_act s Remove)|done].
Qed.

(** C21.  A removal of a thin client's connection is never stuck.  Wherever the threads
    are when somebody has begun to remove the connection, they can go on by
    themselves until the removal has returned: nothing waits for ever. *)
Theorem thin_removal_returns s :
  thin_reaches connected s -> remover s <> RmIdle ->
  exists l s', Forall internal l /\ thin_acts s l = Some s' /\ remover s' = RmDone.
Proof.
  intros [l0 Hl0] Hne. assert (I : sys_inv s) by (by eapply thin_acts_inv, Hl0; apply inv_connected).
  assert (Ho : once s).
  { assert (H0 : once connected) by done. clear -Hl0 H0. revert H0 Hl0. generalize connected. induction l0 as [|a l IH]; intros s0 H0; cbn; [by intros [= <-]|].
    destruct (thin_act s0 a) eqn:Ha; [|done]. cbn. apply IH. by eapply thin_act_once. }
  enough (exists s', leads s s' /\ remover s' = RmDone) as (s' & (l & Fl & Hl) & R) by (by exists l, s').
  destruct (remover s) as [|e q|e q|e q|e q|e q|q|] eqn:Hr; try done.
  - assert (Ha : exists s1, thin_act s Remove = Some s1 /\ remover s1 = RmStop e q).
    { thin_action. unfold remover_step. rewrite Hr. by eexists. }
    destruct Ha as (s1 & Ha & R1). destruct (remover_stops s1 e q) as (s' & L & R); [by eapply thin_act_inv|by eapply thin_act_once|done|].
    exists s'. split; [|done]. etrans; [by eapply (leads_act s Remove)|done].
  - by eapply remover_stops.
  - by eapply remover_joins.
  - by eapply remover_waits.
  - by eapply remover_closes.
  - eexists. split; [eapply (leads_act s Remove); [done|thin_action; unfold remover_step; by rewrite Hr]|done].
  - by exists s.
Qed.

(** ** Witnesses: a lost connection that is removed while its thread reconnects *)
Definition removal : list Action := opening ++ losing 0 ++ replicate 3 (Reconnect (outside true ShakeDone)) ++ [Remove; Remove].

Lemma thin_connection_resources_witness :
  exists s, thin_acts connected removal = Some s /\ NoDup (running s) /\ inProgress s = true.
Proof.
  destruct (thin_acts connected removal) as [s|] eqn:Hrun; [|vm_compute in Hrun; discriminate Hrun]. exists s. split; [reflexivity|].
  split; [|vm_compute in Hrun; injection Hrun as <-; reflexivity].
  destruct (thin_connection_resources s) as ((_ & Hd) & _); [by exists removal|exact Hd].
Defined.

Lemma thin_removal_returns_witness :
  exists s, thin_acts connected removal = Some s /\ remover s = RmStop 0 1
    /\ exists l s', Forall internal l /\ thin_acts s l = Some s' /\ remover s' = RmDone.
Proof.
  destruct (thin_acts connected removal) as [s|] eqn:Hrun; [|vm_compute in Hrun; discriminate Hrun]. exists s. split; [reflexivity|].
  assert (Hr : remover s = RmStop 0 1) by (vm_compute in Hrun; injection Hrun as <-; reflexivity). split; [exact Hr|].
  apply (thin_removal_returns s); [by exists removal|rewrite Hr; discriminate].
Defined.
