(* ===== verification/ThinClient.v ===== *)
(** * client/cpp/rsp_client.cpp: requests of the thin client

    Pings, endorsement requests, resource and schema queries, and the handler that
    hands a received message to the part of the client it belongs to.  A call that
    waits is modelled as the parts around its wait; [beginEndorsementRequest], which
    waits several times, as a function of what sending a message and waiting do to the
    world.  [random] gives the identifiers that default constructors draw.

    The second half puts the client and the endorsement service together. *)

From S2P Require Import Prelude BaseTypes Proto GuidBytes KeyPair EndorsementCodec FieldResolver Requirement MessageHash Signing.
From S2P Require Import IdentityCache DateTimes Logging AesNegotiation Node ServiceMessage EndorsementService NameService.
From S2P Require Import ResourceQuery ResourceManager Connections BsdSockets StreamClient NameClient.

(** ** State *)
Record PendingPing := mkPendingPing { pp_destination : NodeID; pp_sequence : Z; pp_completed : bool }.

(** The status is the number of the protobuf enumeration. *)
Record EndorsementResult := mkEndorsementResult { er_status : Enum; newEndorsement : option Endorsement.t }.
Record PendingEndorsementState := mkPendingEndorsement {
  pe_destination : NodeID; pe_completed : bool; pe_result : option EndorsementResult }.

Record ClientService := mkService { cs_nodeId : NodeID; cs_protoFileName : bytes; cs_acceptedTypeUrls : list bytes }.
Record ResourceQueryResult := mkQueryResult { rqr_success : bool; rqr_services : list ClientService }.
Record SchemaInfo := mkSchemaInfo {
  si_protoFileName : bytes; si_descriptorSet : bytes; si_acceptedTypeUrls : list bytes; si_schemaVersion : Z }.

Record Requests := mkRequests {
  pendingPings_ : gmap bytes PendingPing;
  nextPingSequence_ : Z;
  pendingEndorsements_ : gmap bytes PendingEndorsementState;
  pendingResourceAdvertisements_ : list (list ClientService);
  pendingResourceQueryReplies_ : list ResourceQueryResult;
  resourceListPending_ : bool;
  resourceListResult_ : option ResourceQueryResult;
  pendingSchemaReplies_ : list SchemaInfo;
  rc_stopping : bool }.

Definition initial_requests : Requests := mkRequests ∅ 1 ∅ [] [] false None [] false.

Definition set_pings (c : Requests) m : Requests :=
  mkRequests m (nextPingSequence_ c) (pendingEndorsements_ c) (pendingResourceAdvertisements_ c) (pendingResourceQueryReplies_ c)
    (resourceListPending_ c) (resourceListResult_ c) (pendingSchemaReplies_ c) (rc_stopping c).
Definition set_sequence (c : Requests) z : Requests :=
  mkRequests (pendingPings_ c) z (pendingEndorsements_ c) (pendingResourceAdvertisements_ c) (pendingResourceQueryReplies_ c)
    (resourceListPending_ c) (resourceListResult_ c) (pendingSchemaReplies_ c) (rc_stopping c).
Definition set_endorsements (c : Requests) m : Requests :=
  mkRequests (pendingPings_ c) (nextPingSequence_ c) m (pendingResourceAdvertisements_ c) (pendingResourceQueryReplies_ c)
    (resourceListPending_ c) (resourceListResult_ c) (pendingSchemaReplies_ c) (rc_stopping c).
Definition set_advertisements (c : Requests) l : Requests :=
  mkRequests (pendingPings_ c) (nextPingSequence_ c) (pendingEndorsements_ c) l (pendingResourceQueryReplies_ c)
    (resourceListPending_ c) (resourceListResult_ c) (pendingSchemaReplies_ c) (rc_stopping c).
Definition set_query_replies (c : Requests) l : Requests :=
  mkRequests (pendingPings_ c) (nextPingSequence_ c) (pendingEndorsements_ c) (pendingResourceAdvertisements_ c) l
    (resourceListPending_ c) (resourceListResult_ c) (pendingSchemaReplies_ c) (rc_stopping c).
Definition set_resource_list (c : Requests) pending result : Requests :=
  mkRequests (pendingPings_ c) (nextPingSequence_ c) (pendingEndorsements_ c) (pendingResourceAdvertisements_ c)
    (pendingResourceQueryReplies_ c) pending result (pendingSchemaReplies_ c) (rc_stopping c).
Definition set_schema_replies (c : Requests) l : Requests :=
  mkRequests (pendingPings_ c) (nextPingSequence_ c) (pendingEndorsements_ c) (pendingResourceAdvertisements_ c)
    (pendingResourceQueryReplies_ c) (resourceListPending_ c) (resourceListResult_ c) l (rc_stopping c).

(** ** Ping *)
Section Ping.
Context `{M : MathLib}.

Definition thin_pingRequest (nodeId : NodeID) (nonce : bytes) (sequence : Z) (now : DateTime.t) : RSPMessage.t :=
  RSPMessage.set_core (to_destination (toProtoNodeId nodeId))
    (Some (PingRequestMessage (PingRequest.mk (Some nonce) sequence (Some (toProtoDateTime now))))).

(** [ping] up to [send]; [emplace] keeps an existing entry. *)
Definition thin_ping_begin (c : Requests) (nodeId : NodeID) (nonce : bytes) (now : DateTime.t) : RSPMessage.t * Requests :=
  let next := nextPingSequence_ c in
  let pings := match pendingPings_ c !! nonce with
               | Some _ => pendingPings_ c
               | None => <[nonce := mkPendingPing nodeId next false]> (pendingPings_ c)
               end in
  (thin_pingRequest nodeId nonce next now, set_pings (set_sequence c (wrap 32 (next + 1))) pings).
End Ping.

Definition thin_ping_unsent (c : Requests) (nonce : bytes) : Requests := set_pings c (delete nonce (pendingPings_ c)).

(** The predicate of the wait. *)
Definition thin_ping_ready (c : Requests) (nonce : bytes) : bool :=
  rc_stopping c || match pendingPings_ c !! nonce with Some p => pp_completed p | None => false end.

(** [ping] after the wait. *)
Definition thin_ping_end (c : Requests) (nonce : bytes) : bool * Requests :=
  (thin_ping_ready c nonce && negb (rc_stopping c), set_pings c (delete nonce (pendingPings_ c))).

Definition thin_handlePingReply (c : Requests) (message : RSPMessage.t) (reply : PingReply.t) : Requests :=
  match PingReply.nonce reply with
  | None => c
  | Some nonce =>
      match pendingPings_ c !! nonce with
      | None => c
      | Some p =>
          if negb (PingReply.sequence reply =? pp_sequence p) then c
          else match senderNodeIdFromMessage message with
               | None => c
               | Some source =>
                   if negb (bool_decide (source = pp_destination p)) then c
                   else set_pings c (<[nonce := mkPendingPing (pp_destination p) (pp_sequence p) true]> (pendingPings_ c))
               end
      end
  end.

(** ** Resources and schemas *)
Definition discoveredServiceFromProto (random : NodeID) (svc : DiscoveredService.t) : ClientService :=
  let nodeId := id_field (DiscoveredService.node_id svc) random in
  match DiscoveredService.schema svc with
  | Some schema => mkService nodeId (ServiceSchema.proto_file_name schema) (ServiceSchema.accepted_type_urls schema)
  | None => mkService nodeId [] []
  end.

Definition queryResources_request (nodeId : NodeID) (query : bytes) (maxRecords : Z) : RSPMessage.t :=
  RSPMessage.set_core (to_destination (toProtoNodeId nodeId))
    (Some (ResourceQueryMessage (ResourceQuery.mk (match query with [] => [] | _ => query end)
             (if 0 <? maxRecords then maxRecords else 0)))).

Definition resourceList_begin (c : Requests) : Requests := set_resource_list c true None.
Definition resourceList_unsent (c : Requests) : Requests := set_resource_list c false (resourceListResult_ c).

(** [resourceList] after the wait. *)
Definition resourceList_end (c : Requests) : option ResourceQueryResult * Requests :=
  let replied := rc_stopping c || negb (resourceListPending_ c) in
  match resourceListResult_ c with
  | Some result => if negb replied || rc_stopping c then (None, set_resource_list c false (resourceListResult_ c))
                   else (Some result, set_resource_list c (resourceListPending_ c) None)
  | None => (None, set_resource_list c false (resourceListResult_ c))
  end.

Definition querySchemas_request (nodeId : NodeID) (protoFileName schemaHash : bytes) : RSPMessage.t :=
  RSPMessage.set_core (to_destination (toProtoNodeId nodeId))
    (Some (SchemaRequestMessage (SchemaRequest.mk (match protoFileName with [] => None | _ => Some protoFileName end)
                                                  (match schemaHash with [] => None | _ => Some schemaHash end)))).

Definition tryDequeueResourceAdvertisement (c : Requests) : option (list ClientService) * Requests :=
  match pendingResourceAdvertisements_ c with [] => (None, c) | a :: l => (Some a, set_advertisements c l) end.
Definition pendingResourceAdvertisementCount (c : Requests) : nat := List.length (pendingResourceAdvertisements_ c).
Definition tryDequeueResourceQueryReply (c : Requests) : option ResourceQueryResult * Requests :=
  match pendingResourceQueryReplies_ c with [] => (None, c) | a :: l => (Some a, set_query_replies c l) end.
Definition pendingResourceQueryReplyCount (c : Requests) : nat := List.length (pendingResourceQueryReplies_ c).
Definition tryDequeueSchemaReply (c : Requests) : option SchemaInfo * Requests :=
  match pendingSchemaReplies_ c with [] => (None, c) | a :: l => (Some a, set_schema_replies c l) end.
Definition pendingSchemaReplyCount (c : Requests) : nat := List.length (pendingSchemaReplies_ c).

Definition schemaInfo (schema : ServiceSchema.t) : SchemaInfo :=
  mkSchemaInfo (ServiceSchema.proto_file_name schema) (ServiceSchema.proto_file_descriptor_set schema)
    (ServiceSchema.accepted_type_urls schema) (ServiceSchema.schema_version schema).

Definition handleSchemaReply (c : Requests) (schemas : list ServiceSchema.t) : Requests :=
  set_schema_replies c (pendingSchemaReplies_ c ++ (schemaInfo <$> schemas)).

Definition handleResourceQueryReply (random : nat -> NodeID) (c : Requests) (services : list DiscoveredService.t) : Requests :=
  let result := mkQueryResult true (imap (fun i svc => discoveredServiceFromProto (random i) svc) services) in
  if resourceListPending_ c then set_resource_list c false (Some result)
  else set_query_replies c (pendingResourceQueryReplies_ c ++ [result]).

(** The node id of a service keeps the random value of its constructor. *)
Definition handleResourceAdvertisement (random : nat -> NodeID) (c : Requests) (advertisement : ResourceAdvertisement.t) : Requests :=
  let services := imap (fun i schema => mkService (random i) (ServiceSchema.proto_file_name schema)
                                          (ServiceSchema.accepted_type_urls schema))
                       (ResourceAdvertisement.schemas advertisement) in
  set_advertisements c (pendingResourceAdvertisements_ c ++ [services]).

(** ** Endorsements *)
Section Endorsements.
Context `{C : Crypto} `{M : MathLib} (serializeDeterministic : Endorsement.t -> bytes).
Context `{RequestType : !ServiceMessageType BeginEndorsementRequest.t} `{DoneType : !ServiceMessageType EndorsementDone.t}.

(** [completed] is set before [fromProto] can throw, which ends the process: nothing
    catches it in the worker of the input queue. *)
Definition handleEndorsementDone (c : Requests) (message : RSPMessage.t) : Res Requests :=
  match senderNodeIdFromMessage message with
  | None => Ok c
  | Some sourceNodeId =>
      let key := toProtoNodeId sourceNodeId in
      match pendingEndorsements_ c !! key with
      | None => Ok c
      | Some p =>
          if pe_completed p then Ok c
          else
            let done := default (EndorsementDone.mk ENDORSEMENT_SUCCESS None) (unpackServiceMessage EndorsementDone.t message) in
            new ← match EndorsementDone.new_endorsement done with
                  | Some e => e' ← Endorsement_fromProto e; Ok (Some e')
                  | None => Ok None
                  end;
            Ok (set_endorsements c (<[key := mkPendingEndorsement (pe_destination p) true
                                       (Some (mkEndorsementResult (EndorsementDone.status done) new))]> (pendingEndorsements_ c)))
      end
  end.

Definition identityMessage (keyPair : KeyPair) (nodeId : NodeID) : Res RSPMessage.t :=
  pk ← publicKey keyPair;
  Ok (RSPMessage.mk (Some (toProtoNodeId nodeId)) None None None None None None [] [Identity.mk None (Some pk) None] []).

Definition beginEndorsementRequestMessage (nodeId : NodeID) (requestedMessage : Endorsement.t) : RSPMessage.t :=
  packServiceMessage (to_destination (toProtoNodeId nodeId)) (BeginEndorsementRequest.mk (Some requestedMessage) None).

(** [waitForPendingEndorsement] after the wait. *)
Definition endorsement_ready (c : Requests) (key : bytes) : bool :=
  rc_stopping c || match pendingEndorsements_ c !! key with Some p => pe_completed p | None => false end.

Definition waitForPendingEndorsement_end (c : Requests) (key : bytes) : option EndorsementResult * Requests :=
  match pendingEndorsements_ c !! key with
  | Some p =>
      if negb (endorsement_ready c key) || rc_stopping c then (None, c)
      else (pe_result p, set_endorsements c (<[key := mkPendingEndorsement (pe_destination p) false None]> (pendingEndorsements_ c)))
  | None => (None, c)
  end.

(** The first critical section of [beginEndorsementRequest], where no request is pending. *)
Definition registerEndorsement (c : Requests) (nodeId : NodeID) : Requests :=
  set_endorsements c (<[toProtoNodeId nodeId := mkPendingEndorsement nodeId false None]> (pendingEndorsements_ c)).

Definition eraseEndorsement (c : Requests) (key : bytes) : Requests := set_endorsements c (delete key (pendingEndorsements_ c)).

(** A world with a client in it: [send] is [messageClient_->send], [wait] is what
    happens until a wait ends. *)
Section Call.
Context {W : Type} (requests : W -> Requests) (put : W -> Requests -> W).
Context (send : W -> RSPMessage.t -> Res (bool * W)) (wait : W -> Res W).

Definition sendIdentity (w : W) (keyPair : KeyPair) (nodeId : NodeID) : Res (bool * W) :=
  message ← identityMessage keyPair nodeId; send w message.

Definition waitForPendingEndorsement (w : W) (key : bytes) : Res (option EndorsementResult * W) :=
  w' ← wait w;
  let '(result, c) := waitForPendingEndorsement_end (requests w') key in
  Ok (result, put w' c).

(** The loop; [repairs] is 1 while [repairedUnknownIdentity] is false. *)
Fixpoint endorsement_loop (repairs : nat) (w : W) (keyPair : KeyPair) (nodeId : NodeID) (requestedMessage : Endorsement.t)
    : Res (option EndorsementResult * W) :=
  let key := toProtoNodeId nodeId in
  let erase (w : W) : W := put w (eraseEndorsement (requests w) key) in
  '(sent, w1) ← send w (beginEndorsementRequestMessage nodeId requestedMessage);
  if negb (sent : bool) then Ok (None, erase w1)
  else
    '(reply, w2) ← waitForPendingEndorsement w1 key;
    match (reply : option EndorsementResult) with
    | None => Ok (None, erase w2)
    | Some r =>
        match repairs, er_status r =? ENDORSEMENT_UNKNOWN_IDENTITY with
        | S repairs', true =>
            '(sent, w3) ← sendIdentity w2 keyPair nodeId;
            if negb (sent : bool) then Ok (None, erase w3)
            else endorsement_loop repairs' w3 keyPair nodeId requestedMessage
        | _, _ => Ok (Some r, erase w2)
        end
    end.

Definition beginEndorsementRequest (w : W) (keyPair : KeyPair) (nodeId : NodeID) (type : GUID) (value : bytes) (now : DateTime.t)
    : Res (option EndorsementResult * W) :=
  let key := toProtoNodeId nodeId in
  let c := requests w in
  match pendingEndorsements_ c !! key with
  | Some _ => Ok (None, w)
  | None =>
      let w1 := put w (registerEndorsement c nodeId) in
      subject ← nodeID keyPair;
      requested ← createSigned serializeDeterministic keyPair subject type value
                    (DateTime.millisecondsSinceEpoch (DateTime.add now one_day));
      requestedMessage ← Endorsement_toProto requested;
      endorsement_loop 1 w1 keyPair nodeId requestedMessage
  end.
End Call.

(** ** Receiving *)
Context `{Conn : !Transport.Connection} `{SM : StreamMessages} `{NM : NameMessages} `{E : EventTypes}.

Record ThinClient := mkThin {
  tc_requests : Requests; tc_streams : StreamClient; tc_names : NameCall; tc_registrations : Registrations }.

Definition with_requests (c : ThinClient) (r : Requests) : ThinClient := mkThin r (tc_streams c) (tc_names c) (tc_registrations c).

(** [RSPClient::handleNodeSpecificMessage]; the result carries the callbacks for events of nodes. *)
Definition thin_handleNodeSpecificMessage (random : nat -> NodeID) (rec : nat -> ClientNameRecord) (c : ThinClient)
    (message : RSPMessage.t) : Res (bool * list NodeEvent * ThinClient) :=
  let requests := tc_requests c in
  let core := RSPMessage.core_message message in
  match core with
  | Some (PingReplyMessage reply) => Ok (true, [], with_requests c (thin_handlePingReply requests message reply))
  | _ =>
  if hasServiceMessage EndorsementDone.t message then
    r ← handleEndorsementDone requests message; Ok (true, [], with_requests c r)
  else if hasServiceMessage StreamReply.t message then
    s ← handleStreamReply (random 0%nat) (tc_streams c) message;
    Ok (true, [], mkThin requests s (tc_names c) (tc_registrations c))
  else
  match core with
  | Some (ResourceAdvertisementMessage a) => Ok (true, [], with_requests c (handleResourceAdvertisement random requests a))
  | Some (ResourceQueryReply services) => Ok (true, [], with_requests c (handleResourceQueryReply random requests services))
  | Some (SchemaReply schemas) => Ok (true, [], with_requests c (handleSchemaReply requests schemas))
  | _ =>
  if isNameServiceReply message then
    Ok (true, [], mkThin requests (tc_streams c) (handleNameServiceReply rec (tc_names c) message) (tc_registrations c))
  else
  match core with
  | Some (LogSubscribeReplyMessage _) => Ok (true, [], c)
  | Some (LogRecordMessage _) =>
      let '(events, r) := handleLogRecord (tc_registrations c) message in
      Ok (true, events, mkThin requests (tc_streams c) (tc_names c) r)
  | _ => Ok (false, [], c)
  end
  end
  end.
End Endorsements.

Definition shouldHandleLocally (local : NodeID) (message : RSPMessage.t) : bool :=
  match RSPMessage.destination message with
  | None => true
  | Some destination => bool_decide (destination = toProtoNodeId local)
  end.

(** One turn of [receiveLoop] with [dispatchIncomingMessage]: [None] ends the thread,
    otherwise the message that is handed to the input queue, if any. *)
Definition receiveLoop_turn (local : NodeID) (stopping : bool) (dequeued : option RSPMessage.t) : option (option RSPMessage.t) :=
  if stopping then None
  else Some (message ← dequeued; if shouldHandleLocally local message then Some message else None).

(** ** The client and the endorsement service *)

(** The world of a client [me] and an endorsement service [svc]: the messages on their
    way to the service, the identity cache of the service, and how many messages it
    has handled. *)
Record EndorsementWorld (Callback : Type) := mkEndorsementWorld {
  ew_client : Requests; ew_mailbox : list RSPMessage.t; ew_cache : IdentityCache Callback; ew_ticks : nat }.
Arguments mkEndorsementWorld {Callback}.
Arguments ew_client {Callback}.
Arguments ew_mailbox {Callback}.
Arguments ew_cache {Callback}.
Arguments ew_ticks {Callback}.

(** What is kept of a message between its sender and its receiver. *)
Record same_content (m m' : RSPMessage.t) : Prop := {
  content_destination : RSPMessage.destination m' = RSPMessage.destination m;
  content_core : RSPMessage.core_message m' = RSPMessage.core_message m;
  content_service : RSPMessage.service_message m' = RSPMessage.service_message m;
  content_identities : RSPMessage.identities m' = RSPMessage.identities m }.

(** What the signing queue does to a message keeps its content and names the sender. *)
Lemma signed_content `{H : HashCodec} `{C : Crypto} `{L : !CryptoLaws C} k id m block :
  signMessage k m = Ok block -> nodeID k = Ok id ->
  same_content m (RSPMessage.set_signature m (Some block))
  /\ senderNodeIdFromMessage (RSPMessage.set_signature m (Some block)) = Some id.
Proof.
  intros Hs Hid. split; [done|]. assert (Hb : SignatureBlock.signer block = Some (serializeNodeIdBytes id)).
  { unfold signMessage, signBlock in Hs. destruct (messageSignatureInput m) as [input| | |]; try done. cbn [mbind res_bind] in Hs.
    destruct (sign k input); try done. cbn [mbind res_bind] in Hs. rewrite Hid in Hs. cbn [mbind res_bind] in Hs.
    destruct (algorithmForKey k); try done. by injection Hs as <-. }
  unfold senderNodeIdFromMessage. cbn [RSPMessage.signature RSPMessage.set_signature]. rewrite Hb.
  rewrite nodeIdFromSignerField_serialize; [done|]. by eapply nodeID_wf.
Qed.

Section Together.
Context `{C : Crypto} `{M : MathLib} (serializeDeterministic : Endorsement.t -> bytes).
Context `{RequestType : !ServiceMessageType BeginEndorsementRequest.t} `{DoneType : !ServiceMessageType EndorsementDone.t}.
Context {Callback : Type} (clientKey serviceKey : KeyPair) (me svc : NodeID).
Context (configured : list ConfiguredEndorsement) (clock : nat -> DateTime.t).
(** The way of a message from a node, with its signature. *)
Context (transit : NodeID -> RSPMessage.t -> RSPMessage.t).
Abbreviation W := (EndorsementWorld Callback).

Definition put_client (w : W) (c : Requests) : W := mkEndorsementWorld c (ew_mailbox w) (ew_cache w) (ew_ticks w).
Definition put_mailbox (w : W) (l : list RSPMessage.t) : W := mkEndorsementWorld (ew_client w) l (ew_cache w) (ew_ticks w).

Definition world_send (w : W) (m : RSPMessage.t) : Res (bool * W) := Ok (true, put_mailbox w (ew_mailbox w ++ [m])).

(** The client's part of [thin_handleNodeSpecificMessage] for this exchange. *)
Fixpoint client_receives (c : Requests) (l : list RSPMessage.t) : Res Requests :=
  match l with
  | [] => Ok c
  | m :: l' =>
      c' ← (if shouldHandleLocally me m && hasServiceMessage EndorsementDone.t m then handleEndorsementDone c m else Ok c);
      client_receives c' l'
  end.

(** The service observes a message, handles it, and the client receives what it answers. *)
Definition service_turn (w : W) (m : RSPMessage.t) : Res W :=
  let m' := transit me m in
  if negb (shouldHandleLocally svc m') then Ok w
  else
    '(_, _, cache) ← observeMessage (ew_cache w) m';
    '(_, replies) ← es_handleNodeSpecificMessage serializeDeterministic (fun _ => true) serviceKey (get cache) configured
                      (clock (ew_ticks w)) m';
    c ← client_receives (ew_client w) (transit svc <$> replies);
    Ok (mkEndorsementWorld c (ew_mailbox w) cache (S (ew_ticks w))).

Fixpoint service_turns (w : W) (l : list RSPMessage.t) : Res W :=
  match l with [] => Ok w | m :: l' => w' ← service_turn w m; service_turns w' l' end.

Definition world_wait (w : W) : Res W := service_turns (put_mailbox w []) (ew_mailbox w).

Definition requestEndorsement (w : W) (type : GUID) (value : bytes) (now : DateTime.t) : Res (option EndorsementResult * W) :=
  beginEndorsementRequest serializeDeterministic ew_client put_client world_send world_wait w clientKey svc type value now.

(** *** What the exchange relies on *)
Context `{L : !CryptoLaws C}.
Context (request_parses : parses BeginEndorsementRequest.t) (done_parses : parses EndorsementDone.t).
Context (transit_content : forall g m, same_content m (transit g m)).
Context (transit_me : forall m, senderNodeIdFromMessage (transit me m) = Some me).
Context (transit_svc : forall m, senderNodeIdFromMessage (transit svc m) = Some svc).

(** A key that stands for a node and can sign. *)
Record signing_key (k : KeyPair) (id : NodeID) : Prop := {
  sk_id : nodeID k = Ok id;
  sk_signs : forall b, exists s, sign k b = Ok s;
  sk_size : forall b s, sign k b = Ok s -> size_of s < 2 ^ 32 }.

Context (client_key : signing_key clientKey me) (service_key : signing_key serviceKey svc).
Context (pk : PublicKey.t) (client_pk : publicKey clientKey = Ok pk).

Abbreviation key := (toProtoNodeId svc).
Definition waiting (c : Requests) : Prop := pendingEndorsements_ c !! key = Some (mkPendingEndorsement svc false None).
Definition answered (c : Requests) (status : Enum) (new : option Endorsement.t) : Requests :=
  set_endorsements c (<[key := mkPendingEndorsement svc true (Some (mkEndorsementResult status new))]> (pendingEndorsements_ c)).

Lemma unpack_transit T `{ServiceMessageType T} g m : unpackServiceMessage T (transit g m) = unpackServiceMessage T m.
Proof. unfold unpackServiceMessage. by rewrite (content_service _ _ (transit_content g m)). Qed.

Lemma has_transit T `{ServiceMessageType T} g m : hasServiceMessage T (transit g m) = hasServiceMessage T m.
Proof. unfold hasServiceMessage. by rewrite (content_service _ _ (transit_content g m)). Qed.

Lemma local_transit local g m :
  RSPMessage.destination m = Some (toProtoNodeId local) -> shouldHandleLocally local (transit g m) = true.
Proof.
  intros Hd. unfold shouldHandleLocally. rewrite (content_destination _ _ (transit_content g m)), Hd.
  by rewrite bool_decide_eq_true_2.
Qed.

(** An answer of the service completes the pending request. *)
Lemma client_receives_answer c done :
  waiting c -> (forall e, EndorsementDone.new_endorsement done = Some e -> validateMessage e true = Ok tt) ->
  client_receives c [transit svc (packServiceMessage (to_destination (toProtoNodeId me)) done)]
  = Ok (answered c (EndorsementDone.status done) (EndorsementDone.new_endorsement done)).
Proof.
  intros Hw Hval. cbn [client_receives]. rewrite local_transit, has_transit, has_pack_same by done. cbn [andb].
  unfold handleEndorsementDone. rewrite transit_svc, Hw, unpack_transit, unpack_same by done.
  cbn [pe_completed default from_option Datatypes.id]. unfold Endorsement_fromProto, answered.
  destruct (EndorsementDone.new_endorsement done) as [e|] eqn:He; [rewrite (Hval e eq_refl)|]; done.
Qed.

(** A message without identities leaves the cache alone. *)
Lemma observe_nothing (c : IdentityCache Callback) m :
  RSPMessage.core_message m = None -> RSPMessage.identities m = [] -> observeMessage c m = Ok (false, [], c).
Proof. intros Hc Hi. unfold observeMessage. by rewrite Hc, Hi. Qed.

Abbreviation request v := (beginEndorsementRequestMessage svc v).

(** A request is answered by what [endorsementAnswer] says. *)
Lemma request_turn w v done :
  waiting (ew_client w) ->
  endorsementAnswer serializeDeterministic serviceKey (get (ew_cache w)) configured (clock (ew_ticks w)) (transit me (request v)) = Ok done ->
  (forall e, EndorsementDone.new_endorsement done = Some e -> validateMessage e true = Ok tt) ->
  service_turn w (request v)
  = Ok (mkEndorsementWorld (answered (ew_client w) (EndorsementDone.status done) (EndorsementDone.new_endorsement done))
          (ew_mailbox w) (ew_cache w) (S (ew_ticks w))).
Proof.
  intros Hw Ha Hval. unfold service_turn. destruct (transit_content me (request v)) as [_ Hc _ Hi].
  rewrite local_transit, observe_nothing by done. cbn [negb mbind res_bind].
  unfold es_handleNodeSpecificMessage. rewrite Hc, Hi. change (RSPMessage.core_message (request v)) with (@None CoreMessage).
  change (RSPMessage.identities (request v)) with (@nil Identity.t). cbn [orb negb].
  assert (Hh : hasServiceMessage BeginEndorsementRequest.t (request v) = true) by apply has_pack_same.
  rewrite has_transit, Hh.
  unfold handleBeginEndorsementRequest. rewrite Ha, transit_me. cbn [mbind res_bind list_fmap fmap].
  by rewrite client_receives_answer.
Qed.

(** Somebody the service does not know is told so. *)
Lemma unknown_turn w v :
  waiting (ew_client w) -> get (ew_cache w) me = None ->
  service_turn w (request v)
  = Ok (mkEndorsementWorld (answered (ew_client w) ENDORSEMENT_UNKNOWN_IDENTITY None)
          (ew_mailbox w) (ew_cache w) (S (ew_ticks w))).
Proof.
  intros Hw Hg. eapply (request_turn w v (EndorsementDone.mk ENDORSEMENT_UNKNOWN_IDENTITY None)); [done| |done].
  unfold endorsementAnswer. by rewrite transit_me, Hg.
Qed.

(** The identity message makes the client known. *)
Lemma identity_turn w m :
  identityMessage clientKey svc = Ok m -> cache_inv (ew_cache w) -> 0 < maximumEntries_ (ew_cache w) ->
  exists cache, service_turn w m = Ok (mkEndorsementWorld (ew_client w) (ew_mailbox w) cache (S (ew_ticks w)))
    /\ get cache me = Some (Identity.mk None (Some pk) None).
Proof.
  unfold identityMessage. rewrite client_pk. intros [= <-] I Hmax. set (m := RSPMessage.mk _ _ _ _ _ _ _ _ _ _).
  destruct (transit_content me m) as [Hd Hc Hs Hi].
  destruct (imported_key clientKey pk client_pk) as (k' & Hk & Hid & _). rewrite (sk_id _ _ client_key) in Hid.
  assert (Hacc : accepted (senderNodeIdFromMessage (transit me m)) (message_identities (transit me m))
    = [(me, Identity.mk None (Some pk) None)]).
  { rewrite transit_me. unfold message_identities. rewrite Hc, Hi. unfold accepted. cbn [m RSPMessage.core_message RSPMessage.identities app omap list_omap].
    unfold nodeIdFromIdentity. cbn [Identity.public_key default from_option Datatypes.id]. rewrite Hk. cbn [mbind res_bind]. rewrite Hid. cbn.
    by rewrite bool_decide_eq_true_2. }
  destruct (observeMessage_single (ew_cache w) (transit me m) me _ I Hmax Hacc) as (calls & cache & Ho & _ & Hg).
  exists cache. split; [|done]. unfold service_turn. rewrite local_transit, Ho by done. cbn [negb mbind res_bind].
  unfold es_handleNodeSpecificMessage. rewrite Hc, Hi. done.
Qed.

Lemma signing_size k id b s : signing_key k id -> sign k b = Ok s -> size_of (bufferToString s) < 2 ^ 32.
Proof. intros K Hs. apply (sk_size _ _ K) in Hs. by destruct s. Qed.

(** Keys of one node that verify the same signatures verify the same endorsements. *)
Lemma verifySignature_same k k' e :
  nodeID k' = nodeID k -> (forall m s, verify k' m s = verify k m s) ->
  verifySignature serializeDeterministic e k' = verifySignature serializeDeterministic e k.
Proof.
  intros Hid Hv. unfold verifySignature. rewrite Hid.
  repeat match goal with |- mbind ?f ?x = _ => destruct x; [cbn [mbind res_bind]|done..] end. case_bool_decide; [|done].
  repeat match goal with |- mbind ?f ?x = _ => destruct x; [cbn [mbind res_bind]|done..] end. apply Hv.
Qed.

(** What the client asks for is what the service checks. *)
Lemma client_entitled lookup identity v type value validUntil :
  GUID_wf type -> size_of value < 2 ^ 32 -> lookup me = Some identity -> Identity.public_key identity = Some pk ->
  createSigned serializeDeterministic clientKey me type value validUntil = Ok v ->
  size_of (Endorsement.signature v) < 2 ^ 32 ->
  exists k, entitled serializeDeterministic lookup (transit me (request v)) me k v type value.
Proof.
  intros Hty Hval Hl Hpk Hc Hsz. destruct (imported_key clientKey pk client_pk) as (k' & Hk & Hid & _ & Hver).
  assert (Hme : GUID_wf me) by (eapply nodeID_wf, sk_id, client_key).
  destruct (createSigned_verifies serializeDeterministic clientKey me type value validUntil v) as (Hsig & Hsvc & Hsub & Ht & Hv); [done..|].
  rewrite (sk_id _ _ client_key) in Hid, Hsvc. exists k'. split; [apply transit_me| |done| |done..| |].
  - exists identity. by rewrite Hpk.
  - eexists. split; [rewrite unpack_transit; by apply unpack_same|done].
  - destruct (accessors_ok v) as (? & ? & _ & _ & _ & ->); [by eapply validated|]. rewrite Hv. unfold stringToBuffer.
    rewrite wrap_small by (split; [unfold size_of; lia|done]). unfold size_of. by rewrite Nat2Z.id, firstn_all.
  - rewrite (verifySignature_same clientKey k'); [done|by rewrite Hid, (sk_id _ _ client_key)|done].
Qed.

(** The endorsement of [svc] for [me]. *)
Definition endorses (e : Endorsement.t) (type : GUID) (value : bytes) : Prop :=
  verifySignature serializeDeterministic e serviceKey = Ok true /\ endorsementService e = Ok svc
  /\ endorsement_subject e = Ok me /\ endorsementType e = Ok type /\ Endorsement.endorsement_value e = value.

Lemma known_turn w identity v type value validUntil :
  waiting (ew_client w) -> GUID_wf type -> size_of value < 2 ^ 32 -> permitted configured me type value = true ->
  get (ew_cache w) me = Some identity -> Identity.public_key identity = Some pk ->
  createSigned serializeDeterministic clientKey me type value validUntil = Ok v -> size_of (Endorsement.signature v) < 2 ^ 32 ->
  exists e, endorses e type value
    /\ service_turn w (request v) = Ok (mkEndorsementWorld (answered (ew_client w) ENDORSEMENT_SUCCESS (Some e))
                                          (ew_mailbox w) (ew_cache w) (S (ew_ticks w))).
Proof.
  intros Hw Hty Hval Hp Hg Hpk Hc Hsz. destruct (client_entitled (get (ew_cache w)) identity v type value validUntil) as [k E]; [done..|].
  destruct service_key as [Hid Hs _].
  destruct (endorsementAnswer_serves serializeDeterministic serviceKey svc (get (ew_cache w)) configured (clock (ew_ticks w))
    (transit me (request v)) me k v type value) as (e & He & Hv & Ha); [done..|].
  exists e. split.
  - unfold issued in He. set (until := DateTime.millisecondsSinceEpoch _) in He.
    destruct (createSigned_ok serializeDeterministic serviceKey svc me type value until) as (e' & b & s & He' & _ & Hs' & Hsig); [done..|].
    rewrite He in He'. injection He' as <-.
    destruct (createSigned_verifies serializeDeterministic serviceKey me type value until e) as (H1 & H2 & H3 & H4 & H5); [| |  |done|].
    + eapply nodeID_wf, sk_id, client_key.
    + done.
    + rewrite Hsig. by eapply signing_size.
    + rewrite Hid in H2. by split_and!.
  - eapply (request_turn w v (EndorsementDone.mk ENDORSEMENT_SUCCESS (Some e))); [done..|]. by intros e' [= <-].
Qed.

Lemma set_waiting c : waiting c -> set_endorsements c (<[key := mkPendingEndorsement svc false None]> (pendingEndorsements_ c)) = c.
Proof. intros Hw. rewrite insert_id by exact Hw. by destruct c. Qed.

Abbreviation loop r w v := (endorsement_loop ew_client put_client world_send world_wait r w clientKey svc v).

(** One turn of the loop, when the wait has brought an answer. *)
Lemma loop_turn r w v c w2 status new :
  waiting c -> rc_stopping c = false -> world_wait (put_mailbox w (ew_mailbox w ++ [request v])) = Ok w2 ->
  ew_client w2 = answered c status new ->
  loop r w v =
  match r, status =? ENDORSEMENT_UNKNOWN_IDENTITY with
  | S r', true => '(sent, w3) ← sendIdentity world_send (put_client w2 c) clientKey svc;
                  if negb (sent : bool) then Ok (None, put_client w3 (eraseEndorsement (ew_client w3) key)) else loop r' w3 v
  | _, _ => Ok (Some (mkEndorsementResult status new), put_client w2 (eraseEndorsement c key))
  end.
Proof.
  intros Hw Hstop Hwait Hc.
  assert (Hend : waitForPendingEndorsement_end (ew_client w2) key = (Some (mkEndorsementResult status new), c)).
  { unfold waitForPendingEndorsement_end, endorsement_ready. rewrite Hc. unfold answered. cbn [set_endorsements pendingEndorsements_ rc_stopping].
    rewrite lookup_insert_eq, Hstop. cbn [orb negb pe_completed pe_result]. f_equal. rewrite insert_insert_eq. by apply (set_waiting c). }
  assert (Hreply : waitForPendingEndorsement ew_client put_client world_wait (put_mailbox w (ew_mailbox w ++ [request v])) key
    = Ok (Some (mkEndorsementResult status new), put_client w2 c)).
  { unfold waitForPendingEndorsement. rewrite Hwait. cbn [mbind res_bind]. by rewrite Hend. }
  destruct r; cbn [endorsement_loop];
    change (world_send w (request v)) with (Ok (true, put_mailbox w (ew_mailbox w ++ [request v]))); cbn [mbind res_bind negb];
    rewrite Hreply; cbn [mbind res_bind er_status]; by destruct (status =? ENDORSEMENT_UNKNOWN_IDENTITY).
Qed.

(** A wait in which the service handles what is under way and then the request. *)
Lemma wait_one c before cache ticks w2 w3 m :
  service_turns (mkEndorsementWorld c [] cache ticks) before = Ok w2 -> service_turn w2 m = Ok w3 ->
  world_wait (put_mailbox (mkEndorsementWorld c before cache ticks) (before ++ [m])) = Ok w3.
Proof.
  intros H2 H3. unfold world_wait, put_mailbox. cbn [ew_client ew_mailbox ew_cache ew_ticks]. revert H2.
  generalize (mkEndorsementWorld c [] cache ticks). induction before as [|x before IH]; intros w; cbn [service_turns app].
  - intros [= ->]. by rewrite H3.
  - destruct (service_turn w x); [|done..]. cbn [mbind res_bind]. apply IH.
Qed.

Lemma erase_waiting c :
  pendingEndorsements_ c !! key = None ->
  eraseEndorsement (registerEndorsement c svc) key = c.
Proof.
  intros Hn. destruct c. unfold eraseEndorsement, registerEndorsement, set_endorsements. cbn in *. f_equal. rewrite delete_insert_eq. by apply delete_id.
Qed.

(** C20.  A client gets the endorsement it is entitled to.  A call of
    [beginEndorsementRequest] at a reachable endorsement service whose configuration
    permits the type and value returns success with an endorsement of the service for
    this client, type and value that verifies under the service's key.  This holds
    also when the service does not know the client yet: the refusal makes the client
    send its identity, which the service remembers, and the second request is served.
    Afterwards no request is pending and nothing is under way. *)
Theorem endorsement_obtained w type value now :
  cache_inv (ew_cache w) -> 0 < maximumEntries_ (ew_cache w) ->
  (forall identity, get (ew_cache w) me = Some identity -> Identity.public_key identity = Some pk) ->
  rc_stopping (ew_client w) = false -> pendingEndorsements_ (ew_client w) !! key = None -> ew_mailbox w = [] ->
  GUID_wf type -> size_of value < 2 ^ 32 -> permitted configured me type value = true ->
  exists e w', requestEndorsement w type value now = Ok (Some (mkEndorsementResult ENDORSEMENT_SUCCESS (Some e)), w')
    /\ endorses e type value /\ ew_client w' = ew_client w /\ ew_mailbox w' = [].
Proof.
  intros I Hmax Hpk Hstop Hnone Hmail Hty Hval Hp. unfold requestEndorsement, beginEndorsementRequest. rewrite Hnone.
  rewrite (sk_id _ _ client_key). cbn [mbind res_bind].
  destruct (createSigned_ok serializeDeterministic clientKey me me type value (DateTime.millisecondsSinceEpoch (DateTime.add now one_day)))
    as (v & b & s & Hv & Hvalid & Hs & Hsig); [apply client_key..|].
  assert (Hsz : size_of (Endorsement.signature v) < 2 ^ 32) by (rewrite Hsig; eapply signing_size; [apply client_key|done]).
  rewrite Hv. cbn [mbind res_bind]. unfold Endorsement_toProto. rewrite Hvalid. cbn [mbind res_bind].
  destruct w as [client mailbox cache ticks]. cbn [ew_client ew_mailbox ew_cache] in *. subst mailbox.
  set (c := registerEndorsement client svc). assert (Hw : waiting c) by apply lookup_insert_eq.
  change (put_client (mkEndorsementWorld client [] cache ticks) c) with (mkEndorsementWorld c [] cache ticks).
  destruct (get cache me) as [identity|] eqn:Hg.
  - destruct (known_turn (mkEndorsementWorld c [] cache ticks) identity v type value _ Hw Hty Hval Hp Hg (Hpk _ eq_refl) Hv Hsz)
      as (e & He & Ht).
    rewrite (loop_turn 1 _ v c _ _ _ Hw Hstop (wait_one c [] cache ticks _ _ _ eq_refl Ht) eq_refl).
    exists e. eexists. split; [reflexivity|]. split_and!; [done| |done]. by apply erase_waiting.
  - rewrite (loop_turn 1 _ v c _ _ _ Hw Hstop (wait_one c [] cache ticks _ _ _ eq_refl (unknown_turn (mkEndorsementWorld c [] cache ticks) v Hw Hg)) eq_refl).
    cbn [Z.eqb ENDORSEMENT_UNKNOWN_IDENTITY]. unfold sendIdentity. destruct (identityMessage clientKey svc) as [im| | |] eqn:Him;
      try (unfold identityMessage in Him; rewrite client_pk in Him; discriminate Him).
    cbn [mbind res_bind world_send negb].
    destruct (identity_turn (mkEndorsementWorld c [] cache (S ticks)) im Him I Hmax) as (cache' & Hi & Hg').
    assert (Hi' : service_turns (mkEndorsementWorld c [] cache (S ticks)) [im] = Ok (mkEndorsementWorld c [] cache' (S (S ticks))))
      by (cbn [service_turns]; by rewrite Hi).
    destruct (known_turn (mkEndorsementWorld c [] cache' (S (S ticks))) (Identity.mk None (Some pk) None) v type value _
      Hw Hty Hval Hp Hg' eq_refl Hv Hsz) as (e & He & Ht).
    change (put_mailbox _ _) with (mkEndorsementWorld c [im] cache (S ticks)).
    rewrite (loop_turn 0 (mkEndorsementWorld c [im] cache (S ticks)) v c _ _ _ Hw Hstop
      (wait_one c [im] cache (S ticks) _ _ _ Hi' Ht) eq_refl).
    exists e. eexists. split; [reflexivity|]. split_and!; [done| |done]. by apply erase_waiting.
Qed.
End Together.

(** ** Pings *)

Definition receive_ping (c : Requests) (m : RSPMessage.t) : Requests :=
  match RSPMessage.core_message m with Some (PingReplyMessage reply) => thin_handlePingReply c m reply | _ => c end.

(** [m] is the answer of [nodeId] to the ping [nonce] with the number [sequence]. *)
Definition answers (nodeId : NodeID) (nonce : bytes) (sequence : Z) (m : RSPMessage.t) : bool :=
  match RSPMessage.core_message m with
  | Some (PingReplyMessage reply) =>
      bool_decide (PingReply.nonce reply = Some nonce) && (PingReply.sequence reply =? sequence)
      && bool_decide (senderNodeIdFromMessage m = Some nodeId)
  | _ => false
  end.

Lemma receive_ping_spec c m nonce p :
  pendingPings_ c !! nonce = Some p ->
  pendingPings_ (receive_ping c m) !! nonce
  = Some (mkPendingPing (pp_destination p) (pp_sequence p) (pp_completed p || answers (pp_destination p) nonce (pp_sequence p) m))
  /\ rc_stopping (receive_ping c m) = rc_stopping c.
Proof.
  intros Hp. assert (Hid : mkPendingPing (pp_destination p) (pp_sequence p) (pp_completed p) = p) by (by destruct p).
  unfold receive_ping, answers. destruct (RSPMessage.core_message m) as [[]|]; rewrite ?orb_false_r, ?Hid; try done.
  unfold thin_handlePingReply. destruct (PingReply.nonce m0) as [n|]; cbn [andb]; [|by rewrite orb_false_r, Hid].
  destruct (decide (n = nonce)) as [->|Hne].
  - rewrite Hp, bool_decide_eq_true_2 by done. cbn [andb]. destruct (PingReply.sequence m0 =? pp_sequence p); cbn [negb andb];
      [|by rewrite orb_false_r, Hid].
    destruct (senderNodeIdFromMessage m) as [s|]; cbn; [|by rewrite orb_false_r, Hid].
    destruct (decide (s = pp_destination p)) as [->|Hs].
    + rewrite !bool_decide_eq_true_2 by done. cbn. by rewrite lookup_insert_eq, orb_true_r.
    + rewrite !bool_decide_eq_false_2 by congruence. cbn. by rewrite orb_false_r, Hid.
  - rewrite (bool_decide_eq_false_2 (Some n = Some nonce)) by congruence. cbn [andb]. rewrite orb_false_r, Hid.
    destruct (pendingPings_ c !! n); [|done]. repeat case_match; try done. cbn. by rewrite lookup_insert_ne.
Qed.

Lemma receive_pings_spec ms c nonce p :
  pendingPings_ c !! nonce = Some p ->
  pendingPings_ (foldl receive_ping c ms) !! nonce
  = Some (mkPendingPing (pp_destination p) (pp_sequence p) (pp_completed p || existsb (answers (pp_destination p) nonce (pp_sequence p)) ms))
  /\ rc_stopping (foldl receive_ping c ms) = rc_stopping c.
Proof.
  revert c p. induction ms as [|m ms IH]; intros c p Hp; cbn [foldl existsb].
  { rewrite orb_false_r. by destruct p. }
  destruct (receive_ping_spec c m nonce p Hp) as [H1 H2]. destruct (IH _ _ H1) as [H3 H4].
  cbn [pp_destination pp_sequence pp_completed] in H3. by rewrite H3, H4, H2, orb_assoc.
Qed.

(** A ping is answered by its destination only.  Whatever messages are handled while
    [ping] waits, it returns true exactly when the client is not stopped and one of
    them is a reply with its nonce and number sent by the pinged node itself. *)
Theorem thin_ping_exact `{M : MathLib} c nodeId nonce now ms :
  pendingPings_ c !! nonce = None ->
  (thin_ping_end (foldl receive_ping (thin_ping_begin c nodeId nonce now).2 ms) nonce).1
  = negb (rc_stopping c) && existsb (answers nodeId nonce (nextPingSequence_ c)) ms.
Proof.
  intros Hn. assert (Hb : pendingPings_ (thin_ping_begin c nodeId nonce now).2 !! nonce = Some (mkPendingPing nodeId (nextPingSequence_ c) false)).
  { unfold thin_ping_begin. rewrite Hn. apply lookup_insert_eq. }
  destruct (receive_pings_spec ms _ nonce _ Hb) as [H1 H2]. cbn [pp_destination pp_sequence pp_completed orb] in H1.
  unfold thin_ping_end, thin_ping_ready. cbn [fst]. rewrite H1, H2. cbn. by destruct (rc_stopping c); rewrite ?andb_true_r, ?andb_false_r.
Qed.

(** ** Resource lists *)
Definition client_service (s : ServiceCandidate) : ClientService :=
  mkService (candidate_nodeId s) (ServiceSchema.proto_file_name (candidate_schema s))
    (ServiceSchema.accepted_type_urls (candidate_schema s)).

Lemma discovered_services (random : nat -> NodeID) (l : list ServiceCandidate) :
  Forall (fun s => GUID_wf (candidate_nodeId s)) l ->
  imap (fun i svc => discoveredServiceFromProto (random i) svc) (service_of <$> l) = client_service <$> l.
Proof.
  intros Hl. revert random. induction Hl as [|s l Hs Hl IH]; intros random; [done|]. rewrite !fmap_cons, imap_cons. f_equal.
  - unfold discoveredServiceFromProto, service_of, discovered, id_field. cbn [DiscoveredService.node_id DiscoveredService.schema].
    by rewrite nodeIdFromSourceField_toProto.
  - exact (IH (fun i => random (S i))).
Qed.

Lemma limited_subset {X} n (l : list X) x : x ∈ limited n l -> x ∈ l.
Proof. unfold limited. destruct (0 <? n); [|done]. rewrite <- (take_drop (Z.to_nat n) l) at 2. rewrite elem_of_app. by left. Qed.

Lemma limited_fmap {X Y} (f : X -> Y) n l : limited n (f <$> l) = f <$> limited n l.
Proof. unfold limited. destruct (0 <? n); [|done]. by rewrite fmap_take. Qed.

(** [resourceList] reaches the directory.  The request of a client, answered by the
    resource manager and handled by the client, makes [resourceList] return exactly
    the advertised services that match the query, with their nodes, in order and at
    most [maxRecords] of them, when there is any. *)
Theorem resource_list_exact (random : nat -> NodeID) d me rm query maxRecords e c :
  parseQueryExpression query = Ok e -> 0 <= maxRecords ->
  Forall (fun s => GUID_wf (candidate_nodeId s)) (candidates d) ->
  List.filter (matchesExpression e) (candidates d) <> [] -> rc_stopping c = false ->
  exists q reply services,
    RSPMessage.core_message (queryResources_request rm query maxRecords) = Some (ResourceQueryMessage q)
    /\ answerQuery d me q = Ok reply /\ RSPMessage.core_message reply = Some (ResourceQueryReply services)
    /\ resourceList_end (handleResourceQueryReply random (resourceList_begin c) services)
       = (Some (mkQueryResult true (client_service <$> limited maxRecords (List.filter (matchesExpression e) (candidates d)))),
          set_resource_list c false None).
Proof.
  intros Hp Hmax Hwf Hne Hstop. set (found := List.filter (matchesExpression e) (candidates d)) in *.
  exists (ResourceQuery.mk query maxRecords), (queryReply me (service_of <$> limited maxRecords found)), (service_of <$> limited maxRecords found).
  split_and!.
  - unfold queryResources_request. destruct query, (Z.ltb_spec 0 maxRecords); cbn; repeat f_equal; lia.
  - unfold answerQuery, queryServices. cbn [ResourceQuery.query ResourceQuery.max_records]. rewrite Hp. cbn [mbind res_bind catch_any].
    rewrite advertisementLoop_spec by apply full_nil. by rewrite app_nil_l, limited_fmap.
  - unfold queryReply. destruct found as [|x found]; [done|]. unfold limited.
    destruct (Z.ltb_spec 0 maxRecords); [|done]. destruct (Z.to_nat maxRecords) eqn:Hz; [lia|done].
  - unfold handleResourceQueryReply. cbn [resourceListPending_ resourceList_begin set_resource_list].
    rewrite discovered_services.
    + unfold resourceList_end. cbn. by rewrite Hstop.
    + apply Forall_forall. intros s Hs%limited_subset%list_elem_of_In%List.filter_In. rewrite Forall_forall in Hwf.
      apply Hwf, list_elem_of_In, Hs.
Qed.

(** ** What a call leaves behind *)
Section Leaves.
Context `{C : Crypto} `{M : MathLib} (serializeDeterministic : Endorsement.t -> bytes).
Context `{RequestType : !ServiceMessageType BeginEndorsementRequest.t} `{DoneType : !ServiceMessageType EndorsementDone.t}.
Context {W : Type} (requests : W -> Requests) (put : W -> Requests -> W) (put_requests : forall w c, requests (put w c) = c).
Context (send : W -> RSPMessage.t -> Res (bool * W)) (wait : W -> Res W).

Lemma loop_leaves_nothing repairs w keyPair nodeId v r w' :
  endorsement_loop requests put send wait repairs w keyPair nodeId v = Ok (r, w') ->
  pendingEndorsements_ (requests w') !! toProtoNodeId nodeId = None.
Proof.
  assert (Herase : forall x, pendingEndorsements_ (requests (put x (eraseEndorsement (requests x) (toProtoNodeId nodeId)))) !! toProtoNodeId nodeId = None)
    by (intros x; rewrite put_requests; apply lookup_delete_eq).
  revert w. induction repairs as [|repairs IH]; intros w; cbn [endorsement_loop];
    (destruct (send w _) as [[[] w1]| | |]; cbn [mbind res_bind negb]; try done; [|intros [= _ <-]; by apply Herase]);
    (destruct (waitForPendingEndorsement _ _ _ _ _) as [[[x|] w2]| | |]; cbn [mbind res_bind]; try done; [|intros [= _ <-]; by apply Herase]).
  - intros [= _ <-]; by apply Herase.
  - destruct (_ =? _); [|intros [= _ <-]; by apply Herase].
    destruct (sendIdentity _ _ _ _) as [[[] w3]| | |]; cbn [mbind res_bind negb]; try done; [apply IH|intros [= _ <-]; by apply Herase].
Qed.

(** Whatever the network does, a call of [beginEndorsementRequest] that returns leaves
    no pending request behind: the next one for the same service can begin. *)
Theorem endorsement_call_leaves_nothing w keyPair nodeId type value now r w' :
  pendingEndorsements_ (requests w) !! toProtoNodeId nodeId = None ->
  beginEndorsementRequest serializeDeterministic requests put send wait w keyPair nodeId type value now = Ok (r, w') ->
  pendingEndorsements_ (requests w') !! toProtoNodeId nodeId = None.
Proof.
  intros Hn. unfold beginEndorsementRequest. rewrite Hn.
  destruct (nodeID keyPair) as [id| | |]; [|done..]. cbn [mbind res_bind].
  destruct (createSigned _ _ _ _ _ _) as [v| | |]; [|done..]. cbn [mbind res_bind].
  destruct (Endorsement_toProto v) as [v'| | |]; [|done..]. cbn [mbind res_bind]. apply loop_leaves_nothing.
Qed.

(** ** Findings *)

(** Finding.  An endorsement that does not validate makes the handler throw: a service
    that has been asked can end the client's process. *)
Theorem invalid_endorsement_throws c m svc p status e x :
  senderNodeIdFromMessage m = Some svc -> pendingEndorsements_ c !! toProtoNodeId svc = Some p -> pe_completed p = false ->
  unpackServiceMessage EndorsementDone.t m = Some (EndorsementDone.mk status (Some e)) -> validateMessage e true = Throw x ->
  handleEndorsementDone c m = Throw x.
Proof.
  intros Hs Hp Hc Hu Hv. unfold handleEndorsementDone. rewrite Hs, Hp, Hc, Hu. cbn [default from_option Datatypes.id EndorsementDone.new_endorsement].
  unfold Endorsement_fromProto. by rewrite Hv.
Qed.

(** Finding.  An answer that cannot be parsed is taken for a success without an endorsement. *)
Theorem unparsable_answer_succeeds c m svc p :
  senderNodeIdFromMessage m = Some svc -> pendingEndorsements_ c !! toProtoNodeId svc = Some p -> pe_completed p = false ->
  rc_stopping c = false -> unpackServiceMessage EndorsementDone.t m = None ->
  exists c', handleEndorsementDone c m = Ok c'
    /\ (waitForPendingEndorsement_end c' (toProtoNodeId svc)).1 = Some (mkEndorsementResult ENDORSEMENT_SUCCESS None).
Proof.
  intros Hs Hp Hc Hstop Hu. unfold handleEndorsementDone. rewrite Hs, Hp, Hc, Hu. eexists. split; [reflexivity|].
  unfold waitForPendingEndorsement_end, endorsement_ready. cbn [set_endorsements pendingEndorsements_ rc_stopping].
  rewrite lookup_insert_eq, Hstop. done.
Qed.

(** Finding.  Answers are matched with the service only: the late answer to a request
    that was given up completes the next request to the same service, whatever it
    asks for. *)
Theorem late_endorsement_answers_next c m svc status e :
  senderNodeIdFromMessage m = Some svc -> pendingEndorsements_ c !! toProtoNodeId svc = None -> rc_stopping c = false ->
  unpackServiceMessage EndorsementDone.t m = Some (EndorsementDone.mk status (Some e)) -> validateMessage e true = Ok tt ->
  let first := registerEndorsement c svc in
  waitForPendingEndorsement_end first (toProtoNodeId svc) = (None, first)
  /\ exists c', handleEndorsementDone (registerEndorsement (eraseEndorsement first (toProtoNodeId svc)) svc) m = Ok c'
      /\ (waitForPendingEndorsement_end c' (toProtoNodeId svc)).1 = Some (mkEndorsementResult status (Some e)).
Proof.
  intros Hs Hn Hstop Hu Hv. cbv zeta. split.
  - unfold waitForPendingEndorsement_end, endorsement_ready, registerEndorsement. cbn [set_endorsements pendingEndorsements_ rc_stopping].
    by rewrite lookup_insert_eq, Hstop.
  - unfold handleEndorsementDone. rewrite Hs. unfold registerEndorsement at 1. cbn [set_endorsements pendingEndorsements_].
    rewrite lookup_insert_eq. cbn [pe_completed]. rewrite Hu. cbn [default from_option Datatypes.id EndorsementDone.new_endorsement].
    unfold Endorsement_fromProto. rewrite Hv. cbn [mbind res_bind]. eexists. split; [reflexivity|].
    unfold waitForPendingEndorsement_end, endorsement_ready. cbn [set_endorsements pendingEndorsements_ rc_stopping].
    rewrite lookup_insert_eq. cbn. by rewrite Hstop.
Qed.

Context `{Conn : !Transport.Connection} `{SM : StreamMessages} `{NM : NameMessages} `{E : EventTypes}.

(** What completes an endorsement request reaches [handleEndorsementDone]. *)
Lemma endorsement_done_dispatched random rec (c : ThinClient) m :
  RSPMessage.core_message m = None -> hasServiceMessage EndorsementDone.t m = true ->
  thin_handleNodeSpecificMessage random rec c m = r ← handleEndorsementDone (tc_requests c) m; Ok (true, [], with_requests c r).
Proof. intros Hc Hh. unfold thin_handleNodeSpecificMessage. by rewrite Hc, Hh. Qed.

(** Finding.  A query that matches nothing is answered by a message without content,
    which the client does not recognise: [resourceList] waits until its time is over
    and reports a failure instead of an empty list. *)
Theorem empty_resource_list_fails random rec d me query e (c : ThinClient) :
  parseQueryExpression (ResourceQuery.query query) = Ok e -> List.filter (matchesExpression e) (candidates d) = [] ->
  let waiting := with_requests c (resourceList_begin (tc_requests c)) in
  exists reply, answerQuery d me query = Ok reply
    /\ thin_handleNodeSpecificMessage random rec waiting reply = Ok (false, [], waiting)
    /\ (resourceList_end (tc_requests waiting)).1 = None.
Proof.
  intros Hp Hnone. cbv zeta. unfold answerQuery, queryServices. rewrite Hp. cbn [mbind res_bind catch_any].
  rewrite advertisementLoop_spec by apply full_nil. rewrite app_nil_l. fold (candidates d). rewrite Hnone.
  assert (Hl : limited (ResourceQuery.max_records query) ([] : list DiscoveredService.t) = []) by (unfold limited; destruct (0 <? _); [apply take_nil|done]).
  rewrite fmap_nil, Hl. eexists. split; [reflexivity|]. split; [|done]. done.
Qed.
End Leaves.

(** ** Witnesses *)

(** A cryptographic library whose signatures have the length of the key's name. *)
#[local] Instance short_crypto : Crypto := {|
  Key := bytes * bool;
  key_is_ec := fun _ => true;
  key_is_p256 := fun _ => true;
  key_has_private := snd;
  pem_read := fun p => match p with c :: name => Some (name, false) | [] => None end;
  pem_write := fun k => Some ("P"%char :: k.1);
  der_public := fun k => Some ("D"%char :: k.1);
  sha256 := ToyCrypto.pad32;
  digest_sign := fun k m => Some ("S"%char :: k.1);
  digest_verify := fun k m s => Some (bool_decide (s = "S"%char :: k.1)) |}.

#[local] Instance short_laws : CryptoLaws short_crypto.
Proof.
  split.
  - intros m. cbn. unfold ToyCrypto.pad32. rewrite length_take, length_app, length_replicate. lia.
  - intros k m s [= <-]. cbn. by rewrite bool_decide_eq_true_2.
  - intros k m s [= <-]. done.
  - intros k p [= <-]. done.
  - intros k p [= <-]. cbn. eexists. repeat split.
Qed.

#[local] Existing Instance x86_math.

Definition endorsement_fields (e : Endorsement.t) :=
  (Endorsement.subject e, (Endorsement.endorsement_service e, (Endorsement.endorsement_type e,
    (Endorsement.endorsement_value e, (Endorsement.valid_until e, Endorsement.signature e))))).
Definition endorsement_of_fields (x : option NodeId * (option NodeId * (option Uuid * (bytes * (option DateTime * bytes))))) : Endorsement.t :=
  let '(a, (b, (c, (d, (e, f))))) := x in Endorsement.mk a b c d e f.

#[local] Instance wire_request : ServiceMessageType BeginEndorsementRequest.t :=
  via "rsp.proto.BeginEndorsementRequest"
    (fun r => (endorsement_fields <$> BeginEndorsementRequest.requested_values r, BeginEndorsementRequest.auth_data r))
    (fun '(a, b) => BeginEndorsementRequest.mk (endorsement_of_fields <$> a) b).
#[local] Instance wire_done : ServiceMessageType EndorsementDone.t :=
  via "rsp.proto.EndorsementDone" (fun r => (EndorsementDone.status r, endorsement_fields <$> EndorsementDone.new_endorsement r))
    (fun '(a, b) => EndorsementDone.mk a (endorsement_of_fields <$> b)).

Lemma wire_request_parses : parses BeginEndorsementRequest.t.
Proof. apply via_parses. by intros [[[]|] ?]. Qed.
Lemma wire_done_parses : parses EndorsementDone.t.
Proof. apply via_parses. by intros [? [[]|]]. Qed.

Definition thin_alice : KeyPair := Some (bs "alice", true).
Definition thin_bob : KeyPair := Some (bs "bob", true).
Definition thin_svc : NodeID := mkGUID (be_value 64 (bs "Dbob" ++ replicate 4 (byte_of 0))) 0.

Lemma short_signing k name id : k = Some (name, true) -> nodeID k = Ok id -> (List.length name < 100)%nat -> signing_key k id.
Proof.
  intros -> Hid Hl. split; [done|by eexists|]. intros b s [= <-]. unfold size_of. cbn [List.length fst]. lia.
Qed.

Lemma name_transit_same g m : same_content m (name_transit g m).
Proof. by split. Qed.

(** Bob's service does not know Alice. *)
Definition thin_world : EndorsementWorld unit := mkEndorsementWorld initial_requests [] (IdentityCache_new 4) 0.

Lemma endorsement_obtained_witness :
  get (ew_cache thin_world) es_alice = None
  /\ exists e w', requestEndorsement Endorsement.endorsement_value thin_alice thin_bob es_alice thin_svc es_configured name_clock name_transit
        thin_world (mkGUID 3 4) (bs "v") es_now = Ok (Some (mkEndorsementResult ENDORSEMENT_SUCCESS (Some e)), w')
    /\ verifySignature Endorsement.endorsement_value e thin_bob = Ok true /\ endorsement_subject e = Ok es_alice.
Proof.
  split; [reflexivity|].
  destruct (endorsement_obtained (Callback := unit) Endorsement.endorsement_value thin_alice thin_bob es_alice thin_svc es_configured name_clock name_transit
    wire_request_parses wire_done_parses name_transit_same) with (pk := PublicKey.mk P256 (bs "Palice")) (w := thin_world)
    (type := mkGUID 3 4) (value := bs "v") (now := es_now) as (e & w' & He & (Hv & _ & Hs & _) & _).
  - intros m. vm_compute. reflexivity.
  - intros m. vm_compute. reflexivity.
  - eapply short_signing; [reflexivity|vm_compute; reflexivity|vm_compute; lia].
  - eapply short_signing; [reflexivity|vm_compute; reflexivity|vm_compute; lia].
  - vm_compute. reflexivity.
  - apply cache_inv_new. lia.
  - vm_compute. reflexivity.
  - intros identity H. discriminate H.
  - reflexivity.
  - reflexivity.
  - reflexivity.
  - split; split; vm_compute; congruence.
  - vm_compute. reflexivity.
  - vm_compute. reflexivity.
  - exists e, w'. split; [exact He|]. split; [exact Hv|exact Hs].
Defined.

Lemma thin_ping_exact_witness :
  (thin_ping_end (foldl receive_ping (thin_ping_begin initial_requests es_alice (bs "n") es_now).2 []) (bs "n")).1 = false.
Proof. rewrite (thin_ping_exact initial_requests es_alice (bs "n") es_now []); reflexivity. Defined.
