(* ===== verification/ForwardServices.v ===== *)
(** * resource_service/sshd, resource_service/httpd: forwarding services

    Two services derive from the service of remote TCP sockets ([BsdSockets]).  They
    accept their own connection request, which opens a stream to a new SSH server
    process or to the local HTTP server, refuse the requests for raw TCP sockets, and
    leave sending, receiving and closing to the base class.  The outcome of creating a
    process or connecting is an argument. *)

From S2P Require Import Prelude BaseTypes Proto GuidBytes MessageHash KeyPair Signing Transport ServiceMessage Node.
From S2P Require Import BsdSockets StreamClient.

(** ** Addresses (httpd)

    [std::stoi]: leading white space, a sign, digits; what follows them is ignored.
    [None] is an exception. *)
Fixpoint skip_space (s : bytes) : bytes :=
  match s with c :: s' => if is_space c then skip_space s' else s | [] => [] end.

Fixpoint stoi_digits (s : bytes) (value : Z) (any : bool) : option Z :=
  match s with
  | c :: s' =>
      if (48 <=? byte_val c) && (byte_val c <=? 57) then stoi_digits s' (value * 10 + (byte_val c - 48)) true
      else if any then Some value else None
  | [] => if any then Some value else None
  end.

Definition stoi (s : bytes) : option Z :=
  p ← match skip_space s with
      | c :: s' =>
          if bool_decide (c = "-"%char) then v ← stoi_digits s' 0 false; Some (- v)
          else if bool_decide (c = "+"%char) then stoi_digits s' 0 false
          else stoi_digits (c :: s') 0 false
      | [] => None
      end;
  if (- 2 ^ 31 <=? p) && (p <? 2 ^ 31) then Some p else None.

Definition parseHostPort (hostPort : bytes) : option (bytes * Z) :=
  '(address, text) ← splitLastColon hostPort;
  p ← stoi text;
  if (p <? 0) || (65535 <? p) then None else Some (address, p).

(** [startBuiltinServer]: the listening socket and the port it is bound to. *)
Definition startBuiltinServer (listenAddress : bytes) (createTcpListener : bytes -> Z -> option nat) (getSocketPort : nat -> Z)
    : Res (nat * Z) :=
  let '(address, port) := default (bs "127.0.0.1", 0) (parseHostPort listenAddress) in
  match createTcpListener address port with
  | None => Throw (RuntimeError (bs "[rsp-httpd] Failed to bind built-in HTTP server on " ++ listenAddress))
  | Some listener => Ok (listener, getSocketPort listener)
  end.

Section Forward.
Context `{C : Connection} `{SM : StreamMessages}.
Context `{SshdType : !ServiceMessageType ConnectSshd.t} `{HttpType : !ServiceMessageType ConnectHttp.t}.

Section Handlers.
Context (send_ok : RSPMessage.t -> bool).
Abbreviation Outcome := (bool * BsdSockets * list BsdEvent)%type.

(** ** sshd *)

(** What comes of [socketpair] and [fork] in the parent. *)
Inductive Spawn := NoSocketPair | NoFork | Spawned (c : Conn).

Definition handleConnectSshd (s : BsdSockets) (spawn : Spawn) (message : RSPMessage.t) : Outcome :=
  match unpackServiceMessage ConnectSshd.t message with
  | None => (false, s, [])
  | Some request =>
  match ConnectSshd.stream_id request with
  | None => answer send_ok s [] (makeStreamReplyMessage message INVALID_FLAGS (bs "socket_number is required") None)
  | Some id =>
  match fromProtoStreamId id with
  | None => answer send_ok s [] (makeStreamReplyMessage message INVALID_FLAGS (bs "invalid socket_number") None)
  | Some socketId =>
      let asyncData := is_set (ConnectSshd.async_data request) in
      let shareSocket := is_set (ConnectSshd.share_socket request) in
      if shareSocket && asyncData then
        answer send_ok s [] (makeStreamReplyMessage message INVALID_FLAGS
                               (bs "share_socket cannot be combined with async_data") (Some socketId))
      else if shareSocket && is_set (ConnectSshd.use_socket request) then
        answer send_ok s [] (makeStreamReplyMessage message INVALID_FLAGS
                               (bs "share_socket cannot be combined with use_socket") (Some socketId))
      else
        match spawn with
        | NoSocketPair => answer send_ok s [] (makeStreamReplyMessage message CONNECT_REFUSED (bs "socketpair failed") (Some socketId))
        | NoFork => answer send_ok s [] (makeStreamReplyMessage message CONNECT_REFUSED (bs "fork failed") (Some socketId))
        | Spawned c => registerConnectedSocket send_ok s message c socketId (bs "sshd") asyncData shareSocket
        end
  end end end.

Definition isRawRequest (message : RSPMessage.t) : bool :=
  hasServiceMessage ConnectTCPRequest.t message || hasServiceMessage ListenTCPRequest.t message
  || hasServiceMessage AcceptTCP.t message.

Definition sshd_handleNodeSpecificMessage (spawn : Spawn) (queue_ok listen_ok : bool) (newId : GUID) (recv_failed : Conn -> bool)
    (s : BsdSockets) (message : RSPMessage.t) : Res Outcome :=
  if hasServiceMessage ConnectSshd.t message then Ok (handleConnectSshd s spawn message)
  else if isRawRequest message then
    Ok (answer send_ok s [] (makeStreamReplyMessage message STREAM_ERROR
                               (bs "UNIMPLEMENTED: rsp_sshd does not support this request") None))
  else handleNodeSpecificMessage send_ok queue_ok listen_ok newId recv_failed s message.

(** ** httpd *)
Definition createHttpConnection (builtinPort : Z) (connect : nat -> option Conn) : option Conn :=
  if builtinPort =? 0 then None else createTCPConnection connect 3.

Definition handleConnectHttp (builtinPort : Z) (connect : nat -> option Conn) (s : BsdSockets) (message : RSPMessage.t) : Outcome :=
  match unpackServiceMessage ConnectHttp.t message with
  | None => (false, s, [])
  | Some request =>
  match ConnectHttp.stream_id request with
  | None => answer send_ok s [] (makeStreamReplyMessage message INVALID_FLAGS (bs "stream_id is required") None)
  | Some id =>
  match fromProtoStreamId id with
  | None => answer send_ok s [] (makeStreamReplyMessage message INVALID_FLAGS (bs "invalid stream_id") None)
  | Some socketId =>
      let asyncData := is_set (ConnectHttp.async_data request) in
      let shareSocket := is_set (ConnectHttp.share_socket request) in
      if shareSocket && asyncData then
        answer send_ok s [] (makeStreamReplyMessage message INVALID_FLAGS
                               (bs "share_socket cannot be combined with async_data") (Some socketId))
      else
        match createHttpConnection builtinPort connect with
        | None => answer send_ok s [] (makeStreamReplyMessage message CONNECT_REFUSED (bs "HTTP server connection failed") (Some socketId))
        | Some c =>
            registerConnectedSocket send_ok s message c socketId (bs "127.0.0.1:" ++ to_string builtinPort) asyncData shareSocket
        end
  end end end.

Definition httpd_handleNodeSpecificMessage (builtinPort : Z) (connect : nat -> option Conn) (queue_ok listen_ok : bool) (newId : GUID)
    (recv_failed : Conn -> bool) (s : BsdSockets) (message : RSPMessage.t) : Res Outcome :=
  if hasServiceMessage ConnectHttp.t message then Ok (handleConnectHttp builtinPort connect s message)
  else if isRawRequest message then
    Ok (answer send_ok s [] (makeStreamReplyMessage message STREAM_ERROR
                               (bs "UNIMPLEMENTED: rsp_httpd does not expose raw TCP sockets") None))
  else handleNodeSpecificMessage send_ok queue_ok listen_ok newId recv_failed s message.
End Handlers.

(** ** Steps *)

(** A forwarding service handles a message or one of its threads reads. *)
Inductive forward_step : BsdSockets -> list BsdEvent -> BsdSockets -> Prop :=
| forward_sshd send_ok spawn queue_ok listen_ok newId recv_failed s m b s' e :
    terminated_ s = false ->
    sshd_handleNodeSpecificMessage send_ok spawn queue_ok listen_ok newId recv_failed s m = Ok (b, s', e) -> forward_step s e s'
| forward_httpd send_ok port connect queue_ok listen_ok newId recv_failed s m b s' e :
    terminated_ s = false ->
    httpd_handleNodeSpecificMessage send_ok port connect queue_ok listen_ok newId recv_failed s m = Ok (b, s', e) -> forward_step s e s'
| forward_reader send_ok recv_failed h s s' e :
    terminated_ s = false -> reader_turn send_ok recv_failed s h = Some (s', e) -> forward_step s e s'.

Inductive forward_reachable : BsdSockets -> Prop :=
| forward_initial : forward_reachable initial_bsd
| forward_next s e s' : forward_reachable s -> forward_step s e s' -> forward_reachable s'.

(** ** Lemmas *)
Lemma handleConnectSshd_inv send_ok s spawn m b s' e :
  bsd_inv s -> handleConnectSshd send_ok s spawn m = (b, s', e) -> bsd_inv s'.
Proof. intros I. unfold handleConnectSshd, answer. repeat case_match; try (by intros [= _ <- _]). by apply registerConnectedSocket_inv. Qed.

Lemma handleConnectHttp_inv send_ok port connect s m b s' e :
  bsd_inv s -> handleConnectHttp send_ok port connect s m = (b, s', e) -> bsd_inv s'.
Proof. intros I. unfold handleConnectHttp, answer. repeat case_match; try (by intros [= _ <- _]). by apply registerConnectedSocket_inv. Qed.

(** No listener in the tables and none in the store. *)
Definition no_listeners (s : BsdSockets) : Prop := managedListeningSockets_ s = ∅ /\ listeners s = ∅.

(** Events that hand a request to the queue of connection requests. *)
Definition is_queued (e : BsdEvent) : bool := match e with Queued _ => true | _ => false end.

Definition forwards_only (s : BsdSockets) (es : list BsdEvent) : Prop := no_listeners s /\ existsb is_queued es = false.

Lemma releaseSocket_forwards s st : no_listeners s -> forwards_only (releaseSocket s st).1 (releaseSocket s st).2.
Proof. unfold releaseSocket. by repeat case_match. Qed.

Lemma startReader_listeners s st : no_listeners s -> no_listeners (startReader s st).
Proof. unfold startReader. by repeat case_match. Qed.

Lemma registerConnectedSocket_forwards send_ok s m c id hp async share b s' e :
  no_listeners s -> registerConnectedSocket send_ok s m c id hp async share = (b, s', e) -> forwards_only s' e.
Proof.
  intros N. unfold registerConnectedSocket. destruct (senderNodeIdFromMessage m); [|by intros [= _ <- <-]].
  unfold addConnection. set (st := mkSocket _ _ _ _ _ _ _). set (s2 := set_sockets _ (emplace _ _ _)).
  assert (N2 : no_listeners s2) by done. destruct (negb _).
  - destruct (match _ with None => _ | Some _ => _ end) as [s3 e3] eqn:E3.
    assert (N3 : forwards_only s3 e3).
    { assert (N2' : no_listeners (set_sockets s2 (delete id (managedSockets_ s2)))) by (destruct N; by split).
      destruct (managedSockets_ s !! id) as [old|]; [|by injection E3 as <- <-].
      pose proof (releaseSocket_forwards _ old N2') as R. by rewrite E3 in R. }
    destruct N3 as [N3 Q3]. unfold stopManagedSocket. intros [= _ <- <-]. split; [done|]. cbn. rewrite existsb_app, Q3. done.
  - pose proof (startReader_listeners s2 st N2) as N3. destruct (managedSockets_ s !! id).
    + pose proof (releaseSocket_forwards _ st N3) as R. destruct (releaseSocket _ st). intros [= _ <- <-]. done.
    + by intros [= _ <- <-].
Qed.

Lemma handleConnectSshd_forwards send_ok s spawn m b s' e :
  no_listeners s -> handleConnectSshd send_ok s spawn m = (b, s', e) -> forwards_only s' e.
Proof. intros N. unfold handleConnectSshd, answer. repeat case_match; try (by intros [= _ <- <-]). by apply registerConnectedSocket_forwards. Qed.

Lemma handleConnectHttp_forwards send_ok port connect s m b s' e :
  no_listeners s -> handleConnectHttp send_ok port connect s m = (b, s', e) -> forwards_only s' e.
Proof. intros N. unfold handleConnectHttp, answer. repeat case_match; try (by intros [= _ <- <-]). by apply registerConnectedSocket_forwards. Qed.

Lemma recvOn_listeners recv_failed s h n : no_listeners s -> no_listeners (recvOn recv_failed s h n).2.
Proof. unfold recvOn. by repeat case_match. Qed.

Lemma handleStreamSend_forwards send_ok s m b s' e : no_listeners s -> handleStreamSend send_ok s m = Ok (b, s', e) -> forwards_only s' e.
Proof.
  intros N. unfold handleStreamSend, answer, sendOn. repeat case_match; try (by intros [= _ <- <-]); try done;
    (destruct (sendAll _ _); try done; cbn [mbind res_bind fst snd]; destruct (negb _); by intros [= _ <- <-]).
Qed.

Lemma handleStreamRecv_forwards send_ok recv_failed s m b s' e :
  no_listeners s -> handleStreamRecv send_ok recv_failed s m = (b, s', e) -> forwards_only s' e.
Proof.
  intros N. unfold handleStreamRecv, answer. destruct (unpackServiceMessage _ _) as [r|]; [|by intros [= _ <- <-]].
  destruct (findSocket s m _) as [?|[id st]]; [by intros [= _ <- <-]|].
  pose proof (recvOn_listeners recv_failed s (ms_connection st) (maxBytesOf (StreamRecv.max_bytes r)) N) as R.
  destruct (recvOn recv_failed s _ _) as [x s1]. repeat case_match; by intros [= _ <- <-].
Qed.

Lemma handleStreamClose_forwards send_ok s m b s' e : no_listeners s -> handleStreamClose send_ok s m = (b, s', e) -> forwards_only s' e.
Proof.
  intros N. unfold handleStreamClose, answer. destruct (unpackServiceMessage _ _) as [r|]; [|by intros [= _ <- <-]].
  destruct (fromProtoStreamId _) as [id|]; [|by intros [= _ <- <-]]. rewrite (proj1 N), lookup_empty.
  destruct (managedSockets_ s !! id) as [st|]; [|by intros [= _ <- <-]]. destruct (negb _); [by intros [= _ <- <-]|].
  unfold stopManagedSocket. by intros [= _ <- <-].
Qed.

(** What the base class does for a forwarding service. *)
Lemma delegated_forwards send_ok queue_ok listen_ok newId recv_failed s m b s' e :
  no_listeners s -> isRawRequest m = false ->
  handleNodeSpecificMessage send_ok queue_ok listen_ok newId recv_failed s m = Ok (b, s', e) -> forwards_only s' e.
Proof.
  intros N [[H1 H2]%orb_false_iff H3]%orb_false_iff. unfold handleNodeSpecificMessage. rewrite H1, H2, H3. repeat case_match.
  - by apply handleStreamSend_forwards.
  - intros [= E]. by eapply handleStreamRecv_forwards.
  - intros [= E]. by eapply handleStreamClose_forwards.
  - by intros [= _ <- <-].
Qed.

Lemma reader_turn_forwards send_ok recv_failed s h s' e :
  no_listeners s -> reader_turn send_ok recv_failed s h = Some (s', e) -> forwards_only s' e.
Proof.
  intros N. unfold reader_turn. destruct (readers s !! h) as [[st []]|]; try done.
  pose proof (recvOn_listeners recv_failed s h 4096 N) as R. destruct (recvOn recv_failed s h 4096) as [x s1].
  unfold asyncTurn. repeat case_match; simplify_eq; intros [= <- <-]; done.
Qed.

Lemma delegated_inv send_ok queue_ok listen_ok newId recv_failed s m b s' e :
  bsd_inv s -> handleNodeSpecificMessage send_ok queue_ok listen_ok newId recv_failed s m = Ok (b, s', e) -> terminated_ s = false -> bsd_inv s'.
Proof. intros I H Ht. eapply bsd_step_inv; [exact I|]. by eapply step_message. Qed.

Lemma forward_step_inv s e s' : bsd_inv s -> no_listeners s -> forward_step s e s' -> bsd_inv s' /\ forwards_only s' e.
Proof.
  intros I N St. revert I N.
  destruct St as [send_ok spawn q l newId rf s m b s' e Ht H|send_ok port cn q l newId rf s m b s' e Ht H|send_ok rf h s s' e Ht H]; intros I N.
  - revert H. unfold sshd_handleNodeSpecificMessage. destruct (hasServiceMessage ConnectSshd.t m).
    { intros [= E]. split; [by eapply handleConnectSshd_inv|by eapply handleConnectSshd_forwards]. }
    destruct (isRawRequest m) eqn:Er; [by intros [= _ <- <-]|].
    intros E. split; [by eapply delegated_inv|by eapply delegated_forwards].
  - revert H. unfold httpd_handleNodeSpecificMessage. destruct (hasServiceMessage ConnectHttp.t m).
    { intros [= E]. split; [by eapply handleConnectHttp_inv|by eapply handleConnectHttp_forwards]. }
    destruct (isRawRequest m) eqn:Er; [by intros [= _ <- <-]|].
    intros E. split; [by eapply delegated_inv|by eapply delegated_forwards].
  - split; [by eapply reader_turn_inv|by eapply reader_turn_forwards].
Qed.

Lemma forward_reachable_inv s : forward_reachable s -> bsd_inv s /\ no_listeners s.
Proof.
  induction 1 as [|s e s' _ [I N] St]; [split; [apply inv_initial|done]|].
  destruct (forward_step_inv s e s' I N St) as [I' [N' _]]. done.
Qed.

(** ** Properties *)

(** Forwarding services expose no raw sockets.  Whatever messages an SSH or HTTP
    service receives and however its threads are interleaved, it never listens, never
    queues a request to connect somewhere, and every open connection is one that was
    created for a connection request of its own: it is in the table of sockets under
    one id, or read by a running thread. *)
Theorem forwarding_services_confined s e s' :
  forward_reachable s -> forward_step s e s' ->
  no_listeners s' /\ (forall m, Queued m ∉ e)
  /\ (terminated_ s' = false -> forall h, is_Some (connections s' !! h) <-> in_table s' h \/ read_by_thread s' h)
  /\ (forall id st, managedSockets_ s' !! id = Some st -> ms_socketId st = id /\
       forall id' st', managedSockets_ s' !! id' = Some st' -> ms_connection st' = ms_connection st -> id' = id).
Proof.
  intros [I N]%forward_reachable_inv St. destruct (forward_step_inv s e s' I N St) as [I' [N' Q]]. split_and!; [done|..].
  - intros m Hm. assert (existsb is_queued e = true) as E by (apply existsb_exists; exists (Queued m); split; [by apply list_elem_of_In|done]). congruence.
  - intros Ht h. split.
    + intros Hh. destruct (inv_owned s' I' Ht h Hh) as [?|[[l (A & HA & _)]|?]]; [by left| |by right].
      by rewrite (proj2 N'), lookup_empty in HA.
    + intros [(id & st & Hst & <-)|[st Hr]]; [by apply (inv_socket s' I' id)|by apply (inv_reader s' I' h _ Hr)].
  - intros id st Hst. split; [by apply (inv_socket s' I' id)|]. intros id' st' ??. by eapply (inv_distinct s' I').
Qed.

(** Streams of a forwarding service are private: a message that is no connection
    request touches only connections of sockets that are shared or the sender's, and
    leaves the others in the table as they are. *)
Theorem forwarded_streams_are_private send_ok spawn queue_ok listen_ok newId recv_failed s m b s' es :
  forward_reachable s -> hasServiceMessage ConnectSshd.t m = false ->
  sshd_handleNodeSpecificMessage send_ok spawn queue_ok listen_ok newId recv_failed s m = Ok (b, s', es) ->
  (forall e h, e ∈ es -> touches e h -> lawful s m h) /\
  (forall id st, managedSockets_ s !! id = Some st -> ~ may_use m st ->
     managedSockets_ s' !! id = Some st /\ connections s' !! ms_connection st = connections s !! ms_connection st).
Proof.
  intros [I _]%forward_reachable_inv Hn. unfold sshd_handleNodeSpecificMessage. rewrite Hn. destruct (isRawRequest m).
  - intros [= _ <- <-]. split; [|done]. intros e h He Ht. apply list_elem_of_singleton in He as ->. done.
  - intros Hh. split; [|by eapply handler_keeps].
    intros e h He. exact (proj1 (Forall_forall _ _) (handler_lawful _ _ _ _ _ _ _ _ _ _ I Hh) e He h).
Qed.

(** ** From the client to the process and back *)
Context `{SL : !StreamMessagesLaws SM} `{CL : !ConnectionLaws C}.
Context (sshd_parses : forall r : ConnectSshd.t, parse_message (serialize_message r) = Some r).
Context (http_parses : forall r : ConnectHttp.t, parse_message (serialize_message r) = Some r).
Context (send_ok : RSPMessage.t -> bool) (rnd : GUID) (me srv : NodeID).

(** The client [cl] waits for the stream [id], which is free on both sides. *)
Record can_open (cl : StreamClient) (s : BsdSockets) (id : GUID) : Prop := {
  open_sends : forall x, send_ok x = true;
  open_id : GUID_wf id;
  open_running : sc_stopping cl = false;
  open_queue : streamReplyQueues_ cl !! id = None;
  open_listens : pendingListens_ cl !! id = None;
  open_free : managedSockets_ s !! id = None }.

(** A handler's outcome [out] files a socket over [c] for [me], and its reply opens the stream at the client. *)
Definition opens (cl : StreamClient) (id : GUID) (c : Conn) (async share : bool) (out : bool * BsdSockets * list BsdEvent) : Prop :=
  exists s' es reply st, out = (true, s', es) /\ sents es = [reply] /\
    managedSockets_ s' !! id = Some st /\ connections s' !! ms_connection st = Some c /\
    ms_requesterNodeId st = toProtoNodeId me /\ ms_asyncData st = async /\ ms_shareSocket st = share /\
  forall reply', arrives srv reply reply' ->
  exists cl2 r cl3, handleStreamReply rnd (connect_begin cl id) reply' = Ok cl2 /\ connect_end cl2 srv id = (Some r, cl3) /\
    opened (Some r) = Some id /\ idle cl3 id srv.

Lemma registered_opens cl s id c hostPort async share m :
  can_open cl s id -> senderNodeIdFromMessage m = Some me ->
  opens cl id c async share (registerConnectedSocket send_ok s m c id hostPort async share).
Proof.
  intros [Hok Hwf Hs Hq Hl Hn] Hm.
  destruct (socket_registered send_ok me s m c id hostPort async share Hok Hm Hn) as (s' & es & st & E & Hse & Hst & Hc & Ho & Ha & Hsh).
  eexists s', es, _, st. split_and!; [exact E|exact Hse|exact Hst|exact Hc|exact Ho|exact Ha|exact Hsh|].
  intros reply' Hrep. pose proof (arrives_unpack _ _ _ StreamReply.t Hrep) as Hu.
  rewrite (proj2 (makeStreamReplyMessage_carries_id m me SUCCESS [] (Some id) Hm)) in Hu. by apply opening_completes.
Qed.

(** Opening a remote shell works.  The request of a running client for a free stream,
    with flags that may be combined, makes the service file the new process's socket
    under the id for the client, and its reply makes the client's call return the id
    with a route to the service; from there on [remote_socket_requests] applies.  The
    same holds for a stream to the local HTTP server when it runs and can be reached. *)
Theorem remote_shell_opens cl s id timeout async share use c req' :
  can_open cl s id -> share = false \/ async = false /\ use = false ->
  arrives me (connectSshd_request srv timeout async share use id) req' ->
  opens cl id c async share (handleConnectSshd send_ok s (Spawned c) req').
Proof.
  intros Hcan Hfl Hreq. pose proof (arrives_unpack _ _ _ ConnectSshd.t Hreq) as Eu.
  unfold connectSshd_request in Eu. rewrite unpack_packServiceMessage, sshd_parses in Eu.
  unfold handleConnectSshd. rewrite Eu. cbn [ConnectSshd.stream_id ConnectSshd.async_data ConnectSshd.share_socket ConnectSshd.use_socket].
  rewrite (fromProtoStreamId_toProto id (open_id _ _ _ Hcan)), !is_set_true_field.
  replace (share && async) with false by (destruct Hfl as [->|[-> _]]; [done|by rewrite andb_false_r]).
  replace (share && is_set (Some use)) with false by (destruct Hfl as [->|[_ ->]]; [done|by rewrite andb_false_r]).
  apply registered_opens; [done|apply Hreq].
Qed.

Theorem remote_http_opens cl s id timeout async share host port net c req' :
  can_open cl s id -> share = false \/ async = false -> port <> 0 -> net 0%nat = Some c ->
  arrives me (connectHttp_request srv timeout async share host id) req' ->
  opens cl id c async share (handleConnectHttp send_ok port net s req').
Proof.
  intros Hcan Hfl Hport Hnet Hreq. pose proof (arrives_unpack _ _ _ ConnectHttp.t Hreq) as Eu.
  unfold connectHttp_request in Eu. rewrite unpack_packServiceMessage, http_parses in Eu.
  unfold handleConnectHttp. rewrite Eu. cbn [ConnectHttp.stream_id ConnectHttp.async_data ConnectHttp.share_socket].
  rewrite (fromProtoStreamId_toProto id (open_id _ _ _ Hcan)), !is_set_true_field.
  replace (share && async) with false by (destruct Hfl as [->| ->]; [done|by rewrite andb_false_r]).
  unfold createHttpConnection. rewrite (proj2 (Z.eqb_neq port 0) Hport). unfold createTCPConnection. change (Z.to_nat 3) with 3%nat. cbn [createTCPConnection_loop]. rewrite Hnet.
  apply registered_opens; [done|apply Hreq].
Qed.
End Forward.

(** ** Ports *)

(** [parseHostPort] reads every endpoint that the transports accept as they do. *)
Theorem parseHostPort_extends endpoint address port :
  parseEndpoint endpoint = Some (address, port) -> parseHostPort endpoint = Some (address, port).
Proof.
  unfold parseEndpoint, parseHostPort. destruct (splitLastColon endpoint) as [[[|h host] [|d text]]|]; try done. cbn [mbind option_bind].
  assert (Hloop : forall t v p, 0 <= v <= 65535 -> parsePort_loop t v = Some p -> stoi_digits t v true = Some p /\ 0 <= p <= 65535).
  { induction t as [|c t IH]; intros v p Hv; cbn [parsePort_loop stoi_digits]; [intros [= <-]; done|].
    destruct ((byte_val c <? 48) || (57 <? byte_val c)) eqn:Hc; [done|].
    apply orb_false_iff in Hc as [H1%Z.ltb_ge H2%Z.ltb_ge].
    rewrite (proj2 (Z.leb_le 48 (byte_val c))), (proj2 (Z.leb_le (byte_val c) 57)) by lia. cbn [andb].
    destruct (Z.ltb_spec 65535 (v * 10 + (byte_val c - 48))); [done|]. apply IH. lia. }
  destruct (parsePort (d :: text)) as [p|] eqn:Hp; [|done]. cbn [mbind option_bind]. intros [= <- <-].
  unfold parsePort in Hp. cbn [parsePort_loop] in Hp.
  destruct ((byte_val d <? 48) || (57 <? byte_val d)) eqn:Hd; [done|]. apply orb_false_iff in Hd as [H1%Z.ltb_ge H2%Z.ltb_ge].
  destruct (Z.ltb_spec 65535 (0 * 10 + (byte_val d - 48))); [done|]. apply Hloop in Hp as [Hp Hr]; [|lia].
  assert (Hstoi : stoi (d :: text) = Some p).
  { unfold stoi. cbn [skip_space]. assert (is_space d = false) as ->.
    { unfold is_space. rewrite (proj2 (Z.eqb_neq _ _)), (proj2 (Z.leb_gt _ 13)), andb_false_r by lia. done. }
    rewrite bool_decide_eq_false_2 by (intros ->; vm_compute in H1; congruence).
    rewrite bool_decide_eq_false_2 by (intros ->; vm_compute in H1; congruence).
    cbn [stoi_digits]. rewrite (proj2 (Z.leb_le 48 (byte_val d))), (proj2 (Z.leb_le (byte_val d) 57)) by lia. cbn [andb].
    rewrite Hp. cbn [mbind option_bind]. rewrite (proj2 (Z.leb_le _ p)), (proj2 (Z.ltb_lt p _)) by lia. done. }
  rewrite Hstoi. cbn [mbind option_bind]. rewrite (proj2 (Z.ltb_ge p 0)), (proj2 (Z.ltb_ge 65535 p)) by lia. done.
Qed.

(** Finding.  [parseHostPort] accepts what is no port: text after the number is
    ignored, and so are white space and a sign before it. *)
Lemma parseHostPort_lenient :
  parseHostPort (bs "127.0.0.1: +80x") = Some (bs "127.0.0.1", 80) /\ parseEndpoint (bs "127.0.0.1: +80x") = None.
Proof. by vm_compute. Qed.

(** ** Witnesses *)
#[local] Existing Instance stream_messages.
#[local] Instance sshd_eq_dec : EqDecision ConnectSshd.t.
Proof. solve_decision. Defined.
#[local] Instance http_eq_dec : EqDecision ConnectHttp.t.
Proof. solve_decision. Defined.
#[local] Instance sshd_countable : Countable ConnectSshd.t.
Proof.
  refine (inj_countable' (fun r : ConnectSshd.t => let (a, b, c, d, e) := r in (a, (b, (c, (d, e)))))
            (fun '(a, (b, (c, (d, e)))) => ConnectSshd.mk a b c d e) _).
  by intros [].
Defined.
#[local] Instance http_countable : Countable ConnectHttp.t.
Proof.
  refine (inj_countable' (fun r : ConnectHttp.t => let (a, b, c, d, e, f) := r in (a, (b, (c, (d, (e, f))))))
            (fun '(a, (b, (c, (d, (e, f))))) => ConnectHttp.mk a b c d e f) _).
  by intros [].
Defined.
#[local] Instance sshd_message : ServiceMessageType ConnectSshd.t := counted _ "rsp.proto.ConnectSshd".
#[local] Instance http_message : ServiceMessageType ConnectHttp.t := counted _ "rsp.proto.ConnectHttp".
Import Trickle.

(** The node 7 opens a shell under the id 1. *)
Definition shell_request : RSPMessage.t :=
  from_node 7 (ConnectSshd.mk (Some (toProtoStreamId (mkGUID 1 1))) None None None None).
Definition shell_process : Spawn := Spawned ((bs "hi", []) : Conn).
Definition shell_one : BsdSockets := (handleConnectSshd all_sent initial_bsd shell_process shell_request).1.2.

Lemma forwarding_services_confined_witness :
  no_listeners shell_one /\ is_Some (connections shell_one !! 0%nat) /\ in_table shell_one 0.
Proof.
  destruct (handleConnectSshd all_sent initial_bsd shell_process shell_request) as [[b s'] es] eqn:E.
  assert (Hs : shell_one = s') by (unfold shell_one; by rewrite E).
  destruct (forwarding_services_confined initial_bsd es s') as (N & _ & Ho & _).
  - apply forward_initial.
  - eapply (forward_sshd all_sent shell_process true true (mkGUID 0 0) never_failed); [reflexivity|].
    unfold sshd_handleNodeSpecificMessage. rewrite E. vm_compute. reflexivity.
  - rewrite <- Hs in *. split; [exact N|].
    assert (Hc : is_Some (connections shell_one !! 0%nat)) by (vm_compute; by eexists). split; [exact Hc|].
    apply Ho in Hc as [Ht|[st Hr]]; [exact Ht|vm_compute in Hr; discriminate Hr|vm_compute; reflexivity].
Defined.
